(* ===== verification/_CoqProject ===== *)
-Q . S2P
Prelude.v
Externals.v
Algorithm.v
Multimap.v
Strings.v
Message.v
Request.v
FormParsers.v
Multipart.v
ParserState.v
HeaderParser.v
BodyParser.v
Parser.v
Response.v
Writer.v
Routing.v
Websocket.v
Scheduler.v
Connection.v
Net.v
Server.v
RefUtils.v
DictRefinement.v
HeaderProofs.v
HeaderRoundTrip.v
HeaderTheorems.v
FormTheorems.v
BodyProofs.v
ContentProofs.v
ParserInv.v
MultipartProofs.v
MultipartRoundTrip.v
ParserTheorems.v
ParserSplit.v
ContentTheorems.v
UriTheorems.v
ChunkRoundTrip.v
WriterTheorems.v
ResponseReader.v
RoutingTheorems.v
SchedulerTheorems.v
ParserWorld.v
ServerFrame.v
ServerLevels.v
ServerSteps.v
StopProofs.v
RefServer.v
MessageSource.v
WebsocketTheorems.v
WebsocketLoop.v
WebsocketSafety.v
ServerTheorems.v
BroadcastTheorems.v
ServerAnswers.v
BodyTheorems.v
ServerSafety.v
PipelineTheorems.v
ClosingTheorems.v
ConnectionPhases.v
EndToEnd.v
