(* ===== verification/Prelude.v ===== *)
(** * staticlib_pion: a verification development

    staticlib_pion is an embedded asynchronous HTTP/1.1 server with WebSockets.
    This library models it - the parser, the messages, the writer, the tables,
    the websockets, the reader, the connections, the server and the scheduler -
    as executable definitions and proves what makes each part correct and how
    the parts work together.

    ** The program and where it is modelled

    A [tcp_server] accepts connections; for each of them an
    [http_request_reader] reads bytes and drives an [http_parser], whose hook,
    called when the headers are complete, lets the server choose a payload
    handler.  The finished [http_request] goes to [http_server::handle_request],
    which looks up a handler in its tables and gives it a writer for an
    [http_response], or starts a [websocket].  When the answer has been
    written the connection is finished: it is handled again (keep-alive, or a
    pipelined request that is already in its buffer) or leaves the pool.  All of
    this runs on the threads of a [scheduler].

    - algorithm.hpp: [Algorithm] (character classes, hash).
    - http_message.hpp, .cpp: [Multimap] (header dictionaries), [Message].
    - http_request.hpp: [Request]; http_response.hpp: [Response].
    - http_parser.hpp, .cpp: [ParserState] (fields, errors), [HeaderParser]
      ([parse_headers], one definition per state), [BodyParser] ([parse_chunks],
      [consume_content]), [FormParsers] (query strings, cookies, URIs),
      [Multipart], and [Parser] ([parse], [finish], [finish_header_parsing]).
    - http_response_writer.hpp: [Writer] (buffers) and [Server] (the sends).
    - http_server.hpp, .cpp: [Routing] (tables, look-up, registry) and [Server]
      ([handle_request], the hook, the built-in handlers, broadcasts).
    - websocket.hpp: [Websocket], and [MessageSource] (the source that messages
      are read from).  scheduler.hpp, .cpp: [Scheduler].
    - tcp_connection.hpp: [Connection], with what user code can do.
    - http_request_reader.hpp, .cpp and tcp_server.hpp, .cpp: [Net] (the state
      of a running server) and [Server] (the operations).

    Definitions keep the names of the source.  A C++ [char] is an [ascii], a
    string or a range of memory a list of them, an unsigned integer a [Z] with
    its wrap-around written out ([wrap], [add64], [sub64]).  A function that
    can throw returns a [res]: a value, an exception, or a [Fault] - a failed
    assertion, an access out of bounds, a mutex locked twice by a thread,
    [std::terminate], or the exhaustion of the fuel of a loop.  Stateful code is in the monad [M] of
    a state and such outcomes.  A pointer into a read buffer is the bytes that
    are left.

    ** Asynchrony and ownership

    An asynchronous call adds an [async_op] to the pending operations, with
    the object its handler has captured (a reader, a writer, a websocket); its
    completion, [complete], is one handler run to its end.  Connections are
    numbers; the pool, the pending operations, the writers user code keeps, the
    handlers that have captured nothing but a connection ([n_held]: the timeout
    of a read, the posted handler of a broadcast) and the functions being
    executed are what references them, and [collect] destroys those that
    nothing references.  [ServerSteps] makes this a transition system: a step
    completes any pending operation with any result, uses a kept writer, runs a
    held handler, closes a socket (a timer or user code), or calls [start], a
    part of [stop], or a broadcast.  Handlers of different
    connections can run in parallel in the program; [completion_isolated] is
    why running them one after the other loses nothing but the order of their
    calls of user code.

    ** Code that is not in the repository

    [Externals] and the classes next to their uses are the interfaces to
    staticlib's utilities ([StaticlibUtils]), to the freedom the standard leaves
    [std::unordered_multimap] ([MultimapPolicy]), to sl::websocket
    ([WebsocketLib]), to sources of bytes ([SourceLib]) and to user code
    ([UserEnv], [HandlerTypes], [UserCode]);
    the laws a theorem needs are classes of their own.  [RefUtils] and
    [RefServer] implement all of them, prove the laws, and carry the examples.

    ** What is proved

    - Parsing: [parse] is memory safe and ends, whatever the payload handler
      throws ([ParserTheorems]); its outcome does not depend on how the bytes
      are cut into reads if the payload handler's does not ([ParserSplit]);
      [parse_headers] keeps its limits, accounts for every byte, and has two
      quirks in request lines ([HeaderTheorems]); a chunk over the limit of the
      cache never ends, and a body for which no handler is registered stays in
      the buffer ([BodyTheorems]).
    - Round trips: a printed request head ([HeaderRoundTrip]), a whole request
      with its content ([ContentTheorems]), printed query strings and cookies
      ([FormTheorems]), URIs ([UriTheorems]) and the chunks the writer sends ([ChunkRoundTrip]) are
      parsed back to what they were.  A body with a content-length reaches its
      payload handler whole, in whatever buffers it arrives, unless the handler
      throws ([ContentTheorems]).  Multipart parsing is total ([MultipartProofs]) and
      reads back printed forms ([MultipartRoundTrip]).
    - Refinement: header dictionaries implement a finite map from case-folded
      names to values ([DictRefinement]); the members of [websocket] reassemble
      messages from reads that need not respect the frames, but a ping between
      fragments loses them ([WebsocketTheorems]); a callback that reads a
      message through its source gets its bytes ([MessageSource]).
    - Answers: a response in one piece is framed rightly ([WriterTheorems]); a
      reader that follows the message format and shares no code with the
      printer gets back what was written, in one piece, in chunks or up to the
      end of the connection ([ResponseReader]); malformed requests and requests
      without a handler are answered by exactly one such message
      ([ServerAnswers]); handlers are found by the longest
      registered ancestor ([RoutingTheorems]); pipelined requests are answered
      in order, and a connection is kept or given up as its last request asks
      ([PipelineTheorems]); together with the round trip of printed requests
      this goes from what a client prints to the answers it reads ([EndToEnd]).
    - WebSockets: a chain of callbacks ends ([WebsocketLoop]); a close handler
      that calls [receive] leads out of bounds ([WebsocketTheorems]), one that
      calls [close] never comes to an end ([ClosingTheorems]); a broadcast
      reaches each connection of its path once, or never ends
      ([BroadcastTheorems]).
    - The server: what a completion may touch ([ServerFrame]); every reachable
      state has one owner per connection, [stop] waits exactly for what is in
      flight or holds a connection and ends when that fails, with WebSockets
      too if their close handlers destroy them ([StopProofs]), a completion
      works on its own connection, and a nested [finish] deadlocks
      ([ServerSteps], [ServerTheorems]); each connection lives the life of an
      abstract machine, from its accept to its release, and a websocket never
      goes back to requests ([ConnectionPhases]); the recursion through
      [finish] has two levels ([ServerLevels]); and a server is memory safe from
      end to end, WebSockets included, if its close handlers do not ask for
      more than [close] ([WebsocketSafety], [ServerSafety]).
    - The scheduler is well-formed after any history, except that a thread of
      the pool that calls [shutdown] terminates the process, and [shutdown]
      waits for its users ([SchedulerTheorems]).

    The files named ...Proofs, [ParserInv], [ParserWorld] and
    [WebsocketSafety] hold the lemmas these theorems share.

    ** Fuel

    [parse]'s main loop has four turns ([parse_safe]: enough), the look-up of
    a path two more than its length ([find_submatch_longest]), multipart parsing
    a multiple of its input ([parse_multipart_total]), the cycle through
    [finish] two levels ([finish_two_levels]).  [sprintf_lx] prints sixteen
    digits, what a 64-bit number has.  The loop of [find_ws_conns] has no bound
    that would do: [find_ws_conns_ends] says when it ends.  [perform] has as
    much fuel as the receive buffer of the websocket has bytes, and three more
    ([perform_ends]).

    ** Not modelled

    Logging; the exception class, whose throws are values; asio's sockets, TLS
    and timers, which appear as completions, as handlers that hold a connection
    until they run and as sockets that close at any moment (what [cancel] and
    [cancel_timer] do is to make operations complete that could complete at any
    moment); threads, which appear as the order of steps, and the hook they call
    at their end; [receive_error_t], the error category of a function that this
    version of [http_message] does not have; [set_last_modified], which formats
    a time; plain getters and setters, which are the fields of the records; the
    names of headers and statuses that nothing uses; websockets that user code
    keeps for a delayed response (a handler of the model uses or destroys its
    websocket before it returns; writers can be kept); and the tests.

    Of user code the safety theorem asks that close handlers end with [close]
    or destroy the websocket, because of [receive_after_close], and that a
    creator of payload handlers that detaches the request from its reader
    leaves its content alone ([UserLaws]); payload handlers may throw.  The
    independence of cuts ([parse_split]) asks of payload handlers that they do
    not depend on the cut themselves ([StreamHandler]).  *)

From Stdlib Require Export Ascii.
From stdpp Require Export base list strings numbers.

(** ** Characters, byte strings, sizes

    A C++ [char] is an [ascii], a [std::string] or a memory range a list of
    them, a string literal is written [bs "..."].  [slen] is [size()], a
    [size_t], as an integer. *)

Abbreviation char := Ascii.ascii (only parsing).
Abbreviation str := (list Ascii.ascii) (only parsing).

Definition bs (s : String.string) : str := String.list_ascii_of_string s.

Definition slen (s : str) : Z := Z.of_nat (length s).

Declare Scope pion_scope.
Delimit Scope pion_scope with pion.
#[global] Open Scope pion_scope.
#[global] Open Scope Z_scope.

Notation "c '==c' d" := (Ascii.eqb c d%char) (at level 70, no associativity) : pion_scope.
Notation "c '!=c' d" := (negb (Ascii.eqb c d%char)) (at level 70, no associativity) : pion_scope.

(** the control characters that the code writes as escapes *)
Definition CR : char := "013"%char.
Definition LF : char := "010"%char.
Definition TAB : char := "009"%char.
Definition NUL : char := "000"%char.
Definition DQUOTE : char := "034"%char.
Definition SQUOTE : char := "039"%char.
Definition BACKSLASH : char := "092"%char.

(** ** Machine integers: unsigned arithmetic wraps at the type's width *)

Definition wrap (w : Z) (z : Z) : Z := z mod 2 ^ w.
Definition add64 (a b : Z) : Z := wrap 64 (a + b).
Definition sub64 (a b : Z) : Z := wrap 64 (a - b).

Notation "a '+64' b" := (add64 a b) (at level 50, left associativity) : pion_scope.
Notation "a '-64' b" := (sub64 a b) (at level 50, left associativity) : pion_scope.

(** ** Record update, [r <| f := v |>]

    A record declares its fields once, as an instance of [Fields]; a setter
    is derived from it for each field and keeps the other fields as
    projections, so that [cbn] computes [f' (r <| f := v |>)]. *)

Class Fields (R : Type) := eta_fields : R -> R.
Class Setter {R F : Type} (get : R -> F) := set_field : F -> R -> R.
#[global] Arguments set_field {R F} get {_} _ _.
#[global] Typeclasses Opaque Fields Setter.

Ltac head_of t := lazymatch t with ?f _ => head_of f | ?f => f end.

Ltac solve_setter :=
  lazymatch goal with
  | |- @Setter ?R ?F ?get =>
    let i := constr:(ltac:(typeclasses eauto) : Fields R) in
    let i := lazymatch i with (?x : _) => x | ?x => x end in
    let h := head_of i in
    let e := eval unfold h in i in
    let e := eval cbv beta in e in
    lazymatch eval pattern get in e with
    | ?g _ => let s := eval cbv beta in (fun (v : F) => g (fun _ : R => v)) in exact s
    end
  end.
#[global] Hint Extern 1 (Setter _) => solve_setter : typeclass_instances.

Notation "r <| f := v |>" := (set_field f v r)
  (at level 1, left associativity, f at level 1, v at level 99,
   format "r <| f  :=  v |>") : pion_scope.

(** ** Outcomes: values, C++ exceptions, and faults

    A fault is what no C++ program can recover from: a failed [assert], a
    memory access outside its object, locking a [std::mutex] already held by
    the thread, [std::terminate], and the exhaustion of the model's own loop
    fuel. *)

Inductive exn :=
| ExnRuntime   (** a [std::runtime_error] *)
| ExnStd       (** another class derived from [std::exception] *)
| ExnBadAlloc  (** [std::bad_alloc], also a [std::exception] *)
| ExnOther.    (** anything else *)
Inductive fault := AssertFailed | OutOfBounds | Deadlock | Terminated | OutOfFuel.

Inductive res (A : Type) :=
| Val (a : A)
| Exn (e : exn)
| Fault (f : fault).
Arguments Val {A} _.
Arguments Exn {A} _.
Arguments Fault {A} _.

(** does [catch (const std::exception&)] take it *)
Definition is_std (e : exn) : bool :=
  match e with ExnOther => false | _ => true end.

#[export] Instance exn_eq_dec : EqDecision exn.
Proof. solve_decision. Defined.
#[export] Instance fault_eq_dec : EqDecision fault.
Proof. solve_decision. Defined.
#[export] Instance res_eq_dec `{EqDecision A} : EqDecision (res A).
Proof. solve_decision. Defined.

(** ** The state-and-exception monad

    The state survives a throw, as the members of a C++ object do. *)

Definition M (S A : Type) : Type := S -> res A * S.

Section Monad.
Context {S : Type}.

Definition ret {A} (a : A) : M S A := fun s => (Val a, s).
Definition throw {A} (e : exn) : M S A := fun s => (Exn e, s).
Definition crash {A} (f : fault) : M S A := fun s => (Fault f, s).
Definition bind {A B} (m : M S A) (k : A -> M S B) : M S B :=
  fun s => match m s with
           | (Val a, s') => k a s'
           | (Exn e, s') => (Exn e, s')
           | (Fault f, s') => (Fault f, s')
           end.
Definition gets {A} (f : S -> A) : M S A := fun s => (Val (f s), s).
Definition modify (f : S -> S) : M S unit := fun s => (Val tt, f s).

(** [try { m } catch (...) { h }]; [catches] selects the exceptions taken *)
Definition try_catch {A} (catches : exn -> bool) (m : M S A) (h : M S A) : M S A :=
  fun s => match m s with
           | (Exn e, s') => if catches e then h s' else (Exn e, s')
           | r => r
           end.

End Monad.

Notation "x <- m ;; k" := (bind m (fun x => k))
  (at level 100, m at next level, right associativity) : pion_scope.
Notation "m ;;; k" := (bind m (fun _ => k))
  (at level 100, right associativity) : pion_scope.

(** ** Tactics shared by the components *)

(** case analysis on every match or conditional of the goal, with the
    equation kept *)
Ltac split_cases :=
  repeat (simplify_eq/=; case_match; simplify_eq/=).

(** the same in a hypothesis *)
Ltac split_cases_in H :=
  repeat (case_match; simplify_eq/=; try discriminate H).

Ltac chars :=
  repeat match goal with
         | H : Ascii.eqb _ _ = true |- _ => apply Ascii.eqb_eq in H; subst
         | H : Ascii.eqb _ _ = false |- _ => apply Ascii.eqb_neq in H
         | H : negb _ = true |- _ => apply negb_true_iff in H
         | H : negb _ = false |- _ => apply negb_false_iff in H
         | H : (_ && _) = true |- _ => apply andb_true_iff in H; destruct H
         | H : (_ || _) = false |- _ => apply orb_false_iff in H; destruct H
         end.

(** ** Lemmas on sizes and machine integers *)

Create HintDb pion discriminated.

Lemma slen_nil : slen [] = 0.
Proof. reflexivity. Qed.

Lemma slen_cons c s : slen (c :: s) = slen s + 1.
Proof. unfold slen. cbn [length]. lia. Qed.

Lemma slen_app s t : slen (s ++ t) = slen s + slen t.
Proof. unfold slen. rewrite length_app. lia. Qed.

Lemma slen_snoc s c : slen (s ++ [c]) = slen s + 1.
Proof. rewrite slen_app, slen_cons, slen_nil. lia. Qed.

Lemma slen_nonneg s : 0 <= slen s.
Proof. unfold slen. lia. Qed.

Lemma slen_zero s : slen s = 0 -> s = [].
Proof. unfold slen. destruct s; cbn [length]; [done | lia]. Qed.

#[export] Hint Resolve slen_nonneg : pion.
#[export] Hint Rewrite slen_nil slen_cons slen_app slen_snoc : slen.

Lemma wrap_small w z : 0 <= z < 2 ^ w -> wrap w z = z.
Proof. intros H. unfold wrap. by apply Z.mod_small. Qed.

Lemma wrap_range w z : 0 <= w -> 0 <= wrap w z < 2 ^ w.
Proof. intros H. unfold wrap. apply Z.mod_pos_bound. lia. Qed.

Lemma add64_small a b : 0 <= a -> 0 <= b -> a + b < 2 ^ 64 -> a +64 b = a + b.
Proof. intros. apply wrap_small. lia. Qed.

Lemma sub64_small a b : 0 <= b <= a -> a < 2 ^ 64 -> a -64 b = a - b.
Proof. intros. apply wrap_small. lia. Qed.

Lemma add64_assoc a b c : a +64 b +64 c = a +64 (b + c).
Proof.
  unfold add64, wrap. rewrite Zplus_mod_idemp_l. f_equal. lia.
Qed.

Lemma add64_range a b : 0 <= a +64 b < 2 ^ 64.
Proof. apply wrap_range. lia. Qed.

Lemma add64_0_r a : 0 <= a < 2 ^ 64 -> a +64 0 = a.
Proof. intros. rewrite add64_small; lia. Qed.

#[export] Hint Resolve add64_range : pion.

(** ** Dropping a prefix, by recursion on the list

    The same function as [drop], with the list as its structural argument,
    so that a loop that skips several bytes at once stays structural. *)

Section Dropl.
Context {A : Type}.

Fixpoint dropl (l : list A) (n : nat) {struct l} : list A :=
  match n with
  | O => l
  | S n' => match l with [] => l | _ :: l' => dropl l' n' end
  end.

Lemma dropl_drop (l : list A) n : dropl l n = drop n l.
Proof.
  revert n. induction l as [|x l IH]; intros [|n]; cbn; auto.
Qed.

End Dropl.
