(* ===== verification/Externals.v ===== *)
(** * Code outside this repository, as interfaces

    What the sources take from [sl::support] and [sl::utils] (the libraries
    staticlib_support and staticlib_utils), as an operational class whose
    members are the functions called, and one class of laws per documented
    behaviour a theorem relies on.  Nothing here is a model of those
    libraries: every definition of the development that calls them takes
    them as parameters.  [RefUtils.v] holds one concrete implementation, used
    by the examples. *)

From S2P Require Import Prelude.

(** ** [sl::support::tribool]

    The sources use the three values that the comments of [parse] list
    ("tribool may have one of THREE states"). *)

Inductive tribool := tfalse | ttrue | indeterminate.

#[export] Instance tribool_eq_dec : EqDecision tribool.
Proof. solve_decision. Defined.

(** [rc == true], [rc == false], [indeterminate(rc)] *)
Definition is_ttrue (rc : tribool) : bool := match rc with ttrue => true | _ => false end.
Definition is_tfalse (rc : tribool) : bool := match rc with tfalse => true | _ => false end.
Definition is_indeterminate (rc : tribool) : bool :=
  match rc with indeterminate => true | _ => false end.

(** conversion from [bool] *)
Definition tri (b : bool) : tribool := if b then ttrue else tfalse.

(** ** [sl::utils] and [sl::support]

    The parsing functions report errors by throwing.  [trim] is called on a
    [std::string] lvalue both for its effect on it ([trim_arg]) and for its
    result ([trim_ret]). *)

Class StaticlibUtils := {
  iequals : str -> str -> bool;
  url_encode : str -> str;
  url_decode : str -> str;
  trim_arg : str -> str;
  trim_ret : str -> str;
  split : str -> char -> list str;
  parse_uint64 : str -> res Z;
  parse_uint16 : str -> res Z;
  to_string : Z -> str;
}.

(** [std::toupper] of an [int], in the "C" locale *)
Definition toupper (c : Z) : Z :=
  if (97 <=? c) && (c <=? 122) then c - 32 else c.

(** conversion of a [char] to [int] where [char] is signed (x86 ABIs) and
    where it is unsigned *)
Definition int_of_uchar (c : char) : Z := Z.of_N (Ascii.N_of_ascii c).
Definition int_of_char (c : char) : Z :=
  let u := int_of_uchar c in if u <? 128 then u else u - 256.

(** "Case insensitive byte-to-byte string comparison, does not support
    Unicode" (the comment of [iequal_to]) *)
Class IequalsLaw `{StaticlibUtils} : Prop :=
  iequals_spec x y :
    iequals x y = true <->
    map (toupper ∘ int_of_char) x = map (toupper ∘ int_of_char) y.

(** the characters percent-encoding leaves in its output: letters, digits,
    [-._~], [%] and [+] *)
Definition url_safe (c : char) : bool :=
  let u := int_of_uchar c in
  ((48 <=? u) && (u <=? 57)) || ((65 <=? u) && (u <=? 90)) || ((97 <=? u) && (u <=? 122)) ||
  existsb (Ascii.eqb c) (bs "-._~%+*!'()").

(** url-encoding is undone by url-decoding, emits only safe characters, and
    never encodes a non-empty string as the empty one *)
Class UrlCodecLaw `{StaticlibUtils} : Prop := {
  url_decode_encode s : url_decode (url_encode s) = s;
  url_encode_safe s : Forall (fun c => url_safe c = true) (url_encode s);
  url_encode_nonempty s : s <> [] -> url_encode s <> [];
}.

(** [parse_uint64] and [parse_uint16] return a value of the type they name, or
    throw *)
Class ParseUintLaw `{StaticlibUtils} : Prop := {
  parse_uint64_range s n : parse_uint64 s = Val n -> 0 <= n < 2 ^ 64;
  parse_uint16_range s n : parse_uint16 s = Val n -> 0 <= n < 2 ^ 16;
  parse_uint64_no_fault s f : parse_uint64 s <> Fault f;
  parse_uint16_no_fault s f : parse_uint16 s <> Fault f;
}.

(** [to_string] prints in base ten: it is undone by the decimal parsers, emits
    digits, and the digits' value is the number printed *)
Class DecimalLaw `{StaticlibUtils} : Prop := {
  parse_uint64_to_string n : 0 <= n < 2 ^ 64 -> parse_uint64 (to_string n) = Val n;
  parse_uint16_to_string n : 0 <= n < 2 ^ 16 -> parse_uint16 (to_string n) = Val n;
  to_string_digits n :
    0 <= n -> Forall (fun c => 48 <= int_of_char c <= 57) (to_string n);
  to_string_nonempty n : to_string n <> [];
  to_string_value n :
    0 <= n -> fold_left (fun a c => a * 10 + (int_of_char c - 48)) (to_string n) 0 = n;
}.

(** [trim] removes blanks only: a string of printing characters stays as it is *)
Class TrimLaw `{StaticlibUtils} : Prop :=
  trim_arg_clean s : Forall (fun c => 33 <= int_of_char c <= 126) s -> trim_arg s = s.

Lemma iequals_refl `{IequalsLaw} x : iequals x x = true.
Proof. by apply iequals_spec. Qed.

Lemma iequals_sym `{IequalsLaw} x y : iequals x y = iequals y x.
Proof. apply eq_bool_prop_intro; unfold Is_true.
  destruct (iequals x y) eqn:E1, (iequals y x) eqn:E2; try done;
    exfalso; [apply iequals_spec in E1 | apply iequals_spec in E2];
    [symmetry in E1; apply iequals_spec in E1 | symmetry in E2; apply iequals_spec in E2];
    congruence.
Qed.

Lemma iequals_trans `{IequalsLaw} x y z :
  iequals x y = true -> iequals y z = true -> iequals x z = true.
Proof. rewrite !iequals_spec. congruence. Qed.

(** equivalent keys are interchangeable in a comparison *)
Lemma iequals_congr `{IequalsLaw} x y z :
  iequals x y = true -> iequals x z = iequals y z.
Proof.
  intros E. destruct (iequals y z) eqn:Eyz.
  - eauto using iequals_trans.
  - destruct (iequals x z) eqn:Exz; [|done].
    rewrite iequals_sym in E. rewrite (iequals_trans _ _ _ E Exz) in Eyz. done.
Qed.

#[export] Hint Resolve iequals_refl : pion.
