(* ===== verification/Algorithm.v ===== *)
(** * Character classes and the case-insensitive hash (algorithm.hpp) *)

From S2P Require Import Prelude.
From S2P Require Import Externals.

(** ** Character classes, on the [int] a [char] is promoted to *)

Definition is_char (c : Z) : bool := (0 <=? c) && (c <=? 127).

Definition is_control (c : Z) : bool := ((0 <=? c) && (c <=? 31)) || (c =? 127).

(** the characters listed by the [switch] of [is_special] *)
Definition special_chars : str :=
  bs "()<>@" ++ bs ",;:" ++ [BACKSLASH; DQUOTE] ++ bs "/[]?=" ++ bs "{} " ++ [TAB].

Definition is_special (c : Z) : bool :=
  existsb (fun s => c =? int_of_char s) special_chars.

(** the three tests on a [char] read from the input *)
Definition ch_is_char (c : char) : bool := is_char (int_of_char c).
Definition ch_is_control (c : char) : bool := is_control (int_of_char c).
Definition ch_is_special (c : char) : bool := is_special (int_of_char c).

(** the test the header parser repeats for the characters of a token *)
Definition not_token (c : char) : bool :=
  negb (ch_is_char c) || ch_is_control c || ch_is_special c.

(** ** [hash_combine] and [ihash]; [std::hash<int>] is a parameter *)

Section Hash.
Context (std_hash_int : Z -> Z).

Definition hash_combine (seed v : Z) : Z :=
  Z.lxor seed
    (wrap 64 (wrap 64 (wrap 64 (std_hash_int v + 0x9e3779b9) + wrap 64 (Z.shiftl seed 6))
              + Z.shiftr seed 2)).

Definition ihash (x : str) : Z :=
  fold_left (fun seed it => hash_combine seed (toupper (int_of_char it))) x 0.

Lemma ihash_from_map x seed :
  fold_left (fun seed it => hash_combine seed (toupper (int_of_char it))) x seed =
  fold_left hash_combine (map (toupper ∘ int_of_char) x) seed.
Proof. revert seed. induction x as [|c x IH]; intros; cbn; auto. Qed.

End Hash.

(** ** Properties *)

(** a property of one byte holds of all of them when it holds of the 256 *)
Lemma all_chars (P : char -> bool) :
  forallb (fun n => P (Ascii.ascii_of_nat n)) (seq 0 256) = true -> forall c, P c = true.
Proof.
  intros H c. rewrite forallb_forall in H.
  specialize (H (Ascii.nat_of_ascii c)). rewrite Ascii.ascii_nat_embedding in H.
  apply H. apply in_seq. pose proof (Ascii.nat_ascii_bounded c). lia.
Qed.

(** [by_chars P] proves a boolean statement about every character by
    evaluating it on all of them *)
Ltac by_chars c :=
  pattern c;
  match goal with
  | |- ?F c => 
    let b := eval cbv beta in (F c) in
    lazymatch b with
    | ?l = true => revert c; apply all_chars; vm_compute; reflexivity
    end
  end.

Lemma token_printable c : not_token c = false -> c <> CR /\ c <> LF /\ c <> " "%char /\ c <> ":"%char /\ c <> "?"%char.
Proof.
  intros H. repeat split; intros ->; vm_compute in H; discriminate.
Qed.

Lemma int_of_char_range c : -128 <= int_of_char c <= 127.
Proof.
  unfold int_of_char, int_of_uchar.
  pose proof (Ascii.N_ascii_bounded c). case_match; lia.
Qed.
