(* ===== verification/Multimap.v ===== *)
(** * Header dictionaries: [std::unordered_multimap] and its helpers

    Headers, cookies and query parameters are
    [std::unordered_multimap<std::string, std::string, ihash, iequal_to>].
    A dictionary is the list of its elements in iteration order.  The
    standard leaves open where [insert] puts an element (it may even rehash)
    and which of several equivalent elements [find] returns: both are members
    of an interface, [MultimapPolicy], with the guarantees the standard gives
    as its laws.  [get_value], [change_value] and [delete_value] are the
    helpers of http_message.hpp. *)

From S2P Require Import Prelude.
From S2P Require Import Externals.

Abbreviation mmap := (list (str * str)).

Class MultimapPolicy := {
  mm_insert : str * str -> mmap -> mmap;
  mm_find : str -> mmap -> option str;
}.

Section Ops.
Context `{SU : StaticlibUtils, MP : MultimapPolicy}.

(** [iequal_to::operator()] *)
Definition iequal_to (x y : str) : bool := iequals x y.

Definition key_is (key : str) (kv : str * str) : bool := iequal_to kv.1 key.

(** the elements of [dict.equal_range(key)], in order *)
Definition equal_range (dict : mmap) (key : str) : mmap :=
  filter (fun kv => key_is key kv = true) dict.

(** [dict.find(key) != dict.end()] *)
Definition has_key (dict : mmap) (key : str) : bool :=
  match mm_find key dict with Some _ => true | None => false end.

Definition get_value (dict : mmap) (key : str) : str :=
  match mm_find key dict with None => [] | Some v => v end.

(** assign to the first element of the range, erase the others *)
Fixpoint assign_first (dict : mmap) (key value : str) : mmap :=
  match dict with
  | [] => []
  | kv :: dict' =>
    if key_is key kv
    then (kv.1, value) :: filter (fun kv' => key_is key kv' = false) dict'
    else kv :: assign_first dict' key value
  end.

Definition change_value (dict : mmap) (key value : str) : mmap :=
  match equal_range dict key with
  | [] => mm_insert (key, value) dict
  | _ :: _ => assign_first dict key value
  end.

Definition delete_value (dict : mmap) (key : str) : mmap :=
  filter (fun kv => key_is key kv = false) dict.

End Ops.

(** What the standard guarantees of [insert] and [find]. *)
Class MultimapLaws `{SU : StaticlibUtils, MP : MultimapPolicy} : Prop := {
  mm_insert_perm kv d : mm_insert kv d ≡ₚ kv :: d;
  mm_find_none key d : mm_find key d = None <-> equal_range d key = [];
  mm_find_some key d v :
    mm_find key d = Some v -> exists key', (key', v) ∈ equal_range d key;
}.

(** ** Properties *)

Section Properties.
Context `{ML : MultimapLaws}.
Context {IL : IequalsLaw}.

Lemma equal_range_cons kv d key :
  equal_range (kv :: d) key =
  if key_is key kv then kv :: equal_range d key else equal_range d key.
Proof.
  unfold equal_range. rewrite filter_cons.
  destruct (key_is key kv) eqn:E; case_decide; congruence.
Qed.

Lemma equal_range_perm d d' key : d ≡ₚ d' -> equal_range d key ≡ₚ equal_range d' key.
Proof. apply filter_Permutation. Qed.

Lemma equal_range_insert kv d key :
  equal_range (mm_insert kv d) key ≡ₚ
  if key_is key kv then kv :: equal_range d key else equal_range d key.
Proof. rewrite <- equal_range_cons. apply equal_range_perm, mm_insert_perm. Qed.

(** a range with one element decides what [find] returns *)
Lemma get_value_unique d key key' v :
  equal_range d key = [(key', v)] -> get_value d key = v.
Proof.
  intros E. unfold get_value. destruct (mm_find key d) as [w|] eqn:F.
  - apply mm_find_some in F as [k Hk]. rewrite E in Hk.
    apply list_elem_of_singleton in Hk. congruence.
  - apply mm_find_none in F. congruence.
Qed.

Lemma get_value_absent d key : equal_range d key = [] -> get_value d key = [].
Proof. intros E. unfold get_value. by apply mm_find_none in E as ->. Qed.

Lemma has_key_spec d key : has_key d key = true <-> equal_range d key <> [].
Proof.
  unfold has_key. destruct (mm_find key d) eqn:F.
  - split; [|done]. intros _ E. apply mm_find_none in E. congruence.
  - apply mm_find_none in F. split; congruence.
Qed.

Lemma key_is_key_is key key' kv :
  key_is key kv = true -> key_is key' kv = true -> iequal_to key key' = true.
Proof.
  unfold key_is, iequal_to. intros H1 H2. rewrite iequals_sym in H1.
  eauto using iequals_trans.
Qed.

Lemma equal_range_delete d key key' :
  iequal_to key key' = false -> equal_range (delete_value d key) key' = equal_range d key'.
Proof.
  intros N. induction d as [|kv d IH]; [done|].
  unfold delete_value in *. rewrite filter_cons, !equal_range_cons.
  destruct (key_is key kv) eqn:E1, (key_is key' kv) eqn:E2; case_decide; try congruence;
    rewrite ?equal_range_cons, ?E2, ?IH; try done.
  rewrite (key_is_key_is _ _ _ E1 E2) in N. done.
Qed.

Lemma equal_range_delete_same d key : equal_range (delete_value d key) key = [].
Proof.
  induction d as [|kv d IH]; [done|].
  unfold delete_value in *. rewrite filter_cons. case_decide as E; [|done].
  by rewrite equal_range_cons, E.
Qed.

Lemma assign_first_range d key v :
  equal_range d key <> [] -> exists k, iequal_to k key = true /\ equal_range (assign_first d key v) key = [(k, v)].
Proof.
  induction d as [|kv d IH]; [done|]. rewrite equal_range_cons. cbn [assign_first].
  destruct (key_is key kv) eqn:E; intros N.
  - exists kv.1. split; [done|].
    rewrite equal_range_cons. unfold key_is at 1. cbn. 
    change (iequal_to kv.1 key) with (key_is key kv). rewrite E.
    change (filter _ d) with (delete_value d key). by rewrite equal_range_delete_same.
  - rewrite equal_range_cons, E. auto.
Qed.

Lemma assign_first_range_ne d key key' v :
  iequal_to key key' = false ->
  equal_range (assign_first d key v) key' = equal_range d key'.
Proof.
  intros N. induction d as [|kv d IH]; [done|]. cbn [assign_first].
  destruct (key_is key kv) eqn:E.
  - rewrite !equal_range_cons. unfold key_is at 1. cbn.
    change (iequal_to kv.1 key') with (key_is key' kv).
    destruct (key_is key' kv) eqn:E'; [by rewrite (key_is_key_is _ _ _ E E') in N|].
    change (filter _ d) with (delete_value d key). by apply equal_range_delete.
  - by rewrite !equal_range_cons, IH.
Qed.

Lemma change_value_range d key v :
  exists k, iequal_to k key = true /\ equal_range (change_value d key v) key = [(k, v)].
Proof.
  unfold change_value. destruct (equal_range d key) eqn:E.
  - exists key. split; [apply iequals_refl|].
    apply Permutation_singleton_r. symmetry. rewrite equal_range_insert.
    unfold key_is, iequal_to. cbn. by rewrite iequals_refl, E.
  - apply assign_first_range. congruence.
Qed.

Lemma change_value_range_ne d key key' v :
  iequal_to key key' = false ->
  equal_range (change_value d key v) key' ≡ₚ equal_range d key'.
Proof.
  intros N. unfold change_value. destruct (equal_range d key) eqn:E.
  - rewrite equal_range_insert. unfold key_is. cbn. by rewrite N.
  - by rewrite assign_first_range_ne.
Qed.

End Properties.
