(* ===== verification/Strings.v ===== *)
(** * The [std::string] operations the sources use

    [find], [substr], [std::search], [compare] with a prefix length, and
    [find_last_of], on byte lists.  Positions are [nat]; [npos] is [None]. *)

From S2P Require Import Prelude.

Fixpoint is_prefix (p s : str) : bool :=
  match p, s with
  | [], _ => true
  | _ :: _, [] => false
  | a :: p', b :: s' => Ascii.eqb a b && is_prefix p' s'
  end.

(** [std::search(first, last, p.begin(), p.end()) - first]: the position of
    the first occurrence of [p], or the length of the range *)
Fixpoint search (p s : str) : nat :=
  if is_prefix p s then O
  else match s with [] => O | _ :: s' => S (search p s') end.

(** [s.find(p)] *)
Fixpoint str_find (p s : str) : option nat :=
  if is_prefix p s then Some O
  else match s with [] => None | _ :: s' => S <$> str_find p s' end.

(** [s.find(c)] for a character *)
Definition find_char (c : char) (s : str) : option nat := str_find [c] s.

Definition contains (p s : str) : bool :=
  match str_find p s with Some _ => true | None => false end.

(** [s.find(p, pos)] *)
Definition str_find_from (p s : str) (pos : nat) : option nat :=
  (fun i => (pos + i)%nat) <$> str_find p (drop pos s).

(** [s.substr(pos, n)] and [s.substr(pos)] for [pos <= s.size()] *)
Definition substr (s : str) (pos n : nat) : str := take n (drop pos s).
Definition substr_from (s : str) (pos : nat) : str := drop pos s.

(** [s.find_last_of(c)] for one character *)
Fixpoint find_last (c : char) (s : str) : option nat :=
  match s with
  | [] => None
  | d :: s' =>
    match find_last c s' with
    | Some i => Some (S i)
    | None => if Ascii.eqb d c then Some O else None
    end
  end.

(** [s.compare(0, p.length(), p) == 0] *)
Definition compare_prefix (s p : str) : bool := bool_decide (take (length p) s = p).

Definition str_eqb (a b : str) : bool := bool_decide (a = b).

(** ** Properties *)

Lemma is_prefix_spec p s : is_prefix p s = true <-> p `prefix_of` s.
Proof.
  revert s. induction p as [|a p IH]; intros [|b s]; cbn.
  - split; [|done]. intros _. apply prefix_nil.
  - split; [|done]. intros _. apply prefix_nil.
  - split; [done|]. intros H. by apply prefix_nil_inv in H.
  - rewrite andb_true_iff, IH, Ascii.eqb_eq. split.
    + intros [-> H]. by apply prefix_cons.
    + intros H. split; [by apply prefix_cons_inv_1 in H | by apply prefix_cons_inv_2 in H].
Qed.

Lemma is_prefix_app p s : is_prefix p (p ++ s) = true.
Proof. apply is_prefix_spec. by exists s. Qed.

Lemma compare_prefix_spec s p : compare_prefix s p = true <-> p `prefix_of` s.
Proof.
  unfold compare_prefix. rewrite bool_decide_eq_true. split.
  - intros <-. exists (drop (length p) s). by rewrite take_drop.
  - intros [k ->]. by rewrite take_app_length.
Qed.

Lemma str_find_search p s :
  match str_find p s with Some i => search p s = i | None => search p s = length s end.
Proof.
  induction s as [|c s IH]; cbn; destruct (is_prefix p _) eqn:E; try done.
  destruct (str_find p s); cbn; congruence.
Qed.

Lemma search_le p s : (search p s <= length s)%nat.
Proof. induction s as [|c s IH]; cbn; destruct (is_prefix p _); lia. Qed.

(** the first occurrence is where the pattern is known to be, when no earlier
    position matches *)
Lemma str_find_app p a b :
  (forall i, (i < length a)%nat -> is_prefix p (drop i (a ++ p ++ b)) = false) ->
  str_find p (a ++ p ++ b) = Some (length a).
Proof.
  induction a as [|c a IH]; intros H.
  - cbn [app]. destruct (p ++ b) eqn:E; cbn; rewrite <- E, is_prefix_app; done.
  - assert (is_prefix p ((c :: a) ++ p ++ b) = false) as H0 by (apply (H O); cbn; lia).
    cbn in *. rewrite H0, IH; [done|]. intros i Hi. apply (H (S i)). lia.
Qed.

Lemma find_char_app c a b :
  c ∉ a -> find_char c (a ++ c :: b) = Some (length a).
Proof.
  unfold find_char. induction a as [|d a IH]; intros H; cbn.
  - by rewrite Ascii.eqb_refl.
  - apply not_elem_of_cons in H as [Hd Ha].
    assert (Ascii.eqb c d = false) as -> by (by apply Ascii.eqb_neq).
    cbn. by rewrite IH.
Qed.

Lemma find_char_none c s : find_char c s = None <-> c ∉ s.
Proof.
  unfold find_char. induction s as [|d s IH]; cbn.
  - split; [|done]. intros _ H. by apply elem_of_nil in H.
  - rewrite not_elem_of_cons. destruct (Ascii.eqb_spec c d) as [->|N]; cbn.
    + split; [done|]. intros [H _]. done.
    + rewrite fmap_None, IH. split; [done|]. intros [_ H]. done.
Qed.

Lemma find_last_none c s : find_last c s = None <-> c ∉ s.
Proof.
  induction s as [|d s IH]; cbn.
  - split; [|done]. intros _ H. by apply elem_of_nil in H.
  - rewrite not_elem_of_cons. destruct (find_last c s) eqn:E.
    + split; [done|]. intros [_ H]. by apply IH in H.
    + destruct (Ascii.eqb_spec d c) as [->|N]; [|by rewrite <- IH].
      split; [done|]. intros [H _]. done.
Qed.

Lemma find_last_some c s i :
  find_last c s = Some i -> s = take i s ++ c :: drop (S i) s /\ c ∉ drop (S i) s.
Proof.
  revert i. induction s as [|d s IH]; intros i; cbn; [done|].
  destruct (find_last c s) as [j|] eqn:E.
  - intros [= <-]. destruct (IH j eq_refl) as [H1 H2]. cbn. split; [by f_equal | done].
  - destruct (Ascii.eqb_spec d c) as [->|N]; [|done]. intros [= <-]. cbn.
    rewrite drop_0. split; [done|]. by apply find_last_none.
Qed.

Lemma find_last_lt c s i : find_last c s = Some i -> (i < length s)%nat.
Proof.
  revert i. induction s as [|d s IH]; intros i; cbn; [done|].
  destruct (find_last c s) as [j|] eqn:E; [intros [= <-]; specialize (IH j eq_refl); lia|].
  destruct (Ascii.eqb d c); [|done]. intros [= <-]. lia.
Qed.

Lemma str_eqb_eq a b : str_eqb a b = true <-> a = b.
Proof. unfold str_eqb. apply bool_decide_eq_true. Qed.

Lemma str_eqb_refl a : str_eqb a a = true.
Proof. by apply str_eqb_eq. Qed.

#[export] Hint Resolve str_eqb_refl : pion.
