(* ===== verification/Message.v ===== *)
(** * HTTP messages (http_message.hpp, http_message.cpp)

    The state of an [http_message] as a record with the class's fields, its
    operations as functions on it.  The virtual [update_first_line] is an
    argument of the operations that call it.  The remote address, an asio
    value nothing here inspects, is an opaque number, 0 for
    [address_v4(0)]. *)

From S2P Require Import Prelude.
From S2P Require Import Externals.
From S2P Require Import Multimap.
From S2P Require Import Strings.

(** ** Constants (http_message.cpp) *)

Definition STRING_EMPTY : str := [].
Definition STRING_CRLF : str := [CR; LF].
Definition STRING_HTTP_VERSION : str := bs "HTTP/".
Definition HEADER_NAME_VALUE_DELIMITER : str := bs ": ".
Definition COOKIE_NAME_VALUE_DELIMITER : str := bs "=".

Definition HEADER_HOST : str := bs "Host".
Definition HEADER_COOKIE : str := bs "Cookie".
Definition HEADER_SET_COOKIE : str := bs "Set-Cookie".
Definition HEADER_CONNECTION : str := bs "Connection".
Definition HEADER_CONTENT_TYPE : str := bs "Content-Type".
Definition HEADER_CONTENT_LENGTH : str := bs "Content-Length".
Definition HEADER_CONTENT_DISPOSITION : str := bs "Content-Disposition".
Definition HEADER_TRANSFER_ENCODING : str := bs "Transfer-Encoding".

Definition CONTENT_TYPE_URLENCODED : str := bs "application/x-www-form-urlencoded".
Definition CONTENT_TYPE_MULTIPART_FORM_DATA : str := bs "multipart/form-data".

Definition REQUEST_METHOD_HEAD : str := bs "HEAD".
Definition REQUEST_METHOD_GET : str := bs "GET".
Definition REQUEST_METHOD_PUT : str := bs "PUT".
Definition REQUEST_METHOD_POST : str := bs "POST".
Definition REQUEST_METHOD_DELETE : str := bs "DELETE".
Definition REQUEST_METHOD_OPTIONS : str := bs "OPTIONS".

Definition RESPONSE_MESSAGE_OK : str := bs "OK".
Definition RESPONSE_MESSAGE_NOT_FOUND : str := bs "Not Found".
Definition RESPONSE_MESSAGE_BAD_REQUEST : str := bs "Bad Request".
Definition RESPONSE_CODE_OK : Z := 200.
Definition RESPONSE_CODE_NOT_FOUND : Z := 404.
Definition RESPONSE_CODE_BAD_REQUEST : Z := 400.

Definition RESPONSE_FULLMESSAGE_100_CONTINUE : str :=
  bs "HTTP/1.1 100 Continue" ++ [CR; LF; CR; LF].

(** ** The message *)

Inductive data_status_type := STATUS_NONE | STATUS_TRUNCATED | STATUS_PARTIAL | STATUS_OK.

#[export] Instance data_status_eq_dec : EqDecision data_status_type.
Proof. solve_decision. Defined.

(** [content_buffer_t]: its [m_len] bytes.  One more byte, a terminating NUL,
    follows them in memory; [m_len = 0] is the state without [m_buf], where
    [get()] points to the member [m_empty]. *)
Record content_buffer_t := mk_buf { cb_bytes : str }.

Definition cb_size (b : content_buffer_t) : Z := slen (cb_bytes b).

(** allocates and zeroes *)
Definition cb_resize (len : Z) : content_buffer_t := mk_buf (replicate (Z.to_nat len) NUL).

Definition cb_is_empty (b : content_buffer_t) : bool := cb_size b =? 0.

(** [memcpy(b.get() + off, src, src.size())]; writing outside the [m_len]
    bytes is a fault *)
Definition cb_write (b : content_buffer_t) (off : Z) (src : str) : res content_buffer_t :=
  if (0 <=? off) && (off + slen src <=? cb_size b)
  then Val (mk_buf (take (Z.to_nat off) (cb_bytes b) ++ src
                    ++ drop (Z.to_nat (off + slen src)) (cb_bytes b)))
  else Fault OutOfBounds.

(** the first [n] bytes at [b.get()], for [n] up to the terminator *)
Definition cb_read (b : content_buffer_t) (n : Z) : res str :=
  if n <=? cb_size b + 1
  then Val (take (Z.to_nat n) (cb_bytes b ++ [NUL]))
  else Fault OutOfBounds.

(** copy construction and assignment *)
Definition cb_copy (b : content_buffer_t) : content_buffer_t :=
  if cb_size b =? 0 then cb_resize 0 else mk_buf (cb_bytes b).

Record http_message := mk_message {
  m_first_line : str;
  m_is_valid : bool;
  m_is_chunked : bool;
  m_chunks_supported : bool;
  m_do_not_send_content_length : bool;
  m_remote_ip : Z;
  m_version_major : Z;
  m_version_minor : Z;
  m_content_length : Z;
  m_content_buf : content_buffer_t;
  m_chunk_cache : str;
  m_headers : mmap;
  m_cookie_params : mmap;
  m_status : data_status_type;
  m_has_missing_packets : bool;
  m_has_data_after_missing : bool;
}.

#[export] Instance http_message_fields : Fields http_message := fun m =>
  mk_message (m_first_line m) (m_is_valid m) (m_is_chunked m) (m_chunks_supported m)
    (m_do_not_send_content_length m) (m_remote_ip m) (m_version_major m)
    (m_version_minor m) (m_content_length m) (m_content_buf m) (m_chunk_cache m)
    (m_headers m) (m_cookie_params m) (m_status m) (m_has_missing_packets m)
    (m_has_data_after_missing m).

(** the constructor *)
Definition new_message : http_message :=
  mk_message [] false false false false 0 1 1 0 (cb_resize 0) [] [] [] STATUS_NONE false false.

(** [http_message::clear] *)
Definition message_clear (_ : http_message) : http_message :=
  mk_message [] false false false false 0 1 1 0 (cb_resize 0) [] [] [] STATUS_NONE false false.

(** the copy constructor: [m_cookie_params] is not in its initializer list *)
Definition message_copy (m : http_message) : http_message :=
  mk_message (m_first_line m) (m_is_valid m) (m_is_chunked m) (m_chunks_supported m)
    (m_do_not_send_content_length m) (m_remote_ip m) (m_version_major m)
    (m_version_minor m) (m_content_length m) (cb_copy (m_content_buf m)) (m_chunk_cache m)
    (m_headers m) [] (m_status m) (m_has_missing_packets m) (m_has_data_after_missing m).

(** [operator=]: nor is it assigned *)
Definition message_assign (this m : http_message) : http_message :=
  mk_message (m_first_line m) (m_is_valid m) (m_is_chunked m) (m_chunks_supported m)
    (m_do_not_send_content_length m) (m_remote_ip m) (m_version_major m)
    (m_version_minor m) (m_content_length m) (cb_copy (m_content_buf m)) (m_chunk_cache m)
    (m_headers m) (m_cookie_params this) (m_status m) (m_has_missing_packets m)
    (m_has_data_after_missing m).

(** ** Setters with more than an assignment, and content *)

Definition clear_first_line (m : http_message) : http_message := m <| m_first_line := [] |>.

Definition set_version_major (n : Z) (m : http_message) : http_message :=
  clear_first_line (m <| m_version_major := wrap 16 n |>).

Definition set_version_minor (n : Z) (m : http_message) : http_message :=
  clear_first_line (m <| m_version_minor := wrap 16 n |>).

Definition set_content_length (n : Z) (m : http_message) : http_message :=
  m <| m_content_length := n |>.

Definition set_is_valid (b : bool) (m : http_message) : http_message := m <| m_is_valid := b |>.

Definition set_chunks_supported (b : bool) (m : http_message) : http_message :=
  m <| m_chunks_supported := b |>.

Definition set_do_not_send_content_length (m : http_message) : http_message :=
  m <| m_do_not_send_content_length := true |>.

Definition set_status (st : data_status_type) (m : http_message) : http_message :=
  m <| m_status := st |>.

Definition set_data_after_missing_packet (b : bool) (m : http_message) : http_message :=
  m <| m_has_data_after_missing := b |>.

Definition create_content_buffer (m : http_message) : http_message :=
  m <| m_content_buf := cb_resize (m_content_length m) |>.

(** [http_message::set_content(const std::string&)] *)
Definition set_content (content : str) (m : http_message) : res http_message :=
  let m := create_content_buffer (set_content_length (slen content) m) in
  match cb_write (m_content_buf m) 0 content with
  | Val b => Val (m <| m_content_buf := b |>)
  | Exn e => Exn e
  | Fault f => Fault f
  end.

(** [http_message::concatenate_chunks] *)
Definition concatenate_chunks (m : http_message) : res http_message :=
  let m := set_content_length (slen (m_chunk_cache m)) m in
  let m := create_content_buffer m in
  if slen (m_chunk_cache m) >? 0 then
    match cb_write (m_content_buf m) 0 (m_chunk_cache m) with
    | Val b => Val (m <| m_content_buf := b |>)
    | Exn e => Exn e
    | Fault f => Fault f
    end
  else Val m.

Section Headers.
Context `{SU : StaticlibUtils, MP : MultimapPolicy}.

Definition get_header (m : http_message) (key : str) : str := get_value (m_headers m) key.

Definition has_header (m : http_message) (key : str) : bool := has_key (m_headers m) key.

(** one value of the header against the wanted one *)
Definition header_value_matches (value field : str) : bool :=
  if contains (bs ",") field
  then existsb (fun el => iequals value (trim_ret el)) (split field ","%char)
  else iequals value field.

Definition has_header_value (m : http_message) (key value : str) : bool :=
  existsb (fun kv => header_value_matches value kv.2) (equal_range (m_headers m) key).

Definition add_header (key value : str) (m : http_message) : http_message :=
  m <| m_headers := mm_insert (key, value) (m_headers m) |>.

Definition change_header (key value : str) (m : http_message) : http_message :=
  m <| m_headers := change_value (m_headers m) key value |>.

Definition delete_header (key : str) (m : http_message) : http_message :=
  m <| m_headers := delete_value (m_headers m) key |>.

Definition get_cookie (m : http_message) (key : str) : str := get_value (m_cookie_params m) key.

Definition has_cookie (m : http_message) (key : str) : bool := has_key (m_cookie_params m) key.

Definition add_cookie (key value : str) (m : http_message) : http_message :=
  m <| m_cookie_params := mm_insert (key, value) (m_cookie_params m) |>.

Definition change_cookie (key value : str) (m : http_message) : http_message :=
  m <| m_cookie_params := change_value (m_cookie_params m) key value |>.

Definition message_delete_cookie (key : str) (m : http_message) : http_message :=
  m <| m_cookie_params := delete_value (m_cookie_params m) key |>.

Definition clear_content (m : http_message) : http_message :=
  delete_header HEADER_CONTENT_TYPE (create_content_buffer (set_content_length 0 m)).

Definition set_content_type (type : str) (m : http_message) : http_message :=
  change_header HEADER_CONTENT_TYPE type m.

(** [update_content_length_using_header]; [parse_uint64] may throw *)
Definition update_content_length_using_header (m : http_message) : res http_message :=
  match mm_find HEADER_CONTENT_LENGTH (m_headers m) with
  | None => Val (m <| m_content_length := 0 |>)
  | Some v =>
    match parse_uint64 (trim_arg v) with
    | Val n => Val (m <| m_content_length := wrap 64 n |>)
    | Exn e => Exn e
    | Fault f => Fault f
    end
  end.

Definition update_transfer_encoding_using_header (m : http_message) : http_message :=
  let m := m <| m_is_chunked := false |> in
  match mm_find HEADER_TRANSFER_ENCODING (m_headers m) with
  | None => m
  | Some v =>
    if contains (bs "chunked") v || contains (bs "Chunked") v
    then m <| m_is_chunked := true |>
    else m <| m_is_chunked := false |>
  end.

Definition check_keep_alive (m : http_message) : bool :=
  negb (str_eqb (get_header m HEADER_CONNECTION) (bs "close")) &&
  ((m_version_major m >? 1) ||
   ((m_version_major m >=? 1) && (m_version_minor m >=? 1))).

Definition get_version_string (m : http_message) : str :=
  STRING_HTTP_VERSION ++ to_string (m_version_major m) ++ bs "." ++ to_string (m_version_minor m).

(** ** Sending *)

Definition prepare_headers_for_send (keep_alive using_chunks : bool) (m : http_message)
    : http_message :=
  let m := change_header HEADER_CONNECTION (if keep_alive then bs "Keep-Alive" else bs "close") m in
  if using_chunks then
    if m_chunks_supported m then change_header HEADER_TRANSFER_ENCODING (bs "chunked") m else m
  else if negb (m_do_not_send_content_length m) then
    change_header HEADER_CONTENT_LENGTH (to_string (m_content_length m)) m
  else m.

(** the buffers appended for the headers, as their contents *)
Definition append_headers (m : http_message) : list str :=
  concat (map (fun kv => [kv.1; HEADER_NAME_VALUE_DELIMITER; kv.2; STRING_CRLF]) (m_headers m))
  ++ [STRING_CRLF].

(** [http_message::append_cookie_headers], which is not virtual and which
    [prepare_buffers_for_send] therefore calls whatever the object's class *)
Definition append_cookie_headers (m : http_message) : http_message := m.

(** [get_first_line]; [update] is the class's [update_first_line] *)
Definition get_first_line (update : http_message -> str) (m : http_message)
    : str * http_message :=
  let m := if bool_decide (m_first_line m = []) then m <| m_first_line := update m |> else m in
  (m_first_line m, m).

Definition prepare_buffers_for_send (update : http_message -> str)
    (write_buffers : list str) (keep_alive using_chunks : bool) (m : http_message)
    : list str * http_message :=
  let m := prepare_headers_for_send keep_alive using_chunks m in
  let '(line, m) := get_first_line update m in
  let write_buffers := write_buffers ++ [line] in
  let write_buffers := write_buffers ++ [STRING_CRLF] in
  let m := append_cookie_headers m in
  (write_buffers ++ append_headers m, m).

Definition make_query_string (query_params : mmap) : str :=
  match query_params with
  | [] => []
  | kv :: rest =>
    url_encode kv.1 ++ bs "=" ++ url_encode kv.2
    ++ concat (map (fun kv => bs "&" ++ url_encode kv.1 ++ bs "=" ++ url_encode kv.2) rest)
  end.

Definition make_set_cookie_header (name value path : str) (has_max_age : bool) (max_age : Z)
    : str :=
  name ++ bs "=" ++ [DQUOTE] ++ value ++ [DQUOTE] ++ bs "; Version=1"
  ++ (if bool_decide (path = []) then [] else bs "; Path=" ++ path)
  ++ (if has_max_age then bs "; Max-Age=" ++ to_string max_age else []).

End Headers.
