(* ===== verification/Request.v ===== *)
(** * HTTP requests (http_request.hpp)

    A request is a message with the request line, the query parameters and
    the payload handler installed for it.  Payload handlers are user code,
    [std::function<void(const char*, size_t)>]: an interface, [PayloadEnv],
    gives their type, the state of the world they and the other callbacks
    act on, and what a call does: it may throw.  [req_request_reader] says whether the
    non-owning pointer [m_request_reader] is set. *)

From S2P Require Import Prelude.
From S2P Require Import Externals.
From S2P Require Import Multimap.
From S2P Require Import Strings.
From S2P Require Import Message.

Class PayloadEnv := {
  handler : Type;
  world : Type;
  run_handler : handler -> str -> world -> option exn * world;
}.

Record http_request `{PE : PayloadEnv} := mk_request {
  req_base : http_message;
  req_method : str;
  req_resource : str;
  req_original_resource : str;
  req_query_string : str;
  req_query_params : mmap;
  req_payload_handler : option handler;
  req_request_reader : bool;
}.

Section Request.
Context `{PE : PayloadEnv}.

#[export] Instance http_request_fields : Fields http_request := fun r =>
  mk_request PE (req_base r) (req_method r) (req_resource r) (req_original_resource r)
    (req_query_string r) (req_query_params r) (req_payload_handler r) (req_request_reader r).

(** an operation of the base class on the request *)
Definition on_base (f : http_message -> http_message) (r : http_request) : http_request :=
  r <| req_base := f (req_base r) |>.

(** the constructor; [m_request_reader] is set right after it by the reader *)
Definition new_request (request_reader : bool) : http_request :=
  mk_request PE new_message REQUEST_METHOD_GET [] [] [] [] None request_reader.

(** [http_request::clear] *)
Definition request_clear (r : http_request) : http_request :=
  let r := on_base message_clear r in
  r <| req_method := [] |> <| req_resource := [] |> <| req_original_resource := [] |>
    <| req_query_string := [] |> <| req_query_params := [] |>.

Definition request_is_content_length_implied (r : http_request) : bool := false.

Definition set_method (s : str) (r : http_request) : http_request :=
  on_base clear_first_line (r <| req_method := s |>).

Definition set_resource (s : str) (r : http_request) : http_request :=
  on_base clear_first_line (r <| req_resource := s |> <| req_original_resource := s |>).

Definition change_resource (s : str) (r : http_request) : http_request :=
  r <| req_resource := s |>.

Definition set_query_string (s : str) (r : http_request) : http_request :=
  on_base clear_first_line (r <| req_query_string := s |>).

Section Queries.
Context `{SU : StaticlibUtils, MP : MultimapPolicy}.

Definition get_query (r : http_request) (key : str) : str := get_value (req_query_params r) key.

Definition has_query (r : http_request) (key : str) : bool := has_key (req_query_params r) key.

Definition add_query (key value : str) (r : http_request) : http_request :=
  r <| req_query_params := mm_insert (key, value) (req_query_params r) |>.

Definition change_query (key value : str) (r : http_request) : http_request :=
  r <| req_query_params := change_value (req_query_params r) key value |>.

Definition delete_query (key : str) (r : http_request) : http_request :=
  r <| req_query_params := delete_value (req_query_params r) key |>.

Definition use_query_params_for_query_string (r : http_request) : http_request :=
  set_query_string (make_query_string (req_query_params r)) r.

(** [http_request::set_content(const std::string&)], and the overload for a
    buffer, which ignores an empty one *)
Definition request_set_content (value : str) (r : http_request) : res http_request :=
  let m := create_content_buffer (set_content_length (slen value) (req_base r)) in
  if bool_decide (value = []) then Val (r <| req_base := m |>)
  else match cb_write (m_content_buf m) 0 value with
       | Val b => Val (r <| req_base := m <| m_content_buf := b |> |>)
       | Exn e => Exn e
       | Fault f => Fault f
       end.

Definition use_query_params_for_post_content (r : http_request) : res http_request :=
  let post_content := make_query_string (req_query_params r) in
  match request_set_content post_content r with
  | Val r =>
    let r := set_method REQUEST_METHOD_POST r in
    Val (on_base (set_content_type CONTENT_TYPE_URLENCODED) r)
  | Exn e => Exn e
  | Fault f => Fault f
  end.

(** [update_first_line] *)
Definition request_update_first_line (r : http_request) : str :=
  req_method r ++ bs " " ++ req_resource r
  ++ (if bool_decide (req_query_string r = []) then [] else bs "?" ++ req_query_string r)
  ++ bs " " ++ get_version_string (req_base r).

(** the override of [append_cookie_headers], which [prepare_buffers_for_send]
    does not reach *)
Definition request_append_cookie_headers (r : http_request) : http_request :=
  fold_left (fun r kv => on_base (add_header HEADER_COOKIE (kv.1 ++ COOKIE_NAME_VALUE_DELIMITER ++ kv.2)) r)
    (m_cookie_params (req_base r)) r.

(** [set_payload_handler]: the handler is stored in the request; the second
    component is the handler the request hands to its reader's
    [http_parser::set_payload_handler], if the reader is still known *)
Definition request_set_payload_handler (ph : handler) (r : http_request)
    : http_request * option handler :=
  let r := r <| req_payload_handler := Some ph |> in
  if req_request_reader r
  then (r <| req_request_reader := false |>, Some ph)
  else (r, None).

(** what [prepare_buffers_for_send] sends for a request *)
Definition request_prepare_buffers (keep_alive using_chunks : bool) (r : http_request)
    : list str :=
  (prepare_buffers_for_send
     (fun m => request_update_first_line (r <| req_base := m |>))
     [] keep_alive using_chunks (req_base r)).1.

End Queries.
End Request.
