(* ===== verification/FormParsers.v ===== *)
(** * url-encoded forms and cookies (http_parser.cpp)

    [parse_url_encoded], [parse_cookie_header] and [is_cookie_attribute]:
    one step function per parser, the body of its [switch], and the loop over
    the input.  A parser answers whether it succeeded together with the
    dictionary, which keeps what was inserted before a failure. *)

From S2P Require Import Prelude.
From S2P Require Import Externals.
From S2P Require Import Algorithm.
From S2P Require Import Multimap.
From S2P Require Import Strings.
From S2P Require Import Message.

Definition QUERY_NAME_MAX : Z := 1024.
Definition QUERY_VALUE_MAX : Z := 1024 * 1024.
Definition COOKIE_NAME_MAX : Z := 1024.
Definition COOKIE_VALUE_MAX : Z := 1024 * 1024.

Section Definitions.
Context `{SU : StaticlibUtils, MP : MultimapPolicy}.

(** ** [parse_url_encoded] *)

Inductive QueryParseState := QUERY_PARSE_NAME | QUERY_PARSE_VALUE.

Record query_state := mk_query_state {
  q_parse_state : QueryParseState;
  query_name : str;
  query_value : str;
  q_dict : mmap;
}.

#[export] Instance query_state_fields : Fields query_state := fun q =>
  mk_query_state (q_parse_state q) (query_name q) (query_value q) (q_dict q).

(** [dict.insert(make_pair(url_decode(query_name), url_decode(query_value)))] *)
Definition insert_query (q : query_state) : query_state :=
  q <| q_dict := mm_insert (url_decode (query_name q), url_decode (query_value q)) (q_dict q) |>.

(** the body of the loop; [None] is [return false] *)
Definition query_step (c : char) (q : query_state) : option query_state :=
  match q_parse_state q with
  | QUERY_PARSE_NAME =>
    if c ==c "=" then Some (q <| q_parse_state := QUERY_PARSE_VALUE |>)
    else if c ==c "&" then
      if negb (bool_decide (query_name q = []))
      then Some ((insert_query q) <| query_name := [] |>)
      else Some q
    else if Ascii.eqb c CR || Ascii.eqb c LF || Ascii.eqb c TAB then Some q
    else if ch_is_control c || (slen (query_name q) >=? QUERY_NAME_MAX) then None
    else Some (q <| query_name := query_name q ++ [c] |>)
  | QUERY_PARSE_VALUE =>
    if c ==c "&" then
      let q := if negb (bool_decide (query_name q = []))
               then (insert_query q) <| query_name := [] |> else q in
      Some (q <| query_value := [] |> <| q_parse_state := QUERY_PARSE_NAME |>)
    else if c ==c "," then
      let q := if negb (bool_decide (query_name q = [])) then insert_query q else q in
      Some (q <| query_value := [] |>)
    else if Ascii.eqb c CR || Ascii.eqb c LF || Ascii.eqb c TAB then Some q
    else if ch_is_control c || (slen (query_value q) >=? QUERY_VALUE_MAX) then None
    else Some (q <| query_value := query_value q ++ [c] |>)
  end.

Fixpoint query_loop (ptr : str) (q : query_state) : bool * mmap :=
  match ptr with
  | [] =>
    if negb (bool_decide (query_name q = []))
    then (true, q_dict (insert_query q)) else (true, q_dict q)
  | c :: ptr' =>
    match query_step c q with
    | None => (false, q_dict q)
    | Some q' => query_loop ptr' q'
    end
  end.

Definition parse_url_encoded (dict : mmap) (ptr : str) : bool * mmap :=
  if slen ptr =? 0 then (true, dict)
  else query_loop ptr (mk_query_state QUERY_PARSE_NAME [] [] dict).

(** ** [parse_cookie_header] *)

Definition is_cookie_attribute (name : str) (set_cookie_header : bool) : bool :=
  match name with
  | [] => true
  | c :: _ =>
    (c ==c "$") ||
    (set_cookie_header &&
     (iequals name (bs "Comment") || iequals name (bs "Domain") || iequals name (bs "Max-Age")
      || iequals name (bs "Path") || iequals name (bs "Secure") || iequals name (bs "Version")
      || iequals name (bs "Expires") || iequals name (bs "HttpOnly")))
  end.

Inductive CookieParseState := COOKIE_PARSE_NAME | COOKIE_PARSE_VALUE | COOKIE_PARSE_IGNORE.

Record cookie_state := mk_cookie_state {
  c_parse_state : CookieParseState;
  cookie_name : str;
  cookie_value : str;
  value_quote_character : char;
  c_dict : mmap;
}.

#[export] Instance cookie_state_fields : Fields cookie_state := fun s =>
  mk_cookie_state (c_parse_state s) (cookie_name s) (cookie_value s)
    (value_quote_character s) (c_dict s).

(** [if (!is_cookie_attribute(...)) dict.insert(make_pair(cookie_name, cookie_value))] *)
Definition insert_cookie (set_cookie_header : bool) (s : cookie_state) : cookie_state :=
  if negb (is_cookie_attribute (cookie_name s) set_cookie_header)
  then s <| c_dict := mm_insert (cookie_name s, cookie_value s) (c_dict s) |>
  else s.

Definition cookie_step (set_cookie_header : bool) (c : char) (s : cookie_state)
    : option cookie_state :=
  match c_parse_state s with
  | COOKIE_PARSE_NAME =>
    if c ==c "=" then
      Some (s <| value_quote_character := NUL |> <| c_parse_state := COOKIE_PARSE_VALUE |>)
    else if (c ==c ";") || (c ==c ",") then
      if negb (bool_decide (cookie_name s = []))
      then Some ((insert_cookie set_cookie_header s) <| cookie_name := [] |>)
      else Some s
    else if c !=c " " then
      if ch_is_control c || (slen (cookie_name s) >=? COOKIE_NAME_MAX) then None
      else Some (s <| cookie_name := cookie_name s ++ [c] |>)
    else Some s
  | COOKIE_PARSE_VALUE =>
    if Ascii.eqb (value_quote_character s) NUL then
      if (c ==c ";") || (c ==c ",") then
        Some ((insert_cookie set_cookie_header s)
                <| cookie_name := [] |> <| cookie_value := [] |>
                <| c_parse_state := COOKIE_PARSE_NAME |>)
      else if Ascii.eqb c SQUOTE || Ascii.eqb c DQUOTE then
        if bool_decide (cookie_value s = []) then Some (s <| value_quote_character := c |>)
        else if slen (cookie_value s) >=? COOKIE_VALUE_MAX then None
        else Some (s <| cookie_value := cookie_value s ++ [c] |>)
      else if (c !=c " ") || negb (bool_decide (cookie_value s = [])) then
        if ch_is_control c || (slen (cookie_value s) >=? COOKIE_VALUE_MAX) then None
        else Some (s <| cookie_value := cookie_value s ++ [c] |>)
      else Some s
    else
      if Ascii.eqb c (value_quote_character s) then
        Some ((insert_cookie set_cookie_header s)
                <| cookie_name := [] |> <| cookie_value := [] |>
                <| c_parse_state := COOKIE_PARSE_IGNORE |>)
      else if slen (cookie_value s) >=? COOKIE_VALUE_MAX then None
      else Some (s <| cookie_value := cookie_value s ++ [c] |>)
  | COOKIE_PARSE_IGNORE =>
    if (c ==c ";") || (c ==c ",")
    then Some (s <| c_parse_state := COOKIE_PARSE_NAME |>) else Some s
  end.

Fixpoint cookie_loop (set_cookie_header : bool) (ptr : str) (s : cookie_state) : bool * mmap :=
  match ptr with
  | [] => (true, c_dict (insert_cookie set_cookie_header s))
  | c :: ptr' =>
    match cookie_step set_cookie_header c s with
    | None => (false, c_dict s)
    | Some s' => cookie_loop set_cookie_header ptr' s'
    end
  end.

Definition parse_cookie_header (dict : mmap) (ptr : str) (set_cookie_header : bool)
    : bool * mmap :=
  cookie_loop set_cookie_header ptr (mk_cookie_state COOKIE_PARSE_NAME [] [] NUL dict).

End Definitions.
