(* ===== verification/Multipart.v ===== *)
(** * multipart/form-data and URIs (http_parser.cpp)

    [parse_multipart_form_data] works with pointers into the payload: here
    positions in it, so that the reads before the current position and the
    length of the field that is cut out are what the code computes.  Its loop
    does not always advance, so it runs on fuel; [parse_multipart_total]
    shows the fuel given is enough.  [parse_uri] assigns its reference
    parameters one by one; they are the record [uri_out]. *)

From S2P Require Import Prelude.
From S2P Require Import Externals.
From S2P Require Import Multimap.
From S2P Require Import Strings.
From S2P Require Import Message.

Section Multipart.
Context `{SU : StaticlibUtils, MP : MultimapPolicy}.

Inductive MultiPartParseState :=
| MP_PARSE_START | MP_PARSE_HEADER_CR | MP_PARSE_HEADER_LF | MP_PARSE_HEADER_NAME
| MP_PARSE_HEADER_SPACE | MP_PARSE_HEADER_VALUE | MP_PARSE_HEADER_LAST_LF
| MP_PARSE_FIELD_DATA.

Record mp_state := mk_mp_state {
  mp_parse_state : MultiPartParseState;
  mp_header_name : str;
  mp_header_value : str;
  mp_field_name : str;
  found_parameter : bool;
  save_current_field : bool;
  mp_ptr : nat;
  mp_dict : mmap;
}.

#[export] Instance mp_state_fields : Fields mp_state := fun s =>
  mk_mp_state (mp_parse_state s) (mp_header_name s) (mp_header_value s) (mp_field_name s)
    (found_parameter s) (save_current_field s) (mp_ptr s) (mp_dict s).

(** How the body of the loop ends; [MThrow] is the [std::length_error] of
    [field_value.assign] or a read outside the payload. *)
Inductive mp_result :=
| MNext (s : mp_state)
| MReturn (b : bool) (s : mp_state)
| MThrow (r : res bool) (s : mp_state).

Definition mp_goto (st : MultiPartParseState) (s : mp_state) : mp_result :=
  MNext (s <| mp_parse_state := st |>).

(** [std::search(ptr, end_ptr, boundary.begin(), boundary.end())] *)
Definition mp_search (data boundary : str) (ptr : nat) : nat :=
  (ptr + search boundary (drop ptr data))%nat.

(** case MP_PARSE_START *)
Definition mp_start (boundary : str) (s : mp_state) : mp_result :=
  MNext (s <| mp_header_name := [] |> <| mp_header_value := [] |> <| mp_field_name := [] |>
           <| save_current_field := true |>
           <| mp_ptr := (mp_ptr s + (length boundary - 1))%nat |>
           <| mp_parse_state := MP_PARSE_HEADER_CR |>).

(** cases MP_PARSE_HEADER_CR and MP_PARSE_HEADER_LF *)
Definition mp_header_cr (data : str) (c : char) (s : mp_state) : mp_result :=
  if Ascii.eqb c CR then mp_goto MP_PARSE_HEADER_LF s
  else if Ascii.eqb c LF then mp_goto MP_PARSE_HEADER_NAME s
  else if (c ==c "-") && bool_decide (data !! S (mp_ptr s) = Some "-"%char)
  then MReturn true s
  else MReturn false s.

Definition mp_header_lf (c : char) (s : mp_state) : mp_result :=
  if Ascii.eqb c LF then mp_goto MP_PARSE_HEADER_NAME s else MReturn false s.

(** case MP_PARSE_HEADER_NAME *)
Definition mp_name (c : char) (s : mp_state) : mp_result :=
  if Ascii.eqb c CR || Ascii.eqb c LF then
    if bool_decide (mp_header_name s = [])
    then mp_goto (if Ascii.eqb c CR then MP_PARSE_HEADER_LAST_LF else MP_PARSE_FIELD_DATA) s
    else mp_goto (if Ascii.eqb c CR then MP_PARSE_HEADER_LF else MP_PARSE_HEADER_NAME) s
  else if c ==c ":" then mp_goto MP_PARSE_HEADER_SPACE s
  else MNext (s <| mp_header_name := mp_header_name s ++ [c] |>).

(** case MP_PARSE_HEADER_SPACE *)
Definition mp_space (c : char) (s : mp_state) : mp_result :=
  if Ascii.eqb c CR then mp_goto MP_PARSE_HEADER_LF s
  else if Ascii.eqb c LF then mp_goto MP_PARSE_HEADER_NAME s
  else if c !=c " " then
    mp_goto MP_PARSE_HEADER_VALUE (s <| mp_header_value := mp_header_value s ++ [c] |>)
  else MNext s.

(** the characters up to the next double quote *)
Fixpoint until_quote (s : str) : str :=
  match s with
  | [] => []
  | c :: s' => if Ascii.eqb c DQUOTE then [] else c :: until_quote s'
  end.

(** the end of a header value: content-type and content-disposition matter *)
Definition mp_header_done (s : mp_state) : mp_state :=
  if iequals (mp_header_name s) HEADER_CONTENT_TYPE then
    s <| save_current_field := iequals (substr (mp_header_value s) 0 5) (bs "text/") |>
  else if iequals (mp_header_name s) HEADER_CONTENT_DISPOSITION then
    match str_find (bs "name=" ++ [DQUOTE]) (mp_header_value s) with
    | Some name_pos =>
      s <| mp_field_name := mp_field_name s ++ until_quote (drop (name_pos + 6) (mp_header_value s)) |>
    | None => s
    end
  else s.

(** case MP_PARSE_HEADER_VALUE *)
Definition mp_value (c : char) (s : mp_state) : mp_result :=
  if Ascii.eqb c CR || Ascii.eqb c LF then
    mp_goto (if Ascii.eqb c CR then MP_PARSE_HEADER_LF else MP_PARSE_HEADER_NAME)
      ((mp_header_done s) <| mp_header_name := [] |> <| mp_header_value := [] |>)
  else MNext (s <| mp_header_value := mp_header_value s ++ [c] |>).

(** case MP_PARSE_HEADER_LAST_LF *)
Definition mp_last_lf (data boundary : str) (c : char) (s : mp_state) : mp_result :=
  if Ascii.eqb c LF then
    if save_current_field s && negb (bool_decide (mp_field_name s = []))
    then mp_goto MP_PARSE_FIELD_DATA s
    else MNext (s <| mp_parse_state := MP_PARSE_START |>
                  <| mp_ptr := mp_search data boundary (mp_ptr s) |>)
  else MReturn false s.

(** case MP_PARSE_FIELD_DATA: [std::search] never returns a null pointer, so
    the field ends two bytes before [next_ptr] or at it; the two bytes are
    read wherever [next_ptr] is, and a negative length makes [assign] throw
    [std::length_error] *)
Definition mp_field_data (data boundary : str) (s : mp_state) : mp_result :=
  let ptr := mp_ptr s in
  let next_ptr := mp_search data boundary ptr in
  if (next_ptr <? 2)%nat then MThrow (Fault OutOfBounds) s
  else
    let temp_ptr := (next_ptr - 2)%nat in
    let field_end_ptr :=
      if bool_decide (data !! temp_ptr = Some CR) && bool_decide (data !! S temp_ptr = Some LF)
      then temp_ptr else next_ptr in
    if (field_end_ptr <? ptr)%nat then MThrow (Exn ExnStd) s
    else
      let field_value := substr data ptr (field_end_ptr - ptr) in
      MNext (s <| mp_dict := mm_insert (mp_field_name s, field_value) (mp_dict s) |>
               <| found_parameter := true |>
               <| mp_parse_state := MP_PARSE_START |>
               <| mp_ptr := next_ptr |>).

Definition mp_step (data boundary : str) (c : char) (s : mp_state) : mp_result :=
  match mp_parse_state s with
  | MP_PARSE_START => mp_start boundary s
  | MP_PARSE_HEADER_CR => mp_header_cr data c s
  | MP_PARSE_HEADER_LF => mp_header_lf c s
  | MP_PARSE_HEADER_NAME => mp_name c s
  | MP_PARSE_HEADER_SPACE => mp_space c s
  | MP_PARSE_HEADER_VALUE => mp_value c s
  | MP_PARSE_HEADER_LAST_LF => mp_last_lf data boundary c s
  | MP_PARSE_FIELD_DATA => mp_field_data data boundary s
  end.

(** [if (parse_state != MP_PARSE_START) ++ptr] *)
Definition mp_bump (s : mp_state) : mp_state :=
  match mp_parse_state s with
  | MP_PARSE_START => s
  | _ => s <| mp_ptr := S (mp_ptr s) |>
  end.

Fixpoint mp_loop (fuel : nat) (data boundary : str) (s : mp_state) : res bool * mmap :=
  match data !! mp_ptr s with
  | None => (Val (found_parameter s), mp_dict s)
  | Some c =>
    match fuel with
    | O => (Fault OutOfFuel, mp_dict s)
    | S fuel =>
      match mp_step data boundary c s with
      | MNext s => mp_loop fuel data boundary (mp_bump s)
      | MReturn b s => (Val b, mp_dict s)
      | MThrow r s => (r, mp_dict s)
      end
    end
  end.

Definition mp_fuel (data : str) : nat := (2 * length data + 2)%nat.

(** [std::string("--") + content_type.substr(pos + 9)] *)
Definition mp_boundary (content_type : str) : option str :=
  (fun pos => bs "--" ++ substr_from content_type (pos + 9)) <$>
    str_find (bs "boundary=") content_type.

Definition parse_multipart_form_data (dict : mmap) (content_type ptr : str)
    : res bool * mmap :=
  if slen ptr =? 0 then (Val true, dict)
  else
    match mp_boundary content_type with
    | None => (Val false, dict)
    | Some boundary =>
      mp_loop (mp_fuel ptr) ptr boundary
        (mk_mp_state MP_PARSE_START [] [] [] false true (search boundary ptr) dict)
    end.

(** ** [parse_uri] *)

Record uri_out := mk_uri_out {
  uri_proto : str;
  uri_host : str;
  uri_port : Z;
  uri_path : str;
  uri_query : str;
}.

#[export] Instance uri_out_fields : Fields uri_out := fun o =>
  mk_uri_out (uri_proto o) (uri_host o) (uri_port o) (uri_path o) (uri_query o).

(** the rest of the URI, from [server_port_end]: path and query string *)
Definition uri_path_query (rest : str) (o : uri_out) : uri_out :=
  match find_char "?"%char rest with
  | Some query_pos =>
    o <| uri_query := substr rest (query_pos + 1) (length rest - query_pos - 1) |>
      <| uri_path := substr rest 0 query_pos |>
  | None => o <| uri_path := rest |> <| uri_query := [] |>
  end.

(** the port that goes with the protocol when none is given *)
Definition default_port (proto : str) : Z :=
  if str_eqb proto (bs "http") || str_eqb proto (bs "HTTP") then 80
  else if str_eqb proto (bs "https") || str_eqb proto (bs "HTTPS") then 443
  else 0.

Definition parse_uri (uri : str) (o : uri_out) : res bool * uri_out :=
  let '(o, proto_len) :=
    match str_find (bs "://") uri with
    | Some proto_end => (o <| uri_proto := substr uri 0 proto_end |>, (proto_end + 3)%nat)
    | None => (o <| uri_proto := [] |>, 0%nat)
    end in
  let '(o, server_port_end) :=
    match str_find_from (bs "/") uri proto_len with
    | Some i => (o, i)
    | None => (o <| uri_path := bs "/" |>, length uri)
    end in
  let t := substr uri proto_len (server_port_end - proto_len) in
  let port_pos := find_char ":"%char t in
  let o := o <| uri_host := match port_pos with Some i => substr t 0 i | None => t end |> in
  if slen (uri_host o) =? 0 then (Val false, o)
  else
    let finish o :=
      if (server_port_end <? length uri)%nat
      then (Val true, uri_path_query (substr_from uri server_port_end) o)
      else (Val true, o) in
    match port_pos with
    | Some i =>
      match parse_uint16 (substr_from t (i + 1)) with
      | Val n => finish (o <| uri_port := n |>)
      | Exn ExnRuntime => (Val false, o)
      | Exn e => (Exn e, o)
      | Fault f => (Fault f, o)
      end
    | None => finish (o <| uri_port := default_port (uri_proto o) |>)
    end.

End Multipart.
