(* ===== verification/ParserState.v ===== *)
(** * The state of an HTTP parser (http_parser.hpp)

    The enumerations and data members of [http_parser], its limits, its
    error codes, and its small inline operations.  The cursor
    [m_read_ptr, m_read_end_ptr) into the caller's buffer is the list of the
    bytes between the two pointers, [m_read]; it is empty both for a null
    pointer and at the end of the buffer, which [eof] does not tell apart
    either. *)

From S2P Require Import Prelude.
From S2P Require Import Externals.
From S2P Require Import Multimap.
From S2P Require Import Strings.
From S2P Require Import Message.
From S2P Require Import Request.

(** ** Limits (http_parser.cpp) *)

Definition STATUS_MESSAGE_MAX : Z := 1024.
Definition METHOD_MAX : Z := 1024.
Definition RESOURCE_MAX : Z := 256 * 1024.
Definition QUERY_STRING_MAX : Z := 1024 * 1024.
Definition HEADER_NAME_MAX : Z := 1024.
Definition HEADER_VALUE_MAX : Z := 1024 * 1024.
Definition DEFAULT_CONTENT_MAX : Z := 1024 * 1024.

(** ** Error codes *)

Inductive error_value_t :=
| ERROR_METHOD_CHAR | ERROR_METHOD_SIZE | ERROR_URI_CHAR | ERROR_URI_SIZE
| ERROR_QUERY_CHAR | ERROR_QUERY_SIZE | ERROR_VERSION_EMPTY | ERROR_VERSION_CHAR
| ERROR_STATUS_EMPTY | ERROR_STATUS_CHAR | ERROR_HEADER_CHAR | ERROR_HEADER_NAME_SIZE
| ERROR_HEADER_VALUE_SIZE | ERROR_INVALID_CONTENT_LENGTH | ERROR_CHUNK_CHAR
| ERROR_MISSING_CHUNK_DATA | ERROR_MISSING_HEADER_DATA | ERROR_MISSING_TOO_MUCH_CONTENT.

#[export] Instance error_value_eq_dec : EqDecision error_value_t.
Proof. solve_decision. Defined.

(** [static_cast<int>(ev)]: the enumeration starts at 1 *)
Definition error_value (ev : error_value_t) : Z :=
  match ev with
  | ERROR_METHOD_CHAR => 1 | ERROR_METHOD_SIZE => 2 | ERROR_URI_CHAR => 3
  | ERROR_URI_SIZE => 4 | ERROR_QUERY_CHAR => 5 | ERROR_QUERY_SIZE => 6
  | ERROR_VERSION_EMPTY => 7 | ERROR_VERSION_CHAR => 8 | ERROR_STATUS_EMPTY => 9
  | ERROR_STATUS_CHAR => 10 | ERROR_HEADER_CHAR => 11 | ERROR_HEADER_NAME_SIZE => 12
  | ERROR_HEADER_VALUE_SIZE => 13 | ERROR_INVALID_CONTENT_LENGTH => 14
  | ERROR_CHUNK_CHAR => 15 | ERROR_MISSING_CHUNK_DATA => 16
  | ERROR_MISSING_HEADER_DATA => 17 | ERROR_MISSING_TOO_MUCH_CONTENT => 18
  end.

(** [std::error_code]: a value and the identity of its category.  The
    categories of asio and of the system are numbered by their users. *)
Inductive error_category := cat_parser | cat_system | cat_other (id : Z).

#[export] Instance error_category_eq_dec : EqDecision error_category.
Proof. solve_decision. Defined.

Record error_code := mk_error { ec_value : Z; ec_category : error_category }.

#[export] Instance error_code_eq_dec : EqDecision error_code.
Proof. solve_decision. Defined.

(** the default constructor, and the conversion to [bool] *)
Definition no_error : error_code := mk_error 0 cat_system.
Definition ec_bool (ec : error_code) : bool := negb (ec_value ec =? 0).

(** what [set_error] assigns to [ec] *)
Definition set_error (ev : error_value_t) : error_code := mk_error (error_value ev) cat_parser.

(** [error_category_t::message] *)
Definition error_message (ev : Z) : str :=
  match ev with
  | 1 => bs "invalid method character"
  | 2 => bs "method exceeds maximum size"
  | 3 => bs "invalid URI character"
  | 4 => bs "method exceeds maximum size"
  | 5 => bs "invalid query string character"
  | 6 => bs "query string exceeds maximum size"
  | 7 => bs "HTTP version undefined"
  | 8 => bs "invalid version character"
  | 9 => bs "HTTP status undefined"
  | 10 => bs "invalid status character"
  | 11 => bs "invalid header character"
  | 12 => bs "header name exceeds maximum size"
  | 13 => bs "header value exceeds maximum size"
  | 14 => bs "invalid Content-Length header"
  | 15 => bs "invalid chunk character"
  | 17 => bs "missing header data"
  | 16 => bs "missing chunk data"
  | 18 => bs "missing too much content"
  | _ => bs "parser error"
  end.

(** ** States *)

Inductive message_parse_state_type :=
| PARSE_START | PARSE_HEADERS | PARSE_FOOTERS | PARSE_CONTENT
| PARSE_CONTENT_NO_LENGTH | PARSE_CHUNKS | PARSE_END.

Inductive header_parse_state_type :=
| PARSE_METHOD_START | PARSE_METHOD | PARSE_URI_STEM | PARSE_URI_QUERY
| PARSE_HTTP_VERSION_H | PARSE_HTTP_VERSION_T_1 | PARSE_HTTP_VERSION_T_2
| PARSE_HTTP_VERSION_P | PARSE_HTTP_VERSION_SLASH | PARSE_HTTP_VERSION_MAJOR_START
| PARSE_HTTP_VERSION_MAJOR | PARSE_HTTP_VERSION_MINOR_START | PARSE_HTTP_VERSION_MINOR
| PARSE_STATUS_CODE_START | PARSE_STATUS_CODE | PARSE_STATUS_MESSAGE
| PARSE_EXPECTING_NEWLINE | PARSE_EXPECTING_CR | PARSE_HEADER_WHITESPACE
| PARSE_HEADER_START | PARSE_HEADER_NAME | PARSE_SPACE_BEFORE_HEADER_VALUE
| PARSE_HEADER_VALUE | PARSE_EXPECTING_FINAL_NEWLINE | PARSE_EXPECTING_FINAL_CR.

Inductive chunk_parse_state_type :=
| PARSE_CHUNK_SIZE_START | PARSE_CHUNK_SIZE
| PARSE_EXPECTING_IGNORED_TEXT_AFTER_CHUNK_SIZE
| PARSE_EXPECTING_CR_AFTER_CHUNK_SIZE | PARSE_EXPECTING_LF_AFTER_CHUNK_SIZE
| PARSE_CHUNK | PARSE_EXPECTING_CR_AFTER_CHUNK | PARSE_EXPECTING_LF_AFTER_CHUNK
| PARSE_EXPECTING_FINAL_CR_OR_FOOTERS_AFTER_LAST_CHUNK
| PARSE_EXPECTING_FINAL_LF_AFTER_LAST_CHUNK.

#[export] Instance message_parse_state_eq_dec : EqDecision message_parse_state_type.
Proof. solve_decision. Defined.
#[export] Instance header_parse_state_eq_dec : EqDecision header_parse_state_type.
Proof. solve_decision. Defined.
#[export] Instance chunk_parse_state_eq_dec : EqDecision chunk_parse_state_type.
Proof. solve_decision. Defined.

(** ** The parser *)

Record http_parser `{PE : PayloadEnv} := mk_parser {
  m_read : str;
  m_message_parse_state : message_parse_state_type;
  m_headers_parse_state : header_parse_state_type;
  m_chunked_content_parse_state : chunk_parse_state_type;
  m_payload_handler : option handler;
  m_status_code : Z;
  m_status_message : str;
  m_method : str;
  m_resource : str;
  m_query_string : str;
  m_raw_headers : str;
  m_header_name : str;
  m_header_value : str;
  m_chunk_size_str : str;
  m_size_of_current_chunk : Z;
  m_bytes_read_in_current_chunk : Z;
  m_bytes_content_remaining : Z;
  m_bytes_content_read : Z;
  m_bytes_last_read : Z;
  m_bytes_total_read : Z;
  m_max_content_length : Z;
  m_parse_headers_only : bool;
  m_save_raw_headers : bool;
}.

Section Parser.
Context `{PE : PayloadEnv}.

#[export] Instance http_parser_fields : Fields http_parser := fun p =>
  mk_parser PE (m_read p) (m_message_parse_state p) (m_headers_parse_state p)
    (m_chunked_content_parse_state p) (m_payload_handler p) (m_status_code p)
    (m_status_message p) (m_method p) (m_resource p) (m_query_string p) (m_raw_headers p)
    (m_header_name p) (m_header_value p) (m_chunk_size_str p) (m_size_of_current_chunk p)
    (m_bytes_read_in_current_chunk p) (m_bytes_content_remaining p) (m_bytes_content_read p)
    (m_bytes_last_read p) (m_bytes_total_read p) (m_max_content_length p)
    (m_parse_headers_only p) (m_save_raw_headers p).

(** The constructor.  It leaves [m_size_of_current_chunk] and
    [m_bytes_read_in_current_chunk] uninitialised: their values are
    parameters. *)
Definition new_parser (garbage_size garbage_read max_content_length : Z) : http_parser :=
  mk_parser PE [] PARSE_START PARSE_METHOD_START PARSE_CHUNK_SIZE_START None 0 [] [] [] [] []
    [] [] [] garbage_size garbage_read 0 0 0 0 max_content_length false false.

(** [reset] *)
Definition reset (p : http_parser) : http_parser :=
  p <| m_message_parse_state := PARSE_START |>
    <| m_headers_parse_state := PARSE_METHOD_START |>
    <| m_chunked_content_parse_state := PARSE_CHUNK_SIZE_START |>
    <| m_status_code := 0 |> <| m_status_message := [] |>
    <| m_method := [] |> <| m_resource := [] |> <| m_query_string := [] |>
    <| m_raw_headers := [] |>
    <| m_bytes_total_read := 0 |> <| m_bytes_last_read := 0 |> <| m_bytes_content_read := 0 |>.

Definition set_read_buffer (ptr : str) (p : http_parser) : http_parser := p <| m_read := ptr |>.

Definition eof (p : http_parser) : bool := bool_decide (m_read p = []).

Definition bytes_available (p : http_parser) : Z := if eof p then 0 else slen (m_read p).

Definition gcount (p : http_parser) : Z := m_bytes_last_read p.

Definition get_total_bytes_read (p : http_parser) : Z := m_bytes_total_read p.

Definition get_content_bytes_read (p : http_parser) : Z := m_bytes_content_read p.

Definition parse_headers_only (b : bool) (p : http_parser) : http_parser :=
  p <| m_parse_headers_only := b |>.

Definition parser_set_payload_handler (h : handler) (p : http_parser) : http_parser :=
  p <| m_payload_handler := Some h |>.

Definition set_max_content_length (n : Z) (p : http_parser) : http_parser :=
  p <| m_max_content_length := n |>.

Definition reset_max_content_length (p : http_parser) : http_parser :=
  p <| m_max_content_length := DEFAULT_CONTENT_MAX |>.

Definition set_save_raw_headers (b : bool) (p : http_parser) : http_parser :=
  p <| m_save_raw_headers := b |>.

Definition is_digit (c : char) : bool :=
  let c := int_of_char c in (48 <=? c) && (c <=? 57).

Definition is_hex_digit (c : char) : bool :=
  let c := int_of_char c in
  ((48 <=? c) && (c <=? 57)) || ((97 <=? c) && (c <=? 102)) || ((65 <=? c) && (c <=? 70)).

(** [c - '0'] *)
Definition digit_value (c : char) : Z := int_of_char c - 48.

End Parser.
