(* ===== verification/HeaderParser.v ===== *)
(** * Parsing the head of a message: [http_parser::parse_headers]

    One definition per group of [case]s of the state machine, with the name
    of its first state; [header_step] is the [switch], [headers_loop] the
    loop over the read buffer. *)

From S2P Require Import Prelude.
From S2P Require Import Externals.
From S2P Require Import Algorithm.
From S2P Require Import Multimap.
From S2P Require Import Strings.
From S2P Require Import Message.
From S2P Require Import Request.
From S2P Require Import ParserState.

Section HeaderParser.
Context `{SU : StaticlibUtils, MP : MultimapPolicy, PE : PayloadEnv}.

(** How the body of the [switch] ends: [break] (the character is consumed and
    the loop goes on), [return true] after consuming the character or not, or
    [set_error(ec, ev); return false]. *)
Inductive header_result :=
| HBreak (p : http_parser) (m : http_message)
| HTrue (advance : bool) (p : http_parser) (m : http_message)
| HFalse (ev : error_value_t) (p : http_parser) (m : http_message).

Definition goto (st : header_parse_state_type) (p : http_parser) (m : http_message)
    : header_result := HBreak (p <| m_headers_parse_state := st |>) m.

Definition step_method_start (c : char) (p : http_parser) (m : http_message) : header_result :=
  if (c !=c " ") && negb (Ascii.eqb c CR) && negb (Ascii.eqb c LF) then
    if not_token c then HFalse ERROR_METHOD_CHAR p m
    else goto PARSE_METHOD (p <| m_method := [c] |>) m
  else HBreak p m.

Definition step_method (c : char) (p : http_parser) (m : http_message) : header_result :=
  if c ==c " " then goto PARSE_URI_STEM (p <| m_resource := [] |>) m
  else if not_token c then HFalse ERROR_METHOD_CHAR p m
  else if slen (m_method p) >=? METHOD_MAX then HFalse ERROR_METHOD_SIZE p m
  else HBreak (p <| m_method := m_method p ++ [c] |>) m.

(** [set_version_major(0); set_version_minor(0)] *)
Definition version_0_0 (m : http_message) : http_message :=
  set_version_minor 0 (set_version_major 0 m).

Definition step_uri_stem (c : char) (p : http_parser) (m : http_message) : header_result :=
  if c ==c " " then goto PARSE_HTTP_VERSION_H p m
  else if c ==c "?" then goto PARSE_URI_QUERY (p <| m_query_string := [] |>) m
  else if Ascii.eqb c CR then goto PARSE_EXPECTING_NEWLINE p (version_0_0 m)
  else if Ascii.eqb c LF then goto PARSE_EXPECTING_CR p (version_0_0 m)
  else if ch_is_control c then HFalse ERROR_URI_CHAR p m
  else if slen (m_resource p) >=? RESOURCE_MAX then HFalse ERROR_URI_SIZE p m
  else HBreak (p <| m_resource := m_resource p ++ [c] |>) m.

Definition step_uri_query (c : char) (p : http_parser) (m : http_message) : header_result :=
  if c ==c " " then goto PARSE_HTTP_VERSION_H p m
  else if Ascii.eqb c CR then goto PARSE_EXPECTING_NEWLINE p (version_0_0 m)
  else if Ascii.eqb c LF then goto PARSE_EXPECTING_CR p (version_0_0 m)
  else if ch_is_control c then HFalse ERROR_QUERY_CHAR p m
  else if slen (m_query_string p) >=? QUERY_STRING_MAX then HFalse ERROR_QUERY_SIZE p m
  else HBreak (p <| m_query_string := m_query_string p ++ [c] |>) m.

(** the assignment after the conditional is executed on every path that does
    not return, so it overwrites the state the first two branches set *)
Definition step_http_version_h (c : char) (p : http_parser) (m : http_message) : header_result :=
  if Ascii.eqb c CR then
    goto PARSE_HTTP_VERSION_T_1
      (p <| m_headers_parse_state := PARSE_EXPECTING_NEWLINE |>) (version_0_0 m)
  else if Ascii.eqb c LF then
    goto PARSE_HTTP_VERSION_T_1
      (p <| m_headers_parse_state := PARSE_EXPECTING_CR |>) (version_0_0 m)
  else if c !=c "H" then HFalse ERROR_VERSION_CHAR p m
  else goto PARSE_HTTP_VERSION_T_1 p m.

(** the four cases that expect one fixed character of "TTP/" *)
Definition step_http_version_char (expected : char) (next : header_parse_state_type)
    (c : char) (p : http_parser) (m : http_message) : header_result :=
  if negb (Ascii.eqb c expected) then HFalse ERROR_VERSION_CHAR p m else goto next p m.

Definition step_version_major_start (c : char) (p : http_parser) (m : http_message)
    : header_result :=
  if negb (is_digit c) then HFalse ERROR_VERSION_CHAR p m
  else goto PARSE_HTTP_VERSION_MAJOR p (set_version_major (digit_value c) m).

Definition step_version_major (c : char) (p : http_parser) (m : http_message) : header_result :=
  if c ==c "." then goto PARSE_HTTP_VERSION_MINOR_START p m
  else if is_digit c
  then HBreak p (set_version_major (m_version_major m * 10 + digit_value c) m)
  else HFalse ERROR_VERSION_CHAR p m.

Definition step_version_minor_start (c : char) (p : http_parser) (m : http_message)
    : header_result :=
  if negb (is_digit c) then HFalse ERROR_VERSION_CHAR p m
  else goto PARSE_HTTP_VERSION_MINOR p (set_version_minor (digit_value c) m).

Definition step_version_minor (c : char) (p : http_parser) (m : http_message) : header_result :=
  if c ==c " " then HBreak p m
  else if Ascii.eqb c CR then goto PARSE_EXPECTING_NEWLINE p m
  else if Ascii.eqb c LF then goto PARSE_EXPECTING_CR p m
  else if is_digit c
  then HBreak p (set_version_minor (m_version_minor m * 10 + digit_value c) m)
  else HFalse ERROR_VERSION_CHAR p m.

Definition step_status_code_start (c : char) (p : http_parser) (m : http_message)
    : header_result :=
  if negb (is_digit c) then HFalse ERROR_STATUS_CHAR p m
  else goto PARSE_STATUS_CODE (p <| m_status_code := wrap 16 (digit_value c) |>) m.

Definition step_status_code (c : char) (p : http_parser) (m : http_message) : header_result :=
  if c ==c " " then goto PARSE_STATUS_MESSAGE (p <| m_status_message := [] |>) m
  else if is_digit c
  then HBreak (p <| m_status_code := wrap 16 (m_status_code p * 10 + digit_value c) |>) m
  else if Ascii.eqb c CR then goto PARSE_EXPECTING_NEWLINE (p <| m_status_message := [] |>) m
  else if Ascii.eqb c LF then goto PARSE_EXPECTING_CR (p <| m_status_message := [] |>) m
  else HFalse ERROR_STATUS_CHAR p m.

Definition step_status_message (c : char) (p : http_parser) (m : http_message)
    : header_result :=
  if Ascii.eqb c CR then goto PARSE_EXPECTING_NEWLINE p m
  else if Ascii.eqb c LF then goto PARSE_EXPECTING_CR p m
  else if ch_is_control c then HFalse ERROR_STATUS_CHAR p m
  else if slen (m_status_message p) >=? STATUS_MESSAGE_MAX then HFalse ERROR_STATUS_CHAR p m
  else HBreak (p <| m_status_message := m_status_message p ++ [c] |>) m.

(** the first character of a header name *)
Definition start_header_name (c : char) (p : http_parser) (m : http_message) : header_result :=
  goto PARSE_HEADER_NAME (p <| m_header_name := [c] |>) m.

Definition step_expecting_newline (c : char) (p : http_parser) (m : http_message)
    : header_result :=
  if Ascii.eqb c LF then
    if m_version_major m =? 0 then HTrue true p m else goto PARSE_HEADER_START p m
  else if Ascii.eqb c CR then HTrue true p m
  else if Ascii.eqb c TAB || (c ==c " ") then goto PARSE_HEADER_WHITESPACE p m
  else if not_token c then HFalse ERROR_HEADER_CHAR p m
  else start_header_name c p m.

Definition step_expecting_cr (c : char) (p : http_parser) (m : http_message) : header_result :=
  if Ascii.eqb c CR then goto PARSE_HEADER_START p m
  else if Ascii.eqb c LF then HTrue true p m
  else if Ascii.eqb c TAB || (c ==c " ") then goto PARSE_HEADER_WHITESPACE p m
  else if not_token c then HFalse ERROR_HEADER_CHAR p m
  else start_header_name c p m.

Definition step_header_whitespace (c : char) (p : http_parser) (m : http_message)
    : header_result :=
  if Ascii.eqb c CR then goto PARSE_EXPECTING_NEWLINE p m
  else if Ascii.eqb c LF then goto PARSE_EXPECTING_CR p m
  else if negb (Ascii.eqb c TAB) && (c !=c " ") then
    if not_token c then HFalse ERROR_HEADER_CHAR p m else start_header_name c p m
  else HBreak p m.

Definition step_header_start (c : char) (p : http_parser) (m : http_message) : header_result :=
  if Ascii.eqb c CR then goto PARSE_EXPECTING_FINAL_NEWLINE p m
  else if Ascii.eqb c LF then goto PARSE_EXPECTING_FINAL_CR p m
  else if Ascii.eqb c TAB || (c ==c " ") then goto PARSE_HEADER_WHITESPACE p m
  else if not_token c then HFalse ERROR_HEADER_CHAR p m
  else start_header_name c p m.

Definition step_header_name (c : char) (p : http_parser) (m : http_message) : header_result :=
  if c ==c ":" then goto PARSE_SPACE_BEFORE_HEADER_VALUE (p <| m_header_value := [] |>) m
  else if not_token c then HFalse ERROR_HEADER_CHAR p m
  else if slen (m_header_name p) >=? HEADER_NAME_MAX then HFalse ERROR_HEADER_NAME_SIZE p m
  else HBreak (p <| m_header_name := m_header_name p ++ [c] |>) m.

(** [http_msg.add_header(m_header_name, m_header_value)] *)
Definition store_header (p : http_parser) (m : http_message) : http_message :=
  add_header (m_header_name p) (m_header_value p) m.

Definition step_space_before_header_value (c : char) (p : http_parser) (m : http_message)
    : header_result :=
  if c ==c " " then goto PARSE_HEADER_VALUE p m
  else if Ascii.eqb c CR then goto PARSE_EXPECTING_NEWLINE p (store_header p m)
  else if Ascii.eqb c LF then goto PARSE_EXPECTING_CR p (store_header p m)
  else if not_token c then HFalse ERROR_HEADER_CHAR p m
  else goto PARSE_HEADER_VALUE (p <| m_header_value := m_header_value p ++ [c] |>) m.

Definition step_header_value (c : char) (p : http_parser) (m : http_message) : header_result :=
  if Ascii.eqb c CR then goto PARSE_EXPECTING_NEWLINE p (store_header p m)
  else if Ascii.eqb c LF then goto PARSE_EXPECTING_CR p (store_header p m)
  else if negb (Ascii.eqb c TAB) && ch_is_control c then HFalse ERROR_HEADER_CHAR p m
  else if slen (m_header_value p) >=? HEADER_VALUE_MAX then HFalse ERROR_HEADER_VALUE_SIZE p m
  else HBreak (p <| m_header_value := m_header_value p ++ [c] |>) m.

(** the last line feed, or carriage return, is consumed only if it is there *)
Definition step_expecting_final (expected : char) (c : char) (p : http_parser)
    (m : http_message) : header_result :=
  HTrue (Ascii.eqb c expected) p m.

Definition header_step (c : char) (p : http_parser) (m : http_message) : header_result :=
  match m_headers_parse_state p with
  | PARSE_METHOD_START => step_method_start c p m
  | PARSE_METHOD => step_method c p m
  | PARSE_URI_STEM => step_uri_stem c p m
  | PARSE_URI_QUERY => step_uri_query c p m
  | PARSE_HTTP_VERSION_H => step_http_version_h c p m
  | PARSE_HTTP_VERSION_T_1 => step_http_version_char "T" PARSE_HTTP_VERSION_T_2 c p m
  | PARSE_HTTP_VERSION_T_2 => step_http_version_char "T" PARSE_HTTP_VERSION_P c p m
  | PARSE_HTTP_VERSION_P => step_http_version_char "P" PARSE_HTTP_VERSION_SLASH c p m
  | PARSE_HTTP_VERSION_SLASH => step_http_version_char "/" PARSE_HTTP_VERSION_MAJOR_START c p m
  | PARSE_HTTP_VERSION_MAJOR_START => step_version_major_start c p m
  | PARSE_HTTP_VERSION_MAJOR => step_version_major c p m
  | PARSE_HTTP_VERSION_MINOR_START => step_version_minor_start c p m
  | PARSE_HTTP_VERSION_MINOR => step_version_minor c p m
  | PARSE_STATUS_CODE_START => step_status_code_start c p m
  | PARSE_STATUS_CODE => step_status_code c p m
  | PARSE_STATUS_MESSAGE => step_status_message c p m
  | PARSE_EXPECTING_NEWLINE => step_expecting_newline c p m
  | PARSE_EXPECTING_CR => step_expecting_cr c p m
  | PARSE_HEADER_WHITESPACE => step_header_whitespace c p m
  | PARSE_HEADER_START => step_header_start c p m
  | PARSE_HEADER_NAME => step_header_name c p m
  | PARSE_SPACE_BEFORE_HEADER_VALUE => step_space_before_header_value c p m
  | PARSE_HEADER_VALUE => step_header_value c p m
  | PARSE_EXPECTING_FINAL_NEWLINE => step_expecting_final LF c p m
  | PARSE_EXPECTING_FINAL_CR => step_expecting_final CR c p m
  end.

(** [if (m_save_raw_headers) m_raw_headers += *m_read_ptr] *)
Definition save_raw (c : char) (p : http_parser) : http_parser :=
  if m_save_raw_headers p then p <| m_raw_headers := m_raw_headers p ++ [c] |> else p.

(** Where the loop stops: the result, the error if any, the unread bytes, the
    number of bytes read, and the two objects. *)
Record headers_stop := mk_headers_stop {
  hs_rc : tribool;
  hs_error : option error_value_t;
  hs_rest : str;
  hs_read : Z;
  hs_parser : http_parser;
  hs_message : http_message;
}.

Fixpoint headers_loop (buf : str) (nread : Z) (p : http_parser) (m : http_message)
    : headers_stop :=
  match buf with
  | [] => mk_headers_stop indeterminate None [] nread p m
  | c :: buf' =>
    match header_step c (save_raw c p) m with
    | HBreak p m => headers_loop buf' (nread + 1) p m
    | HTrue true p m => mk_headers_stop ttrue None buf' (nread + 1) p m
    | HTrue false p m => mk_headers_stop ttrue None buf nread p m
    | HFalse ev p m => mk_headers_stop tfalse (Some ev) buf nread p m
    end
  end.

(** [parse_headers]: the byte counters are updated on every exit but the
    errors', and an error is stored in [ec] *)
Definition parse_headers (p : http_parser) (m : http_message) (ec : error_code)
    : tribool * http_parser * http_message * error_code :=
  let hs := headers_loop (m_read p) 0 (p <| m_bytes_last_read := 0 |>) m in
  let p := (hs_parser hs) <| m_read := hs_rest hs |> in
  match hs_error hs with
  | Some ev => (hs_rc hs, p, hs_message hs, set_error ev)
  | None =>
    let p := p <| m_bytes_last_read := hs_read hs |> in
    let p := p <| m_bytes_total_read := m_bytes_total_read p +64 hs_read hs |> in
    (hs_rc hs, p, hs_message hs, ec)
  end.

End HeaderParser.
