(* ===== verification/BodyParser.v ===== *)
(** * Parsing payload content

    [parse_chunks], [consume_content] and [consume_content_as_next_chunk].
    They act on the parser, the message, the error code of the caller and,
    through the payload handler, on the world: the state [pstate].  A payload
    handler may throw; the state at that point is kept. *)

From S2P Require Import Prelude.
From S2P Require Import Externals.
From S2P Require Import Multimap.
From S2P Require Import Strings.
From S2P Require Import Message.
From S2P Require Import Request.
From S2P Require Import ParserState.
From S2P Require Import HeaderParser.

(** ** [strtol(s, 0, 16)] on a 64-bit [long], for the strings of hexadecimal
    digits the parser gives it *)

Definition LONG_MAX : Z := 2 ^ 63 - 1.

Definition hex_value (c : char) : Z :=
  let c := int_of_char c in
  if c <=? 57 then c - 48 else if c <=? 70 then c - 55 else c - 87.

Fixpoint strtol16_loop (acc : Z) (s : str) : Z :=
  match s with
  | [] => acc
  | c :: s' => if is_hex_digit c then strtol16_loop (acc * 16 + hex_value c) s' else acc
  end.

Definition strtol16 (s : str) : Z := Z.min (strtol16_loop 0 s) LONG_MAX.

Section BodyParser.
Context `{PE : PayloadEnv}.

Record pstate := mk_pstate {
  ps_parser : http_parser;
  ps_request : http_request;
  ps_ec : error_code;
  ps_world : world;
}.

#[export] Instance pstate_fields : Fields pstate := fun s =>
  mk_pstate (ps_parser s) (ps_request s) (ps_ec s) (ps_world s).

Definition on_parser (f : http_parser -> http_parser) : M pstate unit :=
  modify (fun s => s <| ps_parser := f (ps_parser s) |>).
Definition on_request (f : http_request -> http_request) : M pstate unit :=
  modify (fun s => s <| ps_request := f (ps_request s) |>).
Definition on_message (f : http_message -> http_message) : M pstate unit :=
  on_request (on_base f).

(** an operation of the message that can fail *)
Definition try_message (f : http_message -> res http_message) : M pstate unit := fun s =>
  match f (req_base (ps_request s)) with
  | Val m => (Val tt, s <| ps_request := (ps_request s) <| req_base := m |> |>)
  | Exn e => (Exn e, s)
  | Fault f => (Fault f, s)
  end.

(** ** [parse_chunks] *)

(** How the [switch] ends: [break] after moving the cursor [skip] bytes
    further than the loop does, the two returns, or a throw of the payload
    handler. *)
Inductive chunk_result :=
| CBreak (skip : nat) (p : http_parser) (chunks : str) (w : world)
| CTrue (advance : bool) (p : http_parser) (chunks : str) (w : world)
| CFalse (ev : error_value_t) (p : http_parser) (chunks : str) (w : world)
| CStop (e : exn) (p : http_parser) (chunks : str) (w : world).

Definition cgoto (st : chunk_parse_state_type) (p : http_parser) (chunks : str) (w : world)
    : chunk_result := CBreak 0 (p <| m_chunked_content_parse_state := st |>) chunks w.

Definition step_chunk_size_start (c : char) (p : http_parser) (chunks : str) (w : world)
    : chunk_result :=
  if is_hex_digit c then cgoto PARSE_CHUNK_SIZE (p <| m_chunk_size_str := [c] |>) chunks w
  else if (c ==c " ") || Ascii.eqb c TAB || Ascii.eqb c CR || Ascii.eqb c LF
  then CBreak 0 p chunks w
  else CFalse ERROR_CHUNK_CHAR p chunks w.

Definition step_chunk_size (c : char) (p : http_parser) (chunks : str) (w : world)
    : chunk_result :=
  if is_hex_digit c
  then CBreak 0 (p <| m_chunk_size_str := m_chunk_size_str p ++ [c] |>) chunks w
  else if Ascii.eqb c CR then cgoto PARSE_EXPECTING_LF_AFTER_CHUNK_SIZE p chunks w
  else if (c ==c " ") || Ascii.eqb c TAB
  then cgoto PARSE_EXPECTING_CR_AFTER_CHUNK_SIZE p chunks w
  else if c ==c ";" then cgoto PARSE_EXPECTING_IGNORED_TEXT_AFTER_CHUNK_SIZE p chunks w
  else CFalse ERROR_CHUNK_CHAR p chunks w.

Definition step_ignored_text (c : char) (p : http_parser) (chunks : str) (w : world)
    : chunk_result :=
  if Ascii.eqb c CR then cgoto PARSE_EXPECTING_LF_AFTER_CHUNK_SIZE p chunks w
  else CBreak 0 p chunks w.

Definition step_cr_after_chunk_size (c : char) (p : http_parser) (chunks : str) (w : world)
    : chunk_result :=
  if Ascii.eqb c CR then cgoto PARSE_EXPECTING_LF_AFTER_CHUNK_SIZE p chunks w
  else if (c ==c " ") || Ascii.eqb c TAB then CBreak 0 p chunks w
  else CFalse ERROR_CHUNK_CHAR p chunks w.

Definition step_lf_after_chunk_size (c : char) (p : http_parser) (chunks : str) (w : world)
    : chunk_result :=
  if Ascii.eqb c LF then
    let p := p <| m_bytes_read_in_current_chunk := 0 |> in
    let p := p <| m_size_of_current_chunk := strtol16 (m_chunk_size_str p) |> in
    if m_size_of_current_chunk p =? 0
    then cgoto PARSE_EXPECTING_FINAL_CR_OR_FOOTERS_AFTER_LAST_CHUNK p chunks w
    else cgoto PARSE_CHUNK p chunks w
  else CFalse ERROR_CHUNK_CHAR p chunks w.

(** the test that ends a chunk, after [skip] more bytes were consumed *)
Definition end_of_chunk (skip : nat) (p : http_parser) (chunks : str) (w : world)
    : chunk_result :=
  CBreak skip
    (if m_bytes_read_in_current_chunk p =? m_size_of_current_chunk p
     then p <| m_chunked_content_parse_state := PARSE_EXPECTING_CR_AFTER_CHUNK |> else p)
    chunks w.

(** [buf] is the whole unread input, of which [c] is the first byte *)
Definition step_chunk (c : char) (buf : str) (p : http_parser) (chunks : str) (w : world)
    : chunk_result :=
  if m_bytes_read_in_current_chunk p <? m_size_of_current_chunk p then
    match m_payload_handler p with
    | Some h =>
      let bytes_avail := slen buf in
      let bytes_in_chunk := m_size_of_current_chunk p -64 m_bytes_read_in_current_chunk p in
      let len := if bytes_in_chunk >? bytes_avail then bytes_avail else bytes_in_chunk in
      match run_handler h (take (Z.to_nat len) buf) w with
      | (None, w) =>
        let p := p <| m_bytes_read_in_current_chunk :=
                        m_bytes_read_in_current_chunk p +64 len |> in
        end_of_chunk (if len >? 1 then Z.to_nat (len - 1) else 0) p chunks w
      | (Some e, w) => CStop e p chunks w
      end
    | None =>
      if slen chunks <? m_max_content_length p then
        end_of_chunk 0
          (p <| m_bytes_read_in_current_chunk := m_bytes_read_in_current_chunk p +64 1 |>)
          (chunks ++ [c]) w
      else end_of_chunk 0 p chunks w
    end
  else end_of_chunk 0 p chunks w.

Definition step_cr_after_chunk (c : char) (p : http_parser) (chunks : str) (w : world)
    : chunk_result :=
  if Ascii.eqb c CR then cgoto PARSE_EXPECTING_LF_AFTER_CHUNK p chunks w
  else CFalse ERROR_CHUNK_CHAR p chunks w.

Definition step_lf_after_chunk (c : char) (p : http_parser) (chunks : str) (w : world)
    : chunk_result :=
  if Ascii.eqb c LF then cgoto PARSE_CHUNK_SIZE_START p chunks w
  else CFalse ERROR_CHUNK_CHAR p chunks w.

Definition step_final_cr_or_footers (c : char) (p : http_parser) (chunks : str) (w : world)
    : chunk_result :=
  if Ascii.eqb c CR then cgoto PARSE_EXPECTING_FINAL_LF_AFTER_LAST_CHUNK p chunks w
  else CTrue false (p <| m_message_parse_state := PARSE_FOOTERS |>
                      <| m_headers_parse_state := PARSE_HEADER_START |>) chunks w.

Definition step_final_lf (c : char) (p : http_parser) (chunks : str) (w : world)
    : chunk_result :=
  if Ascii.eqb c LF then CTrue true p chunks w else CFalse ERROR_CHUNK_CHAR p chunks w.

Definition chunk_step (c : char) (buf : str) (p : http_parser) (chunks : str) (w : world)
    : chunk_result :=
  match m_chunked_content_parse_state p with
  | PARSE_CHUNK_SIZE_START => step_chunk_size_start c p chunks w
  | PARSE_CHUNK_SIZE => step_chunk_size c p chunks w
  | PARSE_EXPECTING_IGNORED_TEXT_AFTER_CHUNK_SIZE => step_ignored_text c p chunks w
  | PARSE_EXPECTING_CR_AFTER_CHUNK_SIZE => step_cr_after_chunk_size c p chunks w
  | PARSE_EXPECTING_LF_AFTER_CHUNK_SIZE => step_lf_after_chunk_size c p chunks w
  | PARSE_CHUNK => step_chunk c buf p chunks w
  | PARSE_EXPECTING_CR_AFTER_CHUNK => step_cr_after_chunk c p chunks w
  | PARSE_EXPECTING_LF_AFTER_CHUNK => step_lf_after_chunk c p chunks w
  | PARSE_EXPECTING_FINAL_CR_OR_FOOTERS_AFTER_LAST_CHUNK =>
    step_final_cr_or_footers c p chunks w
  | PARSE_EXPECTING_FINAL_LF_AFTER_LAST_CHUNK => step_final_lf c p chunks w
  end.

Record chunks_stop := mk_chunks_stop {
  cs_rc : res tribool;
  cs_error : option error_value_t;
  cs_rest : str;
  cs_read : Z;
  cs_parser : http_parser;
  cs_chunks : str;
  cs_world : world;
}.

Fixpoint chunks_loop (buf : str) (nread : Z) (p : http_parser) (chunks : str) (w : world)
    : chunks_stop :=
  match buf with
  | [] => mk_chunks_stop (Val indeterminate) None [] nread p chunks w
  | c :: buf' =>
    match chunk_step c buf p chunks w with
    | CBreak skip p chunks w =>
      chunks_loop (dropl buf' skip) (nread + 1 + Z.of_nat skip) p chunks w
    | CTrue true p chunks w => mk_chunks_stop (Val ttrue) None buf' (nread + 1) p chunks w
    | CTrue false p chunks w => mk_chunks_stop (Val ttrue) None buf nread p chunks w
    | CFalse ev p chunks w => mk_chunks_stop (Val tfalse) (Some ev) buf nread p chunks w
    | CStop e p chunks w => mk_chunks_stop (Exn e) None buf nread p chunks w
    end
  end.

(** the three counters, on the exits that are not errors *)
Definition count_content (nread : Z) (p : http_parser) : http_parser :=
  let p := p <| m_bytes_last_read := nread |> in
  let p := p <| m_bytes_total_read := m_bytes_total_read p +64 nread |> in
  p <| m_bytes_content_read := m_bytes_content_read p +64 nread |>.

Definition parse_chunks : M pstate tribool := fun s =>
  let p := (ps_parser s) <| m_bytes_last_read := 0 |> in
  let m := req_base (ps_request s) in
  let cs := chunks_loop (m_read p) 0 p (m_chunk_cache m) (ps_world s) in
  let p := (cs_parser cs) <| m_read := cs_rest cs |> in
  let s := s <| ps_request := on_base (fun m => m <| m_chunk_cache := cs_chunks cs |>) (ps_request s) |>
             <| ps_world := cs_world cs |> in
  match cs_rc cs, cs_error cs with
  | Val rc, Some ev => (Val rc, s <| ps_parser := p |> <| ps_ec := set_error ev |>)
  | Val rc, None => (Val rc, s <| ps_parser := count_content (cs_read cs) p |>)
  | r, _ => (r, s <| ps_parser := p |>)
  end.

(** ** [consume_content] *)

(** the call of the payload handler on [len] bytes at [ptr] *)
Definition call_handler (h : handler) (data : str) : M pstate unit := fun s =>
  let '(thrown, w) := run_handler h data (ps_world s) in
  (match thrown with None => Val tt | Some e => Exn e end, s <| ps_world := w |>).

(** [memcpy(http_msg.get_content() + off, m_read_ptr, n)] *)
Definition memcpy_content (off n : Z) : M pstate unit :=
  p <- gets ps_parser ;;
  if n <=? slen (m_read p)
  then try_message (fun m =>
         match cb_write (m_content_buf m) off (take (Z.to_nat n) (m_read p)) with
         | Val b => Val (m <| m_content_buf := b |>)
         | Exn e => Exn e
         | Fault f => Fault f
         end)
  else crash OutOfBounds.

(** move the cursor over [n] bytes and count them *)
Definition advance_content (n : Z) (p : http_parser) : http_parser :=
  let p := p <| m_read := drop (Z.to_nat n) (m_read p) |> in
  let p := p <| m_bytes_content_read := m_bytes_content_read p +64 n |> in
  let p := p <| m_bytes_total_read := m_bytes_total_read p +64 n |> in
  p <| m_bytes_last_read := n |>.

Definition consume_content : M pstate tribool :=
  p <- gets ps_parser ;;
  let content_bytes_available := bytes_available p in
  if m_bytes_content_remaining p =? 0 then ret ttrue
  else
    let '(rc, content_bytes_to_read) :=
      if content_bytes_available >=? m_bytes_content_remaining p
      then (ttrue, m_bytes_content_remaining p)
      else (indeterminate, content_bytes_available) in
    on_parser (fun p => p <| m_bytes_content_remaining :=
                               m_bytes_content_remaining p -64 content_bytes_to_read |>) ;;;
    (match m_payload_handler p with
     | Some h => call_handler h (take (Z.to_nat content_bytes_to_read) (m_read p))
     | None =>
       if m_bytes_content_read p <? m_max_content_length p then
         if m_bytes_content_read p +64 content_bytes_to_read >? m_max_content_length p
         then memcpy_content (m_bytes_content_read p)
                (m_max_content_length p -64 m_bytes_content_read p)
         else memcpy_content (m_bytes_content_read p) content_bytes_to_read
       else ret tt
     end) ;;;
    on_parser (advance_content content_bytes_to_read) ;;;
    ret rc.

(** ** [consume_content_as_next_chunk] *)

(** the loop that appends to the chunk cache up to its limit *)
Fixpoint append_up_to (limit : Z) (chunks buf : str) : str :=
  match buf with
  | [] => chunks
  | c :: buf' =>
    append_up_to limit (if slen chunks <? limit then chunks ++ [c] else chunks) buf'
  end.

Definition consume_content_as_next_chunk : M pstate Z :=
  p <- gets ps_parser ;;
  if bytes_available p =? 0 then
    on_parser (fun p => p <| m_bytes_last_read := 0 |>) ;;;
    gets (fun s => m_bytes_last_read (ps_parser s))
  else
    let n := slen (m_read p) in
    on_parser (fun p => p <| m_bytes_last_read := n |>) ;;;
    (match m_payload_handler p with
     | Some h => call_handler h (m_read p)
     | None =>
       on_message (fun m => m <| m_chunk_cache :=
                                   append_up_to (m_max_content_length p) (m_chunk_cache m)
                                     (m_read p) |>)
     end) ;;;
    on_parser (fun p => p <| m_read := [] |>) ;;;
    on_parser (fun p =>
      let p := p <| m_bytes_total_read := m_bytes_total_read p +64 n |> in
      p <| m_bytes_content_read := m_bytes_content_read p +64 n |>) ;;;
    gets (fun s => m_bytes_last_read (ps_parser s)).

End BodyParser.
