(* ===== verification/Parser.v ===== *)
(** * The HTTP parser: [http_parser::parse], [finish_header_parsing], [finish]

    Operations in the state-and-exception monad over [pstate].  The virtual
    [finished_parsing_headers] is an argument, [hook]: it sees the request,
    the error code, the result so far and the world, and may replace the
    result, change the request, install a payload handler in the parser
    ([set_payload_handler] is the only operation of the parser the override
    in [http_request_reader] can reach) or throw. *)

From S2P Require Import Prelude.
From S2P Require Import Externals.
From S2P Require Import Multimap.
From S2P Require Import Strings.
From S2P Require Import Message.
From S2P Require Import Request.
From S2P Require Import FormParsers.
From S2P Require Import Multipart.
From S2P Require Import ParserState.
From S2P Require Import HeaderParser.
From S2P Require Import BodyParser.

Section Parser.
Context `{SU : StaticlibUtils, MP : MultimapPolicy, PE : PayloadEnv}.

(** the result of the hook and what it did *)
Record hook_effect := mk_hook_effect {
  he_request : http_request;
  he_handler : option handler;
  he_world : world;
}.

Definition hook_type : Type :=
  http_request -> error_code -> tribool -> world -> res tribool * hook_effect.

(** [http_parser::finished_parsing_headers] *)
Definition no_hook : hook_type := fun req _ rc w => (Val rc, mk_hook_effect req None w).

Definition call_hook (hook : hook_type) (rc : tribool) : M pstate tribool := fun s =>
  let '(r, e) := hook (ps_request s) (ps_ec s) rc (ps_world s) in
  let p := match he_handler e with
           | Some h => parser_set_payload_handler h (ps_parser s)
           | None => ps_parser s
           end in
  (r, s <| ps_parser := p |> <| ps_request := he_request e |> <| ps_world := he_world e |>).

(** ** After the headers *)

(** the loop over the Cookie headers *)
Definition parse_cookies (headers cookies : mmap) : mmap :=
  fold_left (fun cookies kv => (parse_cookie_header cookies kv.2 false).2)
    (equal_range headers HEADER_COOKIE) cookies.

Definition update_message_with_header_data (p : http_parser) (req : http_request)
    : http_request :=
  let req := set_method (m_method p) req in
  let req := set_resource (m_resource p) req in
  let req := set_query_string (m_query_string p) req in
  let req :=
    if negb (bool_decide (m_query_string p = []))
    then req <| req_query_params :=
                  (parse_url_encoded (req_query_params req) (m_query_string p)).2 |>
    else req in
  on_base (fun m => m <| m_cookie_params := parse_cookies (m_headers m) (m_cookie_params m) |>)
    req.

(** the part of [finish_header_parsing] that chooses how the payload is
    delimited; [None] is the [return false] on a bad content-length *)
Definition choose_payload_state : M pstate (option tribool) :=
  p <- gets ps_parser ;;
  m <- gets (fun s => req_base (ps_request s)) ;;
  implied <- gets (fun s => request_is_content_length_implied (ps_request s)) ;;
  if m_is_chunked m then
    on_parser (fun p => p <| m_message_parse_state := PARSE_CHUNKS |>) ;;;
    ret (Some (if m_parse_headers_only p then ttrue else indeterminate))
  else if implied then
    on_parser (fun p => p <| m_message_parse_state := PARSE_END |>) ;;;
    ret (Some ttrue)
  else if has_header m HEADER_CONTENT_LENGTH then
    ok <- try_catch (fun _ => true)
            (try_message update_content_length_using_header ;;; ret true)
            (modify (fun s => s <| ps_ec := set_error ERROR_INVALID_CONTENT_LENGTH |>) ;;;
             ret false) ;;
    if negb ok then ret None
    else
      n <- gets (fun s => m_content_length (req_base (ps_request s))) ;;
      if n =? 0 then
        on_parser (fun p => p <| m_message_parse_state := PARSE_END |>) ;;;
        ret (Some ttrue)
      else
        on_parser (fun p => p <| m_message_parse_state := PARSE_CONTENT |>
                              <| m_bytes_content_remaining := n |>) ;;;
        (if n >? m_max_content_length p
         then on_message (set_content_length (m_max_content_length p)) else ret tt) ;;;
        (if m_parse_headers_only p then ret (Some ttrue)
         else on_message create_content_buffer ;;; ret (Some indeterminate))
  else
    on_parser (fun p => p <| m_message_parse_state := PARSE_END |>) ;;;
    ret (Some ttrue).

Definition finish_header_parsing (hook : hook_type) : M pstate tribool :=
  on_parser (fun p => p <| m_bytes_content_read := 0 |> <| m_bytes_content_remaining := 0 |>) ;;;
  on_message (set_content_length 0) ;;;
  on_message update_transfer_encoding_using_header ;;;
  p <- gets ps_parser ;;
  on_request (update_message_with_header_data p) ;;;
  rc <- choose_payload_state ;;
  match rc with
  | None => ret tfalse
  | Some rc => call_hook hook rc
  end.

(** ** The end of the message *)

Definition compute_msg_status (msg_parsed_ok : bool) (m : http_message) : http_message :=
  let st :=
    if m_has_missing_packets m
    then if m_has_data_after_missing m then STATUS_PARTIAL else STATUS_TRUNCATED
    else if msg_parsed_ok then STATUS_OK else STATUS_TRUNCATED in
  set_status st m.

(** form data in the payload, at the end of [finish] *)
Definition finish_form_data : M pstate unit :=
  req <- gets ps_request ;;
  let content_type_header := get_header (req_base req) HEADER_CONTENT_TYPE in
  let m := req_base req in
  if compare_prefix content_type_header CONTENT_TYPE_URLENCODED then
    match cb_read (m_content_buf m) (m_content_length m) with
    | Val data =>
      on_request (fun req => req <| req_query_params :=
                                      (parse_url_encoded (req_query_params req) data).2 |>)
    | Exn e => throw e
    | Fault f => crash f
    end
  else if compare_prefix content_type_header CONTENT_TYPE_MULTIPART_FORM_DATA then
    match cb_read (m_content_buf m) (m_content_length m) with
    | Val data =>
      let '(r, dict) :=
        parse_multipart_form_data (req_query_params req) content_type_header data in
      on_request (fun req => req <| req_query_params := dict |>) ;;;
      match r with Val _ => ret tt | Exn e => throw e | Fault f => crash f end
    | Exn e => throw e
    | Fault f => crash f
    end
  else ret tt.

Definition finish_rest : M pstate unit :=
  on_message (fun m => compute_msg_status (m_is_valid m) m) ;;;
  p <- gets ps_parser ;;
  match m_payload_handler p with
  | None => if negb (m_parse_headers_only p) then finish_form_data else ret tt
  | Some _ => ret tt
  end.

(** [if (nullptr == m_payload_handler) http_msg.concatenate_chunks()] *)
Definition concatenate_unless_handled : M pstate unit :=
  p <- gets ps_parser ;;
  match m_payload_handler p with
  | None => try_message concatenate_chunks
  | Some _ => ret tt
  end.

Definition finish : M pstate unit :=
  p <- gets ps_parser ;;
  match m_message_parse_state p with
  | PARSE_START =>
    on_message (set_is_valid false) ;;;
    on_message (set_content_length 0) ;;;
    on_message create_content_buffer
  | PARSE_END => on_message (set_is_valid true) ;;; finish_rest
  | PARSE_HEADERS | PARSE_FOOTERS =>
    on_message (set_is_valid false) ;;;
    on_request (update_message_with_header_data p) ;;;
    on_message (set_content_length 0) ;;;
    on_message create_content_buffer ;;;
    finish_rest
  | PARSE_CONTENT =>
    on_message (set_is_valid false) ;;;
    (if get_content_bytes_read p <? m_max_content_length p
     then on_message (set_content_length (get_content_bytes_read p)) else ret tt) ;;;
    finish_rest
  | PARSE_CHUNKS =>
    on_message (set_is_valid
                  (bool_decide (m_chunked_content_parse_state p = PARSE_CHUNK_SIZE_START))) ;;;
    concatenate_unless_handled ;;;
    finish_rest
  | PARSE_CONTENT_NO_LENGTH =>
    on_message (set_is_valid true) ;;;
    concatenate_unless_handled ;;;
    finish_rest
  end.

(** ** The main loop *)

(** [parse_headers] on the state *)
Definition run_parse_headers : M pstate tribool := fun s =>
  let '(rc, p, m, ec) := parse_headers (ps_parser s) (req_base (ps_request s)) (ps_ec s) in
  (Val rc, s <| ps_parser := p |> <| ps_request := (ps_request s) <| req_base := m |> |>
             <| ps_ec := ec |>).

Definition last_read : M pstate Z := gets (fun s => m_bytes_last_read (ps_parser s)).

(** cases PARSE_START, PARSE_HEADERS and PARSE_FOOTERS *)
Definition iterate_headers (hook : hook_type) : M pstate (tribool * Z) :=
  rc <- run_parse_headers ;;
  n <- last_read ;;
  st <- gets (fun s => m_message_parse_state (ps_parser s)) ;;
  if is_ttrue rc && bool_decide (st = PARSE_HEADERS)
  then rc <- finish_header_parsing hook ;; ret (rc, n)
  else ret (rc, n).

(** case PARSE_CHUNKS *)
Definition iterate_chunks : M pstate (tribool * Z) :=
  r <- try_catch is_std (rc <- parse_chunks ;; n <- last_read ;; ret (rc, n)) (ret (tfalse, 0)) ;;
  let '(rc, n) := r in
  p <- gets ps_parser ;;
  match m_payload_handler p with
  | None =>
    if is_ttrue rc then
      try_message concatenate_chunks ;;;
      ret (if bool_decide (m_message_parse_state p = PARSE_FOOTERS)
           then (indeterminate, n) else (ttrue, n))
    else ret (rc, n)
  | Some _ => ret (rc, n)
  end.

(** case PARSE_CONTENT *)
Definition iterate_content : M pstate (tribool * Z) :=
  try_catch is_std (rc <- consume_content ;; n <- last_read ;; ret (rc, n)) (ret (tfalse, 0)).

(** case PARSE_CONTENT_NO_LENGTH: [rc] keeps its value, which is
    [indeterminate] whenever the loop is entered *)
Definition iterate_content_no_length : M pstate (tribool * Z) :=
  try_catch is_std
    (consume_content_as_next_chunk ;;; n <- last_read ;; ret (indeterminate, n))
    (ret (tfalse, 0)).

(** the [switch], with the bytes it adds to [total_bytes_parsed] *)
Definition parse_iteration (hook : hook_type) : M pstate (tribool * Z) :=
  st <- gets (fun s => m_message_parse_state (ps_parser s)) ;;
  match st with
  | PARSE_START =>
    on_parser (fun p => p <| m_message_parse_state := PARSE_HEADERS |>) ;;;
    iterate_headers hook
  | PARSE_HEADERS | PARSE_FOOTERS => iterate_headers hook
  | PARSE_CHUNKS => iterate_chunks
  | PARSE_CONTENT => iterate_content
  | PARSE_CONTENT_NO_LENGTH => iterate_content_no_length
  | PARSE_END => ret (ttrue, 0)
  end.

(** [do ... while (indeterminate(rc) && !eof())] *)
Fixpoint parse_loop (hook : hook_type) (fuel : nat) (total : Z) : M pstate (tribool * Z) :=
  match fuel with
  | O => crash OutOfFuel
  | S fuel =>
    r <- parse_iteration hook ;;
    let '(rc, n) := r in
    at_eof <- gets (fun s => eof (ps_parser s)) ;;
    if is_indeterminate rc && negb at_eof
    then parse_loop hook fuel (total +64 n)
    else ret (rc, total +64 n)
  end.

(** after the loop *)
Definition parse_epilogue (r : tribool * Z) : M pstate tribool :=
  let '(rc, total) := r in
  (if is_ttrue rc then
     on_parser (fun p => p <| m_message_parse_state := PARSE_END |>) ;;; finish
   else if is_tfalse rc then on_message (compute_msg_status false)
   else ret tt) ;;;
  on_parser (fun p => p <| m_bytes_last_read := total |>) ;;;
  ret rc.

(** before the loop *)
Definition parse_prologue : M pstate unit :=
  at_eof <- gets (fun s => eof (ps_parser s)) ;;
  if (at_eof : bool) then crash AssertFailed
  else
    missing <- gets (fun s => m_has_missing_packets (req_base (ps_request s))) ;;
    if (missing : bool) then on_message (set_data_after_missing_packet true) else ret tt.

Definition parse_fuel : nat := 4.

Definition parse (hook : hook_type) : M pstate tribool :=
  parse_prologue ;;;
  r <- parse_loop hook parse_fuel 0 ;;
  parse_epilogue r.

(** ** Other entry points *)

Definition check_premature_eof : M pstate bool :=
  p <- gets ps_parser ;;
  if negb (bool_decide (m_message_parse_state p = PARSE_CONTENT_NO_LENGTH)) then ret true
  else
    on_parser (fun p => p <| m_message_parse_state := PARSE_END |>) ;;;
    try_message concatenate_chunks ;;;
    finish ;;;
    ret false.

Definition skip_header_parsing (hook : hook_type) : M pstate unit :=
  ec <- gets ps_ec ;;
  modify (fun s => s <| ps_ec := no_error |>) ;;;
  finish_header_parsing hook ;;;
  modify (fun s => s <| ps_ec := ec |>).

End Parser.
