(* ===== verification/Response.v ===== *)
(** * HTTP responses (http_response.hpp)

    A response is a message with its status line.  [response_set_cookie] has
    the arguments of the four overloads of [set_cookie] as options: the path
    defaults to "/". *)

From S2P Require Import Prelude.
From S2P Require Import Externals.
From S2P Require Import Multimap.
From S2P Require Import Strings.
From S2P Require Import Message.
From S2P Require Import Request.

Record http_response := mk_response {
  resp_base : http_message;
  status_code : Z;
  status_message : str;
  request_method : str;
}.

#[export] Instance http_response_fields : Fields http_response := fun r =>
  mk_response (resp_base r) (status_code r) (status_message r) (request_method r).

(** an operation of the base class on the response *)
Definition on_resp_base (f : http_message -> http_message) (r : http_response) : http_response :=
  r <| resp_base := f (resp_base r) |>.

Definition set_status_code (n : Z) (r : http_response) : http_response :=
  on_resp_base clear_first_line (r <| status_code := n |>).

Definition set_status_message (msg : str) (r : http_response) : http_response :=
  on_resp_base clear_first_line (r <| status_message := msg |>).

(** the last two assignments of the branch for HTTP/0.9 *)
Definition response_version_0_0 (m : http_message) : http_message :=
  set_version_minor 0 (set_version_major 0 m).

Section Response.
Context `{PE : PayloadEnv}.

Definition update_request_info (req : http_request) (r : http_response) : http_response :=
  let r := r <| request_method := req_method req |> in
  let m := req_base req in
  if (m_version_major m =? 1) && (m_version_minor m >=? 1) then
    on_resp_base (set_chunks_supported true) r
  else if m_version_major m =? 0 then
    on_resp_base response_version_0_0 (set_status_message [] (set_status_code 0 r))
  else r.

(** the constructor *)
Definition new_response (req : http_request) : http_response :=
  update_request_info req (mk_response new_message RESPONSE_CODE_OK RESPONSE_MESSAGE_OK []).

End Response.

(** the copy constructor *)
Definition response_copy (r : http_response) : http_response :=
  mk_response (message_copy (resp_base r)) (status_code r) (status_message r) (request_method r).

(** [http_response::clear] *)
Definition response_clear (r : http_response) : http_response :=
  let r := on_resp_base message_clear r in
  r <| status_code := RESPONSE_CODE_OK |> <| status_message := RESPONSE_MESSAGE_OK |>
    <| request_method := [] |>.

Definition response_is_content_length_implied (r : http_response) : bool :=
  str_eqb (request_method r) REQUEST_METHOD_HEAD
  || ((status_code r >=? 100) && (status_code r <=? 199))
  || (status_code r =? 204) || (status_code r =? 205)
  || (status_code r =? 304).

Definition is_body_allowed (r : http_response) : bool :=
  negb (str_eqb REQUEST_METHOD_HEAD (request_method r)).

Section Operations.
Context `{SU : StaticlibUtils, MP : MultimapPolicy}.

(** the overloads of [set_cookie]; [None] is an argument not given *)
Definition response_set_cookie (name value : str) (path : option str) (max_age : option Z)
    (r : http_response) : http_response :=
  let path := default (bs "/") path in
  let header :=
    match max_age with
    | None => make_set_cookie_header name value path false 0
    | Some n => make_set_cookie_header name value path true n
    end in
  on_resp_base (add_header HEADER_SET_COOKIE header) r.

(** the two overloads of [delete_cookie] *)
Definition response_delete_cookie (name : str) (path : option str) (r : http_response)
    : http_response :=
  let header := make_set_cookie_header name [] (default (bs "/") path) true 0 in
  on_resp_base (add_header HEADER_SET_COOKIE header) r.

(** [update_first_line] *)
Definition response_update_first_line (r : http_response) : str :=
  get_version_string (resp_base r) ++ bs " " ++ to_string (status_code r) ++ bs " "
  ++ status_message r.

(** the override of [append_cookie_headers], which [prepare_buffers_for_send]
    does not reach *)
Definition response_append_cookie_headers (r : http_response) : http_response :=
  fold_left (fun r kv => response_set_cookie kv.1 kv.2 None None r)
    (m_cookie_params (resp_base r)) r.

(** [http_message::prepare_buffers_for_send] on a response *)
Definition response_prepare_buffers (write_buffers : list str) (keep_alive using_chunks : bool)
    (r : http_response) : list str * http_response :=
  let '(bufs, m) :=
    prepare_buffers_for_send (fun m => response_update_first_line (r <| resp_base := m |>))
      write_buffers keep_alive using_chunks (resp_base r) in
  (bufs, r <| resp_base := m |>).

End Operations.
