(* ===== verification/Writer.v ===== *)
(** * The response writer: what it sends (http_response_writer.hpp)

    The writer's fields and everything it does before it hands buffers to
    the connection; the operations that write to the connection are in
    [Server.v].  A buffer is its contents: [add_to_cache] copies the data
    into memory the writer owns, and [write_nocopy]'s caller keeps the data
    alive and unchanged until it is sent, which is the documented contract of
    that function.  The connection is named by its number.  The field
    [response_line], which nothing uses, is left out. *)

From S2P Require Import Prelude.
From S2P Require Import Externals.
From S2P Require Import Multimap.
From S2P Require Import Message.
From S2P Require Import Request.
From S2P Require Import Response.

Record http_response_writer := mk_writer {
  w_tcp_conn : nat;
  content_buffers : list str;
  payload_cache : list str;
  content_length : Z;
  client_supports_chunks : bool;
  sending_chunks : bool;
  sent_headers : bool;
  w_response : http_response;
}.

#[export] Instance http_response_writer_fields : Fields http_response_writer := fun w =>
  mk_writer (w_tcp_conn w) (content_buffers w) (payload_cache w) (content_length w)
    (client_supports_chunks w) (sending_chunks w) (sent_headers w) (w_response w).

Definition supports_chunked_messages (b : bool) (w : http_response_writer)
    : http_response_writer :=
  w <| client_supports_chunks := b |>.

(** the constructor *)
Definition new_writer `{PE : PayloadEnv} (tcp_conn : nat) (req : http_request)
    : http_response_writer :=
  let w := mk_writer tcp_conn [] [] 0 true false false (new_response req) in
  supports_chunked_messages (m_chunks_supported (resp_base (w_response w))) w.

(** [http_response_writer::clear] *)
Definition writer_clear (w : http_response_writer) : http_response_writer :=
  w <| content_buffers := [] |> <| payload_cache := [] |> <| content_length := 0 |>.

(** [add_to_cache]: the buffer returned is the copy *)
Definition add_to_cache (data : str) (w : http_response_writer) : str * http_response_writer :=
  (data, w <| payload_cache := payload_cache w ++ [data] |>).

Definition write (data : str) (w : http_response_writer) : http_response_writer :=
  if is_body_allowed (w_response w) && (slen data >? 0) then
    let '(buf, w) := add_to_cache data w in
    w <| content_buffers := content_buffers w ++ [buf] |>
      <| content_length := content_length w +64 slen data |>
  else w.

Definition write_nocopy (data : str) (w : http_response_writer) : http_response_writer :=
  if is_body_allowed (w_response w) && (slen data >? 0) then
    w <| content_buffers := content_buffers w ++ [data] |>
      <| content_length := content_length w +64 slen data |>
  else w.

(** [sprintf("%lx")] of a value that fits a [long] *)
Definition hex_char (d : Z) : char :=
  Ascii.ascii_of_nat (Z.to_nat (if d <? 10 then 48 + d else 87 + d)).

Fixpoint hex_digits (fuel : nat) (n : Z) : str :=
  match fuel with
  | O => []
  | S fuel => (if n <? 16 then [] else hex_digits fuel (n / 16)) ++ [hex_char (n mod 16)]
  end.

Definition sprintf_lx (n : Z) : str := hex_digits 16 n.

Section Buffers.
Context `{SU : StaticlibUtils, MP : MultimapPolicy}.

(** [http_response_writer::prepare_buffers_for_send]; [keep_alive] is the
    connection's [get_keep_alive()] *)
Definition writer_prepare_buffers (write_buffers : list str) (keep_alive : bool)
    (w : http_response_writer) : list str * http_response_writer :=
  let w := if content_length w >? 0
           then w <| w_response := on_resp_base (Message.set_content_length (content_length w))
                                     (w_response w) |>
           else w in
  let '(write_buffers, resp) :=
    response_prepare_buffers write_buffers keep_alive (sending_chunks w) (w_response w) in
  (write_buffers, w <| w_response := resp |>).

Definition prepare_write_buffers (write_buffers : list str) (keep_alive send_final_chunk : bool)
    (w : http_response_writer) : list str * http_response_writer :=
  let '(write_buffers, w) :=
    if negb (sent_headers w) then
      let '(write_buffers, w) := writer_prepare_buffers write_buffers keep_alive w in
      (write_buffers, w <| sent_headers := true |>)
    else (write_buffers, w) in
  let '(write_buffers, w) :=
    if content_length w >? 0 then
      if client_supports_chunks w && sending_chunks w then
        let '(cast_buf, w) := add_to_cache (sprintf_lx (content_length w)) w in
        (write_buffers ++ [cast_buf] ++ [STRING_CRLF] ++ content_buffers w ++ [STRING_CRLF], w)
      else (write_buffers ++ content_buffers w, w)
    else (write_buffers, w) in
  if send_final_chunk && client_supports_chunks w && sending_chunks w then
    let '(zero, w) := add_to_cache (bs "0") w in
    (write_buffers ++ [zero] ++ [STRING_CRLF] ++ [STRING_CRLF], w)
  else (write_buffers, w).

End Buffers.
