(* ===== verification/Routing.v ===== *)
(** * The HTTP server's tables (http_server.hpp, http_server.cpp)

    Which handler a request goes to: the tables of handlers by method and
    path, the look-up by longest registered ancestor, the WebSocket tables
    and the registry of WebSocket connections.  A [std::function] stored in a
    table is a value of an abstract type; what calling it does is described
    where it is called, in [Server.v].  An [std::unordered_map] with string
    keys is a [gmap].  [pion_exception] is an [std::exception]. *)

From S2P Require Import Prelude.
From S2P Require Import Externals.
From S2P Require Import Strings.
From S2P Require Import Message.
From stdpp Require Export gmap.

#[local] Open Scope Z_scope.

(** ** The five tables *)

Inductive http_map := get_map | post_map | put_map | delete_map | options_map.

#[export] Instance http_map_eq_dec : EqDecision http_map.
Proof. solve_decision. Defined.

Definition strip_trailing_slash (s : str) : str :=
  match last s with
  | Some c => if c ==c "/" then take (length s - 1) s else s
  | None => s
  end.

(** a template in the source, called with the five maps of a kind *)
Definition choose_map_by_method {T : Type} (method : str)
    (get_map post_map put_map delete_map options_map : T) : res T :=
  if str_eqb REQUEST_METHOD_GET method || str_eqb REQUEST_METHOD_HEAD method then Val get_map
  else if str_eqb REQUEST_METHOD_POST method then Val post_map
  else if str_eqb REQUEST_METHOD_PUT method then Val put_map
  else if str_eqb REQUEST_METHOD_DELETE method then Val delete_map
  else if str_eqb REQUEST_METHOD_OPTIONS method then Val options_map
  else Exn ExnStd.

Definition choose_ws_map {T : Type} (event : str) (open_map message_map close_map : T) : res T :=
  if str_eqb (bs "WSOPEN") event then Val open_map
  else if str_eqb (bs "WSMESSAGE") event then Val message_map
  else if str_eqb (bs "WSCLOSE") event then Val close_map
  else Exn ExnStd.

(** [find_submatch]: the loop cuts [st] at its last slash until it finds a
    key or has no slash left.  Each turn but the first makes [st] shorter,
    so [length path + 2] turns are enough. *)
Fixpoint find_submatch_loop {V : Type} (map : gmap str V) (fuel : nat) (st : str)
    (slash_ind : nat) : res (option (str * V)) :=
  match fuel with
  | O => Fault OutOfFuel
  | S fuel =>
    let st := substr st 0 slash_ind in
    match map !! st with
    | Some v => Val (Some (st, v))
    | None =>
      match find_last "/" st with
      | None => Val None
      | Some slash_ind => find_submatch_loop map fuel st slash_ind
      end
    end
  end.

Definition find_submatch {V : Type} (map : gmap str V) (path : str) : res (option (str * V)) :=
  find_submatch_loop map (length path + 2) path (length path).

(** ** The server's tables *)

Class HandlerTypes := {
  request_handler : Type;
  payload_handler_creator : Type;
  websocket_handler : Type;
}.

Section Tables.
Context `{HT : HandlerTypes}.

(** the values of a [request_handler_type]: the two functions of
    http_server.cpp that the constructor installs, or a user's *)
Inductive request_callback :=
| handle_bad_request_fun
| handle_not_found_fun
| user_request_handler (h : request_handler).

(** the values of a [websocket_handler_type]: the two lambdas of
    [find_ws_handlers], or a user's *)
Inductive websocket_callback :=
| receive_fun
| noop_fun
| user_websocket_handler (h : websocket_handler).

Record http_server := mk_http_server {
  handlers : http_map -> gmap str request_callback;
  bad_request_handler : request_callback;
  not_found_handler : request_callback;
  payloads : http_map -> gmap str payload_handler_creator;
  wsopen_handlers : gmap str websocket_callback;
  wsmessage_handlers : gmap str websocket_callback;
  wsclose_handlers : gmap str websocket_callback;
}.

#[export] Instance http_server_fields : Fields http_server := fun s =>
  mk_http_server (handlers s) (bad_request_handler s) (not_found_handler s) (payloads s)
    (wsopen_handlers s) (wsmessage_handlers s) (wsclose_handlers s).

(** the constructor, but for the SSL context *)
Definition new_http_server : http_server :=
  mk_http_server (fun _ => ∅) handle_bad_request_fun handle_not_found_fun (fun _ => ∅) ∅ ∅ ∅.

(** the map of a kind that a method selects *)
Definition select_map (method : str) : res http_map :=
  choose_map_by_method method get_map post_map put_map delete_map options_map.

(** [map.emplace(key, v)], on one of the maps; a duplicate throws *)
Definition emplace_in {V : Type} (maps : http_map -> gmap str V) (m : http_map) (key : str) (v : V)
    : res (http_map -> gmap str V) :=
  match maps m !! key with
  | Some _ => Exn ExnStd
  | None => Val (fun m' => if decide (m' = m) then <[key := v]> (maps m) else maps m')
  end.

Definition add_handler (method resource : str) (h : request_callback) (s : http_server)
    : res http_server :=
  match select_map method with
  | Val m =>
    match emplace_in (handlers s) m (strip_trailing_slash resource) h with
    | Val hs => Val (s <| handlers := hs |>)
    | Exn e => Exn e
    | Fault f => Fault f
    end
  | Exn e => Exn e
  | Fault f => Fault f
  end.

Definition add_payload_handler (method resource : str) (pc : payload_handler_creator)
    (s : http_server) : res http_server :=
  match select_map method with
  | Val m =>
    match emplace_in (payloads s) m (strip_trailing_slash resource) pc with
    | Val ps => Val (s <| payloads := ps |>)
    | Exn e => Exn e
    | Fault f => Fault f
    end
  | Exn e => Exn e
  | Fault f => Fault f
  end.

Definition set_bad_request_handler (h : request_callback) (s : http_server) : http_server :=
  s <| bad_request_handler := h |>.

Definition set_not_found_handler (h : request_callback) (s : http_server) : http_server :=
  s <| not_found_handler := h |>.

(** the three WebSocket maps *)
Inductive ws_map := ws_open | ws_message | ws_close.

Definition ws_handlers (m : ws_map) (s : http_server) : gmap str websocket_callback :=
  match m with
  | ws_open => wsopen_handlers s
  | ws_message => wsmessage_handlers s
  | ws_close => wsclose_handlers s
  end.

Definition add_websocket_handler (event resource : str) (h : websocket_callback) (s : http_server)
    : res http_server :=
  match choose_ws_map event ws_open ws_message ws_close with
  | Val m =>
    let key := strip_trailing_slash resource in
    match ws_handlers m s !! key with
    | Some _ => Exn ExnStd
    | None =>
      let map := <[key := h]> (ws_handlers m s) in
      Val match m with
          | ws_open => s <| wsopen_handlers := map |>
          | ws_message => s <| wsmessage_handlers := map |>
          | ws_close => s <| wsclose_handlers := map |>
          end
    end
  | Exn e => Exn e
  | Fault f => Fault f
  end.

(** [it != map.end()] *)
Definition found {A : Type} (it : option A) : bool :=
  match it with Some _ => true | None => false end.

(** [find_ws_handlers]: the path is looked up as it is *)
Definition find_ws_handlers (path : str) (s : http_server)
    : bool * websocket_callback * websocket_callback * websocket_callback :=
  let it_open := wsopen_handlers s !! path in
  let it_message := wsmessage_handlers s !! path in
  let it_close := wsclose_handlers s !! path in
  (found it_open || found it_message || found it_close,
   default receive_fun it_open, default receive_fun it_message, default noop_fun it_close).

End Tables.

(** ** The registry of WebSocket connections

    An [std::multimap] from paths to an identifier and a weak pointer, as the
    list of its elements in iteration order; a connection is a number, and
    [alive] tells whether some strong pointer to it is left. *)

Record ws_entry := mk_ws_entry { we_path : str; we_id : str; we_conn : nat }.

#[export] Instance ws_entry_eq_dec : EqDecision ws_entry.
Proof. solve_decision. Defined.

(** [std::string]'s order: byte by byte, unsigned *)
Fixpoint str_ltb (a b : str) : bool :=
  match a, b with
  | _, [] => false
  | [], _ :: _ => true
  | c :: a', d :: b' =>
    (int_of_uchar c <? int_of_uchar d)
    || (int_of_uchar c =? int_of_uchar d) && str_ltb a' b'
  end.

(** [insert] puts an element after those with an equivalent key *)
Fixpoint registry_insert (e : ws_entry) (registry : list ws_entry) : list ws_entry :=
  match registry with
  | [] => [e]
  | x :: rest => if str_ltb (we_path e) (we_path x) then e :: x :: rest
                 else x :: registry_insert e rest
  end.

Definition register_ws_conn (alive : nat -> bool) (registry : list ws_entry) (path id : str)
    (conn : nat) : list ws_entry :=
  let registry := filter (fun e => alive (we_conn e) = true) registry in
  registry_insert (mk_ws_entry path id conn) registry.

Definition registry_range (registry : list ws_entry) (path : str) : list ws_entry :=
  filter (fun e => we_path e = path) registry.

(** The loop of [find_ws_conns].  [range] is what is left of the equal range,
    [it] its head; the result is the connections found and the elements of
    the range that stay in the registry. *)
Fixpoint find_ws_loop (alive : nat -> bool) (dest_ids : list str) (fuel : nat)
    (range : list ws_entry) (vec : list nat) (kept : list ws_entry)
    : res (list nat * list ws_entry) :=
  match fuel with
  | O => Fault OutOfFuel
  | S fuel =>
    match range with
    | [] => Val (vec, kept)
    | it :: next =>
      if bool_decide (dest_ids = []) || bool_decide (we_id it ∈ dest_ids) then
        if alive (we_conn it)
        then find_ws_loop alive dest_ids fuel next (vec ++ [we_conn it]) (kept ++ [it])
        else find_ws_loop alive dest_ids fuel next vec kept
      else find_ws_loop alive dest_ids fuel range vec kept
    end
  end.

(** the elements of the range are replaced in place by those that stay *)
Definition find_ws_conns (alive : nat -> bool) (registry : list ws_entry) (path : str)
    (dest_ids : list str) (fuel : nat) : res (list nat * list ws_entry) :=
  match find_ws_loop alive dest_ids fuel (registry_range registry path) [] [] with
  | Val (vec, kept) =>
    Val (vec, filter (fun e => we_path e <> path \/ e ∈ kept) registry)
  | Exn e => Exn e
  | Fault f => Fault f
  end.
