(* ===== verification/Websocket.v ===== *)
(** * WebSocket connections (websocket.hpp)

    A [websocket] owns its connection and moves through callbacks: each
    static member takes the object, changes it and either starts one
    asynchronous operation with a continuation, or hands the object to a user
    callback.  A member is therefore a function from the object to the object
    and an [ws_action], the one operation it ends with; [Server.v] performs
    the actions and calls the continuations when they complete.

    Frames are parsed and printed by sl::websocket, which is not part of this
    repository: [WebsocketLib] gives the functions used.  A frame is a view,
    [sl::websocket::frame(span)], on the bytes it was constructed from; a
    frame in [frames] is either a copy owned by [frames_cache] or, for the
    last one, a view on the receive buffer, which does not change before
    [clear_frames_cache].  Both are their bytes here. *)

From S2P Require Import Prelude.
From S2P Require Import Externals.
From S2P Require Import Multimap.
From S2P Require Import Strings.
From S2P Require Import Message.
From S2P Require Import Request.
From S2P Require Import Routing.

#[local] Open Scope Z_scope.

(** the types of frames that the source names, and the others *)
Inductive frame_type :=
| ft_text | ft_binary | ft_continuation | ft_ping | ft_close | ft_invalid | ft_other.

#[export] Instance frame_type_eq_dec : EqDecision frame_type.
Proof. solve_decision. Defined.

Class WebsocketLib := {
  frame_is_well_formed : str -> bool;
  frame_is_complete : str -> bool;
  frame_is_final : str -> bool;
  frame_type_of : str -> frame_type;
  frame_size : str -> Z;
  frame_payload_unmasked : str -> str;
  frame_make_header : frame_type -> Z -> str;
  make_response_line : str;
  make_response_headers : str -> list (str * str);
}.

(** a complete frame lies within the bytes it is a view of, and is not empty *)
Class WebsocketLibLaws `{WL : WebsocketLib} : Prop := {
  frame_size_complete s :
    frame_is_well_formed s = true -> frame_is_complete s = true -> 0 < frame_size s <= slen s;
}.

(** [enum class close_status : uint32_t] *)
Inductive close_status := normal | going_away | protocol_error | overflow | error.

Definition close_status_value (st : close_status) : Z :=
  match st with
  | normal => 0xe8030288
  | going_away => 0xe9030288
  | protocol_error => 0xea030288
  | overflow => 0xf1030288
  | error => 0xf3030288
  end.

(** the four bytes at [std::addressof(status)], on a little-endian machine.
    [status] is a reference to an argument that is no longer alive when the
    operation [send_close] starts reads it; these are the bytes it had. *)
Definition close_status_bytes (st : close_status) : str :=
  map (fun i => Ascii.ascii_of_N (Z.to_N (Z.land (Z.shiftr (close_status_value st) (8 * i)) 255)))
    [0; 1; 2; 3].

Record websocket `{PE : PayloadEnv, HT : HandlerTypes} := mk_websocket {
  ws_request : http_request;
  ws_connection : nat;
  on_open_fun : websocket_callback;
  on_message_fun : websocket_callback;
  on_close_fun : websocket_callback;
  receive_buffer_max_size : Z;
  frames_max_count : Z;
  payload_buffers : list str;
  payload_length : Z;
  receive_buffer : str;
  frames : list str;
}.

Section Websocket.
Context `{PE : PayloadEnv, HT : HandlerTypes}.
Context `{SU : StaticlibUtils, MP : MultimapPolicy, WL : WebsocketLib}.

#[export] Instance websocket_fields : Fields websocket := fun w =>
  mk_websocket PE HT (ws_request w) (ws_connection w) (on_open_fun w) (on_message_fun w)
    (on_close_fun w) (receive_buffer_max_size w) (frames_max_count w) (payload_buffers w)
    (payload_length w) (receive_buffer w) (frames w).

(** what is called when an operation completes without an error *)
Inductive ws_continuation :=
| then_on_open
| then_receive
| then_process_receive_buffer
| then_call (f : websocket_callback)   (** a handler given to [send_message] *)
| then_send_internal (k : ws_continuation).

(** the operation a member ends with *)
Inductive ws_action :=
| ws_write (bufs : list str) (k : ws_continuation)   (** [send_internal] *)
| ws_write_close (status : close_status)             (** [send_close] *)
| ws_read                                            (** [receive_internal] *)
| ws_post (k : ws_continuation)                      (** [post_with_strand] *)
| ws_call (f : websocket_callback).                  (** a user's callback *)

(** the constructor; it also sets the connection's lifecycle to [close] *)
Definition new_websocket (req : http_request) (conn : nat)
    (open_handler message_handler close_handler : websocket_callback)
    (max_receive_cache_size_bytes max_cached_frames_count : Z) : websocket :=
  mk_websocket PE HT req conn open_handler message_handler close_handler
    max_receive_cache_size_bytes max_cached_frames_count [] 0 [] [].

Definition get_id (w : websocket) : str :=
  get_header (req_base (ws_request w)) (bs "Sec-WebSocket-Key").

Definition message_type (w : websocket) : frame_type :=
  match frames w with [] => ft_invalid | f :: _ => frame_type_of f end.

(** what [message_data] delivers: the payloads of the frames in a row *)
Definition message_data (w : websocket) : str := concat (map frame_payload_unmasked (frames w)).

(** [write] and [write_nocopy] differ in who owns the bytes *)
Definition websocket_write (data : str) (w : websocket) : websocket :=
  if slen data >? 0 then
    w <| payload_buffers := payload_buffers w ++ [data] |>
      <| payload_length := payload_length w +64 slen data |>
  else w.

Definition is_websocket_upgrade (req : http_request) : bool :=
  let m := req_base req in
  has_header_value m (bs "Upgrade") (bs "websocket")
  && has_header_value m (bs "Sec-WebSocket-Version") (bs "13")
  && has_header_value m (bs "Connection") (bs "Upgrade")
  && negb (bool_decide (get_header m (bs "Host") = []))
  && (slen (get_header m (bs "Sec-WebSocket-Key")) =? 24).

(** ** Buffers *)

Definition add_to_receive_buffer (buf : str) (w : websocket) : websocket :=
  w <| receive_buffer := receive_buffer w ++ buf |>.

(** [receive_tail] is unsigned: a frame that is longer than the buffer makes
    the [memmove] go outside it *)
Definition remove_frame_from_receive_buffer (frame : str) (w : websocket) : res websocket :=
  if frame_size frame <=? slen (receive_buffer w)
  then Val (w <| receive_buffer := drop (Z.to_nat (frame_size frame)) (receive_buffer w) |>)
  else Fault OutOfBounds.

Definition add_to_frames_cache (frame : str) (w : websocket) : res websocket :=
  let copy := take (Z.to_nat (frame_size frame)) frame in
  remove_frame_from_receive_buffer frame (w <| frames := frames w ++ [copy] |>).

Definition clear_payload (w : websocket) : websocket :=
  w <| payload_buffers := [[]] |> <| payload_length := 0 |>.

Definition clear_frames_cache (w : websocket) : res websocket :=
  match last (frames w) with
  | Some back =>
    match remove_frame_from_receive_buffer back w with
    | Val w => Val (w <| frames := [] |>)
    | Exn e => Exn e
    | Fault f => Fault f
    end
  | None => Val (w <| frames := [] |>)
  end.

(** [payload_buffers[0] = header]: there has to be such an element *)
Definition prepare_header (msg_type : frame_type) (w : websocket) : res websocket :=
  match payload_buffers w with
  | [] => Fault OutOfBounds
  | _ :: bufs =>
    Val (w <| payload_buffers := frame_make_header msg_type (payload_length w) :: bufs |>)
  end.

Definition prepare_handshake (w : websocket) : websocket :=
  let w := websocket_write make_response_line w in
  let key := get_header (req_base (ws_request w)) (bs "Sec-WebSocket-Key") in
  let w :=
    fold_left (fun w ha =>
        websocket_write STRING_CRLF (websocket_write ha.2
          (websocket_write (bs ": ") (websocket_write ha.1 w))))
      (make_response_headers key) w in
  websocket_write STRING_CRLF w.

Definition receive_buffer_overflow (addition : Z) (w : websocket) : bool :=
  slen (receive_buffer w) + addition >? receive_buffer_max_size w.

Definition frames_cache_overflow (w : websocket) : bool :=
  Z.of_nat (length (frames w)) >=? frames_max_count w.

(** ** The members that end with an operation *)

Definition send_internal (k : ws_continuation) (w : websocket) : res (websocket * ws_action) :=
  Val (w, ws_write (payload_buffers w) k).

Definition send_close (status : close_status) (w : websocket) : res (websocket * ws_action) :=
  Val (w, ws_write_close status).

Definition post_with_strand (k : ws_continuation) (w : websocket) : res (websocket * ws_action) :=
  Val (w, ws_post k).

Definition websocket_on_open (w : websocket) : res (websocket * ws_action) :=
  Val (w, ws_call (on_open_fun w)).

Definition websocket_on_message (w : websocket) : res (websocket * ws_action) :=
  Val (w, ws_call (on_message_fun w)).

Definition on_close (status : close_status) (w : websocket) : res (websocket * ws_action) :=
  send_close status w.

Definition receive_internal (w : websocket) : res (websocket * ws_action) := Val (w, ws_read).

(** [on_ping]: at most 128 bytes of the payload; no frame header is written *)
Definition on_ping (frame : str) (w : websocket) : res (websocket * ws_action) :=
  let w := if slen (frame_payload_unmasked frame) >? 0
           then websocket_write (take 128 (frame_payload_unmasked frame)) w else w in
  send_internal then_receive w.

Definition process_final_frame (frame : str) (w : websocket) : res (websocket * ws_action) :=
  let w := w <| frames := frames w ++ [frame] |> in
  match frame_type_of frame with
  | ft_text | ft_binary | ft_continuation => websocket_on_message w
  | ft_ping => on_ping frame w
  | ft_close => on_close normal w
  | _ => on_close protocol_error w
  end.

Definition on_continuation (frame : str) (w : websocket) : res (websocket * ws_action) :=
  if frames_cache_overflow w then on_close overflow w
  else
    match add_to_frames_cache frame w with
    | Val w => post_with_strand then_process_receive_buffer w
    | Exn e => Exn e
    | Fault f => Fault f
    end.

Definition process_receive_buffer (w : websocket) : res (websocket * ws_action) :=
  let frame := receive_buffer w in
  if negb (frame_is_well_formed frame) then on_close protocol_error w
  else if negb (frame_is_complete frame) then receive_internal w
  else if negb (frame_is_final frame) then on_continuation frame w
  else process_final_frame frame w.

Definition consume (buf : str) (w : websocket) : res (websocket * ws_action) :=
  if receive_buffer_overflow (slen buf) w then on_close overflow w
  else process_receive_buffer (add_to_receive_buffer buf w).

(** [websocket::receive] *)
Definition websocket_receive (w : websocket) : res (websocket * ws_action) :=
  match clear_frames_cache w with
  | Val w => process_receive_buffer w
  | Exn e => Exn e
  | Fault f => Fault f
  end.

(** [websocket::start] *)
Definition websocket_start (w : websocket) : res (websocket * ws_action) :=
  send_internal then_on_open (prepare_handshake w).

(** [websocket::send_message]; [send] is [send_message] with [receive] *)
Definition send_message (msg_type : frame_type) (k : ws_continuation) (w : websocket)
    : res (websocket * ws_action) :=
  match prepare_header msg_type w with
  | Val w => post_with_strand (then_send_internal k) w
  | Exn e => Exn e
  | Fault f => Fault f
  end.

Definition websocket_send (msg_type : frame_type) (w : websocket) : res (websocket * ws_action) :=
  send_message msg_type then_receive w.

(** [websocket::close] *)
Definition websocket_close (status : close_status) (w : websocket) : res (websocket * ws_action) :=
  on_close status w.

(** ** Completions *)

Definition continue (k : ws_continuation) (w : websocket) : res (websocket * ws_action) :=
  match k with
  | then_on_open => websocket_on_open w
  | then_receive => websocket_receive w
  | then_process_receive_buffer => process_receive_buffer w
  | then_call f => Val (w, ws_call f)
  | then_send_internal k => send_internal k w
  end.

(** the completion handler of [send_internal]; [ok] is [!ec] *)
Definition write_completed (ok : bool) (k : ws_continuation) (w : websocket)
    : res (websocket * ws_action) :=
  let w := clear_payload w in
  if ok then continue k w else on_close error w.

(** the completion handler of [receive_internal]; [None] is an error *)
Definition read_completed (data : option str) (w : websocket) : res (websocket * ws_action) :=
  match data with
  | Some buf => consume buf w
  | None => on_close error w
  end.

(** the completion handler of [send_close] *)
Definition close_completed (w : websocket) : res (websocket * ws_action) :=
  Val (w, ws_call (on_close_fun w)).

(** [websocket::broadcast]: the message that is written to each connection *)
Definition broadcast_message (msg_type : frame_type) (msg : str) : str :=
  frame_make_header msg_type (slen msg) ++ msg.

End Websocket.
