(* ===== verification/Scheduler.v ===== *)
(** * The thread scheduler (scheduler.hpp, scheduler.cpp)

    The state of a [scheduler] and its operations as atomic steps: an
    operation runs under the scheduler's mutex, except for [add_active_user],
    which is two steps, and [shutdown] and [join] give it up only where they
    wait on a condition variable, so each of them is one test of its condition
    followed either by the wait ([None]: the caller blocks and tests again when
    it is woken) or by the rest of the body.  The threads [shutdown] joins are
    taken to end: none of them waits for the mutex, which it holds.  The work the threads do is what [Server.v] models; here a thread
    is its number.  The [asio::io_service] is represented by whether it has
    been stopped. *)

From S2P Require Import Prelude.
From stdpp Require Import list.

#[local] Open Scope Z_scope.

Record scheduler := mk_scheduler {
  num_threads : Z;
  active_users : Z;
  running : bool;
  thread_pool : list nat;
  service_stopped : bool;
  timer_armed : bool;        (** the timer of [keep_running] *)
  next_thread : nat;
  joined : list nat;         (** the threads [stop_threads] has joined *)
}.

#[export] Instance scheduler_fields : Fields scheduler := fun s =>
  mk_scheduler (num_threads s) (active_users s) (running s) (thread_pool s) (service_stopped s)
    (timer_armed s) (next_thread s) (joined s).

(** the constructor; [number_of_threads] is a [uint32_t] *)
Definition new_scheduler (number_of_threads : Z) : scheduler :=
  mk_scheduler number_of_threads 0 false [] false false 0 [].

(** [keep_running], which its own timer calls again *)
Definition keep_running (s : scheduler) : scheduler :=
  if running s then s <| timer_armed := true |> else s <| timer_armed := false |>.

(** the loop that starts the threads *)
Definition start_threads (s : scheduler) : scheduler :=
  let n := Z.to_nat (num_threads s) in
  s <| thread_pool := thread_pool s ++ seq (next_thread s) n |>
    <| next_thread := (next_thread s + n)%nat |>.

Definition startup (s : scheduler) : scheduler :=
  if running s then s
  else start_threads (keep_running (s <| running := true |> <| service_stopped := false |>)).

(** [stop_threads] joins every thread but the current one *)
Definition stop_threads (current : option nat) (s : scheduler) : scheduler :=
  s <| joined := joined s ++ filter (fun t => Some t <> current) (thread_pool s) |>.

(** [thread_pool.clear()]: the destructor of a [std::thread] that has not been
    joined calls [std::terminate] *)
Definition clear_threads (s : scheduler) : res scheduler :=
  if forallb (fun t => bool_decide (t ∈ joined s)) (thread_pool s)
  then Val (s <| thread_pool := [] |>)
  else Fault Terminated.

(** the part of [shutdown] both branches share: stop the service, join the
    threads, make the service ready for another run, forget the threads *)
Definition stop_everything (current : option nat) (s : scheduler) : res scheduler :=
  let s := s <| service_stopped := true |> in
  let s := stop_threads current s in
  let s := s <| service_stopped := false |> in
  clear_threads s.

(** [shutdown], called by the thread [current] of the pool or by another one:
    [None] while it waits *)
Definition shutdown (current : option nat) (s : scheduler) : option (res scheduler) :=
  if running s then
    if active_users s >? 0 then None
    else Some (stop_everything current (s <| running := false |>))
  else Some (stop_everything current s).

(** [join]: [None] while it waits *)
Definition scheduler_join (s : scheduler) : option scheduler :=
  if running s then None else Some s.

(** the part of [add_active_user] under the mutex *)
Definition count_active_user (s : scheduler) : scheduler :=
  s <| active_users := wrap 32 (active_users s + 1) |>.

(** [add_active_user], when nothing comes between its test, its [startup] and
    its counting, which are separate steps *)
Definition add_active_user (s : scheduler) : scheduler :=
  count_active_user (if negb (running s) then startup s else s).

(** the result says whether [no_more_active_users] is notified *)
Definition remove_active_user (s : scheduler) : bool * scheduler :=
  let s := s <| active_users := wrap 32 (active_users s - 1) |> in
  (active_users s =? 0, s).

(** one turn of the loop of [process_service_work]: [Some] while the thread
    goes on.  [service.run()] may throw; the exception is logged. *)
Definition process_service_work_turn {S : Type} (run : S -> res unit * S) (s : scheduler) (w : S)
    : option S :=
  if running s then
    match run w with
    | (Fault _, _) => None
    | (_, w) => Some w
    end
  else None.
