(* ===== verification/Connection.v ===== *)
(** * Connections and user code (tcp_connection.hpp)

    The state of a [tcp_connection] without its socket: whether the socket is
    open, the lifecycle, the read buffer and the bookmark in it.  The socket's
    asynchronous operations, [finish] and the timer are in [Server.v].

    The server runs user code in several places: payload handlers and their
    creators, request handlers, the callbacks of [send_chunk] and of
    WebSockets.  [UserEnv] and [UserCode] describe what such code can do: it
    acts on a world of its own and on the writer or websocket it is given,
    through their interfaces, and ends with at most one operation on it. *)

From S2P Require Import Prelude.
From S2P Require Import Externals.
From S2P Require Import Multimap.
From S2P Require Import Message.
From S2P Require Import Request.
From S2P Require Import Response.
From S2P Require Import Writer.
From S2P Require Import Routing.
From S2P Require Import Websocket.

#[local] Open Scope Z_scope.

(** ** [tcp_connection] *)

Inductive lifecycle := lifecycle_close | lifecycle_keepalive | lifecycle_pipelined.

#[export] Instance lifecycle_eq_dec : EqDecision lifecycle.
Proof. solve_decision. Defined.

(** [read_position], a pair of pointers into [read_buffer], is the bytes
    between them; nothing overwrites the buffer while a position is saved,
    since the next read starts after the position has been loaded. *)
Record tcp_connection := mk_connection {
  socket_open : bool;
  ssl_flag : bool;
  read_buffer : str;
  read_position : str;
  current_lifecycle : lifecycle;
  remote_ip : Z;
}.

#[export] Instance tcp_connection_fields : Fields tcp_connection := fun c =>
  mk_connection (socket_open c) (ssl_flag c) (read_buffer c) (read_position c)
    (current_lifecycle c) (remote_ip c).

(** the constructor *)
Definition new_connection (ssl_flag_in : bool) : tcp_connection :=
  mk_connection false ssl_flag_in [] [] lifecycle_close 0.

Definition is_open (c : tcp_connection) : bool := socket_open c.

(** [close]: [shutdown] may fail, which is ignored; the socket ends closed *)
Definition close_connection (c : tcp_connection) : tcp_connection :=
  if is_open c then c <| socket_open := false |> else c.

Definition set_lifecycle (l : lifecycle) (c : tcp_connection) : tcp_connection :=
  c <| current_lifecycle := l |>.

Definition get_keep_alive (c : tcp_connection) : bool :=
  negb (bool_decide (current_lifecycle c = lifecycle_close)).

Definition is_pipelined (c : tcp_connection) : bool :=
  bool_decide (current_lifecycle c = lifecycle_pipelined).

Definition save_read_pos (position : str) (c : tcp_connection) : tcp_connection :=
  c <| read_position := position |>.

Definition load_read_pos (c : tcp_connection) : str := read_position c.

(** ** User code *)

Class UserEnv := {
  user_world : Type;
  payload_handler : Type;
  run_payload_handler : payload_handler -> str -> user_world -> option exn * user_world;
}.

(** what user code and the parser's hook act on: the user's world and the
    record of what has been given to connections to write, in order *)
Record server_world `{UserEnv} := mk_server_world {
  sw_user : user_world;
  sw_sent : list (nat * str);
}.

#[export] Instance server_payload_env `{UE : UserEnv} : PayloadEnv := {|
  handler := payload_handler;
  world := server_world;
  run_handler h data w :=
    let '(r, u) := run_payload_handler h data (sw_user w) in
    (r, mk_server_world UE u (sw_sent w));
|}.

(** a call on a response writer; [call_response] stands for the changes made
    through [get_response()] *)
Inductive writer_call :=
| call_clear
| call_write (data : str)
| call_write_nocopy (data : str)
| call_supports_chunked_messages (b : bool)
| call_response (r : http_response).

Definition run_writer_call (w : http_response_writer) (c : writer_call) : http_response_writer :=
  match c with
  | call_clear => writer_clear w
  | call_write data => write data w
  | call_write_nocopy data => write_nocopy data w
  | call_supports_chunked_messages b => supports_chunked_messages b w
  | call_response r => w <| w_response := r |>
  end.

(** how code that owns a writer gives it up: one of the sending functions,
    keeping it for later, destroying it, or an exception, which destroys it *)
Inductive writer_end (send_handler : Type) :=
| end_send
| end_send_chunk (h : send_handler)
| end_send_final_chunk
| end_keep
| end_drop
| end_throw (e : exn).
Arguments end_send {_}.
Arguments end_send_chunk {_} _.
Arguments end_send_final_chunk {_}.
Arguments end_keep {_}.
Arguments end_drop {_}.
Arguments end_throw {_} _.

Record writer_reply (send_handler : Type) := mk_writer_reply {
  wr_calls : list writer_call;
  wr_end : writer_end send_handler;
}.
Arguments mk_writer_reply {_} _ _.
Arguments wr_calls {_} _.
Arguments wr_end {_} _.

(** the same for code that owns a websocket: what it writes, and the member
    function it ends with.  It passes the object on or destroys it before it
    returns: unlike a writer, a websocket that is kept for a delayed response
    is not modelled. *)
Inductive ws_end `{HandlerTypes} :=
| ws_end_receive
| ws_end_send (t : frame_type)
| ws_end_send_message (t : frame_type) (f : websocket_callback)
| ws_end_close (st : close_status)
| ws_end_drop
| ws_end_throw (e : exn).

Record ws_reply `{HandlerTypes} := mk_ws_reply {
  wsr_writes : list str;
  wsr_end : ws_end;
}.

Class UserCode `{UE : UserEnv, HT : HandlerTypes} := {
  send_handler : Type;
  create_payload_handler :
    payload_handler_creator -> http_request -> user_world ->
    (exn + payload_handler) * (http_request * user_world);
  run_request_handler :
    request_handler -> http_request -> http_response_writer -> user_world ->
    writer_reply send_handler * user_world;
  run_send_handler :
    send_handler -> bool -> http_response_writer -> user_world ->
    writer_reply send_handler * user_world;
  run_websocket_handler :
    websocket_handler -> websocket -> user_world -> ws_reply * user_world;
}.
