(* ===== verification/Net.v ===== *)
(** * The state of a running server

    Everything the operations of [Server.v] act on: the connection objects,
    the server's pool and flags (tcp_server.hpp), the asynchronous operations
    that have been started and have not completed, the writers user code has
    kept, the scheduler and the registry of WebSocket connections.

    A connection is a number; [n_connections] holds the objects that exist.
    Shared ownership is explicit: a connection is referenced by the pool, by
    the operations in flight, which own the reader, writer or websocket their
    handlers captured, by handlers that hold the connection and nothing else
    ([n_held]: the timeout of a read, a posted broadcast), by kept writers and
    by the functions being executed ([n_refs]).  [collect] destroys what is no
    longer referenced, as the last [shared_ptr] does; the destructor of a
    connection closes it. *)

From S2P Require Import Prelude.
From S2P Require Import Externals.
From S2P Require Import Multimap.
From S2P Require Import Message.
From S2P Require Import Request.
From S2P Require Import ParserState.
From S2P Require Import BodyParser.
From S2P Require Import Response.
From S2P Require Import Writer.
From S2P Require Import Routing.
From S2P Require Import Websocket.
From S2P Require Import Scheduler.
From S2P Require Import Connection.

#[local] Open Scope Z_scope.

(** the fields of an [http_request_reader] *)
Record http_request_reader `{UE : UserEnv} := mk_reader {
  rd_parser : http_parser;
  rd_tcp_conn : nat;
  rd_request : http_request;
}.

Section Net.
Context `{UC : UserCode}.

(** what a websocket waits for *)
Inductive ws_wait :=
| wait_write (k : ws_continuation)
| wait_write_close
| wait_read
| wait_post (k : ws_continuation).

(** an asynchronous operation with the objects its handler owns;
    [op_write w None] is completed by [handle_write] *)
Inductive async_op :=
| op_accept (c : nat)
| op_handshake (c : nat)
| op_read (r : http_request_reader)
| op_write (w : http_response_writer) (k : option send_handler)
| op_websocket (ws : websocket) (k : ws_wait).

Definition op_connection (op : async_op) : nat :=
  match op with
  | op_accept c | op_handshake c => c
  | op_read r => rd_tcp_conn r
  | op_write w _ => w_tcp_conn w
  | op_websocket ws _ => ws_connection ws
  end.

(** a handler that has captured a connection and no object that works on it:
    [timeout_handler] of [read_bytes_with_timeout], and the handler that
    [send_broadcast] posts to the connection's strand *)
Inductive held_op :=
| held_timer (c : nat)
| held_broadcast (c : nat) (data : str).

Definition held_connection (h : held_op) : nat :=
  match h with held_timer c | held_broadcast c _ => c end.

Record net := mk_net {
  n_connections : gmap nat tcp_connection;
  n_next : nat;
  n_pending : list async_op;
  n_kept : list http_response_writer;
  n_held : list held_op;
  n_refs : list nat;
  n_mutex : bool;
  n_listening : bool;
  n_acceptor_open : bool;
  n_conn_pool : list nat;
  n_ssl_flag : bool;
  n_scheduler : scheduler;
  n_registry : list ws_entry;
  n_world : server_world;
}.

#[export] Instance net_fields : Fields net := fun n =>
  mk_net (n_connections n) (n_next n) (n_pending n) (n_kept n) (n_held n) (n_refs n) (n_mutex n)
    (n_listening n) (n_acceptor_open n) (n_conn_pool n) (n_ssl_flag n) (n_scheduler n)
    (n_registry n) (n_world n).

(** the constructor of [tcp_server] *)
Definition new_net (number_of_threads : Z) (ssl : bool) (w : server_world) : net :=
  mk_net ∅ 0 [] [] [] [] false false false [] ssl (new_scheduler number_of_threads) [] w.

(** ** Ownership *)

(** referenced by something else than the pool *)
Definition referenced_outside_pool (n : net) (c : nat) : bool :=
  bool_decide (c ∈ map op_connection (n_pending n))
  || bool_decide (c ∈ map w_tcp_conn (n_kept n))
  || bool_decide (c ∈ n_refs n)
  || bool_decide (c ∈ map held_connection (n_held n)).

(** [conn_itr->unique()], for a connection of the pool *)
Definition unique (n : net) (c : nat) : bool := negb (referenced_outside_pool n c).

Definition referenced (n : net) (c : nat) : bool :=
  bool_decide (c ∈ n_conn_pool n) || referenced_outside_pool n c.

Definition collect (n : net) : net :=
  n <| n_connections := filter (fun kv => referenced n kv.1 = true) (n_connections n) |>.

(** a weak pointer can be locked *)
Definition alive (n : net) (c : nat) : bool := bool_decide (is_Some (n_connections n !! c)).

(** ** Access to connections *)

Definition connection_at (n : net) (c : nat) : tcp_connection :=
  default (new_connection false) (n_connections n !! c).

Definition on_connection (c : nat) (f : tcp_connection -> tcp_connection) : M net unit :=
  modify (fun n => n <| n_connections := alter f c (n_connections n) |>).

Definition of_connection {A} (c : nat) (f : tcp_connection -> A) : M net A :=
  gets (fun n => f (connection_at n c)).

Definition start_op (op : async_op) : M net unit :=
  modify (fun n => n <| n_pending := n_pending n ++ [op] |>).

Definition hold_connection (h : held_op) : M net unit :=
  modify (fun n => n <| n_held := n_held n ++ [h] |>).

(** the bytes given to [async_write] on a connection *)
Definition log_sent (c : nat) (bytes : str) (w : server_world) : server_world :=
  mk_server_world UE (sw_user w) (sw_sent w ++ [(c, bytes)]).

Definition record_sent (c : nat) (bytes : str) : M net unit :=
  modify (fun n => n <| n_world := log_sent c bytes (n_world n) |>).

(** a call of user code that cannot fail *)
Definition with_user {A} (f : user_world -> A * user_world) : M net A := fun n =>
  let '(a, u) := f (sw_user (n_world n)) in
  (Val a, n <| n_world := mk_server_world UE u (sw_sent (n_world n)) |>).

(** the server's mutex: locking it again in the thread that holds it is
    undefined; an operation of the model runs in one thread *)
Definition with_lock {A} (m : M net A) : M net A := fun n =>
  if n_mutex n then (Fault Deadlock, n)
  else
    let '(r, n) := m (n <| n_mutex := true |>) in
    (r, n <| n_mutex := false |>).

(** a call whose frame holds a [shared_ptr] to [c] *)
Definition holding {A} (c : nat) (m : M net A) : M net A := fun n =>
  let '(r, n) := m (n <| n_refs := c :: n_refs n |>) in
  (r, n <| n_refs := tail (n_refs n) |>).

End Net.
