(* ===== verification/Server.v ===== *)
(** * The server at work (tcp_server.cpp, http_request_reader.cpp,
    http_server.cpp, the sends of http_response_writer.hpp)

    Every function of these files that acts on the state of [Net.v], in the
    state-and-exception monad.  [finish] closes a cycle of calls: the
    connection calls back [tcp_server::finish_connection], which may handle
    the next request of the connection, which may finish it again.  The
    functions below take [finish] as a parameter; [finish_with] ties the knot
    with fuel.  Two levels are enough, because [finish_connection] handles the
    connection with the server's mutex held. *)

From S2P Require Import Prelude.
From S2P Require Import Externals.
From S2P Require Import Multimap.
From S2P Require Import Strings.
From S2P Require Import Message.
From S2P Require Import FormParsers.
From S2P Require Import Request.
From S2P Require Import ParserState.
From S2P Require Import BodyParser.
From S2P Require Import Parser.
From S2P Require Import Response.
From S2P Require Import Writer.
From S2P Require Import Routing.
From S2P Require Import Websocket.
From S2P Require Import Scheduler.
From S2P Require Import Connection.
From S2P Require Import Net.

#[local] Open Scope Z_scope.

(** texts of http_server.cpp, written with single quotes for double ones *)
Definition raw (s : String.string) : str :=
  map (fun c => if Ascii.eqb c SQUOTE then DQUOTE else c) (bs s).

Definition BAD_REQUEST_MSG : str := raw
"{
    'code': 400,
    'message': 'Bad Request',
    'description': 'Your browser sent a request that this server could not understand.'
}".

Definition NOT_FOUND_MSG_START : str := raw
"{
    'code': 404,
    'message': 'Not Found',
    'description': 'The requested URL: [".

Definition NOT_FOUND_MSG_FINISH : str := raw
"] was not found on this server.'
}".

Section Server.
Context `{SU : StaticlibUtils, MP : MultimapPolicy, UC : UserCode, WL : WebsocketLib}.

(** the tables of the server, and the two members of a parser that its
    constructor leaves uninitialised *)
Context (srv : http_server) (garbage : Z * Z).

Definition lift {A} (r : res A) : M net A := fun n => (r, n).

Section Finish.
Context (finish : nat -> M net unit).

(** ** http_response_writer: the sends *)

(** [send_more_data]; when the connection is closed, [self] and the handler
    are destroyed *)
Definition send_more_data (send_final_chunk : bool) (k : option send_handler)
    (w : http_response_writer) : M net unit :=
  let c := w_tcp_conn w in
  opened <- of_connection c is_open ;;
  if (opened : bool) then
    keep_alive <- of_connection c get_keep_alive ;;
    let '(bufs, w) := prepare_write_buffers [] keep_alive send_final_chunk w in
    record_sent c (concat bufs) ;;;
    start_op (op_write w k)
  else finish c.

Definition send (w : http_response_writer) : M net unit := send_more_data false None w.

Definition send_chunk (h : send_handler) (w : http_response_writer) : M net unit :=
  let w := w <| sending_chunks := true |> in
  (if negb (client_supports_chunks w)
   then on_connection (w_tcp_conn w) (set_lifecycle lifecycle_close) else ret tt) ;;;
  opened <- of_connection (w_tcp_conn w) is_open ;;
  if (opened : bool) then send_more_data false (Some h) w else finish (w_tcp_conn w).

Definition send_final_chunk (w : http_response_writer) : M net unit :=
  send_more_data true None (w <| sending_chunks := true |>).

(** [http_response_writer::handle_write] *)
Definition handle_write (w : http_response_writer) : M net unit := finish (w_tcp_conn w).

(** what user code does with a writer it owns *)
Definition run_reply (r : writer_reply send_handler) (w : http_response_writer) : M net unit :=
  let w := fold_left run_writer_call (wr_calls r) w in
  match wr_end r with
  | end_send => send w
  | end_send_chunk h => send_chunk h w
  | end_send_final_chunk => send_final_chunk w
  | end_keep => modify (fun n => n <| n_kept := n_kept n ++ [w] |>)
  | end_drop => ret tt
  | end_throw e => throw e
  end.

(** ** The built-in request handlers *)

(** [get_response().set_status_code(...); set_status_message(...)] *)
Definition set_response_status (code : Z) (message : str) (w : http_response_writer)
    : http_response_writer :=
  w <| w_response := set_status_message message (set_status_code code (w_response w)) |>.

Definition handle_bad_request (req : http_request) (resp : http_response_writer) : M net unit :=
  let resp := set_response_status RESPONSE_CODE_BAD_REQUEST RESPONSE_MESSAGE_BAD_REQUEST resp in
  send (write_nocopy BAD_REQUEST_MSG resp).

Definition handle_not_found_request (req : http_request) (resp : http_response_writer)
    : M net unit :=
  let resp := set_response_status RESPONSE_CODE_NOT_FOUND RESPONSE_MESSAGE_NOT_FOUND resp in
  let resp := write_nocopy NOT_FOUND_MSG_START resp in
  let res := map (fun c => if Ascii.eqb c DQUOTE then SQUOTE else c) (req_resource req) in
  let resp := write res resp in
  let resp := write_nocopy NOT_FOUND_MSG_FINISH resp in
  send resp.

Definition handle_root_options (req : http_request) (resp : http_response_writer) : M net unit :=
  send (resp <| w_response :=
          on_resp_base (change_header (bs "Allow") (bs "HEAD, GET, POST, PUT, DELETE, OPTIONS"))
            (w_response resp) |>).

(** calling a [request_handler_type] *)
Definition call_request_handler (h : request_callback) (req : http_request)
    (w : http_response_writer) : M net unit :=
  match h with
  | handle_bad_request_fun => handle_bad_request req w
  | handle_not_found_fun => handle_not_found_request req w
  | user_request_handler h =>
    reply <- with_user (run_request_handler h req w) ;;
    run_reply reply w
  end.

(** ** WebSockets *)

(** the operation a member of [websocket] ends with; [~websocket] calls
    [finish] and swallows what it throws *)
Definition destroy_websocket (ws : websocket) : M net unit :=
  try_catch (fun _ => true) (finish (ws_connection ws)) (ret tt).

(** what user code does with a websocket it owns; [None]: it destroys it *)
Definition run_ws_reply (r : ws_reply) (ws : websocket) : M net (option (websocket * ws_action)) :=
  let ws := fold_left (fun ws d => websocket_write d ws) (wsr_writes r) ws in
  match wsr_end r with
  | ws_end_receive => x <- lift (websocket_receive ws) ;; ret (Some x)
  | ws_end_send t => x <- lift (websocket_send t ws) ;; ret (Some x)
  | ws_end_send_message t f => x <- lift (send_message t (then_call f) ws) ;; ret (Some x)
  | ws_end_close st => x <- lift (websocket_close st ws) ;; ret (Some x)
  | ws_end_drop => destroy_websocket ws ;;; ret None
  | ws_end_throw e => destroy_websocket ws ;;; throw e
  end.

(** calling a [websocket_handler_type] *)
Definition call_websocket_handler (f : websocket_callback) (ws : websocket)
    : M net (option (websocket * ws_action)) :=
  match f with
  | receive_fun => x <- lift (websocket_receive ws) ;; ret (Some x)
  | noop_fun => destroy_websocket ws ;;; ret None
  | user_websocket_handler h => r <- with_user (run_websocket_handler h ws) ;; run_ws_reply r ws
  end.

(** Performs an action.  A callback may call the next member at once, so this
    is a loop: a [receive] that finds another complete message calls the
    message callback again without returning. *)
Fixpoint perform_with (fuel : nat) (ws : websocket) (a : ws_action) : M net unit :=
  let c := ws_connection ws in
  match a with
  | ws_write bufs k =>
    record_sent c (concat bufs) ;;; start_op (op_websocket ws (wait_write k))
  | ws_write_close st =>
    record_sent c (close_status_bytes st) ;;; start_op (op_websocket ws wait_write_close)
  | ws_read => start_op (op_websocket ws wait_read)
  | ws_post k => start_op (op_websocket ws (wait_post k))
  | ws_call f =>
    match fuel with
    | O => crash OutOfFuel
    | S fuel =>
      next <- call_websocket_handler f ws ;;
      match next with
      | Some (ws, a) => perform_with fuel ws a
      | None => ret tt
      end
    end
  end.

(** every [receive] but the first removes a frame from the buffer *)
Definition perform (ws : websocket) (a : ws_action) : M net unit :=
  perform_with (length (receive_buffer ws) + 3) ws a.

Definition perform_result (r : res (websocket * ws_action)) : M net unit :=
  x <- lift r ;; let '(ws, a) := x in perform ws a.

(** ** http_server: requests *)

(** the WebSocket branch of [handle_request]; the registry has its own mutex,
    held by no caller *)
Definition start_websocket (req : http_request) (c : nat)
    (open_handler message_handler close_handler : websocket_callback) : M net unit :=
  let path := req_resource req in
  let id := get_header (req_base req) (bs "Sec-WebSocket-Key") in
  let ws := new_websocket req c open_handler message_handler close_handler (1024 * 1024) 1024 in
  on_connection c (set_lifecycle lifecycle_close) ;;;
  perform_result (websocket_start ws) ;;;
  modify (fun n => n <| n_registry := register_ws_conn (alive n) (n_registry n) path id c |>).

(** [catch (std::bad_alloc&) { throw; } catch (std::exception&) { }] *)
Definition swallowed (e : exn) : bool :=
  match e with ExnBadAlloc => false | e => is_std e end.

(** the first branch of [handle_request] *)
Definition handle_invalid_request (req : http_request) (c : nat) (ec : error_code) : M net unit :=
  on_connection c (set_lifecycle lifecycle_close) ;;;
  opened <- of_connection c is_open ;;
  if opened && bool_decide (ec_category ec = cat_parser) then
    call_request_handler (bad_request_handler srv) req (new_writer c req)
  else finish c.

Definition handle_request (req : http_request) (c : nat) (ec : error_code) : M net unit :=
  if ec_bool ec || negb (m_is_valid (req_base req)) then handle_invalid_request req c ec
  else if is_websocket_upgrade req then
    let '(found, on_open, on_message, on_close) := find_ws_handlers (req_resource req) srv in
    if (found : bool) then start_websocket req c on_open on_message on_close
    else call_request_handler (not_found_handler srv) req (new_writer c req)
  else
    let path := strip_trailing_slash (req_resource req) in
    let writer := new_writer c req in
    if str_eqb REQUEST_METHOD_OPTIONS (req_method req)
       && (str_eqb (bs "*") path || str_eqb (bs "/*") path)
    then handle_root_options req writer
    else
      m <- lift (select_map (req_method req)) ;;
      handlers_it <- lift (find_submatch (handlers srv m) path) ;;
      match handlers_it with
      | Some (_, handler) =>
        try_catch swallowed (call_request_handler handler req writer) (ret tt)
      | None => call_request_handler (not_found_handler srv) req writer
      end.

(** [handle_request_after_headers_parsed], the parser's hook in
    [http_request_reader] *)
Definition handle_request_after_headers_parsed (c : nat) : hook_type := fun req ec rc w =>
  if ec_bool ec || is_tfalse rc then (Val rc, mk_hook_effect req None w)
  else
    let w := if iequals (bs "100-continue") (get_header (req_base req) (bs "Expect"))
             then log_sent c RESPONSE_FULLMESSAGE_100_CONTINUE w else w in
    match select_map (req_method req) with
    | Val m =>
      match find_submatch (payloads srv m) (strip_trailing_slash (req_resource req)) with
      | Val (Some (_, creator)) =>
        let '(r, (req, u)) := create_payload_handler creator req (sw_user w) in
        let w := mk_server_world UE u (sw_sent w) in
        match r with
        | inr ha =>
          let '(req, h) := request_set_payload_handler ha req in
          (Val rc, mk_hook_effect req h w)
        | inl e => (Exn e, mk_hook_effect req None w)
        end
      | Val None => (Val ttrue, mk_hook_effect req None w)
      | Exn e => (Exn e, mk_hook_effect req None w)
      | Fault f => (Fault f, mk_hook_effect req None w)
      end
    | Exn e => (Exn e, mk_hook_effect req None w)
    | Fault f => (Fault f, mk_hook_effect req None w)
    end.

(** ** http_request_reader *)

(** the constructor: [http_parser(true)], so a limit of one byte *)
Definition new_reader (c : nat) (ip : Z) : http_request_reader :=
  mk_reader UE (new_parser garbage.1 garbage.2 1) c
    (on_base (fun m => m <| m_remote_ip := ip |>) (new_request true)).

(** the read, and then the wait of the timer that [expires_from_now] has set:
    its handler keeps the connection too *)
Definition read_bytes_with_timeout (r : http_request_reader) : M net unit :=
  start_op (op_read r) ;;;
  hold_connection (held_timer (rd_tcp_conn r)).

Definition finished_reading (r : http_request_reader) (ec : error_code) : M net unit :=
  handle_request (rd_request r) (rd_tcp_conn r) ec.

(** an operation of the parser with the request and the world *)
Definition run_parser {A} (m : M pstate A) (r : http_request_reader)
    : M net (A * error_code * http_request_reader) := fun n =>
  let '(x, s) := m (mk_pstate (rd_parser r) (rd_request r) no_error (n_world n)) in
  let n := n <| n_world := ps_world s |> in
  match x with
  | Val a => (Val (a, ps_ec s, mk_reader UE (ps_parser s) (rd_tcp_conn r) (ps_request s)), n)
  | Exn e => (Exn e, n)
  | Fault f => (Fault f, n)
  end.

(** the overload of [consume_bytes] that parses *)
Definition consume_bytes (r : http_request_reader) : M net unit :=
  let c := rd_tcp_conn r in
  x <- run_parser (parse (handle_request_after_headers_parsed c)) r ;;
  let '(result, ec, r) := x in
  match result with
  | ttrue =>
    (if check_keep_alive (req_base (rd_request r)) then
       if eof (rd_parser r) then on_connection c (set_lifecycle lifecycle_keepalive)
       else
         on_connection c (set_lifecycle lifecycle_pipelined) ;;;
         on_connection c (save_read_pos (m_read (rd_parser r)))
     else on_connection c (set_lifecycle lifecycle_close)) ;;;
    finished_reading r ec
  | tfalse =>
    on_connection c (set_lifecycle lifecycle_close) ;;;
    finished_reading
      (mk_reader UE (rd_parser r) c (on_base (set_is_valid false) (rd_request r))) ec
  | indeterminate => read_bytes_with_timeout r
  end.

Definition handle_read_error (r : http_request_reader) (read_error : error_code) : M net unit :=
  on_connection (rd_tcp_conn r) (set_lifecycle lifecycle_close) ;;;
  x <- run_parser check_premature_eof r ;;
  let '(premature, _, r) := x in
  if negb premature then finished_reading r no_error else finished_reading r read_error.

(** the overload that completes a read: the error, or the bytes read *)
Definition consume_bytes_read (r : http_request_reader) (result : error_code + str)
    : M net unit :=
  match result with
  | inl read_error => handle_read_error r read_error
  | inr data =>
    on_connection (rd_tcp_conn r) (fun c => c <| read_buffer := data |>) ;;;
    consume_bytes (mk_reader UE (set_read_buffer data (rd_parser r)) (rd_tcp_conn r) (rd_request r))
  end.

Definition receive (r : http_request_reader) : M net unit :=
  let c := rd_tcp_conn r in
  pipelined <- of_connection c is_pipelined ;;
  if (pipelined : bool) then
    on_connection c (set_lifecycle lifecycle_close) ;;;
    position <- of_connection c load_read_pos ;;
    consume_bytes (mk_reader UE (set_read_buffer position (rd_parser r)) c (rd_request r))
  else
    on_connection c (set_lifecycle lifecycle_close) ;;;
    read_bytes_with_timeout r.

(** [http_server::handle_connection] *)
Definition handle_connection (c : nat) : M net unit :=
  ip <- of_connection c remote_ip ;;
  receive (new_reader c ip).

End Finish.

(** ** tcp_server *)

(** [finish_connection]; [finish] is what [tcp_connection::finish] does in the
    calls it makes.  Waking up [stop] is waking up its loop, [stop_turn]. *)
Definition finish_connection (finish : nat -> M net unit) (c : nat) : M net unit :=
  with_lock (
    listening <- gets n_listening ;;
    keep_alive <- of_connection c get_keep_alive ;;
    if listening && keep_alive then handle_connection finish c
    else modify (fun n => n <| n_conn_pool := filter (fun c' => c' <> c) (n_conn_pool n) |>)).

(** [tcp_connection::finish], with the handler that [listen] installs *)
Fixpoint finish_with (fuel : nat) (c : nat) : M net unit :=
  match fuel with
  | O => crash OutOfFuel
  | S fuel => finish_connection (finish_with fuel) c
  end.

Definition connection_finish : nat -> M net unit := finish_with 2.

(** [prune_connections], called with the mutex held *)
Definition prune_connections : M net Z := fun n =>
  let orphans := filter (fun c => unique n c = true) (n_conn_pool n) in
  let n := n <| n_connections := fold_right (alter close_connection) (n_connections n) orphans |>
             <| n_conn_pool := filter (fun c => unique n c = false) (n_conn_pool n) |> in
  (Val (Z.of_nat (length (n_conn_pool n))), n).

Definition listen : M net unit :=
  with_lock (
    listening <- gets n_listening ;;
    if (listening : bool) then
      c <- gets n_next ;;
      ssl <- gets n_ssl_flag ;;
      modify (fun n => n <| n_next := S c |>
                         <| n_connections := <[c := new_connection ssl]> (n_connections n) |>) ;;;
      prune_connections ;;;
      modify (fun n => n <| n_conn_pool := n_conn_pool n ++ [c] |>) ;;;
      start_op (op_accept c)
    else ret tt).

(** [tcp_server::start]; [bound] is what opening and binding the acceptor
    did.  The lock is released before [listen] is called. *)
Definition start (bound : res unit) : M net unit :=
  already <- with_lock (
    listening <- gets n_listening ;;
    if (listening : bool) then ret true
    else
      lift bound ;;;
      modify (fun n => n <| n_acceptor_open := true |> <| n_listening := true |>) ;;;
      ret false) ;;
  if (already : bool) then ret tt
  else listen ;;; modify (fun n => n <| n_scheduler := add_active_user (n_scheduler n) |>).

Definition handle_ssl_handshake (c : nat) (handshake_error : error_code) : M net unit :=
  if ec_bool handshake_error then connection_finish c else handle_connection connection_finish c.

Definition handle_accept (c : nat) (accept_error : error_code) : M net unit :=
  listening <- gets n_listening ;;
  if ec_bool accept_error then
    (if (listening : bool) then listen else ret tt) ;;;
    connection_finish c
  else
    (if (listening : bool) then listen else ret tt) ;;;
    ssl <- of_connection c ssl_flag ;;
    if (ssl : bool) then start_op (op_handshake c) else handle_connection connection_finish c.

(** [tcp_server::stop], up to its waiting loop *)
Definition stop_begin (wait_until_finished : bool) : M net bool :=
  with_lock (
    listening <- gets n_listening ;;
    if (listening : bool) then
      modify (fun n => n <| n_listening := false |> <| n_acceptor_open := false |>) ;;;
      (if wait_until_finished then ret tt
       else modify (fun n => n <| n_connections :=
                                    fold_right (alter close_connection) (n_connections n)
                                      (n_conn_pool n) |>)) ;;;
      ret true
    else ret false).

(** one turn of the loop, with the mutex; true when [stop] is done, otherwise
    it waits, with the mutex released, and looks again *)
Definition stop_turn : M net bool :=
  with_lock (
    pool <- gets n_conn_pool ;;
    left <- (if bool_decide (pool = []) then ret 0 else prune_connections) ;;
    if left =? 0 then
      modify (fun n => n <| n_scheduler := (remove_active_user (n_scheduler n)).2 |>) ;;; ret true
    else ret false).

(** [websocket::send_broadcast]: a handler that writes a message the
    connections share is posted to the connection's strand *)
Definition send_broadcast (c : nat) (data : str) : M net unit :=
  hold_connection (held_broadcast c data).

(** [websocket::broadcast]: one message for all connections *)
Definition broadcast (connections : list nat) (msg : str) (msg_type : frame_type) : M net unit :=
  fold_right (fun c k => send_broadcast c (broadcast_message msg_type msg) ;;; k) (ret tt) connections.

(** [http_server::broadcast_websocket], with fuel for the look-up *)
Definition broadcast_websocket (fuel : nat) (path message : str) (t : frame_type)
    (dest_ids : list str) : M net unit :=
  n <- gets id ;;
  x <- lift (find_ws_conns (alive n) (n_registry n) path dest_ids fuel) ;;
  let '(conns, registry) := x in
  modify (fun n => n <| n_registry := registry |>) ;;;
  if 0 <? Z.of_nat (length conns) then broadcast conns message t else ret tt.

(** ** Completions

    What the io_service calls when an operation completes.  An operation that
    is started later runs later: [complete] is what one handler does. *)

(** how an operation completes: with an error, or with the bytes it read (no
    bytes for the other operations) *)
Definition completion : Type := error_code + str.

Definition completion_error (o : completion) : error_code :=
  match o with inl ec => ec | inr _ => no_error end.

Definition complete_op (op : async_op) (o : completion) : M net unit :=
  match op with
  | op_accept c =>
    (match o with
     | inr _ => on_connection c (fun conn => conn <| socket_open := true |>)
     | inl _ => ret tt
     end) ;;;
    handle_accept c (completion_error o)
  | op_handshake c => handle_ssl_handshake c (completion_error o)
  | op_read r => consume_bytes_read connection_finish r o
  | op_write w None => handle_write connection_finish w
  | op_write w (Some h) =>
    reply <- with_user (run_send_handler h (ec_bool (completion_error o)) w) ;;
    run_reply connection_finish reply w
  | op_websocket ws (wait_write k) =>
    perform_result connection_finish (write_completed (negb (ec_bool (completion_error o))) k ws)
  | op_websocket ws wait_write_close => perform_result connection_finish (close_completed ws)
  | op_websocket ws wait_read =>
    perform_result connection_finish
      (read_completed match o with inl _ => None | inr data => Some data end ws)
  | op_websocket ws (wait_post k) => perform_result connection_finish (continue k ws)
  end.

(** the handler with the references it captured, then the destructions *)
Definition complete (op : async_op) (o : completion) : M net unit := fun n =>
  let '(r, n) := holding (op_connection op) (complete_op op o) n in (r, collect n).

(** A handler that holds the connection.  The timeout ends with [cancel]
    unless the timer was cancelled; what [cancel] does, as what [cancel_timer]
    does, is to make operations complete that could complete at any moment.
    The posted handler of a broadcast starts a write that nothing waits for. *)
Definition complete_held_op (h : held_op) : M net unit :=
  match h with
  | held_timer _ => ret tt
  | held_broadcast c data => record_sent c data
  end.

Definition complete_held (h : held_op) : M net unit := fun n =>
  let '(r, n) := holding (held_connection h) (complete_held_op h) n in (r, collect n).

End Server.
