(* ===== verification/RefUtils.v ===== *)
(** * A concrete implementation of the interfaces

    Executable instances of [StaticlibUtils], [MultimapPolicy] and
    [PayloadEnv], with proofs of the laws, on which the examples of the
    development are evaluated.  They show that the laws can be met; no
    theorem is about them. *)

From S2P Require Import Prelude.
From S2P Require Import Externals.
From S2P Require Import Algorithm.
From S2P Require Import Multimap.
From S2P Require Import Strings.
From S2P Require Import Message.
From S2P Require Import Request.

(** ** Hexadecimal and decimal digits *)

Definition char_of_Z (z : Z) : char := Ascii.ascii_of_N (Z.to_N z).

Definition hex_digit (n : Z) : char := char_of_Z (if n <? 10 then 48 + n else 55 + n).

Definition hex_digit_value (c : char) : option Z :=
  let u := int_of_uchar c in
  if (48 <=? u) && (u <=? 57) then Some (u - 48)
  else if (65 <=? u) && (u <=? 70) then Some (u - 55)
  else if (97 <=? u) && (u <=? 102) then Some (u - 87)
  else None.

Definition unreserved (c : char) : bool :=
  let u := int_of_uchar c in
  ((48 <=? u) && (u <=? 57)) || ((65 <=? u) && (u <=? 90)) || ((97 <=? u) && (u <=? 122)) ||
  existsb (Ascii.eqb c) (bs "-._~").

Definition ref_encode_char (c : char) : str :=
  if unreserved c then [c]
  else ["%"%char; hex_digit (int_of_uchar c / 16); hex_digit (int_of_uchar c mod 16)].

Definition ref_url_encode (s : str) : str := concat (map ref_encode_char s).

Fixpoint ref_url_decode (s : str) : str :=
  match s with
  | [] => []
  | c :: s' =>
    if c ==c "%" then
      match s' with
      | h :: l :: s'' =>
        match hex_digit_value h, hex_digit_value l with
        | Some a, Some b => char_of_Z (a * 16 + b) :: ref_url_decode s''
        | _, _ => c :: ref_url_decode s'
        end
      | _ => c :: ref_url_decode s'
      end
    else (if c ==c "+" then " "%char else c) :: ref_url_decode s'
  end.

Definition ref_space (c : char) : bool := (int_of_uchar c =? 32) || ((9 <=? int_of_uchar c) && (int_of_uchar c <=? 13)).

Fixpoint ltrim (s : str) : str :=
  match s with [] => [] | c :: s' => if ref_space c then ltrim s' else s end.

Definition ref_trim (s : str) : str := rev (ltrim (rev (ltrim s))).

Fixpoint ref_split_loop (cur s : str) (d : char) : list str :=
  match s with
  | [] => [rev cur]
  | c :: s' => if Ascii.eqb c d then rev cur :: ref_split_loop [] s' d
               else ref_split_loop (c :: cur) s' d
  end.

Fixpoint decimal_value (acc : Z) (s : str) : option Z :=
  match s with
  | [] => Some acc
  | c :: s' =>
    let u := int_of_uchar c in
    if (48 <=? u) && (u <=? 57) then decimal_value (acc * 10 + (u - 48)) s' else None
  end.

Definition ref_parse_uint (w : Z) (e : exn) (s : str) : res Z :=
  match s with
  | [] => Exn e
  | _ => match decimal_value 0 s with
         | Some n => if (0 <=? n) && (n <? 2 ^ w) then Val n else Exn e
         | None => Exn e
         end
  end.

Fixpoint decimal_digits (fuel : nat) (n : Z) : str :=
  match fuel with
  | O => []
  | S fuel => (if n <? 10 then [] else decimal_digits fuel (n / 10)) ++ [char_of_Z (48 + n mod 10)]
  end.

Definition ref_to_string (n : Z) : str := decimal_digits (S (Z.to_nat (Z.log2 n))) n.

#[export] Instance ref_utils : StaticlibUtils := {|
  iequals x y := bool_decide (map (toupper ∘ int_of_char) x = map (toupper ∘ int_of_char) y);
  url_encode := ref_url_encode;
  url_decode := ref_url_decode;
  trim_arg := ref_trim;
  trim_ret := ref_trim;
  split s d := ref_split_loop [] s d;
  parse_uint64 := ref_parse_uint 64 ExnStd;
  parse_uint16 := ref_parse_uint 16 ExnRuntime;
  to_string := ref_to_string;
|}.

(** insertion at the end, search from the front *)
#[export] Instance ref_multimap : MultimapPolicy := {|
  mm_insert kv d := d ++ [kv];
  mm_find key d := snd <$> head (equal_range d key);
|}.

(** ** The laws *)

#[export] Instance ref_iequals_law : IequalsLaw.
Proof. intros x y. apply bool_decide_eq_true. Qed.

#[export] Instance ref_multimap_laws : MultimapLaws.
Proof.
  split.
  - intros kv d. symmetry. apply Permutation_cons_append.
  - intros key d. cbn. destruct (equal_range d key); cbn; split; congruence.
  - intros key d v. cbn. destruct (equal_range d key) as [|[k w] l]; [done|].
    intros [= ->]. exists k. left.
Qed.

Lemma ref_parse_uint_range w e s n : ref_parse_uint w e s = Val n -> 0 <= n < 2 ^ w.
Proof.
  unfold ref_parse_uint. destruct s; [done|].
  destruct (decimal_value _ _); [|done]. case_match eqn:E; [|done].
  intros [= ->]. chars. lia.
Qed.

#[export] Instance ref_parse_uint_law : ParseUintLaw.
Proof.
  split; intros s n; cbn; try apply ref_parse_uint_range;
    unfold ref_parse_uint; repeat case_match; done.
Qed.

Lemma printing_not_space c : 33 <= int_of_char c <= 126 -> ref_space c = false.
Proof.
  unfold int_of_char, ref_space. pose proof (N2Z.is_nonneg (Ascii.N_of_ascii c)).
  unfold int_of_uchar. case_match; lia.
Qed.

Lemma ltrim_clean s : Forall (fun c => 33 <= int_of_char c <= 126) s -> ltrim s = s.
Proof. intros []; [done|]. cbn. by rewrite printing_not_space. Qed.

#[export] Instance ref_trim_law : TrimLaw.
Proof.
  intros s F. cbn. unfold ref_trim. rewrite (ltrim_clean s) by done.
  rewrite ltrim_clean by (by apply Forall_rev). apply rev_involutive.
Qed.

Lemma ref_decode_char c s : ref_url_decode (ref_encode_char c ++ s) = c :: ref_url_decode s.
Proof.
  unfold ref_encode_char. destruct (unreserved c) eqn:U.
  - destruct c as [[] [] [] [] [] [] [] []]; try discriminate U; reflexivity.
  - destruct c as [[] [] [] [] [] [] [] []]; try discriminate U; reflexivity.
Qed.

#[export] Instance ref_url_codec_law : UrlCodecLaw.
Proof.
  split; cbn.
  - intros s. induction s as [|c s IH]; [done|].
    unfold ref_url_encode. cbn. rewrite ref_decode_char. by f_equal.
  - intros s. induction s as [|c s IH]; [constructor|].
    unfold ref_url_encode. cbn. apply Forall_app. split; [|done].
    apply Forall_forall. intros d Hd.
    assert (forallb url_safe (ref_encode_char c) = true) as F.
    { revert c Hd. intros c _. revert c. apply all_chars. vm_compute. reflexivity. }
    rewrite forallb_forall in F. auto.
  - intros s. destruct s as [|c s]; [done|]. intros _. unfold ref_url_encode. cbn.
    unfold ref_encode_char. by destruct (unreserved c).
Qed.

Lemma char_of_digit n : 0 <= n < 10 -> int_of_uchar (char_of_Z (48 + n)) = 48 + n.
Proof.
  intros H. unfold int_of_uchar, char_of_Z.
  rewrite Ascii.N_ascii_embedding; lia.
Qed.

Lemma decimal_value_app acc s t :
  decimal_value acc (s ++ t) =
  match decimal_value acc s with Some a => decimal_value a t | None => None end.
Proof. revert acc. induction s as [|c s IH]; intros acc; cbn; [done|]. case_match; auto. Qed.

Lemma decimal_value_digit acc n :
  0 <= n < 10 -> decimal_value acc [char_of_Z (48 + n)] = Some (acc * 10 + n).
Proof.
  intros H. cbn [decimal_value]. rewrite char_of_digit by done.
  assert ((48 <=? 48 + n) && (48 + n <=? 57) = true) as -> by lia.
  f_equal. lia.
Qed.

Lemma decimal_digits_value fuel n :
  0 <= n < 2 ^ Z.of_nat fuel -> decimal_value 0 (decimal_digits fuel n) = Some n.
Proof.
  revert n. induction fuel as [|fuel IH]; intros n H.
  - cbn in *. f_equal. lia.
  - cbn [decimal_digits]. rewrite decimal_value_app.
    pose proof (Z.mod_pos_bound n 10 ltac:(lia)).
    pose proof (Z.div_mod n 10 ltac:(lia)).
    destruct (Z.ltb_spec n 10).
    + change (decimal_value 0 []) with (Some 0). cbv iota.
      rewrite decimal_value_digit by lia. f_equal.
      rewrite Z.mod_small; lia.
    + rewrite IH.
      * rewrite decimal_value_digit by lia. f_equal. lia.
      * rewrite Nat2Z.inj_succ, Z.pow_succ_r in H by lia.
        split; [apply Z.div_pos; lia|]. apply Z.div_lt_upper_bound; lia.
Qed.

Lemma ref_to_string_value n : 0 <= n -> decimal_value 0 (ref_to_string n) = Some n.
Proof.
  intros H. apply decimal_digits_value. split; [done|].
  rewrite Nat2Z.inj_succ, Z2Nat.id by apply Z.log2_nonneg.
  destruct (Z.eq_dec n 0) as [->|]; [done|]. apply Z.log2_spec. lia.
Qed.

Lemma ref_to_string_nonempty n : ref_to_string n <> [].
Proof. unfold ref_to_string. cbn [decimal_digits]. intros H. by apply app_eq_nil in H as [_ H]. Qed.

Lemma ref_parse_uint_to_string w e n :
  0 <= n < 2 ^ w -> ref_parse_uint w e (ref_to_string n) = Val n.
Proof.
  intros H. unfold ref_parse_uint. rewrite ref_to_string_value by lia.
  destruct (ref_to_string n) eqn:E; [by apply ref_to_string_nonempty in E|].
  by assert ((0 <=? n) && (n <? 2 ^ w) = true) as -> by lia.
Qed.

Lemma decimal_digits_digits fuel n :
  0 <= n -> Forall (fun c => 48 <= int_of_char c <= 57) (decimal_digits fuel n).
Proof.
  revert n. induction fuel as [|fuel IH]; intros n H; [constructor|].
  cbn. apply Forall_app. split.
  - destruct (n <? 10); [constructor|]. apply IH, Z.div_pos; lia.
  - constructor; [|constructor]. pose proof (Z.mod_pos_bound n 10 ltac:(lia)).
    unfold int_of_char. rewrite char_of_digit by lia. case_match; lia.
Qed.

Lemma decimal_value_fold acc s :
  Forall (fun c => 48 <= int_of_char c <= 57) s ->
  decimal_value acc s = Some (fold_left (fun a c => a * 10 + (int_of_char c - 48)) s acc).
Proof.
  intros H. revert acc. induction H as [|c s Hc _ IH]; intros acc; cbn; [done|].
  unfold int_of_char in *. case_match; [|pose proof (Ascii.N_ascii_bounded c); unfold int_of_uchar in *; lia].
  assert ((48 <=? int_of_uchar c) && (int_of_uchar c <=? 57) = true) as -> by lia. apply IH.
Qed.

#[export] Instance ref_decimal_law : DecimalLaw.
Proof.
  split; intros.
  - by apply ref_parse_uint_to_string.
  - by apply ref_parse_uint_to_string.
  - by apply decimal_digits_digits.
  - apply ref_to_string_nonempty.
  - pose proof (ref_to_string_value n ltac:(done)) as E.
    rewrite decimal_value_fold in E by (by apply decimal_digits_digits). by injection E.
Qed.

(** ** A payload environment: handlers are numbered; handler 0 throws, the
    others append the bytes they get, with their number, to the world *)

#[export] Instance ref_payload_env : PayloadEnv := {|
  handler := nat;
  world := list (nat * char);
  run_handler h data w :=
    match h with O => (Some ExnStd, w) | S _ => (None, w ++ map (pair h) data) end;
|}.
