(* ===== verification/DictRefinement.v ===== *)
(** * Header dictionaries implement a map from case-folded names to values

    The specification of a dictionary is a finite map from a name, with its
    case folded, to the values added under that name; it knows nothing of
    hashing, of the order of the elements or of which element [find] returns.
    [models] relates a dictionary to such a map, and every operation of
    http_message.hpp keeps the relation. *)

From S2P Require Import Prelude.
From S2P Require Import Externals.
From S2P Require Import Algorithm.
From S2P Require Import Multimap.
From S2P Require Import RefUtils.
From stdpp Require Import gmap.

Section Refinement.
Context `{ML : MultimapLaws}.
Context {IL : IequalsLaw}.

(** names that [iequal_to] does not tell apart have the same image *)
Definition fold_case (key : str) : list Z := map (toupper ∘ int_of_char) key.

Abbreviation dict_spec := (gmap (list Z) (list str)).

Definition spec_values (m : dict_spec) (key : str) : list str := default [] (m !! fold_case key).

(** the operations, on the specification and on the dictionary *)
Inductive dict_op :=
| dict_insert (key value : str)
| dict_change (key value : str)
| dict_delete (key : str).

Definition spec_op (m : dict_spec) (op : dict_op) : dict_spec :=
  match op with
  | dict_insert key value => <[fold_case key := value :: spec_values m key]> m
  | dict_change key value => <[fold_case key := [value]]> m
  | dict_delete key => delete (fold_case key) m
  end.

Definition run_op (d : mmap) (op : dict_op) : mmap :=
  match op with
  | dict_insert key value => mm_insert (key, value) d
  | dict_change key value => change_value d key value
  | dict_delete key => delete_value d key
  end.

(** the values of a name in the dictionary, in no particular order; a name
    without values is not in the map *)
Record models (d : mmap) (m : dict_spec) : Prop := {
  models_values key : map snd (equal_range d key) ≡ₚ spec_values m key;
  models_nonempty k : m !! k <> Some [];
}.

Lemma iequal_to_fold x y : iequal_to x y = bool_decide (fold_case x = fold_case y).
Proof.
  apply eq_true_iff_eq. rewrite bool_decide_eq_true. apply iequals_spec.
Qed.

Lemma spec_values_insert m key key' vs :
  spec_values (<[fold_case key := vs]> m) key' =
  if iequal_to key key' then vs else spec_values m key'.
Proof.
  rewrite iequal_to_fold. unfold spec_values. destruct (bool_decide_reflect (fold_case key = fold_case key')) as [->|N].
  - by rewrite lookup_insert_eq.
  - by rewrite lookup_insert_ne.
Qed.

Lemma spec_values_delete m key key' :
  spec_values (delete (fold_case key) m) key' =
  if iequal_to key key' then [] else spec_values m key'.
Proof.
  rewrite iequal_to_fold. unfold spec_values. destruct (bool_decide_reflect (fold_case key = fold_case key')) as [->|N].
  - by rewrite lookup_delete_eq.
  - by rewrite lookup_delete_ne.
Qed.

Lemma equal_range_fold d key key' :
  iequal_to key key' = true -> equal_range d key' = equal_range d key.
Proof.
  intros E. unfold equal_range. induction d as [|kv d IH]; [done|].
  assert (key_is key' kv = key_is key kv) as K.
  { unfold key_is. rewrite !iequal_to_fold in *. apply bool_decide_eq_true in E. by rewrite E. }
  rewrite !filter_cons. by destruct (decide (key_is key' kv = true)), (decide (key_is key kv = true));
    try congruence.
Qed.

Lemma run_op_models d m op : models d m -> models (run_op d op) (spec_op m op).
Proof.
  intros [V N]. split.
  - intros key'. destruct op as [key value|key value|key]; cbn [run_op spec_op];
      rewrite ?spec_values_insert, ?spec_values_delete.
    + rewrite equal_range_insert. unfold key_is. cbn [fst].
      destruct (iequal_to key key') eqn:E; [|apply V]. cbn [map snd].
      rewrite (equal_range_fold d key key' E). by rewrite V.
    + destruct (iequal_to key key') eqn:E; [|by rewrite change_value_range_ne].
      rewrite (equal_range_fold _ key key' E).
      destruct (change_value_range d key value) as (k & _ & ->). done.
    + destruct (iequal_to key key') eqn:E; [|by rewrite equal_range_delete].
      by rewrite (equal_range_fold _ key key' E), equal_range_delete_same.
  - intros k. destruct op as [key value|key value|key]; cbn [spec_op].
    + destruct (decide (fold_case key = k)) as [->|D];
        [by rewrite lookup_insert_eq|by rewrite lookup_insert_ne].
    + destruct (decide (fold_case key = k)) as [->|D];
        [by rewrite lookup_insert_eq|by rewrite lookup_insert_ne].
    + destruct (decide (fold_case key = k)) as [->|D];
        [by rewrite lookup_delete_eq|by rewrite lookup_delete_ne].
Qed.

Lemma run_ops_models ops : forall d m,
  models d m -> models (fold_left run_op ops d) (fold_left spec_op ops m).
Proof. induction ops as [|op ops IH]; intros d m M; [done|]. by apply IH, run_op_models. Qed.

Lemma models_empty : models [] ∅.
Proof. split; [done|]. intros k. by rewrite lookup_empty. Qed.

(** C20: Header dictionaries refine their specification.  After any sequence
    of insertions, changes and deletions, a name is present exactly if the
    specification has it, [get_value] returns one of the values that the
    specification has for the name, or nothing, and the whole range of a name
    is, up to order, the specification's list of values. *)
Theorem dictionary_refines (ops : list dict_op) (key : str) :
  let d := fold_left run_op ops [] in
  let m := fold_left spec_op ops ∅ in
  has_key d key = bool_decide (is_Some (m !! fold_case key)) /\
  (match m !! fold_case key with
   | None => get_value d key = []
   | Some vs => get_value d key ∈ vs
   end) /\
  map snd (equal_range d key) ≡ₚ default [] (m !! fold_case key).
Proof.
  intros d m. destruct (run_ops_models ops [] ∅ models_empty) as [V N]. fold d m in V, N.
  specialize (V key). specialize (N (fold_case key)). split_and!; [| |exact V].
  - apply eq_true_iff_eq. rewrite has_key_spec, bool_decide_eq_true. unfold spec_values in V.
    destruct (m !! fold_case key) as [vs|]; cbn in V.
    + split; [by eauto|]. intros _ E. rewrite E in V. cbn in V. apply N.
      apply Permutation_nil in V. by rewrite V.
    + apply Permutation_nil_r in V. apply map_eq_nil in V. split; [by intros []|by intros [? [=]]].
  - unfold spec_values in V. destruct (m !! fold_case key) as [vs|]; cbn in V.
    + unfold get_value. destruct (mm_find key d) as [v|] eqn:F.
      * apply mm_find_some in F as [k Hk]. rewrite <- V.
        apply list_elem_of_fmap. by exists (k, v).
      * apply mm_find_none in F. rewrite F in V. apply Permutation_nil in V. cbn in V. by subst vs.
    + apply Permutation_nil_r, map_eq_nil in V. by apply get_value_absent.
Qed.

End Refinement.

Lemma dictionary_refines_witness :
  get_value (fold_left run_op [dict_insert (bs "A") (bs "1"); dict_insert (bs "b") (bs "2");
                               dict_change (bs "a") (bs "3")] []) (bs "a") ∈ [bs "3"].
Proof.
  exact (proj1 (proj2 (dictionary_refines
    [dict_insert (bs "A") (bs "1"); dict_insert (bs "b") (bs "2"); dict_change (bs "a") (bs "3")] (bs "a")))).
Defined.
