(* ===== verification/HeaderProofs.v ===== *)
(** * Properties of the header parser

    What [parse_headers] consumes, what it can put into the parser and the
    message (limits, character classes, reachable states), and its
    independence of how the input is cut into buffers. *)

From S2P Require Import Prelude.
From S2P Require Import Externals.
From S2P Require Import Algorithm.
From S2P Require Import Multimap.
From S2P Require Import Strings.
From S2P Require Import Message.
From S2P Require Import Request.
From S2P Require Import ParserState.
From S2P Require Import HeaderParser.
From S2P Require Import RefUtils.

(** the bytes the classes of algorithm.hpp let into the parts of a message *)
Definition is_token_char (c : char) : bool := negb (not_token c).
Definition is_uri_char (c : char) : bool := negb (ch_is_control c).
Definition is_value_char (c : char) : bool := Ascii.eqb c TAB || negb (ch_is_control c).

Definition all_of (P : char -> bool) (s : str) : Prop := Forall (fun c => P c = true) s.

(** a header as the parser may store it: a token as its name, no control
    character but TAB in its value, both within the limits *)
Definition header_ok (kv : str * str) : Prop :=
  all_of is_token_char kv.1 /\ slen kv.1 <= HEADER_NAME_MAX /\
  all_of is_value_char kv.2 /\ slen kv.2 <= HEADER_VALUE_MAX.

(** the states of a response's status line *)
Definition is_status_state (st : header_parse_state_type) : bool :=
  match st with
  | PARSE_STATUS_CODE_START | PARSE_STATUS_CODE | PARSE_STATUS_MESSAGE => true
  | _ => false
  end.

Section Definitions.
Context `{PE : PayloadEnv}.

(** the parts of a head being parsed *)
Record head_wf (p : http_parser) (m : http_message) : Prop := mk_head_wf {
  wf_state : is_status_state (m_headers_parse_state p) = false;
  wf_method : all_of is_token_char (m_method p);
  wf_method_size : slen (m_method p) <= METHOD_MAX;
  wf_resource : all_of is_uri_char (m_resource p);
  wf_resource_size : slen (m_resource p) <= RESOURCE_MAX;
  wf_query : all_of is_uri_char (m_query_string p);
  wf_query_size : slen (m_query_string p) <= QUERY_STRING_MAX;
  wf_name : all_of is_token_char (m_header_name p);
  wf_name_size : slen (m_header_name p) <= HEADER_NAME_MAX;
  wf_value : all_of is_value_char (m_header_value p);
  wf_value_size : slen (m_header_value p) <= HEADER_VALUE_MAX;
  wf_space : m_headers_parse_state p = PARSE_SPACE_BEFORE_HEADER_VALUE -> m_header_value p = [];
  wf_major : 0 <= m_version_major m < 2 ^ 16;
  wf_minor : 0 <= m_version_minor m < 2 ^ 16;
  wf_headers : Forall header_ok (m_headers m);
}.

(** the fields the state machines do not touch: the cursor and the counters *)
Definition frame (x : str) (l t k : Z) (p : http_parser) : http_parser :=
  p <| m_read := x |> <| m_bytes_last_read := l |> <| m_bytes_total_read := t |>
    <| m_bytes_content_read := k |>.

Definition hmap (f : http_parser -> http_parser) (r : header_result) : header_result :=
  match r with
  | HBreak p m => HBreak (f p) m
  | HTrue a p m => HTrue a (f p) m
  | HFalse ev p m => HFalse ev (f p) m
  end.

Definition hs_map (f : http_parser -> http_parser) (hs : headers_stop) : headers_stop :=
  mk_headers_stop (hs_rc hs) (hs_error hs) (hs_rest hs) (hs_read hs) (f (hs_parser hs))
    (hs_message hs).

End Definitions.

Ltac unfold_header_step :=
  unfold header_step, step_method_start, step_method, step_uri_stem, step_uri_query,
    step_http_version_h, step_http_version_char, step_version_major_start, step_version_major,
    step_version_minor_start, step_version_minor, step_status_code_start, step_status_code,
    step_status_message, step_expecting_newline, step_expecting_cr, step_header_whitespace,
    step_header_start, step_header_name, step_space_before_header_value, step_header_value,
    step_expecting_final, start_header_name, version_0_0, store_header, goto in *.

Section Lemmas.
Context `{SU : StaticlibUtils, MP : MultimapPolicy, PE : PayloadEnv}.

Lemma header_step_frame x l t k c p m :
  header_step c (frame x l t k p) m = hmap (frame x l t k) (header_step c p m).
Proof.
  unfold_header_step. cbn. destruct (m_headers_parse_state p);
    repeat (case_match; cbn); reflexivity.
Qed.

Lemma save_raw_frame x l t k c p : save_raw c (frame x l t k p) = frame x l t k (save_raw c p).
Proof. unfold save_raw. cbn. by destruct (m_save_raw_headers p). Qed.

Lemma headers_loop_frame x l t k buf n p m :
  headers_loop buf n (frame x l t k p) m = hs_map (frame x l t k) (headers_loop buf n p m).
Proof.
  revert n p m. induction buf as [|c buf IH]; intros n p m; cbn [headers_loop]; [done|].
  rewrite save_raw_frame, header_step_frame.
  destruct (header_step c (save_raw c p) m) as [p1 m1|[] p1 m1|ev p1 m1]; cbn [hmap]; auto.
Qed.

(** the loop on two buffers in a row *)
Lemma headers_loop_app b1 b2 n p m :
  headers_loop (b1 ++ b2) n p m =
  let hs := headers_loop b1 n p m in
  if is_indeterminate (hs_rc hs)
  then headers_loop b2 (hs_read hs) (hs_parser hs) (hs_message hs)
  else mk_headers_stop (hs_rc hs) (hs_error hs) (hs_rest hs ++ b2) (hs_read hs) (hs_parser hs)
         (hs_message hs).
Proof.
  revert n p m. induction b1 as [|c b1 IH]; intros n p m; [done|].
  cbn [headers_loop app].
  destruct (header_step c (save_raw c p) m) as [p1 m1|[] p1 m1|ev p1 m1]; cbn; [apply IH|done..].
Qed.

(** the three ways out of the loop *)
Lemma headers_loop_exit buf n p m :
  let hs := headers_loop buf n p m in
  match hs_rc hs with
  | indeterminate => hs_error hs = None /\ hs_rest hs = []
  | ttrue => hs_error hs = None
  | tfalse => exists ev, hs_error hs = Some ev
  end.
Proof.
  revert n p m. induction buf as [|c buf IH]; intros n p m; cbn [headers_loop]; [done|].
  destruct (header_step c (save_raw c p) m) as [p1 m1|[] p1 m1|ev p1 m1]; cbn; eauto. apply IH.
Qed.

Lemma headers_loop_consumed buf n p m :
  let hs := headers_loop buf n p m in
  exists used, buf = used ++ hs_rest hs /\ hs_read hs = n + slen used.
Proof.
  revert n p m. induction buf as [|c buf IH]; intros n p m; cbn [headers_loop].
  - exists []. cbn. split; [done|]. rewrite slen_nil. lia.
  - destruct (header_step c (save_raw c p) m) as [p1 m1|[] p1 m1|ev p1 m1]; cbn.
    + destruct (IH (n + 1) p1 m1) as (used & H1 & H2). exists (c :: used).
      rewrite slen_cons. split; [cbn; congruence | lia].
    + exists [c]. split; [done|]. by rewrite slen_cons, slen_nil.
    + exists []. split; [done|]. rewrite slen_nil. lia.
    + exists []. split; [done|]. rewrite slen_nil. lia.
Qed.

(** the counters are no business of the loop *)
Lemma headers_loop_counters buf n p m :
  let p' := hs_parser (headers_loop buf n p m) in
  m_read p' = m_read p /\ m_bytes_total_read p' = m_bytes_total_read p /\
  m_bytes_content_read p' = m_bytes_content_read p /\
  m_bytes_last_read p' = m_bytes_last_read p.
Proof.
  assert (p = frame (m_read p) (m_bytes_last_read p) (m_bytes_total_read p)
                (m_bytes_content_read p) p) as E by (by destruct p).
  cbv zeta. rewrite E at 1 3 5 7. rewrite headers_loop_frame. by split_and!.
Qed.

End Lemmas.

(** ** What the parser lets into a message *)

Lemma all_of_snoc P s c : all_of P s -> P c = true -> all_of P (s ++ [c]).
Proof. intros H Hc. apply Forall_app. split; [done|]. by constructor. Qed.

Lemma all_of_nil P : all_of P [].
Proof. constructor. Qed.

Lemma all_of_single P c : P c = true -> all_of P [c].
Proof. intros. by apply (all_of_snoc P [] c (all_of_nil P)). Qed.

Lemma token_char c : not_token c = false -> is_token_char c = true.
Proof. unfold is_token_char. by intros ->. Qed.

Lemma uri_char c : ch_is_control c = false -> is_uri_char c = true.
Proof. unfold is_uri_char. by intros ->. Qed.

Lemma token_value_char c : not_token c = false -> is_value_char c = true.
Proof.
  unfold not_token, is_value_char. intros H. chars.
  match goal with H : ch_is_control _ = false |- _ => rewrite H end. apply orb_true_r.
Qed.

Lemma value_char c : negb (Ascii.eqb c TAB) && ch_is_control c = false -> is_value_char c = true.
Proof. unfold is_value_char. destruct (Ascii.eqb c TAB); cbn; [done|]. by intros ->. Qed.

Lemma snoc_size s c n : (slen s >=? n) = false -> slen (s ++ [c]) <= n.
Proof. rewrite slen_snoc. lia. Qed.

Create HintDb head discriminated.
Hint Resolve all_of_snoc all_of_nil all_of_single token_char uri_char token_value_char
  value_char snoc_size : head.
Hint Resolve wf_state wf_method wf_method_size wf_resource wf_resource_size wf_query
  wf_query_size wf_name wf_name_size wf_value wf_value_size wf_major wf_minor wf_headers : head.

Section Wf.
Context `{ML : MultimapLaws, PE : PayloadEnv}.

Lemma insert_header_wf p m :
  head_wf p m -> Forall header_ok (mm_insert (m_header_name p, m_header_value p) (m_headers m)).
Proof.
  intros []. rewrite mm_insert_perm. constructor; [by repeat split | done].
Qed.

Definition hresult_wf (r : header_result) : Prop :=
  match r with
  | HBreak p m | HTrue _ p m | HFalse _ p m => head_wf p m
  end.

Lemma save_raw_wf c p m : head_wf p m -> head_wf (save_raw c p) m.
Proof. intros []. unfold save_raw. destruct (m_save_raw_headers p); constructor; cbn; assumption. Qed.

Lemma header_step_wf c p m : head_wf p m -> hresult_wf (header_step c p m).
Proof.
  intros W. pose proof (insert_header_wf p m W).
  pose proof (wf_state _ _ W) as Hstate. pose proof (wf_space _ _ W) as Hspace.
  unfold_header_step. unfold set_version_minor, set_version_major, clear_first_line, add_header.
  destruct (m_headers_parse_state p) eqn:St; try discriminate Hstate;
    repeat (case_match; cbn); try exact W;
    constructor; cbn; rewrite ?St; try discriminate; try (apply wrap_range; lia);
    eauto with head.
  by rewrite Hspace.
Qed.

Lemma headers_loop_wf buf n p m :
  head_wf p m ->
  let hs := headers_loop buf n p m in head_wf (hs_parser hs) (hs_message hs).
Proof.
  revert n p m. induction buf as [|c buf IH]; intros n p m W; cbn [headers_loop]; [done|].
  pose proof (header_step_wf c _ _ (save_raw_wf c p m W)) as W'.
  destruct (header_step c (save_raw c p) m) as [p1 m1|[] p1 m1|ev p1 m1]; cbn; auto.
Qed.

Lemma parse_headers_wf' p m ec :
  head_wf p m ->
  let '(_, p', m', _) := parse_headers p m ec in head_wf p' m'.
Proof.
  intros W. unfold parse_headers.
  assert (head_wf (p <| m_bytes_last_read := 0 |>) m) as W0
    by (destruct W; constructor; cbn; assumption).
  pose proof (headers_loop_wf (m_read p) 0 _ m W0) as H. cbv zeta in *.
  destruct H, (hs_error _); constructor; cbn; assumption.
Qed.

Lemma new_parser_wf a b n : head_wf (new_parser a b n) new_message.
Proof. constructor; cbn; solve [apply all_of_nil | done | lia]. Qed.

End Wf.
