(* ===== verification/HeaderRoundTrip.v ===== *)
(** * Reading back a printed request head

    [http_request::prepare_buffers_for_send] prints a request line and
    headers; [http_parser::parse_headers] reads them.  The lemmas follow the
    states of the parser over one printed piece at a time. *)

From S2P Require Import Prelude.
From S2P Require Import Externals.
From S2P Require Import Algorithm.
From S2P Require Import Multimap.
From S2P Require Import Strings.
From S2P Require Import Message.
From S2P Require Import Request.
From S2P Require Import ParserState.
From S2P Require Import HeaderParser.
From S2P Require Import RefUtils.
From S2P Require Import HeaderProofs.

(** what can be printed and read back *)
Definition method_ok (s : str) : Prop :=
  s <> [] /\ all_of is_token_char s /\ slen s <= METHOD_MAX.
Definition is_path_char (c : char) : bool := is_uri_char c && (c !=c " ") && (c !=c "?").
Definition resource_ok (s : str) : Prop := all_of is_path_char s /\ slen s <= RESOURCE_MAX.
Definition is_query_char (c : char) : bool := is_uri_char c && (c !=c " ").
Definition query_ok (s : str) : Prop := all_of is_query_char s /\ slen s <= QUERY_STRING_MAX.
Definition named (kv : str * str) : Prop := kv.1 <> [] /\ header_ok kv.

(** the same, decided *)
Definition named_b (kv : str * str) : bool :=
  negb (slen kv.1 =? 0) && forallb is_token_char kv.1 && (slen kv.1 <=? HEADER_NAME_MAX)
  && forallb is_value_char kv.2 && (slen kv.2 <=? HEADER_VALUE_MAX).

Lemma all_of_forallb P s : forallb P s = true <-> all_of P s.
Proof.
  induction s as [|c s IH]; cbn; [split; [constructor|done]|].
  rewrite andb_true_iff, IH. split; [intros []; by constructor | by inversion 1].
Qed.

Lemma Forall_named_b d : forallb named_b d = true -> Forall named d.
Proof.
  induction d as [|kv d IH]; cbn; [constructor|]. intros [H Hd]%andb_true_iff.
  constructor; [|by apply IH]. unfold named_b in H. chars.
  split; [intros E; by rewrite E in *|]. unfold header_ok.
  rewrite <- !all_of_forallb. split_and!; done || lia.
Qed.

(** inserting headers in the order they are read *)
Definition insert_all `{MultimapPolicy} (hs d : mmap) : mmap :=
  fold_left (fun d kv => mm_insert kv d) hs d.

Section RoundTrip.
Context `{SU : StaticlibUtils, MP : MultimapPolicy, PE : PayloadEnv}.

Lemma loop_step c buf n p m p' m' :
  m_save_raw_headers p = false ->
  header_step c p m = HBreak p' m' ->
  headers_loop (c :: buf) n p m = headers_loop buf (n + 1) p' m'.
Proof. intros R E. cbn [headers_loop]. unfold save_raw. by rewrite R, E. Qed.

(** a state that appends the characters it gets to one field *)
Section Accumulate.
Context (st : header_parse_state_type) (P : char -> bool) (max : Z).
Context (get : http_parser -> str) (set : str -> http_parser -> http_parser).
Hypothesis get_set : forall v p, get (set v p) = v.
Hypothesis set_set : forall v w p, set v (set w p) = set v p.
Hypothesis set_get : forall p, set (get p) p = p.
Hypothesis set_state : forall v p, m_headers_parse_state (set v p) = m_headers_parse_state p.
Hypothesis set_raw : forall v p, m_save_raw_headers (set v p) = m_save_raw_headers p.
Hypothesis step : forall c p m,
  m_headers_parse_state p = st -> P c = true -> (slen (get p) >=? max) = false ->
  header_step c p m = HBreak (set (get p ++ [c]) p) m.

Lemma loop_accumulate s buf n p m :
  m_headers_parse_state p = st -> m_save_raw_headers p = false ->
  all_of P s -> slen (get p) + slen s <= max ->
  headers_loop (s ++ buf) n p m = headers_loop buf (n + slen s) (set (get p ++ s) p) m.
Proof using get_set set_get set_raw set_set set_state step.
  intros Hst Hraw Hs. revert n p Hst Hraw. induction Hs as [|c s Hc _ IH]; intros n p Hst Hraw L.
  - by rewrite app_nil_r, set_get, slen_nil, Z.add_0_r.
  - rewrite slen_cons in L. pose proof (slen_nonneg s). cbn [app].
    rewrite (loop_step c _ n p m _ m Hraw (step c p m Hst Hc ltac:(lia))).
    rewrite IH by (rewrite ?set_state, ?set_raw, ?get_set, ?slen_snoc; done || lia).
    rewrite get_set, set_set, <- app_assoc, slen_cons. cbn [app].
    f_equal. lia.
Qed.

End Accumulate.

Ltac accumulate_laws :=
  first [ reflexivity | by intros [] | idtac ].

Lemma control_neq c d : ch_is_control c = false -> ch_is_control d = true -> Ascii.eqb c d = false.
Proof. intros Hc Hd. apply Ascii.eqb_neq. intros ->. congruence. Qed.

Lemma path_char_step c : is_path_char c = true ->
  (c ==c " ") = false /\ (c ==c "?") = false /\ Ascii.eqb c CR = false /\ Ascii.eqb c LF = false
  /\ ch_is_control c = false.
Proof.
  unfold is_path_char, is_uri_char. intros H. chars.
  repeat split; try (by apply Ascii.eqb_neq); auto using control_neq.
Qed.

Lemma token_char_not c : is_token_char c = true -> not_token c = false.
Proof. unfold is_token_char. apply negb_true_iff. Qed.

Lemma loop_method s buf n p m :
  m_headers_parse_state p = PARSE_METHOD -> m_save_raw_headers p = false ->
  all_of is_token_char s -> slen (m_method p) + slen s <= METHOD_MAX ->
  headers_loop (s ++ buf) n p m =
  headers_loop buf (n + slen s) (p <| m_method := m_method p ++ s |>) m.
Proof.
  apply (loop_accumulate PARSE_METHOD is_token_char METHOD_MAX m_method
           (fun v p => p <| m_method := v |>)); accumulate_laws.
  intros c p0 m0 St H%token_char_not L. unfold header_step, step_method. rewrite St, H, L.
  apply token_printable in H as (_ & _ & H & _). apply Ascii.eqb_neq in H. by rewrite H.
Qed.

Lemma loop_resource s buf n p m :
  m_headers_parse_state p = PARSE_URI_STEM -> m_save_raw_headers p = false ->
  all_of is_path_char s -> slen (m_resource p) + slen s <= RESOURCE_MAX ->
  headers_loop (s ++ buf) n p m =
  headers_loop buf (n + slen s) (p <| m_resource := m_resource p ++ s |>) m.
Proof.
  apply (loop_accumulate PARSE_URI_STEM is_path_char RESOURCE_MAX m_resource
           (fun v p => p <| m_resource := v |>)); accumulate_laws.
  intros c p0 m0 St H%path_char_step L. destruct H as (H1 & H2 & H3 & H4 & H5).
  unfold header_step, step_uri_stem. by rewrite St, H1, H2, H3, H4, H5, L.
Qed.

Lemma loop_query s buf n p m :
  m_headers_parse_state p = PARSE_URI_QUERY -> m_save_raw_headers p = false ->
  all_of is_query_char s -> slen (m_query_string p) + slen s <= QUERY_STRING_MAX ->
  headers_loop (s ++ buf) n p m =
  headers_loop buf (n + slen s) (p <| m_query_string := m_query_string p ++ s |>) m.
Proof.
  apply (loop_accumulate PARSE_URI_QUERY is_query_char QUERY_STRING_MAX m_query_string
           (fun v p => p <| m_query_string := v |>)); accumulate_laws.
  intros c p0 m0 St H L. unfold is_query_char, is_uri_char in H. chars.
  unfold header_step, step_uri_query. rewrite St, (control_neq c CR), (control_neq c LF), L by done.
  match goal with H : c <> _ |- _ => apply Ascii.eqb_neq in H; rewrite H end.
  by match goal with H : ch_is_control c = _ |- _ => rewrite H end.
Qed.

Lemma loop_name s buf n p m :
  m_headers_parse_state p = PARSE_HEADER_NAME -> m_save_raw_headers p = false ->
  all_of is_token_char s -> slen (m_header_name p) + slen s <= HEADER_NAME_MAX ->
  headers_loop (s ++ buf) n p m =
  headers_loop buf (n + slen s) (p <| m_header_name := m_header_name p ++ s |>) m.
Proof.
  apply (loop_accumulate PARSE_HEADER_NAME is_token_char HEADER_NAME_MAX m_header_name
           (fun v p => p <| m_header_name := v |>)); accumulate_laws.
  intros c p0 m0 St H%token_char_not L. unfold header_step, step_header_name. rewrite St, H, L.
  apply token_printable in H as (_ & _ & _ & H & _). apply Ascii.eqb_neq in H. by rewrite H.
Qed.

Lemma value_char_step c : is_value_char c = true ->
  Ascii.eqb c CR = false /\ Ascii.eqb c LF = false /\
  negb (Ascii.eqb c TAB) && ch_is_control c = false.
Proof.
  unfold is_value_char. intros H. destruct (Ascii.eqb c TAB) eqn:T.
  { apply Ascii.eqb_eq in T. subst c. done. }
  cbn in H. chars. auto using control_neq.
Qed.

Lemma loop_value s buf n p m :
  m_headers_parse_state p = PARSE_HEADER_VALUE -> m_save_raw_headers p = false ->
  all_of is_value_char s -> slen (m_header_value p) + slen s <= HEADER_VALUE_MAX ->
  headers_loop (s ++ buf) n p m =
  headers_loop buf (n + slen s) (p <| m_header_value := m_header_value p ++ s |>) m.
Proof.
  apply (loop_accumulate PARSE_HEADER_VALUE is_value_char HEADER_VALUE_MAX m_header_value
           (fun v p => p <| m_header_value := v |>)); accumulate_laws.
  intros c p0 m0 St H%value_char_step L. destruct H as (H1 & H2 & H3).
  unfold header_step, step_header_value. by rewrite St, H1, H2, H3, L.
Qed.

(** one step over a known character in a known state *)
Ltac hstep :=
  erewrite loop_step;
  [ | cbn; assumption
    | unfold_header_step; cbn;
      try match goal with H : m_headers_parse_state ?p = _ |- _ => rewrite H end;
      cbn; reflexivity ].

(** the method and the resource, from a fresh parser *)
Lemma loop_method_resource method resource buf p m :
  m_headers_parse_state p = PARSE_METHOD_START -> m_save_raw_headers p = false ->
  method_ok method -> resource_ok resource ->
  headers_loop (method ++ bs " " ++ resource ++ buf) 0 p m =
  headers_loop buf (slen method + slen resource + 1)
    (p <| m_method := method |> <| m_resource := resource |>
       <| m_headers_parse_state := PARSE_URI_STEM |>) m.
Proof.
  intros St R (NE & Hm & Lm) (Hr & Lr).
  destruct method as [|c method]; [done|]. apply Forall_cons_iff in Hm as [Hc Hm].
  rewrite slen_cons in Lm. pose proof (token_char_not c Hc) as Hc'.
  pose proof (token_printable c Hc') as (N1 & N2 & N3 & _).
  apply Ascii.eqb_neq in N1, N2, N3. cbn [app].
  rewrite (loop_step c _ _ _ _ (p <| m_headers_parse_state := PARSE_METHOD |>
                                  <| m_method := [c] |>) m);
    [| exact R | unfold_header_step; rewrite St, N1, N2, N3, Hc'; reflexivity ].
  rewrite loop_method by (done || (cbn; rewrite slen_cons, slen_nil; lia)).
  change (bs " ") with [" "%char]. cbn [app]. hstep.
  rewrite loop_resource by (done || (cbn; rewrite slen_nil; lia)).
  f_equal. rewrite slen_cons. lia.
Qed.

(** a line break right after the resource ends a simple request *)
Lemma loop_stem_newline buf n p m :
  m_headers_parse_state p = PARSE_URI_STEM -> m_save_raw_headers p = false ->
  headers_loop (STRING_CRLF ++ buf) n p m =
  mk_headers_stop ttrue None buf (n + 2)
    (p <| m_headers_parse_state := PARSE_EXPECTING_NEWLINE |>) (version_0_0 m).
Proof.
  intros St R. unfold STRING_CRLF. cbn [app]. hstep.
  cbn [headers_loop]. unfold save_raw. cbn. rewrite R. cbn. f_equal. lia.
Qed.

Lemma loop_stem_space_newline buf n p m :
  m_headers_parse_state p = PARSE_URI_STEM -> m_save_raw_headers p = false ->
  headers_loop (bs " " ++ STRING_CRLF ++ buf) n p m =
  mk_headers_stop tfalse (Some ERROR_VERSION_CHAR) (LF :: buf) (n + 2)
    (p <| m_headers_parse_state := PARSE_HTTP_VERSION_T_1 |>) (version_0_0 m).
Proof.
  intros St R. unfold STRING_CRLF. cbn [app bs String.list_ascii_of_string]. hstep. hstep.
  cbn [headers_loop]. unfold save_raw. cbn. rewrite R. cbn. f_equal. lia.
Qed.

(** ** The version *)

Lemma is_digit_char c : 48 <= int_of_char c <= 57 -> is_digit c = true.
Proof. unfold is_digit. lia. Qed.

Definition digits_value (v : Z) (ds : str) : Z :=
  fold_left (fun a c => a * 10 + (int_of_char c - 48)) ds v.

Lemma digit_neq c d : is_digit c = true -> is_digit d = false -> Ascii.eqb c d = false.
Proof. intros Hc Hd. apply Ascii.eqb_neq. intros ->. congruence. Qed.

Lemma version_major_acc v c m :
  set_version_major (wrap 16 v * 10 + digit_value c) (set_version_major v m) =
  set_version_major (v * 10 + (int_of_char c - 48)) m.
Proof.
  unfold set_version_major, clear_first_line, digit_value, wrap.
  by rewrite <- (Zplus_mod_idemp_l (_ mod _ * 10)), Zmult_mod_idemp_l, Zplus_mod_idemp_l.
Qed.

Lemma version_minor_acc v c m :
  set_version_minor (wrap 16 v * 10 + digit_value c) (set_version_minor v m) =
  set_version_minor (v * 10 + (int_of_char c - 48)) m.
Proof.
  unfold set_version_minor, clear_first_line, digit_value, wrap.
  by rewrite <- (Zplus_mod_idemp_l (_ mod _ * 10)), Zmult_mod_idemp_l, Zplus_mod_idemp_l.
Qed.

Lemma loop_major ds buf n p m v :
  m_headers_parse_state p = PARSE_HTTP_VERSION_MAJOR -> m_save_raw_headers p = false ->
  all_of is_digit ds ->
  headers_loop (ds ++ buf) n p (set_version_major v m) =
  headers_loop buf (n + slen ds) p (set_version_major (digits_value v ds) m).
Proof.
  intros St R Hs. revert n v. induction Hs as [|c ds Hc _ IH]; intros n v.
  - by rewrite slen_nil, Z.add_0_r.
  - cbn [app]. rewrite (loop_step c _ n p _ p (set_version_major (v * 10 + (int_of_char c - 48)) m) R).
    + rewrite IH, slen_cons. cbn. f_equal. lia.
    + unfold header_step, step_version_major. rewrite St, (digit_neq c "."), Hc by done.
      cbn [m_version_major]. f_equal. apply version_major_acc.
Qed.

Lemma loop_minor ds buf n p m v :
  m_headers_parse_state p = PARSE_HTTP_VERSION_MINOR -> m_save_raw_headers p = false ->
  all_of is_digit ds ->
  headers_loop (ds ++ buf) n p (set_version_minor v m) =
  headers_loop buf (n + slen ds) p (set_version_minor (digits_value v ds) m).
Proof.
  intros St R Hs. revert n v. induction Hs as [|c ds Hc _ IH]; intros n v.
  - by rewrite slen_nil, Z.add_0_r.
  - cbn [app]. rewrite (loop_step c _ n p _ p (set_version_minor (v * 10 + (int_of_char c - 48)) m) R).
    + rewrite IH, slen_cons. cbn. f_equal. lia.
    + unfold header_step, step_version_minor.
      rewrite St, (digit_neq c " "), (digit_neq c CR), (digit_neq c LF), Hc by done.
      f_equal. apply version_minor_acc.
Qed.

(** "HTTP/<digits>.<digits>CRLF", any digits: the version is their value
    modulo 2^16 *)
Lemma loop_version da ds db es buf n p m :
  m_headers_parse_state p = PARSE_HTTP_VERSION_H -> m_save_raw_headers p = false ->
  all_of is_digit (da :: ds) -> all_of is_digit (db :: es) ->
  wrap 16 (digits_value 0 (da :: ds)) <> 0 ->
  headers_loop (bs "HTTP/" ++ da :: ds ++ bs "." ++ db :: es ++ STRING_CRLF ++ buf) n p m =
  headers_loop buf (n + 8 + slen (da :: ds) + slen (db :: es))
    (p <| m_headers_parse_state := PARSE_HEADER_START |>)
    (set_version_minor (digits_value 0 (db :: es))
       (set_version_major (digits_value 0 (da :: ds)) m)).
Proof.
  intros St R Ha Hb V. apply Forall_cons_iff in Ha as [Ha Hs], Hb as [Hb He].
  unfold STRING_CRLF. cbn [bs String.list_ascii_of_string app].
  do 5 hstep.
  rewrite (loop_step da _ _ _ _ (p <| m_headers_parse_state := PARSE_HTTP_VERSION_MAJOR |>)
             (set_version_major (digit_value da) m));
    [| exact R | unfold_header_step; cbn; by rewrite Ha].
  rewrite loop_major by done.
  hstep.
  rewrite (loop_step db _ _ _ _ (p <| m_headers_parse_state := PARSE_HTTP_VERSION_MINOR |>)
             (set_version_minor (digit_value db)
                (set_version_major (digits_value (digit_value da) ds) m)));
    [| exact R | unfold_header_step; cbn; by rewrite Hb].
  rewrite loop_minor by done.
  hstep.
  rewrite (loop_step LF _ _ _ _ (p <| m_headers_parse_state := PARSE_HEADER_START |>)
             (set_version_minor (digits_value (digit_value db) es)
                (set_version_major (digits_value (digit_value da) ds) m)));
    [| exact R |].
  - rewrite !slen_cons. f_equal. lia.
  - change (wrap 16 (digits_value (digit_value da) ds) <> 0) in V. apply Z.eqb_neq in V.
    unfold header_step, goto. change (m_headers_parse_state _) with PARSE_EXPECTING_NEWLINE.
    unfold step_expecting_newline. change (m_version_major _)
      with (wrap 16 (digits_value (digit_value da) ds)). by rewrite V.
Qed.

(** ** A header line *)

Lemma loop_header kv buf n p m :
  m_headers_parse_state p = PARSE_HEADER_START -> m_save_raw_headers p = false ->
  m_version_major m <> 0 -> named kv ->
  headers_loop (kv.1 ++ HEADER_NAME_VALUE_DELIMITER ++ kv.2 ++ STRING_CRLF ++ buf) n p m =
  headers_loop buf (n + slen kv.1 + slen kv.2 + 4)
    (p <| m_header_name := kv.1 |> <| m_header_value := kv.2 |>)
    (add_header kv.1 kv.2 m).
Proof.
  intros St R V [NE (T & TS & Va & VS)]. destruct kv as [[|c name] value]; [done|].
  cbn [fst snd] in *. apply Forall_cons_iff in T as [Hc T]. rewrite slen_cons in TS.
  unfold HEADER_NAME_VALUE_DELIMITER, STRING_CRLF. cbn [bs String.list_ascii_of_string app].
  assert (not_token c = false) as Hc' by (by apply token_char_not).
  assert (Ascii.eqb c CR = false /\ Ascii.eqb c LF = false /\ Ascii.eqb c TAB = false /\
          (c ==c " ") = false) as (E1 & E2 & E3 & E4).
  { repeat split; apply Ascii.eqb_neq; intros ->; discriminate. }
  rewrite (loop_step c _ _ _ _ (p <| m_headers_parse_state := PARSE_HEADER_NAME |>
                                  <| m_header_name := [c] |>) m);
    [| exact R | unfold_header_step; rewrite St, E1, E2, E3, E4, Hc'; reflexivity ].
  rewrite loop_name by (done || cbn; rewrite slen_cons, slen_nil; lia).
  do 2 hstep.
  rewrite loop_value by (done || (cbn; rewrite slen_nil; lia)).
  hstep.
  rewrite (loop_step LF _ _ _ _ (p <| m_header_name := c :: name |> <| m_header_value := value |>)
             (add_header (c :: name) value m)); [| exact R |].
  - rewrite !slen_cons. f_equal. lia.
  - unfold_header_step. cbn. apply Z.eqb_neq in V. rewrite V. rewrite <- St. by destruct p.
Qed.

(** ** The whole head *)

Definition header_lines (hs : mmap) : str :=
  concat (map (fun kv => kv.1 ++ HEADER_NAME_VALUE_DELIMITER ++ kv.2 ++ STRING_CRLF) hs).

Lemma concat_append_headers m :
  concat (append_headers m) = header_lines (m_headers m) ++ STRING_CRLF.
Proof.
  unfold append_headers, header_lines. rewrite concat_app. cbn [concat]. rewrite app_nil_r. f_equal.
  induction (m_headers m) as [|kv hs IH]; [done|].
  cbn [map concat]. rewrite concat_app, IH. cbn [concat]. by rewrite app_nil_r, <- !app_assoc.
Qed.

Lemma loop_headers hs buf n p m :
  m_headers_parse_state p = PARSE_HEADER_START -> m_save_raw_headers p = false ->
  m_version_major m <> 0 -> Forall named hs ->
  exists name value,
    headers_loop (header_lines hs ++ buf) n p m =
    headers_loop buf (n + slen (header_lines hs))
      (p <| m_header_name := name |> <| m_header_value := value |>)
      (m <| m_headers := insert_all hs (m_headers m) |>).
Proof.
  intros St R V H. revert n p m St R V. induction H as [|kv hs Hkv _ IH]; intros n p m St R V.
  - exists (m_header_name p), (m_header_value p). cbn [header_lines map concat app].
    rewrite slen_nil, Z.add_0_r. f_equal; [by destruct p | by destruct m].
  - change (header_lines (kv :: hs)) with
      ((kv.1 ++ HEADER_NAME_VALUE_DELIMITER ++ kv.2 ++ STRING_CRLF) ++ header_lines hs).
    rewrite <- !app_assoc. rewrite loop_header by done.
    destruct (IH (n + slen kv.1 + slen kv.2 + 4)
                (p <| m_header_name := kv.1 |> <| m_header_value := kv.2 |>)
                (add_header kv.1 kv.2 m)) as (name & value & E); [done..|].
    exists name, value. rewrite E. destruct kv as [k v].
    autorewrite with slen. change (slen HEADER_NAME_VALUE_DELIMITER) with 2.
    change (slen STRING_CRLF) with 2. cbn [fst snd]. f_equal. lia.
Qed.

(** the request line, from a fresh parser *)
Definition request_line (method resource query major minor : str) : str :=
  method ++ bs " " ++ resource ++ (if bool_decide (query = []) then [] else bs "?" ++ query)
  ++ bs " " ++ bs "HTTP/" ++ major ++ bs "." ++ minor.

Lemma loop_request_line method resource query da ds db es buf p m :
  m_headers_parse_state p = PARSE_METHOD_START -> m_save_raw_headers p = false ->
  m_query_string p = [] ->
  method_ok method -> resource_ok resource -> query_ok query ->
  all_of is_digit (da :: ds) -> all_of is_digit (db :: es) ->
  wrap 16 (digits_value 0 (da :: ds)) <> 0 ->
  let line := request_line method resource query (da :: ds) (db :: es) in
  headers_loop (line ++ STRING_CRLF ++ buf) 0 p m =
  headers_loop buf (slen line + 2)
    (p <| m_method := method |> <| m_resource := resource |> <| m_query_string := query |>
       <| m_headers_parse_state := PARSE_HEADER_START |>)
    (set_version_minor (digits_value 0 (db :: es))
       (set_version_major (digits_value 0 (da :: ds)) m)).
Proof.
  intros St R Q Hm Hr (Hq & Lq) Ha Hb V line.
  subst line. unfold request_line. rewrite <- !app_assoc.
  rewrite loop_method_resource by done.
  change (bs " ") with [" "%char]. change (bs "?") with ["?"%char]. cbn [app].
  destruct (bool_decide (query = [])) eqn:Eq.
  - apply bool_decide_eq_true in Eq as ->. cbn [app]. hstep.
    rewrite loop_version by done.
    autorewrite with slen. change (slen (bs "HTTP/")) with 5. change (slen (bs ".")) with 1. f_equal; [lia|]. rewrite <- Q. by destruct p.
  - cbn [app]. hstep.
    rewrite loop_query by (done || (cbn; rewrite slen_nil; lia)). hstep.
    rewrite loop_version by done.
    autorewrite with slen. change (slen (bs "HTTP/")) with 5. change (slen (bs ".")) with 1. f_equal. lia.
Qed.

Lemma loop_head method resource query da ds db es hs rest p m :
  m_headers_parse_state p = PARSE_METHOD_START -> m_save_raw_headers p = false ->
  m_query_string p = [] ->
  method_ok method -> resource_ok resource -> query_ok query ->
  all_of is_digit (da :: ds) -> all_of is_digit (db :: es) ->
  wrap 16 (digits_value 0 (da :: ds)) <> 0 -> Forall named hs ->
  let line := request_line method resource query (da :: ds) (db :: es) in
  let head := line ++ STRING_CRLF ++ header_lines hs ++ STRING_CRLF in
  exists name value,
    headers_loop (head ++ rest) 0 p m =
    mk_headers_stop ttrue None rest (slen head)
      (p <| m_method := method |> <| m_resource := resource |> <| m_query_string := query |>
         <| m_header_name := name |> <| m_header_value := value |>
         <| m_headers_parse_state := PARSE_EXPECTING_FINAL_NEWLINE |>)
      ((set_version_minor (digits_value 0 (db :: es))
         (set_version_major (digits_value 0 (da :: ds)) m))
       <| m_headers := insert_all hs (m_headers m) |>).
Proof.
  intros St R Q Hm Hr Hq Ha Hb V Hs line head. subst head. rewrite <- !app_assoc.
  subst line. rewrite loop_request_line by done.
  match goal with
  | |- context [headers_loop _ ?n ?p1 ?m1] =>
    destruct (loop_headers hs (STRING_CRLF ++ rest) n p1 m1) as (name & value & E); [done..|]
  end.
  exists name, value. rewrite E. unfold STRING_CRLF. cbn [app]. hstep.
  cbn [headers_loop]. unfold save_raw at 1. cbn [m_save_raw_headers]. cbn. rewrite R.
  autorewrite with slen. cbn. f_equal. lia.
Qed.

Lemma to_string_digits_value `{DL : !DecimalLaw} n :
  0 <= n -> exists c s, to_string n = c :: s /\ all_of is_digit (c :: s) /\
                        digits_value 0 (c :: s) = n.
Proof.
  intros Hn. pose proof (to_string_nonempty n) as NE.
  pose proof (to_string_digits n Hn) as D. pose proof (to_string_value n Hn) as V.
  destruct (to_string n) as [|c s]; [done|]. exists c, s. split; [done|]. split; [|done].
  eapply Forall_impl; [apply is_digit_char | exact D].
Qed.

Lemma insert_all_perm `{ML : !MultimapLaws} hs d : insert_all hs d ≡ₚ hs ++ d.
Proof.
  revert d. induction hs as [|kv hs IH]; intros d; [done|].
  change (insert_all (kv :: hs) d) with (insert_all hs (mm_insert kv d)).
  rewrite IH, mm_insert_perm. symmetry. apply Permutation_middle.
Qed.

(** the bytes of a printed head *)
Lemma request_head_bytes r keep_alive using_chunks :
  m_first_line (req_base r) = [] ->
  concat (request_prepare_buffers keep_alive using_chunks r) =
  request_line (req_method r) (req_resource r) (req_query_string r)
    (to_string (m_version_major (req_base r))) (to_string (m_version_minor (req_base r)))
  ++ STRING_CRLF
  ++ header_lines (m_headers (prepare_headers_for_send keep_alive using_chunks (req_base r)))
  ++ STRING_CRLF.
Proof.
  intros F. unfold request_prepare_buffers, prepare_buffers_for_send, get_first_line.
  set (m := prepare_headers_for_send keep_alive using_chunks (req_base r)).
  assert (m_first_line m = [] /\ m_version_major m = m_version_major (req_base r) /\
          m_version_minor m = m_version_minor (req_base r)) as (F' & Vj & Vn).
  { subst m. unfold prepare_headers_for_send.
    destruct using_chunks, keep_alive; repeat case_match; cbn; auto. }
  rewrite F'. cbn [bool_decide decide]. rewrite bool_decide_eq_true_2 by done. cbn [fst].
  rewrite !concat_app, concat_append_headers. cbn [concat]. rewrite !app_nil_r.
  unfold request_update_first_line, get_version_string, request_line. cbn.
  rewrite Vj, Vn. unfold STRING_HTTP_VERSION. by rewrite <- !app_assoc.
Qed.

(** C9: What [http_request] prints, [http_parser] reads back: for a request
    whose parts are within the parser's limits and alphabets, parsing the
    printed head with a fresh parser succeeds, consumes exactly the head and
    leaves what follows, and yields the method, resource, query string,
    version and, up to the order of the dictionary, the headers sent. *)
Theorem request_head_roundtrip `{ML : !MultimapLaws, DL : !DecimalLaw}
    (r : http_request) keep_alive using_chunks rest g1 g2 max ec :
  m_first_line (req_base r) = [] ->
  method_ok (req_method r) -> resource_ok (req_resource r) -> query_ok (req_query_string r) ->
  0 < m_version_major (req_base r) < 2 ^ 16 -> 0 <= m_version_minor (req_base r) < 2 ^ 16 ->
  let sent := m_headers (prepare_headers_for_send keep_alive using_chunks (req_base r)) in
  Forall named sent ->
  let head := concat (request_prepare_buffers keep_alive using_chunks r) in
  exists p m,
    parse_headers (set_read_buffer (head ++ rest) (new_parser g1 g2 max)) new_message ec
    = (ttrue, p, m, ec) /\
    m_read p = rest /\ m_bytes_last_read p = slen head /\
    m_method p = req_method r /\ m_resource p = req_resource r /\
    m_query_string p = req_query_string r /\
    m_version_major m = m_version_major (req_base r) /\
    m_version_minor m = m_version_minor (req_base r) /\
    m_headers m ≡ₚ sent.
Proof.
  intros F Hm Hr Hq Vj Vn sent Hs head.
  destruct (to_string_digits_value (m_version_major (req_base r))) as (da & ds & Ea & Da & Va); [lia|].
  destruct (to_string_digits_value (m_version_minor (req_base r))) as (db & es & Eb & Db & Vb); [lia|].
  subst head. rewrite request_head_bytes by done. fold sent. rewrite Ea, Eb.
  set (head := request_line _ _ _ _ _ ++ _).
  pose (p0 := (set_read_buffer (head ++ rest) (new_parser g1 g2 max)) <| m_bytes_last_read := 0 |>).
  assert (wrap 16 (digits_value 0 (da :: ds)) <> 0) as Vw by (rewrite Va, wrap_small; lia).
  destruct (loop_head _ _ _ da ds db es sent rest p0 new_message eq_refl eq_refl eq_refl
              Hm Hr Hq Da Db Vw Hs) as (name & value & E).
  fold head in E. unfold parse_headers. change (m_read (set_read_buffer _ _)) with (head ++ rest).
  fold p0. rewrite E. eexists _, _. split_and!; [reflexivity..| | |].
  all: cbn -[digits_value wrap Z.pow]; rewrite ?Va, ?Vb; rewrite ?wrap_small by lia; try reflexivity.
  by rewrite insert_all_perm, app_nil_r.
Qed.

End RoundTrip.

(** a request to print *)
Definition sample_request : http_request :=
  let r := set_method (bs "POST") (new_request false) in
  let r := set_resource (bs "/a/b") r in
  let r := set_query_string (bs "x=1") r in
  on_base (add_header (bs "Host") (bs "example.org:80")) r.

Lemma sample_request_ok :
  method_ok (req_method sample_request) /\ resource_ok (req_resource sample_request) /\
  query_ok (req_query_string sample_request) /\
  0 < m_version_major (req_base sample_request) < 2 ^ 16 /\
  0 <= m_version_minor (req_base sample_request) < 2 ^ 16.
Proof.
  unfold method_ok, resource_ok, query_ok.
  split_and!; try (apply all_of_forallb; vm_compute; reflexivity); try discriminate; done.
Qed.

Lemma sample_request_named :
  Forall named (m_headers (prepare_headers_for_send true false (req_base sample_request))).
Proof. apply Forall_named_b. vm_compute. reflexivity. Qed.

Lemma request_head_roundtrip_witness :
  exists p m,
    parse_headers
      (set_read_buffer (concat (request_prepare_buffers true false sample_request) ++ bs "tail")
         (new_parser 0 0 100)) new_message no_error = (ttrue, p, m, no_error) /\
    m_read p = bs "tail" /\ m_query_string p = bs "x=1".
Proof.
  destruct sample_request_ok as (H1 & H2 & H3 & H4 & H5).
  destruct (request_head_roundtrip sample_request true false (bs "tail") 0 0 100 no_error
              eq_refl H1 H2 H3 H4 H5 sample_request_named) as (p & m & E & Er & _ & _ & _ & Eq & _).
  exists p, m. split; [exact E|]. split; [exact Er|exact Eq].
Defined.
