(* ===== verification/HeaderTheorems.v ===== *)
(** * Theorems about [http_parser::parse_headers]

    The invariant of what it stores, the account of the bytes it consumes,
    and two behaviours of the version part of a request line. *)

From S2P Require Import Prelude.
From S2P Require Import Externals.
From S2P Require Import Algorithm.
From S2P Require Import Multimap.
From S2P Require Import Strings.
From S2P Require Import Message.
From S2P Require Import Request.
From S2P Require Import ParserState.
From S2P Require Import HeaderParser.
From S2P Require Import RefUtils.
From S2P Require Import HeaderProofs.
From S2P Require Import HeaderRoundTrip.

(** C21: Whatever bytes it reads, [parse_headers] keeps the parser and the
    message well formed: it never enters the states of a response's status
    line; method, resource, query string, header names and values stay within
    their limits; the method and every stored header name are tokens, the
    resource and query string have no control character and every stored
    header value none but TAB (so no CR or LF can get into a header); the
    version numbers stay in 16 bits. *)
Theorem parse_headers_wf `{ML : MultimapLaws, PE : PayloadEnv}
    (p : http_parser) (m : http_message) (ec : error_code) :
  head_wf p m -> let '(_, p', m', _) := parse_headers p m ec in head_wf p' m'.
Proof. apply parse_headers_wf'. Qed.

Lemma parse_headers_wf_witness :
  let p := set_read_buffer (bs "GET /a?b HTTP/1.1" ++ STRING_CRLF ++ bs "Na") (new_parser 0 0 10) in
  head_wf p new_message /\
  let '(_, p', m', _) := parse_headers p new_message no_error in head_wf p' m'.
Proof.
  intros p. assert (head_wf p new_message) as W.
  { destruct (new_parser_wf 0 0 10). constructor; assumption. }
  split; [exact W|]. apply (parse_headers_wf p new_message no_error W).
Defined.

(** C28: [parse_headers] accounts for every byte: what it consumed is a prefix
    of the read buffer and what follows is left unread.  Its result is false
    exactly when it stores an error code, and then nothing is counted although
    bytes were consumed: the count of the call, which [gcount] returns, is 0;
    otherwise the two counters grow by the bytes consumed, and a
    result of indeterminate means that the whole buffer was consumed. *)
Theorem parse_headers_account `{SU : StaticlibUtils, MP : MultimapPolicy, PE : PayloadEnv}
    (p : http_parser) (m : http_message) (ec : error_code) :
  let '(rc, p', _, ec') := parse_headers p m ec in
  exists used, m_read p = used ++ m_read p' /\
  match rc with
  | tfalse => (exists ev, ec' = set_error ev) /\ m_bytes_last_read p' = 0 /\
              m_bytes_total_read p' = m_bytes_total_read p
  | _ => ec' = ec /\ m_bytes_last_read p' = slen used /\
         m_bytes_total_read p' = m_bytes_total_read p +64 slen used /\
         (rc = indeterminate -> m_read p' = [])
  end.
Proof.
  unfold parse_headers. set (p0 := p <| m_bytes_last_read := 0 |>).
  pose proof (headers_loop_exit (m_read p) 0 p0 m) as X.
  pose proof (headers_loop_consumed (m_read p) 0 p0 m) as (used & U1 & U2).
  pose proof (headers_loop_counters (m_read p) 0 p0 m) as (_ & T & _ & L).
  set (hs := headers_loop (m_read p) 0 p0 m) in *. cbv zeta in X.
  rewrite Z.add_0_l in U2.
  destruct (hs_rc hs); [destruct X as [ev ->]|rewrite X|destruct X as [-> Xr]];
    exists used; (split; [exact U1|]).
  - split; [by exists ev|]. split; [exact L|exact T].
  - split; [done|]. split; [exact U2|]. split; [|done].
    change (m_bytes_total_read (hs_parser hs) +64 hs_read hs = m_bytes_total_read p +64 slen used).
    rewrite U2, T. reflexivity.
  - split; [done|]. split; [exact U2|]. split; [|intros _; exact Xr].
    change (m_bytes_total_read (hs_parser hs) +64 hs_read hs = m_bytes_total_read p +64 slen used).
    rewrite U2, T. reflexivity.
Qed.

(** The version is read modulo 2^16: for any digits, a request line with
    "HTTP/<digits>.<digits>" is accepted with the values of the digits
    modulo 65536 as its version, unless the major number is a multiple of
    65536, which the parser takes for HTTP/0.9. *)
Lemma version_modulo `{SU : StaticlibUtils, MP : MultimapPolicy, PE : PayloadEnv}
    (method resource query ds es rest : str) g1 g2 max ec :
  method_ok method -> resource_ok resource -> query_ok query ->
  ds <> [] -> es <> [] -> all_of is_digit ds -> all_of is_digit es ->
  wrap 16 (digits_value 0 ds) <> 0 ->
  let head := request_line method resource query ds es ++ STRING_CRLF ++ STRING_CRLF in
  exists p m,
    parse_headers (set_read_buffer (head ++ rest) (new_parser g1 g2 max)) new_message ec
    = (ttrue, p, m, ec) /\
    m_read p = rest /\
    m_version_major m = digits_value 0 ds mod 2 ^ 16 /\
    m_version_minor m = digits_value 0 es mod 2 ^ 16.
Proof.
  intros Hm Hr Hq Nd Ne Hd He V. destruct ds as [|d ds]; [done|]. destruct es as [|e es]; [done|].
  intros head.
  pose (p0 := (set_read_buffer (head ++ rest) (new_parser g1 g2 max)) <| m_bytes_last_read := 0 |>).
  destruct (loop_head method resource query d ds e es [] rest p0 new_message eq_refl eq_refl eq_refl
              Hm Hr Hq Hd He V (Forall_nil_2 _)) as (name & value & E).
  change (headers_loop (head ++ rest) 0 p0 new_message = 
    mk_headers_stop ttrue None rest (slen head)
      (p0 <| m_method := method |> <| m_resource := resource |> <| m_query_string := query |>
         <| m_header_name := name |> <| m_header_value := value |>
         <| m_headers_parse_state := PARSE_EXPECTING_FINAL_NEWLINE |>)
      ((set_version_minor (digits_value 0 (e :: es))
         (set_version_major (digits_value 0 (d :: ds)) new_message))
       <| m_headers := insert_all [] (m_headers new_message) |>)) in E.
  unfold parse_headers. change (m_read (set_read_buffer _ _)) with (head ++ rest).
  fold p0. rewrite E. eexists _, _. split; [reflexivity|]. split_and!; reflexivity.
Qed.

Lemma version_modulo_witness :
  exists p m,
    parse_headers
      (set_read_buffer
         ((request_line (bs "GET") (bs "/") [] (bs "65537") (bs "1") ++ STRING_CRLF ++ STRING_CRLF)
          ++ bs "x") (new_parser 0 0 10)) new_message no_error = (ttrue, p, m, no_error) /\
    m_version_major m = 1.
Proof.
  destruct (version_modulo (bs "GET") (bs "/") [] (bs "65537") (bs "1") (bs "x") 0 0 10 no_error)
    as (p & m & E & _ & V & _).
  - repeat split; [discriminate| |done]. apply all_of_forallb. vm_compute. reflexivity.
  - split; [|done]. apply all_of_forallb. vm_compute. reflexivity.
  - split; [|done]. constructor.
  - discriminate.
  - discriminate.
  - apply all_of_forallb. vm_compute. reflexivity.
  - apply all_of_forallb. vm_compute. reflexivity.
  - vm_compute. discriminate.
  - exists p, m. split; [exact E|]. rewrite V. vm_compute. reflexivity.
Defined.

(** A request line that ends after the resource is accepted, as HTTP/0.9,
    when the resource is directly followed by the line break, and rejected
    with ERROR_VERSION_CHAR when a space comes between them: case
    PARSE_HTTP_VERSION_H sets the state that expects the newline and then
    overwrites it with PARSE_HTTP_VERSION_T_1. *)
Lemma simple_request `{SU : StaticlibUtils, MP : MultimapPolicy, PE : PayloadEnv}
    (method resource rest : str) g1 g2 max ec :
  method_ok method -> resource_ok resource ->
  let parse_line line :=
    let '(rc, p, m, ec') :=
      parse_headers (set_read_buffer (line ++ rest) (new_parser g1 g2 max)) new_message ec in
    (rc, m_version_major m, ec') in
  parse_line (method ++ bs " " ++ resource ++ STRING_CRLF) = (ttrue, 0, ec) /\
  parse_line (method ++ bs " " ++ resource ++ bs " " ++ STRING_CRLF)
  = (tfalse, 0, set_error ERROR_VERSION_CHAR).
Proof.
  intros Hm Hr parse_line. subst parse_line. cbv beta. unfold parse_headers.
  split; (set (buf := m_read _); set (p0 := _ <| m_bytes_last_read := 0 |>)).
  - assert (headers_loop buf 0 p0 new_message =
            mk_headers_stop ttrue None rest (slen method + slen resource + 1 + 2)
              (p0 <| m_method := method |> <| m_resource := resource |>
                  <| m_headers_parse_state := PARSE_EXPECTING_NEWLINE |>)
              (version_0_0 new_message)) as ->; [|reflexivity].
    subst buf. cbn [m_read set_read_buffer set_field]. rewrite <- !app_assoc.
    rewrite loop_method_resource by done.
    rewrite loop_stem_newline by done. reflexivity.
  - assert (headers_loop buf 0 p0 new_message =
            mk_headers_stop tfalse (Some ERROR_VERSION_CHAR) (LF :: rest)
              (slen method + slen resource + 1 + 2)
              (p0 <| m_method := method |> <| m_resource := resource |>
                  <| m_headers_parse_state := PARSE_HTTP_VERSION_T_1 |>)
              (version_0_0 new_message)) as ->; [|reflexivity].
    subst buf. cbn [m_read set_read_buffer set_field]. rewrite <- !app_assoc.
    rewrite loop_method_resource by done.
    rewrite loop_stem_space_newline by done. reflexivity.
Qed.

Lemma simple_request_witness :
  let parse_line line :=
    let '(rc, p, m, ec') :=
      parse_headers (set_read_buffer (line ++ bs "x") (new_parser 0 0 10)) new_message no_error in
    (rc, m_version_major m, ec') in
  parse_line (bs "GET" ++ bs " " ++ bs "/" ++ STRING_CRLF) = (ttrue, 0, no_error) /\
  parse_line (bs "GET" ++ bs " " ++ bs "/" ++ bs " " ++ STRING_CRLF)
  = (tfalse, 0, set_error ERROR_VERSION_CHAR).
Proof.
  apply (simple_request (bs "GET") (bs "/") (bs "x") 0 0 10 no_error).
  - repeat split; [discriminate| |done]. apply all_of_forallb. vm_compute. reflexivity.
  - split; [|done]. apply all_of_forallb. vm_compute. reflexivity.
Defined.
