(* ===== verification/FormTheorems.v ===== *)
(** * Reading back printed forms and cookies

    What [make_query_string] prints, [parse_url_encoded] reads; what
    [make_set_cookie_header] prints, [parse_cookie_header] reads. *)

From S2P Require Import Prelude.
From S2P Require Import Externals.
From S2P Require Import Algorithm.
From S2P Require Import Multimap.
From S2P Require Import Strings.
From S2P Require Import Message.
From S2P Require Import FormParsers.
From S2P Require Import RefUtils.
From S2P Require Import HeaderProofs.
From S2P Require Import HeaderRoundTrip.

(** ** url-encoded forms *)

(** a character that the form parser takes as it is *)
Definition is_form_char (c : char) : bool :=
  (c !=c "=") && (c !=c "&") && (c !=c ",") && negb (ch_is_control c).

Lemma form_char_step c : is_form_char c = true ->
  (c ==c "=") = false /\ (c ==c "&") = false /\ (c ==c ",") = false /\
  (Ascii.eqb c CR || Ascii.eqb c LF || Ascii.eqb c TAB) = false /\ ch_is_control c = false.
Proof.
  unfold is_form_char. intros H. chars.
  split_and!; try (by apply Ascii.eqb_neq); [|done].
  by rewrite !(control_neq c) by done.
Qed.

Lemma url_safe_form c : url_safe c = true -> is_form_char c = true.
Proof.
  assert (forall c, negb (url_safe c) || is_form_char c = true) as E.
  { apply all_chars. vm_compute. reflexivity. }
  specialize (E c). intros H. by rewrite H in E.
Qed.

(** a pair whose encoding is within the limits *)
Definition encodable `{StaticlibUtils} (kv : str * str) : Prop :=
  kv.1 <> [] /\ slen (url_encode kv.1) <= QUERY_NAME_MAX /\
  slen (url_encode kv.2) <= QUERY_VALUE_MAX.

Section Query.
Context `{SU : StaticlibUtils, MP : MultimapPolicy}.

Lemma query_loop_name s buf q :
  q_parse_state q = QUERY_PARSE_NAME -> all_of is_form_char s ->
  slen (query_name q) + slen s <= QUERY_NAME_MAX ->
  query_loop (s ++ buf) q = query_loop buf (q <| query_name := query_name q ++ s |>).
Proof.
  intros St H. revert q St. induction H as [|c s Hc _ IH]; intros q St L.
  - cbn [app]. rewrite app_nil_r. by destruct q.
  - rewrite slen_cons in L. pose proof (slen_nonneg s). cbn [app query_loop].
    apply form_char_step in Hc as (H1 & H2 & _ & H3 & H4).
    unfold query_step at 1. rewrite St, H1, H2, H3, H4. cbn [orb].
    destruct (Z.geb_spec (slen (query_name q)) QUERY_NAME_MAX); [lia|].
    rewrite IH; [|exact St|cbn; rewrite slen_snoc; lia].
    cbn. by rewrite <- app_assoc.
Qed.

Lemma query_loop_value s buf q :
  q_parse_state q = QUERY_PARSE_VALUE -> all_of is_form_char s ->
  slen (query_value q) + slen s <= QUERY_VALUE_MAX ->
  query_loop (s ++ buf) q = query_loop buf (q <| query_value := query_value q ++ s |>).
Proof.
  intros St H. revert q St. induction H as [|c s Hc _ IH]; intros q St L.
  - cbn [app]. rewrite app_nil_r. by destruct q.
  - rewrite slen_cons in L. pose proof (slen_nonneg s). cbn [app query_loop].
    apply form_char_step in Hc as (_ & H2 & H3 & H4 & H5).
    unfold query_step at 1. rewrite St, H2, H3, H4, H5. cbn [orb].
    destruct (Z.geb_spec (slen (query_value q)) QUERY_VALUE_MAX); [lia|].
    rewrite IH; [|exact St|cbn; rewrite slen_snoc; lia].
    cbn. by rewrite <- app_assoc.
Qed.

Lemma query_loop_equals buf q :
  q_parse_state q = QUERY_PARSE_NAME ->
  query_loop (bs "=" ++ buf) q = query_loop buf (q <| q_parse_state := QUERY_PARSE_VALUE |>).
Proof. intros St. cbn. unfold query_step. by rewrite St. Qed.

Lemma query_loop_and buf n v d :
  n <> [] ->
  query_loop (bs "&" ++ buf) (mk_query_state QUERY_PARSE_VALUE n v d) =
  query_loop buf (mk_query_state QUERY_PARSE_NAME [] []
                    (mm_insert (url_decode n, url_decode v) d)).
Proof. intros N. cbn. by rewrite bool_decide_eq_false_2. Qed.

Context {UL : UrlCodecLaw}.

Lemma encoded_form s : all_of is_form_char (url_encode s).
Proof. eapply Forall_impl; [apply url_safe_form|apply url_encode_safe]. Qed.

(** one printed pair *)
Lemma query_loop_pair kv buf d :
  encodable kv ->
  query_loop (url_encode kv.1 ++ bs "=" ++ url_encode kv.2 ++ buf)
    (mk_query_state QUERY_PARSE_NAME [] [] d) =
  query_loop buf (mk_query_state QUERY_PARSE_VALUE (url_encode kv.1) (url_encode kv.2) d).
Proof.
  intros (N & L1 & L2).
  rewrite query_loop_name; [|done|apply encoded_form|exact L1].
  rewrite query_loop_equals by done.
  rewrite query_loop_value; [|done|apply encoded_form|exact L2].
  reflexivity.
Qed.

(** the pairs after the first *)
Definition more_pairs (kvs : mmap) : str :=
  concat (map (fun kv => bs "&" ++ url_encode kv.1 ++ bs "=" ++ url_encode kv.2) kvs).

Lemma query_loop_more kvs kv d :
  encodable kv -> Forall encodable kvs ->
  query_loop (more_pairs kvs)
    (mk_query_state QUERY_PARSE_VALUE (url_encode kv.1) (url_encode kv.2) d) =
  (true, insert_all (kv :: kvs) d).
Proof.
  intros H Hs. revert kv d H. induction Hs as [|kv' kvs H' _ IH]; intros kv d (N & L1 & L2).
  - cbn [more_pairs map concat query_loop query_name].
    rewrite bool_decide_eq_false_2 by (by apply url_encode_nonempty).
    unfold insert_query. cbn. rewrite !url_decode_encode. by destruct kv.
  - change (more_pairs (kv' :: kvs)) with
      ((bs "&" ++ url_encode kv'.1 ++ bs "=" ++ url_encode kv'.2) ++ more_pairs kvs).
    rewrite <- !app_assoc, query_loop_and by (by apply url_encode_nonempty).
    rewrite !url_decode_encode.
    rewrite query_loop_pair by done. rewrite IH by done. by destruct kv.
Qed.

End Query.

(** C29: What [make_query_string] prints, [parse_url_encoded] reads back: for
    pairs with non-empty names whose encodings are within the limits, parsing
    the printed query string succeeds and inserts exactly these pairs, in
    order, into the dictionary. *)
Theorem query_roundtrip `{SU : StaticlibUtils, MP : MultimapPolicy, UL : !UrlCodecLaw}
    (kvs dict : mmap) :
  Forall encodable kvs ->
  parse_url_encoded dict (make_query_string kvs) = (true, insert_all kvs dict).
Proof.
  intros H. destruct H as [|kv kvs Hkv Hs]; [done|].
  change (make_query_string (kv :: kvs)) with
    (url_encode kv.1 ++ bs "=" ++ url_encode kv.2 ++ more_pairs kvs).
  unfold parse_url_encoded. destruct (Z.eqb_spec (slen (url_encode kv.1 ++ bs "=" ++
    url_encode kv.2 ++ more_pairs kvs)) 0) as [E|_].
  { exfalso. apply slen_zero, app_eq_nil in E as [E _].
    destruct Hkv as (N & _). by apply url_encode_nonempty in N. }
  rewrite query_loop_pair by done. by apply query_loop_more.
Qed.

Lemma query_roundtrip_witness :
  Forall encodable [(bs "a b", bs "1&2"); (bs "c", [])] /\
  parse_url_encoded [] (make_query_string [(bs "a b", bs "1&2"); (bs "c", [])])
  = (true, [(bs "a b", bs "1&2"); (bs "c", [])]).
Proof.
  assert (Forall encodable [(bs "a b", bs "1&2"); (bs "c", [])]) as H.
  { repeat constructor; discriminate. }
  split; [exact H|].
  exact (query_roundtrip [(bs "a b", bs "1&2"); (bs "c", [])] [] H).
Defined.

(** ** Cookies *)

(** a character that stands for itself in a cookie's name, and one that does
    so in an unquoted value *)
Definition is_cookie_name_char (c : char) : bool :=
  (c !=c "=") && (c !=c ";") && (c !=c ",") && (c !=c " ") && negb (ch_is_control c).

Definition is_plain_char (c : char) : bool :=
  (c !=c ";") && (c !=c ",") && negb (Ascii.eqb c SQUOTE) && negb (Ascii.eqb c DQUOTE)
  && negb (ch_is_control c).

Definition not_dquote (c : char) : bool := negb (Ascii.eqb c DQUOTE).

Section Cookie.
Context `{SU : StaticlibUtils, MP : MultimapPolicy}.

Lemma cookie_loop_name sc s buf q :
  c_parse_state q = COOKIE_PARSE_NAME -> all_of is_cookie_name_char s ->
  slen (cookie_name q) + slen s <= COOKIE_NAME_MAX ->
  cookie_loop sc (s ++ buf) q = cookie_loop sc buf (q <| cookie_name := cookie_name q ++ s |>).
Proof.
  intros St H. revert q St. induction H as [|c s Hc _ IH]; intros q St L.
  - cbn [app]. rewrite app_nil_r. by destruct q.
  - rewrite slen_cons in L. pose proof (slen_nonneg s). cbn [app cookie_loop].
    unfold is_cookie_name_char in Hc. unfold cookie_step at 1. rewrite St.
    destruct (c ==c "="), (c ==c ";"), (c ==c ","), (c ==c " "), (ch_is_control c); try done.
    cbn [orb negb]. destruct (Z.geb_spec (slen (cookie_name q)) COOKIE_NAME_MAX); [lia|].
    rewrite IH; [|exact St|cbn; rewrite slen_snoc; lia].
    cbn. by rewrite <- app_assoc.
Qed.

Lemma cookie_loop_quoted sc s buf q :
  c_parse_state q = COOKIE_PARSE_VALUE -> value_quote_character q = DQUOTE ->
  all_of not_dquote s -> slen (cookie_value q) + slen s <= COOKIE_VALUE_MAX ->
  cookie_loop sc (s ++ buf) q = cookie_loop sc buf (q <| cookie_value := cookie_value q ++ s |>).
Proof.
  intros St Q H. revert q St Q. induction H as [|c s Hc _ IH]; intros q St Q L.
  - cbn [app]. rewrite app_nil_r. by destruct q.
  - rewrite slen_cons in L. pose proof (slen_nonneg s). cbn [app cookie_loop].
    unfold not_dquote in Hc. unfold cookie_step at 1. rewrite St, Q.
    replace (Ascii.eqb DQUOTE NUL) with false by done.
    destruct (Ascii.eqb c DQUOTE); [done|].
    destruct (Z.geb_spec (slen (cookie_value q)) COOKIE_VALUE_MAX); [lia|].
    rewrite IH; [|exact St|exact Q|cbn; rewrite slen_snoc; lia].
    cbn. by rewrite <- app_assoc.
Qed.

(** an unquoted value; its leading spaces are dropped *)
Lemma cookie_loop_plain sc s buf q :
  c_parse_state q = COOKIE_PARSE_VALUE -> value_quote_character q = NUL ->
  all_of is_plain_char s -> slen (cookie_value q) + slen s <= COOKIE_VALUE_MAX ->
  exists v, cookie_loop sc (s ++ buf) q = cookie_loop sc buf (q <| cookie_value := v |>).
Proof.
  intros St Q H. revert q St Q. induction H as [|c s Hc _ IH]; intros q St Q L.
  - exists (cookie_value q). by destruct q.
  - rewrite slen_cons in L. pose proof (slen_nonneg s). cbn [app cookie_loop].
    unfold is_plain_char in Hc. unfold cookie_step at 1. rewrite St, Q.
    replace (Ascii.eqb NUL NUL) with true by done.
    destruct (c ==c ";"), (c ==c ","), (Ascii.eqb c SQUOTE), (Ascii.eqb c DQUOTE),
      (ch_is_control c); try done. cbn [orb].
    destruct (Z.geb_spec (slen (cookie_value q)) COOKIE_VALUE_MAX); [lia|].
    set (q1 := q <| cookie_value := cookie_value q ++ [c] |>).
    destruct ((c !=c " ") || _).
    + destruct (IH q1 St Q) as [v E]; [subst q1; cbn; rewrite slen_snoc; lia|].
      exists v. exact E.
    + destruct (IH q St Q) as [v E]; [lia|]. exists v. exact E.
Qed.

(** "; name=value" after a cookie or another attribute *)
Definition attribute (name value : str) : str := bs "; " ++ name ++ bs "=" ++ value.

(** nothing is pending but an attribute *)
Definition attribute_pending (q : cookie_state) : Prop :=
  cookie_value q = [] /\ c_parse_state q = COOKIE_PARSE_IGNORE /\ cookie_name q = [] \/
  c_parse_state q = COOKIE_PARSE_VALUE /\ value_quote_character q = NUL /\
  is_cookie_attribute (cookie_name q) true = true.

Lemma attribute_pending_insert q :
  attribute_pending q -> insert_cookie true q = q.
Proof.
  unfold insert_cookie. intros [(_ & _ & ->)|(_ & _ & ->)]; reflexivity.
Qed.

Lemma cookie_loop_attribute name value buf q :
  attribute_pending q -> is_cookie_attribute name true = true ->
  all_of is_cookie_name_char name -> slen name <= COOKIE_NAME_MAX ->
  all_of is_plain_char value -> slen value <= COOKIE_VALUE_MAX ->
  exists q', cookie_loop true (attribute name value ++ buf) q = cookie_loop true buf q' /\
    attribute_pending q' /\ c_dict q' = c_dict q.
Proof.
  intros P A N NL V VL. unfold attribute. rewrite <- !app_assoc.
  pose proof (attribute_pending_insert q P) as Ins.
  assert (exists q1, cookie_loop true (bs "; " ++ name ++ bs "=" ++ value ++ buf) q =
                     cookie_loop true (name ++ bs "=" ++ value ++ buf) q1 /\
            c_parse_state q1 = COOKIE_PARSE_NAME /\ cookie_name q1 = [] /\ cookie_value q1 = [] /\
            c_dict q1 = c_dict q) as (q1 & -> & St1 & N1 & V1 & D1).
  { destruct P as [(V0 & St & N0)|(St & Q & _)].
    - exists (q <| c_parse_state := COOKIE_PARSE_NAME |>).
      cbn [bs String.list_ascii_of_string app cookie_loop]. unfold cookie_step at 1. rewrite St.
      by split_and!.
    - exists (q <| cookie_name := [] |> <| cookie_value := [] |>
                <| c_parse_state := COOKIE_PARSE_NAME |>).
      cbn [bs String.list_ascii_of_string app cookie_loop]. unfold cookie_step at 1. rewrite St, Q.
      rewrite Ins. by split_and!. }
  rewrite cookie_loop_name by (try done; by rewrite N1).
  rewrite N1. cbn [app bs String.list_ascii_of_string cookie_loop].
  unfold cookie_step at 1. cbn [c_parse_state set_field]. rewrite St1. cbn [Ascii.eqb Bool.eqb].
  set (q2 := _ <| c_parse_state := COOKIE_PARSE_VALUE |>).
  destruct (cookie_loop_plain true value buf q2 eq_refl eq_refl V) as [v E].
  { subst q2. cbn. by rewrite V1. }
  exists (q2 <| cookie_value := v |>). split; [exact E|]. split; [|exact D1].
  right. by split_and!.
Qed.

End Cookie.

(** a digit stands for itself in an unquoted value *)
Lemma digit_plain c : 48 <= int_of_char c <= 57 -> is_plain_char c = true.
Proof.
  assert (forall c, negb ((48 <=? int_of_char c) && (int_of_char c <=? 57)) || is_plain_char c = true)
    as E by (apply all_chars; vm_compute; reflexivity).
  intros H. specialize (E c). apply orb_true_iff in E as [E|E]; [lia|done].
Qed.

Lemma cookie_attribute_names `{SU : StaticlibUtils, IL : !IequalsLaw} :
  is_cookie_attribute (bs "Version") true = true /\ is_cookie_attribute (bs "Path") true = true /\
  is_cookie_attribute (bs "Max-Age") true = true.
Proof.
  unfold is_cookie_attribute. cbn [bs String.list_ascii_of_string].
  rewrite !iequals_refl, ?orb_true_r. done.
Qed.

(** [name="value"] up to the closing quote *)
Lemma cookie_loop_pair `{SU : StaticlibUtils, MP : MultimapPolicy} name value buf dict :
  is_cookie_attribute name true = false ->
  all_of is_cookie_name_char name -> slen name <= COOKIE_NAME_MAX ->
  all_of not_dquote value -> slen value <= COOKIE_VALUE_MAX ->
  cookie_loop true (name ++ bs "=" ++ [DQUOTE] ++ value ++ [DQUOTE] ++ buf)
    (mk_cookie_state COOKIE_PARSE_NAME [] [] NUL dict) =
  cookie_loop true buf
    (mk_cookie_state COOKIE_PARSE_IGNORE [] [] DQUOTE (mm_insert (name, value) dict)).
Proof.
  intros A N NL V VL. rewrite cookie_loop_name by done.
  change (cookie_loop true (bs "=" ++ [DQUOTE] ++ value ++ [DQUOTE] ++ buf)
            (mk_cookie_state COOKIE_PARSE_NAME name [] NUL dict) =
          cookie_loop true buf
            (mk_cookie_state COOKIE_PARSE_IGNORE [] [] DQUOTE (mm_insert (name, value) dict))).
  change (cookie_loop true (bs "=" ++ [DQUOTE] ++ value ++ [DQUOTE] ++ buf) _) with
    (cookie_loop true (value ++ [DQUOTE] ++ buf)
       (mk_cookie_state COOKIE_PARSE_VALUE name [] DQUOTE dict)).
  rewrite (cookie_loop_quoted true value) by done.
  cbn [app cookie_loop]. unfold cookie_step at 1. cbn.
  unfold insert_cookie. cbn. by rewrite A.
Qed.

Definition optional_attribute (present : bool) (name value : str) : str :=
  if present then attribute name value else [].

Lemma cookie_loop_optional `{SU : StaticlibUtils, MP : MultimapPolicy} present name value buf q :
  attribute_pending q -> is_cookie_attribute name true = true ->
  all_of is_cookie_name_char name -> slen name <= COOKIE_NAME_MAX ->
  all_of is_plain_char value -> slen value <= COOKIE_VALUE_MAX ->
  exists q', cookie_loop true (optional_attribute present name value ++ buf) q =
             cookie_loop true buf q' /\ attribute_pending q' /\ c_dict q' = c_dict q.
Proof.
  destruct present; intros; [by apply cookie_loop_attribute|]. by exists q.
Qed.

Lemma set_cookie_header_split `{SU : StaticlibUtils} name value path has_max_age max_age :
  make_set_cookie_header name value path has_max_age max_age =
  name ++ bs "=" ++ [DQUOTE] ++ value ++ [DQUOTE] ++ attribute (bs "Version") (bs "1")
  ++ optional_attribute (negb (bool_decide (path = []))) (bs "Path") path
  ++ optional_attribute has_max_age (bs "Max-Age") (to_string max_age) ++ [].
Proof.
  unfold make_set_cookie_header, optional_attribute.
  do 2 f_equal. destruct (bool_decide (path = [])), has_max_age; by rewrite ?app_nil_r.
Qed.

(** C30: The Set-Cookie header that [make_set_cookie_header] prints, for a name
    that is not the name of an attribute, a value without double quotes and a
    path of plain characters, within the limits, is read back by
    [parse_cookie_header]: parsing succeeds and inserts the cookie with exactly
    this name and value, and none of the attributes. *)
Theorem set_cookie_roundtrip
    `{SU : StaticlibUtils, MP : MultimapPolicy, IL : !IequalsLaw, DL : !DecimalLaw}
    (name value path : str) (has_max_age : bool) (max_age : Z) (dict : mmap) :
  name <> [] -> is_cookie_attribute name true = false ->
  all_of is_cookie_name_char name -> slen name <= COOKIE_NAME_MAX ->
  all_of not_dquote value -> slen value <= COOKIE_VALUE_MAX ->
  all_of is_plain_char path -> slen path <= COOKIE_VALUE_MAX ->
  0 <= max_age -> slen (to_string max_age) <= COOKIE_VALUE_MAX ->
  parse_cookie_header dict (make_set_cookie_header name value path has_max_age max_age) true
  = (true, mm_insert (name, value) dict).
Proof.
  intros NE A N NL V VL P PL M0 ML. destruct cookie_attribute_names as (Av & Ap & Am).
  unfold parse_cookie_header. rewrite set_cookie_header_split, cookie_loop_pair by done.
  set (q0 := mk_cookie_state COOKIE_PARSE_IGNORE [] [] DQUOTE (mm_insert (name, value) dict)).
  assert (attribute_pending q0) as P0 by (by left).
  destruct (cookie_loop_attribute (bs "Version") (bs "1")
    (optional_attribute (negb (bool_decide (path = []))) (bs "Path") path
     ++ optional_attribute has_max_age (bs "Max-Age") (to_string max_age) ++ []) q0 P0 Av)
    as (q1 & E1 & P1 & D1); try (apply all_of_forallb; vm_compute; reflexivity); try done.
  destruct (cookie_loop_optional (negb (bool_decide (path = []))) (bs "Path") path
    (optional_attribute has_max_age (bs "Max-Age") (to_string max_age) ++ []) q1 P1 Ap)
    as (q2 & E2 & P2 & D2); try (apply all_of_forallb; vm_compute; reflexivity); try done.
  destruct (cookie_loop_optional has_max_age (bs "Max-Age") (to_string max_age) [] q2 P2 Am)
    as (q3 & E3 & P3 & D3); try (apply all_of_forallb; vm_compute; reflexivity); try done.
  { unfold all_of. eapply Forall_impl, to_string_digits; [apply digit_plain|done]. }
  rewrite E1, E2, E3. cbn [cookie_loop]. rewrite attribute_pending_insert by done.
  by rewrite D3, D2, D1.
Qed.

Lemma set_cookie_roundtrip_witness :
  is_cookie_attribute (bs "sid") true = false /\
  parse_cookie_header [] (make_set_cookie_header (bs "sid") (bs "a;b") (bs "/x") true 60) true
  = (true, [(bs "sid", bs "a;b")]).
Proof.
  split; [vm_compute; reflexivity|].
  refine (eq_trans (set_cookie_roundtrip (bs "sid") (bs "a;b") (bs "/x") true 60 [] _ _ _ _ _ _ _ _ _ _) eq_refl);
    try (apply all_of_forallb; vm_compute; reflexivity); vm_compute; (reflexivity || discriminate).
Defined.
