(* ===== verification/BodyProofs.v ===== *)
(** * Properties of the payload parsers

    The chunk parser and the two content consumers: what they consume, their
    independence of how the input is cut into buffers, and the bounds within
    which they write. *)

From S2P Require Import Prelude.
From S2P Require Import Externals.
From S2P Require Import Multimap.
From S2P Require Import Strings.
From S2P Require Import Message.
From S2P Require Import Request.
From S2P Require Import ParserState.
From S2P Require Import HeaderParser.
From S2P Require Import BodyParser.
From S2P Require Import RefUtils.
From S2P Require Import HeaderProofs.

(** A payload handler that treats its input as a stream: two calls in a row do
    what one call on the concatenation does, and if the first throws, then so
    does the one call. *)
Class StreamHandler `{PE : PayloadEnv} (h : handler) : Prop :=
  run_app a b w :
    run_handler h (a ++ b) w =
    match run_handler h a w with (None, w') => run_handler h b w' | thrown => thrown end.

Section Definitions.
Context `{PE : PayloadEnv}.

Definition stream_parser (p : http_parser) : Prop :=
  match m_payload_handler p with Some h => StreamHandler h | None => True end.

(** the chunk counters are in the range of their type *)
Definition chunk_wf (p : http_parser) : Prop :=
  0 <= m_size_of_current_chunk p < 2 ^ 64 /\ 0 <= m_bytes_read_in_current_chunk p < 2 ^ 64.

Definition cmap (f : http_parser -> http_parser) (r : chunk_result) : chunk_result :=
  match r with
  | CBreak n p ch w => CBreak n (f p) ch w
  | CTrue a p ch w => CTrue a (f p) ch w
  | CFalse ev p ch w => CFalse ev (f p) ch w
  | CStop r p ch w => CStop r (f p) ch w
  end.

Definition cs_map (f : http_parser -> http_parser) (cs : chunks_stop) : chunks_stop :=
  mk_chunks_stop (cs_rc cs) (cs_error cs) (cs_rest cs) (cs_read cs) (f (cs_parser cs))
    (cs_chunks cs) (cs_world cs).

Definition cresult_parser (r : chunk_result) : http_parser :=
  match r with CBreak _ p _ _ | CTrue _ p _ _ | CFalse _ p _ _ | CStop _ p _ _ => p end.

(** after [len] bytes of a chunk *)
Definition chunk_advance (len : Z) (p : http_parser) : http_parser :=
  let p := p <| m_bytes_read_in_current_chunk := m_bytes_read_in_current_chunk p +64 len |> in
  if m_bytes_read_in_current_chunk p =? m_size_of_current_chunk p
  then p <| m_chunked_content_parse_state := PARSE_EXPECTING_CR_AFTER_CHUNK |> else p.

End Definitions.

Ltac unfold_chunk_step :=
  unfold chunk_step, step_chunk_size_start, step_chunk_size, step_ignored_text,
    step_cr_after_chunk_size, step_lf_after_chunk_size, step_chunk, end_of_chunk,
    step_cr_after_chunk, step_lf_after_chunk, step_final_cr_or_footers, step_final_lf, cgoto in *.

(** ** [strtol] *)

Lemma hex_value_range c : is_hex_digit c = true -> 0 <= hex_value c < 16.
Proof. unfold is_hex_digit, hex_value. intros H. repeat case_match; lia. Qed.

Lemma strtol16_loop_nonneg acc s : 0 <= acc -> 0 <= strtol16_loop acc s.
Proof.
  revert acc. induction s as [|c s IH]; intros acc H; cbn; [done|].
  case_match eqn:E; [|done]. apply IH. apply hex_value_range in E. lia.
Qed.

Lemma strtol16_range s : 0 <= strtol16 s < 2 ^ 64.
Proof.
  unfold strtol16, LONG_MAX. pose proof (strtol16_loop_nonneg 0 s ltac:(done)). lia.
Qed.

Section Chunks.
Context `{PE : PayloadEnv}.

Lemma chunk_step_frame x l t k c buf p ch w :
  chunk_step c buf (frame x l t k p) ch w = cmap (frame x l t k) (chunk_step c buf p ch w).
Proof.
  unfold_chunk_step. cbn. destruct (m_chunked_content_parse_state p);
    repeat (case_match; cbn); reflexivity.
Qed.

Lemma chunks_loop_frame x l t k buf n p ch w :
  chunks_loop buf n (frame x l t k p) ch w = cs_map (frame x l t k) (chunks_loop buf n p ch w).
Proof.
  remember (length buf) as len eqn:Hl. revert buf Hl n p ch w.
  induction len as [len IH] using lt_wf_ind; intros [|c buf] -> n p ch w; [done|].
  cbn [chunks_loop]. rewrite chunk_step_frame.
  destruct (chunk_step c (c :: buf) p ch w) as [sk p1 ch1 w1|[] p1 ch1 w1|? ? ? ?|? ? ? ?];
    try done. cbn [cmap].
  eapply IH; [|reflexivity]. rewrite dropl_drop, length_drop. cbn. lia.
Qed.

Lemma chunk_step_wf c buf p ch w :
  chunk_wf p -> chunk_wf (cresult_parser (chunk_step c buf p ch w)).
Proof.
  intros [Hs Hr]. pose proof (strtol16_range (m_chunk_size_str p)).
  unfold chunk_wf, chunk_step.
  destruct (m_chunked_content_parse_state p) eqn:St; unfold_chunk_step;
    repeat (case_match; cbn); auto using add64_range with lia.
Qed.

Lemma chunk_step_handler c buf p ch w :
  m_payload_handler (cresult_parser (chunk_step c buf p ch w)) = m_payload_handler p.
Proof.
  unfold_chunk_step. destruct (m_chunked_content_parse_state p) eqn:St;
    repeat (case_match; cbn); reflexivity || congruence.
Qed.

(** a payload handler gets the rest of the chunk, or of the buffer, at once *)
Lemma chunks_loop_chunk h buf n p ch w w' :
  chunk_wf p -> m_payload_handler p = Some h ->
  m_chunked_content_parse_state p = PARSE_CHUNK ->
  m_bytes_read_in_current_chunk p < m_size_of_current_chunk p -> buf <> [] ->
  let len := Z.min (m_size_of_current_chunk p - m_bytes_read_in_current_chunk p) (slen buf) in
  run_handler h (take (Z.to_nat len) buf) w = (None, w') ->
  chunks_loop buf n p ch w =
  chunks_loop (drop (Z.to_nat len) buf) (n + len) (chunk_advance len p) ch w'.
Proof.
  intros [Hs Hr] Hh St Lt NE len Hrun. destruct buf as [|c buf]; [done|].
  pose proof (slen_nonneg buf). assert (slen (c :: buf) = slen buf + 1) as L by apply slen_cons.
  cbn [chunks_loop]. unfold chunk_step, step_chunk. rewrite St, Hh.
  destruct (Z.ltb_spec (m_bytes_read_in_current_chunk p) (m_size_of_current_chunk p)); [|lia].
  rewrite sub64_small by lia. cbv zeta.
  replace (if m_size_of_current_chunk p - m_bytes_read_in_current_chunk p >? slen (c :: buf)
           then slen (c :: buf)
           else m_size_of_current_chunk p - m_bytes_read_in_current_chunk p) with len
    by (subst len; case_match; lia).
  rewrite Hrun. unfold end_of_chunk. cbn -[Z.add dropl take drop].
  rewrite dropl_drop. unfold chunk_advance.
  assert (1 <= len) by lia.
  replace (if len >? 1 then Z.to_nat (len - 1) else 0%nat) with (Z.to_nat (len - 1))
    by (case_match; lia).
  replace (drop (Z.to_nat len) (c :: buf)) with (drop (Z.to_nat (len - 1)) buf).
  2:{ replace (Z.to_nat len) with (S (Z.to_nat (len - 1))) by lia. done. }
  f_equal. lia.
Qed.

Lemma chunks_loop_throws h buf n p ch w e w' :
  chunk_wf p -> m_payload_handler p = Some h ->
  m_chunked_content_parse_state p = PARSE_CHUNK ->
  m_bytes_read_in_current_chunk p < m_size_of_current_chunk p -> buf <> [] ->
  let len := Z.min (m_size_of_current_chunk p - m_bytes_read_in_current_chunk p) (slen buf) in
  run_handler h (take (Z.to_nat len) buf) w = (Some e, w') ->
  chunks_loop buf n p ch w = mk_chunks_stop (Exn e) None buf n p ch w'.
Proof.
  intros [Hs Hr] Hh St Lt NE len Hrun. destruct buf as [|c buf]; [done|].
  cbn [chunks_loop]. unfold chunk_step, step_chunk. rewrite St, Hh.
  destruct (Z.ltb_spec (m_bytes_read_in_current_chunk p) (m_size_of_current_chunk p)); [|lia].
  rewrite sub64_small by lia. cbv zeta.
  replace (if m_size_of_current_chunk p - m_bytes_read_in_current_chunk p >? slen (c :: buf)
           then slen (c :: buf)
           else m_size_of_current_chunk p - m_bytes_read_in_current_chunk p) with len
    by (subst len; case_match; lia).
  by rewrite Hrun.
Qed.

(** the other states look at one byte at a time *)
Lemma chunk_step_local c b b' p ch w :
  m_chunked_content_parse_state p <> PARSE_CHUNK \/ m_payload_handler p = None \/
  m_size_of_current_chunk p <= m_bytes_read_in_current_chunk p ->
  chunk_step c b p ch w = chunk_step c b' p ch w /\
  match chunk_step c b p ch w with CBreak sk _ _ _ => sk = O | CStop _ _ _ _ => False | _ => True end.
Proof.
  intros H. unfold chunk_step.
  destruct (m_chunked_content_parse_state p) eqn:St; unfold_chunk_step;
    try (split; [done|]; repeat (case_match; simplify_eq/=); done; fail).
  destruct H as [H|[H|H]]; [done| |].
  - rewrite H. split; [done|]. repeat (case_match; simplify_eq/=); done.
  - destruct (Z.ltb_spec (m_bytes_read_in_current_chunk p) (m_size_of_current_chunk p)); [lia|].
    split; [done|]. repeat (case_match; simplify_eq/=); done.
Qed.

Lemma chunk_mode p :
  (m_chunked_content_parse_state p <> PARSE_CHUNK \/ m_payload_handler p = None \/
   m_size_of_current_chunk p <= m_bytes_read_in_current_chunk p) \/
  exists h, m_chunked_content_parse_state p = PARSE_CHUNK /\
            m_bytes_read_in_current_chunk p < m_size_of_current_chunk p /\
            m_payload_handler p = Some h.
Proof.
  destruct (decide (m_chunked_content_parse_state p = PARSE_CHUNK)); [|auto].
  destruct (Z.lt_ge_cases (m_bytes_read_in_current_chunk p) (m_size_of_current_chunk p)); [|auto].
  destruct (m_payload_handler p) as [h|]; [|auto]. right. by exists h.
Qed.

Lemma chunk_advance_advance a b p :
  0 <= a -> 0 <= b -> chunk_wf p ->
  m_bytes_read_in_current_chunk p + a < m_size_of_current_chunk p ->
  chunk_advance b (chunk_advance a p) = chunk_advance (a + b) p.
Proof.
  intros Ha Hb [Hs Hr] Lt. unfold chunk_advance. cbn -[Z.add].
  rewrite (add64_small _ a) by lia.
  destruct (Z.eqb_spec (m_bytes_read_in_current_chunk p + a) (m_size_of_current_chunk p)); [lia|].
  cbn -[Z.add]. replace (m_bytes_read_in_current_chunk p + a +64 b)
    with (m_bytes_read_in_current_chunk p +64 (a + b)); [done|].
  unfold add64. f_equal. lia.
Qed.

Lemma chunk_advance_wf a p : chunk_wf p -> chunk_wf (chunk_advance a p).
Proof.
  intros [Hs Hr]. pose proof (add64_range (m_bytes_read_in_current_chunk p) a).
  unfold chunk_advance. cbn -[Z.pow add64]. destruct (_ =? _); by split.
Qed.

Lemma chunk_advance_stream a p : stream_parser p -> stream_parser (chunk_advance a p).
Proof. unfold chunk_advance, stream_parser. cbn. by destruct (_ =? _). Qed.

Definition cs_append (b : str) (cs : chunks_stop) : chunks_stop :=
  mk_chunks_stop (cs_rc cs) (cs_error cs) (cs_rest cs ++ b) (cs_read cs) (cs_parser cs)
    (cs_chunks cs) (cs_world cs).

(** the two ways to stop are the same, or the payload handler threw, from
    different positions *)
Definition cs_like (cs1 cs2 : chunks_stop) : Prop :=
  cs1 = cs2 \/
  exists e, cs_rc cs1 = Exn e /\ cs_rc cs2 = Exn e /\ cs_error cs1 = None /\ cs_error cs2 = None /\
    cs_chunks cs1 = cs_chunks cs2 /\ cs_world cs1 = cs_world cs2.

(** a chunk that the first of two buffers does not complete *)
Lemma chunks_loop_spans h b1 b2 n p ch w w1 :
  chunk_wf p -> StreamHandler h -> m_payload_handler p = Some h ->
  m_chunked_content_parse_state p = PARSE_CHUNK -> b1 <> [] ->
  slen b1 < m_size_of_current_chunk p - m_bytes_read_in_current_chunk p ->
  run_handler h b1 w = (None, w1) ->
  cs_like (chunks_loop (b1 ++ b2) n p ch w)
    (chunks_loop b2 (n + slen b1) (chunk_advance (slen b1) p) ch w1).
Proof.
  intros Hwf SH Hh St NE Gt R1. pose proof Hwf as [Hs Hr].
  set (k := m_size_of_current_chunk p - m_bytes_read_in_current_chunk p) in *.
  set (k1 := slen b1) in *. pose proof (slen_nonneg b1). pose proof (slen_nonneg b2). fold k1 in H.
  assert (m_bytes_read_in_current_chunk p < m_size_of_current_chunk p) as Lt by lia.
  assert (Z.to_nat k1 = length b1) as E1 by (subst k1; unfold slen; lia).
  destruct (decide (b2 = [])) as [->|NE2].
  { left. rewrite app_nil_r. rewrite (chunks_loop_chunk h b1 n p ch w w1 Hwf Hh St Lt); fold k k1;
      rewrite ?Z.min_r, ?E1, ?firstn_all, ?drop_all by lia; done. }
  set (l2 := Z.min (k - k1) (slen b2)).
  assert (chunk_advance k1 p =
          p <| m_bytes_read_in_current_chunk := m_bytes_read_in_current_chunk p + k1 |>) as Ea.
  { unfold chunk_advance. cbn -[Z.add]. rewrite add64_small by lia.
    destruct (Z.eqb_spec (m_bytes_read_in_current_chunk p + k1) (m_size_of_current_chunk p)); [lia|done]. }
  assert (m_size_of_current_chunk p - (m_bytes_read_in_current_chunk p + k1) = k - k1) as Ek by lia.
  assert (Z.min k (slen (b1 ++ b2)) = k1 + l2) as El by (rewrite slen_app; lia).
  assert (Z.to_nat (k1 + l2) = length b1 + Z.to_nat l2)%nat as En by lia.
  assert (b1 ++ b2 <> []) as NE12 by (by destruct b1).
  assert (chunk_wf (chunk_advance k1 p)) as Wa by (rewrite Ea; unfold chunk_wf; cbn -[Z.add]; lia).
  destruct (run_handler h (take (Z.to_nat l2) b2) w1) as [[e|] w2] eqn:R2; [right; exists e|left].
  - rewrite (chunks_loop_throws h b2 (n + k1) (chunk_advance k1 p) ch w1 e w2);
      rewrite ?Ea; cbn -[Z.add take drop chunks_loop app]; rewrite ?Ek; rewrite <- ?Ea; try done; try lia.
    by rewrite (chunks_loop_throws h (b1 ++ b2) n p ch w e w2) by
      (try done; fold k; rewrite El, En, take_app_add, run_app, R1; done).
  - rewrite (chunks_loop_chunk h b2 (n + k1) (chunk_advance k1 p) ch w1 w2);
      rewrite ?Ea; cbn -[Z.add take drop chunks_loop app]; rewrite ?Ek; rewrite <- ?Ea; try done; try lia.
    fold l2. rewrite chunk_advance_advance by (try split; lia).
    rewrite (chunks_loop_chunk h (b1 ++ b2) n p ch w w2) by
      (try done; fold k; rewrite El, En, take_app_add, run_app, R1; done).
    fold k. rewrite El, En, drop_app_add. f_equal. lia.
Qed.

(** a call of the payload handler in the first of two buffers *)
Lemma chunks_loop_app_chunk h b1 b2 n p ch w :
  chunk_wf p -> StreamHandler h -> m_payload_handler p = Some h ->
  m_chunked_content_parse_state p = PARSE_CHUNK ->
  m_bytes_read_in_current_chunk p < m_size_of_current_chunk p -> b1 <> [] ->
  (forall b n p w, (length b < length b1)%nat -> chunk_wf p -> stream_parser p ->
     cs_like (chunks_loop (b ++ b2) n p ch w)
       (let cs := chunks_loop b n p ch w in
        if bool_decide (cs_rc cs = Val indeterminate)
        then chunks_loop b2 (cs_read cs) (cs_parser cs) (cs_chunks cs) (cs_world cs)
        else cs_append b2 cs)) ->
  cs_like (chunks_loop (b1 ++ b2) n p ch w)
    (let cs := chunks_loop b1 n p ch w in
     if bool_decide (cs_rc cs = Val indeterminate)
     then chunks_loop b2 (cs_read cs) (cs_parser cs) (cs_chunks cs) (cs_world cs)
     else cs_append b2 cs).
Proof.
  intros Hwf SH Hh St Lt NE IH.
  set (k := m_size_of_current_chunk p - m_bytes_read_in_current_chunk p).
  pose proof (slen_nonneg b1). pose proof (slen_nonneg b2).
  assert (b1 ++ b2 <> []) as NE12 by (by destruct b1).
  assert (0 < slen b1) as L1 by (destruct b1; [done|]; rewrite slen_cons; pose proof (slen_nonneg b1); lia).
  destruct (run_handler h (take (Z.to_nat (Z.min k (slen b1))) b1) w) as [[e|] w1] eqn:R1.
  - rewrite (chunks_loop_throws h b1 n p ch w e w1 Hwf Hh St Lt) by done. cbv zeta.
    cbn [cs_rc]. rewrite bool_decide_eq_false_2 by done. left.
    rewrite (chunks_loop_throws h (b1 ++ b2) n p ch w e w1 Hwf Hh St Lt); [done|done|]. fold k.
    rewrite slen_app. destruct (Z.le_gt_cases k (slen b1)) as [Le|Gt].
    + rewrite Z.min_l in R1 |- * by lia. rewrite take_app_le; [done|]. unfold slen in Le. lia.
    + rewrite Z.min_r, take_ge in R1 by (unfold slen in *; lia).
      rewrite take_app_ge by (unfold slen in *; lia). by rewrite run_app, R1.
  - rewrite (chunks_loop_chunk h b1 n p ch w w1 Hwf Hh St Lt) by done.
    fold k. destruct (Z.le_gt_cases k (slen b1)) as [Le|Gt].
    + rewrite Z.min_l in * by done.
      assert (k <= slen (b1 ++ b2)) as Le' by (rewrite slen_app; lia).
      rewrite (chunks_loop_chunk h (b1 ++ b2) n p ch w w1 Hwf Hh St Lt); fold k;
        rewrite ?(Z.min_l _ _ Le'); [|done|].
      2:{ rewrite take_app_le; [done|]. unfold slen in Le. lia. }
      rewrite drop_app_le by (unfold slen in Le; lia).
      apply IH; [|by apply chunk_advance_wf|apply chunk_advance_stream; unfold stream_parser; by rewrite Hh].
      rewrite length_drop. unfold slen in L1. lia.
    + rewrite Z.min_r in * by lia.
      rewrite take_ge in R1 by (unfold slen; lia). rewrite drop_ge by (unfold slen; lia).
      cbn [chunks_loop cs_rc cs_read cs_parser cs_chunks cs_world].
      rewrite bool_decide_eq_true_2 by done. by apply (chunks_loop_spans h b1).
Qed.

(** the loop on two buffers in a row *)
Lemma chunks_loop_app b1 b2 n p ch w :
  chunk_wf p -> stream_parser p ->
  cs_like (chunks_loop (b1 ++ b2) n p ch w)
    (let cs := chunks_loop b1 n p ch w in
     if bool_decide (cs_rc cs = Val indeterminate)
     then chunks_loop b2 (cs_read cs) (cs_parser cs) (cs_chunks cs) (cs_world cs)
     else cs_append b2 cs).
Proof.
  remember (length b1) as len eqn:Hl. revert b1 Hl n p ch w.
  induction len as [len IH] using lt_wf_ind; intros [|c b1] -> n p ch w Hwf Hst; [by left|].
  destruct (chunk_mode p) as [N|(h & St & Lt & Hh)].
  - destruct (chunk_step_local c (c :: b1) (c :: b1 ++ b2) p ch w N) as [E L].
    cbn [chunks_loop app]. rewrite <- E.
    pose proof (chunk_step_wf c (c :: b1) p ch w Hwf) as W.
    pose proof (chunk_step_handler c (c :: b1) p ch w) as Hh.
    destruct (chunk_step c (c :: b1) p ch w) as [sk p1 ch1 w1|[] p1 ch1 w1|? ? ? ?|? ? ? ?];
      try (by left).
    subst sk. rewrite !dropl_drop, !drop_0.
    apply (IH (length b1)); cbn in *; try done; [lia|].
    unfold stream_parser. by rewrite Hh.
  - apply (chunks_loop_app_chunk h); try done.
    + unfold stream_parser in Hst. by rewrite Hh in Hst.
    + intros b n0 p0 w0 L W0 St0. by eapply IH.
Qed.

(** the extra bytes a step consumes are in the buffer *)
Lemma chunk_step_skip c buf p ch w :
  chunk_wf p ->
  match chunk_step c (c :: buf) p ch w with
  | CBreak sk _ _ _ => (sk <= length buf)%nat
  | _ => True
  end.
Proof.
  intros [Hs Hr]. destruct (chunk_mode p) as [N|(h & St & Lt & Hh)].
  - apply (chunk_step_local c (c :: buf) [] p ch w) in N as [_ L].
    destruct (chunk_step _ _ _ _ _); try done. subst. lia.
  - unfold chunk_step, step_chunk, end_of_chunk. rewrite St, Hh. pose proof (slen_cons c buf).
    assert (slen buf = Z.of_nat (length buf)) by done.
    cbv zeta. rewrite sub64_small by lia. repeat case_match; simplify_eq; lia.
Qed.

(** the ways out of the loop *)
Lemma chunks_loop_exit buf n p ch w :
  chunk_wf p ->
  let cs := chunks_loop buf n p ch w in
  match cs_rc cs with
  | Val indeterminate => cs_error cs = None /\ cs_rest cs = []
  | Val ttrue => cs_error cs = None
  | Val tfalse => exists ev, cs_error cs = Some ev
  | Exn e => cs_error cs = None /\
      exists h d w', m_payload_handler p = Some h /\ (run_handler h d w').1 = Some e
  | Fault _ => False
  end.
Proof.
  remember (length buf) as len eqn:Hl. revert buf Hl n p ch w.
  induction len as [len IH] using lt_wf_ind; intros [|c buf] -> n p ch w Hwf; [done|].
  cbn [chunks_loop].
  pose proof (chunk_step_wf c (c :: buf) p ch w Hwf) as W.
  pose proof (chunk_step_handler c (c :: buf) p ch w) as Hh.
  destruct (chunk_step c (c :: buf) p ch w) as [sk p1 ch1 w1|[] p1 ch1 w1|? ? ? ?|e ? ? ?] eqn:E;
    cbn; eauto.
  - cbn in Hh. rewrite <- Hh. eapply IH; [|reflexivity|exact W].
    rewrite dropl_drop, length_drop. cbn. lia.
  - split; [done|]. destruct (chunk_mode p) as [N|(h & St & Lt & Hh')].
    { apply (chunk_step_local c (c :: buf) [] p ch w) in N as [_ L]. by rewrite E in L. }
    unfold chunk_step, step_chunk in E. rewrite St, Hh' in E.
    destruct (Z.ltb_spec (m_bytes_read_in_current_chunk p) (m_size_of_current_chunk p)); [|lia].
    match type of E with context [run_handler h ?d w] =>
      exists h, d, w; destruct (run_handler h d w) as [[e'|] w'] end; [|discriminate].
    injection E as -> _ _ _. by split.
Qed.

Lemma chunks_loop_consumed buf n p ch w :
  chunk_wf p ->
  let cs := chunks_loop buf n p ch w in
  exists used, buf = used ++ cs_rest cs /\ cs_read cs = n + slen used.
Proof.
  remember (length buf) as len eqn:Hl. revert buf Hl n p ch w.
  induction len as [len IH] using lt_wf_ind; intros [|c buf] -> n p ch w Hwf.
  { exists []. split; [done|]. cbn. rewrite slen_nil. lia. }
  cbn [chunks_loop].
  pose proof (chunk_step_wf c (c :: buf) p ch w Hwf) as W.
  pose proof (chunk_step_skip c buf p ch w Hwf) as L.
  destruct (chunk_step c (c :: buf) p ch w) as [sk p1 ch1 w1|[] p1 ch1 w1|? ? ? ?|? ? ? ?] eqn:E; cbn.
  - destruct (IH (length (dropl buf sk))
                ltac:(rewrite dropl_drop, length_drop; cbn; lia) (dropl buf sk) eq_refl
                (n + 1 + Z.of_nat sk) p1 ch1 w1 W) as (used & H1 & H2).
    exists (c :: take sk buf ++ used). rewrite H2, slen_cons, slen_app. split.
    + cbn. rewrite <- app_assoc, <- H1, dropl_drop. by rewrite take_drop.
    + unfold slen at 2. rewrite length_take. lia.
  - exists [c]. rewrite slen_cons, slen_nil. split; [done|lia].
  - exists []. rewrite slen_nil. split; [done|lia].
  - exists []. rewrite slen_nil. split; [done|lia].
  - exists []. rewrite slen_nil. split; [done|lia].
Qed.

End Chunks.
