(* ===== verification/ContentProofs.v ===== *)
(** * Properties of [consume_content]

    Under the invariant of a message body with a content-length, the copies
    into the content buffer stay inside it, and consuming two buffers in a
    row is consuming their concatenation. *)

From S2P Require Import Prelude.
From S2P Require Import Externals.
From S2P Require Import Multimap.
From S2P Require Import Strings.
From S2P Require Import Message.
From S2P Require Import Request.
From S2P Require Import ParserState.
From S2P Require Import HeaderParser.
From S2P Require Import BodyParser.
From S2P Require Import RefUtils.
From S2P Require Import BodyProofs.

(** what [cb_write] does when it is in bounds *)
Definition put (off : Z) (src : str) (b : content_buffer_t) : content_buffer_t :=
  mk_buf (take (Z.to_nat off) (cb_bytes b) ++ src
          ++ drop (Z.to_nat (off + slen src)) (cb_bytes b)).

Lemma cb_write_put b off src :
  0 <= off -> off + slen src <= cb_size b -> cb_write b off src = Val (put off src b).
Proof.
  intros H1 H2. unfold cb_write.
  by assert ((0 <=? off) && (off + slen src <=? cb_size b) = true) as -> by lia.
Qed.

Lemma put_nil off b : put off [] b = b.
Proof. unfold put. rewrite slen_nil, Z.add_0_r. cbn. rewrite take_drop. by destruct b. Qed.

Lemma put_size off src b :
  0 <= off -> off + slen src <= cb_size b -> cb_size (put off src b) = cb_size b.
Proof.
  intros H1 H2. unfold put, cb_size, slen in *. cbn [cb_bytes].
  rewrite !length_app, length_take, length_drop. lia.
Qed.

Lemma put_put off x y b :
  0 <= off -> off + slen x + slen y <= cb_size b ->
  put (off + slen x) y (put off x b) = put off (x ++ y) b.
Proof.
  intros H1 H2. unfold put, cb_size, slen in *. cbn [cb_bytes]. f_equal.
  set (pre := take (Z.to_nat off) (cb_bytes b)).
  assert (length pre = Z.to_nat off) as Lp by (subst pre; rewrite length_take; lia).
  rewrite !(app_assoc pre x), length_app.
  replace (Z.to_nat (off + Z.of_nat (length x))) with (length (pre ++ x))
    by (rewrite length_app; lia).
  rewrite take_app_length, <- !app_assoc. do 3 f_equal.
  rewrite (app_assoc pre x).
  replace (Z.to_nat (off + Z.of_nat (length x) + Z.of_nat (length y)))
    with (length (pre ++ x) + length y)%nat by (rewrite length_app; lia).
  rewrite drop_app_add, drop_drop. f_equal. rewrite length_app. lia.
Qed.

Lemma take_take_app (a b : str) (n : Z) :
  take (Z.to_nat n) (a ++ b) = take (Z.to_nat n) a ++ take (Z.to_nat (n - slen a)) b.
Proof. rewrite take_app. f_equal. f_equal. unfold slen. lia. Qed.

Section Content.
Context `{PE : PayloadEnv}.

(** the body of a message with a content-length is being read *)
Record content_inv (s : pstate) : Prop := mk_content_inv {
  ci_read : 0 <= m_bytes_content_read (ps_parser s);
  ci_remaining : 0 <= m_bytes_content_remaining (ps_parser s);
  ci_total : m_bytes_content_read (ps_parser s) + m_bytes_content_remaining (ps_parser s) < 2 ^ 64;
  ci_max : 0 <= m_max_content_length (ps_parser s) < 2 ^ 64;
  ci_buffer : m_payload_handler (ps_parser s) = None ->
              cb_size (m_content_buf (req_base (ps_request s))) =
              Z.min (m_bytes_content_read (ps_parser s) + m_bytes_content_remaining (ps_parser s))
                    (m_max_content_length (ps_parser s));
}.

(** where the bytes of the body go: to the payload handler, or into the
    content buffer up to the limit *)
Definition deliver (data : str) (s : pstate) : pstate :=
  let p := ps_parser s in
  match m_payload_handler p with
  | Some h => s <| ps_world := (run_handler h data (ps_world s)).2 |>
  | None =>
    s <| ps_request :=
           on_base (fun m => m <| m_content_buf :=
             put (m_bytes_content_read p)
               (take (Z.to_nat (m_max_content_length p - m_bytes_content_read p)) data)
               (m_content_buf m) |>) (ps_request s) |>
  end.

(** what the payload handler throws *)
Definition thrown (data : str) (s : pstate) : option exn :=
  match m_payload_handler (ps_parser s) with
  | Some h => (run_handler h data (ps_world s)).1
  | None => None
  end.

(** the counters and the cursor after [n] bytes of the body *)
Definition content_advance (n : Z) (p : http_parser) : http_parser :=
  advance_content n
    (p <| m_bytes_content_remaining := m_bytes_content_remaining p - n |>).

Lemma take_len (n : Z) (s : str) : 0 <= n <= slen s -> slen (take (Z.to_nat n) s) = n.
Proof. unfold slen. rewrite length_take. lia. Qed.

Lemma memcpy_content_ok off n s :
  0 <= off -> 0 <= n <= slen (m_read (ps_parser s)) ->
  off + n <= cb_size (m_content_buf (req_base (ps_request s))) ->
  memcpy_content off n s =
  (Val tt, s <| ps_request :=
     on_base (fun m => m <| m_content_buf :=
       put off (take (Z.to_nat n) (m_read (ps_parser s))) (m_content_buf m) |>) (ps_request s) |>).
Proof.
  intros H1 H2 H3. unfold memcpy_content, bind, gets.
  destruct (Z.leb_spec n (slen (m_read (ps_parser s)))); [|lia].
  unfold try_message. rewrite cb_write_put by (rewrite ?take_len; lia). reflexivity.
Qed.

Lemma put_id off r :
  on_base (fun m => m <| m_content_buf := put off [] (m_content_buf m) |>) r = r.
Proof. unfold on_base. rewrite put_nil. destruct r as [[] ? ? ? ? ? ? ?]. reflexivity. Qed.

Lemma consume_content_spec s :
  content_inv s -> m_read (ps_parser s) <> [] ->
  let p := ps_parser s in
  let n := Z.min (m_bytes_content_remaining p) (slen (m_read p)) in
  let data := take (Z.to_nat n) (m_read p) in
  consume_content s =
  if m_bytes_content_remaining p =? 0 then (Val ttrue, s)
  else
    match thrown data s with
    | None =>
      (Val (if slen (m_read p) >=? m_bytes_content_remaining p then ttrue else indeterminate),
       (deliver data s) <| ps_parser := content_advance n p |>)
    | Some e =>
      (Exn e, (deliver data s)
                <| ps_parser := p <| m_bytes_content_remaining := m_bytes_content_remaining p - n |> |>)
    end.
Proof.
  intros [Ir Im It Ix Ib] NE p n data. subst data. fold p in Ir, Im, It, Ix, Ib, NE.
  assert (bytes_available p = slen (m_read p)) as Ea.
  { unfold bytes_available, eof. by rewrite bool_decide_eq_false_2. }
  unfold consume_content, bind at 1, gets at 1. fold p. rewrite Ea.
  destruct (Z.eqb_spec (m_bytes_content_remaining p) 0) as [|Nz]; [done|].
  pose proof (slen_nonneg (m_read p)) as L0.
  set (rc := if slen (m_read p) >=? m_bytes_content_remaining p then ttrue else indeterminate).
  replace (if slen (m_read p) >=? m_bytes_content_remaining p
           then (ttrue, m_bytes_content_remaining p)
           else (indeterminate, slen (m_read p))) with (rc, n)
    by (subst rc n; case_match; f_equal; lia).
  assert (0 <= n <= slen (m_read p) /\ n <= m_bytes_content_remaining p) as [Ln Ln'] by (subst n; lia).
  assert (on_parser (fun p => p <| m_bytes_content_remaining := m_bytes_content_remaining p -64 n |>) s
          = (Val tt, s <| ps_parser := p <| m_bytes_content_remaining :=
                                            m_bytes_content_remaining p - n |> |>)) as E1.
  { unfold on_parser, modify. fold p. rewrite sub64_small by (subst p; lia). done. }
  unfold bind at 1. rewrite E1. unfold deliver, thrown. fold p.
  set (s1 := s <| ps_parser := p <| m_bytes_content_remaining := m_bytes_content_remaining p - n |> |>).
  destruct (m_payload_handler p) as [h|] eqn:Hh.
  - unfold bind, call_handler. cbn -[Z.add take drop].
    destruct (run_handler h (take (Z.to_nat n) (m_read p)) (ps_world s)) as [[e|] w'];
      cbn -[Z.add take drop add64]; reflexivity.
  - specialize (Ib eq_refl). pose proof (take_take (m_read p) (Z.to_nat (m_max_content_length p - m_bytes_content_read p))
                  (Z.to_nat n)) as TT.
    rewrite TT. unfold bind at 1. rewrite (add64_small _ n) by lia.
    destruct (Z.ltb_spec (m_bytes_content_read p) (m_max_content_length p)) as [Lt|Ge].
    + destruct (Z.gtb_spec (m_bytes_content_read p + n) (m_max_content_length p)) as [G|L].
      * rewrite sub64_small by lia.
        rewrite (memcpy_content_ok _ _ s1) by (cbn -[Z.add Z.sub]; fold p; lia).
        rewrite Nat.min_l by lia. reflexivity.
      * rewrite (memcpy_content_ok _ _ s1) by (cbn -[Z.add Z.sub]; fold p; lia).
        rewrite Nat.min_r by lia. reflexivity.
    + rewrite Nat.min_l by lia. replace (Z.to_nat (_ - _)) with O by lia.
      cbn [take]. rewrite put_id. reflexivity.
Qed.

(** ** Two buffers in a row *)

Definition with_read (x : str) (s : pstate) : pstate :=
  s <| ps_parser := (ps_parser s) <| m_read := x |> |>.

Definition add_last (k : Z) (s : pstate) : pstate :=
  s <| ps_parser := (ps_parser s) <| m_bytes_last_read := k + m_bytes_last_read (ps_parser s) |> |>.

Lemma deliver_app a b s p1 :
  content_inv s -> stream_parser (ps_parser s) -> thrown a s = None ->
  slen a + slen b <= m_bytes_content_remaining (ps_parser s) ->
  m_payload_handler p1 = m_payload_handler (ps_parser s) ->
  m_max_content_length p1 = m_max_content_length (ps_parser s) ->
  m_bytes_content_read p1 = m_bytes_content_read (ps_parser s) + slen a ->
  let s1 := (deliver a s) <| ps_parser := p1 |> in
  deliver b s1 = (deliver (a ++ b) s) <| ps_parser := p1 |> /\ thrown b s1 = thrown (a ++ b) s.
Proof.
  intros [Ir Im It Ix Ib] Hst T L Eh Em Er. unfold deliver, thrown in *. cbn [ps_parser set_field].
  rewrite Eh, Em, Er. unfold stream_parser in Hst.
  destruct (m_payload_handler (ps_parser s)) as [h|].
  - unfold set_field. cbn. rewrite run_app.
    destruct (run_handler h a (ps_world s)) as [o w1]. cbn in T. by subst o.
  - specialize (Ib eq_refl). split; [|done]. set (off := m_bytes_content_read (ps_parser s)) in *.
    set (max := m_max_content_length (ps_parser s)) in *.
    pose proof (slen_nonneg a). pose proof (slen_nonneg b).
    rewrite take_take_app. replace (max - off - slen a) with (max - (off + slen a)) by lia.
    set (x := take (Z.to_nat (max - off)) a). set (y := take (Z.to_nat (max - (off + slen a))) b).
    enough (put (off + slen a) y (put off x (m_content_buf (req_base (ps_request s)))) =
            put off (x ++ y) (m_content_buf (req_base (ps_request s)))) as E.
    { unfold on_base, set_field. cbn. by rewrite E. }
    destruct (Z.le_gt_cases (slen a) (max - off)) as [La|Ga].
    + assert (x = a) as -> by (apply take_ge; unfold slen in *; lia).
      apply put_put; [lia|]. rewrite Ib.
      assert (slen y <= slen b /\ slen y <= max - (off + slen a))
        by (subst y; unfold slen in *; rewrite length_take; lia). lia.
    + assert (y = []) as -> by (subst y; replace (Z.to_nat _) with O by lia; done).
      by rewrite put_nil, app_nil_r.
Qed.

Lemma deliver_set_read d p s :
  m_payload_handler p = m_payload_handler (ps_parser s) ->
  m_max_content_length p = m_max_content_length (ps_parser s) ->
  m_bytes_content_read p = m_bytes_content_read (ps_parser s) ->
  deliver d (s <| ps_parser := p |>) = (deliver d s) <| ps_parser := p |>.
Proof.
  intros Eh Em Er. unfold deliver. cbn [ps_parser set_field]. rewrite Eh, Em, Er.
  destruct (m_payload_handler (ps_parser s)); reflexivity.
Qed.

Lemma deliver_parser d s : ps_parser (deliver d s) = ps_parser s.
Proof. unfold deliver. by destruct (m_payload_handler _). Qed.

Lemma deliver_buffer_size d s :
  content_inv s -> slen d <= m_bytes_content_remaining (ps_parser s) ->
  cb_size (m_content_buf (req_base (ps_request (deliver d s)))) =
  cb_size (m_content_buf (req_base (ps_request s))).
Proof.
  intros [Ir Im It Ix Ib] L. unfold deliver. destruct (m_payload_handler _); [done|].
  specialize (Ib eq_refl).
  cbn -[take Z.sub]. set (off := m_bytes_content_read (ps_parser s)) in *.
  set (max := m_max_content_length (ps_parser s)) in *.
  destruct (Z.le_gt_cases off max).
  - apply put_size; [done|].
    assert (slen (take (Z.to_nat (max - off)) d) <= slen d /\
            slen (take (Z.to_nat (max - off)) d) <= max - off)
      by (unfold slen; rewrite length_take; lia). lia.
  - replace (Z.to_nat (max - off)) with O by lia. cbn [take]. by rewrite put_nil.
Qed.

Lemma content_advance_inv d s :
  content_inv s -> slen d <= m_bytes_content_remaining (ps_parser s) ->
  content_inv ((deliver d s) <| ps_parser := content_advance (slen d) (ps_parser s) |>).
Proof.
  intros I L. pose proof (deliver_buffer_size d s I L) as Eb. destruct I as [Ir Im It Ix Ib].
  pose proof (slen_nonneg d).
  constructor; cbn -[Z.add Z.sub Z.pow Z.min deliver]; rewrite ?add64_small by lia; try lia.
  intros Hn. rewrite Eb, (Ib Hn). lia.
Qed.

Lemma content_inv_with_read x s : content_inv s -> content_inv (with_read x s).
Proof. intros []. constructor; assumption. Qed.

Lemma add_last_set k s p :
  add_last k (s <| ps_parser := p |>) =
  s <| ps_parser := p <| m_bytes_last_read := k + m_bytes_last_read p |> |>.
Proof. reflexivity. Qed.

Lemma set_parser_twice s p q : s <| ps_parser := p |> <| ps_parser := q |> = s <| ps_parser := q |>.
Proof. reflexivity. Qed.

Lemma content_advance_last n p : m_bytes_last_read (content_advance n p) = n.
Proof. reflexivity. Qed.

Lemma content_advance_app n1 n2 x y p :
  drop (Z.to_nat (n1 + n2)) x = drop (Z.to_nat n2) y ->
  content_advance (n1 + n2) (p <| m_read := x |>) =
  (content_advance n2 ((content_advance n1 p) <| m_read := y |>))
    <| m_bytes_last_read := n1 + n2 |>.
Proof.
  intros E. unfold content_advance, advance_content. destruct p.
  cbn -[Z.add Z.sub drop]. rewrite E, !add64_assoc, Z.sub_add_distr. reflexivity.
Qed.

(** the message and the world, but not the parser *)
Definition same_body (s s' : pstate) : Prop :=
  ps_request s = ps_request s' /\ ps_ec s = ps_ec s' /\ ps_world s = ps_world s'.

(** the first buffer lies inside the body *)
Lemma consume_content_inside s s1 :
  content_inv s -> m_read (ps_parser s) <> [] ->
  consume_content s = (Val indeterminate, s1) ->
  let b := m_read (ps_parser s) in
  s1 = (deliver b s) <| ps_parser := content_advance (slen b) (ps_parser s) |> /\
  thrown b s = None /\ slen b < m_bytes_content_remaining (ps_parser s).
Proof.
  intros I NE. rewrite consume_content_spec by done.
  destruct (Z.eqb_spec (m_bytes_content_remaining (ps_parser s)) 0) as [|Nz]; [done|].
  destruct (thrown _ s) as [e|] eqn:T; [done|].
  destruct (Z.geb_spec (slen (m_read (ps_parser s))) (m_bytes_content_remaining (ps_parser s))) as [|Lt]; [done|].
  revert T. rewrite Z.min_r by lia. rewrite take_ge by (unfold slen; lia). intros T [= <-]. split_and!; done || lia.
Qed.

Lemma consume_content_split s s1 b2 :
  content_inv s -> stream_parser (ps_parser s) -> m_read (ps_parser s) <> [] -> b2 <> [] ->
  consume_content s = (Val indeterminate, s1) ->
  m_read (ps_parser s1) = [] /\ m_bytes_last_read (ps_parser s1) = slen (m_read (ps_parser s)) /\
  content_inv s1 /\ stream_parser (ps_parser s1) /\
  m_message_parse_state (ps_parser s1) = m_message_parse_state (ps_parser s) /\
  match consume_content (with_read b2 s1) with
  | (Exn e, s2) => exists s3, consume_content (with_read (m_read (ps_parser s) ++ b2) s) = (Exn e, s3) /\
                     same_body s3 s2
  | (r, s2) => consume_content (with_read (m_read (ps_parser s) ++ b2) s) =
               (r, add_last (slen (m_read (ps_parser s))) s2)
  end.
Proof.
  intros I Hst NE NE2 E. destruct (consume_content_inside s s1 I NE E) as (-> & T & Lt). clear E.
  set (b1 := m_read (ps_parser s)) in *. set (r := m_bytes_content_remaining (ps_parser s)) in *.
  assert (content_inv ((deliver b1 s) <| ps_parser := content_advance (slen b1) (ps_parser s) |>)) as I1.
  { apply content_advance_inv; [done|]. fold r. lia. }
  split_and!; try done.
  { cbn -[drop]. apply drop_ge. unfold slen. fold b1. lia. }
  set (s1 := (deliver b1 s) <| ps_parser := content_advance (slen b1) (ps_parser s) |>) in *.
  pose proof (slen_nonneg b1). pose proof (slen_nonneg b2).
  rewrite (consume_content_spec (with_read (b1 ++ b2) s)) by
    (apply content_inv_with_read, I || by destruct b1).
  rewrite (consume_content_spec (with_read b2 s1)) by
    (apply content_inv_with_read, I1 || exact NE2).
  cbn [ps_parser with_read set_field m_read m_bytes_content_remaining].
  change (m_bytes_content_remaining (ps_parser s1)) with (r - slen b1). fold r.
  rewrite slen_app.
  destruct (Z.eqb_spec r 0); [subst r; lia|]. destruct (Z.eqb_spec (r - slen b1) 0); [lia|].
  set (n2 := Z.min (r - slen b1) (slen b2)).
  replace (Z.min r (slen b1 + slen b2)) with (slen b1 + n2) by (subst n2; lia).
  assert (take (Z.to_nat (slen b1 + n2)) (b1 ++ b2) = b1 ++ take (Z.to_nat n2) b2) as Et.
  { rewrite take_app_ge by (unfold slen in *; lia). do 2 f_equal. unfold slen in *. lia. }
  assert (drop (Z.to_nat (slen b1 + n2)) (b1 ++ b2) = drop (Z.to_nat n2) b2) as Ed.
  { rewrite drop_app_ge by (unfold slen in *; lia). f_equal. unfold slen in *. lia. }
  assert (slen (take (Z.to_nat n2) b2) = n2) by (apply take_len; lia).
  rewrite Et. set (d := take (Z.to_nat n2) b2) in *.
  change (thrown (b1 ++ d) (with_read (b1 ++ b2) s)) with (thrown (b1 ++ d) s).
  assert (deliver (b1 ++ d) (with_read (b1 ++ b2) s) =
          (deliver (b1 ++ d) s) <| ps_parser := (ps_parser s) <| m_read := b1 ++ b2 |> |>) as Dr
    by (by apply deliver_set_read).
  rewrite Dr.
  set (p1 := (content_advance (slen b1) (ps_parser s)) <| m_read := b2 |>).
  change (with_read b2 s1) with ((deliver b1 s) <| ps_parser := p1 |>).
  destruct (deliver_app b1 d s p1) as [Da Ta]; try done; [fold r; lia| |].
  { subst p1. cbn -[Z.add]. rewrite add64_small; destruct I; subst r; lia. }
  rewrite Da, Ta. destruct (thrown (b1 ++ d) s) as [e|].
  { eexists. split; [reflexivity|]. by split_and!. }
  f_equal.
  { f_equal. destruct (Z.geb_spec (slen b1 + slen b2) r), (Z.geb_spec (slen b2) (r - slen b1));
      done || lia. }
  rewrite (content_advance_app _ _ _ _ _ Ed).
  by rewrite add_last_set, set_parser_twice, content_advance_last.
Qed.

End Content.
