(* ===== verification/ParserInv.v ===== *)
(** * The invariant of [http_parser::parse] and its preservation

    Between two calls of [parse] on the same message the parser, the message
    and the payload handler are in a consistent state, [parse_inv].  From
    such a state an iteration of the main loop cannot fault, makes progress
    towards the end of the loop, and reestablishes the invariant. *)

From S2P Require Import Prelude.
From S2P Require Import Externals.
From S2P Require Import Algorithm.
From S2P Require Import Multimap.
From S2P Require Import Strings.
From S2P Require Import Message.
From S2P Require Import Request.
From S2P Require Import FormParsers.
From S2P Require Import Multipart.
From S2P Require Import ParserState.
From S2P Require Import HeaderParser.
From S2P Require Import BodyParser.
From S2P Require Import Parser.
From S2P Require Import RefUtils.
From S2P Require Import HeaderProofs.
From S2P Require Import BodyProofs.
From S2P Require Import ContentProofs.

(** What is assumed of the hook for finished headers, which subclasses
    override: it does not fault, it answers indeterminate only if the parser
    did, and it leaves the content of the message alone if it installs no
    payload handler.  It may throw, and nothing is assumed of the payload
    handlers it installs: they may throw, too. *)
Definition same_content `{PE : PayloadEnv} (r r' : http_request) : Prop :=
  m_content_length (req_base r') = m_content_length (req_base r) /\
  m_content_buf (req_base r') = m_content_buf (req_base r).

Class Callbacks `{PE : PayloadEnv} (hook : hook_type) : Prop :=
  hook_ok req ec rc w :
    let '(r, e) := hook req ec rc w in
    match r with
    | Val rc' => (he_handler e = None -> same_content req (he_request e)) /\
                 (rc' = indeterminate -> rc = indeterminate)
    | Exn _ => True
    | Fault _ => False
    end.

Section Definitions.
Context `{PE : PayloadEnv}.

(** the content fits the buffer, with its terminator, or will not be read *)
Definition content_fits (s : pstate) : Prop :=
  m_payload_handler (ps_parser s) = None -> m_parse_headers_only (ps_parser s) = false ->
  m_content_length (req_base (ps_request s)) <=
    cb_size (m_content_buf (req_base (ps_request s))) + 1.

(** the conditions of each state of the message *)
Definition state_inv (s : pstate) : Prop :=
  match m_message_parse_state (ps_parser s) with
  | PARSE_START | PARSE_HEADERS | PARSE_CHUNKS => True
  | PARSE_FOOTERS => content_fits s
  | PARSE_CONTENT =>
    content_inv s /\ 0 < m_bytes_content_remaining (ps_parser s) /\ content_fits s
  | PARSE_CONTENT_NO_LENGTH | PARSE_END => False
  end.

Record parse_inv (s : pstate) : Prop := mk_parse_inv {
  pi_chunk : chunk_wf (ps_parser s);
  pi_max : 0 <= m_max_content_length (ps_parser s) < 2 ^ 64;
  pi_state : state_inv s;
}.

(** how many more iterations the main loop can take *)
Definition parse_measure (s : pstate) : nat :=
  match m_message_parse_state (ps_parser s) with
  | PARSE_START | PARSE_HEADERS => 3
  | PARSE_CHUNKS => 2
  | _ => 1
  end.

End Definitions.

(** ** The headers leave the content alone *)

Section Headers.
Context `{SU : StaticlibUtils, MP : MultimapPolicy, PE : PayloadEnv}.

(** the parts of the parser and the message that [parse_headers] keeps *)
Record headers_frame (p p' : http_parser) (m m' : http_message) : Prop := mk_headers_frame {
  hf_state : m_message_parse_state p' = m_message_parse_state p;
  hf_handler : m_payload_handler p' = m_payload_handler p;
  hf_max : m_max_content_length p' = m_max_content_length p;
  hf_only : m_parse_headers_only p' = m_parse_headers_only p;
  hf_size : m_size_of_current_chunk p' = m_size_of_current_chunk p;
  hf_read : m_bytes_read_in_current_chunk p' = m_bytes_read_in_current_chunk p;
  hf_length : m_content_length m' = m_content_length m;
  hf_buf : m_content_buf m' = m_content_buf m;
  hf_missing : m_has_missing_packets m' = m_has_missing_packets m;
  hf_after : m_has_data_after_missing m' = m_has_data_after_missing m;
}.

Lemma headers_frame_refl p m : headers_frame p p m m.
Proof. constructor; reflexivity. Qed.

Lemma headers_frame_trans p p' p'' m m' m'' :
  headers_frame p p' m m' -> headers_frame p' p'' m' m'' -> headers_frame p p'' m m''.
Proof. intros [] []. constructor; congruence. Qed.

Lemma header_step_keeps c p m :
  match header_step c p m with
  | HBreak p' m' | HTrue _ p' m' | HFalse _ p' m' => headers_frame p p' m m'
  end.
Proof.
  unfold_header_step. destruct (m_headers_parse_state p);
    repeat (case_match; simplify_eq/=); constructor; reflexivity.
Qed.

Lemma save_raw_keeps c p m : headers_frame p (save_raw c p) m m.
Proof. unfold save_raw. destruct (m_save_raw_headers p); constructor; reflexivity. Qed.

Lemma headers_loop_keeps buf n p m :
  let hs := headers_loop buf n p m in headers_frame p (hs_parser hs) m (hs_message hs).
Proof.
  revert n p m. induction buf as [|c buf IH]; intros n p m; cbn [headers_loop].
  { apply headers_frame_refl. }
  pose proof (save_raw_keeps c p m) as K.
  pose proof (header_step_keeps c (save_raw c p) m) as K'.
  destruct (header_step c (save_raw c p) m) as [p1 m1|[] p1 m1|ev p1 m1]; cbn in *;
    eauto using headers_frame_trans.
Qed.

End Headers.

(** ** [finish_header_parsing] *)

Lemma cb_resize_size n : 0 <= n -> cb_size (cb_resize n) = n.
Proof. intros H. unfold cb_size, cb_resize, slen. cbn. rewrite length_replicate. lia. Qed.

Section Finish.
Context `{SU : StaticlibUtils, MP : MultimapPolicy, PE : PayloadEnv}.

(** the parts that [choose_payload_state] keeps *)
Record choose_frame (s s' : pstate) : Prop := mk_choose_frame {
  cf_cursor : m_read (ps_parser s') = m_read (ps_parser s);
  cf_last : m_bytes_last_read (ps_parser s') = m_bytes_last_read (ps_parser s);
  cf_handler : m_payload_handler (ps_parser s') = m_payload_handler (ps_parser s);
  cf_max : m_max_content_length (ps_parser s') = m_max_content_length (ps_parser s);
  cf_only : m_parse_headers_only (ps_parser s') = m_parse_headers_only (ps_parser s);
  cf_size : m_size_of_current_chunk (ps_parser s') = m_size_of_current_chunk (ps_parser s);
  cf_read : m_bytes_read_in_current_chunk (ps_parser s') =
            m_bytes_read_in_current_chunk (ps_parser s);
  cf_missing : m_has_missing_packets (req_base (ps_request s')) =
               m_has_missing_packets (req_base (ps_request s));
  cf_after : m_has_data_after_missing (req_base (ps_request s')) =
             m_has_data_after_missing (req_base (ps_request s));
}.

(** what it decides *)
Definition chosen (rc : option tribool) (s : pstate) : Prop :=
  match rc with
  | None => True
  | Some tfalse => False
  | Some ttrue => content_fits s
  | Some indeterminate =>
    content_fits s /\
    (m_message_parse_state (ps_parser s) = PARSE_CHUNKS \/
     (m_message_parse_state (ps_parser s) = PARSE_CONTENT /\ content_inv s /\
      0 < m_bytes_content_remaining (ps_parser s)))
  end.

Lemma try_content_length `{PL : !ParseUintLaw} s :
  exists b n ec,
    try_catch (fun _ => true)
      (try_message update_content_length_using_header ;;; ret true)
      (modify (fun s => s <| ps_ec := set_error ERROR_INVALID_CONTENT_LENGTH |>) ;;; ret false) s
    = (Val b, s <| ps_request := on_base (set_content_length n) (ps_request s) |> <| ps_ec := ec |>)
    /\ (b = true -> 0 <= n < 2 ^ 64).
Proof.
  assert (forall s, s = s <| ps_request := on_base (set_content_length
            (m_content_length (req_base (ps_request s)))) (ps_request s) |>
            <| ps_ec := ps_ec s |>) as Id.
  { intros [p [[] ? ? ? ? ? ? ?] ec w]. reflexivity. }
  unfold try_catch, bind, try_message, update_content_length_using_header.
  set (m := req_base (ps_request s)).
  destruct (mm_find HEADER_CONTENT_LENGTH (m_headers m)) as [v|].
  - destruct (parse_uint64 (trim_arg v)) as [n|e|f] eqn:E; [| |by apply parse_uint64_no_fault in E].
    + exists true, (wrap 64 n), (ps_ec s). split; [reflexivity|]. intros _. by apply wrap_range.
    + exists false, (m_content_length m), (set_error ERROR_INVALID_CONTENT_LENGTH).
      split; [|done]. unfold modify, ret. rewrite (Id s) at 1. reflexivity.
  - exists true, 0, (ps_ec s). split; [reflexivity|]. done.
Qed.

Lemma choose_payload_spec `{PL : !ParseUintLaw} s :
  m_bytes_content_read (ps_parser s) = 0 ->
  m_content_length (req_base (ps_request s)) = 0 ->
  0 <= m_max_content_length (ps_parser s) < 2 ^ 64 ->
  exists rc s', choose_payload_state s = (Val rc, s') /\ chosen rc s' /\ choose_frame s s'.
Proof.
  intros Hr Hc Hm. unfold choose_payload_state.
  unfold bind at 1 2 3, gets at 1 2 3. cbn [request_is_content_length_implied].
  pose proof (slen_nonneg (cb_bytes (m_content_buf (req_base (ps_request s))))) as Hb.
  destruct (m_is_chunked (req_base (ps_request s))).
  { eexists _, _. split; [reflexivity|]. split; [|constructor; reflexivity].
    destruct (m_parse_headers_only (ps_parser s)) eqn:Ho; unfold chosen, content_fits; cbn;
      [congruence|]. split; [|by left]. intros. unfold cb_size. rewrite Hc. lia. }
  destruct (has_header (req_base (ps_request s)) HEADER_CONTENT_LENGTH).
  2:{ eexists _, _. split; [reflexivity|]. split; [|constructor; reflexivity].
      unfold chosen, content_fits, cb_size. cbn. lia. }
  destruct (try_content_length s) as (b & n & ec & E & Hn).
  unfold bind at 1. rewrite E. clear E. destruct b; cbn [negb].
  2:{ eexists _, _. split; [reflexivity|]. split; [done|constructor; reflexivity]. }
  specialize (Hn eq_refl). unfold bind at 1, gets at 1. cbn [ps_request set_field].
  change (m_content_length _) with n.
  destruct (Z.eqb_spec n 0) as [->|Nz].
  { eexists _, _. split; [reflexivity|]. split; [|constructor; reflexivity].
    unfold chosen, content_fits, cb_size. cbn. lia. }
  destruct (m_parse_headers_only (ps_parser s)) eqn:Ho.
  - destruct (n >? m_max_content_length (ps_parser s)); eexists _, _; (split; [reflexivity|]);
      (split; [|constructor; reflexivity]); unfold chosen, content_fits; cbn; congruence.
  - destruct (Z.gtb_spec n (m_max_content_length (ps_parser s)));
      eexists _, _; (split; [reflexivity|]); (split; [|constructor; reflexivity]);
      unfold chosen, content_fits; cbn -[cb_resize cb_size Z.pow]; rewrite cb_resize_size by lia;
      (split; [intros; lia|right]; split; [done|]; split; [|lia]);
      constructor; cbn -[cb_resize cb_size Z.pow Z.min]; rewrite ?cb_resize_size, ?Hr; lia.
Qed.

(** the steps of [finish_header_parsing] before the choice *)
Definition headers_finished (s : pstate) : pstate :=
  let p := (ps_parser s) <| m_bytes_content_read := 0 |> <| m_bytes_content_remaining := 0 |> in
  s <| ps_parser := p |>
    <| ps_request :=
         update_message_with_header_data p
           (on_base (fun m => update_transfer_encoding_using_header (set_content_length 0 m))
              (ps_request s)) |>.

Lemma finish_header_parsing_unfold hook s :
  finish_header_parsing hook s =
  bind choose_payload_state
    (fun rc => match rc with None => ret tfalse | Some rc => call_hook hook rc end)
    (headers_finished s).
Proof. reflexivity. Qed.

Lemma update_message_base p req :
  let m := req_base (update_message_with_header_data p req) in
  m_content_length m = m_content_length (req_base req) /\
  m_content_buf m = m_content_buf (req_base req) /\
  m_has_missing_packets m = m_has_missing_packets (req_base req) /\
  m_has_data_after_missing m = m_has_data_after_missing (req_base req) /\
  m_is_chunked m = m_is_chunked (req_base req).
Proof. unfold update_message_with_header_data. destruct (negb _); by split_and!. Qed.

Lemma transfer_encoding_base m :
  let m' := update_transfer_encoding_using_header m in
  m_content_length m' = m_content_length m /\ m_content_buf m' = m_content_buf m /\
  m_has_missing_packets m' = m_has_missing_packets m /\
  m_has_data_after_missing m' = m_has_data_after_missing m.
Proof.
  unfold update_transfer_encoding_using_header. cbv zeta.
  destruct (mm_find _ _) as [v|]; [destruct (_ || _)|]; by split_and!.
Qed.

Lemma headers_finished_frame s :
  choose_frame s (headers_finished s) /\
  m_bytes_content_read (ps_parser (headers_finished s)) = 0 /\
  m_content_length (req_base (ps_request (headers_finished s))) = 0.
Proof.
  set (req := on_base (fun m => update_transfer_encoding_using_header (set_content_length 0 m))
                (ps_request s)).
  set (p := (ps_parser s) <| m_bytes_content_read := 0 |> <| m_bytes_content_remaining := 0 |>).
  destruct (update_message_base p req) as (L & _ & M & A & _).
  destruct (transfer_encoding_base (set_content_length 0 (req_base (ps_request s))))
    as (L' & _ & M' & A').
  split; [constructor; try reflexivity|split; [reflexivity|]].
  - etransitivity; [exact M|exact M'].
  - etransitivity; [exact A|exact A'].
  - etransitivity; [exact L|exact L'].
Qed.

Lemma choose_frame_trans s s1 s2 : choose_frame s s1 -> choose_frame s1 s2 -> choose_frame s s2.
Proof. intros [] []. constructor; congruence. Qed.

Lemma finish_header_parsing_spec `{PL : !ParseUintLaw} hook s :
  0 <= m_max_content_length (ps_parser s) < 2 ^ 64 ->
  exists rc s', chosen rc s' /\ choose_frame s s' /\
    finish_header_parsing hook s =
    match rc with None => (Val tfalse, s') | Some rc => call_hook hook rc s' end.
Proof.
  intros Hm. destruct (headers_finished_frame s) as (F & Hr & Hl).
  destruct (choose_payload_spec (headers_finished s) Hr Hl) as (rc & s' & E & C & F').
  { by rewrite (cf_max _ _ F). }
  exists rc, s'. split; [done|]. split; [eapply choose_frame_trans; eassumption|].
  rewrite finish_header_parsing_unfold. unfold bind. rewrite E. by destruct rc.
Qed.

End Finish.

(** ** One iteration *)

Section Iteration.
Context `{SU : StaticlibUtils, MP : MultimapPolicy, PE : PayloadEnv, PL : !ParseUintLaw}.

Definition iter_post (s : pstate) (o : res (tribool * Z) * pstate) : Prop :=
  match o with
  | (Val (indeterminate, _), s') =>
    parse_inv s' /\ (m_read (ps_parser s') <> [] -> (parse_measure s' < parse_measure s)%nat)
  | (Val (ttrue, _), s') => content_fits s'
  | (Fault _, _) => False
  | _ => True
  end.

Lemma call_hook_post hook `{CB : !Callbacks hook} rc s :
  chosen (Some rc) s -> chunk_wf (ps_parser s) -> 0 <= m_max_content_length (ps_parser s) < 2 ^ 64 ->
  let '(r, s') := call_hook hook rc s in
  m_read (ps_parser s') = m_read (ps_parser s) /\
  match r with
  | Val indeterminate => parse_inv s' /\ (parse_measure s' <= 2)%nat
  | Val ttrue => content_fits s'
  | Fault _ => False
  | _ => True
  end.
Proof.
  intros C W Hm. unfold call_hook.
  pose proof (hook_ok (hook := hook) (ps_request s) (ps_ec s) rc (ps_world s)) as R.
  destruct (hook (ps_request s) (ps_ec s) rc (ps_world s)) as [r e].
  set (p' := match he_handler e with
             | Some h => parser_set_payload_handler h (ps_parser s) | None => ps_parser s end).
  set (s' := s <| ps_parser := p' |> <| ps_request := he_request e |> <| ps_world := he_world e |>).
  assert (exists o, p' = (ps_parser s) <| m_payload_handler := o |> /\
            (o = None -> m_payload_handler (ps_parser s) = None /\ he_handler e = None)) as (o & Ep & Ho).
  { subst p'. destruct (he_handler e) as [h|]; [by exists (Some h)|].
    exists (m_payload_handler (ps_parser s)). split; [by destruct (ps_parser s)|done]. }
  split; [subst s'; cbn [ps_parser set_field]; by rewrite Ep|].
  destruct r as [rc'|e0|f]; [|done..]. destruct R as [Sc Ri].
  assert (content_fits s -> content_fits s') as F.
  { unfold content_fits. subst s'. cbn [ps_parser ps_request set_field]. rewrite Ep. cbn. intros H N.
    destruct (Ho N) as [N1 N2]. destruct (Sc N2) as [-> ->]. by apply H. }
  destruct rc'; [done|apply F; destruct rc; [done|exact C|apply C]|].
  rewrite (Ri eq_refl) in C. destruct C as [Fi C].
  assert (m_message_parse_state p' = m_message_parse_state (ps_parser s)) as Es by (by rewrite Ep).
  split.
  - constructor; subst s'; cbn [ps_parser ps_request set_field]; [by rewrite Ep..|].
    unfold state_inv. cbn [ps_parser set_field]. rewrite Es.
    destruct C as [->|(-> & [Ir Im It Ix Ib] & Lt)]; [done|].
    split; [|split; [by rewrite Ep|by apply F]].
    constructor; cbn [ps_parser ps_request set_field]; rewrite Ep; try assumption. cbn. intros N.
    destruct (Ho N) as [N1 N2]. destruct (Sc N2) as [_ ->]. by apply Ib.
  - unfold parse_measure. subst s'. cbn [ps_parser set_field]. rewrite Es.
    destruct C as [->|(-> & _)]; lia.
Qed.

(** the state after the header parser: only the position, the error code and
    the headers of the message differ *)
Definition headers_left (s : pstate) (p : http_parser) (m : http_message) (ec : error_code) : pstate :=
  s <| ps_parser := p |> <| ps_request := (ps_request s) <| req_base := m |> |> <| ps_ec := ec |>.

Record headers_left_ok (s s1 : pstate) : Prop := {
  hlo_wf : chunk_wf (ps_parser s1);
  hlo_max : 0 <= m_max_content_length (ps_parser s1) < 2 ^ 64;
  hlo_state : m_message_parse_state (ps_parser s1) = m_message_parse_state (ps_parser s);
  hlo_fits : content_fits s -> content_fits s1;
}.

Lemma headers_left_keeps s p m ec :
  parse_inv s -> headers_frame (ps_parser s) p (req_base (ps_request s)) m ->
  headers_left_ok s (headers_left s p m ec).
Proof.
  intros [W Hm SI] [K1 K2 K3 K4 K5 K6 K7 K8 K9 K10]. unfold headers_left.
  constructor; unfold chunk_wf, content_fits;
    cbn [ps_parser ps_request set_field req_base];
    rewrite ?K1, ?K2, ?K3, ?K4, ?K5, ?K6, ?K7, ?K8, ?K9, ?K10; try assumption; done.
Qed.

Lemma finish_header_parsing_post hook `{CB : !Callbacks hook} s s0 :
  headers_left_ok s0 s ->
  match finish_header_parsing hook s with
  | (Val indeterminate, s') => parse_inv s' /\ (parse_measure s' <= 2)%nat
  | (Val ttrue, s') => content_fits s'
  | (Fault _, _) => False
  | _ => True
  end.
Proof.
  intros [W Hm _ _].
  destruct (finish_header_parsing_spec hook s Hm) as (rc & s2 & C & [C1 C2 C3 C4 C5 C6 C7 C8 C9] & ->).
  destruct rc as [rc|]; [|done].
  pose proof (call_hook_post hook rc s2 C) as P.
  destruct (call_hook hook rc s2) as [r s3]. destruct P as [_ P2].
  - unfold chunk_wf. by rewrite C6, C7.
  - by rewrite C4.
  - by destruct r as [[]|e|f].
Qed.

Lemma iterate_headers_post hook `{CB : !Callbacks hook} s :
  parse_inv s ->
  m_message_parse_state (ps_parser s) = PARSE_HEADERS \/
  m_message_parse_state (ps_parser s) = PARSE_FOOTERS ->
  iter_post s (iterate_headers hook s).
Proof.
  intros PI Hs. pose proof (pi_state s PI) as SI. unfold state_inv in SI.
  unfold iterate_headers, run_parse_headers, bind at 1, parse_headers.
  set (p0 := (ps_parser s) <| m_bytes_last_read := 0 |>).
  set (m := req_base (ps_request s)).
  pose proof (headers_loop_exit (m_read (ps_parser s)) 0 p0 m) as X.
  pose proof (headers_loop_keeps (m_read (ps_parser s)) 0 p0 m) as K.
  set (hs := headers_loop (m_read (ps_parser s)) 0 p0 m) in *. cbv zeta in X, K.
  assert (forall rest n t, headers_left_ok s (headers_left s
    ((hs_parser hs) <| m_read := rest |> <| m_bytes_last_read := n |> <| m_bytes_total_read := t |>)
    (hs_message hs) (ps_ec s))) as Keep.
  { intros. apply headers_left_keeps; [exact PI|].
    eapply (headers_frame_trans (ps_parser s) p0); [by constructor|].
    eapply headers_frame_trans; [exact K|by constructor]. }
  destruct (hs_rc hs).
  - by destruct X as [ev ->].
  - rewrite X. specialize (Keep (hs_rest hs) (hs_read hs)
      (m_bytes_total_read (hs_parser hs) +64 hs_read hs)).
    unfold headers_left in Keep.
    set (s1 := s <| ps_parser := _ |> <| ps_request := _ |> <| ps_ec := _ |>) in *.
    unfold bind at 1, last_read, gets at 1. unfold bind at 1, gets at 1.
    rewrite (hlo_state _ _ Keep). destruct Hs as [Hs|Hs]; rewrite Hs in *.
    + cbn [is_ttrue andb]. rewrite bool_decide_eq_true_2 by done.
      pose proof (finish_header_parsing_post hook s1 s Keep) as P. unfold bind.
      destruct (finish_header_parsing hook s1) as [[[]|e|f] s2]; try done. destruct P as [P1 P2].
      split; [done|]. intros _. unfold parse_measure at 2. rewrite Hs. lia.
    + exact (hlo_fits _ _ Keep SI).
  - destruct X as [-> X]. rewrite X. specialize (Keep [] (hs_read hs)
      (m_bytes_total_read (hs_parser hs) +64 hs_read hs)).
    unfold headers_left in Keep.
    set (s1 := s <| ps_parser := _ |> <| ps_request := _ |> <| ps_ec := _ |>) in *.
    destruct Keep as [W1 Hm1 S1 F1].
    cbn [iter_post bind last_read gets ret is_ttrue andb]. split; [|done].
    constructor; try assumption. unfold state_inv. rewrite S1.
    destruct Hs as [Hs|Hs]; rewrite Hs in *; [done|]. by apply F1.
Qed.

(** ** Chunks *)

(** the fields the chunk parser keeps; it changes the state of the message
    only to go on with the footers *)
Record chunks_frame (p p' : http_parser) : Prop := mk_chunks_frame {
  kf_handler : m_payload_handler p' = m_payload_handler p;
  kf_max : m_max_content_length p' = m_max_content_length p;
  kf_only : m_parse_headers_only p' = m_parse_headers_only p;
}.

Lemma chunks_frame_trans p p' p'' : chunks_frame p p' -> chunks_frame p' p'' -> chunks_frame p p''.
Proof. intros [] []. constructor; congruence. Qed.

Lemma chunk_step_keeps c buf p ch w :
  let r := chunk_step c buf p ch w in
  chunks_frame p (cresult_parser r) /\
  (m_message_parse_state (cresult_parser r) = m_message_parse_state p \/
   exists p' ch' w', r = CTrue false p' ch' w' /\ m_message_parse_state p' = PARSE_FOOTERS).
Proof.
  unfold_chunk_step. destruct (m_chunked_content_parse_state p);
    repeat (case_match; simplify_eq/=); (split; [constructor; reflexivity|]);
    first [left; reflexivity | right; eauto].
Qed.

Lemma chunks_loop_keeps buf n p ch w :
  chunk_wf p ->
  let cs := chunks_loop buf n p ch w in
  chunks_frame p (cs_parser cs) /\ chunk_wf (cs_parser cs) /\
  (m_message_parse_state (cs_parser cs) = m_message_parse_state p \/
   (cs_rc cs = Val ttrue /\ m_message_parse_state (cs_parser cs) = PARSE_FOOTERS)).
Proof.
  remember (length buf) as len eqn:Hl. revert buf Hl n p ch w.
  induction len as [len IH] using lt_wf_ind; intros [|c buf] -> n p ch w Hwf.
  { split; [constructor; reflexivity|]. split; [exact Hwf|by left]. }
  cbn [chunks_loop].
  pose proof (chunk_step_wf c (c :: buf) p ch w Hwf) as W.
  pose proof (chunk_step_keeps c (c :: buf) p ch w) as [K S]. cbv zeta in K, S.
  destruct (chunk_step c (c :: buf) p ch w) as [sk p1 ch1 w1|[] p1 ch1 w1|ev p1 ch1 w1|r p1 ch1 w1];
    cbn [cresult_parser] in *.
  - destruct S as [S|(? & ? & ? & ? & _)]; [|done].
    destruct (IH (length (dropl buf sk))
                ltac:(rewrite dropl_drop, length_drop; cbn; lia) (dropl buf sk) eq_refl
                (n + 1 + Z.of_nat sk) p1 ch1 w1 W) as (K' & W' & S').
    rewrite S in S'. split; [exact (chunks_frame_trans _ _ _ K K')|]. by split.
  - split; [exact K|]. split; [exact W|]. left. destruct S as [S|(? & ? & ? & ? & _)]; done.
  - split; [exact K|]. split; [exact W|]. destruct S as [S|(? & ? & ? & [= <- <- <-] & S)]; auto.
  - split; [exact K|]. split; [exact W|]. left. destruct S as [S|(? & ? & ? & ? & _)]; done.
  - split; [exact K|]. split; [exact W|]. left. destruct S as [S|(? & ? & ? & ? & _)]; done.
Qed.

Lemma concatenate_chunks_ok m :
  exists m', concatenate_chunks m = Val m' /\
    m_content_length m' = slen (m_chunk_cache m) /\
    cb_bytes (m_content_buf m') = m_chunk_cache m /\
    m_has_missing_packets m' = m_has_missing_packets m /\
    m_has_data_after_missing m' = m_has_data_after_missing m.
Proof.
  unfold concatenate_chunks, create_content_buffer, set_content_length. cbn -[cb_resize Z.gtb].
  pose proof (slen_nonneg (m_chunk_cache m)) as L.
  destruct (Z.gtb_spec (slen (m_chunk_cache m)) 0).
  - rewrite cb_write_put by (rewrite ?cb_resize_size; lia).
    eexists. split; [reflexivity|]. split_and!; [reflexivity| |reflexivity|reflexivity].
    unfold put. cbn -[cb_resize]. rewrite drop_ge, app_nil_r; [done|].
    unfold cb_resize, slen. cbn. rewrite length_replicate. lia.
  - eexists. split; [reflexivity|]. assert (m_chunk_cache m = []) as E by (apply slen_zero; lia).
    split_and!; [reflexivity| |reflexivity|reflexivity]. cbn. by rewrite E.
Qed.

(** the state after the chunk parser meets the invariant again, in the same
    state of the message or at the footers *)
Lemma chunks_left_inv s s1 :
  parse_inv s -> chunks_frame (ps_parser s) (ps_parser s1) -> chunk_wf (ps_parser s1) ->
  m_message_parse_state (ps_parser s1) = PARSE_CHUNKS \/
  (m_message_parse_state (ps_parser s1) = PARSE_FOOTERS /\ content_fits s1) ->
  parse_inv s1.
Proof.
  intros [W Hm _] [K1 K2 K3] W1 S1. constructor; try assumption.
  - by rewrite K2.
  - unfold state_inv. by destruct S1 as [->|[-> F]].
Qed.

Lemma iterate_chunks_post s :
  parse_inv s -> m_message_parse_state (ps_parser s) = PARSE_CHUNKS ->
  iter_post s (iterate_chunks s).
Proof.
  intros PI Hs. pose proof PI as [W Hm _].
  unfold iterate_chunks, bind at 1, try_catch, bind at 1, parse_chunks.
  set (p0 := (ps_parser s) <| m_bytes_last_read := 0 |>).
  set (ch := m_chunk_cache (req_base (ps_request s))).
  pose proof (chunks_loop_exit (m_read p0) 0 p0 ch (ps_world s) W) as X.
  pose proof (chunks_loop_keeps (m_read p0) 0 p0 ch (ps_world s) W) as (K & W1 & S1).
  set (cs := chunks_loop (m_read p0) 0 p0 ch (ps_world s)) in *. cbv zeta in X, K, W1, S1.
  destruct (cs_rc cs) as [rc|e|f]; [| |done].
  2:{ destruct (is_std e); cbn; [|done]. by destruct (m_payload_handler (cs_parser _)). }
  assert (chunks_frame (ps_parser s) (cs_parser cs)) as K' by (destruct K; by constructor).
  destruct rc.
  { destruct X as [ev ->]. cbn. by destruct (m_payload_handler _). }
  - rewrite X. set (p1 := count_content _ _). cbn [bind last_read gets].
    set (s1 := s <| ps_request := _ |> <| ps_world := _ |> <| ps_parser := p1 |>).
    change (gets ps_parser s1) with (@Val http_parser p1, s1).
    cbn [ret]. unfold bind at 1, gets at 1. change (ps_parser s1) with p1.
    destruct (m_payload_handler p1) as [h|] eqn:Hh.
    { cbn [ret iter_post]. unfold content_fits. change (ps_parser s1) with p1. by rewrite Hh. }
    cbn [is_ttrue]. unfold bind at 1, try_message.
    destruct (concatenate_chunks_ok (req_base (ps_request s1))) as (m' & -> & L & B & M & A).
    set (s2 := s1 <| ps_request := _ |>).
    assert (content_fits s2) as F2.
    { intros _ _. unfold cb_size. subst s2. cbn [ps_request set_field req_base]. rewrite L, B. lia. }
    destruct (bool_decide (m_message_parse_state p1 = PARSE_FOOTERS)) eqn:Ef; [|exact F2].
    apply bool_decide_eq_true in Ef. cbn [ret iter_post]. split.
    + apply (chunks_left_inv s); [exact PI|destruct K'; by constructor|exact W1|by right].
    + intros _. unfold parse_measure. rewrite Hs. change (ps_parser s2) with p1. rewrite Ef. lia.
  - destruct X as [-> Er]. set (p1 := count_content _ _). cbn [bind last_read gets].
    set (s1 := s <| ps_request := _ |> <| ps_world := _ |> <| ps_parser := p1 |>).
    change (gets ps_parser s1) with (@Val http_parser p1, s1).
    cbn [ret]. unfold bind at 1, gets at 1. change (ps_parser s1) with p1.
    assert (iter_post s (Val (indeterminate, cs_read cs), s1)) as G.
    { split; [|change (m_read (ps_parser s1)) with (cs_rest cs); by rewrite Er].
      apply (chunks_left_inv s); [exact PI|destruct K'; by constructor|exact W1|left].
      destruct S1 as [S1|[? _]]; [|done]. change (m_message_parse_state (cs_parser cs) = PARSE_CHUNKS).
      rewrite S1. exact Hs. }
    destruct (m_payload_handler p1); exact G.
Qed.

(** ** Content, and the whole iteration *)

Lemma deliver_length d s :
  m_content_length (req_base (ps_request (deliver d s))) = m_content_length (req_base (ps_request s)).
Proof. unfold deliver. by destruct (m_payload_handler (ps_parser s)). Qed.

Lemma iterate_content_post s :
  parse_inv s -> m_message_parse_state (ps_parser s) = PARSE_CONTENT ->
  m_read (ps_parser s) <> [] -> iter_post s (iterate_content s).
Proof.
  intros [W Hm SI] Hs NE. unfold state_inv in SI. rewrite Hs in SI.
  destruct SI as (CI & Lt & CF).
  unfold iterate_content, try_catch, bind at 1. rewrite consume_content_spec by done.
  destruct (Z.eqb_spec (m_bytes_content_remaining (ps_parser s)) 0) as [|Nz]; [lia|].
  set (p := ps_parser s) in *. set (n := Z.min (m_bytes_content_remaining p) (slen (m_read p))).
  pose proof (slen_nonneg (m_read p)) as L0.
  assert (slen (take (Z.to_nat n) (m_read p)) = n) as Ln by (apply take_len; subst n; lia).
  set (d := take (Z.to_nat n) (m_read p)) in *.
  assert (content_inv ((deliver d s) <| ps_parser := content_advance n p |>)) as CI'.
  { rewrite <- Ln. apply content_advance_inv; [exact CI|]. rewrite Ln. subst n. fold p. lia. }
  pose proof (deliver_length d s) as CL'.
  assert (cb_size (m_content_buf (req_base (ps_request (deliver d s)))) =
          cb_size (m_content_buf (req_base (ps_request s)))) as Eb.
  { apply deliver_buffer_size; [exact CI|]. rewrite Ln. subst n. fold p. lia. }
  set (s1 := (deliver d s) <| ps_parser := content_advance n p |>) in *.
  assert (content_fits s1) as CF'.
  { unfold content_fits. subst s1. cbn [ps_request set_field]. rewrite CL', Eb. exact CF. }
  destruct (thrown d s) as [e|]; [by destruct (is_std e)|].
  destruct (Z.geb_spec (slen (m_read p)) (m_bytes_content_remaining p)) as [Ge|Lt'].
  - exact CF'.
  - cbn [bind last_read gets ret iter_post]. split.
    + constructor.
      * exact W.
      * exact Hm.
      * unfold state_inv. change (m_message_parse_state (ps_parser s1)) with (m_message_parse_state p).
        rewrite Hs. split; [exact CI'|]. split; [|exact CF'].
        change (0 < m_bytes_content_remaining p - n). subst n. lia.
    + change (m_read (ps_parser s1)) with (drop (Z.to_nat n) (m_read p)).
      rewrite drop_ge; [done|]. subst n. unfold slen in *. lia.
Qed.

Lemma set_state_headers_inv s :
  parse_inv s ->
  m_message_parse_state (ps_parser s) = PARSE_START ->
  parse_inv (s <| ps_parser := (ps_parser s) <| m_message_parse_state := PARSE_HEADERS |> |>).
Proof. intros [W Hm SI] _. constructor; assumption || exact I. Qed.

Lemma iteration_post hook `{CB : !Callbacks hook} s :
  parse_inv s -> m_read (ps_parser s) <> [] -> iter_post s (parse_iteration hook s).
Proof.
  intros PI NE. pose proof (pi_state _ PI) as SI. unfold state_inv in SI.
  unfold parse_iteration, bind at 1, gets at 1.
  destruct (m_message_parse_state (ps_parser s)) eqn:Hs; try done.
  - set (s0 := s <| ps_parser := (ps_parser s) <| m_message_parse_state := PARSE_HEADERS |> |>).
    pose proof (set_state_headers_inv s PI Hs) as PI0. fold s0 in PI0.
    assert (iter_post s0 (iterate_headers hook s0)) as P by (apply iterate_headers_post; auto).
    change (iter_post s (iterate_headers hook s0)).
    unfold iter_post in *. unfold parse_measure at 2. rewrite Hs.
    destruct (iterate_headers hook s0) as [[[[] k]|e|f] s1]; exact P.
  - apply iterate_headers_post; auto.
  - apply iterate_headers_post; auto.
  - by apply iterate_content_post.
  - by apply iterate_chunks_post.
Qed.

(** ** The loop *)

(** the loop ends before its fuel, and stops in a good state *)
Definition loop_post (o : res (tribool * Z) * pstate) : Prop :=
  match o with
  | (Val (indeterminate, _), s') => parse_inv s' /\ m_read (ps_parser s') = []
  | (Val (ttrue, _), s') => content_fits s'
  | (Fault _, _) => False
  | _ => True
  end.

Lemma parse_loop_post hook `{CB : !Callbacks hook} fuel total s :
  parse_inv s -> m_read (ps_parser s) <> [] -> (parse_measure s <= fuel)%nat ->
  loop_post (parse_loop hook fuel total s).
Proof.
  revert total s. induction fuel as [|fuel IH]; intros total s PI NE L.
  { unfold parse_measure in L. destruct (m_message_parse_state _); lia. }
  cbn [parse_loop]. unfold bind at 1.
  pose proof (iteration_post hook s PI NE) as P.
  destruct (parse_iteration hook s) as [[[rc n]|e|f] s1]; [|exact P|exact P].
  unfold bind, gets. unfold eof.
  destruct rc; cbn [is_indeterminate andb]; [exact I|exact P|].
  destruct P as [PI1 ME]. destruct (bool_decide (m_read (ps_parser s1) = [])) eqn:E; cbn [negb].
  - apply bool_decide_eq_true in E. by split.
  - apply bool_decide_eq_false in E. specialize (ME E). apply IH; [done|done|lia].
Qed.

(** the amount of fuel does not matter beyond the measure *)
Lemma parse_loop_fuel hook `{CB : !Callbacks hook} f1 f2 total s :
  parse_inv s -> m_read (ps_parser s) <> [] ->
  (parse_measure s <= f1)%nat -> (parse_measure s <= f2)%nat ->
  parse_loop hook f1 total s = parse_loop hook f2 total s.
Proof.
  revert f2 total s. induction f1 as [|f1 IH]; intros f2 total s PI NE L1 L2.
  { unfold parse_measure in L1. destruct (m_message_parse_state _); lia. }
  destruct f2 as [|f2]; [unfold parse_measure in L2; destruct (m_message_parse_state _); lia|].
  cbn [parse_loop]. unfold bind at 1 3.
  pose proof (iteration_post hook s PI NE) as P.
  destruct (parse_iteration hook s) as [[[rc n]|e|f] s1]; [|done..].
  unfold bind, gets. unfold eof. destruct rc; cbn [is_indeterminate andb]; [done|done|].
  destruct P as [PI1 ME]. destruct (bool_decide (m_read (ps_parser s1) = [])) eqn:E; cbn [negb]; [done|].
  apply bool_decide_eq_false in E. specialize (ME E). apply IH; [done|done|lia|lia].
Qed.

End Iteration.
