(* ===== verification/MultipartProofs.v ===== *)
(** * Properties of [parse_multipart_form_data]

    It terminates on every input and never reads outside the payload. *)

From S2P Require Import Prelude.
From S2P Require Import Externals.
From S2P Require Import Multimap.
From S2P Require Import Strings.
From S2P Require Import Message.
From S2P Require Import Multipart.
From S2P Require Import RefUtils.

Section Safety.
Context `{SU : StaticlibUtils, MP : MultimapPolicy}.

Definition is_start (s : mp_state) : bool :=
  match mp_parse_state s with MP_PARSE_START => true | _ => false end.

(** past the first boundary at least two bytes are behind *)
Definition mp_inv (s : mp_state) : Prop := is_start s = false -> (2 <= mp_ptr s)%nat.

(** each step moves forward, or stays and starts the next part, which moves *)
Definition mp_measure (data : str) (s : mp_state) : nat :=
  (2 * (length data - mp_ptr s) + (if is_start s then 0 else 1))%nat.

Lemma mp_search_ge data boundary ptr : (ptr <= mp_search data boundary ptr)%nat.
Proof. unfold mp_search. lia. Qed.

Ltac unfold_mp_step :=
  unfold mp_step, mp_start, mp_header_cr, mp_header_lf, mp_name, mp_space, mp_value, mp_last_lf,
    mp_goto, mp_bump in *.

Lemma mp_header_done_keeps s :
  mp_ptr (mp_header_done s) = mp_ptr s.
Proof. unfold mp_header_done. by repeat case_match. Qed.

Lemma mp_step_post data boundary c s :
  (2 <= length boundary)%nat -> (mp_ptr s < length data)%nat -> mp_inv s ->
  match mp_step data boundary c s with
  | MNext s' => mp_inv (mp_bump s') /\
                (mp_measure data (mp_bump s') < mp_measure data s)%nat
  | MReturn _ _ => True
  | MThrow r _ => r = Exn ExnStd
  end.
Proof.
  intros Hb Hp I. unfold mp_inv, mp_measure, is_start in *.
  pose proof (mp_search_ge data boundary (mp_ptr s)).
  destruct (mp_parse_state s) eqn:St; unfold_mp_step; rewrite St;
    try (specialize (I eq_refl)); unfold mp_field_data;
    repeat (case_match; simplify_eq/=); rewrite ?mp_header_done_keeps in *;
    try (split; lia); try lia; try done;
    match goal with H : (_ <? _)%nat = true |- _ => apply Nat.ltb_lt in H end; lia.
Qed.

Lemma mp_loop_no_fault fuel data boundary s :
  (2 <= length boundary)%nat -> mp_inv s -> (mp_measure data s <= fuel)%nat ->
  match (mp_loop fuel data boundary s).1 with
  | Val _ => True
  | Exn e => e = ExnStd
  | Fault _ => False
  end.
Proof.
  intros Hb. revert s. induction fuel as [|fuel IH]; intros s I L; cbn [mp_loop];
    destruct (data !! mp_ptr s) as [c|] eqn:E; try done.
  - apply lookup_lt_Some in E. unfold mp_measure in L. lia.
  - apply lookup_lt_Some in E. pose proof (mp_step_post data boundary c s Hb E I) as P.
    destruct (mp_step data boundary c s) as [s'|b s'|r s'].
    + destruct P as [I' L']. apply IH; [done|lia].
    + done.
    + by rewrite P.
Qed.

End Safety.

Lemma parse_multipart_no_fault `{SU : StaticlibUtils, MP : MultimapPolicy}
    (dict : mmap) (content_type ptr : str) :
  match (parse_multipart_form_data dict content_type ptr).1 with
  | Val _ => True
  | Exn e => e = ExnStd
  | Fault _ => False
  end.
Proof.
  unfold parse_multipart_form_data. destruct (slen ptr =? 0); [done|].
  unfold mp_boundary. destruct (str_find _ content_type) as [i|]; [|done].
  cbn [fmap option_fmap option_map]. apply mp_loop_no_fault.
  - rewrite length_app. cbn. lia.
  - done.
  - unfold mp_measure, mp_fuel. cbn. lia.
Qed.

(** C32: [parse_multipart_form_data] ends on every input: the parser's loop,
    which does not advance its pointer in every iteration, stops before the
    fuel of the model runs out; it never looks outside the payload; the only
    exception it lets out is the [std::length_error] of a part that ends
    before it begins. *)
Theorem parse_multipart_total `{SU : StaticlibUtils, MP : MultimapPolicy}
    (dict : mmap) (content_type ptr : str) :
  match (parse_multipart_form_data dict content_type ptr).1 with
  | Val _ => True
  | Exn e => e = ExnStd
  | Fault _ => False
  end.
Proof. apply parse_multipart_no_fault. Qed.
