(* ===== verification/MultipartRoundTrip.v ===== *)
(** * A printed form is read back

    [parse_multipart_form_data] on a form printed as RFC 7578 says: one part
    per field, with a content-disposition and possibly a content-type. *)

From S2P Require Import Prelude.
From S2P Require Import Externals.
From S2P Require Import Multimap.
From S2P Require Import Strings.
From S2P Require Import Message.
From S2P Require Import Multipart.
From S2P Require Import MultipartProofs.
From S2P Require Import HeaderRoundTrip.

Section Form.
Context `{SU : StaticlibUtils, MP : MultimapPolicy} {IL : IequalsLaw}.

(** ** Looking for the boundary *)

Lemma prefix_before c (b u x : str) : c ∉ b -> is_prefix b (u ++ c :: x) = is_prefix b u.
Proof.
  revert u. induction b as [|a b IH]; intros u N; [by destruct u|].
  apply not_elem_of_cons in N as [Na Nb]. destruct u as [|d u]; cbn.
  - by rewrite (proj2 (Ascii.eqb_neq a c)).
  - by rewrite IH.
Qed.

Lemma search_skip b c s : is_prefix b (c :: s) = false -> search b (c :: s) = S (search b s).
Proof. intros E. cbn [search]. by rewrite E. Qed.

(** a line break and the boundary after a text that has no boundary in it *)
Lemma search_delimiter b v rest :
  CR ∉ b -> str_find b v = None -> (exists b', b = "-"%char :: b') ->
  search b (v ++ STRING_CRLF ++ b ++ rest) = (length v + 2)%nat.
Proof.
  intros N F (b' & E). induction v as [|c v IH]; cbn [app].
  - change (STRING_CRLF ++ b ++ rest) with (CR :: LF :: b ++ rest).
    rewrite !search_skip by (by rewrite E). destruct (b ++ rest) eqn:R; cbn; rewrite <- R, is_prefix_app; done.
  - cbn [str_find] in F. destruct (is_prefix b (c :: v)) eqn:P; [done|].
    apply fmap_None in F. rewrite search_skip; [by rewrite IH|].
    rewrite <- P. exact (prefix_before CR b (c :: v) _ N).
Qed.

(** ** Forms *)

Definition print_header (h w : str) : str := h ++ bs ": " ++ w ++ STRING_CRLF.

Record form_field := mk_form_field {
  ff_name : str;
  ff_type : option str;
  ff_value : str;
}.

Definition disposition (name : str) : str :=
  bs "form-data; name=" ++ [DQUOTE] ++ name ++ [DQUOTE].

Definition print_field_headers (f : form_field) : str :=
  print_header HEADER_CONTENT_DISPOSITION (disposition (ff_name f)) ++
  match ff_type f with Some t => print_header HEADER_CONTENT_TYPE t | None => [] end.

Definition print_field (boundary : str) (f : form_field) : str :=
  boundary ++ STRING_CRLF ++ print_field_headers f ++ STRING_CRLF ++ ff_value f ++ STRING_CRLF.

Definition print_form (boundary : str) (fields : list form_field) : str :=
  concat (map (print_field boundary) fields) ++ boundary ++ bs "--".

(** the fields that are saved: of a text type or of none *)
Definition kept_field (f : form_field) : bool :=
  match ff_type f with Some t => iequals (substr t 0 5) (bs "text/") | None => true end.

(** printing characters of a header's name and value *)
Definition name_char (c : char) : Prop := c <> CR /\ c <> LF /\ c <> ":"%char.
Definition value_char (c : char) : Prop := c <> CR /\ c <> LF.

Definition type_ok (t : str) : Prop :=
  exists c t', t = c :: t' /\ c <> " "%char /\ Forall value_char t.

(** a field that can be printed: a name that can be quoted, and a value that
    the boundary does not occur in *)
Record field_ok (boundary : str) (f : form_field) : Prop := mk_field_ok {
  fo_name : ff_name f <> [];
  fo_name_chars : Forall (fun c => value_char c /\ c <> DQUOTE) (ff_name f);
  fo_type : match ff_type f with Some t => type_ok t | None => True end;
  fo_value : str_find boundary (ff_value f) = None;
}.

(** ** The loop in several steps *)

Section Loop.
Context (data boundary : str).

Definition goes (s t : mp_state) : Prop :=
  exists k, forall fuel, mp_loop (k + fuel) data boundary s = mp_loop fuel data boundary t.

Lemma goes_refl s : goes s s.
Proof. by exists O. Qed.

Lemma goes_trans s t u : goes s t -> goes t u -> goes s u.
Proof. intros (j & J) (k & K). exists (j + k)%nat. intros fuel. by rewrite <- Nat.add_assoc, J, K. Qed.

Lemma at_head p c (rest : str) : drop p data = c :: rest -> data !! p = Some c /\ drop (S p) data = rest.
Proof.
  intros E. split.
  - rewrite <- (Nat.add_0_r p), <- lookup_drop, E. done.
  - replace (S p) with (p + 1)%nat by lia. by rewrite <- drop_drop, E.
Qed.

Lemma at_more p (w rest : str) : drop p data = w ++ rest -> drop (p + length w) data = rest.
Proof. intros E. by rewrite <- drop_drop, E, drop_app_length. Qed.

Lemma goes_step c rest s t :
  drop (mp_ptr s) data = c :: rest -> mp_step data boundary c s = MNext t -> goes s (mp_bump t).
Proof.
  intros E S. apply at_head in E as [E _]. exists 1%nat. intros fuel. cbn [Nat.add mp_loop]. by rewrite E, S.
Qed.

(** the same with the state after the step *)
Lemma goes_one c rest s t u :
  drop (mp_ptr s) data = c :: rest -> mp_step data boundary c s = MNext t -> mp_bump t = u -> goes s u.
Proof. intros E S <-. by eapply goes_step. Qed.

Lemma loop_more fuel k s :
  (mp_loop fuel data boundary s).1 <> Fault OutOfFuel ->
  mp_loop (fuel + k) data boundary s = mp_loop fuel data boundary s.
Proof.
  revert s. induction fuel as [|fuel IH]; intros s N; cbn [Nat.add mp_loop] in *.
  - destruct k; cbn [mp_loop]; by destruct (data !! mp_ptr s).
  - destruct (data !! mp_ptr s); [|done]. destruct (mp_step _ _ _ s); [by apply IH|done..].
Qed.

(** the loop has fuel for whatever it can do *)
Lemma goes_result s t r fuel :
  (2 <= length boundary)%nat -> mp_inv s -> (mp_measure data s <= fuel)%nat ->
  goes s t -> mp_loop 1 data boundary t = r -> r.1 <> Fault OutOfFuel ->
  mp_loop fuel data boundary s = r.
Proof.
  intros B I M (k & K) R N. specialize (K 1%nat). rewrite R in K.
  pose proof (mp_loop_no_fault fuel data boundary s B I M) as F.
  rewrite <- K, <- (loop_more fuel (k + 1)) by (intros E; by rewrite E in F).
  rewrite Nat.add_comm, loop_more; [done|]. by rewrite K.
Qed.

(** ** Headers *)

Ltac neq := repeat match goal with H : _ <> _ |- _ => apply Ascii.eqb_neq in H end.

Lemma goes_name w rest n v f fp sv p d :
  Forall name_char w -> drop p data = w ++ rest ->
  goes (mk_mp_state MP_PARSE_HEADER_NAME n v f fp sv p d)
       (mk_mp_state MP_PARSE_HEADER_NAME (n ++ w) v f fp sv (p + length w) d).
Proof.
  intros F. revert n p. induction F as [|c w (N1 & N2 & N3) _ IH]; intros n p E.
  - rewrite app_nil_r, Nat.add_0_r. apply goes_refl.
  - neq. pose proof (at_head _ _ _ E) as [_ E'].
    eapply goes_trans.
    + eapply goes_step; [exact E|]. cbn. unfold mp_name. rewrite N1, N2, N3. reflexivity.
    + specialize (IH (n ++ [c]) (S p) E'). cbn. rewrite <- app_assoc in IH.
      by rewrite <- Nat.add_succ_comm.
Qed.

Lemma goes_value w rest n v f fp sv p d :
  Forall value_char w -> drop p data = w ++ rest ->
  goes (mk_mp_state MP_PARSE_HEADER_VALUE n v f fp sv p d)
       (mk_mp_state MP_PARSE_HEADER_VALUE n (v ++ w) f fp sv (p + length w) d).
Proof.
  intros F. revert v p. induction F as [|c w (N1 & N2) _ IH]; intros v p E.
  - rewrite app_nil_r, Nat.add_0_r. apply goes_refl.
  - neq. pose proof (at_head _ _ _ E) as [_ E'].
    eapply goes_trans.
    + eapply goes_step; [exact E|]. cbn. unfold mp_value. rewrite N1, N2. reflexivity.
    + specialize (IH (v ++ [c]) (S p) E'). cbn. rewrite <- app_assoc in IH.
      by rewrite <- Nat.add_succ_comm.
Qed.

(** one character, whose step is computed *)
Ltac go E :=
  eapply goes_trans; [eapply goes_step; [exact E|reflexivity]|]; apply at_head in E as [_ E];
  cbn [mp_bump mp_parse_state mp_ptr set_field mp_header_name mp_header_value mp_field_name
       found_parameter save_current_field mp_dict].

Definition header_effect (h w f : str) (sv : bool) : str * bool :=
  if iequals h HEADER_CONTENT_TYPE then (f, iequals (substr w 0 5) (bs "text/"))
  else if iequals h HEADER_CONTENT_DISPOSITION then
    (match str_find (bs "name=" ++ [DQUOTE]) w with
     | Some pos => f ++ until_quote (drop (pos + 6) w)
     | None => f
     end, sv)
  else (f, sv).

Lemma mp_header_done_effect q h w f fp sv p d :
  mp_header_done (mk_mp_state q h w f fp sv p d) =
  mk_mp_state q h w (header_effect h w f sv).1 fp (header_effect h w f sv).2 p d.
Proof. unfold mp_header_done, header_effect. cbn. by repeat case_match. Qed.

Lemma goes_header h c w rest f fp sv p d :
  Forall name_char h -> Forall value_char (c :: w) -> c <> " "%char ->
  drop p data = print_header h (c :: w) ++ rest ->
  goes (mk_mp_state MP_PARSE_HEADER_NAME [] [] f fp sv p d)
       (mk_mp_state MP_PARSE_HEADER_NAME [] [] (header_effect h (c :: w) f sv).1 fp
          (header_effect h (c :: w) f sv).2 (p + length (print_header h (c :: w))) d).
Proof.
  intros Fh Fw Nc E. unfold print_header in *. rewrite <- !app_assoc in E.
  apply Forall_cons_iff in Fw as [(N1 & N2) Fw]. neq.
  eapply goes_trans; [by eapply goes_name|]. apply at_more in E. cbn [app] in *.
  change (bs ": ") with [":"%char; " "%char] in *. cbn [app] in E. go E. go E.
  eapply goes_trans.
  { eapply goes_step; [exact E|]. cbn. unfold mp_space. rewrite N1, N2, Nc. reflexivity. }
  apply at_head in E as [_ E]. cbn.
  eapply goes_trans; [by eapply goes_value|]. apply at_more in E. cbn [app].
  change STRING_CRLF with [CR; LF] in *. cbn [app] in E.
  eapply goes_trans; [eapply goes_step; [exact E|]|].
  { cbn. unfold mp_value. cbn [Ascii.eqb orb]. rewrite mp_header_done_effect. reflexivity. }
  apply at_head in E as [_ E]. cbn -[header_effect]. go E.
  replace (p + length (h ++ _))%nat with (S (S (S (S (S (p + length h + length w)))))); [apply goes_refl|].
  rewrite length_app. cbn [length]. rewrite length_app. cbn [length]. lia.
Qed.

Lemma iequals_length x y : iequals x y = true -> length x = length y.
Proof. intros E%iequals_spec%(f_equal length). by rewrite !length_map in E. Qed.

Lemma until_quote_name name : Forall (fun c => value_char c /\ c <> DQUOTE) name ->
  until_quote (name ++ [DQUOTE]) = name.
Proof.
  induction 1 as [|c name [_ N] _ IH]; [done|]. cbn. apply Ascii.eqb_neq in N. by rewrite N, IH.
Qed.

Lemma disposition_effect name : Forall (fun c => value_char c /\ c <> DQUOTE) name ->
  header_effect HEADER_CONTENT_DISPOSITION (disposition name) [] true = (name, true).
Proof.
  intros F. unfold header_effect. rewrite iequals_refl.
  destruct (iequals HEADER_CONTENT_DISPOSITION HEADER_CONTENT_TYPE) eqn:E;
    [by apply iequals_length in E|].
  assert (disposition name = bs "form-data; " ++ (bs "name=" ++ [DQUOTE]) ++ name ++ [DQUOTE]) as D
    by (unfold disposition; reflexivity).
  rewrite D, str_find_app.
  - rewrite <- (until_quote_name name F) at 2. reflexivity.
  - intros i Hi. change (length (bs "form-data; ")) with 11%nat in Hi.
    do 11 (destruct i as [|i]; [reflexivity|]). lia.
Qed.

Lemma goes_field_headers f rest fp p d :
  field_ok boundary f -> drop p data = print_field_headers f ++ rest ->
  goes (mk_mp_state MP_PARSE_HEADER_NAME [] [] [] fp true p d)
       (mk_mp_state MP_PARSE_HEADER_NAME [] [] (ff_name f) fp (kept_field f)
          (p + length (print_field_headers f)) d).
Proof.
  intros [_ Fn Ft _] E. unfold print_field_headers, kept_field in *. rewrite <- app_assoc in E.
  assert (Forall value_char (disposition (ff_name f))) as Fd.
  { unfold disposition. rewrite !Forall_app. split_and!; try (by repeat constructor).
    eapply Forall_impl; [|exact Fn]. by intros c []. }
  eapply goes_trans.
  { eapply (goes_header HEADER_CONTENT_DISPOSITION "f"%char); [by repeat constructor|exact Fd|done|exact E]. }
  change ("f"%char :: _) with (disposition (ff_name f)).
  rewrite disposition_effect by done. cbn [fst snd]. apply at_more in E.
  destruct (ff_type f) as [t|]; [|by rewrite app_nil_r; apply goes_refl].
  destruct Ft as (c & t' & -> & Nc & Fv).
  eapply goes_trans; [eapply (goes_header HEADER_CONTENT_TYPE c t'); [by repeat constructor|done|done|exact E]|].
  unfold header_effect. rewrite iequals_refl. cbn [fst snd].
  rewrite length_app, Nat.add_assoc. apply goes_refl.
Qed.

Context (dash : exists b', boundary = "-"%char :: b') (no_cr : CR ∉ boundary).

Lemma goes_boundary rest n v f fp sv p d :
  drop p data = boundary ++ STRING_CRLF ++ rest ->
  goes (mk_mp_state MP_PARSE_START n v f fp sv p d)
       (mk_mp_state MP_PARSE_HEADER_NAME [] [] [] fp true (p + length boundary + 2) d).
Proof using dash.
  intros E. pose proof (at_more _ _ _ E) as E'. destruct dash as (b' & B). rewrite B in E.
  apply (goes_trans _ (mk_mp_state MP_PARSE_HEADER_CR [] [] [] fp true (p + length boundary) d)).
  { eapply goes_one; [exact E|reflexivity|]. rewrite B. cbn [length]. rewrite Nat.add_succ_r.
    cbn. rewrite Nat.sub_0_r. reflexivity. }
  change (STRING_CRLF ++ rest) with (CR :: LF :: rest) in E'. go E'. go E'.
  replace (p + length boundary + 2)%nat with (S (S (p + length boundary))) by lia. apply goes_refl.
Qed.

Lemma goes_field_data name v rest fp p d :
  drop p data = v ++ STRING_CRLF ++ boundary ++ rest -> (2 <= p)%nat ->
  search boundary (v ++ STRING_CRLF ++ boundary ++ rest) = (length v + 2)%nat ->
  goes (mk_mp_state MP_PARSE_FIELD_DATA [] [] name fp true p d)
       (mk_mp_state MP_PARSE_START [] [] name true true (p + (length v + 2)) (mm_insert (name, v) d)).
Proof.
  intros E P Hs. assert (exists c r, v ++ STRING_CRLF ++ boundary ++ rest = c :: r) as (c & r & Hc)
    by (destruct v; eauto).
  eapply goes_one with (t := mk_mp_state MP_PARSE_START [] [] name true true (p + (length v + 2))
    (mm_insert (name, v) d)); [by rewrite <- Hc| |reflexivity].
  cbn [mp_step mp_parse_state]. unfold mp_field_data, mp_search. cbn [mp_ptr]. rewrite E, Hs.
  pose proof (at_more _ _ _ E) as E1. change (STRING_CRLF ++ boundary ++ rest) with (CR :: LF :: boundary ++ rest) in E1.
  apply at_head in E1 as [C E1]. apply at_head in E1 as [L _].
  replace (p + (length v + 2) - 2)%nat with (p + length v)%nat by lia.
  rewrite C, L, !bool_decide_eq_true_2 by done. cbn [andb].
  rewrite (proj2 (Nat.ltb_ge _ 2)), (proj2 (Nat.ltb_ge _ p)) by lia.
  unfold substr. rewrite E. replace (p + length v - p)%nat with (length v) by lia.
  rewrite take_app_length. reflexivity.
Qed.

Lemma goes_data name v rest fp (kept : bool) p d :
  name <> [] -> str_find boundary v = None ->
  drop p data = STRING_CRLF ++ v ++ STRING_CRLF ++ boundary ++ rest ->
  goes (mk_mp_state MP_PARSE_HEADER_NAME [] [] name fp kept p d)
       (mk_mp_state MP_PARSE_START [] [] name (fp || kept) kept (p + (length v + 4))
          (if kept then mm_insert (name, v) d else d)).
Proof.
  intros N F E. pose proof (search_delimiter boundary v rest no_cr F dash) as Hs.
  change (STRING_CRLF ++ v ++ STRING_CRLF ++ boundary ++ rest)
    with (CR :: LF :: v ++ STRING_CRLF ++ boundary ++ rest) in E.
  go E. pose proof E as E1. apply at_head in E as [_ E].
  replace (p + (length v + 4))%nat with (S (S p) + (length v + 2))%nat by lia. destruct kept.
  - eapply goes_trans.
    { eapply goes_one with (t := mk_mp_state MP_PARSE_FIELD_DATA [] [] name fp true (S p) d);
        [exact E1| |reflexivity].
      cbn. unfold mp_last_lf. cbn. rewrite bool_decide_eq_false_2 by done. reflexivity. }
    rewrite orb_true_r. exact (goes_field_data name v rest fp _ d E ltac:(lia) Hs).
  - rewrite orb_false_r.
    eapply goes_one with (t := mk_mp_state MP_PARSE_START [] [] name fp false
      (mp_search data boundary (S p)) d); [exact E1|reflexivity|].
    unfold mp_search. rewrite E1, search_skip by (by destruct dash as (b' & ->)).
    rewrite Hs. rewrite Nat.add_succ_r. reflexivity.
Qed.

Lemma goes_field f rest n v g fp sv p d :
  field_ok boundary f -> drop p data = print_field boundary f ++ boundary ++ rest ->
  goes (mk_mp_state MP_PARSE_START n v g fp sv p d)
       (mk_mp_state MP_PARSE_START [] [] (ff_name f) (fp || kept_field f) (kept_field f)
          (p + length (print_field boundary f))
          (if kept_field f then mm_insert (ff_name f, ff_value f) d else d)).
Proof using IL dash no_cr.
  intros Ok E. unfold print_field in *. rewrite <- !app_assoc in E.
  eapply goes_trans; [by eapply goes_boundary|].
  apply at_more in E. apply (at_more _ STRING_CRLF) in E. change (length STRING_CRLF) with 2%nat in E.
  eapply goes_trans; [by eapply goes_field_headers|]. apply at_more in E.
  eapply goes_trans; [eapply goes_data; [apply Ok|apply Ok|exact E]|].
  replace (p + length (boundary ++ _))%nat
    with (p + length boundary + 2 + length (print_field_headers f) + (length (ff_value f) + 4))%nat;
    [apply goes_refl|].
  rewrite !length_app. change (length STRING_CRLF) with 2%nat. lia.
Qed.

End Loop.

(** what a form adds to the dictionary *)
Definition saved_fields (fields : list form_field) : mmap :=
  map (fun f => (ff_name f, ff_value f)) (List.filter kept_field fields).

Lemma print_form_boundary boundary fields rest :
  exists r, print_form boundary fields ++ rest = boundary ++ r.
Proof.
  destruct fields as [|f fields]; unfold print_form; cbn [map concat app].
  - exists (bs "--" ++ rest). by rewrite <- app_assoc.
  - unfold print_field. rewrite <- !app_assoc. eauto.
Qed.

Lemma goes_fields data boundary fields rest :
  (exists b', boundary = "-"%char :: b') -> CR ∉ boundary -> Forall (field_ok boundary) fields ->
  forall n v g fp sv p d, drop p data = print_form boundary fields ++ rest ->
  exists n' v' g' fp' sv' p',
    goes data boundary (mk_mp_state MP_PARSE_START n v g fp sv p d)
      (mk_mp_state MP_PARSE_START n' v' g' fp' sv' p' (insert_all (saved_fields fields) d)) /\
    drop p' data = boundary ++ bs "--" ++ rest.
Proof.
  intros B N F. induction F as [|f fields Ok _ IH]; intros n v g fp sv p d E.
  - exists n, v, g, fp, sv, p. split; [apply goes_refl|]. rewrite E. unfold print_form. cbn.
    by rewrite <- app_assoc.
  - assert (drop p data = print_field boundary f ++ print_form boundary fields ++ rest) as E1
      by (rewrite E; unfold print_form; cbn [map concat]; by rewrite <- !app_assoc).
    destruct (print_form_boundary boundary fields rest) as (r & R). pose proof E1 as E2. rewrite R in E2.
    pose proof (at_more _ _ _ _ E1) as E3.
    destruct (IH [] [] (ff_name f) (fp || kept_field f) (kept_field f) _
                 (if kept_field f then mm_insert (ff_name f, ff_value f) d else d) E3)
      as (n' & v' & g' & fp' & sv' & p' & G & D).
    exists n', v', g', fp', sv', p'. split; [|exact D].
    eapply goes_trans; [by eapply goes_field|].
    unfold saved_fields. cbn [List.filter]. by destruct (kept_field f).
Qed.

(** the closing boundary ends the loop *)
Lemma goes_close data boundary rest n v g fp sv p d :
  (exists b', boundary = "-"%char :: b') -> drop p data = boundary ++ bs "--" ++ rest ->
  exists t, goes data boundary (mk_mp_state MP_PARSE_START n v g fp sv p d) t /\
    mp_loop 1 data boundary t = (Val true, d).
Proof.
  intros (b' & B) E. pose proof (at_more _ _ _ _ E) as E'. rewrite B in E.
  exists (mk_mp_state MP_PARSE_HEADER_CR [] [] [] fp true (p + length boundary) d). split.
  { eapply goes_one; [exact E|reflexivity|]. rewrite B. cbn [length]. rewrite Nat.add_succ_r.
    cbn. rewrite Nat.sub_0_r. reflexivity. }
  change (bs "--" ++ rest) with ("-"%char :: "-"%char :: rest) in E'.
  apply at_head in E' as [C E']. apply at_head in E' as [C' _].
  cbn [mp_loop mp_ptr mp_step mp_parse_state]. rewrite C. unfold mp_header_cr. cbn [mp_ptr].
  by rewrite C', bool_decide_eq_true_2.
Qed.

(** C15: Reading back a printed form.  A form of any number of fields, each
    with a content-disposition that names it, possibly a content-type, and a
    value that does not contain the boundary (but may contain line breaks,
    quotes and anything else), is parsed as the fields of a text type or of
    none: they are inserted in order, each with its exact value, the others
    are skipped, and whatever follows the closing boundary is ignored. *)
Theorem multipart_roundtrip (content_type boundary epilogue : str) (fields : list form_field)
    (dict : mmap) :
  mp_boundary content_type = Some boundary -> CR ∉ boundary -> Forall (field_ok boundary) fields ->
  parse_multipart_form_data dict content_type (print_form boundary fields ++ epilogue)
  = (Val true, insert_all (saved_fields fields) dict).
Proof.
  intros M N F. unfold parse_multipart_form_data. rewrite M.
  assert (exists b', boundary = "-"%char :: "-"%char :: b') as (b' & B).
  { unfold mp_boundary in M. destruct (str_find _ content_type); [|done].
    cbn [fmap option_fmap option_map] in M. injection M as <-. eexists. reflexivity. }
  assert (exists b', boundary = "-"%char :: b') as D by eauto.
  set (data := print_form boundary fields ++ epilogue).
  destruct (print_form_boundary boundary fields epilogue) as (r & R). fold data in R.
  assert (search boundary data = O) as S
    by (rewrite R, B; cbn; by rewrite is_prefix_app).
  assert ((slen data =? 0)%Z = false) as -> by (rewrite R, B; reflexivity). rewrite S.
  destruct (goes_fields data boundary fields epilogue D N F [] [] [] false true O dict)
    as (n & v & g & fp & sv & p & G & E); [by rewrite drop_0|].
  destruct (goes_close data boundary epilogue n v g fp sv p (insert_all (saved_fields fields) dict) D E)
    as (t & G' & L).
  eapply goes_result; [rewrite B; cbn; lia|done|unfold mp_measure, mp_fuel; cbn; lia| |exact L|done].
  by eapply goes_trans.
Qed.

End Form.

(** ** Examples *)

From S2P Require Import RefUtils.

Definition sample_fields : list form_field := [
  mk_form_field (bs "a") None (bs "1" ++ STRING_CRLF ++ bs "--X");
  mk_form_field (bs "b") (Some (bs "text/plain")) [];
  mk_form_field (bs "c") (Some (bs "image/png")) (bs "--XY-");
  mk_form_field (bs "a") None (bs "2")].

Lemma multipart_roundtrip_witness :
  parse_multipart_form_data [] (bs "multipart/form-data; boundary=XYZ")
    (print_form (bs "--XYZ") sample_fields ++ STRING_CRLF)
  = (Val true, insert_all [(bs "a", bs "1" ++ STRING_CRLF ++ bs "--X"); (bs "b", []); (bs "a", bs "2")] []).
Proof.
  assert (mp_boundary (bs "multipart/form-data; boundary=XYZ") = Some (bs "--XYZ")) as M
    by (vm_compute; reflexivity).
  assert (CR ∉ bs "--XYZ") as N by (apply (bool_decide_eq_false_1 _); vm_compute; reflexivity).
  assert (Forall (field_ok (bs "--XYZ")) sample_fields) as F.
  { repeat constructor; cbn; try discriminate.
    all: eexists _, _; split; [reflexivity|]; split; [discriminate|]; repeat constructor; discriminate. }
  pose proof (multipart_roundtrip (bs "multipart/form-data; boundary=XYZ") (bs "--XYZ") STRING_CRLF
    sample_fields [] M N F) as R.
  exact R.
Defined.
