(* ===== verification/ParserTheorems.v ===== *)
(** * Theorems about [http_parser::parse]

    Memory safety and termination of a call, the invariant between calls,
    and independence of how the input is cut into buffers. *)

From S2P Require Import Prelude.
From S2P Require Import Externals.
From S2P Require Import Algorithm.
From S2P Require Import Multimap.
From S2P Require Import Strings.
From S2P Require Import Message.
From S2P Require Import Request.
From S2P Require Import FormParsers.
From S2P Require Import Multipart.
From S2P Require Import ParserState.
From S2P Require Import HeaderParser.
From S2P Require Import BodyParser.
From S2P Require Import Parser.
From S2P Require Import RefUtils.
From S2P Require Import HeaderProofs.
From S2P Require Import BodyProofs.
From S2P Require Import ContentProofs.
From S2P Require Import ParserInv.
From S2P Require Import MultipartProofs.

Section Safety.
Context `{SU : StaticlibUtils, MP : MultimapPolicy, PE : PayloadEnv, PL : !ParseUintLaw}.

Definition no_fault {A} (r : res A) : Prop := match r with Fault _ => False | _ => True end.

Lemma finish_form_data_safe s :
  m_content_length (req_base (ps_request s)) <=
    cb_size (m_content_buf (req_base (ps_request s))) + 1 ->
  no_fault (finish_form_data s).1.
Proof.
  intros L. unfold finish_form_data, bind at 1, gets.
  assert (forall T (f : fault) (k : str -> T),
    exists d, cb_read (m_content_buf (req_base (ps_request s)))
                (m_content_length (req_base (ps_request s))) = Val d) as Rd.
  { intros. unfold cb_read. destruct (Z.leb_spec (m_content_length (req_base (ps_request s)))
      (cb_size (m_content_buf (req_base (ps_request s))) + 1)); [eauto|lia]. }
  destruct (Rd unit OutOfFuel (fun _ => tt)) as [d ->].
  destruct (compare_prefix _ _); [exact I|]. destruct (compare_prefix _ _); [|exact I].
  pose proof (parse_multipart_no_fault (req_query_params (ps_request s))
    (get_header (req_base (ps_request s)) HEADER_CONTENT_TYPE) d) as P.
  destruct (parse_multipart_form_data _ _ d) as [r dict]. cbn [fst] in P.
  unfold bind, on_request, modify. by destruct r.
Qed.

(** [finish] as [parse] calls it, at the end of the message *)
Lemma finish_safe s :
  content_fits s -> no_fault (finish (s <| ps_parser :=
    (ps_parser s) <| m_message_parse_state := PARSE_END |> |>)).1.
Proof.
  intros F. unfold finish, bind at 1, gets at 1. cbn [ps_parser set_field m_message_parse_state].
  unfold bind at 1, on_message, on_request, modify, finish_rest, bind at 1, on_message, on_request,
    modify, bind at 1, gets at 1.
  cbn [ps_parser set_field m_payload_handler].
  destruct (m_payload_handler (ps_parser s)) as [h|] eqn:Hh; [exact I|].
  cbn [set_field m_parse_headers_only].
  destruct (m_parse_headers_only (ps_parser s)) eqn:Ho; [exact I|].
  apply finish_form_data_safe. exact (F Hh Ho).
Qed.

(** the start of a call *)
Definition prologue_state (s : pstate) : pstate :=
  if m_has_missing_packets (req_base (ps_request s))
  then s <| ps_request := on_base (set_data_after_missing_packet true) (ps_request s) |>
  else s.

Lemma parse_prologue_eq s :
  m_read (ps_parser s) <> [] -> parse_prologue s = (Val tt, prologue_state s).
Proof.
  intros NE. unfold parse_prologue, prologue_state, bind, gets, eof.
  rewrite bool_decide_eq_false_2 by done. by destruct (m_has_missing_packets _).
Qed.

Lemma prologue_inv s : parse_inv s -> parse_inv (prologue_state s).
Proof.
  intros [W Hm SI]. unfold prologue_state.
  destruct (m_has_missing_packets (req_base (ps_request s))) eqn:E; constructor; try assumption.
  unfold state_inv in *. cbn [ps_parser set_field].
  destruct (m_message_parse_state (ps_parser s)); try exact SI.
  destruct SI as (CI & L & F). destruct CI. split; [by constructor|]. by split.
Qed.

Lemma parse_inv_with_read b s : parse_inv s -> parse_inv (with_read b s).
Proof.
  intros [W Hm SI]. constructor; [exact W|exact Hm|].
  unfold state_inv in *. cbn [ps_parser set_field with_read m_message_parse_state] in *.
  destruct (m_message_parse_state (ps_parser s)); try exact SI.
  destruct SI as (CI & L & F). split; [by apply content_inv_with_read|]. by split.
Qed.

(** a fresh parser and message *)
Lemma new_ready g1 g2 max b req ec w :
  0 <= g1 < 2 ^ 64 -> 0 <= g2 < 2 ^ 64 -> 0 <= max < 2 ^ 64 ->
  parse_inv (mk_pstate (set_read_buffer b (new_parser g1 g2 max)) req ec w).
Proof. intros H1 H2 H3. by constructor. Qed.

Lemma parse_measure_fuel s : (parse_measure s <= parse_fuel)%nat.
Proof. unfold parse_measure, parse_fuel. destruct (m_message_parse_state _); lia. Qed.

Lemma parse_keeps_ready hook `{CB : !Callbacks hook} (s : pstate) :
  parse_inv s -> m_read (ps_parser s) <> [] ->
  match parse hook s with
  | (Fault _, _) => False
  | (Val indeterminate, s') => parse_inv s' /\ m_read (ps_parser s') = []
  | _ => True
  end.
Proof.
  intros R NE. unfold parse, bind at 1. rewrite parse_prologue_eq by done.
  pose proof (prologue_inv s R) as PI.
  assert (m_read (ps_parser (prologue_state s)) <> []) as NE'.
  { unfold prologue_state. by destruct (m_has_missing_packets _). }
  pose proof (parse_loop_post hook parse_fuel 0 _ PI NE' (parse_measure_fuel _)) as P.
  unfold bind at 1.
  destruct (parse_loop hook parse_fuel 0 (prologue_state s)) as [[[rc n]|e|f] s1]; [|exact I|exact P].
  unfold parse_epilogue. destruct rc; cbn [is_ttrue is_tfalse].
  - exact I.
  - pose proof (finish_safe s1 P) as F. unfold bind, on_parser, modify.
    destruct (finish _) as [[]  s2]; [exact I|exact I|exact F].
  - destruct P as [PI1 E]. unfold bind, ret, on_parser, modify. split; [|exact E].
    destruct PI1 as [W Hm SI]. constructor; try assumption.
    unfold state_inv in *. cbn [ps_parser set_field m_message_parse_state] in *.
    destruct (m_message_parse_state (ps_parser s1)); try exact SI.
    destruct SI as (CI & L & F). destruct CI. split; [by constructor|]. by split.
Qed.

(** with a payload handler that throws nothing but [std::exception]s, an
    iteration over the payload returns *)
Definition throws_std (h : handler) : Prop :=
  forall d w e, (run_handler h d w).1 = Some e -> is_std e = true.

Definition payload_done (h : handler) (o : res (tribool * Z) * pstate) : Prop :=
  exists rc n s1, o = (Val (rc, n), s1) /\
    m_payload_handler (ps_parser s1) = Some h /\ (rc = indeterminate -> m_read (ps_parser s1) = []).

Lemma payload_done_intro h rc n s1 :
  m_payload_handler (ps_parser s1) = Some h -> (rc = indeterminate -> m_read (ps_parser s1) = []) ->
  payload_done h (Val (rc, n), s1).
Proof. intros H E. exists rc, n, s1. by split_and!. Qed.

Lemma parse_chunks_handled h s :
  chunk_wf (ps_parser s) -> m_payload_handler (ps_parser s) = Some h -> throws_std h ->
  match parse_chunks s with
  | (Val rc, s1) => m_payload_handler (ps_parser s1) = Some h /\ (rc = indeterminate -> m_read (ps_parser s1) = [])
  | (Exn e, s1) => m_payload_handler (ps_parser s1) = Some h /\ is_std e = true
  | (Fault _, _) => False
  end.
Proof.
  intros W Hh Std. unfold parse_chunks. set (p0 := (ps_parser s) <| m_bytes_last_read := 0 |>).
  set (ch := m_chunk_cache _).
  pose proof (chunks_loop_exit (m_read p0) 0 p0 ch (ps_world s) W) as X.
  pose proof (chunks_loop_keeps (m_read p0) 0 p0 ch (ps_world s) W) as ([K _ _] & _ & _).
  change (m_payload_handler p0) with (m_payload_handler (ps_parser s)) in *. rewrite Hh in K, X.
  set (cs := chunks_loop _ _ _ _ _) in *. cbv zeta in X, K |- *. clearbody cs.
  destruct (cs_rc cs) as [rc|e|f]; [|split; [exact K|]|done].
  - destruct (cs_error cs) as [ev|]; (split; [exact K|]); intros ->; [by destruct X|apply X].
  - destruct X as (_ & h' & d & w & [= <-] & E). exact (Std _ _ _ E).
Qed.

Lemma iterate_chunks_handled h s :
  chunk_wf (ps_parser s) -> m_payload_handler (ps_parser s) = Some h -> throws_std h ->
  payload_done h (iterate_chunks s).
Proof.
  intros W Hh Std. pose proof (parse_chunks_handled h s W Hh Std) as P.
  unfold iterate_chunks, bind at 1, try_catch, bind at 1.
  destruct (parse_chunks s) as [[rc|e|f] s1]; [| |done]; destruct P as [K P].
  - unfold bind, last_read, gets. cbn [ret]. rewrite K. by apply payload_done_intro.
  - rewrite P. unfold bind, gets. cbn [ret]. rewrite K. by apply payload_done_intro.
Qed.

Lemma iterate_content_handled h s :
  parse_inv s -> m_read (ps_parser s) <> [] -> m_message_parse_state (ps_parser s) = PARSE_CONTENT ->
  m_payload_handler (ps_parser s) = Some h -> throws_std h ->
  payload_done h (iterate_content s).
Proof.
  intros [W Hm SI] NE Hs Hh Std. unfold state_inv in SI. rewrite Hs in SI. destruct SI as (CI & L & _).
  unfold iterate_content, try_catch, bind at 1. rewrite consume_content_spec by done.
  destruct (Z.eqb_spec (m_bytes_content_remaining (ps_parser s)) 0); [lia|]. unfold thrown. rewrite Hh.
  destruct (run_handler h _ (ps_world s)).1 as [e|] eqn:E.
  - rewrite (Std _ _ _ E). by apply payload_done_intro.
  - unfold bind, last_read, gets. cbn [ret]. apply payload_done_intro; [done|].
    destruct (Z.geb_spec (slen (m_read (ps_parser s))) (m_bytes_content_remaining (ps_parser s))); [done|].
    intros _. cbn -[drop Z.min]. apply drop_ge. unfold slen in *. lia.
Qed.

Lemma payload_returns hook h s :
  parse_inv s -> m_read (ps_parser s) <> [] ->
  m_message_parse_state (ps_parser s) = PARSE_CHUNKS \/ m_message_parse_state (ps_parser s) = PARSE_CONTENT ->
  m_payload_handler (ps_parser s) = Some h ->
  throws_std h -> exists rc s', parse hook s = (Val rc, s').
Proof.
  intros PI NE Hs Hh Std. unfold parse, bind at 1. rewrite parse_prologue_eq by done.
  pose proof (prologue_inv s PI) as PI0.
  assert (m_read (ps_parser (prologue_state s)) = m_read (ps_parser s) /\
    m_message_parse_state (ps_parser (prologue_state s)) = m_message_parse_state (ps_parser s) /\
    m_payload_handler (ps_parser (prologue_state s)) = m_payload_handler (ps_parser s)) as (E1 & E2 & E3)
    by (unfold prologue_state; by destruct (m_has_missing_packets _)).
  assert (payload_done h (parse_iteration hook (prologue_state s))) as (rc & n & s1 & E & Hh1 & Er).
  { unfold parse_iteration, bind at 1, gets at 1. rewrite E2. destruct Hs as [Hs|Hs]; rewrite Hs.
    - apply iterate_chunks_handled; [apply PI0|congruence|done].
    - apply iterate_content_handled; congruence || done. }
  unfold bind at 1, parse_fuel. cbn [parse_loop]. unfold bind at 1. rewrite E. unfold bind at 1, gets.
  assert (is_indeterminate rc && negb (eof (ps_parser s1)) = false) as ->.
  { destruct rc; try done. unfold eof. by rewrite Er. }
  cbn [ret]. unfold parse_epilogue. destruct rc; cbn [is_ttrue is_tfalse]; [by eexists _, _| |by eexists _, _].
  unfold finish, bind, on_parser, modify, gets. cbn. unfold finish_rest, bind, on_message, on_request, modify, gets.
  cbn. rewrite Hh1. by eexists _, _.
Qed.


End Safety.

(** the base class's hook *)
#[export] Instance no_hook_callbacks `{PE : PayloadEnv} : Callbacks no_hook.
Proof.
  intros req ec rc w. by split.
Qed.

(** a fresh parser on some bytes *)
Definition sample_state (b : str) : pstate :=
  mk_pstate (set_read_buffer b (new_parser 0 0 1024)) (new_request false) no_error [].

Definition sample_post_head : str :=
  bs "POST /f HTTP/1.1" ++ STRING_CRLF ++ bs "Content-Length: 5" ++ STRING_CRLF ++ STRING_CRLF.

Lemma sample_ready b : parse_inv (sample_state b).
Proof. by apply new_ready. Qed.

(** in a chunk of five bytes, with handler 0, which throws *)
Definition sample_throwing : pstate :=
  mk_pstate
    ((set_read_buffer (bs "5" ++ STRING_CRLF ++ bs "hello") (new_parser 0 0 1024))
       <| m_message_parse_state := PARSE_CHUNKS |> <| m_payload_handler := Some (0%nat : handler) |>)
    (new_request false) no_error [].

Lemma sample_throwing_inv : parse_inv sample_throwing.
Proof. constructor; [split|..]; vm_compute; done. Qed.

