(* ===== verification/ParserSplit.v ===== *)
(** * [http_parser::parse] does not depend on how its input is cut

    Parsing a buffer that ends in the middle of a message and then the next
    one has the same outcome as parsing their concatenation. *)

From S2P Require Import Prelude.
From S2P Require Import Externals.
From S2P Require Import Algorithm.
From S2P Require Import Multimap.
From S2P Require Import Strings.
From S2P Require Import Message.
From S2P Require Import Request.
From S2P Require Import FormParsers.
From S2P Require Import Multipart.
From S2P Require Import ParserState.
From S2P Require Import HeaderParser.
From S2P Require Import BodyParser.
From S2P Require Import Parser.
From S2P Require Import RefUtils.
From S2P Require Import HeaderProofs.
From S2P Require Import BodyProofs.
From S2P Require Import ContentProofs.
From S2P Require Import ParserInv.
From S2P Require Import MultipartProofs.
From S2P Require Import ParserTheorems.

(** ** Operations that commute with a change of the state *)

Section Commutes.
Context {S : Type} (F : S -> S).

Definition commutes {A} (m : M S A) : Prop :=
  forall s, m (F s) = let '(r, s') := m s in (r, F s').

Lemma commutes_ret {A} (a : A) : commutes (ret a).
Proof. done. Qed.

Lemma commutes_throw {A} e : commutes (@throw S A e).
Proof. done. Qed.

Lemma commutes_crash {A} f : commutes (@crash S A f).
Proof. done. Qed.

Lemma commutes_bind {A B} (m : M S A) (k : A -> M S B) :
  commutes m -> (forall a, commutes (k a)) -> commutes (bind m k).
Proof.
  intros Hm Hk s. unfold bind. rewrite Hm. destruct (m s) as [[a|e|f] s']; [apply Hk|done..].
Qed.

Lemma commutes_gets {A} (f : S -> A) : (forall s, f (F s) = f s) -> commutes (gets f).
Proof. intros H s. unfold gets. by rewrite H. Qed.

(** a component read at the start, of which only kept parts are used *)
Lemma commutes_gets_bind {A B} (f : S -> A) (k : A -> M S B) :
  (forall s s', k (f (F s)) s' = k (f s) s') -> (forall a, commutes (k a)) ->
  commutes (bind (gets f) k).
Proof. intros H Hk s. unfold bind, gets. rewrite H. apply Hk. Qed.

Lemma commutes_modify (f : S -> S) : (forall s, f (F s) = F (f s)) -> commutes (modify f).
Proof. intros H s. unfold modify. by rewrite H. Qed.

Lemma commutes_try_catch {A} c (m h : M S A) :
  commutes m -> commutes h -> commutes (try_catch c m h).
Proof.
  intros Hm Hh s. unfold try_catch. rewrite Hm. destruct (m s) as [[a|e|f] s']; [done| |done].
  destruct (c e); [apply Hh|done].
Qed.

Lemma commutes_if {A} (b : bool) (m h : M S A) :
  commutes m -> commutes h -> commutes (if b then m else h).
Proof. by destruct b. Qed.

End Commutes.

Section Split.
Context `{SU : StaticlibUtils, MP : MultimapPolicy, PE : PayloadEnv}.

(** the same state with more bytes to read and another last count *)
Definition adj_parser (b : str) (k : Z) (p : http_parser) : http_parser :=
  p <| m_read := m_read p ++ b |> <| m_bytes_last_read := k + m_bytes_last_read p |>.

Definition adj (b : str) (k : Z) (s : pstate) : pstate :=
  s <| ps_parser := adj_parser b k (ps_parser s) |>.

Lemma try_message_adj b k f : commutes (adj b k) (try_message f).
Proof.
  intros s. unfold try_message. change (ps_request (adj b k s)) with (ps_request s).
  by destruct (f _).
Qed.

Lemma on_request_adj b k f : commutes (adj b k) (on_request f).
Proof. by apply commutes_modify. Qed.

Lemma on_parser_adj b k f :
  (forall p, f (adj_parser b k p) = adj_parser b k (f p)) -> commutes (adj b k) (on_parser f).
Proof.
  intros H. apply commutes_modify. intros s. unfold adj. cbn [ps_parser set_field].
  rewrite H. reflexivity.
Qed.

Lemma call_hook_adj b k hook rc : commutes (adj b k) (call_hook hook rc).
Proof.
  intros s. unfold call_hook.
  change (ps_request (adj b k s)) with (ps_request s).
  change (ps_ec (adj b k s)) with (ps_ec s). change (ps_world (adj b k s)) with (ps_world s).
  destruct (hook _ _ _ _) as [r e]. by destruct (he_handler e).
Qed.

Create HintDb commutes discriminated.
Hint Resolve commutes_ret commutes_throw commutes_crash commutes_try_catch commutes_if
  try_message_adj on_request_adj call_hook_adj : commutes.

Lemma choose_payload_adj b k : commutes (adj b k) choose_payload_state.
Proof.
  unfold choose_payload_state. apply commutes_gets_bind; [reflexivity|intros p].
  apply commutes_gets_bind; [reflexivity|intros m].
  apply commutes_gets_bind; [reflexivity|intros implied].
  apply commutes_if; [apply commutes_bind; [by apply on_parser_adj|auto with commutes]|].
  apply commutes_if; [apply commutes_bind; [by apply on_parser_adj|auto with commutes]|].
  apply commutes_if; [|apply commutes_bind; [by apply on_parser_adj|auto with commutes]].
  apply commutes_bind.
  { apply commutes_try_catch; apply commutes_bind; auto with commutes. by apply commutes_modify. }
  intros ok. apply commutes_if; [auto with commutes|].
  apply commutes_gets_bind; [reflexivity|intros n].
  apply commutes_if; [apply commutes_bind; [by apply on_parser_adj|auto with commutes]|].
  apply commutes_bind; [by apply on_parser_adj|intros _].
  apply commutes_bind; [unfold on_message; auto with commutes|intros _].
  apply commutes_if; [auto with commutes|]. apply commutes_bind; unfold on_message; auto with commutes.
Qed.

Lemma finish_header_parsing_adj b k hook : commutes (adj b k) (finish_header_parsing hook).
Proof.
  unfold finish_header_parsing. apply commutes_bind; [by apply on_parser_adj|intros _].
  apply commutes_bind; [unfold on_message; auto with commutes|intros _].
  apply commutes_bind; [unfold on_message; auto with commutes|intros _].
  apply commutes_gets_bind; [reflexivity|intros p].
  apply commutes_bind; [auto with commutes|intros _].
  apply commutes_bind; [apply choose_payload_adj|intros [rc|]]; auto with commutes.
Qed.

(** ** What a split may change *)

Definition set_last (n : Z) (s : pstate) : pstate :=
  s <| ps_parser := (ps_parser s) <| m_bytes_last_read := n |> |>.

(** the states but for the count of the last call *)
Definition same_but_last (s s' : pstate) : Prop := set_last 0 s = set_last 0 s'.

(** the states but for the three counters *)
Definition core (s : pstate) : pstate :=
  s <| ps_parser := (ps_parser s) <| m_bytes_last_read := 0 |> <| m_bytes_total_read := 0 |>
                                  <| m_bytes_content_read := 0 |> |>.

(** the payload handler threw: the message, the error code and the world are
    the same, the parser may have stopped at another position *)
Definition threw (s s' : pstate) : Prop :=
  m_payload_handler (ps_parser s) <> None /\ same_body s s'.

Definition iter_eq (k : Z) (o1 o2 : res (tribool * Z) * pstate) : Prop :=
  match o1, o2 with
  | (Val (tfalse, _), s1), (Val (tfalse, _), s2) => core s1 = core s2 \/ threw s1 s2
  | (Val (rc1, n1), s1), (Val (rc2, n2), s2) =>
    rc1 = rc2 /\ n1 = k + n2 /\ same_but_last s1 s2
  | (Exn e1, s1), (Exn e2, s2) => e1 = e2 /\ (same_but_last s1 s2 \/ threw s1 s2)
  | _, _ => False
  end.

Lemma same_but_last_core s s' : same_but_last s s' -> core s = core s'.
Proof.
  intros H. change (core s) with (core (set_last 0 s)). change (core s') with (core (set_last 0 s')).
  by rewrite H.
Qed.

(** [o2] with more bytes to read and another last count *)
Definition adj_result (b : str) (k : Z) (o : res (tribool * Z) * pstate)
    : res (tribool * Z) * pstate :=
  match o with
  | (Val (rc, n), s) => (Val (rc, k + n), adj b k s)
  | (Exn e, s) => (Exn e, adj b k s)
  | (Fault f, s) => (Fault f, adj b k s)
  end.

Lemma adj_nil_last k s : same_but_last (adj [] k s) s.
Proof.
  unfold same_but_last, set_last, adj, adj_parser. destruct s as [p ? ? ?].
  cbn [ps_parser set_field]. rewrite app_nil_r. by destruct p.
Qed.

Lemma adj_result_eq k o :
  match o with (Fault _, _) => False | _ => True end -> iter_eq k (adj_result [] k o) o.
Proof.
  destruct o as [[[rc n]|e|f] s]; cbn [adj_result iter_eq]; [|intros _|done].
  - intros _. pose proof (adj_nil_last k s) as E. destruct rc; [left; by apply same_but_last_core|by split_and!..].
  - split; [done|]. left. apply adj_nil_last.
Qed.

(** ** Headers *)

(** the rest of an iteration after [parse_headers] *)
Definition headers_rest (hook : hook_type) (rc : tribool) : M pstate (tribool * Z) :=
  n <- last_read ;;
  st <- gets (fun s => m_message_parse_state (ps_parser s)) ;;
  if is_ttrue rc && bool_decide (st = PARSE_HEADERS)
  then rc <- finish_header_parsing hook ;; ret (rc, n)
  else ret (rc, n).

Lemma headers_rest_adj b k hook rc s :
  headers_rest hook rc (adj b k s) = adj_result b k (headers_rest hook rc s).
Proof.
  unfold headers_rest, last_read, bind at 1 2 4 5, gets. 
  change (m_message_parse_state (ps_parser (adj b k s))) with (m_message_parse_state (ps_parser s)).
  destruct (_ && _); [|reflexivity].
  unfold bind. rewrite (finish_header_parsing_adj b k hook s).
  by destruct (finish_header_parsing hook s) as [[r|e|f] s'].
Qed.

(** the state after [parse_headers] without an error *)
Definition headers_state (hs : headers_stop) (s : pstate) : pstate :=
  let p := (hs_parser hs) <| m_read := hs_rest hs |> <| m_bytes_last_read := hs_read hs |> in
  s <| ps_parser := p <| m_bytes_total_read := m_bytes_total_read p +64 hs_read hs |> |>
    <| ps_request := (ps_request s) <| req_base := hs_message hs |> |>.

Definition headers_error (ev : error_value_t) (hs : headers_stop) (s : pstate) : pstate :=
  s <| ps_parser := (hs_parser hs) <| m_read := hs_rest hs |> |>
    <| ps_request := (ps_request s) <| req_base := hs_message hs |> |>
    <| ps_ec := set_error ev |>.

Definition headers_of (s : pstate) : headers_stop :=
  headers_loop (m_read (ps_parser s)) 0 ((ps_parser s) <| m_bytes_last_read := 0 |>)
    (req_base (ps_request s)).

Lemma iterate_headers_eq hook s :
  let hs := headers_of s in
  iterate_headers hook s =
  match hs_error hs with
  | None => headers_rest hook (hs_rc hs) (headers_state hs s)
  | Some ev => headers_rest hook (hs_rc hs) (headers_error ev hs s)
  end.
Proof.
  unfold iterate_headers, run_parse_headers, bind at 1, parse_headers, headers_of. cbv zeta.
  by destruct (hs_error _).
Qed.

Lemma headers_loop_shift buf n p m :
  headers_loop buf n p m =
  let hs := headers_loop buf 0 p m in
  mk_headers_stop (hs_rc hs) (hs_error hs) (hs_rest hs) (n + hs_read hs) (hs_parser hs)
    (hs_message hs).
Proof.
  cbv zeta. rewrite <- (Z.add_0_r n) at 1. generalize 0 as k. revert n p m.
  induction buf as [|c buf IH]; intros n p m k; cbn [headers_loop]; [done|].
  destruct (header_step c (save_raw c p) m) as [p1 m1|[] p1 m1|ev p1 m1]; try reflexivity.
  - rewrite <- Z.add_assoc. apply IH.
  - by rewrite <- Z.add_assoc.
Qed.

(** the loop of an iteration, on the parser without its cursor and counters *)
Definition plain_headers (s : pstate) (buf : str) : headers_stop :=
  headers_loop buf 0 (ps_parser s) (req_base (ps_request s)).

Lemma headers_of_plain s :
  headers_of s =
  hs_map (frame (m_read (ps_parser s)) 0 (m_bytes_total_read (ps_parser s))
            (m_bytes_content_read (ps_parser s))) (plain_headers s (m_read (ps_parser s))).
Proof.
  unfold headers_of, plain_headers. rewrite <- headers_loop_frame. reflexivity.
Qed.

Lemma headers_of_with_read x s :
  headers_of (with_read x s) =
  hs_map (frame x 0 (m_bytes_total_read (ps_parser s)) (m_bytes_content_read (ps_parser s)))
    (plain_headers s x).
Proof.
  unfold headers_of, plain_headers. rewrite <- headers_loop_frame. reflexivity.
Qed.

Lemma headers_split_done hook s b2 :
  hs_rc (headers_of s) = ttrue ->
  iterate_headers hook (with_read (m_read (ps_parser s) ++ b2) s) =
  adj_result b2 0 (iterate_headers hook s).
Proof.
  intros E. rewrite !iterate_headers_eq, headers_of_with_read. rewrite headers_of_plain in *.
  unfold plain_headers in *. rewrite headers_loop_app.
  pose proof (headers_loop_exit (m_read (ps_parser s)) 0 (ps_parser s) (req_base (ps_request s))) as X.
  set (h := headers_loop _ 0 _ _) in *. cbn [hs_map hs_rc] in E. cbv zeta in *. rewrite E in *.
  cbn [is_indeterminate hs_map hs_rc hs_error]. rewrite X, E, <- headers_rest_adj. reflexivity.
Qed.

Lemma headers_state_more s b2 :
  let h := plain_headers s (m_read (ps_parser s)) in
  with_read b2 (headers_state (headers_of s) s) =
  s <| ps_parser := frame b2 (hs_read h) (m_bytes_total_read (ps_parser s) +64 hs_read h)
                      (m_bytes_content_read (ps_parser s)) (hs_parser h) |>
    <| ps_request := (ps_request s) <| req_base := hs_message h |> |>.
Proof.
  cbv zeta. rewrite headers_of_plain. unfold headers_state, with_read.
  destruct s as [p r ec w]. cbn [hs_map hs_parser hs_rest hs_read hs_message ps_parser].
  destruct (hs_parser (plain_headers _ _)). reflexivity.
Qed.

Lemma headers_split_more hook s b2 :
  hs_rc (headers_of s) = indeterminate ->
  let s1 := headers_state (headers_of s) s in
  no_fault (iterate_headers hook (with_read b2 s1)).1 ->
  iterate_headers hook s = (Val (indeterminate, hs_read (headers_of s)), s1) /\
  m_read (ps_parser s1) = [] /\
  iter_eq (hs_read (headers_of s))
    (iterate_headers hook (with_read (m_read (ps_parser s) ++ b2) s))
    (iterate_headers hook (with_read b2 s1)).
Proof.
  intros E s1 NF.
  pose proof (headers_loop_exit (m_read (ps_parser s)) 0 ((ps_parser s) <| m_bytes_last_read := 0 |>)
                (req_base (ps_request s))) as X.
  fold (headers_of s) in X. cbv zeta in X. rewrite E in X. destruct X as [Xe Xr].
  split; [|split; [exact Xr|]].
  { rewrite iterate_headers_eq. cbv zeta. rewrite Xe, E. reflexivity. }
  rewrite !iterate_headers_eq in *. rewrite headers_of_with_read. cbv zeta in *.
  pose proof (headers_state_more s b2) as Es. cbv zeta in Es. fold s1 in Es.
  rewrite headers_of_plain in E |- *. cbn [hs_map hs_rc hs_read] in E |- *.
  assert (plain_headers s (m_read (ps_parser s) ++ b2) =
          headers_loop b2 (hs_read (plain_headers s (m_read (ps_parser s))))
            (hs_parser (plain_headers s (m_read (ps_parser s))))
            (hs_message (plain_headers s (m_read (ps_parser s))))) as Ea.
  { unfold plain_headers in *. rewrite headers_loop_app. cbv zeta. by rewrite E. }
  rewrite headers_loop_shift in Ea. cbv zeta in Ea.
  set (h := plain_headers s (m_read (ps_parser s))) in *.
  set (g := headers_loop b2 0 (hs_parser h) (hs_message h)) in *.
  assert (headers_of (with_read b2 s1) =
          hs_map (frame b2 0 (m_bytes_total_read (ps_parser s) +64 hs_read h)
                    (m_bytes_content_read (ps_parser s))) g) as Eg.
  { unfold headers_of. rewrite Es. subst g. rewrite <- headers_loop_frame. reflexivity. }
  rewrite Eg in *. rewrite Ea. cbn [hs_map hs_rc hs_error] in *.
  destruct (hs_error g) as [ev|] eqn:Eev.
  - pose proof (headers_loop_exit b2 0 (hs_parser h) (hs_message h)) as X. fold g in X.
    cbv zeta in X. rewrite Eev in X.
    destruct (hs_rc g); [|discriminate X|by destruct X as [X _]].
    left. rewrite Es. unfold core, headers_error. destruct s as [p r ec w].
    cbn [hs_map hs_parser hs_rest hs_message]. destruct (hs_parser g). reflexivity.
  - replace (headers_state _ (with_read (m_read (ps_parser s) ++ b2) s))
      with (adj [] (hs_read h) (headers_state (hs_map (frame b2 0
              (m_bytes_total_read (ps_parser s) +64 hs_read h)
              (m_bytes_content_read (ps_parser s))) g) (with_read b2 s1))).
    + rewrite headers_rest_adj. apply adj_result_eq.
      destruct (headers_rest hook (hs_rc g) _) as [[[]| |] ?]; exact I || exact NF.
    + rewrite Es. unfold headers_state, adj, adj_parser. destruct s as [p r ec w].
      cbn [hs_map hs_parser hs_rest hs_read hs_message]. destruct (hs_parser g).
      cbn -[Z.add add64]. rewrite app_nil_r, add64_assoc. reflexivity.
Qed.

(** ** Chunks *)

(** the rest of an iteration after [parse_chunks] *)
Definition chunks_rest (rc : tribool) : M pstate (tribool * Z) :=
  n <- last_read ;;
  p <- gets ps_parser ;;
  match m_payload_handler p with
  | None =>
    if is_ttrue rc then
      try_message concatenate_chunks ;;;
      ret (if bool_decide (m_message_parse_state p = PARSE_FOOTERS)
           then (indeterminate, n) else (ttrue, n))
    else ret (rc, n)
  | Some _ => ret (rc, n)
  end.

Lemma chunks_rest_adj b k rc s :
  chunks_rest rc (adj b k s) = adj_result b k (chunks_rest rc s).
Proof.
  unfold chunks_rest, last_read, bind at 1 2 4 5, gets.
  change (m_payload_handler (ps_parser (adj b k s))) with (m_payload_handler (ps_parser s)).
  change (m_message_parse_state (ps_parser (adj b k s)))
    with (m_message_parse_state (ps_parser s)).
  destruct (m_payload_handler (ps_parser s)); [reflexivity|].
  destruct (is_ttrue rc); [|reflexivity].
  unfold bind. rewrite (try_message_adj b k concatenate_chunks s).
  destruct (try_message concatenate_chunks s) as [[r|e|f] s']; [|reflexivity..].
  by destruct (bool_decide _).
Qed.

Definition chunks_state (cs : chunks_stop) (s : pstate) : pstate :=
  s <| ps_request := on_base (fun m => m <| m_chunk_cache := cs_chunks cs |>) (ps_request s) |>
    <| ps_world := cs_world cs |>
    <| ps_parser := count_content (cs_read cs) ((cs_parser cs) <| m_read := cs_rest cs |>) |>.

Definition chunks_error (ev : error_value_t) (cs : chunks_stop) (s : pstate) : pstate :=
  s <| ps_request := on_base (fun m => m <| m_chunk_cache := cs_chunks cs |>) (ps_request s) |>
    <| ps_world := cs_world cs |>
    <| ps_parser := (cs_parser cs) <| m_read := cs_rest cs |> |>
    <| ps_ec := set_error ev |>.

Definition chunks_of (s : pstate) : chunks_stop :=
  chunks_loop (m_read (ps_parser s)) 0 ((ps_parser s) <| m_bytes_last_read := 0 |>)
    (m_chunk_cache (req_base (ps_request s))) (ps_world s).

Lemma parse_chunks_eq s rc :
  let cs := chunks_of s in
  cs_rc cs = Val rc ->
  parse_chunks s =
  (Val rc, match cs_error cs with None => chunks_state cs s | Some ev => chunks_error ev cs s end).
Proof.
  cbv zeta. intros E. unfold parse_chunks. change (chunks_loop _ _ _ _ _) with (chunks_of s). rewrite E.
  destruct (cs_error (chunks_of s)) as [ev|]; reflexivity.
Qed.

Lemma iterate_chunks_rest s rc s1 :
  parse_chunks s = (Val rc, s1) -> iterate_chunks s = chunks_rest rc s1.
Proof.
  intros E. unfold iterate_chunks, try_catch, bind at 1 2. rewrite E. reflexivity.
Qed.

Lemma iterate_chunks_eq s rc :
  let cs := chunks_of s in
  cs_rc cs = Val rc ->
  iterate_chunks s =
  match cs_error cs with
  | None => chunks_rest rc (chunks_state cs s)
  | Some ev => chunks_rest rc (chunks_error ev cs s)
  end.
Proof.
  cbv zeta. intros E. rewrite (iterate_chunks_rest _ _ _ (parse_chunks_eq s rc E)).
  destruct (cs_error (chunks_of s)); reflexivity.
Qed.

(** the state after the payload handler threw *)
Definition chunks_thrown (cs : chunks_stop) (s : pstate) : pstate :=
  s <| ps_request := on_base (fun m => m <| m_chunk_cache := cs_chunks cs |>) (ps_request s) |>
    <| ps_world := cs_world cs |>
    <| ps_parser := (cs_parser cs) <| m_read := cs_rest cs |> |>.

Definition thrown_outcome (e : exn) (s : pstate) : res (tribool * Z) * pstate :=
  if is_std e then (Val (tfalse, 0), s) else (Exn e, s).

Lemma iterate_chunks_throws s e :
  cs_rc (chunks_of s) = Exn e -> m_payload_handler (cs_parser (chunks_of s)) <> None ->
  iterate_chunks s = thrown_outcome e (chunks_thrown (chunks_of s) s).
Proof.
  intros E Hh. unfold iterate_chunks, bind at 1, try_catch, bind at 1, parse_chunks.
  change (chunks_loop _ _ _ _ _) with (chunks_of s). cbv zeta. rewrite E. unfold thrown_outcome.
  destruct (is_std e); [|done]. unfold bind, gets. cbn [ret].
  change (m_payload_handler (ps_parser _)) with (m_payload_handler (cs_parser (chunks_of s))).
  by destruct (m_payload_handler (cs_parser (chunks_of s))).
Qed.

Lemma thrown_outcome_eq k e s1 s2 : threw s1 s2 -> iter_eq k (thrown_outcome e s1) (thrown_outcome e s2).
Proof. intros T. unfold thrown_outcome. destruct (is_std e); cbn; auto. Qed.

Definition cs_shift (n : Z) (cs : chunks_stop) : chunks_stop :=
  mk_chunks_stop (cs_rc cs) (cs_error cs) (cs_rest cs) (n + cs_read cs) (cs_parser cs)
    (cs_chunks cs) (cs_world cs).

Lemma chunks_loop_shift buf n p ch w :
  chunks_loop buf n p ch w = cs_shift n (chunks_loop buf 0 p ch w).
Proof.
  unfold cs_shift. rewrite <- (Z.add_0_r n) at 1. generalize 0 as k.
  remember (length buf) as len eqn:Hl. revert buf Hl n p ch w.
  induction len as [len IH] using lt_wf_ind; intros [|c buf] -> n p ch w k; [done|].
  cbn [chunks_loop].
  destruct (chunk_step c (c :: buf) p ch w) as [sk p1 ch1 w1|[] p1 ch1 w1|? ? ? ?|? ? ? ?];
    try reflexivity.
  - rewrite <- !Z.add_assoc. eapply IH; [|reflexivity].
    rewrite dropl_drop, length_drop. cbn. lia.
  - by rewrite <- Z.add_assoc.
Qed.

Definition plain_chunks (s : pstate) (buf : str) : chunks_stop :=
  chunks_loop buf 0 (ps_parser s) (m_chunk_cache (req_base (ps_request s))) (ps_world s).

Lemma chunks_of_plain s :
  chunks_of s =
  cs_map (frame (m_read (ps_parser s)) 0 (m_bytes_total_read (ps_parser s))
            (m_bytes_content_read (ps_parser s))) (plain_chunks s (m_read (ps_parser s))).
Proof. unfold chunks_of, plain_chunks. rewrite <- chunks_loop_frame. reflexivity. Qed.

Lemma chunks_of_with_read x s :
  chunks_of (with_read x s) =
  cs_map (frame x 0 (m_bytes_total_read (ps_parser s)) (m_bytes_content_read (ps_parser s)))
    (plain_chunks s x).
Proof. unfold chunks_of, plain_chunks. rewrite <- chunks_loop_frame. reflexivity. Qed.

Lemma chunks_of_exit s :
  chunk_wf (ps_parser s) ->
  let cs := chunks_of s in
  match cs_rc cs with
  | Val indeterminate => cs_error cs = None /\ cs_rest cs = []
  | Val ttrue => cs_error cs = None
  | Val tfalse => exists ev, cs_error cs = Some ev
  | Exn e => cs_error cs = None /\ m_payload_handler (cs_parser cs) <> None
  | Fault _ => False
  end.
Proof.
  intros W. cbv zeta. rewrite chunks_of_plain.
  pose proof (chunks_loop_exit (m_read (ps_parser s)) 0 (ps_parser s)
    (m_chunk_cache (req_base (ps_request s))) (ps_world s) W) as X.
  pose proof (chunks_loop_keeps (m_read (ps_parser s)) 0 (ps_parser s)
    (m_chunk_cache (req_base (ps_request s))) (ps_world s) W) as ([K _ _] & _).
  fold (plain_chunks s (m_read (ps_parser s))) in X, K. cbv zeta in X, K. cbn [cs_map cs_rc cs_error cs_parser cs_rest].
  destruct (cs_rc _) as [rc|e|f]; [exact X| |exact X].
  destruct X as (X & h & _ & _ & E & _). split; [exact X|]. change (m_payload_handler (frame _ _ _ _ ?p)) with (m_payload_handler p).
  by rewrite K, E.
Qed.

Lemma chunks_split_done s b2 :
  chunk_wf (ps_parser s) -> stream_parser (ps_parser s) ->
  cs_rc (chunks_of s) = Val ttrue ->
  iterate_chunks (with_read (m_read (ps_parser s) ++ b2) s) =
  adj_result b2 0 (iterate_chunks s).
Proof.
  intros W St E. rewrite (iterate_chunks_eq s _ E). rewrite chunks_of_plain in *.
  pose proof (chunks_loop_exit (m_read (ps_parser s)) 0 (ps_parser s)
    (m_chunk_cache (req_base (ps_request s))) (ps_world s) W) as X.
  cbn [cs_map cs_rc] in E. fold (plain_chunks s (m_read (ps_parser s))) in X. cbv zeta in X.
  assert (plain_chunks s (m_read (ps_parser s) ++ b2) =
          cs_append b2 (plain_chunks s (m_read (ps_parser s)))) as Ea.
  { unfold plain_chunks in *.
    pose proof (chunks_loop_app (m_read (ps_parser s)) b2 0 (ps_parser s)
      (m_chunk_cache (req_base (ps_request s))) (ps_world s) W St) as A.
    cbv zeta in A. rewrite E, bool_decide_eq_false_2 in A by done.
    destruct A as [A|(e & _ & A & _)]; [exact A|]. cbn [cs_append cs_rc] in A. congruence. }
  rewrite (iterate_chunks_eq _ ttrue) by (by rewrite chunks_of_with_read, Ea).
  rewrite chunks_of_with_read, Ea. rewrite E in X. cbn [cs_map cs_append cs_error]. rewrite X.
  rewrite <- chunks_rest_adj. reflexivity.
Qed.

Lemma chunks_state_more s b2 :
  let h := plain_chunks s (m_read (ps_parser s)) in
  with_read b2 (chunks_state (chunks_of s) s) =
  s <| ps_request := on_base (fun m => m <| m_chunk_cache := cs_chunks h |>) (ps_request s) |>
    <| ps_world := cs_world h |>
    <| ps_parser := frame b2 (cs_read h) (m_bytes_total_read (ps_parser s) +64 cs_read h)
                      (m_bytes_content_read (ps_parser s) +64 cs_read h) (cs_parser h) |>.
Proof. cbv zeta. rewrite chunks_of_plain. reflexivity. Qed.

(** the chunk parser over the second buffer, apart from the position *)
Definition more_chunks (s : pstate) (b2 : str) : chunks_stop :=
  let h := plain_chunks s (m_read (ps_parser s)) in
  chunks_loop b2 0 (cs_parser h) (cs_chunks h) (cs_world h).

(** the position the chunk parser counts from in the second buffer *)
Definition more_frame (s : pstate) (b2 : str) : http_parser -> http_parser :=
  let n := cs_read (plain_chunks s (m_read (ps_parser s))) in
  frame b2 0 (m_bytes_total_read (ps_parser s) +64 n) (m_bytes_content_read (ps_parser s) +64 n).

Lemma plain_chunks_more s b2 :
  chunk_wf (ps_parser s) -> stream_parser (ps_parser s) ->
  cs_rc (chunks_of s) = Val indeterminate ->
  cs_like (plain_chunks s (m_read (ps_parser s) ++ b2))
    (cs_shift (cs_read (chunks_of s)) (more_chunks s b2)) /\
  chunks_of (with_read b2 (chunks_state (chunks_of s) s)) =
    cs_map (more_frame s b2) (more_chunks s b2).
Proof.
  intros W St E. pose proof (chunks_state_more s b2) as Es. cbv zeta in Es.
  rewrite chunks_of_plain in E. cbn [cs_map cs_rc] in E. split.
  - unfold plain_chunks in *.
    pose proof (chunks_loop_app (m_read (ps_parser s)) b2 0 (ps_parser s)
      (m_chunk_cache (req_base (ps_request s))) (ps_world s) W St) as A.
    cbv zeta in A. rewrite E, bool_decide_eq_true_2 in A by done.
    rewrite (chunks_loop_shift b2) in A. rewrite chunks_of_plain. exact A.
  - unfold chunks_of at 1. rewrite Es. unfold more_chunks, more_frame.
    rewrite <- chunks_loop_frame. reflexivity.
Qed.

(** the parser keeps its handler, over both buffers *)
Lemma more_chunks_handler s b2 :
  chunk_wf (ps_parser s) ->
  m_payload_handler (cs_parser (more_chunks s b2)) = m_payload_handler (ps_parser s) /\
  m_payload_handler (cs_parser (plain_chunks s (m_read (ps_parser s) ++ b2))) = m_payload_handler (ps_parser s).
Proof.
  intros W. pose proof (chunks_loop_keeps (m_read (ps_parser s)) 0 (ps_parser s)
    (m_chunk_cache (req_base (ps_request s))) (ps_world s) W) as (K & W1 & _).
  fold (plain_chunks s (m_read (ps_parser s))) in K, W1. cbv zeta in K, W1. split.
  - pose proof (chunks_loop_keeps b2 0 _ (cs_chunks (plain_chunks s (m_read (ps_parser s))))
      (cs_world (plain_chunks s (m_read (ps_parser s)))) W1) as (K2 & _).
    fold (more_chunks s b2) in K2. cbv zeta in K2. by rewrite (kf_handler _ _ K2), (kf_handler _ _ K).
  - apply chunks_loop_keeps. exact W.
Qed.

Lemma chunks_state_split s b2 :
  let g := more_chunks s b2 in let n := cs_read (chunks_of s) in
  chunks_state (cs_map (frame (m_read (ps_parser s) ++ b2) 0 (m_bytes_total_read (ps_parser s))
      (m_bytes_content_read (ps_parser s))) (cs_shift n g)) (with_read (m_read (ps_parser s) ++ b2) s) =
  adj [] n (chunks_state (cs_map (more_frame s b2) g)
    (with_read b2 (chunks_state (chunks_of s) s))).
Proof.
  cbv zeta. rewrite chunks_state_more, chunks_of_plain. unfold more_frame.
  generalize (more_chunks s b2) as g, (plain_chunks s (m_read (ps_parser s))) as h. intros g h.
  unfold chunks_state, adj, adj_parser. destruct s as [p r ec w].
  cbn [cs_map cs_shift cs_parser cs_rest cs_read cs_chunks cs_world]. destruct (cs_parser g).
  unfold count_content, frame, with_read. cbn -[Z.add add64].
  rewrite app_nil_r, !add64_assoc. reflexivity.
Qed.

(** the error of the second buffer is the error of both *)
Lemma chunks_error_split ev s b2 k :
  let g := more_chunks s b2 in let n := cs_read (chunks_of s) in
  iter_eq k
    (chunks_rest tfalse (chunks_error ev (cs_map (frame (m_read (ps_parser s) ++ b2) 0
        (m_bytes_total_read (ps_parser s)) (m_bytes_content_read (ps_parser s))) (cs_shift n g))
      (with_read (m_read (ps_parser s) ++ b2) s)))
    (chunks_rest tfalse (chunks_error ev (cs_map (more_frame s b2) g)
      (with_read b2 (chunks_state (chunks_of s) s)))).
Proof.
  cbv zeta. rewrite chunks_state_more, chunks_of_plain. unfold more_frame.
  generalize (more_chunks s b2) as g, (plain_chunks s (m_read (ps_parser s))) as h. intros g h.
  unfold chunks_rest, bind, last_read, gets. cbn [is_ttrue].
  change (m_payload_handler (ps_parser (chunks_error _ _ ?t)))
    with (m_payload_handler (cs_parser g)).
  destruct (m_payload_handler (cs_parser g)); cbn [ret iter_eq]; left;
    unfold core, chunks_error; destruct s as [p r ec w];
    cbn [cs_map cs_shift cs_parser cs_rest cs_chunks cs_world]; by destruct (cs_parser g).
Qed.

Lemma chunks_rest_no_throw rc s : match chunks_rest rc s with (Val _, _) => True | _ => False end.
Proof.
  unfold chunks_rest, bind, last_read, gets, try_message.
  destruct (m_payload_handler _); [exact I|]. destruct (is_ttrue rc); [|exact I].
  match goal with |- context [concatenate_chunks ?m] =>
    destruct (concatenate_chunks_ok m) as (m' & -> & _) end.
  by destruct (bool_decide _).
Qed.

Lemma more_chunks_exit s b2 :
  chunk_wf (ps_parser s) ->
  let g := more_chunks s b2 in
  match cs_rc g with
  | Val indeterminate => cs_error g = None /\ cs_rest g = []
  | Val ttrue => cs_error g = None
  | Val tfalse => exists ev, cs_error g = Some ev
  | Exn _ => m_payload_handler (ps_parser s) <> None
  | Fault _ => False
  end.
Proof.
  intros W. pose proof (chunks_loop_keeps (m_read (ps_parser s)) 0 (ps_parser s)
    (m_chunk_cache (req_base (ps_request s))) (ps_world s) W) as (K & W1 & _).
  fold (plain_chunks s (m_read (ps_parser s))) in K, W1. cbv zeta in K, W1 |- *.
  pose proof (chunks_loop_exit b2 0 _ (cs_chunks (plain_chunks s (m_read (ps_parser s))))
    (cs_world (plain_chunks s (m_read (ps_parser s)))) W1) as X.
  fold (more_chunks s b2) in X. cbv zeta in X. destruct (cs_rc _) as [rc|e|f]; [exact X| |exact X].
  destruct X as (_ & h & _ & _ & E & _). by rewrite (kf_handler _ _ K) in E; rewrite E.
Qed.

(** the handler throws in the second buffer *)
Lemma chunks_throw_split s b2 e :
  chunk_wf (ps_parser s) -> stream_parser (ps_parser s) ->
  cs_rc (chunks_of s) = Val indeterminate -> cs_rc (more_chunks s b2) = Exn e ->
  iter_eq (cs_read (chunks_of s))
    (iterate_chunks (with_read (m_read (ps_parser s) ++ b2) s))
    (iterate_chunks (with_read b2 (chunks_state (chunks_of s) s))).
Proof.
  intros W St E Ee. destruct (plain_chunks_more s b2 W St E) as [Ea Eg].
  pose proof (more_chunks_exit s b2 W) as Hh. cbv zeta in Hh. rewrite Ee in Hh.
  destruct (more_chunks_handler s b2 W) as [H1 H2].
  assert (cs_rc (plain_chunks s (m_read (ps_parser s) ++ b2)) = Exn e /\
    cs_chunks (plain_chunks s (m_read (ps_parser s) ++ b2)) = cs_chunks (more_chunks s b2) /\
    cs_world (plain_chunks s (m_read (ps_parser s) ++ b2)) = cs_world (more_chunks s b2)) as (Pe & Pc & Pw).
  { destruct Ea as [->|(e' & R1 & R2 & _ & _ & R3 & R4)]; [by split_and!|].
    cbn [cs_shift cs_rc] in R2. split_and!; try done. congruence. }
  rewrite (iterate_chunks_throws _ e); [|by rewrite chunks_of_with_read|rewrite chunks_of_with_read].
  2:{ change (m_payload_handler (cs_parser (cs_map (frame _ _ _ _) ?c))) with (m_payload_handler (cs_parser c)).
      by rewrite H2. }
  rewrite (iterate_chunks_throws (with_read b2 _) e); [|by rewrite Eg|rewrite Eg].
  2:{ change (m_payload_handler (cs_parser (cs_map (more_frame s b2) ?c))) with (m_payload_handler (cs_parser c)).
      by rewrite H1. }
  apply thrown_outcome_eq. rewrite chunks_of_with_read, Eg. split.
  - change (m_payload_handler (cs_parser (plain_chunks s (m_read (ps_parser s) ++ b2))) <> None). by rewrite H2.
  - split_and!; cbn; rewrite ?Pc, ?Pw; done.
Qed.

Lemma chunks_split_more s b2 :
  chunk_wf (ps_parser s) -> stream_parser (ps_parser s) ->
  cs_rc (chunks_of s) = Val indeterminate ->
  let s1 := chunks_state (chunks_of s) s in
  iterate_chunks s = (Val (indeterminate, cs_read (chunks_of s)), s1) /\
  m_read (ps_parser s1) = [] /\
  iter_eq (cs_read (chunks_of s))
    (iterate_chunks (with_read (m_read (ps_parser s) ++ b2) s))
    (iterate_chunks (with_read b2 s1)).
Proof.
  intros W St E s1. pose proof (iterate_chunks_eq s _ E) as E1. cbv zeta in E1.
  pose proof (chunks_of_exit s W) as X. cbv zeta in X. rewrite E in X. destruct X as [Xe Xr].
  split; [|split; [exact Xr|]].
  { rewrite E1, Xe. unfold chunks_rest, bind, last_read, gets.
    cbn [is_ttrue]. by destruct (m_payload_handler _). }
  destruct (plain_chunks_more s b2 W St E) as [Ea Eg]. fold s1 in Eg.
  set (s2 := with_read b2 s1). set (s3 := with_read (m_read (ps_parser s) ++ b2) s).
  destruct (cs_rc (more_chunks s b2)) as [rc|e|f] eqn:Erc.
  - destruct Ea as [Ea|(e & _ & Ea & _)]; [|cbn in Ea; congruence].
    rewrite (iterate_chunks_eq s2 rc) by (unfold s2; by rewrite Eg).
    rewrite (iterate_chunks_eq s3 rc) by (unfold s3; by rewrite chunks_of_with_read, Ea).
    subst s2 s3. rewrite chunks_of_with_read, Eg, Ea.
    cbn [cs_map cs_shift cs_error].
    pose proof (more_chunks_exit s b2 W) as G. cbv zeta in G. rewrite Erc in G.
    destruct (cs_error (more_chunks s b2)) as [ev|].
    + destruct rc; [|done|by destruct G]. apply chunks_error_split.
    + rewrite chunks_state_split, chunks_rest_adj. apply adj_result_eq. fold s1.
      generalize (chunks_rest_no_throw rc
        (chunks_state (cs_map (more_frame s b2) (more_chunks s b2)) (with_read b2 s1))).
      by case (chunks_rest rc _) as [[?|?|?] ?].
  - by apply (chunks_throw_split s b2 e).
  - pose proof (more_chunks_exit s b2 W) as G. cbv zeta in G. by rewrite Erc in G.
Qed.

(** ** Content *)

Lemma iterate_content_eq s rc s1 :
  consume_content s = (Val rc, s1) ->
  iterate_content s = (Val (rc, m_bytes_last_read (ps_parser s1)), s1).
Proof. intros E. unfold iterate_content, try_catch, bind at 1. by rewrite E. Qed.

Lemma iterate_content_throws s e s1 :
  consume_content s = (Exn e, s1) -> iterate_content s = thrown_outcome e s1.
Proof. intros E. unfold iterate_content, try_catch, bind at 1, thrown_outcome. by rewrite E. Qed.

(** [consume_content] throws what the handler throws *)
Lemma consume_content_throws s e s1 :
  content_inv s -> m_read (ps_parser s) <> [] -> consume_content s = (Exn e, s1) ->
  m_payload_handler (ps_parser s1) <> None.
Proof.
  intros CI NE. rewrite consume_content_spec by done. destruct (_ =? 0); [done|].
  destruct (thrown _ s) as [e'|] eqn:T; [|done]. intros [= _ <-]. cbn. unfold thrown in T.
  by destruct (m_payload_handler (ps_parser s)).
Qed.

Lemma content_split s s1 n b2 :
  parse_inv s -> stream_parser (ps_parser s) -> m_message_parse_state (ps_parser s) = PARSE_CONTENT ->
  m_read (ps_parser s) <> [] -> b2 <> [] ->
  iterate_content s = (Val (indeterminate, n), s1) ->
  m_read (ps_parser s1) = [] /\
  m_message_parse_state (ps_parser s1) = PARSE_CONTENT /\
  iter_eq n (iterate_content (with_read (m_read (ps_parser s) ++ b2) s))
    (iterate_content (with_read b2 s1)).
Proof.
  intros PI St Hs NE NE2. pose proof (pi_state _ PI) as SI. unfold state_inv in SI. rewrite Hs in SI.
  destruct SI as (CI & Lt & _).
  destruct (consume_content s) as [[rc|e|f] s2] eqn:E1.
  2:{ rewrite (iterate_content_throws _ _ _ E1). unfold thrown_outcome. by destruct (is_std e). }
  2:{ rewrite consume_content_spec in E1 by done. destruct (_ =? 0); [done|]. by destruct (thrown _ s). }
  rewrite (iterate_content_eq _ _ _ E1). intros [= -> <- ->].
  destruct (consume_content_split s s1 b2 CI St NE NE2 E1) as (Er & El & CI1 & St1 & Hs1 & Ew).
  rewrite Hs in Hs1. split; [exact Er|]. split; [exact Hs1|].
  rewrite El. set (k := slen (m_read (ps_parser s))) in *.
  destruct (consume_content (with_read b2 s1)) as [[rc|e|f] s2] eqn:E2.
  - rewrite (iterate_content_eq _ _ _ E2), (iterate_content_eq _ _ _ Ew).
    assert (same_but_last (add_last k s2) s2) as Eq by reflexivity.
    cbn [iter_eq]. destruct rc; [left; by apply same_but_last_core|by split_and!..].
  - destruct Ew as (s3 & Ew & B).
    rewrite (iterate_content_throws _ _ _ E2), (iterate_content_throws _ _ _ Ew).
    apply thrown_outcome_eq. split; [|exact B].
    apply (consume_content_throws _ _ _ (content_inv_with_read (m_read (ps_parser s) ++ b2) s CI)) in Ew; [done|].
    by destruct (m_read (ps_parser s)).
  - rewrite consume_content_spec in E2 by (done || by apply content_inv_with_read).
    destruct (_ =? 0); [done|]. by destruct (thrown _ _).
Qed.

(** ** One iteration *)

Lemma start_iteration hook s :
  m_message_parse_state (ps_parser s) = PARSE_START ->
  parse_iteration hook s =
  iterate_headers hook
    (s <| ps_parser := (ps_parser s) <| m_message_parse_state := PARSE_HEADERS |> |>).
Proof. intros E. unfold parse_iteration, bind at 1, gets at 1. by rewrite E. Qed.

Lemma headers_iteration hook s :
  m_message_parse_state (ps_parser s) = PARSE_HEADERS \/
  m_message_parse_state (ps_parser s) = PARSE_FOOTERS ->
  parse_iteration hook s = iterate_headers hook s.
Proof. unfold parse_iteration, bind at 1, gets at 1. by intros [-> | ->]. Qed.

Lemma chunks_iteration hook s :
  m_message_parse_state (ps_parser s) = PARSE_CHUNKS ->
  parse_iteration hook s = iterate_chunks s.
Proof. intros E. unfold parse_iteration, bind at 1, gets at 1. by rewrite E. Qed.

Lemma content_iteration hook s :
  m_message_parse_state (ps_parser s) = PARSE_CONTENT ->
  parse_iteration hook s = iterate_content s.
Proof. intros E. unfold parse_iteration, bind at 1, gets at 1. by rewrite E. Qed.

(** the outcome of an iteration on more input *)
Definition split_outcome (hook : hook_type) (b2 : str) (n : Z) (s' : pstate)
    (whole : res (tribool * Z) * pstate) : Prop :=
  whole = (Val (indeterminate, n), with_read (m_read (ps_parser s') ++ b2) s') \/
  (m_read (ps_parser s') = [] /\
   iter_eq n whole (parse_iteration hook (with_read b2 s'))).

Lemma adj_zero b s : adj b 0 s = with_read (m_read (ps_parser s) ++ b) s.
Proof. reflexivity. Qed.

Lemma iterate_headers_split hook `{PL : !ParseUintLaw, CB : !Callbacks hook} s s' n b2 :
  parse_inv s -> b2 <> [] ->
  m_message_parse_state (ps_parser s) = PARSE_HEADERS \/
  m_message_parse_state (ps_parser s) = PARSE_FOOTERS ->
  iterate_headers hook s = (Val (indeterminate, n), s') ->
  split_outcome hook b2 n s'
    (iterate_headers hook (with_read (m_read (ps_parser s) ++ b2) s)).
Proof.
  intros PI NE2 Hs E.
  pose proof (headers_loop_exit (m_read (ps_parser s)) 0 ((ps_parser s) <| m_bytes_last_read := 0 |>)
                (req_base (ps_request s))) as X.
  fold (headers_of s) in X. cbv zeta in X.
  destruct (hs_rc (headers_of s)) eqn:Erc.
  - destruct X as [ev Xe]. rewrite iterate_headers_eq in E. cbv zeta in E.
    rewrite Xe, Erc in E. discriminate E.
  - left. rewrite headers_split_done by done. rewrite E. reflexivity.
  - right. pose proof (iterate_headers_post hook s PI Hs) as P. 
    pose proof (headers_split_more hook s b2 Erc) as M. cbv zeta in M.
    assert (iterate_headers hook s =
            (Val (indeterminate, hs_read (headers_of s)), headers_state (headers_of s) s)) as E'.
    { rewrite iterate_headers_eq. cbv zeta. destruct X as [X _]. rewrite X, Erc. reflexivity. }
    rewrite E in E'. injection E' as -> ->. rewrite E in P. destruct P as [PI' _].
    set (s1 := headers_state (headers_of s) s) in *.
    assert (m_message_parse_state (ps_parser s1) = m_message_parse_state (ps_parser s)) as Hs1.
    { exact (hf_state _ _ _ _ (headers_loop_keeps (m_read (ps_parser s)) 0
               ((ps_parser s) <| m_bytes_last_read := 0 |>) (req_base (ps_request s)))). }
    assert (m_message_parse_state (ps_parser (with_read b2 s1)) = PARSE_HEADERS \/
            m_message_parse_state (ps_parser (with_read b2 s1)) = PARSE_FOOTERS) as Hs2.
    { change (m_message_parse_state (ps_parser (with_read b2 s1)))
        with (m_message_parse_state (ps_parser s1)). rewrite Hs1. exact Hs. }
    rewrite headers_iteration by exact Hs2.
    pose proof (iterate_headers_post hook _ (parse_inv_with_read b2 s1 PI') Hs2) as P2.
    destruct M as (_ & M2 & M3); [|by split].
    destruct (iterate_headers hook (with_read b2 s1)) as [[[[] ?]|?|?] ?]; exact I || exact P2.
Qed.

Lemma iteration_split hook `{PL : !ParseUintLaw, CB : !Callbacks hook} s s' n b2 :
  parse_inv s -> stream_parser (ps_parser s) -> m_read (ps_parser s) <> [] -> b2 <> [] ->
  parse_iteration hook s = (Val (indeterminate, n), s') ->
  split_outcome hook b2 n s'
    (parse_iteration hook (with_read (m_read (ps_parser s) ++ b2) s)).
Proof.
  intros PI St NE NE2 E. pose proof (pi_state _ PI) as SI. unfold state_inv in SI.
  set (x := m_read (ps_parser s) ++ b2).
  destruct (m_message_parse_state (ps_parser s)) eqn:Hs; try done.
  - rewrite start_iteration in E by done. rewrite start_iteration by exact Hs.
    set (s0 := s <| ps_parser := (ps_parser s) <| m_message_parse_state := PARSE_HEADERS |> |>) in *.
    change (split_outcome hook b2 n s'
              (iterate_headers hook (with_read (m_read (ps_parser s0) ++ b2) s0))).
    refine (iterate_headers_split hook s0 s' n b2 (set_state_headers_inv s PI Hs) NE2 _ E).
    by left.
  - rewrite headers_iteration in E by auto. rewrite headers_iteration by (left; exact Hs).
    exact (iterate_headers_split hook s s' n b2 PI NE2 (or_introl Hs) E).
  - rewrite headers_iteration in E by auto. rewrite headers_iteration by (right; exact Hs).
    exact (iterate_headers_split hook s s' n b2 PI NE2 (or_intror Hs) E).
  - rewrite content_iteration in E by done. rewrite content_iteration by exact Hs.
    destruct (content_split s s' n b2 PI St Hs NE NE2 E) as (Er & Hs' & Eq).
    right. split; [exact Er|]. rewrite content_iteration by exact Hs'. exact Eq.
  - rewrite chunks_iteration in E by done. rewrite chunks_iteration by exact Hs.
    pose proof (pi_chunk _ PI) as W.
    pose proof (chunks_of_exit s W) as X. cbv zeta in X.
    destruct (cs_rc (chunks_of s)) as [[]|e|f] eqn:Erc; [| | | |done].
    4:{ rewrite (iterate_chunks_throws s e Erc (proj2 X)) in E. unfold thrown_outcome in E. by destruct (is_std e). }
    + destruct X as [ev Xe]. rewrite (iterate_chunks_eq s _ Erc), Xe in E.
      unfold chunks_rest, bind, last_read, gets in E. cbn [is_ttrue] in E.
      by destruct (m_payload_handler _).
    + left. subst x. rewrite chunks_split_done by done. rewrite E. reflexivity.
    + right. destruct (chunks_split_more s b2 W St Erc) as (M1 & M2 & M3).
      rewrite E in M1. injection M1 as -> ->. split; [exact M2|].
      rewrite chunks_iteration; [exact M3|].
      change (m_message_parse_state (cs_parser (chunks_of s)) = PARSE_CHUNKS).
      destruct (chunks_loop_keeps (m_read (ps_parser s)) 0 (ps_parser s)
        (m_chunk_cache (req_base (ps_request s))) (ps_world s) W) as (_ & _ & K).
      rewrite chunks_of_plain in Erc |- *. cbn [cs_map cs_rc cs_parser] in *.
      unfold plain_chunks in *.
      destruct K as [K|[K _]]; [etransitivity; [exact K|exact Hs]|congruence].
Qed.

(** ** The count of the last call does not matter *)

Lemma set_last_inv x s : parse_inv s -> parse_inv (set_last x s).
Proof.
  intros [W Hm SI]. constructor; [exact W|exact Hm|].
  unfold state_inv in *. cbn [ps_parser set_field set_last m_message_parse_state] in *.
  destruct (m_message_parse_state (ps_parser s)); try exact SI.
  destruct SI as (CI & L & F). destruct CI. split; [by constructor|]. by split.
Qed.

Lemma iterate_headers_last hook x s :
  iterate_headers hook (set_last x s) = iterate_headers hook s.
Proof.
  rewrite !iterate_headers_eq. change (headers_of (set_last x s)) with (headers_of s). cbv zeta.
  destruct (hs_error (headers_of s)); reflexivity.
Qed.

(** the outcomes are the same, or failures that differ in the last count *)
Definition last_eq {A} (failed : A -> Prop) (o1 o2 : res A * pstate) : Prop :=
  o1 = o2 \/
  o1.1 = o2.1 /\ same_but_last o1.2 o2.2 /\ match o1.1 with Val a => failed a | Exn _ => True | Fault _ => False end.

Definition is_false (r : tribool * Z) : Prop := r.1 = tfalse.

Lemma iterate_content_last x s :
  content_inv s -> m_read (ps_parser s) <> [] -> 0 < m_bytes_content_remaining (ps_parser s) ->
  last_eq is_false (iterate_content (set_last x s)) (iterate_content s).
Proof.
  intros CI NE L. assert (content_inv (set_last x s)) as CIx by (destruct CI; by constructor).
  set (p := ps_parser s). set (n := Z.min (m_bytes_content_remaining p) (slen (m_read p))).
  set (data := take (Z.to_nat n) (m_read p)).
  pose proof (consume_content_spec s CI NE) as E. pose proof (consume_content_spec (set_last x s) CIx NE) as Ex.
  cbv zeta in E, Ex. cbn [set_last ps_parser set_field m_bytes_content_remaining m_read] in Ex.
  fold p n data in E, Ex. destruct (Z.eqb_spec (m_bytes_content_remaining p) 0); [subst p; lia|].
  change (thrown data (set_last x s)) with (thrown data s) in Ex.
  destruct (thrown data s) as [e|].
  - rewrite (iterate_content_throws _ _ _ E), (iterate_content_throws _ _ _ Ex). right.
    assert (deliver data (set_last x s) = set_last x (deliver data s)) as D.
    { unfold set_last. rewrite deliver_set_read by reflexivity. by rewrite deliver_parser. }
    rewrite D. unfold thrown_outcome. destruct (is_std e); split_and!; done.
  - left. unfold iterate_content, try_catch, bind at 1 3. rewrite E, Ex.
    unfold set_last. rewrite deliver_set_read by reflexivity. reflexivity.
Qed.

Lemma iterate_chunks_last x s :
  chunk_wf (ps_parser s) -> iterate_chunks (set_last x s) = iterate_chunks s.
Proof.
  intros W. pose proof (chunks_of_exit s W) as X. cbv zeta in X.
  destruct (cs_rc (chunks_of s)) as [rc|e|f] eqn:E; [| |done].
  - rewrite (iterate_chunks_eq s rc E), (iterate_chunks_eq (set_last x s) rc E).
    change (chunks_of (set_last x s)) with (chunks_of s). cbv zeta.
    destruct (cs_error (chunks_of s)); reflexivity.
  - rewrite (iterate_chunks_throws s e E), (iterate_chunks_throws (set_last x s) e E) by apply X. reflexivity.
Qed.

Lemma iteration_last hook x s :
  parse_inv s -> m_read (ps_parser s) <> [] ->
  last_eq is_false (parse_iteration hook (set_last x s)) (parse_iteration hook s).
Proof.
  intros PI NE. pose proof (pi_state _ PI) as SI. unfold state_inv in SI.
  destruct (m_message_parse_state (ps_parser s)) eqn:Hs; try done.
  - left. rewrite !start_iteration by exact Hs.
    set (s0 := s <| ps_parser := (ps_parser s) <| m_message_parse_state := PARSE_HEADERS |> |>).
    exact (iterate_headers_last hook x s0).
  - left. rewrite !headers_iteration by (left; exact Hs). apply iterate_headers_last.
  - left. rewrite !headers_iteration by (right; exact Hs). apply iterate_headers_last.
  - rewrite !content_iteration by exact Hs. destruct SI as (CI & L & _). by apply iterate_content_last.
  - left. rewrite !chunks_iteration by exact Hs. apply iterate_chunks_last, PI.
Qed.

Lemma same_but_last_set s s' :
  same_but_last s s' -> s = set_last (m_bytes_last_read (ps_parser s)) s'.
Proof.
  intros E. transitivity (set_last (m_bytes_last_read (ps_parser s)) (set_last 0 s)).
  - destruct s as [p r ec w]. by destruct p.
  - rewrite E. reflexivity.
Qed.

Lemma parse_loop_last hook x fuel total s :
  parse_inv s -> m_read (ps_parser s) <> [] -> (1 <= fuel)%nat ->
  last_eq is_false (parse_loop hook fuel total (set_last x s)) (parse_loop hook fuel total s).
Proof.
  intros PI NE L. destruct fuel as [|fuel]; [lia|]. cbn [parse_loop]. unfold bind at 1 3.
  destruct (iteration_last hook x s PI NE) as [->|(E & B & Fd)]; [by left|].
  destruct (parse_iteration hook (set_last x s)) as [r1 s1], (parse_iteration hook s) as [r2 s2].
  cbn [fst snd] in *. subst r2. right.
  destruct r1 as [[rc n]|e|f]; [|by split_and!|done]. change (rc = tfalse) in Fd. subst rc.
  unfold bind, gets. cbn [is_indeterminate andb]. by split_and!.
Qed.

Lemma add64_add_r a b c : a +64 (b +64 c) = a +64 (b + c).
Proof. unfold add64, wrap. by rewrite Zplus_mod_idemp_r. Qed.

(** the total of a loop that starts with one *)
Lemma parse_loop_total hook fuel a b s :
  parse_loop hook fuel (a +64 b) s =
  match parse_loop hook fuel b s with
  | (Val (rc, n), s') => (Val (rc, a +64 n), s')
  | o => o
  end.
Proof.
  revert b s. induction fuel as [|fuel IH]; intros b s; [done|].
  cbn [parse_loop]. unfold bind at 1 3.
  destruct (parse_iteration hook s) as [[[rc n]|e|f] s1]; [|done..].
  unfold bind, gets.
  rewrite add64_assoc. replace (a +64 (b + n)) with (a +64 (b +64 n)) by apply add64_add_r.
  destruct (is_indeterminate rc && negb (eof (ps_parser s1))); [apply IH|done].
Qed.

(** ** The loop on two buffers in a row *)

Definition loop_eq (o1 o2 : res (tribool * Z) * pstate) : Prop :=
  match o1, o2 with
  | (Val (tfalse, _), s1), (Val (tfalse, _), s2) => core s1 = core s2 \/ threw s1 s2
  | (Val (rc1, n1), s1), (Val (rc2, n2), s2) => rc1 = rc2 /\ n1 = n2 /\ same_but_last s1 s2
  | (Exn e1, s1), (Exn e2, s2) => e1 = e2 /\ (same_but_last s1 s2 \/ threw s1 s2)
  | _, _ => False
  end.

Lemma loop_eq_refl o : match o with (Fault _, _) => False | _ => True end -> loop_eq o o.
Proof.
  destruct o as [[[[] n]|e|f] s]; cbn; intros H; [by left|by split_and!..| |done].
  split; [done|by left].
Qed.

Lemma same_but_last_body s s' : same_but_last s s' -> same_body s s'.
Proof. intros E. rewrite (same_but_last_set _ _ E). by split_and!. Qed.

Lemma threw_last s s2 s3 : threw s s2 -> same_but_last s3 s2 -> threw s s3.
Proof.
  intros [Hh (B1 & B2 & B3)] E. apply same_but_last_body in E as (C1 & C2 & C3).
  split; [done|]. split_and!; congruence.
Qed.

Lemma loop_eq_last o1 o2 o3 : loop_eq o1 o2 -> last_eq is_false o3 o2 -> loop_eq o1 o3.
Proof.
  intros H [->|(E & B & Fd)]; [done|]. destruct o3 as [r s3], o2 as [r2 s2]. cbn in *. subst r2.
  destruct r as [[rc n]|e|f]; [change (rc = tfalse) in Fd; subst rc| |done]; destruct o1 as [[[[] ?]|?|?] s1];
    try done; try (by destruct H).
  - cbn in H |- *. destruct H as [H|H]; [left|right; by eapply threw_last].
    rewrite H. symmetry. by apply same_but_last_core.
  - cbn in H |- *. destruct H as [-> H]. split; [done|].
    destruct H as [H|H]; [left|right; by eapply threw_last]. unfold same_but_last in *. congruence.
Qed.

Lemma last_loop_eq o1 o2 :
  last_eq is_false o1 o2 -> match o2 with (Fault _, _) => False | _ => True end -> loop_eq o1 o2.
Proof.
  intros H N. destruct H as [->|(E & B & Fd)]; [by apply loop_eq_refl|].
  destruct o1 as [r s1], o2 as [r2 s2]. cbn in *. subst r2.
  destruct r as [[rc n]|e|f]; [change (rc = tfalse) in Fd; subst rc| |done]; cbn; auto.
  left. by apply same_but_last_core.
Qed.

Lemma parse_measure_pos s : (1 <= parse_measure s)%nat.
Proof. unfold parse_measure. destruct (m_message_parse_state _); lia. Qed.

(** what follows an iteration *)
Definition loop_tail (hook : hook_type) (fuel : nat) (total : Z)
    (o : res (tribool * Z) * pstate) : res (tribool * Z) * pstate :=
  match o with
  | (Val (rc, n), s) =>
    if is_indeterminate rc && negb (eof (ps_parser s))
    then parse_loop hook fuel (total +64 n) s else (Val (rc, total +64 n), s)
  | (Exn e, s) => (Exn e, s)
  | (Fault f, s) => (Fault f, s)
  end.

Lemma parse_loop_unfold hook fuel total s :
  parse_loop hook (S fuel) total s = loop_tail hook fuel total (parse_iteration hook s).
Proof.
  cbn [parse_loop]. unfold bind at 1. unfold loop_tail.
  destruct (parse_iteration hook s) as [[[rc n]|e|f] s1]; [|done..].
  unfold bind, gets, ret. by destruct (is_indeterminate rc && negb (eof (ps_parser s1))).
Qed.

Context `{PL : !ParseUintLaw}.

(** the loops go on together after iterations with the same outcome *)
Lemma loop_tail_eq hook `{CB : !Callbacks hook} fuel k total s o1 o2 :
  iter_eq k o1 o2 -> iter_post s o2 -> (parse_measure s <= S fuel)%nat ->
  loop_eq (loop_tail hook fuel total o1) (loop_tail hook fuel (total +64 k) o2).
Proof.
  intros E P L.
  destruct o1 as [[[rc1 n1]|e1|f1] s1], o2 as [[[rc2 n2]|e2|f2] s2]; cbn [iter_eq] in E;
    try (by destruct rc1); try done.
  assert (rc1 = rc2 /\ (rc1 <> tfalse -> n1 = k + n2 /\ same_but_last s1 s2)) as [<- E'].
  { destruct rc1, rc2; try done; destruct E as (? & ? & ?); split; auto. }
  cbn [loop_tail]. destruct rc1; cbn [is_indeterminate andb]; [exact E| |].
  - destruct E' as [-> E']; [done|]. cbn [loop_eq]. by rewrite add64_assoc.
  - destruct E' as [-> E']; [done|]. rewrite add64_assoc.
    assert (m_read (ps_parser s1) = m_read (ps_parser s2)) as Er.
    { rewrite (same_but_last_set _ _ E'). reflexivity. }
    unfold eof. rewrite Er. cbn [iter_post] in P. destruct P as [PI ME].
    destruct (bool_decide (m_read (ps_parser s2) = [])) eqn:Eof; cbn [negb].
    + by split_and!.
    + apply bool_decide_eq_false in Eof. specialize (ME Eof).
      pose proof (parse_measure_pos s2).
      rewrite (same_but_last_set _ _ E').
      apply last_loop_eq; [apply parse_loop_last; done || lia|]. pose proof (parse_loop_post hook fuel (total +64 (k + n2)) s2 PI Eof) as P.
      destruct (parse_loop _ _ _ _) as [[[[] ?]|?|?] ?]; try exact I. apply P. lia.
Qed.

(** the first buffer is used up: what follows the iteration that ended with
    it is what the second buffer starts with *)
Lemma parse_loop_boundary hook `{CB : !Callbacks hook} fuel fuel' total k b2 s s' :
  let whole := with_read (m_read (ps_parser s) ++ b2) s in
  parse_inv s -> m_read (ps_parser s) <> [] -> b2 <> [] -> (parse_measure s <= S fuel)%nat ->
  parse_inv s' -> m_read (ps_parser s') = [] -> (parse_measure s' <= S fuel')%nat ->
  parse_iteration hook whole = (Val (indeterminate, k), with_read b2 s') \/
  iter_eq k (parse_iteration hook whole) (parse_iteration hook (with_read b2 s')) ->
  loop_eq (parse_loop hook (S fuel) total whole)
    (parse_loop hook (S fuel') (total +64 k) (with_read b2 s')).
Proof.
  intros whole PI NE NE2 L PI' Eof L' Sp.
  assert (parse_inv whole) as PIw by (by apply parse_inv_with_read).
  assert (m_read (ps_parser whole) <> []) as NEw by (cbn; by destruct (m_read (ps_parser s))).
  assert (parse_measure whole = parse_measure s) as Mw by reflexivity.
  assert (parse_inv (with_read b2 s')) as PIb by (by apply parse_inv_with_read).
  assert (m_read (ps_parser (with_read b2 s')) <> []) as NEb by exact NE2.
  destruct Sp as [Sp|Sp].
  - pose proof (iteration_post hook whole PIw NEw) as Pw.
    rewrite Sp in Pw. cbn [iter_post] in Pw. destruct Pw as [_ Mw']. specialize (Mw' NEb).
    rewrite parse_loop_unfold, Sp. cbn [loop_tail is_indeterminate andb].
    assert (eof (ps_parser (with_read b2 s')) = false) as ->.
    { unfold eof. by apply bool_decide_eq_false. }
    cbn [negb]. rewrite (parse_loop_fuel hook fuel (S fuel') (total +64 k)) by (done || lia).
    apply loop_eq_refl.
    pose proof (parse_loop_post hook (S fuel') (total +64 k) _ PIb NEb L') as Pl.
    destruct (parse_loop _ _ _ _) as [[[[] ?]|?|?] ?]; exact I || exact Pl.
  - rewrite (parse_loop_fuel hook (S fuel) (S (S fuel + 3)) total whole) by (done || lia).
    rewrite (parse_loop_fuel hook (S fuel') (S (S fuel + 3)) (total +64 k) (with_read b2 s'))
      by (done || (unfold parse_measure; destruct (m_message_parse_state _); lia)).
    rewrite !parse_loop_unfold.
    apply (loop_tail_eq hook _ k total (with_read b2 s')); [exact Sp|by apply iteration_post|].
    unfold parse_measure; destruct (m_message_parse_state _); lia.
Qed.

(** *** What the loop keeps

    A payload handler that is a stream, and the flags for missing packets. *)

Definition missing_ok (s : pstate) : Prop :=
  m_has_missing_packets (req_base (ps_request s)) = true ->
  m_has_data_after_missing (req_base (ps_request s)) = true.

Definition streaming (s : pstate) : Prop := stream_parser (ps_parser s) /\ missing_ok s.

(** the payload handlers the hook installs are streams, and the hook leaves
    the flags alone *)
Class StreamHook (hook : hook_type) : Prop := {
  hook_stream req ec rc w h : he_handler (hook req ec rc w).2 = Some h -> StreamHandler h;
  hook_flags req ec rc w :
    let m := req_base req in let m' := req_base (he_request (hook req ec rc w).2) in
    m_has_missing_packets m' = m_has_missing_packets m /\
    m_has_data_after_missing m' = m_has_data_after_missing m;
}.

Definition keeps_streaming {A} (m : M pstate A) : Prop := forall s, streaming s -> streaming (m s).2.

Lemma streaming_bind {A B} (m : M pstate A) (f : A -> M pstate B) s :
  streaming (m s).2 -> (forall a, keeps_streaming (f a)) -> streaming (bind m f s).2.
Proof.
  intros H K. unfold bind. destruct (m s) as [[a|e|x] s1]; [|done..]. by apply K.
Qed.

Lemma streaming_try c {A} (m h : M pstate A) s :
  streaming (m s).2 -> keeps_streaming h -> streaming (try_catch c m h s).2.
Proof.
  intros H K. unfold try_catch. destruct (m s) as [[a|e|x] s1]; [done| |done].
  destruct (c e); [by apply K|done].
Qed.

Lemma keeps_streaming_bind {A B} (m : M pstate A) (f : A -> M pstate B) :
  keeps_streaming m -> (forall a, keeps_streaming (f a)) -> keeps_streaming (bind m f).
Proof. intros H K s S. by apply streaming_bind; [apply H|]. Qed.

Lemma keeps_streaming_try c {A} (m h : M pstate A) :
  keeps_streaming m -> keeps_streaming h -> keeps_streaming (try_catch c m h).
Proof. intros H K s S. by apply streaming_try; [apply H|]. Qed.

Lemma keeps_streaming_if {A} (b : bool) (m h : M pstate A) :
  keeps_streaming m -> keeps_streaming h -> keeps_streaming (if b then m else h).
Proof. by destruct b. Qed.

Lemma keeps_streaming_ret {A} (a : A) : keeps_streaming (ret a).
Proof. by intros s S. Qed.

Lemma keeps_streaming_gets {A} (f : pstate -> A) : keeps_streaming (gets f).
Proof. by intros s S. Qed.

Hint Resolve keeps_streaming_ret keeps_streaming_gets : core.

(** the parts of the state that matter *)
Lemma keeps_streaming_same {A} (m : M pstate A) :
  (forall s, m_payload_handler (ps_parser (m s).2) = m_payload_handler (ps_parser s) /\
     m_has_missing_packets (req_base (ps_request (m s).2)) = m_has_missing_packets (req_base (ps_request s)) /\
     m_has_data_after_missing (req_base (ps_request (m s).2)) = m_has_data_after_missing (req_base (ps_request s))) ->
  keeps_streaming m.
Proof.
  intros H s [S M]. destruct (H s) as (E1 & E2 & E3). split.
  - unfold stream_parser. by rewrite E1.
  - unfold missing_ok. by rewrite E2, E3.
Qed.

Lemma keeps_streaming_concatenate : keeps_streaming (try_message concatenate_chunks).
Proof.
  apply keeps_streaming_same. intros s. unfold try_message.
  destruct (concatenate_chunks_ok (req_base (ps_request s))) as (m' & -> & _ & _ & E1 & E2).
  by split_and!.
Qed.

Lemma keeps_streaming_hook hook `{SH : !StreamHook hook} rc : keeps_streaming (call_hook hook rc).
Proof.
  intros s [S M]. unfold call_hook.
  pose proof (hook_stream (hook := hook) (ps_request s) (ps_ec s) rc (ps_world s)) as Hs.
  pose proof (hook_flags (hook := hook) (ps_request s) (ps_ec s) rc (ps_world s)) as [F1 F2].
  destruct (hook _ _ _ _) as [r e]. cbn [fst snd] in *. split.
  - unfold stream_parser. cbn [ps_parser set_field]. destruct (he_handler e) as [h|]; [by apply Hs|exact S].
  - unfold missing_ok. cbn [ps_request set_field]. by rewrite F1, F2.
Qed.

Lemma keeps_streaming_finish_header_parsing hook `{SH : !StreamHook hook} s :
  0 <= m_max_content_length (ps_parser s) < 2 ^ 64 -> streaming s ->
  streaming (finish_header_parsing hook s).2.
Proof.
  intros Hm [S M]. destruct (finish_header_parsing_spec hook s Hm) as (rc & s2 & C & Fr & ->).
  assert (streaming s2) as S2.
  { destruct Fr. split; [unfold stream_parser; by rewrite cf_handler|].
    unfold missing_ok. by rewrite cf_missing, cf_after. }
  destruct rc as [rc|]; [|exact S2]. by apply keeps_streaming_hook.
Qed.

Lemma streaming_iterate_headers hook `{SH : !StreamHook hook} s :
  0 <= m_max_content_length (ps_parser s) < 2 ^ 64 -> streaming s ->
  streaming (iterate_headers hook s).2.
Proof.
  intros Hm S. unfold iterate_headers, bind at 1.
  pose proof (headers_loop_keeps (m_read (ps_parser s)) 0 ((ps_parser s) <| m_bytes_last_read := 0 |>)
    (req_base (ps_request s))) as K. cbv zeta in K.
  assert (streaming (run_parse_headers s).2 /\
    m_max_content_length (ps_parser (run_parse_headers s).2) = m_max_content_length (ps_parser s)) as [S1 E1].
  { unfold run_parse_headers, parse_headers. destruct S as [S M], K.
    destruct (hs_error _); (split; [split|exact hf_max]); unfold stream_parser, missing_ok;
      cbn -[headers_loop]; by rewrite ?hf_handler, ?hf_missing, ?hf_after. }
  assert (exists rc, (run_parse_headers s).1 = Val rc) as [rc E]
    by (unfold run_parse_headers; destruct (parse_headers _ _ _) as [[[? ?] ?] ?]; eauto).
  destruct (run_parse_headers s) as [r s1]. cbn [fst snd] in *. subst r.
  unfold bind, last_read, gets. destruct (_ && _); [|exact S1].
  rewrite <- E1 in Hm. pose proof (keeps_streaming_finish_header_parsing hook s1 Hm S1) as S2.
  by destruct (finish_header_parsing hook s1) as [[a|e|f] s2].
Qed.

Lemma streaming_iterate_chunks s :
  chunk_wf (ps_parser s) -> streaming s -> streaming (iterate_chunks s).2.
Proof.
  intros W S. set (p0 := (ps_parser s) <| m_bytes_last_read := 0 |>).
  assert (chunk_wf p0) as W0 by exact W.
  destruct (chunks_loop_keeps (m_read (ps_parser s)) 0 p0
    (m_chunk_cache (req_base (ps_request s))) (ps_world s) W0) as ([K _ _] & _ & _).
  assert (streaming (parse_chunks s).2) as S1.
  { unfold parse_chunks. destruct S as [S M]. cbv zeta in K |- *. fold p0. set (cs := chunks_loop _ _ _ _ _) in *.
    clearbody cs. assert (stream_parser (cs_parser cs)) as Sc by (unfold stream_parser; by rewrite K).
    destruct (cs_rc cs) as [rc|e|f]; [destruct (cs_error cs)|..]; split; exact Sc || exact M. }
  unfold iterate_chunks. apply streaming_bind.
  - apply streaming_try; [apply streaming_bind; [exact S1|]|done].
    intros rc. apply keeps_streaming_bind; [apply keeps_streaming_gets|done].
  - intros [rc n]. apply keeps_streaming_bind; [done|intros p].
    destruct (m_payload_handler p); [done|]. apply keeps_streaming_if; [|done].
    apply keeps_streaming_bind; [apply keeps_streaming_concatenate|done].
Qed.

Lemma keeps_streaming_parser f :
  (forall p, m_payload_handler (f p) = m_payload_handler p) -> keeps_streaming (on_parser f).
Proof. intros H. apply keeps_streaming_same. intros s. split_and!; [apply H|done..]. Qed.

Lemma keeps_streaming_memcpy off n : keeps_streaming (memcpy_content off n).
Proof.
  unfold memcpy_content. apply keeps_streaming_bind; [done|intros q].
  apply keeps_streaming_if; [|by intros s S].
  intros s S. unfold try_message. by destruct (cb_write _ _ _).
Qed.

Hint Resolve keeps_streaming_memcpy : core.

Lemma keeps_streaming_content : keeps_streaming iterate_content.
Proof.
  unfold iterate_content. apply keeps_streaming_try; [|done].
  apply keeps_streaming_bind; [|intros rc; apply keeps_streaming_bind; [apply keeps_streaming_gets|done]].
  unfold consume_content. apply keeps_streaming_bind; [done|intros p].
  apply keeps_streaming_if; [done|].
  destruct (if bytes_available p >=? m_bytes_content_remaining p then _ else _) as [rc k].
  apply keeps_streaming_bind; [by apply keeps_streaming_parser|intros _].
  apply keeps_streaming_bind; [|intros _; apply keeps_streaming_bind; [by apply keeps_streaming_parser|done]].
  destruct (m_payload_handler p) as [h|]; [|by repeat apply keeps_streaming_if].
  intros s S. unfold call_handler. by destruct (run_handler _ _ _).
Qed.

Lemma streaming_iteration hook `{SH : !StreamHook hook} s :
  parse_inv s -> streaming s -> streaming (parse_iteration hook s).2.
Proof.
  intros PI S. pose proof (pi_state _ PI) as SI. unfold state_inv in SI. destruct PI as [W Hm _].
  destruct (m_message_parse_state (ps_parser s)) eqn:Hs; try done.
  - rewrite start_iteration by done. by apply streaming_iterate_headers.
  - rewrite headers_iteration by auto. by apply streaming_iterate_headers.
  - rewrite headers_iteration by auto. by apply streaming_iterate_headers.
  - rewrite content_iteration by done. by apply keeps_streaming_content.
  - rewrite chunks_iteration by done. by apply streaming_iterate_chunks.
Qed.

Lemma parse_loop_split hook `{CB : !Callbacks hook, SH : !StreamHook hook} fuel total n b2 s s1 :
  parse_inv s -> streaming s -> m_read (ps_parser s) <> [] -> b2 <> [] -> (parse_measure s <= fuel)%nat ->
  parse_loop hook fuel total s = (Val (indeterminate, n), s1) ->
  m_read (ps_parser s1) = [] /\ parse_inv s1 /\ streaming s1 /\
  forall fuel', (parse_measure s1 <= fuel')%nat ->
  loop_eq (parse_loop hook fuel total (with_read (m_read (ps_parser s) ++ b2) s))
    (parse_loop hook fuel' n (with_read b2 s1)).
Proof.
  intros PI Str NE NE2. revert total s PI Str NE. induction fuel as [|fuel IH]; intros total s PI Str NE L E.
  { pose proof (parse_measure_pos s). lia. }
  rewrite parse_loop_unfold in E.
  pose proof (iteration_post hook s PI NE) as P. pose proof (streaming_iteration hook s PI Str) as Str'.
  destruct (parse_iteration hook s) as [[[rc k]|e|f] s'] eqn:Ei; [|done|done].
  cbn [loop_tail snd] in E, Str'.
  destruct rc; cbn [is_indeterminate andb] in E; [done|done|].
  cbn [iter_post] in P. destruct P as [PI' ME].
  pose proof (iteration_split hook s s' k b2 PI (proj1 Str) NE NE2 Ei) as Sp.
  destruct (eof (ps_parser s')) eqn:Eof; cbn [negb] in E; unfold eof in Eof.
  - apply bool_decide_eq_true in Eof. injection E as <- <-.
    split; [exact Eof|]. split; [exact PI'|]. split; [exact Str'|]. intros fuel' L'.
    destruct fuel' as [|fuel']; [pose proof (parse_measure_pos s'); lia|].
    apply (parse_loop_boundary hook fuel fuel' total k b2 s s'); try done.
    unfold split_outcome in Sp. rewrite Eof in Sp. destruct Sp as [Sp|[_ Sp]]; [by left|by right].
  - apply bool_decide_eq_false in Eof. specialize (ME Eof).
    destruct (IH (total +64 k) s' PI' Str' Eof ltac:(lia) E) as (R1 & R2 & R3 & R4).
    split; [exact R1|]. split; [exact R2|]. split; [exact R3|]. intros fuel' L'.
    destruct Sp as [Sp|[Sp _]]; [|done].
    rewrite parse_loop_unfold, Sp. cbn [loop_tail is_indeterminate andb].
    assert (eof (ps_parser (with_read (m_read (ps_parser s') ++ b2) s')) = false) as ->.
    { unfold eof. apply bool_decide_eq_false. cbn. by destruct (m_read (ps_parser s')). }
    apply R4, L'.
Qed.

(** ** Whole calls *)

Hint Resolve commutes_ret commutes_throw commutes_crash : commutes.

Lemma on_request_last x f : commutes (set_last x) (on_request f).
Proof. by apply commutes_modify. Qed.

Lemma finish_form_data_last x : commutes (set_last x) finish_form_data.
Proof.
  unfold finish_form_data. apply commutes_gets_bind; [reflexivity|intros req].
  apply commutes_if; [|apply commutes_if; [|apply commutes_ret]];
    (destruct (cb_read _ _) as [d|e|f]; [|apply commutes_throw|apply commutes_crash]).
  - apply on_request_last.
  - destruct (parse_multipart_form_data _ _ _) as [r dict].
    apply commutes_bind; [apply on_request_last|intros _].
    destruct r; [apply commutes_ret|apply commutes_throw|apply commutes_crash].
Qed.

Lemma finish_rest_last x : commutes (set_last x) finish_rest.
Proof.
  unfold finish_rest. apply commutes_bind; [apply on_request_last|intros _].
  apply commutes_gets_bind; [reflexivity|intros p].
  destruct (m_payload_handler p); [apply commutes_ret|].
  apply commutes_if; [apply finish_form_data_last|apply commutes_ret].
Qed.

Definition set_end (s : pstate) : pstate :=
  s <| ps_parser := (ps_parser s) <| m_message_parse_state := PARSE_END |> |>.

Lemma finish_end_last x s :
  finish (set_end (set_last x s)) =
  let '(r, s') := finish (set_end s) in (r, set_last x s').
Proof.
  assert (forall s, finish (set_end s) =
                    (on_message (set_is_valid true) ;;; finish_rest) (set_end s)) as E
    by reflexivity.
  rewrite !E. change (set_end (set_last x s)) with (set_last x (set_end s)).
  apply (commutes_bind (set_last x)); [apply on_request_last|intros _; apply finish_rest_last].
Qed.

Lemma parse_epilogue_eq rc n s :
  parse_epilogue (rc, n) s =
  match rc with
  | ttrue => match finish (set_end s) with
             | (Val _, s') => (Val ttrue, set_last n s')
             | (Exn e, s') => (Exn e, s')
             | (Fault f, s') => (Fault f, s')
             end
  | tfalse => (Val tfalse, set_last n
                 (s <| ps_request := on_base (compute_msg_status false) (ps_request s) |>))
  | indeterminate => (Val indeterminate, set_last n s)
  end.
Proof.
  unfold parse_epilogue, bind, ret. destruct rc; reflexivity.
Qed.

Lemma parse_eq hook s :
  m_read (ps_parser s) <> [] ->
  parse hook s =
  match parse_loop hook parse_fuel 0 (prologue_state s) with
  | (Val r, s') => parse_epilogue r s'
  | (Exn e, s') => (Exn e, s')
  | (Fault f, s') => (Fault f, s')
  end.
Proof.
  intros NE. unfold parse, bind at 1. rewrite parse_prologue_eq by done. unfold bind.
  by destruct (parse_loop _ _ _ _) as [[r|e|f] s'].
Qed.

(** The outcomes of parsing the concatenation and of parsing the second
    buffer after the first: the same result and exception; if the message is
    complete or goes on, the same state but for the count of the last call,
    which is the sum of the counts of the two; if there was an error, the same
    state but for the counters or, when it is the payload handler that threw,
    the same message, error code and world. *)
Definition outcome_eq (k : Z) (o1 o2 : res tribool * pstate) : Prop :=
  o1.1 = o2.1 /\
  match o1.1 with
  | Val tfalse => core o1.2 = core o2.2 \/ threw o1.2 o2.2
  | Val _ => same_but_last o1.2 o2.2 /\
             m_bytes_last_read (ps_parser o1.2) = k +64 m_bytes_last_read (ps_parser o2.2)
  | _ => same_but_last o1.2 o2.2 \/ threw o1.2 o2.2
  end.

Lemma prologue_missing_ok s : missing_ok s -> prologue_state s = s.
Proof.
  unfold missing_ok, prologue_state. destruct s as [p [m ? ? ? ? ? ? ?] ec w].
  cbn [ps_request req_base]. destruct (m_has_missing_packets m) eqn:E; [|done].
  intros H. specialize (H eq_refl). destruct m. cbn in *. by subst.
Qed.

Lemma prologue_streaming s : stream_parser (ps_parser s) -> streaming (prologue_state s).
Proof.
  intros St. unfold prologue_state. destruct (m_has_missing_packets _) eqn:E; (split; [exact St|]).
  - done.
  - unfold missing_ok. congruence.
Qed.

Lemma prologue_with_read x s : prologue_state (with_read x s) = with_read x (prologue_state s).
Proof. unfold prologue_state. cbn. by destruct (m_has_missing_packets _). Qed.

Lemma core_failed n1 n2 s1 s2 (f : http_request -> http_request) :
  core s1 = core s2 ->
  core (set_last n1 (s1 <| ps_request := f (ps_request s1) |>)) =
  core (set_last n2 (s2 <| ps_request := f (ps_request s2) |>)).
Proof.
  intros E. exact (f_equal (fun s => s <| ps_request := f (ps_request s) |>) E).
Qed.

Lemma epilogue_split k n2 o1 o2 :
  loop_eq o1 (match o2 with (Val (rc, n), s') => (Val (rc, k +64 n), s') | o => o end) ->
  no_fault o2.1 ->
  match o2 with (Val (rc, n), _) => n = n2 | _ => True end ->
  outcome_eq k
    (match o1 with
     | (Val r, s') => parse_epilogue r s' | (Exn e, s') => (Exn e, s')
     | (Fault f, s') => (Fault f, s') end)
    (match o2 with
     | (Val r, s') => parse_epilogue r s' | (Exn e, s') => (Exn e, s')
     | (Fault f, s') => (Fault f, s') end).
Proof.
  intros E NF En.
  destruct o2 as [[[rc2 n]|e2|f2] s2]; [subst n| |done].
  2:{ destruct o1 as [[[[] ?]|e1|f1] s1]; try done. destruct E as [-> E]. by split. }
  destruct o1 as [[[rc1 n1]|e1|f1] s1]; [|by destruct rc2..].
  cbn [loop_eq] in E.
  assert (rc1 = rc2 /\ (rc1 = tfalse -> core s1 = core s2 \/ threw s1 s2) /\
          (rc1 <> tfalse -> n1 = k +64 n2 /\ same_but_last s1 s2)) as (-> & Ef & E').
  { destruct rc1, rc2; try (by destruct E); [by split|destruct E as (? & ? & ?); by split_and!..]. }
  rewrite !parse_epilogue_eq. destruct rc2.
  - specialize (Ef eq_refl). unfold outcome_eq. cbn [fst snd]. split; [done|].
    destruct Ef as [Ec|[Hh (B1 & B2 & B3)]]; [left|right].
    + by apply core_failed.
    + split; [exact Hh|]. split_and!; cbn; congruence.
  - destruct E' as [-> E']; [done|]. rewrite (same_but_last_set _ _ E'), finish_end_last.
    destruct (finish (set_end s2)) as [[u|e|f] s']; unfold outcome_eq; cbn [fst snd];
      [split_and!; reflexivity|split; [reflexivity|left; reflexivity]..].
  - destruct E' as [-> E']; [done|]. rewrite (same_but_last_set _ _ E').
    unfold outcome_eq. cbn [fst snd]. split_and!; reflexivity.
Qed.

Lemma parse_loop_range hook fuel total s rc n s' :
  parse_loop hook fuel total s = (Val (rc, n), s') -> 0 <= n < 2 ^ 64.
Proof.
  revert total s. induction fuel as [|fuel IH]; intros total s; [done|].
  rewrite parse_loop_unfold. destruct (parse_iteration hook s) as [[[rc1 n1]|e|f] s1]; [|done..].
  cbn [loop_tail]. destruct (_ && _); [apply IH|]. intros [= _ <- _]. apply add64_range.
Qed.

(** the epilogue of the second call, which starts with the first one's count *)
Lemma epilogue_of_split n o1 o2 o3 :
  loop_eq o1 (match o2 with (Val (rc, m), s') => (Val (rc, n +64 m), s') | o => o end) ->
  last_eq is_false o3 o2 ->
  match o2 with (Fault _, _) => False | _ => True end ->
  outcome_eq n
    (match o1 with
     | (Val r, s') => parse_epilogue r s' | (Exn e, s') => (Exn e, s')
     | (Fault f, s') => (Fault f, s') end)
    (match o3 with
     | (Val r, s') => parse_epilogue r s' | (Exn e, s') => (Exn e, s')
     | (Fault f, s') => (Fault f, s') end).
Proof.
  intros E La NF.
  apply (epilogue_split n (match o3 with (Val (_, m), _) => m | _ => 0 end)).
  - apply (loop_eq_last _ _ _ E). destruct La as [->|(Er & B & Fd)]; [by left|right].
    destruct o3 as [r3 s3], o2 as [r2 s2]. cbn in *. subst r3.
    destruct r2 as [[rc m]|e|f]; by split_and!.
  - destruct La as [->|(Er & _)]; [|rewrite Er]; by destruct o2 as [[]].
  - by destruct o3 as [[[]| |] ?].
Qed.

End Split.

(** C3: The outcome of parsing does not depend on how the bytes arrive: when
    [parse] runs out of data in the middle of a message and is called again
    with the next buffer, the result, the error code, the message, what the
    payload handler got and the state of the parser are those of one call on
    the two buffers together.  After an error, this is up to the byte counters
    or, if it is the payload handler that threw, up to the parser's position.
    The payload handlers, the parser's and those the hook installs, may throw,
    but must themselves not depend on the cut: a call on two pieces together
    has the effect of a call on the first and, unless that throws, a call on
    the second ([StreamHandler]).  The hook is safe ([Callbacks]) and leaves
    the flags for missing packets alone ([StreamHook]). *)
Theorem parse_split `{SU : StaticlibUtils, MP : MultimapPolicy, PE : PayloadEnv,
    PL : !ParseUintLaw} hook `{CB : !Callbacks hook, SH : !StreamHook hook}
    (s s1 : pstate) (b2 : str) :
  parse_inv s -> stream_parser (ps_parser s) -> m_read (ps_parser s) <> [] -> b2 <> [] ->
  parse hook s = (Val indeterminate, s1) ->
  outcome_eq (m_bytes_last_read (ps_parser s1))
    (parse hook (with_read (m_read (ps_parser s) ++ b2) s))
    (parse hook (with_read b2 s1)).
Proof.
  intros PI0 St NE NE2 E. rewrite parse_eq in E by done.
  pose proof (prologue_inv s PI0) as PI. pose proof (prologue_streaming s St) as Str.
  set (s0 := prologue_state s) in *.
  assert (m_read (ps_parser s0) = m_read (ps_parser s)) as Er.
  { subst s0. unfold prologue_state. by destruct (m_has_missing_packets _). }
  destruct (parse_loop hook parse_fuel 0 s0) as [[[rc n]|e|f] s'] eqn:El; [|done|done].
  rewrite parse_epilogue_eq in E. destruct rc; [done|by destruct (finish _) as [[]]|].
  injection E as <-. cbn [ps_parser set_last set_field m_bytes_last_read].
  assert (m_read (ps_parser s0) <> []) as NE0 by (by rewrite Er).
  destruct (parse_loop_split hook parse_fuel 0 n b2 s0 s' PI Str NE0 NE2 (parse_measure_fuel _) El)
    as (R1 & PI1 & Str1 & Sp).
  specialize (Sp parse_fuel (parse_measure_fuel _)).
  assert (parse_inv (with_read b2 s')) as PIb by (by apply parse_inv_with_read).
  assert (m_read (ps_parser s) ++ b2 <> []) as NEw by (by destruct (m_read (ps_parser s))).
  rewrite !parse_eq by assumption. rewrite prologue_with_read. fold s0. rewrite <- Er.
  rewrite (prologue_missing_ok (with_read b2 (set_last n s'))) by exact (proj2 Str1).
  change (with_read b2 (set_last n s')) with (set_last n (with_read b2 s')).
  pose proof (parse_loop_range hook parse_fuel 0 _ _ _ _ El) as Rn.
  rewrite <- (add64_0_r n Rn), parse_loop_total in Sp.
  assert (last_eq is_false (parse_loop hook parse_fuel 0 (set_last n (with_read b2 s')))
            (parse_loop hook parse_fuel 0 (with_read b2 s'))) as La
    by (apply parse_loop_last; [exact PIb|exact NE2|unfold parse_fuel; lia]).
  pose proof (parse_loop_post hook parse_fuel 0 _ PIb NE2 (parse_measure_fuel _)) as NF.
  refine (epilogue_of_split n _ (parse_loop hook parse_fuel 0 (with_read b2 s')) _ _ La _).
  - destruct (parse_loop hook parse_fuel 0 (with_read b2 s')) as [[[rc m]|e|f] s2]; exact Sp.
  - by destruct (parse_loop hook parse_fuel 0 (with_read b2 s')) as [[[rc m]|e|f] s2].
Qed.

#[export] Instance no_hook_stream `{PE : PayloadEnv} : StreamHook no_hook.
Proof. split; [done|]. intros req ec rc w. by split. Qed.

Lemma ref_stream_handler (h : nat) : StreamHandler (PE := ref_payload_env) h.
Proof.
  intros a b w. destruct h; cbn; [done|]. by rewrite map_app, app_assoc.
Qed.

(** at the start of a chunk, with a payload handler: 0 throws, 1 does not *)
Definition sample_handled (h : nat) (b : str) : pstate (PE := ref_payload_env) :=
  mk_pstate (PE := ref_payload_env)
    ((set_read_buffer b (new_parser 0 0 1024))
       <| m_message_parse_state := PARSE_CHUNKS |>
       <| m_payload_handler := Some (h : handler (PayloadEnv := ref_payload_env)) |>)
    (new_request false) no_error [].

Lemma sample_handled_inv h b : parse_inv (sample_handled h b).
Proof. constructor; [split|..]; vm_compute; done. Qed.

(** the two calls on "5 CR LF" and the data of the chunk, and the one *)
Definition split_chunk (h : nat) : Prop :=
  exists s1,
    parse no_hook (sample_handled h (bs "5" ++ STRING_CRLF)) = (Val indeterminate, s1) /\
    outcome_eq (m_bytes_last_read (ps_parser s1))
      (parse no_hook (sample_handled h ((bs "5" ++ STRING_CRLF) ++ bs "hello")))
      (parse no_hook (with_read (bs "hello") s1)).

Lemma parse_split_witness :
  (exists s1,
    parse no_hook (sample_state (sample_post_head ++ bs "ab")) = (Val indeterminate, s1) /\
    outcome_eq (m_bytes_last_read (ps_parser s1))
      (parse no_hook (sample_state (sample_post_head ++ bs "abcde")))
      (parse no_hook (with_read (bs "cde") s1))) /\
  split_chunk 0 /\ split_chunk 1 /\
  (parse no_hook (sample_handled 0 ((bs "5" ++ STRING_CRLF) ++ bs "hello"))).1 = Val tfalse.
Proof.
  split_and!.
  - assert (parse no_hook (sample_state (sample_post_head ++ bs "ab")) =
            (Val indeterminate, (parse no_hook (sample_state (sample_post_head ++ bs "ab"))).2)) as E
      by (vm_compute; reflexivity).
    exists (parse no_hook (sample_state (sample_post_head ++ bs "ab"))).2. split; [exact E|].
    apply (parse_split no_hook (sample_state (sample_post_head ++ bs "ab")) _ (bs "cde"));
      [apply sample_ready|exact I|discriminate|discriminate|exact E].
  - set (s := sample_handled 0 (bs "5" ++ STRING_CRLF)).
    assert (parse no_hook s = (Val indeterminate, (parse no_hook s).2)) as E by (vm_compute; reflexivity).
    exists (parse no_hook s).2. split; [exact E|].
    apply (parse_split no_hook s _ (bs "hello"));
      [apply sample_handled_inv|apply (ref_stream_handler 0)|discriminate|discriminate|exact E].
  - set (s := sample_handled 1 (bs "5" ++ STRING_CRLF)).
    assert (parse no_hook s = (Val indeterminate, (parse no_hook s).2)) as E by (vm_compute; reflexivity).
    exists (parse no_hook s).2. split; [exact E|].
    apply (parse_split no_hook s _ (bs "hello"));
      [apply sample_handled_inv|apply (ref_stream_handler 1)|discriminate|discriminate|exact E].
  - vm_compute. reflexivity.
Defined.
