(* ===== verification/ContentTheorems.v ===== *)
(** * The content of a message with a content-length

    Reading a body over any number of buffers: what the payload handler gets,
    what the content buffer holds, what is left for the next message; and the
    round trip of a whole request with its content. *)

From S2P Require Import Prelude.
From S2P Require Import Externals.
From S2P Require Import Multimap.
From S2P Require Import Strings.
From S2P Require Import Message.
From S2P Require Import Request.
From S2P Require Import FormParsers.
From S2P Require Import Multipart.
From S2P Require Import ParserState.
From S2P Require Import HeaderParser.
From S2P Require Import BodyParser.
From S2P Require Import Parser.
From S2P Require Import HeaderRoundTrip.
From S2P Require Import BodyProofs.
From S2P Require Import ContentProofs.
From S2P Require Import ParserInv.
From S2P Require Import ParserTheorems.
From S2P Require Import ParserSplit.

#[local] Open Scope Z_scope.

(** ** One message over several buffers *)

Section Feed.
Context `{SU : StaticlibUtils, MP : MultimapPolicy, PE : PayloadEnv}.

(** a reader's calls of [set_read_buffer] and [parse] on the buffers that
    arrive, until the message ends *)
Fixpoint feed (hook : hook_type) (bufs : list str) (s : pstate) : res tribool * pstate :=
  match bufs with
  | [] => (Val indeterminate, s)
  | b :: bufs' =>
    match parse hook (with_read b s) with
    | (Val indeterminate, s') => feed hook bufs' s'
    | o => o
    end
  end.

(** the state after [n] bytes of [data] as body *)
Definition content_step (n : Z) (data : str) (s : pstate) : pstate :=
  (deliver (take (Z.to_nat n) data) s)
    <| ps_parser := content_advance n ((ps_parser s) <| m_read := data |>) |>.

Lemma content_step_whole b s :
  content_step (slen b) b s =
  (deliver b s) <| ps_parser := content_advance (slen b) ((ps_parser s) <| m_read := b |>) |>.
Proof. unfold content_step, slen. by rewrite Nat2Z.id, take_ge. Qed.

Context `{PL : !ParseUintLaw}.

(** an iteration on a buffer *)
Lemma iterate_content_once b s :
  parse_inv s -> m_message_parse_state (ps_parser s) = PARSE_CONTENT -> b <> [] ->
  let r := m_bytes_content_remaining (ps_parser s) in
  let n := Z.min r (slen b) in
  thrown (take (Z.to_nat n) b) s = None ->
  iterate_content (with_read b s) =
  (Val (if slen b >=? r then ttrue else indeterminate, n), content_step n b s).
Proof.
  intros [_ _ SI] Hs NE. unfold state_inv in SI. rewrite Hs in SI. destruct SI as (CI & L & _).
  cbv zeta. intros T. unfold iterate_content, try_catch, bind at 1.
  rewrite (consume_content_spec (with_read b s) (content_inv_with_read b s CI) NE).
  cbn [ps_parser with_read set_field m_bytes_content_remaining m_read].
  destruct (Z.eqb_spec (m_bytes_content_remaining (ps_parser s)) 0); [lia|].
  change (thrown ?d (with_read b s)) with (thrown d s). rewrite T.
  unfold with_read. rewrite deliver_set_read by done. reflexivity.
Qed.

(** the state after the payload handler threw on a buffer *)
Definition throw_step (n : Z) (data : str) (s : pstate) : pstate :=
  (deliver (take (Z.to_nat n) data) s)
    <| ps_parser := (ps_parser s) <| m_read := data |>
         <| m_bytes_content_remaining := m_bytes_content_remaining (ps_parser s) - n |> |>.

Lemma iterate_content_thrown b s e :
  parse_inv s -> m_message_parse_state (ps_parser s) = PARSE_CONTENT -> b <> [] ->
  let n := Z.min (m_bytes_content_remaining (ps_parser s)) (slen b) in
  thrown (take (Z.to_nat n) b) s = Some e ->
  iterate_content (with_read b s) = thrown_outcome e (throw_step n b s).
Proof.
  intros [_ _ SI] Hs NE. unfold state_inv in SI. rewrite Hs in SI. destruct SI as (CI & L & _).
  cbv zeta. intros T. apply iterate_content_throws.
  rewrite (consume_content_spec (with_read b s) (content_inv_with_read b s CI) NE).
  cbn [ps_parser with_read set_field m_bytes_content_remaining m_read].
  destruct (Z.eqb_spec (m_bytes_content_remaining (ps_parser s)) 0); [lia|].
  change (thrown ?d (with_read b s)) with (thrown d s). rewrite T.
  unfold with_read. rewrite deliver_set_read by done. reflexivity.
Qed.

(** a call of [parse] on a buffer, when no packet was lost before it *)
Lemma parse_content hook b s :
  parse_inv s -> missing_ok s -> m_message_parse_state (ps_parser s) = PARSE_CONTENT -> b <> [] ->
  parse hook (with_read b s) =
  match loop_tail hook (Nat.pred parse_fuel) 0 (iterate_content (with_read b s)) with
  | (Val r, s') => parse_epilogue r s'
  | (Exn e, s') => (Exn e, s')
  | (Fault f, s') => (Fault f, s')
  end.
Proof.
  intros PI M Hs NE. rewrite parse_eq by exact NE. rewrite prologue_missing_ok by exact M.
  unfold parse_fuel. by rewrite parse_loop_unfold, content_iteration by exact Hs.
Qed.

(** a buffer inside the body *)
Lemma parse_content_more hook b s :
  parse_inv s -> missing_ok s -> m_message_parse_state (ps_parser s) = PARSE_CONTENT -> b <> [] ->
  slen b < m_bytes_content_remaining (ps_parser s) -> thrown b s = None ->
  parse hook (with_read b s) = (Val indeterminate, content_step (slen b) b s) /\
  parse_inv (content_step (slen b) b s).
Proof.
  intros PI M Hs NE L T. pose proof (iterate_content_once b s PI Hs NE) as E. cbv zeta in E.
  pose proof (pi_state _ PI) as SI. unfold state_inv in SI. rewrite Hs in SI.
  destruct SI as ([Ir Im It _ _] & _ & _). pose proof (slen_nonneg b).
  assert (take (Z.to_nat (slen b)) b = b) as Et by (apply take_ge; unfold slen; lia).
  rewrite Z.min_r, Et in E by lia. specialize (E T).
  destruct (Z.geb_spec (slen b) (m_bytes_content_remaining (ps_parser s))); [lia|].
  split.
  - rewrite parse_content, E by assumption. cbn [loop_tail is_indeterminate andb].
    assert (eof (ps_parser (content_step (slen b) b s)) = true) as ->.
    { unfold eof. apply bool_decide_eq_true. rewrite content_step_whole.
      change (drop (Z.to_nat (slen b)) b = []). apply drop_ge. unfold slen. lia. }
    cbn [negb]. rewrite parse_epilogue_eq, add64_small by lia.
    rewrite Z.add_0_l. reflexivity.
  - pose proof (iterate_content_post (with_read b s) (parse_inv_with_read b s PI) Hs NE) as P.
    rewrite E in P. apply P.
Qed.

(** the buffer in which the body ends *)
Lemma parse_content_last hook b s :
  let r := m_bytes_content_remaining (ps_parser s) in
  parse_inv s -> missing_ok s -> m_message_parse_state (ps_parser s) = PARSE_CONTENT -> b <> [] ->
  r <= slen b -> thrown (take (Z.to_nat r) b) s = None ->
  parse hook (with_read b s) = parse_epilogue (ttrue, r) (content_step r b s).
Proof.
  cbv zeta. intros PI M Hs NE L T. rewrite parse_content by assumption.
  pose proof (iterate_content_once b s PI Hs NE) as E. cbv zeta in E.
  pose proof (pi_state _ PI) as SI. unfold state_inv in SI. rewrite Hs in SI.
  destruct SI as ([Ir Im It _ _] & _ & _).
  rewrite Z.min_l in E by lia. rewrite (E T).
  destruct (Z.geb_spec (slen b) (m_bytes_content_remaining (ps_parser s))); [|lia].
  cbn [loop_tail is_indeterminate andb]. by rewrite add64_small, Z.add_0_l by lia.
Qed.

(** the buffer on which the payload handler throws *)
Lemma parse_content_thrown hook b s e :
  let n := Z.min (m_bytes_content_remaining (ps_parser s)) (slen b) in
  parse_inv s -> missing_ok s -> m_message_parse_state (ps_parser s) = PARSE_CONTENT -> b <> [] ->
  thrown (take (Z.to_nat n) b) s = Some e ->
  parse hook (with_read b s) =
  if is_std e then parse_epilogue (tfalse, 0) (throw_step n b s) else (Exn e, throw_step n b s).
Proof.
  cbv zeta. intros PI M Hs NE T.
  rewrite parse_content, (iterate_content_thrown b s e) by assumption.
  unfold thrown_outcome. by destruct (is_std e).
Qed.

End Feed.

Section Delivered.
Context `{SU : StaticlibUtils, MP : MultimapPolicy, PE : PayloadEnv, PL : !ParseUintLaw}.

(** the end of a message that has a payload handler *)
Definition message_done (m : http_message) : http_message :=
  compute_msg_status true (set_is_valid true m).

Lemma finish_handled h s :
  m_payload_handler (ps_parser s) = Some h ->
  finish (set_end s) =
  (Val tt, (set_end s) <| ps_request := on_base message_done (ps_request s) |>).
Proof.
  intros H. unfold finish, finish_rest, on_message, on_request, bind, modify, gets, ret.
  cbn [ps_parser set_end set_field m_message_parse_state m_payload_handler]. rewrite H.
  unfold set_end, on_base, message_done, set_is_valid, compute_msg_status, set_status.
  destruct s as [[] [[]] ? ?]. reflexivity.
Qed.

(** a payload handler called on one piece after another, until it throws *)
Fixpoint run_pieces (h : handler) (pieces : list str) (w : world) : option exn * world :=
  match pieces with
  | [] => (None, w)
  | d :: ds => match run_handler h d w with
               | (None, w') => run_pieces h ds w'
               | o => o
               end
  end.

(** how a body of [n] bytes that starts in [s] ended, when the handler was
    called with [(t, w)] as outcome: complete, with [rest] left in the buffer,
    or given up with what the handler threw *)
Definition body_outcome (t : option exn) (w : world) (rest : str) (s : pstate)
    (o : res tribool * pstate) : Prop :=
  let '(r, s') := o in
  ps_world s' = w /\
  match t with
  | None => r = Val ttrue /\ m_message_parse_state (ps_parser s') = PARSE_END /\
            ps_request s' = on_base message_done (ps_request s) /\ m_read (ps_parser s') = rest
  | Some e => if is_std e
              then r = Val tfalse /\ ps_request s' = on_base (compute_msg_status false) (ps_request s)
              else r = Exn e /\ ps_request s' = ps_request s
  end.

Lemma parse_content_caught hook b s h e w :
  parse_inv s -> missing_ok s -> m_message_parse_state (ps_parser s) = PARSE_CONTENT -> b <> [] ->
  m_payload_handler (ps_parser s) = Some h ->
  run_handler h (take (Z.to_nat (Z.min (m_bytes_content_remaining (ps_parser s)) (slen b))) b)
    (ps_world s) = (Some e, w) ->
  exists r s', parse hook (with_read b s) = (r, s') /\ r <> Val indeterminate /\
    forall rest, body_outcome (Some e) w rest s (r, s').
Proof.
  intros PI M Hs NE Hh T. rewrite (parse_content_thrown hook b s e) by
    (assumption || (unfold thrown; by rewrite Hh, T)).
  set (n := Z.min _ _) in *.
  assert (ps_world (throw_step n b s) = w /\ ps_request (throw_step n b s) = ps_request s) as [Ew Er]
    by (unfold throw_step, deliver; by rewrite Hh, T).
  destruct (is_std e) eqn:Std.
  - rewrite parse_epilogue_eq. eexists _, _. split; [reflexivity|]. split; [done|].
    intros rest. unfold body_outcome. rewrite Std. split; [exact Ew|]. split; [done|].
    cbn [set_last ps_request set_field]. by rewrite Er.
  - eexists _, _. split; [reflexivity|]. split; [done|].
    intros rest. unfold body_outcome. by rewrite Std.
Qed.

Lemma body_outcome_request t w rest s s1 o :
  ps_request s1 = ps_request s -> body_outcome t w rest s1 o -> body_outcome t w rest s o.
Proof. intros E. unfold body_outcome. by rewrite E. Qed.

Lemma feed_handled hook h b : forall bufs s,
  parse_inv s -> missing_ok s -> m_message_parse_state (ps_parser s) = PARSE_CONTENT ->
  m_payload_handler (ps_parser s) = Some h ->
  Forall (fun x => x <> []) bufs -> b <> [] ->
  let n := m_bytes_content_remaining (ps_parser s) - slen (concat bufs) in
  0 < n <= slen b ->
  let '(t, w) := run_pieces h (bufs ++ [take (Z.to_nat n) b]) (ps_world s) in
  body_outcome t w (drop (Z.to_nat n) b) s (feed hook (bufs ++ [b]) s).
Proof.
  induction bufs as [|x bufs IH]; intros s PI M Hs Hh F NE; cbv zeta; intros L.
  - cbn [app concat] in *. rewrite slen_nil, Z.sub_0_r in *. cbn [run_pieces feed].
    destruct (run_handler h _ _) as [[e|] w] eqn:T.
    + destruct (parse_content_caught hook b s h e w) as (r & s' & E & Ni & Bo); try done.
      { by rewrite Z.min_l by lia. }
      rewrite E. by destruct r as [[]|e'|f].
    + rewrite (parse_content_last hook b s) by
        (assumption || lia || (unfold thrown; by rewrite Hh, T)).
      rewrite parse_epilogue_eq, (finish_handled h) by exact Hh.
      unfold content_step, deliver. rewrite Hh, T. by split_and!.
  - apply Forall_cons_iff in F as [NEx F]. cbn [app concat feed run_pieces] in *.
    rewrite slen_app in *. pose proof (slen_nonneg (concat bufs)).
    assert (take (Z.to_nat (slen x)) x = x) as Ex by (apply take_ge; unfold slen; lia).
    destruct (run_handler h x (ps_world s)) as [[e|] w] eqn:T.
    + destruct (parse_content_caught hook x s h e w) as (r & s' & E & Ni & Bo); try done.
      { by rewrite Z.min_r, Ex by lia. }
      rewrite E. by destruct r as [[]|e'|f].
    + destruct (parse_content_more hook x s) as [E PI1]; try done; [lia|unfold thrown; by rewrite Hh, T|].
      rewrite E. set (s1 := content_step (slen x) x s) in *.
      assert (ps_world s1 = w /\ ps_request s1 = ps_request s) as [Ew Er]
        by (unfold s1, content_step, deliver; by rewrite Ex, Hh, T).
      assert (m_bytes_content_remaining (ps_parser s1) =
              m_bytes_content_remaining (ps_parser s) - slen x) as En by done.
      assert (missing_ok s1) as M1 by (unfold missing_ok; by rewrite Er).
      specialize (IH s1 PI1 M1 Hs Hh F NE). cbv zeta in IH. rewrite En, Ew, <- Z.sub_add_distr in IH.
      specialize (IH L). destruct (run_pieces _ _ _) as [t w']. by apply (body_outcome_request _ _ _ s s1).
Qed.


End Delivered.

(** ** A whole request, with its content *)

Section Whole.
Context `{SU : StaticlibUtils, MP : MultimapPolicy, PE : PayloadEnv, PL : !ParseUintLaw}.

(** the choice of [finish_header_parsing] for a content-length *)
Lemma choose_content s v n :
  let m := req_base (ps_request s) in let p := ps_parser s in
  m_is_chunked m = false -> mm_find HEADER_CONTENT_LENGTH (m_headers m) = Some v ->
  parse_uint64 (trim_arg v) = Val n -> n <= m_max_content_length p ->
  m_parse_headers_only p = false ->
  choose_payload_state s =
  if n =? 0 then
    (Val (Some ttrue), s <| ps_request := on_base (set_content_length 0) (ps_request s) |>
                         <| ps_parser := p <| m_message_parse_state := PARSE_END |> |>)
  else
    (Val (Some indeterminate),
     s <| ps_request := on_base (fun m => create_content_buffer (set_content_length n m))
                          (ps_request s) |>
       <| ps_parser := p <| m_message_parse_state := PARSE_CONTENT |>
                         <| m_bytes_content_remaining := n |> |>).
Proof.
  cbv zeta. intros Hc Hf Hn L Ho. pose proof (parse_uint64_range _ _ Hn) as Rn.
  unfold choose_payload_state. unfold bind at 1 2 3, gets at 1 2 3.
  cbn [request_is_content_length_implied]. rewrite Hc. unfold has_header, has_key. rewrite Hf.
  unfold bind at 1, try_catch, bind at 1, try_message, update_content_length_using_header.
  rewrite Hf, Hn, wrap_small by lia. cbn [ret negb]. unfold bind at 1, gets at 1.
  cbn [ps_request set_field req_base m_content_length].
  destruct (Z.eqb_spec n 0) as [->|Nz]; [reflexivity|].
  rewrite Ho. destruct (Z.gtb_spec n (m_max_content_length (ps_parser s))); [lia|]. reflexivity.
Qed.

(** what is left of the head of a request in the state, with the bytes that
    follow it; [w] is the world and the error code *)
Record head_received (p : http_parser) (m : http_message) (data : str) (w : world * error_code)
    (s : pstate) : Prop := mk_head_received {
  rcv_method : req_method (ps_request s) = m_method p;
  rcv_resource : req_resource (ps_request s) = m_resource p;
  rcv_query : req_query_string (ps_request s) = m_query_string p;
  rcv_major : m_version_major (req_base (ps_request s)) = m_version_major m;
  rcv_minor : m_version_minor (req_base (ps_request s)) = m_version_minor m;
  rcv_headers : m_headers (req_base (ps_request s)) = m_headers m;
  rcv_missing : m_has_missing_packets (req_base (ps_request s)) = m_has_missing_packets m;
  rcv_rest : m_read (ps_parser s) = data;
  rcv_world : (ps_world s, ps_ec s) = w;
}.

Lemma update_message_reads p req :
  let q := update_message_with_header_data p req in
  req_method q = m_method p /\ req_resource q = m_resource p /\
  req_query_string q = m_query_string p /\
  m_version_major (req_base q) = m_version_major (req_base req) /\
  m_version_minor (req_base q) = m_version_minor (req_base req) /\
  m_headers (req_base q) = m_headers (req_base req).
Proof. unfold update_message_with_header_data. destruct (negb _); by split_and!. Qed.

Lemma transfer_encoding_reads m :
  let m' := update_transfer_encoding_using_header m in
  m_version_major m' = m_version_major m /\ m_version_minor m' = m_version_minor m /\
  m_headers m' = m_headers m.
Proof.
  unfold update_transfer_encoding_using_header. cbv zeta.
  repeat case_match; by split_and!.
Qed.

(** the state after the headers *)
Record headed (p : http_parser) (m : http_message) (data : str) (w : world * error_code)
    (s : pstate) : Prop :=
  mk_headed {
  hd_head : head_received p m data w s;
  hd_handler : m_payload_handler (ps_parser s) = m_payload_handler p;
  hd_max : m_max_content_length (ps_parser s) = m_max_content_length p;
  hd_read : m_bytes_content_read (ps_parser s) = 0;
}.

Lemma headers_finished_headed s p m k rest :
  headed p m rest (ps_world s, ps_ec s)
    (headers_finished (headers_state (mk_headers_stop ttrue None rest k p m) s)).
Proof.
  destruct (headers_finished_frame (headers_state (mk_headers_stop ttrue None rest k p m) s))
    as ([_ _ Fh Fx _ _ _ Fm _] & Fr & _).
  constructor; [|exact Fh|exact Fx|exact Fr].
  unfold headers_finished in *. cbn [ps_request ps_parser ps_world set_field] in *.
  constructor; cbn [ps_request ps_parser ps_world set_field];
    try (match goal with |- context [update_message_with_header_data ?p ?r] =>
      destruct (update_message_reads p r) as (E1 & E2 & E3 & E4 & E5 & E6);
      rewrite ?E1, ?E2, ?E3, ?E4, ?E5, ?E6; clear E1 E2 E3 E4 E5 E6 end;
    cbn [on_base req_base set_field];
    try (match goal with |- context [update_transfer_encoding_using_header ?m0] =>
      destruct (transfer_encoding_reads m0) as (E1 & E2 & E3); rewrite ?E1, ?E2, ?E3 end));
    try reflexivity. exact Fm.
Qed.

Lemma headers_finished_not_chunked s p m k rest :
  mm_find HEADER_TRANSFER_ENCODING (m_headers m) = None ->
  m_is_chunked (req_base (ps_request
    (headers_finished (headers_state (mk_headers_stop ttrue None rest k p m) s)))) = false.
Proof.
  intros Ht. unfold headers_finished. cbn [ps_request set_field].
  match goal with |- context [update_message_with_header_data ?p ?r] =>
    destruct (update_message_base p r) as (_ & _ & _ & _ & ->) end.
  cbn [on_base req_base set_field headers_state ps_request hs_message].
  unfold update_transfer_encoding_using_header. cbn [m_headers set_field set_content_length].
  by rewrite Ht.
Qed.

(** after these headers the hook leaves the request and the handler alone *)
Definition passes (hook : hook_type) (p : http_parser) (m : http_message) (rc : tribool) : Prop :=
  forall req ec w, m_headers (req_base req) = m_headers m -> req_method req = m_method p ->
    req_resource req = m_resource p -> hook req ec rc w = no_hook req ec rc w.

Lemma no_hook_passes p m rc : passes no_hook p m rc.
Proof. done. Qed.

Lemma call_hook_passes hook p m rc s :
  passes hook p m rc -> m_headers (req_base (ps_request s)) = m_headers m ->
  req_method (ps_request s) = m_method p -> req_resource (ps_request s) = m_resource p ->
  call_hook hook rc s = (Val rc, s).
Proof. intros H Hh Hm Hr. unfold call_hook. rewrite H by assumption. by destruct s. Qed.

(** the result of the headers, when the content-length is [n] *)
Definition after_headers (n : Z) : tribool := if n =? 0 then ttrue else indeterminate.

Lemma choose_and_call hook p m v n s :
  passes hook p m (after_headers n) ->
  m_is_chunked (req_base (ps_request s)) = false ->
  req_method (ps_request s) = m_method p -> req_resource (ps_request s) = m_resource p ->
  m_headers (req_base (ps_request s)) = m_headers m ->
  mm_find HEADER_CONTENT_LENGTH (m_headers m) = Some v ->
  parse_uint64 (trim_arg v) = Val n -> n <= m_max_content_length (ps_parser s) ->
  m_parse_headers_only (ps_parser s) = false ->
  bind choose_payload_state
    (fun rc => match rc with None => ret tfalse | Some rc => call_hook hook rc end) s =
  if n =? 0 then
    (Val ttrue, s <| ps_request := on_base (set_content_length 0) (ps_request s) |>
      <| ps_parser := (ps_parser s) <| m_message_parse_state := PARSE_END |> |>)
  else
    (Val indeterminate,
     s <| ps_request := on_base (fun m => create_content_buffer (set_content_length n m)) (ps_request s) |>
       <| ps_parser := (ps_parser s) <| m_message_parse_state := PARSE_CONTENT |>
                         <| m_bytes_content_remaining := n |> |>).
Proof.
  intros Hp Hc Hm Hr Hh Hf Hn L Hy. unfold bind.
  rewrite (choose_content s v n Hc); rewrite ?Hh; try assumption.
  unfold after_headers in Hp.
  destruct (n =? 0); rewrite (call_hook_passes hook p m) by assumption; reflexivity.
Qed.

Lemma headers_state_parser hs p s : headers_state hs (s <| ps_parser := p |>) = headers_state hs s.
Proof. by destruct s. Qed.

(** the iteration that ends the headers *)
Lemma head_iteration hook s rest k p m v n :
  passes hook p m (after_headers n) ->
  m_message_parse_state (ps_parser s) = PARSE_START ->
  headers_of (s <| ps_parser := (ps_parser s) <| m_message_parse_state := PARSE_HEADERS |> |>) =
    mk_headers_stop ttrue None rest k p m ->
  m_message_parse_state p = PARSE_HEADERS ->
  mm_find HEADER_TRANSFER_ENCODING (m_headers m) = None ->
  mm_find HEADER_CONTENT_LENGTH (m_headers m) = Some v ->
  parse_uint64 (trim_arg v) = Val n -> n <= m_max_content_length p ->
  m_parse_headers_only p = false ->
  let s1 := headers_finished (headers_state (mk_headers_stop ttrue None rest k p m) s) in
  parse_iteration hook s =
  if n =? 0 then
    (Val (ttrue, k), s1 <| ps_request := on_base (set_content_length 0) (ps_request s1) |>
      <| ps_parser := (ps_parser s1) <| m_message_parse_state := PARSE_END |> |>)
  else
    (Val (indeterminate, k),
     s1 <| ps_request := on_base (fun m => create_content_buffer (set_content_length n m))
                           (ps_request s1) |>
        <| ps_parser := (ps_parser s1) <| m_message_parse_state := PARSE_CONTENT |>
                          <| m_bytes_content_remaining := n |> |>).
Proof.
  intros Hp Hs E St Ht Hf Hn L Ho s1. rewrite start_iteration by exact Hs. rewrite iterate_headers_eq, E.
  cbn [hs_error hs_rc]. unfold headers_rest. unfold bind at 1, last_read, gets at 1.
  unfold bind at 1, gets at 1. cbn [headers_state ps_parser set_field m_message_parse_state hs_parser].
  rewrite St, bool_decide_eq_true_2 by done. cbn [is_ttrue andb]. unfold bind at 1.
  assert (m_parse_headers_only (ps_parser s1) = false) as Hy by exact Ho.
  assert (m_is_chunked (req_base (ps_request s1)) = false) as Hc by by apply headers_finished_not_chunked.
  destruct (headers_finished_headed s p m k rest) as [[Hm Hr _ _ _ Hh _ _ _] _ Mx _].
  rewrite finish_header_parsing_unfold, headers_state_parser.
  fold s1 in Hm, Hr, Hh, Mx |- *. clearbody s1.
  rewrite (choose_and_call hook p m v n s1); try assumption; [|by rewrite Mx].
  by destruct (n =? 0).
Qed.

(** the end of a message that has no payload handler *)
Lemma finish_plain s :
  m_payload_handler (ps_parser s) = None ->
  compare_prefix (get_header (req_base (ps_request s)) HEADER_CONTENT_TYPE)
    CONTENT_TYPE_MULTIPART_FORM_DATA = false ->
  content_fits s ->
  exists params, finish (set_end s) =
    (Val tt, (set_end s) <| ps_request :=
       (on_base message_done (ps_request s)) <| req_query_params := params |> |>).
Proof.
  intros H Ct F. unfold finish, bind at 1, gets at 1. cbn [set_end ps_parser set_field m_message_parse_state].
  unfold finish_rest, on_message, on_request, bind at 1 2 3, modify, gets at 1.
  cbn [ps_parser set_end set_field m_payload_handler m_parse_headers_only]. rewrite H.
  destruct (m_parse_headers_only (ps_parser s)) eqn:Ho; cbn [negb].
  { eexists (req_query_params (ps_request s)). destruct s as [[] [[]] ? ?]. reflexivity. }
  unfold finish_form_data, bind at 1, gets at 1.
  cbn [ps_request set_field on_base req_base m_content_buf m_content_length].
  change (get_header _ HEADER_CONTENT_TYPE)
    with (get_header (req_base (ps_request s)) HEADER_CONTENT_TYPE). rewrite Ct.
  specialize (F H Ho). 
  destruct (compare_prefix _ CONTENT_TYPE_URLENCODED).
  - change (cb_read _ _) with (cb_read (m_content_buf (req_base (ps_request s)))
      (m_content_length (req_base (ps_request s)))).
    unfold cb_read. rewrite (proj2 (Z.leb_le _ _) F).
    eexists. destruct s as [[] [[]] ? ?]. reflexivity.
  - eexists (req_query_params (ps_request s)). destruct s as [[] [[]] ? ?]. reflexivity.
Qed.

Lemma put_all body : put 0 body (cb_resize (slen body)) = mk_buf body.
Proof.
  unfold put, cb_resize. cbn [cb_bytes take]. rewrite drop_ge, app_nil_r; [done|].
  rewrite length_replicate. lia.
Qed.

Lemma cb_read_all body : cb_read (mk_buf body) (slen body) = Val body.
Proof.
  unfold cb_read, cb_size. cbn [cb_bytes]. rewrite (proj2 (Z.leb_le _ _)) by lia.
  f_equal. unfold slen. by rewrite Nat2Z.id, take_app_length.
Qed.

Lemma cb_read_nothing b : cb_read b 0 = Val [].
Proof.
  unfold cb_read, cb_size. pose proof (slen_nonneg (cb_bytes b)).
  by rewrite (proj2 (Z.leb_le _ _)) by lia.
Qed.

Lemma message_done_status m :
  m_has_missing_packets m = false -> m_status (message_done m) = STATUS_OK.
Proof. intros H. unfold message_done, compute_msg_status. cbn. by rewrite H. Qed.

Definition content_is (body : str) (s : pstate) : Prop :=
  cb_read (m_content_buf (req_base (ps_request s))) (m_content_length (req_base (ps_request s)))
  = Val body.

(** a whole request *)
Record received (p : http_parser) (m : http_message) (body rest : str) (w : world * error_code)
    (s : pstate) : Prop := mk_received {
  rcv_head : head_received p m rest w s;
  rcv_content : content_is body s;
  rcv_valid : m_is_valid (req_base (ps_request s)) = true;
  rcv_status : m_status (req_base (ps_request s)) = STATUS_OK;
}.

(** a request without content *)
Lemma headed_without_content p m data w s :
  headed p m data w s ->
  let s' := s <| ps_request := on_base (set_content_length 0) (ps_request s) |>
              <| ps_parser := (ps_parser s) <| m_message_parse_state := PARSE_END |> |> in
  head_received p m data w s' /\ content_is [] s' /\ content_fits s' /\
  m_payload_handler (ps_parser s') = m_payload_handler p.
Proof.
  intros [[] Fh _ _]. cbv zeta. split; [by constructor|]. split; [apply cb_read_nothing|].
  split; [|exact Fh]. unfold content_fits, cb_size. intros _ _.
  change (0 <= slen (cb_bytes (m_content_buf (req_base (ps_request s)))) + 1).
  pose proof (slen_nonneg (cb_bytes (m_content_buf (req_base (ps_request s))))). lia.
Qed.

(** a request whose headers are read and whose body is still to come *)
Record awaits (p : http_parser) (m : http_message) (n : Z) (data : str) (w : world * error_code)
    (s : pstate) : Prop := mk_awaits {
  aw_head : head_received p m data w s;
  aw_state : m_message_parse_state (ps_parser s) = PARSE_CONTENT;
  aw_remaining : m_bytes_content_remaining (ps_parser s) = n;
  aw_read : m_bytes_content_read (ps_parser s) = 0;
  aw_buf : m_content_buf (req_base (ps_request s)) = cb_resize n;
  aw_length : m_content_length (req_base (ps_request s)) = n;
  aw_handler : m_payload_handler (ps_parser s) = None;
  aw_max : n <= m_max_content_length (ps_parser s);
}.

Lemma headed_awaits p m data w s n :
  headed p m data w s -> m_payload_handler p = None -> n <= m_max_content_length p ->
  awaits p m n data w
    (s <| ps_request := on_base (fun m => create_content_buffer (set_content_length n m))
                          (ps_request s) |>
       <| ps_parser := (ps_parser s) <| m_message_parse_state := PARSE_CONTENT |>
                         <| m_bytes_content_remaining := n |> |>).
Proof.
  intros [[] Fh Fx Fr] H L.
  constructor; [by constructor|reflexivity..|exact Fr|reflexivity|reflexivity| |].
  - etransitivity; [exact Fh|exact H].
  - change (n <= m_max_content_length (ps_parser s)). by rewrite Fx.
Qed.

Lemma content_step_received p m body rest w s :
  awaits p m (slen body) (body ++ rest) w s ->
  head_received p m rest w (content_step (slen body) (body ++ rest) s) /\
  content_is body (content_step (slen body) (body ++ rest) s).
Proof.
  intros [[] _ _ Rd B Ln H Mx]. unfold content_step, deliver. rewrite H, Rd.
  assert (take (Z.to_nat (slen body)) (body ++ rest) = body) as ->
    by (unfold slen; rewrite Nat2Z.id; apply take_app_length).
  rewrite Z.sub_0_r, take_ge by (unfold slen in *; lia). split.
  - constructor; try done.
    change (drop (Z.to_nat (slen body)) (body ++ rest) = rest).
    unfold slen. by rewrite Nat2Z.id, drop_app_length.
  - unfold content_is. cbn [ps_request set_field on_base req_base m_content_buf m_content_length].
    rewrite B, Ln, put_all. apply cb_read_all.
Qed.

(** the epilogue of a message that was received without a handler *)
Lemma epilogue_received p m body rest w n s :
  head_received p m rest w s -> content_is body s -> m_payload_handler (ps_parser s) = None ->
  m_has_missing_packets m = false ->
  compare_prefix (get_header m HEADER_CONTENT_TYPE) CONTENT_TYPE_MULTIPART_FORM_DATA = false ->
  content_fits s ->
  exists s', parse_epilogue (ttrue, n) s = (Val ttrue, s') /\ received p m body rest w s'.
Proof.
  intros R C Hh Mi Ct F. rewrite parse_epilogue_eq.
  destruct (finish_plain s Hh) as [params E].
  { unfold get_header. rewrite (rcv_headers _ _ _ _ _ R). exact Ct. }
  { exact F. }
  rewrite E. eexists. split; [reflexivity|]. constructor; [|exact C|reflexivity|].
  - destruct R. by constructor.
  - apply message_done_status. by rewrite (rcv_missing _ _ _ _ _ R).
Qed.

(** the iteration over the body, and the end of the message *)
Lemma body_iteration hook fuel total p m body rest w s :
  parse_inv s -> awaits p m (slen body) (body ++ rest) w s -> 0 < slen body ->
  m_has_missing_packets m = false ->
  compare_prefix (get_header m HEADER_CONTENT_TYPE) CONTENT_TYPE_MULTIPART_FORM_DATA = false ->
  exists n s' s'', parse_loop hook (S fuel) total s = (Val (ttrue, n), s') /\
    parse_epilogue (ttrue, n) s' = (Val ttrue, s'') /\ received p m body rest w s''.
Proof.
  intros PI A L Mi Ct. pose proof (rcv_rest _ _ _ _ _ (aw_head _ _ _ _ _ _ A)) as Er.
  pose proof (aw_state _ _ _ _ _ _ A) as Hs. pose proof (aw_handler _ _ _ _ _ _ A) as Hh.
  assert (body ++ rest <> []) as NE by (by destruct body).
  assert (s = with_read (body ++ rest) s) as Ew by (rewrite <- Er; by destruct s as [[]]).
  pose proof (iterate_content_once (body ++ rest) s PI Hs NE) as Ec. cbv zeta in Ec.
  specialize (Ec ltac:(unfold thrown; by rewrite Hh)).
  pose proof (iterate_content_post s PI Hs ltac:(by rewrite Er)) as P.
  rewrite <- Ew, (aw_remaining _ _ _ _ _ _ A) in Ec.
  pose proof (slen_nonneg rest). rewrite slen_app, Z.min_l in Ec by lia.
  destruct (Z.geb_spec (slen body + slen rest) (slen body)); [|lia]. rewrite Ec in P. cbn [iter_post] in P.
  destruct (content_step_received p m body rest w s A) as [R C].
  destruct (epilogue_received p m body rest w (total +64 slen body)
    (content_step (slen body) (body ++ rest) s) R C Hh Mi Ct P) as (s' & E' & R').
  eexists (total +64 slen body), _, s'. split; [|by split].
  rewrite parse_loop_unfold, content_iteration by exact Hs. by rewrite Ec.
Qed.

(** the whole of a message that is in the buffer *)
Lemma parse_with_content hook `{CB : !Callbacks hook} s rest k p m v body :
  passes hook p m (after_headers (slen body)) ->
  parse_inv s -> m_message_parse_state (ps_parser s) = PARSE_START ->
  m_read (ps_parser s) <> [] ->
  headers_of (s <| ps_parser := (ps_parser s) <| m_message_parse_state := PARSE_HEADERS |> |>) =
    mk_headers_stop ttrue None (body ++ rest) k p m ->
  m_message_parse_state p = PARSE_HEADERS ->
  m_payload_handler p = None -> m_parse_headers_only p = false ->
  m_has_missing_packets m = false -> missing_ok s ->
  mm_find HEADER_TRANSFER_ENCODING (m_headers m) = None ->
  mm_find HEADER_CONTENT_LENGTH (m_headers m) = Some v ->
  parse_uint64 (trim_arg v) = Val (slen body) -> slen body <= m_max_content_length p ->
  compare_prefix (get_header m HEADER_CONTENT_TYPE) CONTENT_TYPE_MULTIPART_FORM_DATA = false ->
  exists s', parse hook s = (Val ttrue, s') /\ received p m body rest (ps_world s, ps_ec s) s'.
Proof.
  intros Hp PI Hs NE E St Hh Ho Mi Ms Ht Hf Hn L Ct.
  pose proof (head_iteration hook s (body ++ rest) k p m v (slen body) Hp Hs E St Ht Hf Hn L Ho) as I.
  pose proof (headers_finished_headed s p m k (body ++ rest)) as Hd. cbv zeta in I.
  set (s1 := headers_finished _) in *. clearbody s1.
  pose proof (iteration_post hook s PI NE) as P.
  rewrite parse_eq, prologue_missing_ok by (exact NE || exact Ms).
  unfold parse_fuel. rewrite parse_loop_unfold. rewrite I in P |- *. pose proof (slen_nonneg body).
  destruct (Z.eqb_spec (slen body) 0) as [Z0|Nz]; cbn [loop_tail is_indeterminate andb].
  - destruct (headed_without_content _ _ _ _ _ Hd) as (R & C & F & H'). rewrite Hh in H'.
    apply slen_zero in Z0 as ->. exact (epilogue_received _ _ _ _ _ _ _ R C H' Mi Ct F).
  - destruct P as [PI2 _]. pose proof (headed_awaits _ _ _ _ _ _ Hd Hh L) as A. clear I Hd.
    set (s2 := s1 <| ps_request := _ |> <| ps_parser := _ |>) in *. clearbody s2.
    destruct (body_iteration hook 2 (0 +64 k) p m body rest _ s2 PI2 A ltac:(lia) Mi Ct)
      as (n & s' & s'' & El & Ee & R).
    assert (eof (ps_parser s2) = false) as ->.
    { unfold eof. apply bool_decide_eq_false. rewrite (rcv_rest _ _ _ _ _ (aw_head _ _ _ _ _ _ A)).
      by destruct body. }
    cbn [negb]. rewrite El, Ee. eauto.
Qed.

(** ** Printed requests *)

Context `{ML : !MultimapLaws, IL : !IequalsLaw, DL : !DecimalLaw, TL : !TrimLaw}.

Lemma find_unique d d' key k v :
  d ≡ₚ d' -> equal_range d' key = [(k, v)] -> mm_find key d = Some v.
Proof.
  intros P E. apply (equal_range_perm _ _ key) in P. rewrite E in P.
  apply Permutation_singleton_r in P.
  destruct (mm_find key d) as [w|] eqn:F.
  - apply mm_find_some in F as [k' H]. rewrite P in H. apply list_elem_of_singleton in H. congruence.
  - apply mm_find_none in F. congruence.
Qed.

Lemma find_absent d d' key : d ≡ₚ d' -> equal_range d' key = [] -> mm_find key d = None.
Proof.
  intros P E. apply mm_find_none. apply (equal_range_perm _ _ key) in P. rewrite E in P.
  by apply Permutation_nil_r in P.
Qed.

(** the headers [prepare_headers_for_send] sets *)
Lemma sent_content_length keep_alive m :
  m_do_not_send_content_length m = false ->
  exists k, equal_range (m_headers (prepare_headers_for_send keep_alive false m)) HEADER_CONTENT_LENGTH
            = [(k, to_string (m_content_length m))].
Proof.
  intros H. unfold prepare_headers_for_send. cbn [m_do_not_send_content_length change_header set_field].
  rewrite H. cbn [negb change_header set_field m_headers m_content_length].
  destruct (change_value_range (change_value (m_headers m) HEADER_CONNECTION
    (if keep_alive then bs "Keep-Alive" else bs "close")) HEADER_CONTENT_LENGTH
    (to_string (m_content_length m))) as (k & _ & E). by exists k.
Qed.

Lemma sent_other keep_alive m key :
  m_do_not_send_content_length m = false ->
  iequal_to HEADER_CONNECTION key = false -> iequal_to HEADER_CONTENT_LENGTH key = false ->
  equal_range (m_headers (prepare_headers_for_send keep_alive false m)) key
  ≡ₚ equal_range (m_headers m) key.
Proof.
  intros H N1 N2. unfold prepare_headers_for_send.
  cbn [m_do_not_send_content_length change_header set_field].
  rewrite H. cbn [negb change_header set_field m_headers].
  rewrite change_value_range_ne by done. by apply change_value_range_ne.
Qed.

Lemma iequals_no x y :
  map (toupper ∘ int_of_char) x <> map (toupper ∘ int_of_char) y -> iequal_to x y = false.
Proof. intros N. apply not_true_is_false. unfold iequal_to. by rewrite iequals_spec. Qed.

Lemma parse_content_length n :
  0 <= n < 2 ^ 64 -> parse_uint64 (trim_arg (to_string n)) = Val n.
Proof.
  intros H. rewrite trim_arg_clean; [by apply parse_uint64_to_string|].
  eapply Forall_impl; [|apply to_string_digits; lia]. cbv beta. intros. lia.
Qed.

(** a header is absent or has one of the values sent *)
Lemma received_header d d' key (P : str -> Prop) :
  d ≡ₚ d' -> Forall (fun kv => P kv.2) (equal_range d' key) -> P [] -> P (get_value d key).
Proof.
  intros Hp F N. unfold get_value. destruct (mm_find key d) as [v|] eqn:E; [|done].
  apply mm_find_some in E as [k H]. rewrite (equal_range_perm _ _ key Hp) in H.
  rewrite Forall_forall in F. apply (F (k, v)). by apply list_elem_of_In.
Qed.

(** the conditions under which a request can be printed and read back *)
Record printable (r : http_request) (sent : mmap) : Prop := mk_printable {
  pr_line : m_first_line (req_base r) = [];
  pr_length : m_do_not_send_content_length (req_base r) = false;
  pr_method : method_ok (req_method r);
  pr_resource : resource_ok (req_resource r);
  pr_query : query_ok (req_query_string r);
  pr_major : 0 < m_version_major (req_base r) < 2 ^ 16;
  pr_minor : 0 <= m_version_minor (req_base r) < 2 ^ 16;
  pr_named : Forall named sent;
  pr_encoding : equal_range (m_headers (req_base r)) HEADER_TRANSFER_ENCODING = [];
  pr_type : Forall (fun kv => compare_prefix kv.2 CONTENT_TYPE_MULTIPART_FORM_DATA = false)
              (equal_range (m_headers (req_base r)) HEADER_CONTENT_TYPE);
}.

(** a fresh parser and request, with [b] in the buffer *)
Definition fresh_state (g1 g2 max : Z) (b : str) (w : world) : pstate :=
  mk_pstate (set_read_buffer b (new_parser g1 g2 max)) (new_request false) no_error w.

(** the loop over a printed head *)
Lemma printed_head r sent keep_alive g1 g2 max data req w :
  printable r sent ->
  sent = m_headers (prepare_headers_for_send keep_alive false (req_base r)) ->
  m_headers (req_base req) = [] -> m_has_missing_packets (req_base req) = false ->
  let head := concat (request_prepare_buffers keep_alive false r) in
  let s := mk_pstate (set_read_buffer (head ++ data) (new_parser g1 g2 max)) req no_error w in
  exists k p m,
    headers_of (s <| ps_parser := (ps_parser s) <| m_message_parse_state := PARSE_HEADERS |> |>) =
      mk_headers_stop ttrue None data k p m /\
    m_message_parse_state p = PARSE_HEADERS /\ m_payload_handler p = None /\
    m_parse_headers_only p = false /\ m_max_content_length p = max /\
    m_has_missing_packets m = false /\
    m_method p = req_method r /\ m_resource p = req_resource r /\
    m_query_string p = req_query_string r /\
    m_version_major m = m_version_major (req_base r) /\
    m_version_minor m = m_version_minor (req_base r) /\ m_headers m ≡ₚ sent.
Proof.
  intros [F _ Hm Hr Hq Vj Vn Hs _ _] Es Eh Emi head s.
  destruct (to_string_digits_value (m_version_major (req_base r))) as (da & ds & Ea & Da & Va); [lia|].
  destruct (to_string_digits_value (m_version_minor (req_base r))) as (db & es & Eb & Db & Vb); [lia|].
  subst s head. rewrite request_head_bytes by done. rewrite <- Es, Ea, Eb.
  set (head := request_line _ _ _ _ _ ++ _).
  pose (p0 := (set_read_buffer (head ++ data) (new_parser g1 g2 max))
    <| m_message_parse_state := PARSE_HEADERS |> <| m_bytes_last_read := 0 |>).
  assert (wrap 16 (digits_value 0 (da :: ds)) <> 0) as Vw by (rewrite Va, wrap_small; lia).
  destruct (loop_head _ _ _ da ds db es sent data p0 (req_base req) eq_refl eq_refl eq_refl
              Hm Hr Hq Da Db Vw Hs) as (name & value & E).
  eexists _, _, _. split; [exact E|]. split_and!; try reflexivity.
  - exact Emi.
  - cbn -[digits_value wrap Z.pow]. by rewrite Va, wrap_small by lia.
  - cbn -[digits_value wrap Z.pow]. by rewrite Vb, wrap_small by lia.
  - cbn [m_headers set_field]. by rewrite insert_all_perm, Eh, app_nil_r.
Qed.

(** a printed request with its content, with a hook that leaves it alone *)
Lemma printed_received hook `{CB : !Callbacks hook} r body rest keep_alive g1 g2 max req w :
  let sent := m_headers (prepare_headers_for_send keep_alive false (req_base r)) in
  let head := concat (request_prepare_buffers keep_alive false r) in
  let s := mk_pstate (set_read_buffer (head ++ body ++ rest) (new_parser g1 g2 max)) req no_error w in
  printable r sent -> m_content_length (req_base r) = slen body ->
  slen body <= max -> max < 2 ^ 64 -> parse_inv s ->
  m_headers (req_base req) = [] -> m_has_missing_packets (req_base req) = false ->
  (forall p m, m_method p = req_method r -> m_resource p = req_resource r -> m_headers m ≡ₚ sent ->
     passes hook p m (after_headers (slen body))) ->
  exists p m s', parse hook s = (Val ttrue, s') /\ received p m body rest (w, no_error) s' /\
    m_method p = req_method r /\ m_resource p = req_resource r /\
    m_query_string p = req_query_string r /\
    m_version_major m = m_version_major (req_base r) /\
    m_version_minor m = m_version_minor (req_base r) /\ m_headers m ≡ₚ sent.
Proof.
  intros sent head s Pr Cl L Gm PI Eh Emi Ps.
  destruct (printed_head r sent keep_alive g1 g2 max (body ++ rest) req w Pr eq_refl Eh Emi)
    as (k & p & m & E & St & Hh & Ho & Mx & Mi & E1 & E2 & E3 & E4 & E5 & Hp).
  fold head in E. fold s in E. exists p, m.
  destruct Pr as [_ Pl _ _ _ _ _ _ Pe Pt]. pose proof (slen_nonneg body).
  destruct (sent_content_length keep_alive (req_base r) Pl) as [k' Hl]. fold sent in Hl.
  assert (equal_range sent HEADER_TRANSFER_ENCODING = []) as Ht.
  { apply Permutation_nil_r. rewrite <- Pe. apply sent_other; [done|apply iequals_no..];
      vm_compute; discriminate. }
  assert (equal_range sent HEADER_CONTENT_TYPE
          ≡ₚ equal_range (m_headers (req_base r)) HEADER_CONTENT_TYPE) as Tc.
  { apply sent_other; [done|apply iequals_no..]; vm_compute; discriminate. }
  destruct (parse_with_content hook s rest k p m (to_string (slen body)) body) as (s' & Ep & R); try done.
  - by apply Ps.
  - intros En. assert (head ++ body ++ rest = []) as E0 by exact En.
    unfold s in E. rewrite E0 in E. vm_compute in E. discriminate.
  - unfold missing_ok. cbn [s ps_request]. congruence.
  - by apply (find_absent _ sent).
  - apply (find_unique _ sent _ k'); [done|]. by rewrite Hl, Cl.
  - apply parse_content_length. lia.
  - by rewrite Mx.
  - apply (received_header _ sent _ (fun v => compare_prefix v _ = false) Hp); [|reflexivity].
    by rewrite Tc.
  - exists s'. by split_and!.
Qed.

(** C10: A whole request survives the wire: the content a request is given with
    [set_content] follows its printed head, and a fresh parser with the hook of
    the base class reads back, in one call, a valid message with the same
    method, resource, query string, version, headers (up to the order of the
    dictionary) and content, and leaves exactly what follows it in the
    buffer. *)
Theorem request_roundtrip (r0 r : http_request) (body rest : str) keep_alive g1 g2 max w :
  request_set_content body r0 = Val r ->
  let sent := m_headers (prepare_headers_for_send keep_alive false (req_base r)) in
  printable r sent -> slen body <= max ->
  0 <= g1 < 2 ^ 64 -> 0 <= g2 < 2 ^ 64 -> 0 <= max < 2 ^ 64 ->
  let head := concat (request_prepare_buffers keep_alive false r) in
  let '(rc, s') := parse no_hook (fresh_state g1 g2 max (head ++ body ++ rest) w) in
  let q := ps_request s' in let m := req_base q in
  rc = Val ttrue /\ m_is_valid m = true /\ m_status m = STATUS_OK /\
  req_method q = req_method r /\ req_resource q = req_resource r /\
  req_query_string q = req_query_string r /\
  m_version_major m = m_version_major (req_base r) /\
  m_version_minor m = m_version_minor (req_base r) /\
  m_headers m ≡ₚ sent /\
  cb_read (m_content_buf m) (m_content_length m) = Val body /\
  m_read (ps_parser s') = rest.
Proof.
  intros Sc sent Pr L G1 G2 Gm head.
  assert (m_content_length (req_base r) = slen body) as Cl.
  { unfold request_set_content in Sc. case_bool_decide; [by injection Sc as <-|].
    destruct (cb_write _ _ _); [by injection Sc as <-|done..]. }
  destruct (printed_received no_hook r body rest keep_alive g1 g2 max (new_request false) w Pr Cl L)
    as (p & m & s' & E & R & E1 & E2 & E3 & E4 & E5 & Hp); try done; [lia|].
  unfold fresh_state. fold head in E. rewrite E. destruct R as [Rc C V S].
  pose proof (rcv_headers _ _ _ _ _ Rc) as Eh. destruct Rc.
  split_and!; try congruence; try done. by rewrite Eh.
Qed.

End Whole.

(** ** Examples *)

From S2P Require Import RefUtils.

(** handler 1, in the middle of a message with eight bytes left *)
Definition ref_content : pstate (PE := ref_payload_env) :=
  mk_pstate (PE := ref_payload_env)
    ((new_parser 0 0 1) <| m_message_parse_state := PARSE_CONTENT |>
       <| m_bytes_content_remaining := 8 |>
       <| m_payload_handler := Some (1%nat : handler (PayloadEnv := ref_payload_env)) |>)
    (on_base (fun m => create_content_buffer (set_content_length 1 m)) (new_request true))
    no_error [].

Lemma ref_content_inv : parse_inv ref_content.
Proof. by constructor. Qed.

(** the same with handler 0, which throws *)
Definition ref_content_throwing : pstate (PE := ref_payload_env) :=
  ref_content <| ps_parser := (ps_parser ref_content)
    <| m_payload_handler := Some (0%nat : handler (PayloadEnv := ref_payload_env)) |> |>.


Definition sample_content_request : http_request (PE := ref_payload_env) :=
  match request_set_content (bs "a=1&b=2") sample_request with Val r => r | _ => sample_request end.

Lemma sample_content_printable :
  printable sample_content_request
    (m_headers (prepare_headers_for_send true false (req_base sample_content_request))).
Proof.
  constructor; try done.
  - split; [discriminate|]. split; [apply all_of_forallb|]; vm_compute; done.
  - split; [apply all_of_forallb|]; vm_compute; done.
  - split; [apply all_of_forallb|]; vm_compute; done.
  - apply Forall_named_b. vm_compute. reflexivity.
Qed.

Lemma request_roundtrip_witness :
  let head := concat (request_prepare_buffers true false sample_content_request) in
  let '(rc, s') := parse no_hook (fresh_state 0 0 100 (head ++ bs "a=1&b=2" ++ bs "GET /") []) in
  rc = Val ttrue /\ m_read (ps_parser s') = bs "GET /".
Proof.
  assert (request_set_content (bs "a=1&b=2") sample_request = Val sample_content_request) as S
    by (vm_compute; reflexivity).
  assert (slen (bs "a=1&b=2") <= 100) as L by (vm_compute; discriminate).
  assert (0 <= 0 < 2 ^ 64) as G by done. assert (0 <= 100 < 2 ^ 64) as M by done.
  pose proof (request_roundtrip sample_request sample_content_request (bs "a=1&b=2") (bs "GET /") true 0 0
    100 [] S sample_content_printable L G G M) as B.
  cbv zeta in B |- *. destruct (parse _ _) as [rc s'].
  destruct B as (R & _ & _ & _ & _ & _ & _ & _ & _ & _ & E). split; [exact R|exact E].
Defined.
