(* ===== verification/UriTheorems.v ===== *)
(** * Reading a printed URI

    [http_parser::parse_uri] on an absolute URI put together from its parts:
    with and without a port, a path and a query string. *)

From S2P Require Import Prelude.
From S2P Require Import Externals.
From S2P Require Import Strings.
From S2P Require Import Multimap.
From S2P Require Import Message.
From S2P Require Import Request.
From S2P Require Import Multipart.

#[local] Open Scope Z_scope.

(** the parts of a URI: the path without its slash, and what follows a
    question mark *)
Record uri_parts := mk_uri_parts {
  up_proto : str;
  up_host : str;
  up_port : option Z;
  up_target : option (str * option str);
}.

Record uri_ok (u : uri_parts) : Prop := mk_uri_ok {
  uo_proto : ":"%char ∉ up_proto u;
  uo_host : up_host u <> [];
  uo_host_chars : "/"%char ∉ up_host u /\ ":"%char ∉ up_host u;
  uo_port : forall n, up_port u = Some n -> 0 <= n < 2 ^ 16;
  uo_path : forall p q, up_target u = Some (p, q) -> "?"%char ∉ p;
}.

Section Uri.
Context `{SU : StaticlibUtils, DL : !DecimalLaw}.

Definition port_text (port : option Z) : str :=
  match port with Some n => bs ":" ++ to_string n | None => [] end.

Definition target_text (target : option (str * option str)) : str :=
  match target with
  | None => []
  | Some (p, None) => bs "/" ++ p
  | Some (p, Some q) => bs "/" ++ p ++ bs "?" ++ q
  end.

Definition uri_text (u : uri_parts) : str :=
  up_proto u ++ bs "://" ++ up_host u ++ port_text (up_port u) ++ target_text (up_target u).

(** what is read back; without a path the query string keeps the value the
    caller's variable had *)
Definition uri_read (u : uri_parts) (o : uri_out) : uri_out :=
  mk_uri_out (up_proto u) (up_host u)
    match up_port u with Some n => n | None => default_port (up_proto u) end
    match up_target u with Some (p, _) => bs "/" ++ p | None => bs "/" end
    match up_target u with
    | Some (_, Some q) => q | Some (_, None) => [] | None => uri_query o
    end.

Lemma port_text_no_slash port :
  (forall n, port = Some n -> 0 <= n < 2 ^ 16) -> "/"%char ∉ port_text port.
Proof.
  destruct port as [n|]; intros R; [|apply not_elem_of_nil].
  specialize (R n eq_refl). cbn. intros H. apply elem_of_cons in H as [H|H]; [done|].
  pose proof (to_string_digits n ltac:(lia)) as D. rewrite Forall_forall in D.
  apply list_elem_of_In, D in H. assert (int_of_char "/"%char = 47) by reflexivity. lia.
Qed.

Lemma substr_app (a b : str) : substr (a ++ b) 0 (length a) = a.
Proof. unfold substr. by rewrite drop_0, take_app_length. Qed.

Lemma substr_middle (a b c : str) :
  substr (a ++ b ++ c) (length a) (length a + length b - length a) = b.
Proof.
  unfold substr. rewrite drop_app_length.
  replace (length a + length b - length a)%nat with (length b) by lia. apply take_app_length.
Qed.

(** the protocol *)
Lemma find_proto a b : ":"%char ∉ a -> str_find (bs "://") (a ++ bs "://" ++ b) = Some (length a).
Proof.
  intros N. apply str_find_app. intros i Hi. rewrite drop_app_le by lia.
  destruct (drop i a) as [|c r] eqn:E.
  { apply (f_equal length) in E. rewrite length_drop in E. cbn in E. lia. }
  assert (c ∈ a) as H by (rewrite <- (take_drop i a), E; apply elem_of_app; right; left).
  assert (Ascii.eqb ":"%char c = false) as F by (apply Ascii.eqb_neq; by intros <-).
  change (Ascii.eqb ":"%char c && is_prefix (bs "//") (r ++ bs "://" ++ b) = false). by rewrite F.
Qed.

(** where the authority ends *)
Lemma find_authority_end pre a target :
  "/"%char ∉ a ->
  str_find_from (bs "/") (pre ++ a ++ target_text target) (length pre) =
  match target with Some _ => Some (length pre + length a)%nat | None => None end.
Proof.
  intros N. unfold str_find_from. rewrite drop_app_length.
  change (str_find (bs "/")) with (find_char "/"%char).
  destruct target as [[p [q|]]|]; cbn [target_text].
  - change (bs "/" ++ p ++ bs "?" ++ q) with ("/"%char :: p ++ bs "?" ++ q). by rewrite find_char_app.
  - change (bs "/" ++ p) with ("/"%char :: p). by rewrite find_char_app.
  - rewrite app_nil_r. apply find_char_none in N. by rewrite N.
Qed.

(** path and query string *)
Lemma path_query_target p q o :
  "?"%char ∉ p ->
  uri_path_query (target_text (Some (p, q))) o =
  o <| uri_path := bs "/" ++ p |> <| uri_query := default [] q |>.
Proof.
  intros N. unfold uri_path_query. destruct q as [q|]; cbn [target_text default].
  - change (bs "/" ++ p ++ bs "?" ++ q) with (("/"%char :: p) ++ "?"%char :: q).
    assert ("?"%char ∉ "/"%char :: p) as N' by (apply not_elem_of_cons; done).
    rewrite find_char_app by done. rewrite substr_app. unfold substr.
    replace (length ("/"%char :: p) + 1)%nat with (length (("/"%char :: p) ++ ["?"%char]))
      by (rewrite length_app; done).
    change (("/"%char :: p) ++ "?"%char :: q) with (("/"%char :: p) ++ ["?"%char] ++ q).
    rewrite (app_assoc _ ["?"%char] q), drop_app_length, take_ge; [done|].
    rewrite !length_app. cbn. lia.
  - assert (find_char "?"%char (bs "/" ++ p) = None) as ->; [|done].
    apply find_char_none. cbn. by apply not_elem_of_cons.
Qed.

(** the port, or the one that goes with the protocol *)
Lemma authority_port host port :
  ":"%char ∉ host ->
  find_char ":"%char (host ++ port_text port) =
  match port with Some _ => Some (length host) | None => None end.
Proof.
  intros N. destruct port as [n|]; cbn [port_text].
  - change (bs ":" ++ to_string n) with (":"%char :: to_string n). by rewrite find_char_app.
  - rewrite app_nil_r. by apply find_char_none.
Qed.

(** C31: [parse_uri] takes an absolute URI apart into the parts it is made of:
    the protocol, the host, the port - or the one that goes with the protocol -,
    the path and the query string.  Without a path the path is "/", and the
    variable for the query string keeps the value it had. *)
Theorem uri_roundtrip (u : uri_parts) (o : uri_out) :
  uri_ok u -> parse_uri (uri_text u) o = (Val true, uri_read u o).
Proof.
  destruct u as [proto host port target]. intros [Np NE [Nh Nc] Rp Nq]. cbn [up_proto up_host up_port up_target] in *.
  unfold parse_uri, uri_text, uri_read. cbn [up_proto up_host up_port up_target].
  rewrite find_proto by done. rewrite substr_app.
  set (a := host ++ port_text port).
  assert ("/"%char ∉ a) as Na by (apply not_elem_of_app; split; [done|by apply port_text_no_slash]).
  assert (proto ++ bs "://" ++ host ++ port_text port ++ target_text target =
          (proto ++ bs "://") ++ a ++ target_text target) as -> by (subst a; by rewrite <- !app_assoc).
  replace (length proto + 3)%nat with (length (proto ++ bs "://")) by (rewrite length_app; done).
  set (pre := proto ++ bs "://"). rewrite find_authority_end by done.
  set (rest := target_text target).
  assert (find_char ":"%char a = match port with Some _ => Some (length host) | None => None end) as Fp
    by (by apply authority_port).
  assert (substr (pre ++ a ++ rest) (length pre) (length pre + length a - length pre) = a) as Et
    by (apply substr_middle).
  assert (substr_from (pre ++ a ++ rest) (length pre + length a) = rest) as Er.
  { unfold substr_from. by rewrite drop_app_add, drop_app_length. }
  assert (length (pre ++ a ++ rest) = (length pre + length a + length rest)%nat) as El
    by (rewrite !length_app; lia).
  assert (slen host =? 0 = false) as Nz by (apply Z.eqb_neq; intros E; by apply slen_zero in E).
  assert (forall n, port = Some n -> substr a 0 (length host) = host /\
            parse_uint16 (substr_from a (length host + 1)) = Val n) as Pn.
  { intros n ->. subst a. split; [apply substr_app|]. unfold substr_from.
    rewrite drop_app_add. cbn. apply parse_uint16_to_string. by apply Rp. }
  destruct target as [[p q]|].
  - specialize (Nq p q eq_refl). rewrite Et, Fp, El, Er.
    rewrite (proj2 (Nat.ltb_lt _ _)) by (subst rest; destruct q; cbn; lia). subst rest.
    destruct port as [n|].
    + destruct (Pn n eq_refl) as [E1 E2]. rewrite E1, E2. cbn [uri_host set_field]. rewrite Nz.
      rewrite path_query_target by done. by destruct q.
    + subst a. cbn [port_text uri_host set_field]. rewrite app_nil_r, Nz.
      rewrite path_query_target by done. by destruct q.
  - subst rest. cbn [target_text] in *. rewrite El. cbn [length]. rewrite Nat.add_0_r, Et, Fp, Nat.ltb_irrefl.
    destruct port as [n|].
    + destruct (Pn n eq_refl) as [E1 E2]. rewrite E1, E2. cbn [uri_host set_field]. by rewrite Nz.
    + subst a. cbn [port_text uri_host set_field]. by rewrite app_nil_r, Nz.
Qed.

End Uri.

(** ** Examples *)

From S2P Require Import RefUtils.

Definition ref_uri : uri_parts :=
  mk_uri_parts (bs "http") (bs "example.org") (Some 8080) (Some (bs "a/b", Some (bs "x=1?y://"))).

Example ref_uri_text : uri_text ref_uri = bs "http://example.org:8080/a/b?x=1?y://".
Proof. vm_compute. reflexivity. Qed.

Lemma ref_uri_ok : uri_ok ref_uri.
Proof.
  constructor; try (by apply find_char_none); try done; try (split; by apply find_char_none).
  - intros n [= <-]. done.
  - intros p q [= <- <-]. by apply find_char_none.
Qed.

Lemma uri_roundtrip_witness :
  parse_uri (bs "http://example.org:8080/a/b?x=1?y://") (mk_uri_out [] [] 0 [] [])
  = (Val true, mk_uri_out (bs "http") (bs "example.org") 8080 (bs "/a/b") (bs "x=1?y://")).
Proof.
  pose proof (uri_roundtrip ref_uri (mk_uri_out [] [] 0 [] []) ref_uri_ok) as B.
  rewrite ref_uri_text in B. exact B.
Defined.
