(* ===== verification/ChunkRoundTrip.v ===== *)
(** * Chunked transfer coding: the writer against the parser

    The chunks that [http_response_writer] puts on the wire, read by the
    chunk parser of [http_parser]. *)

From S2P Require Import Prelude.
From S2P Require Import Externals.
From S2P Require Import Multimap.
From S2P Require Import Strings.
From S2P Require Import Message.
From S2P Require Import Request.
From S2P Require Import ParserState.
From S2P Require Import BodyParser.
From S2P Require Import Response.
From S2P Require Import Writer.
From S2P Require Import RefUtils.
From S2P Require Import HeaderProofs.
From S2P Require Import BodyProofs.
From S2P Require Import ContentTheorems.

(** ** Hexadecimal numbers: [sprintf] against [strtol] *)


Lemma hex_char_all :
  forallb (fun d => is_hex_digit (hex_char d) && (hex_value (hex_char d) =? d)) (seqZ 0 16) = true.
Proof. vm_compute. reflexivity. Qed.

Lemma hex_char_spec d :
  0 <= d < 16 -> is_hex_digit (hex_char d) = true /\ hex_value (hex_char d) = d.
Proof.
  intros H. pose proof (proj1 (forallb_forall _ _) hex_char_all d) as E.
  cbv beta in E. rewrite andb_true_iff, Z.eqb_eq in E. apply E.
  apply list_elem_of_In, elem_of_seqZ. lia.
Qed.

Definition hex_string (s : str) : Prop := Forall (fun c => is_hex_digit c = true) s.

Lemma strtol16_loop_app acc s t :
  hex_string s -> strtol16_loop acc (s ++ t) = strtol16_loop (strtol16_loop acc s) t.
Proof.
  intros H. revert acc. induction H as [|c s Hc Hs IH]; intros acc; [done|].
  cbn [strtol16_loop app]. rewrite Hc. apply IH.
Qed.

Lemma hex_digits_hex fuel n : 0 <= n -> hex_string (hex_digits fuel n).
Proof.
  unfold hex_string. revert n. induction fuel as [|fuel IH]; intros n H; cbn [hex_digits]; [done|].
  apply Forall_app. split.
  - case_match; [done|]. apply IH. apply Z.div_pos; lia.
  - constructor; [|done]. apply hex_char_spec. apply Z.mod_pos_bound. lia.
Qed.

Lemma hex_digits_value fuel n :
  0 <= n < 16 ^ Z.of_nat fuel -> strtol16_loop 0 (hex_digits fuel n) = n.
Proof.
  revert n. induction fuel as [|fuel IH]; intros n H; cbn [hex_digits]; [cbn in *; lia|].
  assert (0 <= n mod 16 < 16) as Hm by (apply Z.mod_pos_bound; lia).
  destruct (hex_char_spec _ Hm) as [Hd Hv].
  pose proof (Z.div_mod n 16). rewrite Nat2Z.inj_succ, Z.pow_succ_r in H by lia.
  destruct (Z.ltb_spec n 16).
  - cbn [app strtol16_loop]. rewrite Hd, Hv. rewrite Z.mod_small by lia. lia.
  - rewrite strtol16_loop_app by (apply hex_digits_hex, Z.div_pos; lia).
    cbn [strtol16_loop]. rewrite Hd, Hv, IH; [lia|].
    split; [apply Z.div_pos; lia|]. apply Z.div_lt_upper_bound; lia.
Qed.

Lemma strtol16_sprintf n : 0 <= n < 2 ^ 63 -> strtol16 (sprintf_lx n) = n.
Proof.
  intros H. unfold strtol16, sprintf_lx, LONG_MAX. rewrite hex_digits_value; lia.
Qed.

Lemma sprintf_lx_cons n :
  0 <= n -> exists d s, sprintf_lx n = d :: s /\ is_hex_digit d = true /\ hex_string s.
Proof.
  intros H. pose proof (hex_digits_hex 16 n H) as X. fold (sprintf_lx n) in X.
  destruct (sprintf_lx n) as [|d s] eqn:E.
  - unfold sprintf_lx in E. cbn [hex_digits] in E. by apply app_eq_nil in E as [_ ?].
  - apply Forall_cons_iff in X as [? ?]. by exists d, s.
Qed.

(** ** One chunk *)

(** the chunk's head, data and end, as the parser sees them *)
Definition chunk_frame (d : str) : str :=
  sprintf_lx (slen d) ++ STRING_CRLF ++ d ++ STRING_CRLF.

Definition last_chunk : str := bs "0" ++ STRING_CRLF ++ STRING_CRLF.

Section Loop.
Context `{PE : PayloadEnv}.

(** two parsers that differ in the scratch fields of the chunk parser only *)
Record chunk_scratch (p p' : http_parser) : Prop := {
  sc_handler : m_payload_handler p' = m_payload_handler p;
  sc_max : m_max_content_length p' = m_max_content_length p;
}.

Lemma chunk_scratch_trans p q r : chunk_scratch p q -> chunk_scratch q r -> chunk_scratch p r.
Proof. intros [] []. constructor; congruence. Qed.

Lemma loop_one c buf n p ch w p' :
  chunk_step c (c :: buf) p ch w = CBreak 0 p' ch w ->
  chunks_loop (c :: buf) n p ch w = chunks_loop buf (n + 1) p' ch w.
Proof.
  intros E. cbn [chunks_loop]. rewrite E, dropl_drop, drop_0. f_equal. lia.
Qed.

Lemma loop_size_digits s rest n p ch w :
  hex_string s -> m_chunked_content_parse_state p = PARSE_CHUNK_SIZE ->
  exists p', chunks_loop (s ++ rest) n p ch w = chunks_loop rest (n + slen s) p' ch w /\
    m_chunked_content_parse_state p' = PARSE_CHUNK_SIZE /\
    m_chunk_size_str p' = m_chunk_size_str p ++ s /\ chunk_scratch p p'.
Proof.
  intros H. revert n p. induction H as [|c s Hc Hs IH]; intros n p St.
  - exists p. rewrite slen_nil, Z.add_0_r, app_nil_r. by split_and!.
  - rewrite <- app_comm_cons.
    set (p1 := p <| m_chunk_size_str := m_chunk_size_str p ++ [c] |>).
    rewrite (loop_one c _ _ _ _ _ p1) by (unfold_chunk_step; by rewrite St, Hc).
    destruct (IH (n + 1) p1 St) as (p' & E & St' & Es & Sc).
    exists p'. rewrite E, slen_cons. split_and!; [f_equal; lia|done| |].
    + rewrite Es. cbn. by rewrite <- app_assoc.
    + eapply chunk_scratch_trans, Sc. by constructor.
Qed.

(** the size line, up to and with its CR LF *)
Lemma loop_size_line len rest n p ch w :
  0 <= len < 2 ^ 63 -> m_chunked_content_parse_state p = PARSE_CHUNK_SIZE_START ->
  exists p',
    chunks_loop (sprintf_lx len ++ STRING_CRLF ++ rest) n p ch w =
    chunks_loop rest (n + slen (sprintf_lx len) + 2) p' ch w /\
    m_chunked_content_parse_state p' =
      (if len =? 0 then PARSE_EXPECTING_FINAL_CR_OR_FOOTERS_AFTER_LAST_CHUNK else PARSE_CHUNK) /\
    m_size_of_current_chunk p' = len /\ m_bytes_read_in_current_chunk p' = 0 /\
    chunk_scratch p p'.
Proof.
  intros H St. destruct (sprintf_lx_cons len) as (d & s & E & Hd & Hs); [lia|].
  pose proof (strtol16_sprintf len H) as V. rewrite E in V |- *. rewrite <- app_comm_cons.
  set (p1 := p <| m_chunk_size_str := [d] |> <| m_chunked_content_parse_state := PARSE_CHUNK_SIZE |>).
  rewrite (loop_one d _ _ _ _ _ p1) by (unfold_chunk_step; by rewrite St, Hd).
  destruct (loop_size_digits s (STRING_CRLF ++ rest) (n + 1) p1 ch w Hs eq_refl)
    as (p2 & E2 & St2 & Es2 & Sc2).
  rewrite E2. unfold STRING_CRLF. cbn [app].
  set (p3 := p2 <| m_chunked_content_parse_state := PARSE_EXPECTING_LF_AFTER_CHUNK_SIZE |>).
  rewrite (loop_one CR _ _ _ _ _ p3) by (unfold_chunk_step; by rewrite St2).
  set (p4 := (p3 <| m_bytes_read_in_current_chunk := 0 |> <| m_size_of_current_chunk := len |>)
     <| m_chunked_content_parse_state :=
     if len =? 0 then PARSE_EXPECTING_FINAL_CR_OR_FOOTERS_AFTER_LAST_CHUNK else PARSE_CHUNK |>).
  rewrite (loop_one LF _ _ _ _ _ p4).
  2:{ unfold_chunk_step. cbn -[strtol16 Z.pow]. rewrite Es2. cbn -[strtol16 Z.pow]. rewrite V.
      subst p4. by destruct (len =? 0). }
  exists p4. rewrite slen_cons. split_and!; [f_equal; lia|done..|].
  eapply chunk_scratch_trans, chunk_scratch_trans, chunk_scratch_trans; [|exact Sc2| |];
    constructor; reflexivity.
Qed.

(** what becomes of the data of a chunk: it is cached, within the limit, or
    given to the payload handler in one call *)
Definition absorbs (p : http_parser) (d ch : str) (w : world) (ch' : str) (w' : world) : Prop :=
  match m_payload_handler p with
  | None => slen ch + slen d <= m_max_content_length p /\ ch' = ch ++ d /\ w' = w
  | Some h => run_handler h d w = (None, w') /\ ch' = ch
  end.

Lemma loop_data_cached d rest n p ch w :
  m_chunked_content_parse_state p = PARSE_CHUNK -> m_payload_handler p = None -> d <> [] ->
  0 <= m_bytes_read_in_current_chunk p -> m_size_of_current_chunk p < 2 ^ 64 ->
  m_size_of_current_chunk p = m_bytes_read_in_current_chunk p + slen d ->
  slen ch + slen d <= m_max_content_length p ->
  exists p',
    chunks_loop (d ++ rest) n p ch w = chunks_loop rest (n + slen d) p' (ch ++ d) w /\
    m_chunked_content_parse_state p' = PARSE_EXPECTING_CR_AFTER_CHUNK /\ chunk_scratch p p'.
Proof.
  revert n p ch. induction d as [|c d IH]; intros n p ch St Hh NE H0 Hlt Hsz Hmax; [done|].
  rewrite slen_cons in *. pose proof (slen_nonneg d).
  set (p1 := chunk_advance 1 p).
  assert (chunks_loop ((c :: d) ++ rest) n p ch w = chunks_loop (d ++ rest) (n + 1) p1 (ch ++ [c]) w)
    as ->.
  { cbn [chunks_loop app]. unfold chunk_step, step_chunk, end_of_chunk. rewrite St, Hh.
    destruct (Z.ltb_spec (m_bytes_read_in_current_chunk p) (m_size_of_current_chunk p)); [|lia].
    destruct (Z.ltb_spec (slen ch) (m_max_content_length p)); [|lia].
    rewrite dropl_drop, drop_0. subst p1. unfold chunk_advance. f_equal. lia. }
  assert (chunk_scratch p p1) as Sc
    by (subst p1; unfold chunk_advance; case_match; constructor; reflexivity).
  assert (m_size_of_current_chunk p1 = m_size_of_current_chunk p /\
          m_bytes_read_in_current_chunk p1 = m_bytes_read_in_current_chunk p + 1) as [S1 R1].
  { subst p1; unfold chunk_advance; case_match; cbn -[add64]; rewrite add64_small; lia. }
  assert (m_chunked_content_parse_state p1 =
          if slen d =? 0 then PARSE_EXPECTING_CR_AFTER_CHUNK else PARSE_CHUNK) as St1.
  { revert S1 R1. subst p1. unfold chunk_advance. cbn -[add64].
    rewrite add64_small by lia. intros _ _.
    destruct (Z.eqb_spec (m_bytes_read_in_current_chunk p + 1) (m_size_of_current_chunk p)),
      (Z.eqb_spec (slen d) 0); try lia; done. }
  clearbody p1. destruct (decide (d = [])) as [->|NEd].
  - exists p1. split_and!; done.
  - destruct (Z.eqb_spec (slen d) 0) as [E|_]; [by apply slen_zero in E|].
    destruct Sc as [Sh Sm].
    destruct (IH (n + 1) p1 (ch ++ [c])) as (p' & E & St' & Sc');
      rewrite ?slen_snoc, ?S1, ?R1, ?Sh, ?Sm; try done; try lia.
    exists p'. rewrite E, <- app_assoc. split_and!; [f_equal; lia|done|].
    eapply chunk_scratch_trans, Sc'. by constructor.
Qed.

Lemma loop_data d rest n p ch w ch' w' :
  m_chunked_content_parse_state p = PARSE_CHUNK -> d <> [] ->
  m_bytes_read_in_current_chunk p = 0 -> m_size_of_current_chunk p = slen d ->
  slen d < 2 ^ 63 -> absorbs p d ch w ch' w' ->
  exists p',
    chunks_loop (d ++ rest) n p ch w = chunks_loop rest (n + slen d) p' ch' w' /\
    m_chunked_content_parse_state p' = PARSE_EXPECTING_CR_AFTER_CHUNK /\ chunk_scratch p p'.
Proof.
  intros St NE R Sz Hlt A. unfold absorbs in A. pose proof (slen_nonneg d).
  assert (slen d <> 0) as Nz by (intros E; by apply slen_zero in E).
  destruct (m_payload_handler p) as [h|] eqn:Hh.
  - destruct A as [A ->]. exists (chunk_advance (slen d) p).
    rewrite (chunks_loop_chunk h (d ++ rest) n p ch w w');
      rewrite ?R, ?Sz, ?slen_app; pose proof (slen_nonneg rest); try done; try lia.
    + rewrite Z.min_l, Z.sub_0_r by lia. unfold slen at 1. rewrite Nat2Z.id, drop_app_length.
      split_and!; [done| |].
      * unfold chunk_advance. cbn -[add64]. rewrite R, Sz, add64_small, Z.eqb_refl by lia. done.
      * unfold chunk_advance. case_match; constructor; reflexivity.
    + unfold chunk_wf. rewrite R, Sz. lia.
    + by destruct d.
    + rewrite Z.min_l, Z.sub_0_r by lia. unfold slen. by rewrite Nat2Z.id, take_app_length.
  - destruct A as (A & -> & ->). apply loop_data_cached; try done; lia.
Qed.

(** CR LF in one of the two states that expect it *)
Lemma loop_crlf_after_chunk rest n p ch w :
  m_chunked_content_parse_state p = PARSE_EXPECTING_CR_AFTER_CHUNK ->
  exists p', chunks_loop (STRING_CRLF ++ rest) n p ch w = chunks_loop rest (n + 2) p' ch w /\
    m_chunked_content_parse_state p' = PARSE_CHUNK_SIZE_START /\ chunk_scratch p p'.
Proof.
  intros St. unfold STRING_CRLF. cbn [app].
  set (p1 := p <| m_chunked_content_parse_state := PARSE_EXPECTING_LF_AFTER_CHUNK |>).
  rewrite (loop_one CR _ _ _ _ _ p1) by (unfold_chunk_step; by rewrite St).
  set (p2 := p1 <| m_chunked_content_parse_state := PARSE_CHUNK_SIZE_START |>).
  rewrite (loop_one LF _ _ _ _ _ p2) by (by unfold_chunk_step).
  exists p2. split_and!; [f_equal; lia|done|]. by constructor.
Qed.

Lemma loop_frame d rest n p ch w ch' w' :
  m_chunked_content_parse_state p = PARSE_CHUNK_SIZE_START -> d <> [] ->
  slen d < 2 ^ 63 -> absorbs p d ch w ch' w' ->
  exists p',
    chunks_loop (chunk_frame d ++ rest) n p ch w =
    chunks_loop rest (n + slen (chunk_frame d)) p' ch' w' /\
    m_chunked_content_parse_state p' = PARSE_CHUNK_SIZE_START /\ chunk_scratch p p'.
Proof.
  intros St NE Hlt A. pose proof (slen_nonneg d). unfold chunk_frame. rewrite <- !app_assoc.
  destruct (loop_size_line (slen d) (d ++ STRING_CRLF ++ rest) n p ch w) as (p1 & E1 & St1 & Sz & R & Sc1);
    [lia|done|].
  destruct (Z.eqb_spec (slen d) 0) as [Z0|_]; [by apply slen_zero in Z0|].
  assert (absorbs p1 d ch w ch' w') as A1.
  { destruct Sc1 as [Sh Sm]. unfold absorbs. by rewrite Sh, Sm. }
  set (n1 := n + slen (sprintf_lx (slen d)) + 2) in *.
  destruct (loop_data d (STRING_CRLF ++ rest) n1 p1 ch w ch' w' St1 NE R Sz Hlt A1)
    as (p2 & E2 & St2 & Sc2).
  destruct (loop_crlf_after_chunk rest (n1 + slen d) p2 ch' w' St2) as (p3 & E3 & St3 & Sc3).
  exists p3. rewrite E1, E2, E3. split_and!; [|done|eauto using chunk_scratch_trans].
  subst n1. f_equal. rewrite !slen_app. unfold STRING_CRLF. rewrite !slen_cons, slen_nil. lia.
Qed.

Lemma loop_last_chunk rest n p ch w :
  m_chunked_content_parse_state p = PARSE_CHUNK_SIZE_START ->
  exists p', chunks_loop (last_chunk ++ rest) n p ch w =
    mk_chunks_stop (Val ttrue) None rest (n + slen last_chunk) p' ch w.
Proof.
  intros St. unfold last_chunk. rewrite <- !app_assoc. change (bs "0") with (sprintf_lx 0).
  destruct (loop_size_line 0 (STRING_CRLF ++ rest) n p ch w) as (p1 & E1 & St1 & _ & _ & _);
    [lia|done|].
  rewrite E1. unfold STRING_CRLF. cbn [app].
  set (p2 := p1 <| m_chunked_content_parse_state := PARSE_EXPECTING_FINAL_LF_AFTER_LAST_CHUNK |>).
  rewrite (loop_one CR _ _ _ _ _ p2) by (unfold_chunk_step; by rewrite St1).
  exists p2. cbn. f_equal. unfold slen. cbn. lia.
Qed.

End Loop.

(** ** The writer *)

Definition write_all (ds : list str) (w : http_response_writer) : http_response_writer :=
  fold_left (fun w d => write d w) ds w.

(** the length is that of the buffers *)
Definition writer_ok (w : http_response_writer) : Prop :=
  content_length w = slen (concat (content_buffers w)) /\ content_length w < 2 ^ 63.

(** what [write] and [clear] leave alone *)
Record writer_keeps (w w' : http_response_writer) : Prop := {
  wk_chunks : client_supports_chunks w' = client_supports_chunks w;
  wk_sending : sending_chunks w' = sending_chunks w;
  wk_headers : sent_headers w' = sent_headers w;
  wk_response : w_response w' = w_response w;
  wk_conn : w_tcp_conn w' = w_tcp_conn w;
}.

Lemma writer_keeps_refl w : writer_keeps w w.
Proof. by constructor. Qed.

Lemma writer_keeps_trans w1 w2 w3 :
  writer_keeps w1 w2 -> writer_keeps w2 w3 -> writer_keeps w1 w3.
Proof. intros [] []. constructor; congruence. Qed.

Lemma write_spec d w :
  is_body_allowed (w_response w) = true -> writer_ok w ->
  slen (concat (content_buffers w)) + slen d < 2 ^ 63 ->
  writer_ok (write d w) /\
  concat (content_buffers (write d w)) = concat (content_buffers w) ++ d /\
  writer_keeps w (write d w).
Proof.
  intros B [W1 W2] L. pose proof (slen_nonneg d). pose proof (slen_nonneg (concat (content_buffers w))).
  unfold write. rewrite B. cbn [andb]. destruct (slen d >? 0) eqn:Ed.
  - cbn [add_to_cache]. unfold writer_ok. cbn -[add64 Z.pow].
    rewrite concat_app. cbn [concat]. rewrite app_nil_r, slen_app, add64_small by lia.
    split_and!; [lia|lia|done|by constructor].
  - assert (d = []) as -> by (apply slen_zero; lia). rewrite app_nil_r.
    split_and!; [by split|done|by constructor].
Qed.

Lemma write_all_spec ds w :
  is_body_allowed (w_response w) = true -> writer_ok w ->
  slen (concat (content_buffers w)) + slen (concat ds) < 2 ^ 63 ->
  writer_ok (write_all ds w) /\
  concat (content_buffers (write_all ds w)) = concat (content_buffers w) ++ concat ds /\
  writer_keeps w (write_all ds w).
Proof.
  revert w. induction ds as [|d ds IH]; intros w B W L.
  { cbn. rewrite app_nil_r. split_and!; [done..|by constructor]. }
  cbn [concat] in *. rewrite slen_app in L.
  pose proof (slen_nonneg d). pose proof (slen_nonneg (concat ds)).
  destruct (write_spec d w B W) as (W1 & C1 & K1); [lia|].
  change (write_all (d :: ds) w) with (write_all ds (write d w)).
  destruct (IH (write d w)) as (W2 & C2 & K2); rewrite ?C1, ?slen_app; try done; try lia.
  { by rewrite (wk_response _ _ K1). }
  split_and!; [done| |by eapply writer_keeps_trans].
  by rewrite C2, C1, app_assoc.
Qed.

Section WriterChunks.
Context `{SU : StaticlibUtils, MP : MultimapPolicy}.

(** a chunk of a writer that has sent its headers *)
Lemma prepare_chunk keep_alive w :
  client_supports_chunks w = true -> sending_chunks w = true -> sent_headers w = true ->
  writer_ok w ->
  let '(bufs, w') := prepare_write_buffers [] keep_alive false w in
  concat bufs = (if bool_decide (concat (content_buffers w) = []) then []
                 else chunk_frame (concat (content_buffers w))) /\ writer_keeps w w'.
Proof.
  intros Hc Hs Hh [W _]. unfold prepare_write_buffers. rewrite Hh. cbn [negb andb].
  destruct (content_length w >? 0) eqn:E; rewrite ?Hc, ?Hs; cbn [andb add_to_cache].
  - rewrite bool_decide_eq_false_2 by (intros N; rewrite N, slen_nil in W; lia).
    split; [|by constructor]. rewrite W. cbn -[sprintf_lx slen].
    rewrite concat_app. cbn [concat]. by rewrite app_nil_r.
  - rewrite bool_decide_eq_true_2; [by split; [|constructor]|].
    apply slen_zero. pose proof (slen_nonneg (concat (content_buffers w))). lia.
Qed.

(** the last chunk, after a [clear] *)
Lemma prepare_last_chunk keep_alive w :
  client_supports_chunks w = true -> sending_chunks w = true -> sent_headers w = true ->
  concat (prepare_write_buffers [] keep_alive true (writer_clear w)).1 = last_chunk.
Proof.
  intros Hc Hs Hh. destruct w; cbn in *; subst. reflexivity.
Qed.

(** what a sequence of [clear], [write]s and [send_chunk], ended by
    [send_final_chunk], puts on the wire *)
Fixpoint send_chunks (keep_alive : bool) (chunks : list (list str)) (w : http_response_writer)
    : str :=
  match chunks with
  | [] => concat (prepare_write_buffers [] keep_alive true (writer_clear w)).1
  | ds :: chunks =>
    let '(bufs, w) := prepare_write_buffers [] keep_alive false (write_all ds (writer_clear w)) in
    concat bufs ++ send_chunks keep_alive chunks w
  end.

Definition frame_or_nothing (d : str) : str := if bool_decide (d = []) then [] else chunk_frame d.

Lemma send_chunks_bytes keep_alive chunks w :
  client_supports_chunks w = true -> sending_chunks w = true -> sent_headers w = true ->
  is_body_allowed (w_response w) = true ->
  Forall (fun ds => slen (concat ds) < 2 ^ 63) chunks ->
  send_chunks keep_alive chunks w =
  concat (map (fun ds => frame_or_nothing (concat ds)) chunks) ++ last_chunk.
Proof.
  intros Hc Hs Hh B F. revert w Hc Hs Hh B.
  induction F as [|ds chunks L _ IH]; intros w Hc Hs Hh B; cbn [send_chunks map concat].
  { by apply prepare_last_chunk. }
  destruct (write_all_spec ds (writer_clear w)) as (W & C & K); [done|by split|done|].
  pose proof (prepare_chunk keep_alive (write_all ds (writer_clear w))) as P.
  destruct K as [K1 K2 K3 K4 K5].
  destruct (prepare_write_buffers _ _ _ _) as [bufs w']. rewrite K1, K2, K3, C in P.
  destruct (P Hc Hs Hh W) as [-> K']. destruct K' as [K1' K2' K3' K4' K5'].
  rewrite IH by (rewrite ?K1', ?K2', ?K3', ?K4', ?K1, ?K2, ?K3, ?K4; done).
  by rewrite <- app_assoc.
Qed.

End WriterChunks.

(** ** Reading the chunks back *)

Section ReadBack.
Context `{SU : StaticlibUtils, MP : MultimapPolicy, PE : PayloadEnv}.

(** the calls of the payload handler, one for each chunk with data *)
Definition handle_chunks (h : handler) (bodies : list str) (w : world) : option exn * world :=
  run_pieces h (filter (fun d => d <> []) bodies) w.

Lemma handle_chunks_cons h d bodies w w' :
  d <> [] -> run_handler h d w = (None, w') ->
  handle_chunks h (d :: bodies) w = handle_chunks h bodies w'.
Proof. intros NE E. unfold handle_chunks. rewrite filter_cons_True by done. cbn. by rewrite E. Qed.

Lemma loop_frames bodies rest n p ch w :
  m_chunked_content_parse_state p = PARSE_CHUNK_SIZE_START ->
  Forall (fun d => slen d < 2 ^ 63) bodies ->
  match m_payload_handler p with
  | None => slen ch + slen (concat bodies) <= m_max_content_length p
  | Some h => (handle_chunks h bodies w).1 = None
  end ->
  exists p',
    chunks_loop (concat (map frame_or_nothing bodies) ++ rest) n p ch w =
    chunks_loop rest (n + slen (concat (map frame_or_nothing bodies))) p'
      (match m_payload_handler p with None => ch ++ concat bodies | Some _ => ch end)
      (match m_payload_handler p with None => w | Some h => (handle_chunks h bodies w).2 end) /\
    m_chunked_content_parse_state p' = PARSE_CHUNK_SIZE_START /\ chunk_scratch p p'.
Proof.
  intros St F. revert n p ch w St. induction F as [|d bodies L _ IH]; intros n p ch w St H.
  - exists p. cbn. rewrite slen_nil, Z.add_0_r, app_nil_r.
    by destruct (m_payload_handler p).
  - cbn [map concat] in *. unfold frame_or_nothing at 1 3. rewrite <- app_assoc.
    destruct (bool_decide (d = [])) eqn:Ed.
    { apply bool_decide_eq_true in Ed as ->. cbn [app]. apply (IH n p ch w St H). }
    assert (d <> []) as NE by (by apply bool_decide_eq_false in Ed).
    set (n1 := n + slen (chunk_frame d)).
    assert (exists ch1 w1, absorbs p d ch w ch1 w1 /\
      ch1 = match m_payload_handler p with None => ch ++ d | Some _ => ch end /\
      match m_payload_handler p with
      | None => w1 = w /\ slen ch1 + slen (concat bodies) <= m_max_content_length p
      | Some h => handle_chunks h (d :: bodies) w = handle_chunks h bodies w1
      end) as (ch1 & w1 & A & Ech & H1).
    { unfold absorbs. destruct (m_payload_handler p) as [h|].
      - destruct (run_handler h d w) as [[e|] w1] eqn:R.
        { unfold handle_chunks in H. rewrite filter_cons_True in H by done. cbn in H. by rewrite R in H. }
        exists ch, w1. split_and!; [done..|]. by apply handle_chunks_cons.
      - rewrite slen_app in H. pose proof (slen_nonneg (concat bodies)).
        exists (ch ++ d), w. rewrite slen_app. split_and!; try done; lia. }
    destruct (loop_frame d (concat (map frame_or_nothing bodies) ++ rest) n p ch w ch1 w1 St NE L A)
      as (p1 & E1 & St1 & Sc1).
    destruct Sc1 as [Sh Sm].
    destruct (IH n1 p1 ch1 w1 St1) as (p2 & E2 & St2 & Sc2).
    { rewrite Sh, Sm. destruct (m_payload_handler p); [by rewrite <- H1|apply H1]. }
    exists p2. rewrite E1. fold n1. rewrite E2, Sh. split_and!; [|done|].
    + subst n1 ch1. rewrite slen_app.
      destruct (m_payload_handler p); [rewrite H1|destruct H1 as [-> _]]; rewrite <- ?app_assoc; f_equal; lia.
    + eapply chunk_scratch_trans, Sc2. by constructor.
Qed.

(** C13: What the response writer sends in chunks, the chunk parser reads back:
    for any sequence of [clear], [write]s and [send_chunk] calls ended by
    [send_final_chunk], after the headers, [parse_chunks] on the bytes sent
    returns true, leaves what follows them unread, and has appended the data
    written to the chunk cache or, if there is a payload handler, given it the
    data of each non-empty chunk; without a handler the data has to be within
    the parser's limit, and a handler must throw on none of these pieces. *)
Theorem chunked_roundtrip (w : http_response_writer) keep_alive (chunks : list (list str))
    (s : pstate) (rest : str) :
  client_supports_chunks w = true -> sending_chunks w = true -> sent_headers w = true ->
  is_body_allowed (w_response w) = true ->
  Forall (fun ds => slen (concat ds) < 2 ^ 63) chunks ->
  m_chunked_content_parse_state (ps_parser s) = PARSE_CHUNK_SIZE_START ->
  m_read (ps_parser s) = send_chunks keep_alive chunks w ++ rest ->
  match m_payload_handler (ps_parser s) with
  | None => slen (m_chunk_cache (req_base (ps_request s))) + slen (concat (concat chunks))
            <= m_max_content_length (ps_parser s)
  | Some h => (handle_chunks h (map (concat (A:=Ascii.ascii)) chunks) (ps_world s)).1 = None
  end ->
  let '(rc, s') := parse_chunks s in
  rc = Val ttrue /\ ps_ec s' = ps_ec s /\ m_read (ps_parser s') = rest /\
  m_bytes_last_read (ps_parser s') = slen (send_chunks keep_alive chunks w) /\
  match m_payload_handler (ps_parser s) with
  | None => ps_world s' = ps_world s /\
            m_chunk_cache (req_base (ps_request s')) =
            m_chunk_cache (req_base (ps_request s)) ++ concat (concat chunks)
  | Some h => ps_world s' = (handle_chunks h (map (concat (A:=Ascii.ascii)) chunks) (ps_world s)).2 /\
              m_chunk_cache (req_base (ps_request s')) = m_chunk_cache (req_base (ps_request s))
  end.
Proof.
  intros Hc Hs Hh B F St Er H. rewrite send_chunks_bytes in * by done.
  rewrite <- (map_map (concat (A:=Ascii.ascii)) frame_or_nothing), <- app_assoc in Er.
  rewrite <- (map_map (concat (A:=Ascii.ascii)) frame_or_nothing).
  unfold parse_chunks. set (p0 := (ps_parser s) <| m_bytes_last_read := 0 |>).
  assert (concat (concat chunks) = concat (map (concat (A:=Ascii.ascii)) chunks)) as Ecc
    by (clear; induction chunks as [|d l IH]; [done|]; cbn; by rewrite concat_app, IH).
  rewrite Ecc in *.
  set (ch := m_chunk_cache (req_base (ps_request s))) in *.
  destruct (loop_frames (map (concat (A:=Ascii.ascii)) chunks) (last_chunk ++ rest) 0 p0 ch (ps_world s) St)
    as (p1 & E1 & St1 & Sc1); [by apply Forall_map|exact H|].
  change (m_read p0) with (m_read (ps_parser s)). rewrite Er, E1.
  match goal with |- context [chunks_loop (last_chunk ++ rest) ?n p1 ?c ?w0] =>
    destruct (loop_last_chunk rest n p1 c w0 St1) as (p2 & E2) end.
  rewrite E2. cbn -[Z.add last_chunk concat frame_or_nothing handle_chunks add64].
  rewrite slen_app. split_and!; try done; try lia.
  by destruct (m_payload_handler (ps_parser s)).
Qed.

End ReadBack.

Definition sample_writer : http_response_writer :=
  (new_writer 0 (new_request false)) <| client_supports_chunks := true |>
    <| sending_chunks := true |> <| sent_headers := true |>.

Definition sample_chunks : list (list str) := [[bs "hello "; bs "wor"]; []; [bs "ld"]].

Definition sample_chunk_state : pstate :=
  mk_pstate
    (set_read_buffer (send_chunks true sample_chunks sample_writer ++ bs "GET") (new_parser 7 7 1024))
    (new_request false) no_error [].

Lemma chunked_roundtrip_witness :
  (parse_chunks sample_chunk_state).1 = Val ttrue /\
  m_read (ps_parser (parse_chunks sample_chunk_state).2) = bs "GET" /\
  m_chunk_cache (req_base (ps_request (parse_chunks sample_chunk_state).2)) = bs "hello world".
Proof.
  pose proof (chunked_roundtrip sample_writer true sample_chunks sample_chunk_state (bs "GET")
    eq_refl eq_refl eq_refl eq_refl) as R.
  destruct (parse_chunks sample_chunk_state) as [rc s'].
  destruct R as (R1 & _ & R2 & _ & _ & R3).
  - repeat constructor.
  - reflexivity.
  - reflexivity.
  - vm_compute. discriminate.
  - split; [exact R1|]. split; [exact R2|]. etransitivity; [exact R3|vm_compute; reflexivity].
Defined.
