(* ===== verification/WriterTheorems.v ===== *)
(** * What a response puts on the wire

    The headers [http_message::prepare_headers_for_send] settles and the
    framing of a response sent in one piece. *)

From S2P Require Import Prelude.
From S2P Require Import Externals.
From S2P Require Import Multimap.
From S2P Require Import Strings.
From S2P Require Import Message.
From S2P Require Import Request.
From S2P Require Import Response.
From S2P Require Import Writer.
From S2P Require Import RefUtils.
From S2P Require Import HeaderProofs.
From S2P Require Import HeaderRoundTrip.
From S2P Require Import ChunkRoundTrip.

(** the headers that the library itself sets *)
Definition framing_header `{StaticlibUtils} (key : str) : bool :=
  iequal_to HEADER_CONNECTION key || iequal_to HEADER_CONTENT_LENGTH key
  || iequal_to HEADER_TRANSFER_ENCODING key.

Section Framing.
Context `{SU : StaticlibUtils, MP : MultimapPolicy, ML : !MultimapLaws, IL : !IequalsLaw}.

Lemma iequals_false x y :
  map (toupper ∘ int_of_char) x <> map (toupper ∘ int_of_char) y -> iequals x y = false.
Proof. intros N. destruct (iequals x y) eqn:E; [|done]. by apply iequals_spec in E. Qed.

Lemma framing_headers_differ :
  iequal_to HEADER_CONNECTION HEADER_CONTENT_LENGTH = false /\
  iequal_to HEADER_CONTENT_LENGTH HEADER_CONNECTION = false /\
  iequal_to HEADER_TRANSFER_ENCODING HEADER_CONNECTION = false.
Proof. split_and!; apply iequals_false; vm_compute; discriminate. Qed.

Lemma change_header_range key value m :
  exists k, iequal_to k key = true /\
            equal_range (m_headers (change_header key value m)) key = [(k, value)].
Proof. apply change_value_range. Qed.

Lemma change_header_range_ne key key' value m :
  iequal_to key key' = false ->
  equal_range (m_headers (change_header key value m)) key' ≡ₚ equal_range (m_headers m) key'.
Proof. apply change_value_range_ne. Qed.

(** the single header [key] has the value [value] *)
Definition header_is (m : http_message) (key value : str) : Prop :=
  exists k, iequal_to k key = true /\ equal_range (m_headers m) key = [(k, value)].

Lemma header_is_change_ne key key' v v' m :
  iequal_to key' key = false -> header_is m key v -> header_is (change_header key' v' m) key v.
Proof.
  intros N (k & Hk & E). exists k. split; [done|].
  apply Permutation_singleton_r. rewrite <- E. by apply (change_header_range_ne key' key v' m N).
Qed.

(** [get_header] finds the value of a single header *)
Lemma header_is_get m key v : header_is m key v -> get_header m key = v.
Proof. intros (k & _ & E). exact (get_value_unique _ _ _ _ E). Qed.

Definition connection_value (keep_alive : bool) : str :=
  if keep_alive then bs "Keep-Alive" else bs "close".

Lemma prepare_headers_spec keep_alive using_chunks m :
  let m' := prepare_headers_for_send keep_alive using_chunks m in
  header_is m' HEADER_CONNECTION (connection_value keep_alive) /\
  (using_chunks = false -> m_do_not_send_content_length m = false ->
   header_is m' HEADER_CONTENT_LENGTH (to_string (m_content_length m))) /\
  (using_chunks = true -> m_chunks_supported m = true ->
   header_is m' HEADER_TRANSFER_ENCODING (bs "chunked")) /\
  (forall key, framing_header key = false ->
   equal_range (m_headers m') key ≡ₚ equal_range (m_headers m) key).
Proof.
  destruct framing_headers_differ as (N1 & N2 & N3). intros m'.
  assert (header_is (change_header HEADER_CONNECTION (connection_value keep_alive) m)
            HEADER_CONNECTION (connection_value keep_alive)) as C by apply change_header_range.
  assert (forall key, framing_header key = false ->
    equal_range (m_headers (change_header HEADER_CONNECTION (connection_value keep_alive) m)) key
    ≡ₚ equal_range (m_headers m) key) as O.
  { intros key F. apply change_header_range_ne. unfold framing_header in F. by chars. }
  subst m'. unfold prepare_headers_for_send. fold (connection_value keep_alive).
  set (m1 := change_header HEADER_CONNECTION _ m) in *.
  change (m_chunks_supported m) with (m_chunks_supported m1).
  change (m_do_not_send_content_length m) with (m_do_not_send_content_length m1).
  change (m_content_length m) with (m_content_length m1).
  destruct using_chunks; [destruct (m_chunks_supported m1) eqn:S|
                          destruct (m_do_not_send_content_length m1) eqn:S]; cbn [negb].
  all: split_and!; try done; try (by apply header_is_change_ne);
    try (intros _ _; apply change_header_range).
  all: intros key F; rewrite <- O by done; apply change_header_range_ne;
    unfold framing_header in F; by chars.
Qed.

Lemma prepare_headers_line keep_alive using_chunks m :
  let m' := prepare_headers_for_send keep_alive using_chunks m in
  m_first_line m' = m_first_line m /\ m_version_major m' = m_version_major m /\
  m_version_minor m' = m_version_minor m.
Proof. unfold prepare_headers_for_send. repeat case_match; cbn; done. Qed.

Definition status_line (r : http_response) : str :=
  get_version_string (resp_base r) ++ bs " " ++ to_string (status_code r) ++ bs " "
  ++ status_message r.

Lemma response_head_bytes r keep_alive using_chunks :
  m_first_line (resp_base r) = [] ->
  concat (response_prepare_buffers [] keep_alive using_chunks r).1 =
  status_line r ++ STRING_CRLF
  ++ header_lines (m_headers (prepare_headers_for_send keep_alive using_chunks (resp_base r)))
  ++ STRING_CRLF.
Proof.
  intros F. unfold response_prepare_buffers, prepare_buffers_for_send, get_first_line.
  destruct (prepare_headers_line keep_alive using_chunks (resp_base r)) as (F' & Vj & Vn).
  set (m := prepare_headers_for_send keep_alive using_chunks (resp_base r)) in *.
  rewrite F', F. rewrite bool_decide_eq_true_2 by done. cbn [fst].
  rewrite !concat_app, concat_append_headers. cbn [concat]. rewrite !app_nil_r.
  unfold response_update_first_line, status_line, get_version_string. cbn.
  rewrite Vj, Vn. by rewrite <- !app_assoc.
Qed.

(** the response as it is when its headers are prepared *)
Definition prepared_response (w : http_response_writer) : http_response :=
  if content_length w >? 0
  then on_resp_base (Message.set_content_length (content_length w)) (w_response w)
  else w_response w.

Lemma prepare_plain keep_alive w :
  sent_headers w = false -> sending_chunks w = false -> writer_ok w ->
  concat (prepare_write_buffers [] keep_alive false w).1 =
  concat (response_prepare_buffers [] keep_alive false (prepared_response w)).1
  ++ concat (content_buffers w).
Proof.
  destruct w as [c bufs cache len sup snd hd r]. intros Hh Hs [W _]. cbn in Hh, Hs, W. subst hd snd.
  unfold prepare_write_buffers, writer_prepare_buffers, prepared_response.
  cbn -[concat response_prepare_buffers Z.gtb]. pose proof (slen_nonneg (concat bufs)).
  destruct (len >? 0) eqn:E; cbn -[concat response_prepare_buffers Z.gtb];
    destruct (response_prepare_buffers _ _ _ _) as [bufs' r'];
    cbn -[concat Z.gtb]; rewrite E, ?andb_false_r; cbn -[concat].
  - by rewrite concat_app.
  - assert (concat bufs = []) as -> by (apply slen_zero; lia). by rewrite app_nil_r.
Qed.

(** the framing of what is in a writer that has sent nothing yet *)
Lemma framing_spec (w : http_response_writer) (keep_alive : bool) :
  sent_headers w = false -> sending_chunks w = false -> writer_ok w ->
  content_length w = slen (concat (content_buffers w)) ->
  m_first_line (resp_base (w_response w)) = [] ->
  m_content_length (resp_base (w_response w)) = 0 ->
  m_do_not_send_content_length (resp_base (w_response w)) = false ->
  exists headers : mmap,
    concat (prepare_write_buffers [] keep_alive false w).1 =
    status_line (w_response w) ++ STRING_CRLF ++ header_lines headers ++ STRING_CRLF
    ++ concat (content_buffers w) /\
    (exists k, iequal_to k HEADER_CONTENT_LENGTH = true /\
     equal_range headers HEADER_CONTENT_LENGTH =
       [(k, to_string (slen (concat (content_buffers w))))]) /\
    (exists k, iequal_to k HEADER_CONNECTION = true /\
     equal_range headers HEADER_CONNECTION = [(k, connection_value keep_alive)]) /\
    (forall key, framing_header key = false ->
     equal_range headers key ≡ₚ equal_range (m_headers (resp_base (w_response w))) key).
Proof.
  intros Hh Hs W L F0 L0 D0.
  assert (m_content_length (resp_base (prepared_response w)) = slen (concat (content_buffers w)) /\
          m_first_line (resp_base (prepared_response w)) = [] /\
          m_do_not_send_content_length (resp_base (prepared_response w)) = false /\
          m_headers (resp_base (prepared_response w)) = m_headers (resp_base (w_response w)) /\
          status_line (prepared_response w) = status_line (w_response w))
    as (R1 & R2 & R3 & R4 & R5).
  { unfold prepared_response. pose proof (slen_nonneg (concat (content_buffers w))).
    destruct (content_length w >? 0) eqn:E; split_and!; try done. lia. }
  destruct (prepare_headers_spec keep_alive false (resp_base (prepared_response w)))
    as (HC & HL & _ & HO).
  eexists. split; [|split; [|split; [exact HC|]]].
  - rewrite prepare_plain, response_head_bytes by done. by rewrite R5, <- !app_assoc.
  - rewrite <- R1. by apply HL.
  - intros key Hk. rewrite <- R4. by apply HO.
Qed.

(** C17: A response sent in one piece is framed correctly: the bytes handed to
    the connection are the status line, the headers, an empty line and exactly
    the data written; there is one Content-Length header and it is the length
    of that data, one Connection header that says whether the connection will
    be kept alive, and the other headers are those of the response. *)
Theorem send_framing (w : http_response_writer) (ds : list str) (keep_alive : bool) :
  sent_headers w = false -> sending_chunks w = false ->
  content_buffers w = [] -> content_length w = 0 ->
  is_body_allowed (w_response w) = true ->
  m_first_line (resp_base (w_response w)) = [] ->
  m_content_length (resp_base (w_response w)) = 0 ->
  m_do_not_send_content_length (resp_base (w_response w)) = false ->
  slen (concat ds) < 2 ^ 63 ->
  exists headers : mmap,
    concat (prepare_write_buffers [] keep_alive false (write_all ds w)).1 =
    status_line (w_response w) ++ STRING_CRLF ++ header_lines headers ++ STRING_CRLF
    ++ concat ds /\
    (exists k, iequal_to k HEADER_CONTENT_LENGTH = true /\
     equal_range headers HEADER_CONTENT_LENGTH = [(k, to_string (slen (concat ds)))]) /\
    (exists k, iequal_to k HEADER_CONNECTION = true /\
     equal_range headers HEADER_CONNECTION = [(k, connection_value keep_alive)]) /\
    (forall key, framing_header key = false ->
     equal_range headers key ≡ₚ equal_range (m_headers (resp_base (w_response w))) key).
Proof.
  intros Hh Hs Hb Hl B F0 L0 D0 L.
  assert (writer_ok w) as W by (split; rewrite ?Hb, Hl; done).
  destruct (write_all_spec ds w B W) as ([W1 W2] & C & K); [by rewrite Hb|].
  destruct K as [_ K2 K3 K4 _]. rewrite Hs in K2. rewrite Hh in K3. rewrite Hb in C. cbn [concat app] in C.
  rewrite <- C, <- K4. apply framing_spec; rewrite ?K4; try done.
Qed.

End Framing.

Definition sample_reply : http_response_writer :=
  (new_writer 0 (new_request false))
    <| w_response := on_resp_base (add_header (bs "X-A") (bs "1"))
                       (new_response (new_request false)) |>.

Lemma send_framing_witness :
  exists headers : mmap,
    concat (prepare_write_buffers [] true false (write_all [bs "ab"; bs "c"] sample_reply)).1 =
    bs "HTTP/1.1 200 OK" ++ STRING_CRLF ++ header_lines headers ++ STRING_CRLF ++ bs "abc" /\
    exists k, equal_range headers HEADER_CONTENT_LENGTH = [(k, bs "3")].
Proof.
  destruct (send_framing sample_reply [bs "ab"; bs "c"] true eq_refl eq_refl eq_refl eq_refl eq_refl
              eq_refl eq_refl eq_refl eq_refl) as (hs & E & (k & _ & L) & _).
  exists hs. split; [exact E|]. exists k. exact L.
Defined.
