(* ===== verification/ResponseReader.v ===== *)
(** The client's side of a response: a reader that follows the message format
    of RFC 7230 and shares nothing with the code that prints responses, and
    the proof that it gets back what the writer was given, whether the content
    is delimited by its length, sent in chunks or ended by the connection. *)

From S2P Require Import Prelude.
From S2P Require Import Externals.
From S2P Require Import Multimap.
From S2P Require Import Strings.
From S2P Require Import Message.
From S2P Require Import Request.
From S2P Require Import ParserState.
From S2P Require Import BodyParser.
From S2P Require Import Response.
From S2P Require Import Writer.
From S2P Require Import HeaderProofs.
From S2P Require Import HeaderRoundTrip.
From S2P Require Import ChunkRoundTrip.
From S2P Require Import WriterTheorems.

#[local] Open Scope Z_scope.

(** ** The reader

    It reads a response that may have a body, and returns what follows it. *)

(** a line without its CR LF; a CR on its own is malformed *)
Fixpoint read_line (s : str) : option (str * str) :=
  match s with
  | [] => None
  | c :: s =>
    if Ascii.eqb c CR then
      match s with
      | d :: s => if Ascii.eqb d LF then Some ([], s) else None
      | [] => None
      end
    else '(line, rest) ← read_line s; Some (c :: line, rest)
  end.

(** "name: value" *)
Fixpoint read_field (line : str) : option (str * str) :=
  match line with
  | [] => None
  | c :: line =>
    if (c ==c ":") then Some ([], match line with d :: v => if (d ==c " ") then v else line | [] => [] end)
    else '(name, value) ← read_field line; Some (c :: name, value)
  end.

(** the fields up to the empty line *)
Fixpoint read_fields (fuel : nat) (s : str) : option (mmap * str) :=
  match fuel with
  | O => None
  | S fuel =>
    '(line, rest) ← read_line s;
    match line with
    | [] => Some ([], rest)
    | _ =>
      field ← read_field line;
      '(fields, rest) ← read_fields fuel rest;
      Some (field :: fields, rest)
    end
  end.

Definition decimal_digit (c : char) : bool := (48 <=? int_of_char c) && (int_of_char c <=? 57).

Definition read_decimal (s : str) : option Z :=
  if forallb decimal_digit s && negb (bool_decide (s = []))
  then Some (fold_left (fun a c => a * 10 + (int_of_char c - 48)) s 0) else None.

Definition read_hex (s : str) : option Z :=
  if forallb is_hex_digit s && negb (bool_decide (s = [])) then Some (strtol16_loop 0 s) else None.

(** the first bytes, all of which have to be there *)
Definition read_bytes (n : Z) (s : str) : option (str * str) :=
  if n <=? slen s then Some (take (Z.to_nat n) s, drop (Z.to_nat n) s) else None.

(** chunks without extensions, and no trailer after the last *)
Fixpoint read_chunks (fuel : nat) (s : str) : option (str * str) :=
  match fuel with
  | O => None
  | S fuel =>
    '(line, s) ← read_line s;
    n ← read_hex line;
    '(data, s) ← read_bytes n s;
    '(line, s) ← read_line s;
    if bool_decide (line = []) then
      if n =? 0 then Some ([], s)
      else '(more, s) ← read_chunks fuel s; Some (data ++ more, s)
    else None
  end.

Record response_seen := mk_response_seen {
  seen_line : str;
  seen_fields : mmap;
  seen_body : str;
}.

Section Reader.
Context `{SU : StaticlibUtils}.

Definition field_values (fields : mmap) (name : str) : list str :=
  map snd (filter (fun kv => iequals kv.1 name = true) fields).

(** the body is in chunks, as long as the header says, or ends with the
    connection *)
Definition read_body (fields : mmap) (s : str) : option (str * str) :=
  if bool_decide (field_values fields (bs "Transfer-Encoding") = [bs "chunked"])
  then read_chunks (S (length s)) s
  else
    match field_values fields (bs "Content-Length") with
    | [] => Some (s, [])
    | [v] => n ← read_decimal v; read_bytes n s
    | _ => None
    end.

Definition read_response (s : str) : option (response_seen * str) :=
  '(line, s) ← read_line s;
  '(fields, s) ← read_fields (S (length s)) s;
  '(body, s) ← read_body fields s;
  Some (mk_response_seen line fields body, s).

(** as many responses as there are requests *)
Fixpoint read_responses (n : nat) (s : str) : option (list response_seen * str) :=
  match n with
  | O => Some ([], s)
  | S n =>
    '(r, s) ← read_response s;
    '(rs, s) ← read_responses n s;
    Some (r :: rs, s)
  end.

End Reader.

(** ** The parts of a message *)

Definition no_cr (s : str) : Prop := Forall (fun c => c <> CR) s.

(** a field that can be told from what is around it *)
Definition clean (kv : str * str) : Prop :=
  no_cr kv.1 /\ Forall (fun c => c <> (":"%char : char)) kv.1 /\ no_cr kv.2.

Lemma read_line_spec line rest : no_cr line -> read_line (line ++ STRING_CRLF ++ rest) = Some (line, rest).
Proof.
  induction 1 as [|c line N _ IH]; [done|]. cbn [app read_line].
  apply Ascii.eqb_neq in N as ->. by rewrite IH.
Qed.

Lemma read_field_spec kv : clean kv -> read_field (kv.1 ++ HEADER_NAME_VALUE_DELIMITER ++ kv.2) = Some kv.
Proof.
  destruct kv as [name value]. intros (_ & N & _). cbn [fst snd] in *.
  induction N as [|c name Hc _ IH]; [done|]. cbn [app read_field].
  apply Ascii.eqb_neq in Hc as ->. by rewrite IH.
Qed.

Lemma read_fields_spec fields rest : Forall clean fields -> forall fuel, (length fields < fuel)%nat ->
  read_fields fuel (header_lines fields ++ STRING_CRLF ++ rest) = Some (fields, rest).
Proof.
  induction 1 as [|kv fields C _ IH]; intros [|fuel] L; cbn [length] in L; try lia; [done|].
  change (header_lines (kv :: fields)) with
    ((kv.1 ++ HEADER_NAME_VALUE_DELIMITER ++ kv.2 ++ STRING_CRLF) ++ header_lines fields).
  set (line := kv.1 ++ HEADER_NAME_VALUE_DELIMITER ++ kv.2).
  assert (no_cr line) as N.
  { destruct C as (C1 & _ & C2). apply Forall_app. split; [done|]. by repeat constructor. }
  assert (((kv.1 ++ HEADER_NAME_VALUE_DELIMITER ++ kv.2 ++ STRING_CRLF) ++ header_lines fields)
            ++ STRING_CRLF ++ rest = line ++ STRING_CRLF ++ header_lines fields ++ STRING_CRLF ++ rest)
    as -> by (subst line; by rewrite <- !app_assoc).
  cbn [read_fields]. rewrite (read_line_spec line _ N). cbn [mbind option_bind].
  pose proof (read_field_spec kv C) as R. fold line in R.
  clearbody line. destruct line as [|c line]; [done|]. rewrite R. cbn [mbind option_bind].
  by rewrite IH by lia.
Qed.

Lemma read_bytes_spec data rest : read_bytes (slen data) (data ++ rest) = Some (data, rest).
Proof.
  unfold read_bytes. rewrite slen_app. pose proof (slen_nonneg rest).
  destruct (Z.leb_spec (slen data) (slen data + slen rest)); [|lia].
  unfold slen. by rewrite Nat2Z.id, take_app_length, drop_app_length.
Qed.

Lemma read_hex_spec n : 0 <= n < 2 ^ 63 -> read_hex (sprintf_lx n) = Some n.
Proof.
  intros H. destruct (sprintf_lx_cons n) as (d & s & E & Hd & Hs); [lia|].
  unfold read_hex. assert (forallb is_hex_digit (sprintf_lx n) = true) as ->.
  { rewrite E. cbn. rewrite Hd. apply forallb_forall. by rewrite <- List.Forall_forall. }
  rewrite bool_decide_eq_false_2 by (by rewrite E). cbn [andb negb].
  unfold sprintf_lx. rewrite hex_digits_value; [done|]. lia.
Qed.

Lemma hex_no_cr s : hex_string s -> no_cr s.
Proof. unfold no_cr. intros H. induction H as [|c s Hc _ IH]; constructor; [by intros ->|done]. Qed.

Lemma read_chunk fuel data rest :
  slen data < 2 ^ 63 ->
  read_chunks (S fuel) (sprintf_lx (slen data) ++ STRING_CRLF ++ data ++ STRING_CRLF ++ rest) =
  if slen data =? 0 then Some ([], rest)
  else '(more, s) ← read_chunks fuel rest; Some (data ++ more, s).
Proof.
  intros L. pose proof (slen_nonneg data). cbn [read_chunks].
  rewrite read_line_spec by (apply hex_no_cr, hex_digits_hex; lia). cbn [mbind option_bind].
  rewrite read_hex_spec by lia. cbn [mbind option_bind].
  rewrite read_bytes_spec. cbn [mbind option_bind].
  reflexivity.
Qed.

Lemma read_chunks_spec bodies rest : Forall (fun d => slen d < 2 ^ 63) bodies ->
  forall fuel, (length (concat (map frame_or_nothing bodies)) < fuel)%nat ->
  read_chunks fuel (concat (map frame_or_nothing bodies) ++ last_chunk ++ rest) = Some (concat bodies, rest).
Proof.
  induction 1 as [|d bodies L _ IH]; intros fuel Lf; cbn [map concat] in *.
  - destruct fuel as [|fuel]; [lia|]. exact (read_chunk fuel [] rest ltac:(done)).
  - unfold frame_or_nothing at 1 in Lf. unfold frame_or_nothing at 1. rewrite <- app_assoc. case_bool_decide as E.
    { subst d. by apply IH. }
    assert (length (concat (map frame_or_nothing bodies)) < length (chunk_frame d ++ concat (map frame_or_nothing bodies)))%nat
      as Lc by (unfold chunk_frame; rewrite !length_app; cbn; lia).
    destruct fuel as [|fuel]; [lia|]. unfold chunk_frame. rewrite <- !app_assoc.
    rewrite read_chunk by done. destruct (Z.eqb_spec (slen d) 0) as [Z0|_]; [by apply slen_zero in Z0|].
    by rewrite IH by lia.
Qed.

(** ** The head *)

Lemma concat_concat (chunks : list (list str)) :
  concat (concat chunks) = concat (map (concat (A:=Ascii.ascii)) chunks).
Proof. induction chunks as [|d l IH]; [done|]. cbn [concat map]. by rewrite concat_app, IH. Qed.

Section Head.
Context `{SU : StaticlibUtils, MP : MultimapPolicy, ML : !MultimapLaws, IL : !IequalsLaw, DL : !DecimalLaw}.

Lemma to_string_digit n : 0 <= n -> Forall (fun c => decimal_digit c = true) (to_string n).
Proof.
  intros H. apply (list.Forall_impl _ _ _ (to_string_digits n H)). intros c Hc. unfold decimal_digit. lia.
Qed.

Lemma to_string_no_cr n : 0 <= n -> no_cr (to_string n).
Proof. intros H. apply (list.Forall_impl _ _ _ (to_string_digit n H)). by intros c Hc ->. Qed.

Lemma status_line_no_cr r :
  0 <= m_version_major (resp_base r) -> 0 <= m_version_minor (resp_base r) -> 0 <= status_code r ->
  no_cr (status_message r) -> no_cr (status_line r).
Proof.
  intros Hj Hn Hc Hm. unfold status_line, get_version_string, no_cr.
  rewrite !Forall_app. split_and!; try by apply to_string_no_cr.
  all: try exact Hm. all: by repeat constructor.
Qed.

Lemma read_decimal_spec n : 0 <= n -> read_decimal (to_string n) = Some n.
Proof.
  intros H. unfold read_decimal. rewrite to_string_value by done.
  rewrite bool_decide_eq_false_2 by apply to_string_nonempty.
  assert (forallb decimal_digit (to_string n) = true) as ->; [|done].
  apply forallb_forall, List.Forall_forall. by apply to_string_digit.
Qed.

Lemma change_value_clean d key value :
  Forall clean d -> clean (key, value) -> Forall clean (change_value d key value).
Proof.
  intros F C. unfold change_value. destruct (equal_range d key).
  - rewrite mm_insert_perm. by constructor.
  - induction F as [|kv d' [K1 [K2 K3]] F IH]; [done|]. cbn [assign_first]. destruct (key_is key kv).
    + constructor; [by split_and!; try apply C|].
      rewrite list.Forall_forall in *. intros x [_ Hx]%list_elem_of_filter. by apply F.
    + by constructor.
Qed.

Lemma prepare_headers_clean keep_alive using_chunks m :
  Forall clean (m_headers m) -> (using_chunks = false -> 0 <= m_content_length m) ->
  Forall clean (m_headers (prepare_headers_for_send keep_alive using_chunks m)).
Proof.
  intros F L. unfold prepare_headers_for_send.
  assert (Forall clean (m_headers (change_header HEADER_CONNECTION
            (if keep_alive then bs "Keep-Alive" else bs "close") m))) as F1.
  { apply change_value_clean; [done|]. destruct keep_alive; by repeat constructor. }
  set (m1 := change_header HEADER_CONNECTION _ m) in *.
  change (m_content_length m) with (m_content_length m1) in L. clearbody m1.
  destruct using_chunks; [destruct (m_chunks_supported m1)|destruct (m_do_not_send_content_length m1)];
    cbn [negb]; try done; (apply change_value_clean; [done|]); [by repeat constructor|].
  split; [by repeat constructor|]. split; [by repeat constructor|by apply to_string_no_cr, L].
Qed.

Lemma header_lines_length hs : (length hs <= length (header_lines hs))%nat.
Proof.
  induction hs as [|kv hs IH]; [done|].
  change (header_lines (kv :: hs)) with
    ((kv.1 ++ HEADER_NAME_VALUE_DELIMITER ++ kv.2 ++ STRING_CRLF) ++ header_lines hs).
  rewrite !length_app. cbn. lia.
Qed.

Lemma read_head line fields s :
  no_cr line -> Forall clean fields ->
  read_response (line ++ STRING_CRLF ++ header_lines fields ++ STRING_CRLF ++ s) =
  '(body, s) ← read_body fields s; Some (mk_response_seen line fields body, s).
Proof.
  intros N F. unfold read_response. rewrite read_line_spec by done. cbn [mbind option_bind].
  rewrite read_fields_spec; [done..|]. rewrite !length_app. pose proof (header_lines_length fields). lia.
Qed.

(** what the client is to see of a writer: its status line, its headers but
    for those the library sets, whether the connection stays, and the body *)
Record seen_as (keep_alive : bool) (w : http_response_writer) (body : str) (r : response_seen) : Prop := {
  sa_line : seen_line r = status_line (w_response w);
  sa_body : seen_body r = body;
  sa_connection : field_values (seen_fields r) (bs "Connection") = [connection_value keep_alive];
  sa_others key : framing_header key = false ->
    equal_range (seen_fields r) key ≡ₚ equal_range (m_headers (resp_base (w_response w))) key;
}.

(** a writer that a handler may have filled in but not written to *)
Record unsent (w : http_response_writer) : Prop := {
  us_headers : sent_headers w = false;
  us_sending : sending_chunks w = false;
  us_buffers : content_buffers w = [];
  us_length : content_length w = 0;
  us_body : is_body_allowed (w_response w) = true;
  us_first : m_first_line (resp_base (w_response w)) = [];
  us_content : m_content_length (resp_base (w_response w)) = 0;
  us_implied : m_do_not_send_content_length (resp_base (w_response w)) = false;
  us_line : no_cr (status_line (w_response w));
  us_fields : Forall clean (m_headers (resp_base (w_response w)));
  us_coding : equal_range (m_headers (resp_base (w_response w))) HEADER_TRANSFER_ENCODING = [];
}.

Lemma field_values_is fields key v :
  (exists k, iequal_to k key = true /\ equal_range fields key = [(k, v)]) -> field_values fields key = [v].
Proof. intros (k & _ & E). unfold field_values. unfold equal_range, key_is, iequal_to in E. by rewrite E. Qed.

Lemma field_values_none fields key : equal_range fields key = [] -> field_values fields key = [].
Proof. intros E. unfold field_values. unfold equal_range, key_is, iequal_to in E. by rewrite E. Qed.

(** ** What a writer sends first *)

Lemma prepared_fields w :
  let r := prepared_response w in
  status_line r = status_line (w_response w) /\
  m_first_line (resp_base r) = m_first_line (resp_base (w_response w)) /\
  m_headers (resp_base r) = m_headers (resp_base (w_response w)) /\
  m_chunks_supported (resp_base r) = m_chunks_supported (resp_base (w_response w)) /\
  m_content_length (resp_base r) =
    (if content_length w >? 0 then content_length w else m_content_length (resp_base (w_response w))).
Proof. unfold prepared_response. by destruct (content_length w >? 0). Qed.

(** the first buffers are the head and what a writer that has sent its headers
    sends *)
Lemma prepare_first keep_alive final w :
  sent_headers w = false ->
  exists R, let w1 := w <| sent_headers := true |> <| w_response := R |> in
    is_body_allowed R = is_body_allowed (w_response w) /\
    concat (prepare_write_buffers [] keep_alive final w).1 =
      concat (response_prepare_buffers [] keep_alive (sending_chunks w) (prepared_response w)).1
      ++ concat (prepare_write_buffers [] keep_alive final w1).1 /\
    (prepare_write_buffers [] keep_alive final w).2 = (prepare_write_buffers [] keep_alive final w1).2.
Proof.
  destruct w as [c bufs cache len sup snd hd r]. cbn [sent_headers]. intros ->.
  exists (response_prepare_buffers [] keep_alive snd
    (prepared_response (mk_writer c bufs cache len sup snd false r))).2.
  unfold prepare_write_buffers, writer_prepare_buffers, prepared_response.
  cbn -[concat response_prepare_buffers Z.gtb sprintf_lx].
  assert (forall r', is_body_allowed (response_prepare_buffers [] keep_alive snd r').2 = is_body_allowed r') as A
    by (intros r'; unfold response_prepare_buffers; by destruct (prepare_buffers_for_send _ _ _ _ _)).
  destruct (len >? 0) eqn:E; cbn -[concat response_prepare_buffers Z.gtb sprintf_lx] in *;
    (split; [by rewrite A|]); destruct (response_prepare_buffers _ _ _ _) as [bufs' r'];
    cbn -[concat Z.gtb sprintf_lx]; rewrite E; destruct sup, snd, final;
    cbn -[concat sprintf_lx]; rewrite ?concat_app; (split; [|done]); cbn [concat app];
    rewrite ?concat_app; cbn [concat app]; rewrite ?app_nil_r, <- ?app_assoc; done.
Qed.

(** an answer that [send_chunk] and [send_final_chunk] make, from its start *)
Definition send_in_chunks (keep_alive : bool) (chunks : list (list str)) (w : http_response_writer) : str :=
  send_chunks keep_alive chunks (w <| sending_chunks := true |>).

(** [write] does not look at the headers *)
Lemma write_all_with R ds : forall w,
  is_body_allowed R = is_body_allowed (w_response w) ->
  write_all ds (w <| sent_headers := true |> <| w_response := R |>) =
    (write_all ds w) <| sent_headers := true |> <| w_response := R |> /\
  w_response (write_all ds w) = w_response w /\ sent_headers (write_all ds w) = sent_headers w /\
  sending_chunks (write_all ds w) = sending_chunks w.
Proof.
  induction ds as [|d ds IH]; intros w B; [done|].
  assert (write d (w <| sent_headers := true |> <| w_response := R |>) =
            (write d w) <| sent_headers := true |> <| w_response := R |> /\
          w_response (write d w) = w_response w /\ sent_headers (write d w) = sent_headers w /\
          sending_chunks (write d w) = sending_chunks w) as (E & E1 & E2 & E3).
  { unfold write, add_to_cache. cbn -[add64]. rewrite B. by destruct (_ && _). }
  change (write_all (d :: ds) w) with (write_all ds (write d w)).
  change (write_all (d :: ds) (w <| sent_headers := true |> <| w_response := R |>)) with
    (write_all ds (write d (w <| sent_headers := true |> <| w_response := R |>))). rewrite E, <- E1, <- E2, <- E3.
  apply IH. by rewrite E1.
Qed.

Lemma send_chunks_first keep_alive chunks w :
  sent_headers w = false -> sending_chunks w = true ->
  exists R r, is_body_allowed R = is_body_allowed (w_response w) /\
    status_line r = status_line (w_response w) /\
    m_first_line (resp_base r) = m_first_line (resp_base (w_response w)) /\
    m_headers (resp_base r) = m_headers (resp_base (w_response w)) /\
    m_chunks_supported (resp_base r) = m_chunks_supported (resp_base (w_response w)) /\
    send_chunks keep_alive chunks w =
      concat (response_prepare_buffers [] keep_alive true r).1
      ++ send_chunks keep_alive chunks (w <| sent_headers := true |> <| w_response := R |>).
Proof.
  intros Hh Hs. destruct chunks as [|ds chunks]; cbn [send_chunks].
  - destruct (prepare_first keep_alive true (writer_clear w) Hh) as (R & B & E & _).
    destruct (prepared_fields (writer_clear w)) as (P1 & P2 & P3 & P4 & _).
    exists R, (prepared_response (writer_clear w)). rewrite E.
    change (sending_chunks (writer_clear w)) with (sending_chunks w). rewrite Hs. by split_and!.
  - set (w0 := write_all ds (writer_clear w)).
    destruct (write_all_with (w_response w) ds (writer_clear w) eq_refl) as (_ & F1 & F2 & F3).
    fold w0 in F1, F2, F3. destruct (prepare_first keep_alive false w0) as (R & B & E & E2); [by rewrite F2|].
    destruct (prepared_fields w0) as (P1 & P2 & P3 & P4 & _). rewrite F1 in *.
    exists R, (prepared_response w0). split_and!; try done.
    destruct (write_all_with R ds (writer_clear w) B) as (G & _).
    change (writer_clear (w <| sent_headers := true |> <| w_response := R |>)) with
      ((writer_clear w) <| sent_headers := true |> <| w_response := R |>). rewrite G. fold w0.
    rewrite F3 in E. change (sending_chunks (writer_clear w)) with (sending_chunks w) in E. rewrite Hs in E.
    destruct (prepare_write_buffers [] keep_alive false w0) as [b x],
      (prepare_write_buffers [] keep_alive false _) as [b' x']. cbn [fst snd] in *.
    by rewrite E, E2, app_assoc.
Qed.

(** a client that takes no chunks gets the data as it is *)
Lemma prepare_bare keep_alive final w :
  client_supports_chunks w = false -> sent_headers w = true ->
  prepare_write_buffers [] keep_alive final w = (if content_length w >? 0 then content_buffers w else [], w).
Proof.
  intros C H. unfold prepare_write_buffers. rewrite H. cbn [negb].
  destruct (content_length w >? 0); rewrite C; destruct final;
    cbn [andb]; rewrite ?C; done.
Qed.

Lemma send_chunks_bare keep_alive chunks w :
  client_supports_chunks w = false -> sent_headers w = true -> is_body_allowed (w_response w) = true ->
  Forall (fun ds => slen (concat ds) < 2 ^ 63) chunks ->
  send_chunks keep_alive chunks w = concat (concat chunks).
Proof.
  intros C H B F. revert w C H B. induction F as [|ds chunks L _ IH]; intros w C H B; cbn [send_chunks concat].
  { by rewrite prepare_bare. }
  destruct (write_all_spec ds (writer_clear w)) as ([W _] & Cw & [K1 K2 K3 K4 K5]); [done|by split|done|].
  rewrite prepare_bare by (by rewrite ?K1, ?K3). rewrite IH by (by rewrite ?K1, ?K3, ?K4).
  rewrite concat_app. change (concat ds) with (concat (content_buffers (writer_clear w)) ++ concat ds).
  rewrite <- Cw.
  destruct (Z.gtb_spec (content_length (write_all ds (writer_clear w))) 0) as [G|G]; [done|].
  pose proof (slen_nonneg (concat (content_buffers (write_all ds (writer_clear w))))).
  by rewrite (slen_zero (concat (content_buffers _))) by lia.
Qed.

(** ** The theorem *)

(** a header that the library does not set stays absent *)
Lemma prepare_headers_absent keep_alive using_chunks m :
  (using_chunks && m_chunks_supported m = false ->
   equal_range (m_headers m) HEADER_TRANSFER_ENCODING = [] ->
   equal_range (m_headers (prepare_headers_for_send keep_alive using_chunks m)) HEADER_TRANSFER_ENCODING = []) /\
  (using_chunks = true ->
   equal_range (m_headers m) HEADER_CONTENT_LENGTH = [] ->
   equal_range (m_headers (prepare_headers_for_send keep_alive using_chunks m)) HEADER_CONTENT_LENGTH = []).
Proof.
  assert (forall k v k' m, iequal_to k k' = false -> equal_range (m_headers m) k' = [] ->
    equal_range (m_headers (change_header k v m)) k' = []) as A.
  { intros k v k' m0 N E. apply Permutation_nil_r. rewrite <- E. by apply change_header_range_ne. }
  unfold prepare_headers_for_send. set (m1 := change_header HEADER_CONNECTION _ m).
  change (m_chunks_supported m) with (m_chunks_supported m1).
  split; intros H E.
  - assert (equal_range (m_headers m1) HEADER_TRANSFER_ENCODING = []) as E1
      by (apply A; [apply iequals_false; vm_compute; discriminate|done]). clearbody m1.
    destruct using_chunks; [by destruct (m_chunks_supported m1)|].
    destruct (m_do_not_send_content_length m1); [done|].
    apply A; [apply iequals_false; vm_compute; discriminate|done].
  - assert (equal_range (m_headers m1) HEADER_CONTENT_LENGTH = []) as E1
      by (apply A; [apply iequals_false; vm_compute; discriminate|done]). clearbody m1.
    rewrite H. destruct (m_chunks_supported m1); [|done].
    apply A; [apply iequals_false; vm_compute; discriminate|done].
Qed.

(** the fields of a prepared head *)
Lemma prepared_seen keep_alive using_chunks w r body :
  status_line r = status_line (w_response w) ->
  m_headers (resp_base r) = m_headers (resp_base (w_response w)) ->
  seen_as keep_alive w body (mk_response_seen (status_line r)
    (m_headers (prepare_headers_for_send keep_alive using_chunks (resp_base r))) body).
Proof.
  intros L H. destruct (prepare_headers_spec keep_alive using_chunks (resp_base r)) as (C & _ & _ & O).
  split; try done.
  - by apply field_values_is.
  - intros key K. cbn [seen_fields]. by rewrite O, H.
Qed.

(** the body is what the head says *)
Lemma read_body_length fields v body rest :
  field_values fields (bs "Transfer-Encoding") = [] ->
  field_values fields (bs "Content-Length") = [to_string v] -> v = slen body ->
  read_body fields (body ++ rest) = Some (body, rest).
Proof.
  intros T C ->. unfold read_body. rewrite T, C, bool_decide_eq_false_2 by done.
  rewrite read_decimal_spec by apply slen_nonneg. cbn [mbind option_bind]. apply read_bytes_spec.
Qed.

Lemma read_body_chunks fields bodies rest :
  field_values fields (bs "Transfer-Encoding") = [bs "chunked"] ->
  Forall (fun d => slen d < 2 ^ 63) bodies ->
  read_body fields (concat (map frame_or_nothing bodies) ++ last_chunk ++ rest) = Some (concat bodies, rest).
Proof.
  intros T F. unfold read_body. rewrite T, bool_decide_eq_true_2 by done.
  apply read_chunks_spec; [done|]. rewrite length_app. lia.
Qed.

Lemma read_body_rest fields body :
  field_values fields (bs "Transfer-Encoding") = [] -> field_values fields (bs "Content-Length") = [] ->
  read_body fields body = Some (body, []).
Proof. intros T C. unfold read_body. by rewrite T, C, bool_decide_eq_false_2. Qed.

(** a writer that has something to send in one piece *)
Record ready_writer (w : http_response_writer) : Prop := {
  rw_headers : sent_headers w = false;
  rw_sending : sending_chunks w = false;
  rw_ok : writer_ok w;
  rw_first : m_first_line (resp_base (w_response w)) = [];
  rw_content : m_content_length (resp_base (w_response w)) = 0;
  rw_implied : m_do_not_send_content_length (resp_base (w_response w)) = false;
  rw_line : no_cr (status_line (w_response w));
  rw_fields : Forall clean (m_headers (resp_base (w_response w)));
  rw_coding : equal_range (m_headers (resp_base (w_response w))) HEADER_TRANSFER_ENCODING = [];
}.

Lemma read_ready w keep_alive :
  ready_writer w -> exists r, seen_as keep_alive w (concat (content_buffers w)) r /\ forall rest,
    read_response (concat (prepare_write_buffers [] keep_alive false w).1 ++ rest) = Some (r, rest).
Proof.
  intros [Hh Hs [W1 W2] F0 L0 D0 Ln Fi Co].
  destruct (prepared_fields w) as (P1 & P2 & P3 & P4 & P5).
  rewrite prepare_plain, response_head_bytes by (try done; congruence).
  set (r := prepared_response w) in *. set (body := concat (content_buffers w)) in *.
  eexists. split; [by apply (prepared_seen keep_alive false w r)|]. intros rest.
  pose proof (slen_nonneg body).
  assert (m_content_length (resp_base r) = slen body) as R.
  { rewrite P5, L0, W1. destruct (Z.gtb_spec (slen body) 0); lia. }
  rewrite <- !app_assoc, read_head by (rewrite ?P1; try apply prepare_headers_clean; rewrite ?P3; try done; lia).
  rewrite read_body_length with (v := m_content_length (resp_base r)); [done|..|done].
  - apply field_values_none. apply prepare_headers_absent; [done|by rewrite P3].
  - apply field_values_is, prepare_headers_spec; [done|].
    unfold r, prepared_response. by destruct (_ >? 0).
Qed.

Lemma written_ready w ds :
  unsent w -> slen (concat ds) < 2 ^ 63 ->
  ready_writer (write_all ds w) /\ concat (content_buffers (write_all ds w)) = concat ds /\
  w_response (write_all ds w) = w_response w.
Proof.
  intros [Hh Hs Hb Hl B F0 L0 D0 Ln Fi Co] L.
  destruct (write_all_spec ds w B) as (W & C & [K1 K2 K3 K4 K5]);
    [unfold writer_ok; rewrite Hb, Hl; by split|by rewrite Hb|]. rewrite Hb in C.
  split; [|done]. split; rewrite ?K4; congruence || done.
Qed.

(** an answer in chunks is its head, then what a writer without a head sends *)
Lemma read_in_chunks w keep_alive chunks rest body :
  unsent w -> Forall (fun ds => slen (concat ds) < 2 ^ 63) chunks ->
  (forall R r, is_body_allowed R = is_body_allowed (w_response w) ->
   m_headers (resp_base r) = m_headers (resp_base (w_response w)) ->
   m_chunks_supported (resp_base r) = m_chunks_supported (resp_base (w_response w)) ->
   read_body (m_headers (prepare_headers_for_send keep_alive true (resp_base r)))
     (send_chunks keep_alive chunks
        (w <| sending_chunks := true |> <| sent_headers := true |> <| w_response := R |>) ++ rest)
   = Some (body, rest)) ->
  exists r, read_response (send_in_chunks keep_alive chunks w ++ rest) = Some (r, rest) /\
    seen_as keep_alive w body r.
Proof.
  intros U F H. destruct (send_chunks_first keep_alive chunks (w <| sending_chunks := true |>))
    as (R & r & B & P1 & P2 & P3 & P4 & E); [apply U|done|].
  unfold send_in_chunks. rewrite E, response_head_bytes by (rewrite P2; apply U).
  rewrite <- !app_assoc, read_head.
  - rewrite (H R r) by done. eexists. split; [done|]. by apply prepared_seen.
  - rewrite P1. apply U.
  - apply prepare_headers_clean; [rewrite P3; apply U|done].
Qed.

(** C14: A client reads back what a handler wrote.  A reader that follows the
    message format gets the status line, the headers, whether the connection
    stays and exactly the data written, and stops where the response ends: for
    a response sent in one piece by its Content-Length, for any sequence of
    chunks ended by [send_final_chunk], with empty ones among them, by the
    chunked coding; for a client that takes no chunks the same calls make a
    response that the end of the connection delimits. *)
Theorem response_read_back (w : http_response_writer) (keep_alive : bool) (ds : list str)
    (chunks : list (list str)) (rest : str) :
  unsent w -> m_chunks_supported (resp_base (w_response w)) = client_supports_chunks w ->
  slen (concat ds) < 2 ^ 63 -> Forall (fun ds => slen (concat ds) < 2 ^ 63) chunks ->
  (exists r,
     read_response (concat (prepare_write_buffers [] keep_alive false (write_all ds w)).1 ++ rest) = Some (r, rest) /\
     seen_as keep_alive w (concat ds) r) /\
  (client_supports_chunks w = true -> exists r,
     read_response (send_in_chunks keep_alive chunks w ++ rest) = Some (r, rest) /\
     seen_as keep_alive w (concat (concat chunks)) r) /\
  (client_supports_chunks w = false ->
   equal_range (m_headers (resp_base (w_response w))) HEADER_CONTENT_LENGTH = [] -> exists r,
     read_response (send_in_chunks keep_alive chunks w) = Some (r, []) /\
     seen_as keep_alive w (concat (concat chunks)) r).
Proof.
  intros U Su L F. split_and!.
  - destruct (written_ready w ds U L) as (Rw & C & K). destruct (read_ready _ keep_alive Rw) as (r & [] & H).
    exists r. split; [apply H|]. by split; rewrite <- ?C, <- ?K.
  - intros C. apply read_in_chunks; [done..|]. intros R r B H S. rewrite (us_body _ U) in B.
    rewrite send_chunks_bytes by done.
    rewrite <- (map_map (concat (A:=Ascii.ascii)) frame_or_nothing), <- app_assoc, read_body_chunks.
    + by rewrite concat_concat.
    + apply field_values_is, prepare_headers_spec; [done|]. by rewrite S, Su.
    + by apply Forall_map.
  - intros C Lh. rewrite <- (app_nil_r (send_in_chunks _ _ _)). apply read_in_chunks; [done..|].
    intros R r B H S. rewrite (us_body _ U) in B. rewrite send_chunks_bare by done.
    rewrite app_nil_r. apply read_body_rest; apply field_values_none, prepare_headers_absent; try done.
    + by rewrite S, Su, C.
    + rewrite H. apply U.
    + by rewrite H.
Qed.

End Head.

(** ** Examples *)

From S2P Require Import RefUtils.

(** [sample_reply] has a header of its own *)
Definition sample_answer : http_response_writer :=
  sample_reply <| client_supports_chunks := true |>
    <| w_response := on_resp_base (set_chunks_supported true) (w_response sample_reply) |>.

Lemma response_read_back_witness :
  exists r, read_response (send_in_chunks true sample_chunks sample_answer ++ bs "HTTP") = Some (r, bs "HTTP") /\
    seen_line r = bs "HTTP/1.1 200 OK" /\ seen_body r = bs "hello world".
Proof.
  assert (unsent sample_answer) as U
    by (split; try reflexivity; by repeat constructor).
  assert (Forall (fun ds => slen (concat ds) < 2 ^ 63) sample_chunks) as F by (by repeat constructor).
  destruct (response_read_back sample_answer true [] sample_chunks (bs "HTTP") U eq_refl eq_refl F) as (_ & H & _).
  destruct (H eq_refl) as (r & E & [L B _ _]). exists r. split; [exact E|]. split; [exact L|].
  etransitivity; [exact B|]. reflexivity.
Defined.
