(* ===== verification/RoutingTheorems.v ===== *)
(** * Theorems about the server's tables

    [find_submatch] finds the longest registered ancestor of a path; what
    [add_handler] registers is found again; the look-ups of the WebSocket
    tables and registry. *)

From S2P Require Import Prelude.
From S2P Require Import Externals.
From S2P Require Import Strings.
From S2P Require Import Message.
From S2P Require Import Routing.

#[local] Open Scope Z_scope.

(** [k] is [path], or [path] goes on after it with a slash *)
Definition ancestor (k path : str) : Prop := k = path \/ exists t, path = k ++ "/"%char :: t.

Lemma ancestor_refl path : ancestor path path.
Proof. by left. Qed.

Lemma ancestor_length k path : ancestor k path -> (length k <= length path)%nat.
Proof. intros [->|[t ->]]; [done|]. rewrite length_app. lia. Qed.

(** two ways to split a string at a slash, of which one is the last *)
Lemma split_last_slash (a b a' b' : str) :
  a ++ "/"%char :: b = a' ++ "/"%char :: b' -> "/"%char ∉ b' -> ancestor a a'.
Proof.
  intros E N. apply app_eq_inv in E as [(x & -> & E)|(x & -> & E)].
  - destruct x as [|y x]; [rewrite app_nil_r; apply ancestor_refl|].
    injection E as _ E. exfalso. apply N. rewrite E. apply elem_of_app. right. left.
  - destruct x as [|y x]; [rewrite app_nil_r; apply ancestor_refl|].
    injection E as <- _. right. by exists x.
Qed.

(** the next candidate after [st] is the path up to its last slash *)
Lemma ancestor_cut st i k :
  find_last "/" st = Some i -> (ancestor k st <-> k = st \/ ancestor k (take i st)).
Proof.
  intros F. apply find_last_some in F as [E N]. split.
  - intros [->|[t Et]]; [by left|]. right. rewrite E in Et. symmetry in Et.
    by apply split_last_slash in Et.
  - intros [->|H]; [apply ancestor_refl|]. right. rewrite E. destruct H as [->|[t ->]].
    + by eexists.
    + eexists. rewrite <- app_assoc. reflexivity.
Qed.

Lemma ancestor_no_slash st k : find_last "/" st = None -> ancestor k st -> k = st.
Proof.
  intros F [->|[t ->]]; [done|]. apply find_last_none in F. exfalso. apply F.
  apply elem_of_app. right. left.
Qed.

Lemma find_submatch_loop_spec {V} (map : gmap str V) fuel st i :
  (length (substr st 0 i) < fuel)%nat ->
  match find_submatch_loop map fuel st i with
  | Val (Some (k, v)) =>
    ancestor k (substr st 0 i) /\ map !! k = Some v /\
    forall k', ancestor k' (substr st 0 i) -> is_Some (map !! k') -> (length k' <= length k)%nat
  | Val None => forall k', ancestor k' (substr st 0 i) -> map !! k' = None
  | _ => False
  end.
Proof.
  revert st i. induction fuel as [|fuel IH]; intros st i L; [lia|]. cbn [find_submatch_loop].
  set (st1 := substr st 0 i) in *. clearbody st1. clear st i.
  destruct (map !! st1) as [v|] eqn:M1.
  { split; [apply ancestor_refl|]. split; [done|]. intros k' A _. by apply ancestor_length. }
  destruct (find_last "/" st1) as [j|] eqn:F.
  - pose proof (find_last_lt _ _ _ F) as Lt.
    assert (substr st1 0 j = take j st1) as Es by (unfold substr; by rewrite drop_0).
    specialize (IH st1 j). rewrite Es in IH. rewrite length_take in IH.
    destruct (find_submatch_loop map fuel st1 j) as [[[k v]|]|e|f]; try (apply IH; lia).
    + destruct IH as (A & Hm & Hl); [lia|]. split; [by apply (ancestor_cut _ _ _ F); right|].
      split; [done|]. intros k' A' S. apply (ancestor_cut _ _ _ F) in A' as [->|A']; [|by apply Hl].
      rewrite M1 in S. by destruct S.
    + intros k' A'. apply (ancestor_cut _ _ _ F) in A' as [->|A']; [done|]. apply IH; [lia|done].
  - intros k' A'. by apply (ancestor_no_slash _ _ F) in A' as ->.
Qed.

Lemma find_submatch_spec {V : Type} (map : gmap str V) (path : str) :
  match find_submatch map path with
  | Val (Some (k, v)) =>
    ancestor k path /\ map !! k = Some v /\
    forall k', ancestor k' path -> is_Some (map !! k') -> (length k' <= length k)%nat
  | Val None => forall k', ancestor k' path -> map !! k' = None
  | _ => False
  end.
Proof.
  pose proof (find_submatch_loop_spec map (length path + 2) path (length path)) as H.
  assert (substr path 0 (length path) = path) as E by (unfold substr; by rewrite drop_0, firstn_all).
  rewrite E in H. apply H. lia.
Qed.

(** C22: [find_submatch] ends and finds the entry of the longest registered
    ancestor of the path: the path itself or, failing that, the longest prefix
    of it that ends before a slash and is registered; it returns nothing
    exactly when no ancestor is registered. *)
Theorem find_submatch_longest {V : Type} (map : gmap str V) (path : str) :
  match find_submatch map path with
  | Val (Some (k, v)) =>
    ancestor k path /\ map !! k = Some v /\
    forall k', ancestor k' path -> is_Some (map !! k') -> (length k' <= length k)%nat
  | Val None => forall k', ancestor k' path -> map !! k' = None
  | _ => False
  end.
Proof. exact (find_submatch_spec map path). Qed.

Lemma ancestor_prefix k path : ancestor k path <-> k = path \/ k ++ ["/"%char] `prefix_of` path.
Proof.
  split; intros [->|[t ->]]; [by left| |apply ancestor_refl|]; right; exists t;
    by rewrite <- app_assoc.
Qed.

#[export] Instance ancestor_dec k path : Decision (ancestor k path).
Proof.
  destruct (decide (k = path \/ k ++ ["/"%char] `prefix_of` path)) as [H|H];
    [left|right]; by rewrite ancestor_prefix.
Defined.

(** the ancestors of a path are determined by their lengths *)
Lemma ancestor_unique k k' path :
  ancestor k path -> ancestor k' path -> length k = length k' -> k = k'.
Proof.
  assert (forall k, ancestor k path -> k = take (length k) path) as T.
  { intros k0 [->|[t ->]]; [by rewrite firstn_all|]. by rewrite take_app_length. }
  intros A A' E. transitivity (take (length k) path); [by apply T|].
  rewrite E. symmetry. by apply T.
Qed.

(** the specification determines the result *)
Lemma find_submatch_some {V} (map : gmap str V) path k v :
  ancestor k path -> map !! k = Some v ->
  (forall k', ancestor k' path -> is_Some (map !! k') -> (length k' <= length k)%nat) ->
  find_submatch map path = Val (Some (k, v)).
Proof.
  intros A Hm Hl. pose proof (find_submatch_spec map path) as S.
  destruct (find_submatch map path) as [[[k' v']|]|e|f]; try done.
  - destruct S as (A' & Hm' & Hl').
    assert (k' = k) as ->.
    { apply (ancestor_unique _ _ path); try done. apply Nat.le_antisymm; eauto. }
    congruence.
  - rewrite (S k A) in Hm. done.
Qed.

Lemma find_submatch_none {V} (map : gmap str V) path :
  (forall k', ancestor k' path -> map !! k' = None) -> find_submatch map path = Val None.
Proof.
  intros N. pose proof (find_submatch_spec map path) as S.
  destruct (find_submatch map path) as [[[k' v']|]|e|f]; try done.
  destruct S as (A' & Hm' & _). rewrite (N k' A') in Hm'. done.
Qed.

(** one more entry *)
Lemma find_submatch_insert {V} (map : gmap str V) key v path :
  map !! key = None ->
  find_submatch (<[key := v]> map) path =
  match find_submatch map path with
  | Val (Some (k, w)) =>
    if bool_decide (ancestor key path /\ (length k < length key)%nat) then Val (Some (key, v))
    else Val (Some (k, w))
  | r => if bool_decide (ancestor key path) then Val (Some (key, v)) else r
  end.
Proof.
  intros Fresh. pose proof (find_submatch_spec map path) as S.
  destruct (find_submatch map path) as [[[k w]|]|e|f]; try done; case_bool_decide as B.
  - destruct S as (A & Hm & Hl), B as [Ak Lk]. apply find_submatch_some; [done|apply lookup_insert_eq|].
    intros k' A' [x Hx]. apply lookup_insert_Some in Hx as [[-> _]|[_ Hx]]; [done|].
    assert (length k' <= length k)%nat by (apply Hl; eauto). lia.
  - destruct S as (A & Hm & Hl). assert (key <> k) as N by congruence.
    apply find_submatch_some; [done|by rewrite lookup_insert_ne|].
    intros k' A' [x Hx]. apply lookup_insert_Some in Hx as [[<- _]|[_ Hx]]; [|apply Hl; eauto].
    destruct (decide (length k < length key)%nat); [exfalso; by apply B|lia].
  - apply find_submatch_some; [done|apply lookup_insert_eq|].
    intros k' A' [x Hx]. apply lookup_insert_Some in Hx as [[-> _]|[_ Hx]]; [done|].
    rewrite S in Hx; done.
  - apply find_submatch_none. intros k' A'. rewrite lookup_insert_ne by congruence. by apply S.
Qed.

Section Handlers.
Context `{HT : HandlerTypes}.

(** [add_handler] throws exactly when the method is none of the six or the
    resource, without its trailing slash, is already registered for the
    method's map; GET and HEAD share one map. *)
Lemma add_handler_throws (method resource : str) (h : request_callback) (s : http_server) :
  (exists e, add_handler method resource h s = Exn e) <->
  method ∉ [REQUEST_METHOD_GET; REQUEST_METHOD_HEAD; REQUEST_METHOD_POST; REQUEST_METHOD_PUT;
            REQUEST_METHOD_DELETE; REQUEST_METHOD_OPTIONS] \/
  exists m, select_map method = Val m /\
            is_Some (handlers s m !! strip_trailing_slash resource).
Proof.
  assert (method ∈ [REQUEST_METHOD_GET; REQUEST_METHOD_HEAD; REQUEST_METHOD_POST;
             REQUEST_METHOD_PUT; REQUEST_METHOD_DELETE; REQUEST_METHOD_OPTIONS] <->
          exists m, select_map method = Val m) as Sel.
  { unfold select_map, choose_map_by_method, str_eqb. repeat case_bool_decide; cbn [orb];
      rewrite !elem_of_cons, elem_of_nil; naive_solver. }
  assert ((forall m, select_map method <> Val m) -> select_map method = Exn ExnStd) as Err.
  { unfold select_map, choose_map_by_method. repeat case_match; naive_solver. }
  unfold add_handler, emplace_in. split.
  - intros [e E]. destruct (select_map method) as [m|e'|f] eqn:Es.
    + right. exists m. split; [done|]. destruct (_ !! _); [by eexists|done].
    + left. rewrite Sel. intros [m Hm]. done.
    + done.
  - intros [N|(m & Es & [h' Hh])].
    + rewrite Err; [by eexists|]. intros m Hm. apply N, Sel. eauto.
    + rewrite Es, Hh. by eexists.
Qed.

(** C39: Registering a handler changes the dispatch exactly as documented.
    [add_handler] throws exactly when the method is none of the six or the
    resource, without its trailing slash, is already registered for the
    method's map (GET and HEAD share one).  Otherwise a request whose method
    selects the map of [method] and whose path has the registered resource as
    an ancestor goes to the new handler unless a longer ancestor is
    registered, and every other request goes where it went before. *)
Theorem add_handler_dispatch (method resource : str) (h : request_callback) (s : http_server) :
  let key := strip_trailing_slash resource in
  let registered := exists m, select_map method = Val m /\ is_Some (handlers s m !! key) in
  match add_handler method resource h s with
  | Exn _ =>
    method ∉ [REQUEST_METHOD_GET; REQUEST_METHOD_HEAD; REQUEST_METHOD_POST; REQUEST_METHOD_PUT;
              REQUEST_METHOD_DELETE; REQUEST_METHOD_OPTIONS] \/ registered
  | Val s' =>
    ~ registered /\
    exists m, select_map method = Val m /\
    forall m' path,
      find_submatch (handlers s' m') path =
      if decide (m' = m) then
        match find_submatch (handlers s m') path with
        | Val (Some (k, w)) =>
          if bool_decide (ancestor key path /\ (length k < length key)%nat)
          then Val (Some (key, h)) else Val (Some (k, w))
        | r => if bool_decide (ancestor key path) then Val (Some (key, h)) else r
        end
      else find_submatch (handlers s m') path
  | Fault _ => False
  end.
Proof.
  cbv zeta. destruct (add_handler method resource h s) as [s'|e|f] eqn:E.
  - revert E. unfold add_handler, emplace_in. destruct (select_map method) as [m|e|f]; try done.
    destruct (handlers s m !! strip_trailing_slash resource) eqn:Fresh; [done|]. intros [= <-].
    split; [intros (m' & [= <-] & [w W]); congruence|].
    exists m. split; [done|]. intros m' path. cbn [handlers set_field].
    destruct (decide (m' = m)) as [->|]; [|done]. by apply find_submatch_insert.
  - apply (add_handler_throws method resource h s). by exists e.
  - revert E. unfold add_handler, emplace_in, select_map, choose_map_by_method.
    by repeat case_match.
Qed.

End Handlers.

(** ** The registry of WebSocket connections *)

Definition wanted (dest_ids : list str) (e : ws_entry) : bool :=
  bool_decide (dest_ids = []) || bool_decide (we_id e ∈ dest_ids).

Lemma find_ws_loop_ok alive dest_ids range fuel vec kept :
  Forall (fun e => wanted dest_ids e = true) range -> (length range < fuel)%nat ->
  find_ws_loop alive dest_ids fuel range vec kept =
  Val (vec ++ map we_conn (filter (fun e => alive (we_conn e) = true) range),
       kept ++ filter (fun e => alive (we_conn e) = true) range).
Proof.
  intros F. revert fuel vec kept. induction F as [|e range W _ IH]; intros fuel vec kept L;
    (destruct fuel as [|fuel]; [cbn in L; lia|]).
  - cbn. by rewrite !app_nil_r.
  - cbn [find_ws_loop]. change (_ || _) with (wanted dest_ids e). rewrite W, filter_cons.
    cbn in L. destruct (alive (we_conn e)) eqn:A; case_decide; try congruence;
      rewrite IH by lia; cbn; by rewrite <- ?app_assoc.
Qed.

Lemma find_ws_loop_stuck alive dest_ids range fuel vec kept :
  Exists (fun e => wanted dest_ids e = false) range ->
  find_ws_loop alive dest_ids fuel range vec kept = Fault OutOfFuel.
Proof.
  revert range vec kept. induction fuel as [|fuel IH]; intros range vec kept X; [done|].
  destruct X as [e range W|e range X]; cbn [find_ws_loop];
    change (_ || _) with (wanted dest_ids e).
  - rewrite W. apply IH. by left.
  - destruct (wanted dest_ids e); [destruct (alive (we_conn e))|]; apply IH; try done. by right.
Qed.

Lemma filter_ext_elem {A} (P Q : A -> Prop) `{!forall x, Decision (P x), !forall x, Decision (Q x)}
    (l : list A) :
  (forall x, x ∈ l -> P x <-> Q x) -> filter P l = filter Q l.
Proof.
  induction l as [|x l IH]; intros E; [done|]. rewrite !filter_cons.
  assert (P x <-> Q x) by (apply E; left).
  rewrite IH by (intros y Hy; apply E; by right). repeat case_decide; tauto.
Qed.

(** A broadcast finds the open connections of its path and ends, or does
    not end at all: when no identifiers are given, or the identifiers of all
    connections registered for the path are among them, [find_ws_conns]
    returns the connections that still exist and drops the expired ones of
    the path from the registry; as soon as one registered identifier is not
    among those given, its loop never reaches the end, whatever the fuel. *)
Lemma find_ws_conns_ends alive registry path dest_ids :
  (Forall (fun e => wanted dest_ids e = true) (registry_range registry path) ->
   find_ws_conns alive registry path dest_ids (length registry + 1) =
   Val (map we_conn (filter (fun e => alive (we_conn e) = true) (registry_range registry path)),
        filter (fun e => we_path e <> path \/ alive (we_conn e) = true) registry)) /\
  (Exists (fun e => wanted dest_ids e = false) (registry_range registry path) ->
   forall fuel, find_ws_conns alive registry path dest_ids fuel = Fault OutOfFuel).
Proof.
  unfold find_ws_conns. split.
  - intros F. rewrite find_ws_loop_ok; [|done|].
    2:{ pose proof (length_filter (fun e => we_path e = path) registry). unfold registry_range. lia. }
    cbn [app]. do 2 f_equal. apply filter_ext_elem. intros e He.
    rewrite list_elem_of_filter. unfold registry_range. rewrite list_elem_of_filter.
    destruct (decide (we_path e = path)); tauto.
  - intros X fuel. by rewrite find_ws_loop_stuck.
Qed.

(** ** Examples *)

#[export] Instance sample_handler_types : HandlerTypes := {|
  request_handler := nat; payload_handler_creator := nat; websocket_handler := nat
|}.

Definition sample_handler : request_callback :=
  user_request_handler (HT := sample_handler_types) 1%nat.

Definition sample_server : res http_server :=
  add_handler (bs "GET") (bs "/a/") sample_handler new_http_server.

Lemma add_handler_dispatch_witness :
  exists s' m, sample_server = Val s' /\ select_map (bs "GET") = Val m /\
    find_submatch (handlers s' m) (bs "/a/b/c") = Val (Some (bs "/a", sample_handler)).
Proof.
  pose proof (add_handler_dispatch (bs "GET") (bs "/a/") sample_handler new_http_server) as D.
  cbv zeta in D. fold sample_server in D.
  destruct sample_server as [s'|e|f] eqn:E; [|discriminate|discriminate].
  destruct D as (_ & m & Hm & D). exists s', m. split; [reflexivity|]. split; [exact Hm|].
  rewrite (D m (bs "/a/b/c")). injection Hm as <-. vm_compute. reflexivity.
Defined.

Lemma find_ws_conns_ends_witness :
  let registry := [mk_ws_entry (bs "/w") (bs "x") 1; mk_ws_entry (bs "/w") (bs "y") 2] in
  find_ws_conns (fun n => Nat.eqb n 1) registry (bs "/w") [] 3
  = Val ([1%nat], [mk_ws_entry (bs "/w") (bs "x") 1]) /\
  forall fuel, find_ws_conns (fun n => Nat.eqb n 1) registry (bs "/w") [bs "x"] fuel = Fault OutOfFuel.
Proof.
  cbv zeta. split.
  - refine (eq_trans (proj1 (find_ws_conns_ends (fun n => Nat.eqb n 1) _ (bs "/w") []) _) eq_refl).
    repeat constructor.
  - apply find_ws_conns_ends. right. left. vm_compute. reflexivity.
Defined.
