(* ===== verification/SchedulerTheorems.v ===== *)
(** * Theorems about the scheduler

    A history is the list of the calls that have taken effect, under the
    scheduler's mutex, in order; a call of [shutdown] that has to wait has no
    effect yet.  [add_active_user] is a call of [startup], when it has found the
    scheduler not running, and later a step of its own that counts the user:
    the calls of other threads may come in between. *)

From S2P Require Import Prelude.
From S2P Require Import Scheduler.
From stdpp Require Import list.

#[local] Open Scope Z_scope.

Inductive sched_call :=
| call_startup
| call_keep_running
| call_count_active_user      (** the second half of [add_active_user] *)
| call_remove_active_user
| call_shutdown (current : option nat).

Definition run_call (s : scheduler) (c : sched_call) : res scheduler :=
  match c with
  | call_startup => Val (startup s)
  | call_keep_running => Val (keep_running s)
  | call_count_active_user => Val (count_active_user s)
  | call_remove_active_user => Val (remove_active_user s).2
  | call_shutdown current => default (Val s) (shutdown current s)
  end.

Fixpoint run_calls (h : list sched_call) (s : scheduler) : res scheduler :=
  match h with
  | [] => Val s
  | c :: h => match run_call s c with Val s' => run_calls h s' | o => o end
  end.

(** the users a call adds *)
Definition users_added (c : sched_call) : Z :=
  match c with call_count_active_user => 1 | call_remove_active_user => -1 | _ => 0 end.

Definition users (h : list sched_call) : Z := fold_right (fun c n => users_added c + n) 0 h.

(** the well-formed states *)
Record scheduler_wf (s : scheduler) : Prop := {
  wf_users : 0 <= active_users s < 2 ^ 32;
  wf_running : running s = true -> length (thread_pool s) = Z.to_nat (num_threads s);
  wf_stopped : running s = false -> thread_pool s = [];
  wf_service : running s = true -> service_stopped s = false;
  wf_threads : NoDup (thread_pool s ++ joined s);
  wf_fresh : forall t, t ∈ thread_pool s ++ joined s -> (t < next_thread s)%nat;
}.

Lemma wrap32_range x : 0 <= wrap 32 x < 2 ^ 32.
Proof. unfold wrap. apply Z.mod_pos_bound. lia. Qed.

Lemma wrap32_add x y : wrap 32 (wrap 32 x + y) = wrap 32 (x + y).
Proof. unfold wrap. apply Zplus_mod_idemp_l. Qed.

Lemma startup_wf s : scheduler_wf s -> scheduler_wf (startup s).
Proof.
  intros W. unfold startup. destruct (running s) eqn:R; [done|]. destruct W.
  pose proof (wf_stopped0 R) as E. rewrite E in *. cbn [app] in *.
  constructor; cbn; rewrite ?E; cbn [app]; try done.
  - intros _. by rewrite length_seq.
  - apply NoDup_app. split_and!; [apply NoDup_seq| |done].
    intros t H1%elem_of_seq H2. specialize (wf_fresh0 t H2). lia.
  - intros t [H%elem_of_seq|H]%elem_of_app; [lia|]. specialize (wf_fresh0 t H). lia.
Qed.

Lemma users_wf s x : scheduler_wf s -> scheduler_wf (s <| active_users := wrap 32 x |>).
Proof. intros []. constructor; try done. apply wrap32_range. Qed.

Lemma shutdown_wait current s :
  running s = true -> active_users s > 0 -> shutdown current s = None.
Proof. intros R U. unfold shutdown. rewrite R. by destruct (Z.gtb_spec (active_users s) 0); [|lia]. Qed.

(** what [shutdown] does when it goes on: the process is terminated exactly
    when the caller is a thread of the pool *)
Definition stopped (s : scheduler) : scheduler :=
  s <| running := false |> <| service_stopped := false |> <| thread_pool := [] |>
    <| joined := joined s ++ thread_pool s |>.

(** the caller is a thread of the pool *)
Definition in_pool (current : option nat) (s : scheduler) : bool :=
  match current with Some t => bool_decide (t ∈ thread_pool s) | None => false end.

Lemma in_pool_true current s :
  in_pool current s = true <-> exists t, current = Some t /\ t ∈ thread_pool s.
Proof.
  destruct current as [t|]; cbn; [|split; [done|by intros (t & E & _)]].
  rewrite bool_decide_eq_true. split; [eauto|]. by intros (u & [= <-] & H).
Qed.

Lemma in_pool_false current s :
  (forall t, current = Some t -> t ∉ thread_pool s) -> in_pool current s = false.
Proof. intros N. apply not_true_is_false. intros (t & E & H)%in_pool_true. by apply (N t). Qed.

Lemma stop_everything_eq current s :
  NoDup (thread_pool s ++ joined s) ->
  stop_everything current (s <| running := false |>) =
  if in_pool current s then Fault Terminated
  else Val (stopped s).
Proof.
  intros N. apply NoDup_app in N as (_ & D & _).
  unfold stop_everything, clear_threads. cbn [thread_pool joined stop_threads set_field].
  destruct (in_pool current s) eqn:H.
  - apply in_pool_true in H as (t & -> & H). destruct (forallb _ _) eqn:F; [exfalso|done].
    rewrite forallb_forall in F. specialize (F t (proj1 (list_elem_of_In _ _) H)).
    apply bool_decide_eq_true in F. apply elem_of_app in F as [F|F]; [by apply (D t)|].
    by apply list_elem_of_filter in F as [F _].
  - assert (filter (fun t => Some t <> current) (thread_pool s) = thread_pool s) as E.
    { apply not_true_iff_false in H. rewrite in_pool_true in H. clear D. induction (thread_pool s) as [|t l IH]; [done|].
      rewrite filter_cons_True.
      - f_equal. apply IH. intros (u & E & Hu). apply H. exists u. split; [done|by right].
      - intros E. apply H. exists t. split; [done|by left]. }
    unfold stopped, stop_threads. cbn. rewrite !E, (proj2 (forallb_forall _ _)); [done|].
    intros t Ht. apply bool_decide_eq_true.
    apply elem_of_app. right. by apply list_elem_of_In.
Qed.

Lemma not_running_same s : running s = false -> s = s <| running := false |>.
Proof. destruct s. cbn. by intros ->. Qed.

Lemma shutdown_goes_on current s :
  scheduler_wf s -> (running s = true -> active_users s = 0) ->
  shutdown current s =
  Some (if in_pool current s then Fault Terminated
        else Val (stopped s)).
Proof.
  intros W U. pose proof (stop_everything_eq current s (wf_threads s W)) as E. unfold shutdown.
  destruct (running s) eqn:R.
  - by rewrite U, E by done.
  - by rewrite (not_running_same s R) at 1; rewrite E.
Qed.

Lemma shutdown_cases current s :
  scheduler_wf s ->
  (shutdown current s = None /\ running s = true /\ active_users s > 0) \/
  (shutdown current s = Some (Val (stopped s)) /\ (forall t, current = Some t -> t ∉ thread_pool s)) \/
  (shutdown current s = Some (Fault Terminated) /\ running s = true /\ active_users s = 0 /\
   exists t, current = Some t /\ t ∈ thread_pool s).
Proof.
  intros W. destruct (decide (running s = true /\ active_users s > 0)) as [[R U]|N].
  - left. split; [by apply shutdown_wait|done].
  - assert (running s = true -> active_users s = 0) as U.
    { intros R. pose proof (wf_users s W). destruct (decide (active_users s > 0)); [tauto|lia]. }
    right. rewrite (shutdown_goes_on current s W U).
    destruct (in_pool current s) eqn:H; [right|left].
    + apply in_pool_true in H as (t & E & H). destruct (running s) eqn:R.
      * split_and!; eauto.
      * rewrite (wf_stopped s W R) in H. by apply not_elem_of_nil in H.
    + split; [done|]. intros t E Ht. apply not_true_iff_false in H. apply H, in_pool_true. by exists t.
Qed.

(** every thread that was started is accounted for *)
Definition accounted (s : scheduler) : Prop :=
  forall t, (t < next_thread s)%nat -> t ∈ thread_pool s ++ joined s.

(** the invariant of a history *)
Definition scheduler_inv (s : scheduler) : Prop := scheduler_wf s /\ accounted s.

Lemma new_inv n : scheduler_inv (new_scheduler n).
Proof.
  split; [|intros t L; cbn in L; lia].
  constructor; try done; try apply NoDup_nil_2. intros t H. by apply not_elem_of_nil in H.
Qed.

Lemma stopped_inv s : scheduler_inv s -> scheduler_inv (stopped s).
Proof.
  intros [[] A]. split.
  - constructor; try done; cbn.
    + rewrite Permutation_app_comm. done.
    + intros t H. apply wf_fresh0. rewrite !elem_of_app in *. tauto.
  - intros t L. specialize (A t L). cbn. rewrite !elem_of_app in *. tauto.
Qed.

Lemma startup_accounted s : accounted s -> accounted (startup s).
Proof.
  intros A. unfold startup. destruct (running s) eqn:R; [done|].
  intros t L. cbn in L |- *. unfold keep_running in *. cbn in *.
  destruct (decide (t < next_thread s)%nat) as [L'|L'].
  - specialize (A t L'). rewrite !elem_of_app in *. tauto.
  - rewrite <- app_assoc, !elem_of_app, elem_of_seq. lia.
Qed.

(** the calls that return, and the one that does not *)
Lemma run_call_inv s c :
  scheduler_inv s ->
  match run_call s c with
  | Val s' => scheduler_inv s' /\ active_users s' = wrap 32 (active_users s + users_added c)
  | Exn _ => False
  | Fault f => f = Terminated /\ running s = true /\ active_users s = 0 /\
               exists t, c = call_shutdown (Some t) /\ t ∈ thread_pool s
  end.
Proof.
  intros [W A]. assert (active_users s = wrap 32 (active_users s + 0)) as E
    by (rewrite Z.add_0_r; symmetry; apply Z.mod_small, W).
  destruct c; cbn [run_call users_added].
  - split; [split; [by apply startup_wf|by apply startup_accounted]|].
    rewrite <- E. unfold startup, start_threads, keep_running. by repeat case_match.
  - split; [|rewrite <- E; unfold keep_running; by case_match]. split.
    + unfold keep_running. destruct W. by destruct (running s) eqn:R; constructor; cbn; rewrite ?R.
    + unfold keep_running. by destruct (running s).
  - split; [|done]. by split; [apply users_wf|].
  - split; [|done]. by split; [apply users_wf|].
  - destruct (shutdown_cases current s W) as [(-> & _)|[(-> & _)|(-> & R & U & t & -> & H)]]; cbn [default].
    + by split.
    + split; [by apply stopped_inv|done].
    + split_and!; eauto.
Qed.

(** what a history leads to *)
Definition history_outcome (n0 : scheduler) (h : list sched_call) (o : res scheduler) : Prop :=
  match o with
  | Val s => scheduler_inv s /\ active_users s = wrap 32 (active_users n0 + users h)
  | Exn _ => False
  | Fault f =>
    f = Terminated /\
    exists h1 t h2 s1, h = h1 ++ call_shutdown (Some t) :: h2 /\ run_calls h1 n0 = Val s1 /\
      running s1 = true /\ active_users s1 = 0 /\ t ∈ thread_pool s1
  end.

Lemma run_calls_outcome h : forall s, scheduler_inv s -> history_outcome s h (run_calls h s).
Proof.
  induction h as [|c h IH]; intros s J; cbn [run_calls].
  - split; [done|]. cbn. rewrite Z.add_0_r. symmetry. apply Z.mod_small, J.
  - pose proof (run_call_inv s c J) as P. destruct (run_call s c) as [s'|e|f] eqn:E; [|done|].
    + destruct P as [J' U]. specialize (IH s' J'). destruct (run_calls h s') as [s2|e|f]; [|done|].
      * destruct IH as [J2 U2]. split; [done|]. rewrite U2, U, wrap32_add. f_equal. cbn [users fold_right]. unfold users. lia.
      * destruct IH as (-> & h1 & t & h2 & s1 & -> & E1 & Q). split; [done|].
        exists (c :: h1), t, h2, s1. split; [done|]. split; [|done]. cbn [run_calls]. by rewrite E.
    + destruct P as (-> & R & U & t & -> & H). split; [done|].
      exists [], t, h, s. by split_and!.
Qed.

Lemma run_calls_app h1 h2 s :
  run_calls (h1 ++ h2) s = match run_calls h1 s with Val s' => run_calls h2 s' | o => o end.
Proof.
  revert s. induction h1 as [|c h1 IH]; intros s; [done|]. cbn [run_calls app].
  destruct (run_call s c); [apply IH|done..].
Qed.

(** C33: The scheduler is well-formed after any history of calls that lets the
    process live: the number of users is that of the history, as a 32-bit
    number; while it runs it has the threads it was made for and its service is
    not stopped, and while it does not run it has none; no thread is joined
    twice, and every thread it ever started is running or has been joined.  The
    process is terminated by exactly one kind of call: a [shutdown] by a thread
    of the pool itself that does not have to wait, because [stop_threads] does
    not join the caller and [thread_pool.clear()] destroys its [std::thread]. *)
Theorem scheduler_well_formed (n : Z) (h : list sched_call) :
  match run_calls h (new_scheduler n) with
  | Val s => scheduler_wf s /\ accounted s /\ active_users s = wrap 32 (users h)
  | Exn _ => False
  | Fault f => f = Terminated
  end /\
  (run_calls h (new_scheduler n) = Fault Terminated <->
   exists h1 t h2 s1, h = h1 ++ call_shutdown (Some t) :: h2 /\
     run_calls h1 (new_scheduler n) = Val s1 /\
     running s1 = true /\ active_users s1 = 0 /\ t ∈ thread_pool s1).
Proof.
  pose proof (run_calls_outcome h (new_scheduler n) (new_inv n)) as O. split; [|split].
  - destruct (run_calls h _) as [s|e|f]; [|done|apply O]. destruct O as [[W A] U]. by split_and!.
  - intros E. rewrite E in O. apply O.
  - intros (h1 & t & h2 & s1 & -> & E & R & U & H). rewrite run_calls_app, E. cbn [run_calls run_call].
    pose proof (run_calls_outcome h1 (new_scheduler n) (new_inv n)) as O1. rewrite E in O1.
    destruct O1 as [[W _] _]. rewrite (shutdown_goes_on (Some t) s1 W) by done.
    by rewrite (proj2 (in_pool_true (Some t) s1)) by by exists t.
Qed.

Lemma remove_users k s :
  Z.of_nat k <= active_users s < 2 ^ 32 ->
  let s' := Nat.iter k (fun s => (remove_active_user s).2) s in
  active_users s' = active_users s - Z.of_nat k /\ running s' = running s.
Proof.
  induction k as [|k IH]; intros L; [cbn; split; [lia|done]|].
  destruct IH as [U R]; [lia|]. cbn [Nat.iter]. 
  change (Nat.iter (S k) (fun s => (remove_active_user s).2) s)
    with ((remove_active_user (Nat.iter k (fun s => (remove_active_user s).2) s)).2).
  set (s1 := Nat.iter k _ s) in *. split; [|done]. cbn. rewrite U. unfold wrap.
  rewrite Z.mod_small; lia.
Qed.

Lemma remove_users_wf k s :
  scheduler_wf s ->
  let s' := Nat.iter k (fun s => (remove_active_user s).2) s in
  scheduler_wf s' /\ thread_pool s' = thread_pool s /\ joined s' = joined s.
Proof.
  intros W. induction k as [|k (W' & P & J)]; [done|]. cbn [Nat.iter].
  change (Nat.iter (S k) (fun s => (remove_active_user s).2) s)
    with ((remove_active_user (Nat.iter k (fun s => (remove_active_user s).2) s)).2).
  split; [by apply users_wf|]. by split.
Qed.

(** C34: [shutdown] waits for the users of a running scheduler and for nothing
    else: it is still waiting when fewer of them have left than there were, and
    it goes on when the last one has left.  Called by a thread that is not of
    the pool, it then returns with the scheduler stopped and all the threads
    joined (each of which is taken to end), and [join] returns; one [remove]
    too many wraps the counter around, and it would wait again.  Called by a
    thread of the pool, it terminates the process. *)
Theorem shutdown_waits_for_users (current : option nat) (s : scheduler) (k : nat) :
  scheduler_wf s -> running s = true -> Z.of_nat k <= active_users s ->
  let s' := Nat.iter k (fun s => (remove_active_user s).2) s in
  (shutdown current s' = None <-> Z.of_nat k < active_users s) /\
  (Z.of_nat k = active_users s -> (forall t, current = Some t -> t ∉ thread_pool s) ->
     exists s'', shutdown current s' = Some (Val s'') /\
       running s'' = false /\ thread_pool s'' = [] /\ scheduler_join s'' = Some s'' /\
       joined s'' = joined s ++ thread_pool s /\
       shutdown current (startup (remove_active_user s'').2) = None) /\
  (forall t, Z.of_nat k = active_users s -> current = Some t -> t ∈ thread_pool s ->
     shutdown current s' = Some (Fault Terminated)).
Proof.
  intros W R K s'. destruct (remove_users k s) as [U R']; [pose proof (wf_users s W); lia|].
  destruct (remove_users_wf k s W) as (W' & P & J). fold s' in U, R', W', P, J. clearbody s'.
  split_and!.
  - destruct (decide (Z.of_nat k < active_users s)) as [L|L]; split; try done.
    + intros _. apply shutdown_wait; [congruence|lia].
    + rewrite shutdown_goes_on by (done || lia). done.
  - intros E N. exists (stopped s'). rewrite shutdown_goes_on by (done || lia).
    rewrite in_pool_false by (by rewrite P).
    split_and!; try done; [cbn; congruence|].
    assert (active_users s' = 0) as U0 by lia. apply shutdown_wait; [done|].
    unfold startup, start_threads, keep_running. cbn -[wrap]. by rewrite U0.
  - intros t E -> H. rewrite shutdown_goes_on by (done || lia).
    by rewrite (proj2 (in_pool_true (Some t) s')) by (exists t; by rewrite P).
Qed.

(** a scheduler of two threads with a user *)
Definition sample_scheduler : scheduler := add_active_user (new_scheduler 2).

Lemma sample_scheduler_wf : scheduler_wf sample_scheduler.
Proof. apply users_wf, startup_wf, new_inv. Qed.

Lemma shutdown_waits_for_users_witness :
  shutdown None sample_scheduler = None /\
  (exists s, shutdown None (remove_active_user sample_scheduler).2 = Some (Val s)
     /\ thread_pool s = [] /\ joined s = [0%nat; 1%nat]) /\
  shutdown (Some 1%nat) (remove_active_user sample_scheduler).2 = Some (Fault Terminated).
Proof.
  split_and!.
  - apply (shutdown_waits_for_users None sample_scheduler 0 sample_scheduler_wf);
      reflexivity || (vm_compute; congruence).
  - destruct (shutdown_waits_for_users None sample_scheduler 1 sample_scheduler_wf)
      as (_ & H & _); [reflexivity|vm_compute; congruence|].
    destruct H as (s & E & _ & P & _ & J & _); [reflexivity|done|]. exists s.
    split; [exact E|]. split; [exact P|exact J].
  - destruct (shutdown_waits_for_users (Some 1%nat) sample_scheduler 1 sample_scheduler_wf)
      as (_ & _ & H); [reflexivity|vm_compute; congruence|].
    apply (H 1%nat); [reflexivity|reflexivity|]. apply list_elem_of_In. vm_compute. auto.
Defined.
