(* ===== verification/ParserWorld.v ===== *)
(** * What parsing does to the world

    The parser acts on the world only through the payload handler and the
    hook: a relation that both respect holds between the worlds before and
    after any of its operations. *)

From S2P Require Import Prelude.
From S2P Require Import Externals.
From S2P Require Import Multimap.
From S2P Require Import Strings.
From S2P Require Import Message.
From S2P Require Import Request.
From S2P Require Import ParserState.
From S2P Require Import HeaderParser.
From S2P Require Import BodyParser.
From S2P Require Import Parser.
From S2P Require Import BodyProofs.

Section World.
Context `{SU : StaticlibUtils, MP : MultimapPolicy, PE : PayloadEnv}.
Context (R : world -> world -> Prop) `{PR : !PreOrder R}.
Context (run_R : forall h d w, R w (run_handler h d w).2).

Definition in_world {A} (m : M pstate A) : Prop := forall s, R (ps_world s) (ps_world (m s).2).

Lemma in_world_ret {A} (a : A) : in_world (ret a).
Proof. intros s. reflexivity. Qed.

Lemma in_world_throw {A} e : in_world (throw (A:=A) e).
Proof. intros s. reflexivity. Qed.

Lemma in_world_crash {A} f : in_world (crash (A:=A) f).
Proof. intros s. reflexivity. Qed.

Lemma in_world_gets {A} (f : pstate -> A) : in_world (gets f).
Proof. intros s. reflexivity. Qed.

Lemma in_world_modify f : (forall s, ps_world (f s) = ps_world s) -> in_world (modify f).
Proof. intros E s. cbn. rewrite E. reflexivity. Qed.

Lemma in_world_bind {A B} (m : M pstate A) (k : A -> M pstate B) :
  in_world m -> (forall a, in_world (k a)) -> in_world (bind m k).
Proof.
  intros H K s. specialize (H s). unfold bind. destruct (m s) as [[a|e|f] s1]; cbn in *; try done.
  etransitivity; [exact H|apply K].
Qed.

Lemma in_world_try_catch {A} c (m h : M pstate A) :
  in_world m -> in_world h -> in_world (try_catch c m h).
Proof.
  intros H K s. specialize (H s). unfold try_catch.
  destruct (m s) as [[a|e|f] s1]; cbn in *; try done.
  destruct (c e); cbn; [|done]. etransitivity; [exact H|apply K].
Qed.

Lemma in_world_if {A} (b : bool) (m1 m2 : M pstate A) :
  in_world m1 -> in_world m2 -> in_world (if b then m1 else m2).
Proof. by destruct b. Qed.

Lemma in_world_try_message f : in_world (try_message f).
Proof. intros s. unfold try_message. destruct (f _); cbn; reflexivity. Qed.

Lemma in_world_call_handler h d : in_world (call_handler h d).
Proof. intros s. unfold call_handler. specialize (run_R h d (ps_world s)).
  by destruct (run_handler h d (ps_world s)) as [r w]. Qed.

Lemma in_world_run_parse_headers : in_world run_parse_headers.
Proof.
  intros s. unfold run_parse_headers. destruct (parse_headers _ _ _) as [[[rc p] m] ec].
  cbn. reflexivity.
Qed.

Lemma chunk_step_world c buf p ch w :
  match chunk_step c buf p ch w with
  | CBreak _ _ _ w' | CTrue _ _ _ w' | CFalse _ _ _ w' | CStop _ _ _ w' => R w w'
  end.
Proof.
  unfold chunk_step. destruct (m_chunked_content_parse_state p);
    try (unfold_chunk_step; repeat (case_match; simplify_eq/=); reflexivity).
  unfold step_chunk, end_of_chunk.
  destruct (m_bytes_read_in_current_chunk p <? m_size_of_current_chunk p); [|reflexivity].
  destruct (m_payload_handler p) as [h|];
    [|destruct (slen ch <? m_max_content_length p); reflexivity].
  match goal with |- context [run_handler h ?d w] =>
    specialize (run_R h d w); destruct (run_handler h d w) as [[] w'] end; exact run_R.
Qed.

Lemma chunks_loop_world buf n p ch w : R w (cs_world (chunks_loop buf n p ch w)).
Proof.
  remember (length buf) as len eqn:Hl. revert buf Hl n p ch w.
  induction len as [len IH] using lt_wf_ind; intros [|c buf] -> n p ch w; [reflexivity|].
  cbn [chunks_loop]. pose proof (chunk_step_world c (c :: buf) p ch w) as S.
  destruct (chunk_step c (c :: buf) p ch w) as [sk p1 ch1 w1|[] p1 ch1 w1|? ? ? ?|? ? ? ?];
    try exact S.
  etransitivity; [exact S|]. eapply IH; [|reflexivity].
  rewrite dropl_drop, length_drop. cbn. lia.
Qed.

Lemma in_world_parse_chunks : in_world parse_chunks.
Proof.
  intros s. unfold parse_chunks.
  set (p := _ <| m_bytes_last_read := 0 |>).
  pose proof (chunks_loop_world (m_read p) 0 p (m_chunk_cache (req_base (ps_request s))) (ps_world s)) as L.
  destruct (chunks_loop _ _ _ _ _) as [[rc|e|f] [ev|] rest nread p' ch w]; exact L.
Qed.

Ltac in_world_step :=
  first
    [ apply in_world_ret | apply in_world_throw | apply in_world_crash | apply in_world_gets
    | apply in_world_try_message | apply in_world_call_handler | apply in_world_run_parse_headers
    | apply in_world_parse_chunks
    | apply in_world_modify; intros ?; reflexivity
    | apply in_world_bind; [|intros ?]
    | apply in_world_try_catch
    | progress cbv beta zeta
    | case_match ].
Ltac in_world := repeat in_world_step.

Lemma in_world_consume_content : in_world consume_content.
Proof. unfold consume_content, memcpy_content, on_parser. in_world. Qed.

Lemma in_world_consume_content_as_next_chunk : in_world consume_content_as_next_chunk.
Proof.
  unfold consume_content_as_next_chunk, on_parser, on_message, on_request. in_world.
Qed.

Lemma in_world_finish : in_world finish.
Proof.
  unfold finish, finish_rest, finish_form_data, concatenate_unless_handled, on_message, on_request.
  in_world.
Qed.

Section Hook.
Context (hook : hook_type).
Context (hook_R : forall req ec rc w, R w (he_world (hook req ec rc w).2)).

Lemma in_world_call_hook rc : in_world (call_hook hook rc).
Proof.
  intros s. unfold call_hook. specialize (hook_R (ps_request s) (ps_ec s) rc (ps_world s)).
  by destruct (hook _ _ _ _) as [r e].
Qed.

Lemma in_world_parse_iteration : in_world (parse_iteration hook).
Proof.
  unfold parse_iteration, iterate_headers, iterate_chunks, iterate_content,
    iterate_content_no_length, finish_header_parsing, choose_payload_state, last_read,
    on_parser, on_message, on_request.
  repeat first [ apply in_world_call_hook | apply in_world_consume_content
               | apply in_world_consume_content_as_next_chunk | in_world_step ].
Qed.

Lemma in_world_parse_loop fuel total : in_world (parse_loop hook fuel total).
Proof.
  revert total. induction fuel as [|fuel IH]; intros total; cbn [parse_loop].
  - apply in_world_crash.
  - repeat first [ apply IH | apply in_world_parse_iteration | in_world_step ].
Qed.

Lemma in_world_parse : in_world (parse hook).
Proof.
  unfold parse, parse_prologue, parse_epilogue, on_message, on_request, on_parser.
  repeat first [ apply in_world_parse_loop | apply in_world_finish | in_world_step ].
Qed.

End Hook.

Lemma in_world_check_premature_eof : in_world check_premature_eof.
Proof.
  unfold check_premature_eof, on_parser.
  repeat first [ apply in_world_finish | in_world_step ].
Qed.

End World.
