(* ===== verification/ServerFrame.v ===== *)
(** * What handling a connection touches

    Every function that handles one connection leaves the other connections,
    their operations and the server's flags alone, and starts at most one
    operation: the object it was given ends up with one owner again.
    [touches c k] is that frame, [owns c k Q m] says that a computation stays
    within it and returns only values that satisfy [Q].  The websockets it
    starts an operation for have close handlers that are [closer]s, as those of
    the tables are ([TableClosers]). *)

From S2P Require Import Prelude.
From S2P Require Import Externals.
From S2P Require Import Multimap.
From S2P Require Import Strings.
From S2P Require Import Message.
From S2P Require Import Request.
From S2P Require Import ParserState.
From S2P Require Import HeaderParser.
From S2P Require Import BodyParser.
From S2P Require Import Parser.
From S2P Require Import Response.
From S2P Require Import Writer.
From S2P Require Import Routing.
From S2P Require Import Websocket.
From S2P Require Import Scheduler.
From S2P Require Import Connection.
From S2P Require Import Net.
From S2P Require Import Server.
From S2P Require Import BodyProofs.
From S2P Require Import ParserWorld.

#[local] Open Scope Z_scope.

(** the close handlers that a websocket may have *)
Class Closers `{HT : HandlerTypes} := closer : websocket_callback -> Prop.

Class TableClosers `{CL : Closers} (srv : http_server) : Prop := {
  table_closer path h : wsclose_handlers srv !! path = Some h -> closer h;
  noop_closer : closer noop_fun;
}.

Definition any_closer `{HT : HandlerTypes} : Closers := fun _ => True.

#[export] Instance any_table_closers `{HT : HandlerTypes} srv : TableClosers (CL := any_closer) srv.
Proof. by split. Qed.

Section Frame.
Context `{SU : StaticlibUtils, MP : MultimapPolicy, UC : UserCode, WL : WebsocketLib}.
Context {CL : Closers}.

Definition op_closer (op : async_op) : Prop :=
  match op with op_websocket ws _ => closer (on_close_fun ws) | _ => True end.

(** an operation on [c] *)
Definition op_of (c : nat) (op : async_op) : Prop := op_connection op = c /\ op_closer op.

(** the log of what was sent grows, by writes to [c] *)
Definition sent_on (c : nat) (w w' : server_world) : Prop :=
  exists out, sw_sent w' = sw_sent w ++ out /\ Forall (fun e => e.1 = c) out.

Lemma sent_on_refl c w : sent_on c w w.
Proof. exists []. by rewrite app_nil_r. Qed.

Lemma sent_on_trans c w1 w2 w3 : sent_on c w1 w2 -> sent_on c w2 w3 -> sent_on c w1 w3.
Proof.
  intros (o1 & E1 & F1) (o2 & E2 & F2). exists (o1 ++ o2).
  rewrite E2, E1, app_assoc. split; [done|]. by apply Forall_app.
Qed.

Lemma sent_on_log c b w : sent_on c w (log_sent c b w).
Proof. exists [(c, b)]. split; [done|]. by constructor. Qed.

(** handlers that hold [c] are added *)
Definition held_on (c : nat) (hs hs' : list held_op) : Prop :=
  exists new, hs' = hs ++ new /\ Forall (fun h => held_connection h = c) new.

Lemma held_on_refl c hs : held_on c hs hs.
Proof. exists []. by rewrite app_nil_r. Qed.

Lemma held_on_trans c hs1 hs2 hs3 : held_on c hs1 hs2 -> held_on c hs2 hs3 -> held_on c hs1 hs3.
Proof.
  intros (a & -> & F1) (b & -> & F2). exists (a ++ b). rewrite app_assoc. split; [done|].
  by apply Forall_app.
Qed.

Lemma held_on_one h hs : held_on (held_connection h) hs (hs ++ [h]).
Proof. exists [h]. split; [done|]. by constructor. Qed.

(** whether [c] has left the pool *)
Definition left_pool (c : nat) (n n' : net) : nat :=
  if decide (c ∈ n_conn_pool n /\ c ∉ n_conn_pool n') then 1 else 0.

Lemma left_pool_same c n n' : n_conn_pool n' = n_conn_pool n -> left_pool c n n' = 0%nat.
Proof. intros E. unfold left_pool. rewrite E. by destruct (decide _) as [[]|]. Qed.

Lemma left_pool_trans c n1 n2 n3 :
  (left_pool c n1 n3 <= left_pool c n1 n2 + left_pool c n2 n3)%nat.
Proof.
  unfold left_pool. destruct (decide (_ /\ c ∉ n_conn_pool n3)) as [[I O]|]; [|lia].
  destruct (decide (c ∈ n_conn_pool n2)).
  - rewrite (decide_True (P := c ∈ n_conn_pool n2 /\ _)) by done. lia.
  - rewrite decide_True by done. lia.
Qed.

(** the step from [n] to [n'] is work on [c] that starts operations or keeps
    writers for it, or takes it out of the pool, at most [k] times *)
Record touches (c : nat) (k : nat) (n n' : net) : Prop := {
  t_mutex : n_mutex n' = n_mutex n;
  t_refs : n_refs n' = n_refs n;
  t_next : n_next n' = n_next n;
  t_listening : n_listening n' = n_listening n;
  t_acceptor : n_acceptor_open n' = n_acceptor_open n;
  t_scheduler : n_scheduler n' = n_scheduler n;
  t_pool_sub : n_conn_pool n' `sublist_of` n_conn_pool n;
  t_pool : forall c', c' <> c -> c' ∈ n_conn_pool n -> c' ∈ n_conn_pool n';
  t_conns : forall c', c' <> c -> n_connections n' !! c' = n_connections n !! c';
  t_exists : is_Some (n_connections n' !! c) <-> is_Some (n_connections n !! c);
  t_owners : exists ops ws,
    n_pending n' = n_pending n ++ ops /\ n_kept n' = n_kept n ++ ws /\
    Forall (op_of c) ops /\ Forall (fun w => w_tcp_conn w = c) ws /\
    (length ops + length ws + left_pool c n n' <= k)%nat;
  t_held : held_on c (n_held n) (n_held n');
  t_sent : sent_on c (n_world n) (n_world n');
}.

(** the clause on owners, for a step that leaves the pool alone *)
Lemma owners_grow c k n n' ops ws :
  n_pending n' = n_pending n ++ ops -> n_kept n' = n_kept n ++ ws ->
  n_conn_pool n' = n_conn_pool n ->
  Forall (op_of c) ops -> Forall (fun w => w_tcp_conn w = c) ws ->
  (length ops + length ws <= k)%nat ->
  exists ops ws,
    n_pending n' = n_pending n ++ ops /\ n_kept n' = n_kept n ++ ws /\
    Forall (op_of c) ops /\ Forall (fun w => w_tcp_conn w = c) ws /\
    (length ops + length ws + left_pool c n n' <= k)%nat.
Proof.
  intros P K E O W L. exists ops, ws. split_and!; try done.
  rewrite left_pool_same by done. lia.
Qed.

Lemma owners_same c n n' :
  n_pending n' = n_pending n -> n_kept n' = n_kept n -> n_conn_pool n' = n_conn_pool n ->
  exists ops ws,
    n_pending n' = n_pending n ++ ops /\ n_kept n' = n_kept n ++ ws /\
    Forall (op_of c) ops /\ Forall (fun w => w_tcp_conn w = c) ws /\
    (length ops + length ws + left_pool c n n' <= 0)%nat.
Proof.
  intros P K E. apply (owners_grow _ _ _ _ [] []); try done; by rewrite app_nil_r.
Qed.

(** a step that changes the world, the registry and the held handlers only *)
Lemma touches_world c n n' :
  n_mutex n' = n_mutex n -> n_refs n' = n_refs n -> n_next n' = n_next n ->
  n_listening n' = n_listening n -> n_acceptor_open n' = n_acceptor_open n ->
  n_scheduler n' = n_scheduler n -> n_conn_pool n' = n_conn_pool n ->
  n_connections n' = n_connections n -> n_pending n' = n_pending n -> n_kept n' = n_kept n ->
  held_on c (n_held n) (n_held n') -> sent_on c (n_world n) (n_world n') -> touches c 0 n n'.
Proof.
  intros ? ? ? ? ? ? P C ? ? ? ?. constructor; rewrite ?P, ?C; try done. by apply owners_same.
Qed.

Lemma touches_refl c n : touches c 0 n n.
Proof.
  constructor; try done; [|apply held_on_refl|apply sent_on_refl].
  by apply owners_same.
Qed.

Lemma touches_trans c k1 k2 n1 n2 n3 :
  touches c k1 n1 n2 -> touches c k2 n2 n3 -> touches c (k1 + k2) n1 n3.
Proof.
  intros [] []. constructor; try congruence; eauto using sent_on_trans, held_on_trans.
  - etransitivity; eassumption.
  - intros c' H. rewrite t_conns1 by done. auto.
  - tauto.
  - destruct t_owners0 as (o1 & w1 & P1 & K1 & Fo1 & Fw1 & L1).
    destruct t_owners1 as (o2 & w2 & P2 & K2 & Fo2 & Fw2 & L2).
    exists (o1 ++ o2), (w1 ++ w2). rewrite P2, P1, K2, K1, !app_assoc, !length_app.
    split_and!; try done; try (by apply Forall_app).
    pose proof (left_pool_trans c n1 n2 n3). lia.
Qed.

Lemma touches_weaken c k k' n n' : (k <= k')%nat -> touches c k n n' -> touches c k' n n'.
Proof.
  intros L [? ? ? ? ? ? ? ? ? ? (o & w & ? & ? & ? & ? & ?) ? ?]. constructor; try done.
  exists o, w. split_and!; try done. lia.
Qed.

(** ** Computations *)

Definition owns (c k : nat) {A} (Q : A -> Prop) (m : M net A) : Prop :=
  forall n, touches c k n (m n).2 /\ forall a, (m n).1 = Val a -> Q a.

Definition any {A} (_ : A) : Prop := True.

Lemma owns_weaken c k k' {A} (Q Q' : A -> Prop) m :
  (k <= k')%nat -> (forall a, Q a -> Q' a) -> owns c k Q m -> owns c k' Q' m.
Proof.
  intros L I H n. destruct (H n) as [T V]. split; [by eapply touches_weaken|eauto].
Qed.

Lemma owns_bind c k1 k2 {A B} (Q1 : A -> Prop) (Q2 : B -> Prop) m f :
  owns c k1 Q1 m -> (forall a, Q1 a -> owns c k2 Q2 (f a)) -> owns c (k1 + k2) Q2 (bind m f).
Proof.
  intros H1 H2 n. unfold bind. destruct (H1 n) as [T1 V1].
  destruct (m n) as [[a|e|x] n1]; cbn in *.
  - destruct (H2 a (V1 a eq_refl) n1) as [T2 V2]. split; [by eapply touches_trans|done].
  - split; [by eapply touches_weaken, T1; lia|done].
  - split; [by eapply touches_weaken, T1; lia|done].
Qed.

Lemma owns_try_catch c k1 k2 {A} (Q : A -> Prop) catches m h :
  owns c k1 Q m -> owns c k2 Q h -> owns c (k1 + k2) Q (try_catch catches m h).
Proof.
  intros H1 H2 n. unfold try_catch. destruct (H1 n) as [T1 V1].
  destruct (m n) as [[a|e|x] n1] eqn:E; cbn in *.
  - split; [by eapply touches_weaken, T1; lia|]. intros a' [= <-]. by apply V1.
  - destruct (catches e); cbn.
    + destruct (H2 n1) as [T2 V2]. split; [by eapply touches_trans|done].
    + split; [by eapply touches_weaken, T1; lia|done].
  - split; [by eapply touches_weaken, T1; lia|done].
Qed.

Lemma owns_ret c {A} (Q : A -> Prop) a : Q a -> owns c 0 Q (ret a).
Proof. intros H n. split; [apply touches_refl|]. by intros ? [= <-]. Qed.

Lemma owns_throw c {A} (Q : A -> Prop) e : owns c 0 Q (throw e).
Proof. intros n. split; [apply touches_refl|done]. Qed.

Lemma owns_crash c {A} (Q : A -> Prop) f : owns c 0 Q (crash f).
Proof. intros n. split; [apply touches_refl|done]. Qed.

Lemma owns_lift c {A} (Q : A -> Prop) r :
  (forall a, r = Val a -> Q a) -> owns c 0 Q (lift r).
Proof. intros H n. split; [apply touches_refl|done]. Qed.

Lemma owns_lift_any c {A} (r : res A) : owns c 0 any (lift r).
Proof. by apply owns_lift. Qed.

Lemma owns_gets c {A} (Q : A -> Prop) f : (forall n, Q (f n)) -> owns c 0 Q (gets f).
Proof. intros H n. split; [apply touches_refl|]. by intros ? [= <-]. Qed.

Lemma owns_gets_any c {A} (f : net -> A) : owns c 0 any (gets f).
Proof. by apply owns_gets. Qed.

Lemma owns_of_connection c {A} c' (f : tcp_connection -> A) : owns c 0 any (of_connection c' f).
Proof. by apply owns_gets. Qed.

Lemma owns_modify c k f : (forall n, touches c k n (f n)) -> owns c k any (modify f).
Proof. intros H n. by split. Qed.

Lemma owns_on_connection c f : owns c 0 any (on_connection c f).
Proof.
  apply owns_modify. intros n. set (n' := n <| n_connections := _ |>).
  constructor; try done.
  - intros c' N. by apply lookup_alter_ne.
  - cbn -[alter]. rewrite lookup_alter_eq. apply fmap_is_Some.
  - by apply owners_same.
  - apply held_on_refl.
  - apply sent_on_refl.
Qed.

Lemma owns_start_op c op : op_connection op = c -> op_closer op -> owns c 1 any (start_op op).
Proof.
  intros E Oc. apply owns_modify. intros n. set (n' := n <| n_pending := _ |>).
  constructor; try done; [|apply held_on_refl|apply sent_on_refl].
  apply (owners_grow _ _ _ _ [op] []); try done; [symmetry; apply app_nil_r|by constructor].
Qed.

Lemma owns_record_sent c b : owns c 0 any (record_sent c b).
Proof.
  apply owns_modify. intros n. apply touches_world; try done; [apply held_on_refl|apply sent_on_log].
Qed.

Lemma owns_hold_connection h : owns (held_connection h) 0 any (hold_connection h).
Proof.
  apply owns_modify. intros n. apply touches_world; try done; [apply held_on_one|apply sent_on_refl].
Qed.

Lemma owns_with_user c {A} (f : user_world -> A * user_world) : owns c 0 any (with_user f).
Proof.
  intros n. unfold with_user. destruct (f _) as [a u]. split; [|done].
  apply touches_world; try done; [apply held_on_refl|].
  exists []. split; [symmetry; apply app_nil_r|done].
Qed.

Lemma owns_if c k {A} (Q : A -> Prop) (b : bool) m1 m2 :
  owns c k Q m1 -> owns c k Q m2 -> owns c k Q (if b then m1 else m2).
Proof. by destruct b. Qed.

(** the lock: its body runs with the mutex held *)
Lemma owns_with_lock c k {A} (Q : A -> Prop) m : owns c k Q m -> owns c k Q (with_lock m).
Proof.
  intros H n. unfold with_lock. destruct (n_mutex n) eqn:E.
  { split; [eapply touches_weaken, touches_refl; lia|done]. }
  destruct (H (n <| n_mutex := true |>)) as [T V].
  destruct (m _) as [r n1]. cbn in *. split; [|done]. destruct T. by constructor.
Qed.

Lemma owns_bind0 c k {A B} (Q1 : A -> Prop) (Q2 : B -> Prop) m f :
  owns c 0 Q1 m -> (forall a, Q1 a -> owns c k Q2 (f a)) -> owns c k Q2 (bind m f).
Proof. apply (owns_bind c 0 k). Qed.

Lemma owns_bind1 c k {A B} (Q1 : A -> Prop) (Q2 : B -> Prop) m f :
  owns c k Q1 m -> (forall a, Q1 a -> owns c 0 Q2 (f a)) -> owns c k Q2 (bind m f).
Proof. intros H1 H2. pose proof (owns_bind c k 0 Q1 Q2 m f H1 H2) as H. by rewrite Nat.add_0_r in H. Qed.

Lemma owns_leaf c k {A} (Q : A -> Prop) m : owns c 0 Q m -> owns c k Q m.
Proof. intros H. eapply owns_weaken, H; [lia|done]. Qed.

Lemma owns_any c k {A} (Q : A -> Prop) m : owns c k Q m -> owns c k any m.
Proof. intros H. by eapply owns_weaken, H. Qed.

End Frame.

(** the computations that start no operation *)
Ltac owns_leaf :=
  first
    [ apply owns_leaf, owns_of_connection | apply owns_leaf, owns_on_connection
    | apply owns_leaf, owns_record_sent | apply owns_leaf, owns_with_user
    | apply owns_leaf, owns_gets_any | apply owns_leaf, owns_lift_any
    | apply owns_leaf, owns_ret; done
    | apply owns_leaf, owns_throw | apply owns_leaf, owns_crash
    | apply owns_leaf, owns_lift; done ].

Ltac owns_step :=
  first
    [ owns_leaf
    | apply owns_start_op; done
    | apply owns_if
    | eapply owns_bind0; [owns_leaf|intros ? _] ].

Section Handlers.
Context `{SU : StaticlibUtils, MP : MultimapPolicy, UC : UserCode, WL : WebsocketLib}.
Context {CL : Closers} (srv : http_server) (garbage : Z * Z) {TC : TableClosers srv}.

(** ** Functions that keep the connection they belong to *)

Lemma run_writer_calls_conn cs w : w_tcp_conn (fold_left run_writer_call cs w) = w_tcp_conn w.
Proof.
  revert w. induction cs as [|x cs IH]; intros w; [done|]. cbn [fold_left]. rewrite IH.
  destruct x; cbn; unfold write, write_nocopy, add_to_cache; try done;
    repeat case_match; simplify_eq/=; done.
Qed.

Lemma prepare_write_buffers_conn bufs keep_alive final w :
  w_tcp_conn (prepare_write_buffers bufs keep_alive final w).2 = w_tcp_conn w.
Proof.
  unfold prepare_write_buffers, writer_prepare_buffers, add_to_cache.
  destruct w as [c bs cache len sup snd [] r]; cbn -[response_prepare_buffers Z.gtb];
    destruct (len >? 0) eqn:L; cbn -[response_prepare_buffers Z.gtb];
    try (destruct (response_prepare_buffers _ _ _ _) as [b2 r2]);
    cbn -[Z.gtb]; rewrite ?L; by destruct sup, snd, final.
Qed.

Section WithFinish.
Context (finish : nat -> M net unit).
Context (owns_finish : forall c, owns c 1 any (finish c)).

Lemma owns_send_more_data final k w : owns (w_tcp_conn w) 1 any (send_more_data finish final k w).
Proof.
  unfold send_more_data. eapply owns_bind0; [owns_leaf|intros opened _].
  apply owns_if; [|apply owns_finish]. eapply owns_bind0; [owns_leaf|intros ka _].
  pose proof (prepare_write_buffers_conn [] ka final w) as E.
  destruct (prepare_write_buffers [] ka final w) as [bufs w']. cbn in E.
  eapply owns_bind0; [owns_leaf|intros _ _]. by apply owns_start_op.
Qed.

Lemma owns_send_chunk h w : owns (w_tcp_conn w) 1 any (send_chunk finish h w).
Proof.
  unfold send_chunk. eapply owns_bind0; [apply owns_if; owns_leaf|intros _ _].
  eapply owns_bind0; [owns_leaf|intros opened _].
  apply owns_if; [|apply owns_finish].
  set (w1 := w <| sending_chunks := true |>). change (w_tcp_conn w) with (w_tcp_conn w1).
  apply owns_send_more_data.
Qed.

Lemma owns_run_reply r w : owns (w_tcp_conn w) 1 any (run_reply finish r w).
Proof.
  unfold run_reply. rewrite <- (run_writer_calls_conn (wr_calls r) w).
  set (w' := fold_left run_writer_call (wr_calls r) w). clearbody w'.
  destruct (wr_end r); try owns_leaf.
  - apply owns_send_more_data.
  - apply owns_send_chunk.
  - unfold send_final_chunk. set (w1 := w' <| sending_chunks := true |>).
    change (w_tcp_conn w') with (w_tcp_conn w1). apply owns_send_more_data.
  - apply owns_modify. intros n. set (n' := n <| n_kept := _ |>).
    constructor; try done; [|apply held_on_refl|apply sent_on_refl].
    apply (owners_grow _ _ _ _ [] [w']); try done; [symmetry; apply app_nil_r|by constructor].
Qed.

Lemma write_conn d w : w_tcp_conn (write d w) = w_tcp_conn w.
Proof. apply (run_writer_calls_conn [call_write d] w). Qed.

Lemma write_nocopy_conn d w : w_tcp_conn (write_nocopy d w) = w_tcp_conn w.
Proof. apply (run_writer_calls_conn [call_write_nocopy d] w). Qed.

Lemma owns_send c w : w_tcp_conn w = c -> owns c 1 any (send finish w).
Proof. intros <-. apply owns_send_more_data. Qed.

Lemma owns_call_request_handler h req w :
  owns (w_tcp_conn w) 1 any (call_request_handler finish h req w).
Proof.
  destruct h; cbn [call_request_handler].
  - apply owns_send. by rewrite write_nocopy_conn.
  - apply owns_send. by rewrite write_nocopy_conn, write_conn, write_nocopy_conn.
  - eapply owns_bind0; [owns_leaf|intros reply _]. apply owns_run_reply.
Qed.

(** ** WebSockets *)

(** what a websocket keeps: its connection and its close handler *)
Definition ws_self (ws : websocket) : nat * websocket_callback := (ws_connection ws, on_close_fun ws).

Definition ws_stays (o : nat * websocket_callback) (r : res (websocket * ws_action)) : Prop :=
  match r with Val (ws, _) => ws_self ws = o | _ => True end.

Lemma websocket_write_self d ws : ws_self (websocket_write d ws) = ws_self ws.
Proof. unfold websocket_write. by case_match. Qed.

Lemma websocket_writes_self ds ws :
  ws_self (fold_left (fun ws d => websocket_write d ws) ds ws) = ws_self ws.
Proof.
  revert ws. induction ds as [|d ds IH]; intros ws; [done|]. cbn. by rewrite IH, websocket_write_self.
Qed.

Lemma remove_frame_self f ws :
  match remove_frame_from_receive_buffer f ws with
  | Val ws' => ws_self ws' = ws_self ws | _ => True end.
Proof. unfold remove_frame_from_receive_buffer. destruct (_ <=? _); done. Qed.

Lemma process_receive_buffer_stays ws :
  ws_stays (ws_self ws) (process_receive_buffer ws).
Proof.
  unfold process_receive_buffer. destruct (negb _); [done|]. destruct (negb _); [done|].
  destruct (negb _).
  - unfold on_continuation. destruct (frames_cache_overflow ws); [done|]. unfold add_to_frames_cache.
    set (ws1 := ws <| frames := _ |>).
    pose proof (remove_frame_self (receive_buffer ws) ws1) as E.
    destruct (remove_frame_from_receive_buffer _ ws1); [exact E|done..].
  - unfold process_final_frame. destruct (frame_type_of (receive_buffer ws)); try done.
    unfold on_ping. destruct (slen _ >? 0); [|done].
    set (ws1 := ws <| frames := _ |>). exact (websocket_write_self _ ws1).
Qed.

Lemma websocket_receive_stays ws : ws_stays (ws_self ws) (websocket_receive ws).
Proof.
  unfold websocket_receive, clear_frames_cache. destruct (last (frames ws)) as [b|].
  - pose proof (remove_frame_self b ws) as E.
    destruct (remove_frame_from_receive_buffer b ws) as [ws'|e|f]; try done.
    rewrite <- E. set (ws1 := ws' <| frames := [] |>).
    change (ws_self ws') with (ws_self ws1). apply process_receive_buffer_stays.
  - set (ws1 := ws <| frames := [] |>).
    change (ws_self ws) with (ws_self ws1). apply process_receive_buffer_stays.
Qed.

Lemma send_message_stays t k ws : ws_stays (ws_self ws) (send_message t k ws).
Proof. unfold send_message, post_with_strand, prepare_header, ws_stays. repeat case_match; by simplify_eq/=. Qed.

Lemma continue_stays k ws : ws_stays (ws_self ws) (continue k ws).
Proof.
  destruct k; cbn [continue]; try done;
    [apply websocket_receive_stays|apply process_receive_buffer_stays].
Qed.

Lemma write_completed_stays ok k ws : ws_stays (ws_self ws) (write_completed ok k ws).
Proof.
  unfold write_completed. destruct ok; [|done]. exact (continue_stays k (clear_payload ws)).
Qed.

Lemma read_completed_stays d ws : ws_stays (ws_self ws) (read_completed d ws).
Proof.
  destruct d as [buf|]; [|done]. unfold read_completed, consume. case_match; [done|].
  exact (process_receive_buffer_stays (add_to_receive_buffer buf ws)).
Qed.

Lemma prepare_handshake_self ws : ws_self (prepare_handshake ws) = ws_self ws.
Proof.
  unfold prepare_handshake. rewrite websocket_write_self.
  set (l := make_response_headers _). clearbody l.
  rewrite <- (websocket_write_self make_response_line ws).
  set (ws1 := websocket_write make_response_line ws). clearbody ws1. revert ws1.
  induction l as [|ha l IH]; intros ws1; [done|]. cbn. by rewrite IH, !websocket_write_self.
Qed.

Lemma owns_destroy_websocket ws : owns (ws_connection ws) 1 any (destroy_websocket finish ws).
Proof.
  apply (owns_try_catch _ 1 0); [apply owns_finish|]. owns_leaf.
Qed.

(** a callback keeps the websocket or starts at most one operation *)
Definition keeps_or_owns (o : nat * websocket_callback) (m : M net (option (websocket * ws_action)))
    : Prop :=
  forall n, match (m n).1 with
            | Val (Some (ws, _)) => ws_self ws = o /\ touches o.1 0 n (m n).2
            | _ => touches o.1 1 n (m n).2
            end.

Lemma keeps_lift o r :
  ws_stays o r -> keeps_or_owns o (x <- lift r ;; ret (Some x)).
Proof.
  intros H n. unfold bind, lift, ret. destruct r as [[ws a]|e|f]; cbn in *.
  - split; [done|apply touches_refl].
  - eapply touches_weaken, touches_refl. lia.
  - eapply touches_weaken, touches_refl. lia.
Qed.

Lemma keeps_owns o (m : M net (option (websocket * ws_action))) :
  owns o.1 1 (fun a => a = None) m -> keeps_or_owns o m.
Proof.
  intros H n. destruct (H n) as [T V]. destruct (m n).1 as [[[ws a]|]|e|f]; try exact T.
  by specialize (V _ eq_refl).
Qed.

Lemma keeps_bind0 o {A} (m : M net A) f :
  owns o.1 0 any m -> (forall a, keeps_or_owns o (f a)) -> keeps_or_owns o (bind m f).
Proof.
  intros H K n. unfold bind. destruct (H n) as [T _].
  destruct (m n) as [[a|e|x] n1]; cbn in *; try (by eapply touches_weaken, T; lia).
  specialize (K a n1). destruct (f a n1) as [[[[ws' a']|]|e|x] n2]; cbn in *;
    try (eapply (touches_trans _ 0 1); [exact T|exact K]).
  destruct K as [E K]. split; [exact E|]. eapply (touches_trans _ 0 0); [exact T|exact K].
Qed.

Lemma keeps_destroy {A} ws (k : M net A) (Q : A -> Prop) :
  owns (ws_connection ws) 0 Q k -> owns (ws_connection ws) 1 Q (destroy_websocket finish ws ;;; k).
Proof. intros H. eapply owns_bind1; [apply owns_destroy_websocket|by intros]. Qed.

Lemma call_websocket_handler_keeps f ws :
  keeps_or_owns (ws_self ws) (call_websocket_handler finish f ws).
Proof.
  destruct f as [| |h]; cbn [call_websocket_handler].
  - apply keeps_lift, websocket_receive_stays.
  - apply keeps_owns, keeps_destroy. by apply owns_ret.
  - apply keeps_bind0; [apply owns_with_user|intros r]. unfold run_ws_reply.
    rewrite <- (websocket_writes_self (wsr_writes r) ws).
    set (ws' := fold_left _ _ ws). clearbody ws'. destruct (wsr_end r).
    + apply keeps_lift, websocket_receive_stays.
    + apply keeps_lift, send_message_stays.
    + apply keeps_lift, send_message_stays.
    + by apply keeps_lift.
    + apply keeps_owns, keeps_destroy. by apply owns_ret.
    + apply keeps_owns, keeps_destroy, owns_throw.
Qed.

Lemma owns_perform_with fuel ws a :
  closer (on_close_fun ws) -> owns (ws_connection ws) 1 any (perform_with finish fuel ws a).
Proof.
  revert ws a. induction fuel as [|fuel IH]; intros ws a Cl; destruct a; cbn [perform_with];
    try (eapply owns_bind0; [owns_leaf|intros _ _]); try (by apply owns_start_op); [owns_leaf|].
  intros n. split; [|done]. pose proof (call_websocket_handler_keeps f ws n) as K. unfold bind.
  destruct (call_websocket_handler finish f ws n) as [[[[ws' a']|]|e|x] n1]; cbn in *; try exact K.
  destruct K as [E T]. injection E as E1 E2. eapply (touches_trans _ 0 1); [exact T|].
  rewrite <- E1. apply IH. by rewrite E2.
Qed.

Lemma owns_perform_result o r :
  ws_stays o r -> closer o.2 -> owns o.1 1 any (perform_result finish r).
Proof.
  intros H Cl. unfold perform_result.
  apply (owns_bind0 o.1 1 (fun x => ws_self x.1 = o)).
  - apply owns_lift. intros [ws a] ->. exact H.
  - intros [ws a] <-. by apply owns_perform_with.
Qed.

(** ** Requests *)

Lemma owns_start_websocket req c f1 f2 f3 :
  closer f3 -> owns c 1 any (start_websocket finish req c f1 f2 f3).
Proof.
  intros Cl. unfold start_websocket. eapply owns_bind0; [owns_leaf|intros _ _].
  eapply owns_bind1.
  - apply (owns_perform_result (c, f3)); [|exact Cl]. unfold websocket_start, send_internal, ws_stays.
    by rewrite prepare_handshake_self.
  - intros _ _. apply owns_modify. intros n.
    apply touches_world; try done; [apply held_on_refl|apply sent_on_refl].
Qed.

Lemma owns_new_writer_handler h req req' c :
  owns c 1 any (call_request_handler finish h req (new_writer c req')).
Proof. exact (owns_call_request_handler h req (new_writer c req')). Qed.

Lemma owns_handle_request req c ec : owns c 1 any (handle_request srv finish req c ec).
Proof.
  unfold handle_request. apply owns_if.
  { unfold handle_invalid_request. eapply owns_bind0; [owns_leaf|intros _ _].
    eapply owns_bind0; [owns_leaf|intros opened _].
    apply owns_if; [apply owns_new_writer_handler|apply owns_finish]. }
  apply owns_if.
  { unfold find_ws_handlers. apply owns_if; [apply owns_start_websocket|apply owns_new_writer_handler].
    destruct (wsclose_handlers srv !! req_resource req) as [h|] eqn:E;
      [by apply table_closer in E|exact noop_closer]. }
  apply owns_if; [by apply owns_send|].
  eapply owns_bind0; [apply owns_lift_any|intros m _].
  eapply owns_bind0; [apply owns_lift_any|intros it _].
  destruct it as [[k h]|]; [|apply owns_new_writer_handler].
  apply (owns_try_catch _ 1 0); [apply owns_new_writer_handler|owns_leaf].
Qed.

#[export] Instance sent_on_preorder c : PreOrder (sent_on c).
Proof. split; [intros w; apply sent_on_refl|intros ? ? ?; apply sent_on_trans]. Qed.

Lemma run_handler_sent c h d (w : server_world) : sent_on c w (run_handler h d w).2.
Proof.
  cbn. destruct (run_payload_handler h d (sw_user w)) as [r u]. exists []. by rewrite app_nil_r.
Qed.

Lemma hook_sent c req ec rc w :
  sent_on c w (he_world (handle_request_after_headers_parsed srv c req ec rc w).2).
Proof.
  unfold handle_request_after_headers_parsed. destruct (_ || _); [apply sent_on_refl|].
  set (w1 := if iequals _ _ then log_sent c _ w else w).
  assert (sent_on c w w1) as L by (subst w1; destruct (iequals _ _); [apply sent_on_log|apply sent_on_refl]).
  clearbody w1. destruct (select_map _) as [m|e|f]; try exact L.
  destruct (find_submatch _ _) as [[[k creator]|]|e|f]; try exact L.
  destruct (create_payload_handler creator req (sw_user w1)) as [r [req' u]].
  assert (sent_on c w (mk_server_world UE u (sw_sent w1))) as L'.
  { destruct L as (out & E & F). by exists out. }
  destruct r as [e|ha]; try exact L'.
  destruct (request_set_payload_handler _ _) as [req'' h]. exact L'.
Qed.

Lemma owns_run_parser {A} (m : M pstate A) r :
  in_world (sent_on (rd_tcp_conn r)) m ->
  owns (rd_tcp_conn r) 0 (fun x => rd_tcp_conn x.2 = rd_tcp_conn r) (run_parser m r).
Proof.
  intros W n. unfold run_parser.
  specialize (W (mk_pstate (rd_parser r) (rd_request r) no_error (n_world n))). cbn in W.
  destruct (m _) as [x s]. cbn in W. set (n1 := n <| n_world := ps_world s |>).
  assert (touches (rd_tcp_conn r) 0 n n1) as T.
  { apply touches_world; try done. apply held_on_refl. }
  destruct x as [a|e|f]; cbn; (split; [exact T|]); [by intros ? [= <-]|done..].
Qed.

Lemma owns_read_bytes r : owns (rd_tcp_conn r) 1 any (read_bytes_with_timeout r).
Proof.
  eapply owns_bind1; [by apply owns_start_op|intros _ _].
  exact (owns_hold_connection (held_timer (rd_tcp_conn r))).
Qed.

Lemma owns_finished_reading r ec : owns (rd_tcp_conn r) 1 any (finished_reading srv finish r ec).
Proof. apply owns_handle_request. Qed.

Lemma owns_consume_bytes r : owns (rd_tcp_conn r) 1 any (consume_bytes srv finish r).
Proof.
  unfold consume_bytes. eapply owns_bind0.
  { apply owns_run_parser. apply in_world_parse; [exact _|apply run_handler_sent|].
    intros. apply hook_sent. }
  intros [[result ec] r'] E. cbn in E. rewrite <- E. destruct result.
  - eapply owns_bind0; [owns_leaf|intros _ _]. apply owns_handle_request.
  - eapply owns_bind0; [|intros _ _; apply owns_finished_reading].
    repeat apply owns_if; try owns_leaf. eapply owns_bind0; [owns_leaf|intros _ _; owns_leaf].
  - apply owns_read_bytes.
Qed.

Lemma owns_handle_read_error r ec : owns (rd_tcp_conn r) 1 any (handle_read_error srv finish r ec).
Proof.
  unfold handle_read_error. eapply owns_bind0; [owns_leaf|intros _ _]. eapply owns_bind0.
  { apply owns_run_parser. apply in_world_check_premature_eof; try exact _; apply run_handler_sent. }
  intros [[premature ec'] r'] E. cbn in E. rewrite <- E.
  apply owns_if; apply owns_finished_reading.
Qed.

Lemma owns_consume_bytes_read r o :
  owns (rd_tcp_conn r) 1 any (consume_bytes_read srv finish r o).
Proof.
  destruct o as [ec|data]; cbn [consume_bytes_read]; [apply owns_handle_read_error|].
  eapply owns_bind0; [owns_leaf|intros _ _].
  exact (owns_consume_bytes (mk_reader UE (set_read_buffer data (rd_parser r)) (rd_tcp_conn r)
                               (rd_request r))).
Qed.

Lemma owns_handle_connection c : owns c 1 any (handle_connection srv garbage finish c).
Proof.
  unfold handle_connection. eapply owns_bind0; [owns_leaf|intros ip _].
  unfold receive. cbn [rd_tcp_conn new_reader].
  eapply owns_bind0; [apply owns_leaf, owns_of_connection|intros pipelined _]. apply owns_if.
  - eapply owns_bind0; [owns_leaf|intros _ _]. eapply owns_bind0; [owns_leaf|intros position _].
    match goal with |- owns c 1 any (consume_bytes _ _ ?r) => exact (owns_consume_bytes r) end.
  - eapply owns_bind0; [owns_leaf|intros _ _]. exact (owns_read_bytes (new_reader garbage c ip)).
Qed.

Lemma owns_finish_connection c : owns c 1 any (finish_connection srv garbage finish c).
Proof.
  unfold finish_connection. apply owns_with_lock.
  eapply owns_bind0; [owns_leaf|intros listening _]. eapply owns_bind0; [owns_leaf|intros ka _].
  apply owns_if; [apply owns_handle_connection|]. apply owns_modify.
  intros n. set (n' := n <| n_conn_pool := _ |>). constructor; try done.
  - apply sublist_filter.
  - intros c' N H. apply list_elem_of_filter. by split.
  - exists [], []. rewrite !app_nil_r. split_and!; try done.
    unfold left_pool. destruct (decide _); cbn; lia.
  - apply held_on_refl.
Qed.

End WithFinish.

Lemma owns_finish_with fuel c : owns c 1 any (finish_with srv garbage fuel c).
Proof.
  revert c. induction fuel as [|fuel IH]; intros c; cbn [finish_with]; [owns_leaf|].
  by apply owns_finish_connection.
Qed.

Lemma owns_connection_finish c : owns c 1 any (connection_finish srv garbage c).
Proof. apply owns_finish_with. Qed.

(** ** Completions *)

Definition is_accept (op : async_op) : bool :=
  match op with op_accept _ => true | _ => false end.

(** the completion of every operation but an accept *)
Lemma owns_complete_op op o :
  is_accept op = false -> op_closer op ->
  owns (op_connection op) 1 any (complete_op srv garbage op o).
Proof.
  intros N Oc. destruct op as [c|c|r|w [h|]|ws k]; try done; cbn [complete_op op_connection].
  - unfold handle_ssl_handshake. apply owns_if; [apply owns_connection_finish|].
    apply owns_handle_connection, owns_connection_finish.
  - apply owns_consume_bytes_read, owns_connection_finish.
  - eapply owns_bind0; [owns_leaf|intros reply _]. apply owns_run_reply, owns_connection_finish.
  - apply owns_connection_finish.
  - destruct k; apply (owns_perform_result _ owns_connection_finish (ws_self ws)); try exact Oc.
    + apply write_completed_stays.
    + done.
    + apply read_completed_stays.
    + apply continue_stays.
Qed.

End Handlers.
