(* ===== verification/ServerLevels.v ===== *)
(** * The cycle of calls through [finish]

    [finish_connection] handles the next request of a connection with the
    mutex held, and that may call [finish] again, which locks the mutex: the
    nested call never gets further.  So two levels of [finish_with] are all
    the program has. *)

From S2P Require Import Prelude.
From S2P Require Import Externals.
From S2P Require Import Multimap.
From S2P Require Import Strings.
From S2P Require Import Message.
From S2P Require Import Request.
From S2P Require Import ParserState.
From S2P Require Import BodyParser.
From S2P Require Import Parser.
From S2P Require Import Response.
From S2P Require Import Writer.
From S2P Require Import Routing.
From S2P Require Import Websocket.
From S2P Require Import Scheduler.
From S2P Require Import Connection.
From S2P Require Import Net.
From S2P Require Import Server.
From S2P Require Import ParserWorld.
From S2P Require Import ServerFrame.

#[local] Open Scope Z_scope.
#[local] Existing Instance any_closer.

Section Levels.
Context `{SU : StaticlibUtils, MP : MultimapPolicy, UC : UserCode, WL : WebsocketLib}.
Context (srv : http_server) (garbage : Z * Z).

(** the same on every state in which the mutex is held *)
Definition agree {A} (m1 m2 : M net A) : Prop := forall n, n_mutex n = true -> m1 n = m2 n.

Lemma agree_refl {A} (m : M net A) : agree m m.
Proof. by intros n _. Qed.

Lemma agree_if {A} (b : bool) (m1 m2 m1' m2' : M net A) :
  agree m1 m1' -> agree m2 m2' -> agree (if b then m1 else m2) (if b then m1' else m2').
Proof. by destruct b. Qed.

Lemma agree_bind c k {A B} (Q : A -> Prop) (m m' : M net A) (f f' : A -> M net B) :
  owns c k Q m -> agree m m' -> (forall a, agree (f a) (f' a)) -> agree (bind m f) (bind m' f').
Proof.
  intros O E F n L. unfold bind. rewrite <- (E n L). destruct (O n) as [T _].
  destruct (m n) as [[a|e|x] n1]; [|done..]. apply F.
  cbn in T. by rewrite (t_mutex _ _ _ _ T).
Qed.

Lemma agree_bind_same c {A B} (m : M net A) (f f' : A -> M net B) :
  owns c 0 any m -> (forall a, agree (f a) (f' a)) -> agree (bind m f) (bind m f').
Proof. intros O. by eapply agree_bind, agree_refl. Qed.

Lemma agree_try_catch c k {A} (Q : A -> Prop) p (m m' h : M net A) :
  owns c k Q m -> agree m m' -> agree (try_catch p m h) (try_catch p m' h).
Proof. intros _ E n L. unfold try_catch. by rewrite (E n L). Qed.

Section Two.
Context (f g : nat -> M net unit).
Context (owns_f : forall c, owns c 1 any (f c)).
Context (same : forall c, agree (f c) (g c)).

Lemma agree_send_more_data final k w :
  agree (send_more_data f final k w) (send_more_data g final k w).
Proof.
  unfold send_more_data. apply (agree_bind_same (w_tcp_conn w)); [owns_leaf|intros opened].
  apply agree_if; [apply agree_refl|apply same].
Qed.

Lemma agree_run_reply r w : agree (run_reply f r w) (run_reply g r w).
Proof.
  unfold run_reply. set (w' := fold_left _ _ _). destruct (wr_end r); try apply agree_refl;
    try apply agree_send_more_data.
  unfold send_chunk. eapply (agree_bind_same (w_tcp_conn w')); [apply owns_if; owns_leaf|intros _].
  apply (agree_bind_same (w_tcp_conn w')); [owns_leaf|intros opened].
  apply agree_if; [apply agree_send_more_data|apply same].
Qed.

Lemma agree_call_request_handler h req w :
  agree (call_request_handler f h req w) (call_request_handler g h req w).
Proof.
  destruct h; cbn [call_request_handler]; try apply agree_send_more_data.
  apply (agree_bind_same (w_tcp_conn w)); [owns_leaf|intros r]. apply agree_run_reply.
Qed.

Lemma agree_destroy_websocket ws : agree (destroy_websocket f ws) (destroy_websocket g ws).
Proof. eapply agree_try_catch; [apply owns_f|apply same]. Qed.

Lemma agree_call_websocket_handler h ws :
  agree (call_websocket_handler f h ws) (call_websocket_handler g h ws).
Proof.
  assert (forall {A} (m : M net A),
    agree (destroy_websocket f ws ;;; m) (destroy_websocket g ws ;;; m)) as D.
  { intros A m. eapply (agree_bind (ws_connection ws));
      [by apply owns_destroy_websocket|apply agree_destroy_websocket|intros; apply agree_refl]. }
  destruct h as [| |h]; cbn [call_websocket_handler]; [apply agree_refl|apply D|].
  apply (agree_bind_same (ws_connection ws)); [owns_leaf|intros r].
  unfold run_ws_reply.
  set (ws' := fold_left _ _ _). clearbody ws'.
  destruct (wsr_end r); try apply agree_refl;
    (eapply (agree_bind (ws_connection ws'));
      [by apply owns_destroy_websocket|apply agree_destroy_websocket|intros; apply agree_refl]).
Qed.

Lemma agree_perform_with fuel ws a : agree (perform_with f fuel ws a) (perform_with g fuel ws a).
Proof.
  revert ws a. induction fuel as [|fuel IH]; intros ws a; destruct a; cbn [perform_with];
    try apply agree_refl.
  intros n L. unfold bind. rewrite <- agree_call_websocket_handler by done.
  pose proof (call_websocket_handler_keeps f owns_f f0 ws n) as K.
  destruct (call_websocket_handler f f0 ws n) as [[[[ws' a']|]|e|x] n1]; [|done..].
  destruct K as [_ T]. apply IH. cbn in T. by rewrite (t_mutex _ _ _ _ T).
Qed.

Lemma agree_perform_result r : agree (perform_result f r) (perform_result g r).
Proof.
  unfold perform_result. apply (agree_bind_same 0); [owns_leaf|intros [ws a]].
  apply agree_perform_with.
Qed.

Lemma agree_handle_request req c ec :
  agree (handle_request srv f req c ec) (handle_request srv g req c ec).
Proof.
  unfold handle_request. apply agree_if.
  { unfold handle_invalid_request. apply (agree_bind_same c); [owns_leaf|intros _].
    apply (agree_bind_same c); [owns_leaf|intros opened].
    apply agree_if; [apply agree_call_request_handler|apply same]. }
  apply agree_if.
  { destruct (find_ws_handlers _ _) as [[[fnd f1] f2] f3].
    apply agree_if; [|apply agree_call_request_handler]. unfold start_websocket.
    apply (agree_bind_same c); [owns_leaf|intros _].
    eapply (agree_bind c); [|apply agree_perform_result|intros; apply agree_refl].
    apply (owns_perform_result f owns_f (c, f3)); [|exact I]. unfold websocket_start, send_internal, ws_stays.
    by rewrite prepare_handshake_self. }
  apply agree_if; [apply agree_send_more_data|].
  apply (agree_bind_same c); [owns_leaf|intros m]. apply (agree_bind_same c); [owns_leaf|intros it].
  destruct it as [[k h]|]; [|apply agree_call_request_handler].
  eapply (agree_try_catch c); [|apply agree_call_request_handler].
  by apply owns_new_writer_handler.
Qed.

Lemma agree_consume_bytes r : agree (consume_bytes srv f r) (consume_bytes srv g r).
Proof.
  unfold consume_bytes. eapply (agree_bind (rd_tcp_conn r)).
  { apply owns_run_parser. apply in_world_parse; [exact _|apply run_handler_sent|].
    intros. apply hook_sent. }
  { apply agree_refl. }
  intros [[result ec] r']. destruct result; [| |apply agree_refl].
  - apply (agree_bind_same (rd_tcp_conn r)); [owns_leaf|intros _]. apply agree_handle_request.
  - apply (agree_bind_same (rd_tcp_conn r)); [|intros _; apply agree_handle_request].
    repeat apply owns_if; try owns_leaf. eapply owns_bind0; [owns_leaf|intros _ _; owns_leaf].
Qed.

Lemma agree_handle_connection c :
  agree (handle_connection srv garbage f c) (handle_connection srv garbage g c).
Proof.
  unfold handle_connection. apply (agree_bind_same c); [owns_leaf|intros ip].
  unfold receive. cbn [rd_tcp_conn new_reader].
  apply (agree_bind_same c); [owns_leaf|intros pipelined]. apply agree_if; [|apply agree_refl].
  apply (agree_bind_same c); [owns_leaf|intros _].
  apply (agree_bind_same c); [owns_leaf|intros position]. apply agree_consume_bytes.
Qed.

Lemma finish_connection_same c n :
  finish_connection srv garbage f c n = finish_connection srv garbage g c n.
Proof.
  unfold finish_connection, with_lock. destruct (n_mutex n); [done|].
  set (n0 := n <| n_mutex := true |>).
  match goal with |- context [let '(_, _) := ?m1 n0 in _] => set (b1 := m1) end.
  match goal with |- _ = let '(_, _) := ?m2 n0 in _ => set (b2 := m2) end.
  assert (agree b1 b2) as E.
  { apply (agree_bind_same c); [owns_leaf|intros listening].
    apply (agree_bind_same c); [owns_leaf|intros ka].
    apply agree_if; [apply agree_handle_connection|apply agree_refl]. }
  by rewrite (E n0 eq_refl).
Qed.

End Two.

Lemma finish_with_locked k1 k2 c : agree (finish_with srv garbage (S k1) c) (finish_with srv garbage (S k2) c).
Proof. intros n L. cbn [finish_with]. unfold finish_connection, with_lock. by rewrite L. Qed.

(** Two levels are enough for the cycle of calls through [finish]: more
    fuel changes nothing, so the model of [tcp_connection::finish] is the
    program's whatever the depth of the calls. *)
Lemma finish_two_levels (k c : nat) (n : net) :
  finish_with srv garbage (S (S k)) c n = connection_finish srv garbage c n.
Proof.
  change (finish_connection srv garbage (finish_with srv garbage (S k)) c n =
          finish_connection srv garbage (finish_with srv garbage 1) c n).
  apply finish_connection_same.
  - intros c'. apply (owns_finish_with srv garbage (S k)).
  - intros c'. apply finish_with_locked.
Qed.

End Levels.
