(* ===== verification/ServerSteps.v ===== *)
(** * The server as a transition system

    [net_step] is one step of a running server, as the threads of the
    scheduler and the user's threads take them: the completion of one of the
    operations in flight, a timeout or a posted broadcast, the use of a writer
    that user code has kept, a socket closed by user code, or a call of a
    member of the server.  A step ends when its function has returned or thrown, which
    [scheduler::process_service_work] catches; a function that never returns
    (a [Fault]) is not a step.  [core] is what every reachable state
    satisfies. *)

From S2P Require Import Prelude.
From S2P Require Import Externals.
From S2P Require Import Multimap.
From S2P Require Import Strings.
From S2P Require Import Message.
From S2P Require Import Request.
From S2P Require Import ParserState.
From S2P Require Import Response.
From S2P Require Import Writer.
From S2P Require Import Routing.
From S2P Require Import Websocket.
From S2P Require Import Scheduler.
From S2P Require Import Connection.
From S2P Require Import Net.
From S2P Require Import Server.
From S2P Require Import ServerFrame.

#[local] Open Scope Z_scope.
#[local] Existing Instance any_closer.

Section Core.
Context `{SU : StaticlibUtils, MP : MultimapPolicy, UC : UserCode, WL : WebsocketLib}.

Definition returned {A} (r : res A) : bool := match r with Fault _ => false | _ => true end.

(** who will use a connection next *)
Definition owners (n : net) : list nat :=
  map op_connection (n_pending n) ++ map w_tcp_conn (n_kept n).

Record core (locked : bool) (refs : list nat) (n : net) : Prop := {
  core_mutex : n_mutex n = locked;
  core_refs : n_refs n = refs;
  core_owners : NoDup (owners n);
  core_pool : NoDup (n_conn_pool n);
  core_pooled : forall c, c ∈ owners n -> c ∈ n_conn_pool n;
  core_alive : forall c, c ∈ n_conn_pool n -> is_Some (n_connections n !! c);
  core_fresh : forall c, is_Some (n_connections n !! c) -> (c < n_next n)%nat;
  core_held : forall h, h ∈ n_held n -> is_Some (n_connections n !! held_connection h);
}.

(** the state in which a function works on [c], which nobody else owns *)
Record free (c : nat) (n : net) : Prop := {
  free_core : core false [c] n;
  free_owners : c ∉ owners n;
  free_pool : c ∈ n_conn_pool n;
}.

Lemma forall_eq_replicate {A} (f : A -> nat) c l :
  Forall (fun x => f x = c) l -> map f l = replicate (length l) c.
Proof. induction 1; cbn; congruence. Qed.

Lemma op_of_connection c ops : Forall (op_of c) ops -> Forall (fun op => op_connection op = c) ops.
Proof. intros F. eapply Forall_impl; [exact F|by intros op []]. Qed.

(** ** The frame keeps the invariant *)

Lemma owners_touches c n n' :
  touches c 1 n n' -> c ∉ owners n -> NoDup (owners n) ->
  NoDup (owners n') /\
  (forall c', c' ∈ owners n' -> c' <> c -> c' ∈ owners n) /\
  (c ∈ owners n' -> left_pool c n n' = 0%nat).
Proof.
  intros T F N. destruct (t_owners _ _ _ _ T) as (ops & ws & P & K & Fo & Fw & L).
  unfold owners in *. rewrite P, K, !map_app, (forall_eq_replicate _ c ops (op_of_connection c ops Fo)),
    (forall_eq_replicate _ c ws Fw).
  set (A := map _ (n_pending n)) in *. set (B := map _ (n_kept n)) in *.
  assert ((A ++ replicate (length ops) c) ++ B ++ replicate (length ws) c
          ≡ₚ (A ++ B) ++ replicate (length ops + length ws) c) as E.
  { rewrite replicate_add. solve_Permutation. }
  split_and!.
  - rewrite E. apply NoDup_app. split_and!; [done| |].
    + intros x H1 [-> _]%elem_of_replicate. done.
    + destruct (length ops + length ws)%nat as [|[|]] eqn:El; cbn; try lia; repeat constructor;
        set_solver.
  - intros c' H N'. rewrite E in H. apply elem_of_app in H as [H|[-> _]%elem_of_replicate]; done.
  - intros H. rewrite E in H. apply elem_of_app in H as [H|[_ H]%elem_of_replicate]; [done|lia].
Qed.

Lemma core_touches b refs c n n' :
  core b refs n -> c ∉ owners n -> c ∈ n_conn_pool n -> touches c 1 n n' -> core b refs n'.
Proof.
  intros [] F P T. destruct (owners_touches _ _ _ T F core_owners0) as (N & O & L).
  pose proof T as []. constructor; try congruence; try done.
  - by apply (sublist_NoDup _ (n_conn_pool n)).
  - intros c' H. destruct (decide (c' = c)) as [->|D]; [|eauto].
    specialize (L H). unfold left_pool in L.
    destruct (decide _) as [|X]; [done|]. destruct (decide (c ∈ n_conn_pool n')); [done|].
    by destruct X.
  - intros c' H. assert (c' ∈ n_conn_pool n) as H' by (by apply (elem_of_sublist (n_conn_pool n'))).
    destruct (decide (c' = c)) as [->|D]; [apply t_exists; auto|rewrite t_conns by done; auto].
  - intros c' H. rewrite t_next. apply core_fresh0.
    destruct (decide (c' = c)) as [->|D]; [by apply t_exists|by rewrite t_conns in H].
  - destruct t_held as (new & E & Fh). intros h H. rewrite E in H.
    assert (is_Some (n_connections n !! held_connection h)) as A.
    { apply elem_of_app in H as [H|H]; [by apply core_held0|].
      rewrite Forall_forall in Fh. rewrite (Fh h H). auto. }
    destruct (decide (held_connection h = c)) as [D|D]; [rewrite D in *; by apply t_exists|].
    by rewrite t_conns.
Qed.

Lemma free_owns c {A} (Q : A -> Prop) m n : free c n -> owns c 1 Q m -> core false [c] (m n).2.
Proof. intros [] O. destruct (O n) as [T _]. by eapply core_touches. Qed.

Lemma free_owns0 c {A} (Q : A -> Prop) m n : free c n -> owns c 0 Q m -> free c (m n).2.
Proof.
  intros [C F P] O. destruct (O n) as [T _].
  destruct (t_owners _ _ _ _ T) as (ops & ws & E & K & _ & _ & L).
  assert (ops = [] /\ ws = []) as [-> ->] by (destruct ops, ws; cbn in L; try lia; done).
  rewrite !app_nil_r in *. constructor.
  - eapply core_touches; try done. eapply touches_weaken, T. lia.
  - unfold owners in *. by rewrite E, K.
  - unfold left_pool in L. destruct (decide _) as [|X]; [cbn in L; lia|].
    destruct (decide (c ∈ n_conn_pool (m n).2)); [done|]. by destruct X.
Qed.

(** ** The members of the server *)

(** a change of sockets, flags, scheduler, registry or world, or of what is held *)
Lemma core_same b refs n n' :
  n_mutex n' = n_mutex n -> n_refs n' = n_refs n -> n_next n' = n_next n ->
  n_conn_pool n' = n_conn_pool n -> n_pending n' = n_pending n -> n_kept n' = n_kept n ->
  (forall c, is_Some (n_connections n' !! c) <-> is_Some (n_connections n !! c)) ->
  (forall h, h ∈ n_held n' -> h ∈ n_held n \/ is_Some (n_connections n !! held_connection h)) ->
  core b refs n -> core b refs n'.
Proof.
  intros M R X P E K C H []. unfold owners in *.
  constructor; unfold owners; rewrite ?P, ?E, ?K, ?X; try congruence; try done.
  - intros c Hc. apply C. auto.
  - intros c Hc. apply core_fresh0. by apply C.
  - intros h Hh. apply C. destruct (H h Hh) as [Hh'|Hh']; auto.
Qed.

Lemma alter_is_Some {A} (f : A -> A) (m : gmap nat A) c c' :
  is_Some (alter f c m !! c') <-> is_Some (m !! c').
Proof.
  destruct (decide (c = c')) as [->|]; [|by rewrite lookup_alter_ne].
  rewrite lookup_alter_eq. apply fmap_is_Some.
Qed.

Lemma alters_is_Some {A} (f : A -> A) cs (m : gmap nat A) c :
  is_Some (fold_right (alter f) m cs !! c) <-> is_Some (m !! c).
Proof. induction cs as [|x cs IH]; [done|]. cbn [fold_right]. by rewrite alter_is_Some. Qed.

Lemma owner_referenced c n : c ∈ owners n -> referenced_outside_pool n c = true.
Proof.
  unfold owners, referenced_outside_pool. intros [H|H]%elem_of_app.
  - by rewrite bool_decide_true.
  - by rewrite (bool_decide_true (c ∈ map w_tcp_conn _)), orb_true_r.
Qed.

Lemma ref_referenced c n : c ∈ n_refs n -> referenced_outside_pool n c = true.
Proof.
  unfold referenced_outside_pool. intros H.
  by rewrite (bool_decide_true (c ∈ n_refs n)), orb_true_r.
Qed.

Lemma elem_of_held c (hs : list held_op) :
  c ∈ map held_connection hs <-> exists h, h ∈ hs /\ held_connection h = c.
Proof. rewrite list_elem_of_In, in_map_iff. setoid_rewrite list_elem_of_In. firstorder. Qed.

(** the pool after [prune_connections] *)
Lemma prune_pool c n :
  c ∈ n_conn_pool (prune_connections n).2 <->
  c ∈ n_conn_pool n /\ referenced_outside_pool n c = true.
Proof.
  unfold prune_connections. cbn [snd]. set (n' := _ <| n_conn_pool := _ |>).
  change (n_conn_pool n') with (filter (fun c => unique n c = false) (n_conn_pool n)).
  rewrite list_elem_of_filter. unfold unique. rewrite negb_false_iff. tauto.
Qed.

Lemma core_prune b refs n : core b refs n -> core b refs (prune_connections n).2.
Proof.
  intros C. assert (forall c, is_Some (n_connections (prune_connections n).2 !! c)
                              <-> is_Some (n_connections n !! c)) as E
    by (intros c; apply alters_is_Some).
  destruct C. constructor; try done.
  - by apply NoDup_filter.
  - intros c H. apply prune_pool. split; [by apply core_pooled0|by apply owner_referenced].
  - intros c [H _]%prune_pool. apply E. auto.
  - intros c H. apply core_fresh0. by apply E.
  - intros h H. apply E. auto.
Qed.

(** the new connection of [listen] and the operation that accepts it *)
Definition add_connection (c : nat) (n : net) : net :=
  let n := n <| n_conn_pool := n_conn_pool n ++ [c] |> in
  n <| n_pending := n_pending n ++ [op_accept c] |>.

Lemma listen_unfold n :
  n_mutex n = false -> n_listening n = true ->
  listen n =
    (Val tt,
     (add_connection (n_next n)
        (prune_connections
           (n <| n_mutex := true |> <| n_next := S (n_next n) |>
              <| n_connections := <[n_next n := new_connection (n_ssl_flag n)]> (n_connections n) |>)).2)
       <| n_mutex := false |>).
Proof. intros M L. unfold listen, with_lock, gets, modify, start_op, bind. rewrite M. cbn. by rewrite L. Qed.


Lemma core_lock b b' refs n : core b refs n -> core b' refs (n <| n_mutex := b' |>).
Proof. intros []. by constructor. Qed.

Lemma core_new_connection b refs conn n :
  core b refs n ->
  core b refs (n <| n_next := S (n_next n) |>
                 <| n_connections := <[n_next n := conn]> (n_connections n) |>).
Proof.
  intros []. constructor; try done.
  - intros c H. cbn. rewrite lookup_insert_is_Some. destruct (decide (n_next n = c)); auto.
  - intros c. cbn. rewrite lookup_insert_is_Some. intros [->|[_ H]]; [lia|].
    specialize (core_fresh0 c H). lia.
  - intros h H. cbn. rewrite lookup_insert_is_Some.
    destruct (decide (n_next n = held_connection h)); auto.
Qed.

Lemma core_add_connection b refs c n :
  core b refs n -> c ∉ n_conn_pool n -> is_Some (n_connections n !! c) ->
  core b refs (add_connection c n).
Proof.
  intros [] F A. assert (owners (add_connection c n) ≡ₚ c :: owners n) as E.
  { unfold owners, add_connection. cbn. rewrite map_app. cbn. solve_Permutation. }
  constructor; try done.
  - rewrite E. constructor; [|done]. intros H. by apply F, core_pooled0.
  - cbn. apply NoDup_app. split_and!; [done| |by apply NoDup_singleton]. set_solver.
  - intros c'. rewrite E. cbn. set_solver.
  - intros c'. cbn. rewrite elem_of_app, list_elem_of_singleton. intros [H| ->]; auto.
Qed.

Lemma core_pool_fresh b refs n : core b refs n -> n_next n ∉ n_conn_pool n.
Proof. intros [] H. specialize (core_fresh0 _ (core_alive0 _ H)). lia. Qed.

Lemma core_listen refs n : core false refs n -> core false refs (listen n).2.
Proof.
  intros C. destruct (n_listening n) eqn:L.
  - rewrite (listen_unfold n (core_mutex _ _ _ C) L). cbn [snd].
    set (n0 := n <| n_mutex := true |> <| n_next := _ |> <| n_connections := _ |>).
    assert (core true refs n0) as C0.
    { pose proof (core_lock _ true _ _ C) as C1.
      exact (core_new_connection _ _ (new_connection (n_ssl_flag n)) _ C1). }
    eapply core_lock, core_add_connection; [by apply core_prune| |].
    + intros [H _]%prune_pool. by apply (core_pool_fresh _ _ _ C).
    + apply alters_is_Some. cbn. apply lookup_insert_is_Some. by left.
  - unfold listen, with_lock, gets, bind. rewrite (core_mutex _ _ _ C). cbn. rewrite L. cbn.
    eapply core_lock, core_lock, C.
Qed.

(** a function that holds a connection of the pool keeps it free *)
Lemma free_listen c n : free c n -> free c (listen n).2.
Proof.
  intros [C F P]. split; [by apply core_listen|..]; pose proof (core_mutex _ _ _ C) as M;
    (destruct (n_listening n) eqn:L;
     [rewrite (listen_unfold n M L)
     |unfold listen, with_lock, gets, bind; rewrite M; cbn; by rewrite L]); cbn [snd].
  - unfold owners, add_connection. cbn. rewrite map_app. cbn. unfold owners in F.
    assert (c <> n_next n) as N by (intros ->; by apply (core_pool_fresh _ _ _ C)).
    set_solver.
  - set (n0 := n <| n_mutex := true |> <| n_next := _ |> <| n_connections := _ |>).
    cbn. apply elem_of_app. left. apply (prune_pool c n0). split; [done|].
    apply ref_referenced. cbn. rewrite (core_refs _ _ _ C). set_solver.
Qed.

Lemma free_bind c {A B} (m : M net A) (f : A -> M net B) n :
  free c (m n).2 -> (forall a n, free c n -> core false [c] (f a n).2) ->
  free c n -> core false [c] (bind m f n).2.
Proof.
  intros H K F. unfold bind. destruct (m n) as [[a|e|x] n1]; cbn in *; [auto|by destruct H..].
Qed.

Lemma free_if_listen c (b : bool) n :
  free c n -> free c ((if b then listen else ret tt) n).2.
Proof. destruct b; [apply free_listen|done]. Qed.

Lemma referenced_spec n c :
  referenced n c = true <->
  c ∈ n_conn_pool n \/ c ∈ owners n \/ c ∈ n_refs n \/ c ∈ map held_connection (n_held n).
Proof.
  unfold referenced, referenced_outside_pool, owners.
  rewrite !orb_true_iff, !bool_decide_eq_true, elem_of_app. tauto.
Qed.

Lemma collect_lookup n c :
  is_Some (n_connections (collect n) !! c) <->
  is_Some (n_connections n !! c) /\ referenced n c = true.
Proof.
  unfold collect. set (m := filter _ (n_connections n)).
  change (is_Some (m !! c) <-> is_Some (n_connections n !! c) /\ referenced n c = true).
  subst m. split.
  - intros [x H]. apply map_lookup_filter_Some in H as [H R]. by rewrite H.
  - intros [[x H] R]. exists x. by apply map_lookup_filter_Some.
Qed.

Lemma core_collect b refs n : core b refs n -> core b refs (collect n).
Proof.
  intros []. constructor; try done.
  - intros c H. apply collect_lookup. split; [by apply core_alive0|].
    apply referenced_spec. by left.
  - intros c [H _]%collect_lookup. by apply core_fresh0.
  - intros h H. apply collect_lookup. split; [by apply core_held0|].
    apply referenced_spec. right; right; right. apply elem_of_held. eauto.
Qed.

(** work that holds [c] *)
Lemma core_holding c {A} (m : M net A) n :
  core false [] n -> c ∉ owners n -> c ∈ n_conn_pool n ->
  (forall n, free c n -> core false [c] (m n).2) ->
  core false [] (holding c m n).2.
Proof.
  intros C F P H. unfold holding.
  assert (free c (n <| n_refs := c :: n_refs n |>)) as Fr.
  { split; try done. destruct C. constructor; try done. cbn. by rewrite core_refs0. }
  specialize (H _ Fr). destruct (m _) as [r n1]. cbn in *. destruct H.
  constructor; try done. cbn. by rewrite core_refs0.
Qed.

(** an owner is removed from the pending operations or the kept writers *)
Lemma core_remove_owner c n n0 :
  core false [] n -> owners n ≡ₚ c :: owners n0 ->
  n_mutex n0 = n_mutex n -> n_refs n0 = n_refs n -> n_next n0 = n_next n ->
  n_conn_pool n0 = n_conn_pool n -> n_connections n0 = n_connections n -> n_held n0 = n_held n ->
  core false [] n0 /\ c ∉ owners n0 /\ c ∈ n_conn_pool n0.
Proof.
  intros [] E M R X P C Hd.
  assert (c ∉ owners n0 /\ NoDup (owners n0)) as [F N]
    by (apply NoDup_cons; by rewrite <- E).
  assert (forall c', c' ∈ c :: owners n0 -> c' ∈ n_conn_pool n0) as I
    by (intros c'; rewrite <- E, P; auto).
  split_and!; [|done|apply I; set_solver].
  constructor; rewrite ?P, ?C, ?X, ?Hd; try congruence; try done.
  rewrite <- P. intros c' H. apply I. set_solver.
Qed.

Definition keeps_core {A} (m : M net A) : Prop :=
  forall b n, core b [] n -> core b [] (m n).2.

Lemma keeps_core_bind {A B} (m : M net A) (f : A -> M net B) :
  keeps_core m -> (forall a, keeps_core (f a)) -> keeps_core (bind m f).
Proof.
  intros H K b n C. specialize (H b n C). unfold bind.
  destruct (m n) as [[a|e|x] n1]; cbn in *; [by apply K|done..].
Qed.

Lemma keeps_core_lock {A} (m : M net A) : keeps_core m -> keeps_core (with_lock m).
Proof.
  intros H b n C. unfold with_lock. destruct (n_mutex n) eqn:E; [done|].
  rewrite (core_mutex _ _ _ C) in E. subst b.
  specialize (H true _ (core_lock _ true _ _ C)).
  destruct (m _) as [r n1]. by eapply core_lock.
Qed.

Lemma keeps_core_modify (f : net -> net) :
  (forall n, n_mutex (f n) = n_mutex n /\ n_refs (f n) = n_refs n /\ n_next (f n) = n_next n /\
             n_conn_pool (f n) = n_conn_pool n /\ n_pending (f n) = n_pending n /\
             n_kept (f n) = n_kept n /\ n_held (f n) = n_held n /\
             forall c, is_Some (n_connections (f n) !! c) <-> is_Some (n_connections n !! c)) ->
  keeps_core (modify f).
Proof.
  intros H b n C. destruct (H n) as (?&?&?&?&?&?&Eh&?). eapply core_same; try done.
  intros h. cbn [modify snd]. rewrite Eh. by left.
Qed.

Lemma keeps_core_if {A} (b : bool) (m1 m2 : M net A) :
  keeps_core m1 -> keeps_core m2 -> keeps_core (if b then m1 else m2).
Proof. by destruct b. Qed.

Lemma keeps_core_pure {A} (m : M net A) : (forall n, (m n).2 = n) -> keeps_core m.
Proof. intros H b n C. by rewrite H. Qed.

Ltac keeps_core :=
  repeat first
    [ apply keeps_core_pure; done
    | apply keeps_core_modify; intros ?; split_and!; done
    | apply keeps_core_modify; intros ?; split_and!; try done; intros ?; apply alters_is_Some
    | apply keeps_core_lock | apply keeps_core_if
    | apply keeps_core_bind; [|intros ?] ].

Lemma keeps_core_stop_begin wait : keeps_core (stop_begin wait).
Proof. unfold stop_begin. keeps_core. Qed.

Lemma keeps_core_stop_turn : keeps_core stop_turn.
Proof.
  unfold stop_turn. keeps_core. intros b n. apply core_prune.
Qed.

(** the connections a broadcast finds exist *)
Lemma find_ws_loop_alive alive ids fuel : forall range vec kept vec' kept',
  find_ws_loop alive ids fuel range vec kept = Val (vec', kept') ->
  Forall (fun c => alive c = true) vec -> Forall (fun c => alive c = true) vec'.
Proof.
  induction fuel as [|fuel IH]; intros range vec kept vec' kept' E F; [done|].
  destruct range as [|e range]; cbn [find_ws_loop] in E; [by injection E as <- <-|].
  destruct (_ || _); [|by eapply IH]. destruct (alive (we_conn e)) eqn:A; [|by eapply IH].
  eapply IH; [exact E|]. apply Forall_app. split; [done|by constructor].
Qed.

(** the posts of a broadcast *)
Lemma post_broadcasts message t conns n :
  broadcast conns message t n =
  (Val tt, n <| n_held := n_held n ++ map (fun c => held_broadcast c (broadcast_message t message)) conns |>).
Proof.
  unfold broadcast. set (data := broadcast_message t message). revert n. induction conns as [|c conns IH]; intros n; cbn [fold_right map].
  - unfold ret. rewrite app_nil_r. by destruct n.
  - unfold send_broadcast at 1, hold_connection, bind at 1, modify. rewrite IH. cbn.
    by rewrite <- app_assoc.
Qed.

Lemma broadcast_spec fuel path message t ids n :
  broadcast_websocket fuel path message t ids n =
  match find_ws_conns (alive n) (n_registry n) path ids fuel with
  | Val (conns, registry) =>
    (Val tt, (n <| n_registry := registry |>)
               <| n_held := n_held n ++ map (fun c => held_broadcast c (broadcast_message t message)) conns |>)
  | Exn e => (Exn e, n)
  | Fault f => (Fault f, n)
  end.
Proof.
  unfold broadcast_websocket, bind at 1, gets, id. unfold bind at 1, lift.
  destruct (find_ws_conns _ _ _ _ _) as [[conns registry]|e|f]; [|done..].
  unfold bind, modify. destruct conns as [|c conns]; cbn [length Z.of_nat Z.ltb Z.compare].
  - cbn. unfold ret. rewrite app_nil_r. by destruct n.
  - exact (post_broadcasts _ _ (c :: conns) (n <| n_registry := registry |>)).
Qed.

Lemma keeps_core_broadcast fuel path message t ids :
  keeps_core (broadcast_websocket fuel path message t ids).
Proof.
  intros b n C. rewrite broadcast_spec. unfold find_ws_conns.
  destruct (find_ws_loop _ _ _ _ _ _) as [[conns kept]|e|f] eqn:E; try exact C.
  apply find_ws_loop_alive in E; [|constructor].
  eapply (core_same b [] n); [done..| |exact C]. cbn. intros h [H|H]%elem_of_app; [by left|right].
  apply list_elem_of_In, in_map_iff in H as (c & <- & H). cbn.
  rewrite Forall_forall in E. apply list_elem_of_In, E, bool_decide_eq_true in H. exact H.
Qed.

Lemma core_start bound n : core false [] n -> core false [] (start bound n).2.
Proof.
  intros C. unfold start. set (m := with_lock _).
  assert (keeps_core m) as K by (subst m; keeps_core). specialize (K _ _ C). clearbody m.
  unfold bind. destruct (m n) as [[[]|e|x] n1]; cbn -[listen] in *; try done.
  apply core_listen in K. destruct (listen n1) as [[[]|e|x] n2]; cbn in *; try done.
  eapply core_same, K; try done. by left.
Qed.

Lemma core_complete_held before h after n :
  core false [] n -> n_held n = before ++ h :: after ->
  core false [] (complete_held h (n <| n_held := before ++ after |>)).2.
Proof.
  intros C E. unfold complete_held, holding. set (n0 := _ <| n_refs := _ |>).
  assert (core false [] (n <| n_held := before ++ after |>)) as C0.
  { eapply core_same, C; try done. cbn. intros h' H. left. rewrite E. set_solver. }
  destruct h as [c|c data]; cbn [complete_held_op]; cbn; apply core_collect;
    (eapply core_same, C0; try done); by left.
Qed.

Lemma core_new threads ssl w : core false [] (new_net threads ssl w).
Proof.
  constructor; try done; try apply NoDup_nil_2; try (intros c H; by apply not_elem_of_nil in H).
  intros c [x H]. cbn in H. by rewrite lookup_empty in H.
Qed.

End Core.

Section Steps.
Context `{SU : StaticlibUtils, MP : MultimapPolicy, UC : UserCode, WL : WebsocketLib}.
Context (srv : http_server) (garbage : Z * Z).

(** a read that completes without an error has read something *)
Definition completion_ok (op : async_op) (o : completion) : Prop :=
  match op with
  | op_read _ | op_websocket _ wait_read => o <> inr []
  | _ => True
  end.

Inductive net_step (n : net) : net -> Prop :=
| step_complete before op after o r n' :
    n_pending n = before ++ op :: after -> completion_ok op o ->
    complete srv garbage op o (n <| n_pending := before ++ after |>) = (r, n') ->
    returned r = true -> net_step n n'
| step_kept before w after reply r n' :
    n_kept n = before ++ w :: after ->
    holding (w_tcp_conn w) (run_reply (connection_finish srv garbage) reply w)
      (n <| n_kept := before ++ after |>) = (r, n') ->
    returned r = true -> net_step n (collect n')
| step_held before h after r n' :
    n_held n = before ++ h :: after ->
    complete_held h (n <| n_held := before ++ after |>) = (r, n') -> net_step n n'
| step_close c : net_step n (n <| n_connections := alter close_connection c (n_connections n) |>)
| step_start bound r n' :
    returned bound = true -> start bound n = (r, n') -> returned r = true -> net_step n (collect n')
| step_stop_begin wait r n' :
    stop_begin wait n = (r, n') -> returned r = true -> net_step n (collect n')
| step_stop_turn r n' :
    stop_turn n = (r, n') -> returned r = true -> net_step n (collect n')
| step_broadcast fuel path message t ids r n' :
    broadcast_websocket fuel path message t ids n = (r, n') -> returned r = true ->
    net_step n (collect n').

(** the states of a server that was constructed with some threads *)
Inductive reachable : net -> Prop :=
| reachable_new threads ssl w : reachable (new_net threads ssl w)
| reachable_step n n' : reachable n -> net_step n n' -> reachable n'.

Lemma core_complete_op op o n :
  free (op_connection op) n -> core false [op_connection op] (complete_op srv garbage op o n).2.
Proof.
  intros F. destruct (is_accept op) eqn:E.
  2:{ eapply free_owns; [exact F|]. apply owns_complete_op; try exact _; by destruct op. }
  destruct op as [c| | | |]; try done. cbn [complete_op op_connection] in *.
  apply free_bind; [|clear n F; intros _ n F|done].
  { destruct o; [done|]. eapply free_owns0; [done|]. apply owns_on_connection. }
  unfold handle_accept. apply free_bind; [done| |done]. clear n F. intros listening n F.
  destruct (ec_bool _); (apply free_bind; [by apply free_if_listen| |done]); clear n F; intros _ n F;
    (eapply free_owns; [done|]); [by apply (owns_connection_finish srv garbage)|].
  eapply owns_bind0; [owns_leaf|intros ssl _].
  apply owns_if; [by apply owns_start_op|].
  apply owns_handle_connection; [exact _|by apply owns_connection_finish].
Qed.


Lemma core_complete before op after o n :
  core false [] n -> n_pending n = before ++ op :: after ->
  core false [] (complete srv garbage op o (n <| n_pending := before ++ after |>)).2.
Proof.
  intros C E. set (n0 := n <| n_pending := _ |>).
  destruct (core_remove_owner (op_connection op) n n0) as (C0 & F & P); try done.
  { unfold owners. rewrite E. cbn. rewrite !map_app. cbn. solve_Permutation. }
  pose proof (core_holding _ (complete_op srv garbage op o) n0 C0 F P (core_complete_op op o)) as H.
  unfold complete. destruct (holding _ _ n0) as [r n1]. by apply core_collect.
Qed.


Lemma core_kept before w after reply n :
  core false [] n -> n_kept n = before ++ w :: after ->
  core false [] (holding (w_tcp_conn w) (run_reply (connection_finish srv garbage) reply w)
                   (n <| n_kept := before ++ after |>)).2.
Proof.
  intros C E. set (n0 := n <| n_kept := _ |>).
  destruct (core_remove_owner (w_tcp_conn w) n n0) as (C0 & F & P); try done.
  { unfold owners. rewrite E. cbn. rewrite !map_app. cbn. solve_Permutation. }
  apply core_holding; try done. intros n1 Fr.
  eapply free_owns; [done|]. apply owns_run_reply. by apply (owns_connection_finish srv garbage).
Qed.


Lemma core_step n n' : core false [] n -> net_step n n' -> core false [] n'.
Proof.
  intros C S. destruct S as [before op after o r n' E _ R _|before w after reply r n' E R _
    |before h after r n' E R|c|bound r n' _ R _|wait r n' R _|r n' R _|fuel path message t ids r n' R _];
    try apply core_collect.
  - pose proof (core_complete _ _ _ o _ C E) as H. by rewrite R in H.
  - pose proof (core_kept _ _ _ reply _ C E) as H. by rewrite R in H.
  - pose proof (core_complete_held before h after n C E) as H. by rewrite R in H.
  - eapply core_same, C; try done; intros x; [apply alter_is_Some|by left].
  - pose proof (core_start bound _ C) as H. by rewrite R in H.
  - pose proof (keeps_core_stop_begin wait _ _ C) as H. by rewrite R in H.
  - pose proof (keeps_core_stop_turn _ _ C) as H. by rewrite R in H.
  - pose proof (keeps_core_broadcast fuel path message t ids _ _ C) as H. by rewrite R in H.
Qed.


Lemma core_reachable n : reachable n -> core false [] n.
Proof. induction 1; [apply core_new|by eapply core_step]. Qed.

End Steps.
