(* ===== verification/StopProofs.v ===== *)
(** * A server that is being stopped

    Once [stop] has closed the sockets, every operation in flight fails, and
    the work that is left shrinks with each failure, whatever user code does:
    the handlers find the connection closed and finish it, a server that does
    not listen gives it up, and a websocket calls its close handler.  [op_work]
    is the measure. *)

From S2P Require Import Prelude.
From S2P Require Import Externals.
From S2P Require Import Multimap.
From S2P Require Import Strings.
From S2P Require Import Message.
From S2P Require Import Request.
From S2P Require Import ParserState.
From S2P Require Import BodyParser.
From S2P Require Import Parser.
From S2P Require Import Response.
From S2P Require Import Writer.
From S2P Require Import Routing.
From S2P Require Import Websocket.
From S2P Require Import Scheduler.
From S2P Require Import Connection.
From S2P Require Import Net.
From S2P Require Import Server.
From S2P Require Import ServerFrame.
From S2P Require Import ServerSteps.

#[local] Open Scope Z_scope.

(** ** The work an operation leaves when it fails *)

Section Work.
Context `{UC : UserCode}.

(** an operation counts one; before its close handler is called a websocket
    writes a close frame, and a posted handler may first take frames out of its
    receive buffer; a failing read may still answer a request *)
Definition ws_work (ws : websocket) (k : ws_wait) : nat :=
  match k with
  | wait_write_close => 1
  | wait_write _ | wait_read => 2
  | wait_post (then_send_internal _) => 3
  | wait_post _ => 4 + length (receive_buffer ws)
  end.

Definition op_work (op : async_op) : nat :=
  match op with
  | op_read _ => 3
  | op_websocket ws k => ws_work ws k
  | _ => 1
  end.

Definition work (ops : list async_op) : nat := list_sum (map op_work ops).

(** a close handler that destroys its websocket *)
Definition destroys (f : websocket_callback) : Prop :=
  match f with
  | receive_fun => False
  | noop_fun => True
  | user_websocket_handler h => forall ws u,
    match wsr_end (run_websocket_handler h ws u).1 with
    | ws_end_drop | ws_end_throw _ => True
    | _ => False
    end
  end.

#[local] Instance destroys_closer : Closers := destroys.

Lemma op_work_positive op : (0 < op_work op)%nat.
Proof. destruct op as [| | | |ws k]; cbn; try lia. destruct k as [| | |[]]; cbn; lia. Qed.

Lemma work_app a b : work (a ++ b) = (work a + work b)%nat.
Proof. unfold work. by rewrite map_app, list_sum_app. Qed.

Lemma work_none ops : work ops = 0%nat -> ops = [].
Proof.
  destruct ops as [|op ops]; [done|]. pose proof (op_work_positive op). cbn. unfold work in *. cbn. lia.
Qed.

End Work.

Section Stop.
Context `{SU : StaticlibUtils, MP : MultimapPolicy, UC : UserCode, WL : WebsocketLib}.
Context {WLL : WebsocketLibLaws}.
Context (srv : http_server) (garbage : Z * Z).
#[local] Existing Instance destroys_closer.
Context {TC : TableClosers srv}.

(** the connections that [stop] has closed *)
Context (closed : nat -> Prop).

(** the server does not listen and the closed sockets stay closed *)
Record calm (n : net) : Prop := mk_calm {
  calm_listening : n_listening n = false;
  calm_closed : forall c, closed c -> is_open (connection_at n c) = false;
}.

(** a computation that leaves a calm server calm and starts operations of at
    most [k] work *)
Definition winds (k : nat) {A} (Q : A -> Prop) (m : M net A) : Prop :=
  forall n, calm n ->
    calm (m n).2 /\ n_mutex (m n).2 = n_mutex n /\ n_held (m n).2 = n_held n /\
    (exists ops, n_pending (m n).2 = n_pending n ++ ops /\ (work ops <= k)%nat) /\
    (forall a, (m n).1 = Val a -> Q a).

Lemma started_none (l : list async_op) :
  exists ops, l = l ++ ops /\ (work ops <= 0)%nat.
Proof. exists []. by rewrite app_nil_r. Qed.

Lemma winds_pure {A} (Q : A -> Prop) (m : M net A) :
  (forall n, (m n).2 = n /\ forall a, (m n).1 = Val a -> Q a) -> winds 0 Q m.
Proof. intros H n C. destruct (H n) as [-> V]. split_and!; try done. apply started_none. Qed.

Lemma winds_ret {A} (Q : A -> Prop) a : Q a -> winds 0 Q (ret a).
Proof. intros H. apply winds_pure. intros n. split; [done|]. by intros a' [= <-]. Qed.

Lemma winds_throw {A} (Q : A -> Prop) e : winds 0 Q (throw e).
Proof. by apply winds_pure. Qed.

Lemma winds_modify f :
  (forall n, n_listening (f n) = n_listening n /\ n_connections (f n) = n_connections n /\
             n_pending (f n) = n_pending n /\ n_mutex (f n) = n_mutex n /\
             n_held (f n) = n_held n) -> winds 0 any (modify f).
Proof.
  intros H n [L O]. destruct (H n) as (E1 & E2 & E3 & E4 & E5). cbn. split_and!; try done.
  - split; [congruence|]. intros c. unfold connection_at. rewrite E2. apply O.
  - rewrite E3. apply started_none.
Qed.

Lemma winds_weaken k k' {A} (Q Q' : A -> Prop) m :
  (k <= k')%nat -> (forall a, Q a -> Q' a) -> winds k Q m -> winds k' Q' m.
Proof.
  intros L I H n C. destruct (H n C) as (C1 & M1 & H1 & (ops & P & W) & V). split_and!; try done; auto.
  exists ops. split; [done|lia].
Qed.

Lemma winds_more k {A} (Q : A -> Prop) m : winds 0 Q m -> winds k Q m.
Proof. intros H. eapply winds_weaken, H; [lia|done]. Qed.

Lemma winds_any k {A} (Q : A -> Prop) m : winds k Q m -> winds k any m.
Proof. intros H. by eapply winds_weaken, H. Qed.

(** one computation after another, of which the first starts nothing *)
Lemma winds_bind k {A B} (Q : A -> Prop) (Q' : B -> Prop) (m : M net A) (f : A -> M net B) :
  winds 0 Q m -> (forall a, Q a -> winds k Q' (f a)) -> winds k Q' (bind m f).
Proof.
  intros Hm Hf n C. destruct (Hm n C) as (C1 & M1 & H1 & (ops & P & W) & V).
  assert (ops = []) as -> by (apply work_none; lia). rewrite app_nil_r in P.
  unfold bind. destruct (m n) as [[a|e|x] n1]; cbn in *.
  - destruct (Hf a (V a eq_refl) n1 C1) as (C2 & M2 & H2 & O2 & V2).
    rewrite P in O2. split_and!; try done; congruence.
  - split_and!; try done. exists []. rewrite app_nil_r. split; [done|cbn; lia].
  - split_and!; try done. exists []. rewrite app_nil_r. split; [done|cbn; lia].
Qed.

(** ... or the second *)
Lemma winds_then k {A B} (m : M net A) (f : A -> M net B) :
  winds k any m -> (forall a, winds 0 any (f a)) -> winds k any (bind m f).
Proof.
  intros Hm Hf n C. destruct (Hm n C) as (C1 & M1 & H1 & (ops & P & W) & _).
  unfold bind. destruct (m n) as [[a|e|x] n1]; cbn in *; try (split_and!; try done; by exists ops).
  destruct (Hf a n1 C1) as (C2 & M2 & H2 & (ops' & P' & W') & V2).
  assert (ops' = []) as -> by (apply work_none; lia). rewrite app_nil_r, P in P'.
  split_and!; try done; try congruence. by exists ops.
Qed.

Lemma winds_if k {A} (Q : A -> Prop) (b : bool) (m1 m2 : M net A) :
  winds k Q m1 -> winds k Q m2 -> winds k Q (if b then m1 else m2).
Proof. by destruct b. Qed.

Lemma winds_try k {A} c (m h : M net A) : winds k any m -> winds 0 any h -> winds k any (try_catch c m h).
Proof.
  intros Hm Hh n C. unfold try_catch. destruct (Hm n C) as (C1 & M1 & H1 & (ops & P & W) & _).
  destruct (m n) as [[a|e|x] n1]; cbn in *; try (split_and!; try done; by exists ops).
  destruct (c e); [|cbn; split_and!; try done; by exists ops].
  destruct (Hh n1 C1) as (C2 & M2 & H2 & (ops' & P' & W') & V2).
  assert (ops' = []) as -> by (apply work_none; lia). rewrite app_nil_r, P in P'.
  split_and!; try done; try congruence. by exists ops.
Qed.

(** a change that opens no socket *)
Lemma winds_on_connection c f :
  (forall conn, is_open conn = false -> is_open (f conn) = false) -> winds 0 any (on_connection c f).
Proof.
  intros H n [L O]. cbn. split_and!; try done; [|apply started_none].
  split; [done|]. intros c' Hc. specialize (O c' Hc).
  unfold connection_at in *. cbn -[alter]. destruct (decide (c = c')) as [->|N].
  - rewrite lookup_alter_eq. destruct (n_connections n !! c'); [by apply H|done].
  - by rewrite lookup_alter_ne.
Qed.

(** a choice that depends on an open socket is not made *)
Lemma winds_open k {A} c (Q : A -> Prop) (m1 m2 : M net A) :
  closed c -> winds k Q m2 ->
  winds k Q (opened <- of_connection c is_open ;; if (opened : bool) then m1 else m2).
Proof. intros Hc H n C. unfold bind, of_connection, gets. rewrite (calm_closed n C c Hc). by apply H. Qed.

Lemma winds_with_user_post {A} (Q : A -> Prop) (f : user_world -> A * user_world) :
  (forall u, Q (f u).1) -> winds 0 Q (with_user f).
Proof.
  intros H n C. specialize (H (sw_user (n_world n))). unfold with_user. destruct (f _) as [a u]. cbn in *.
  split_and!; try done; [by destruct C|apply started_none|]. by intros a' [= <-].
Qed.

Lemma winds_with_user {A} (f : user_world -> A * user_world) : winds 0 any (with_user f).
Proof. by apply winds_with_user_post. Qed.

Lemma winds_record_sent c d : winds 0 any (record_sent c d).
Proof. apply winds_modify. intros n. by split_and!. Qed.

Lemma winds_lift {A} (r : res A) : winds 0 any (lift r).
Proof. by apply winds_pure. Qed.

Lemma winds_start_op op : winds (op_work op) any (start_op op).
Proof.
  intros n C. cbn. split_and!; try done; [by destruct C|].
  exists [op]. split; [done|cbn; lia].
Qed.

Lemma winds_lock {A} (m : M net A) : winds 0 any m -> winds 0 any (with_lock m).
Proof.
  intros H n C. unfold with_lock. destruct (n_mutex n) eqn:E.
  { split_and!; try done. apply started_none. }
  destruct (H (n <| n_mutex := true |>)) as (C1 & _ & H1 & O1 & _); [destruct C; by split|].
  destruct (m _) as [r n1]. cbn in *. split_and!; try done. by destruct C1.
Qed.

Lemma winds_finish_connection finish c : winds 0 any (finish_connection srv garbage finish c).
Proof.
  apply winds_lock. intros n C. unfold bind, gets. rewrite (calm_listening n C). cbn -[filter].
  split_and!; try done; [by destruct C|apply started_none].
Qed.

Lemma winds_finish fuel c : winds 0 any (finish_with srv garbage fuel c).
Proof. destruct fuel; [by apply winds_pure|apply winds_finish_connection]. Qed.

(** ** The handlers *)

Ltac winds_leaf :=
  apply winds_more;
  first
    [ apply winds_with_user | apply winds_record_sent | apply winds_lift
    | apply winds_on_connection; by intros []
    | apply winds_modify; intros ?; by split_and!
    | apply winds_pure; done ].

Ltac winds_step :=
  first [ winds_leaf | apply winds_if | eapply winds_bind; [winds_leaf|intros ? _] ].

Section WithFinish.
Context (finish : nat -> M net unit) (winds_fin : forall c, winds 0 any (finish c)).

Lemma winds_send_more_data final k w :
  closed (w_tcp_conn w) -> winds 0 any (send_more_data finish final k w).
Proof. intros Hc. apply winds_open; [done|apply winds_fin]. Qed.

Lemma winds_send_chunk h w : closed (w_tcp_conn w) -> winds 0 any (send_chunk finish h w).
Proof.
  intros Hc. unfold send_chunk. eapply winds_bind; [apply winds_if; winds_leaf|intros _ _].
  apply winds_open; [done|apply winds_fin].
Qed.

Lemma winds_run_reply r w : closed (w_tcp_conn w) -> winds 0 any (run_reply finish r w).
Proof.
  intros Hc. unfold run_reply. rewrite <- (run_writer_calls_conn (wr_calls r) w) in Hc.
  set (w' := fold_left run_writer_call (wr_calls r) w) in *. clearbody w'.
  unfold send, send_final_chunk. destruct (wr_end r); try winds_leaf;
    (apply winds_send_more_data || apply winds_send_chunk); done.
Qed.

Lemma winds_call_request_handler h req w :
  closed (w_tcp_conn w) -> winds 0 any (call_request_handler finish h req w).
Proof.
  intros Hc. destruct h; cbn [call_request_handler].
  - apply winds_send_more_data. by rewrite write_nocopy_conn.
  - apply winds_send_more_data. by rewrite write_nocopy_conn, write_conn, write_nocopy_conn.
  - winds_step. by apply winds_run_reply.
Qed.

(** *** WebSockets *)

(** the work of the operation that an action ends with *)
Definition action_work (ws : websocket) (a : ws_action) : nat :=
  match a with
  | ws_write _ k => ws_work ws (wait_write k)
  | ws_write_close _ => ws_work ws wait_write_close
  | ws_read => ws_work ws wait_read
  | ws_post k => ws_work ws (wait_post k)
  | ws_call _ => 3 + length (receive_buffer ws)
  end.

(** what a member returns: an action of at most [k] work *)
Definition member_winds (k : nat) (r : res (websocket * ws_action)) : Prop :=
  forall ws a, r = Val (ws, a) -> (action_work ws a <= k)%nat.

Lemma winds_remove_frame f ws :
  forall ws', remove_frame_from_receive_buffer f ws = Val ws' ->
  ws' = ws <| receive_buffer := drop (Z.to_nat (frame_size f)) (receive_buffer ws) |>.
Proof. unfold remove_frame_from_receive_buffer. destruct (_ <=? _); by intros ? [= <-]. Qed.

Lemma winds_process_receive_buffer ws :
  member_winds (3 + length (receive_buffer ws)) (process_receive_buffer ws).
Proof.
  intros ws' a. unfold process_receive_buffer.
  destruct (frame_is_well_formed (receive_buffer ws)) eqn:W; cbn [negb];
    [|intros [= <- <-]; cbn; lia].
  destruct (frame_is_complete (receive_buffer ws)) eqn:C; cbn [negb];
    [|intros [= <- <-]; cbn; lia].
  pose proof (frame_size_complete _ W C) as L.
  destruct (frame_is_final _); cbn [negb].
  - unfold process_final_frame. destruct (frame_type_of _); intros [= <- <-];
      unfold on_ping, websocket_write; repeat case_match; cbn; lia.
  - unfold on_continuation. destruct (frames_cache_overflow ws); [intros [= <- <-]; cbn; lia|].
    destruct (add_to_frames_cache _ ws) as [ws1|e|f] eqn:E; [|done..]. intros [= <- <-].
    apply winds_remove_frame in E. subst ws1. cbn. rewrite length_drop. unfold slen in L. lia.
Qed.

Lemma winds_receive ws : member_winds (3 + length (receive_buffer ws)) (websocket_receive ws).
Proof.
  intros ws' a. unfold websocket_receive, clear_frames_cache.
  assert (forall ws1, (length (receive_buffer ws1) <= length (receive_buffer ws))%nat ->
    process_receive_buffer ws1 = Val (ws', a) ->
    (action_work ws' a <= 3 + length (receive_buffer ws))%nat) as K.
  { intros ws1 L E. apply winds_process_receive_buffer in E. lia. }
  destruct (last (frames ws)) as [b|]; [|by apply K].
  destruct (remove_frame_from_receive_buffer b ws) as [ws1|e|f] eqn:E; [|done..].
  apply winds_remove_frame in E. subst ws1. apply K. cbn. rewrite length_drop. lia.
Qed.

Lemma winds_send_message t k ws : member_winds 3 (send_message t k ws).
Proof.
  intros ws' a. unfold send_message, prepare_header. destruct (payload_buffers ws); [done|].
  intros [= <- <-]. cbn. lia.
Qed.

Lemma winds_destroy_websocket ws : winds 0 any (destroy_websocket finish ws).
Proof. apply winds_try; [apply winds_fin|winds_leaf]. Qed.

(** what a callback leaves to do *)
Definition next_winds (k : nat) (x : option (websocket * ws_action)) : Prop :=
  match x with Some (ws, a) => (action_work ws a <= k)%nat | None => True end.

Lemma winds_member k k' r :
  (k <= k')%nat -> member_winds k r -> winds 0 (next_winds k') (x <- lift r ;; ret (Some x)).
Proof.
  intros L H. apply winds_pure. intros n. unfold bind, lift, ret. destruct r as [[ws a]|e|f]; cbn.
  - split; [done|]. intros x [= <-]. pose proof (H ws a eq_refl). cbn. lia.
  - done.
  - done.
Qed.

Lemma winds_destroyed {A} (Q : A -> Prop) ws (m : M net A) :
  winds 0 Q m -> winds 0 Q (destroy_websocket finish ws ;;; m).
Proof. intros H. eapply winds_bind; [apply winds_destroy_websocket|by intros _ _]. Qed.

Lemma winds_ws_reply r ws :
  winds 0 (next_winds (3 + length (receive_buffer ws))) (run_ws_reply finish r ws).
Proof.
  unfold run_ws_reply.
  assert (forall ds ws, receive_buffer (fold_left (fun ws d => websocket_write d ws) ds ws) =
                        receive_buffer ws) as K.
  { intros ds. induction ds as [|d ds IH]; intros ws1; [done|]. cbn [fold_left]. rewrite IH.
    unfold websocket_write. by case_match. }
  rewrite <- (K (wsr_writes r) ws). clear K. set (ws1 := fold_left _ _ _). clearbody ws1.
  destruct (wsr_end r).
  - eapply winds_member, winds_receive; done.
  - eapply winds_member, winds_send_message; lia.
  - eapply winds_member, winds_send_message; lia.
  - apply (winds_member 1); [lia|]. intros ws' a [= <- <-]. cbn. lia.
  - apply winds_destroyed. by apply winds_ret.
  - apply winds_destroyed, winds_throw.
Qed.

Lemma winds_callback f ws :
  winds 0 (next_winds (3 + length (receive_buffer ws))) (call_websocket_handler finish f ws).
Proof.
  destruct f as [| |h]; cbn [call_websocket_handler].
  - eapply winds_member, winds_receive; done.
  - apply winds_destroyed. by apply winds_ret.
  - eapply winds_bind; [apply winds_with_user|intros r _]. by apply winds_ws_reply.
Qed.

(** the last callback *)
Lemma winds_close_callback f ws :
  destroys f -> winds 0 (fun x => x = None) (call_websocket_handler finish f ws).
Proof.
  intros Df. destruct f as [| |h]; cbn [call_websocket_handler]; [done| |].
  - apply winds_destroyed. by apply winds_ret.
  - eapply winds_bind.
    + apply (winds_with_user_post (fun r => match wsr_end r with
        | ws_end_drop | ws_end_throw _ => True | _ => False end)), (Df ws).
    + intros r Hr. cbn beta in Hr. unfold run_ws_reply. set (ws1 := fold_left _ _ _). clearbody ws1.
      destruct (wsr_end r); try (by destruct Hr); apply winds_destroyed; [by apply winds_ret|apply winds_throw].
Qed.

Lemma winds_perform_with fuel : forall ws a k,
  (action_work ws a <= k)%nat -> winds k any (perform_with finish fuel ws a).
Proof.
  induction fuel as [|fuel IH]; intros ws a k L; destruct a as [bufs c|st| |c|f]; cbn [perform_with];
    try (eapply winds_bind; [winds_leaf|intros _ _]);
    try (eapply winds_weaken, winds_start_op; [exact L|done]).
  - winds_leaf.
  - eapply winds_bind; [by apply winds_callback|]. intros [[ws' a']|] N; [|winds_leaf].
    cbn in L, N. apply IH. lia.
Qed.

Lemma winds_perform_result k r : member_winds k r -> winds k any (perform_result finish r).
Proof.
  intros H. unfold perform_result.
  apply (winds_bind k (fun x => (action_work x.1 x.2 <= k)%nat)).
  - apply winds_pure. intros n. split; [done|]. intros [ws a] E. by apply H.
  - intros [ws a] L. by apply winds_perform_with.
Qed.

(** ** Requests *)

Lemma winds_handle_invalid req c ec :
  closed c -> winds 0 any (handle_invalid_request srv finish req c ec).
Proof.
  intros Hc. unfold handle_invalid_request. winds_step. intros n C.
  unfold bind, of_connection, gets. rewrite (calm_closed n C c Hc). cbn [andb]. by apply winds_fin.
Qed.

Lemma winds_handle_request req c ec : closed c -> winds 2 any (handle_request srv finish req c ec).
Proof.
  intros Hc. unfold handle_request.
  apply winds_if; [by apply winds_more, winds_handle_invalid|]. apply winds_if.
  - unfold find_ws_handlers. apply winds_if; [|by apply winds_more, winds_call_request_handler].
    unfold start_websocket. winds_step. eapply winds_then; [|intros _; winds_leaf].
    apply winds_perform_result. intros ws' act [= <- <-]. cbn. lia.
  - apply winds_more. apply winds_if; [by apply winds_send_more_data|].
    winds_step. winds_step. destruct a0 as [[k h]|]; [|by apply winds_call_request_handler].
    apply winds_try; [by apply winds_call_request_handler|winds_leaf].
Qed.


Lemma winds_read_error r e :
  closed (rd_tcp_conn r) -> winds 2 any (handle_read_error srv finish r e).
Proof.
  intros Hc. unfold handle_read_error. winds_step.
  eapply (winds_bind 2 (fun x => rd_tcp_conn x.2 = rd_tcp_conn r)).
  - intros n C. unfold run_parser. destruct (check_premature_eof _) as [[x|e'|f] s]; cbn;
      split_and!; try done; try (by destruct C); try apply started_none. by intros x' [= <-].
  - intros [[premature ec] r'] E. cbn in E. rewrite <- E in Hc.
    apply winds_if; by apply winds_handle_request.
Qed.

(** the close handler is called *)
Lemma winds_perform_close ws f : destroys f -> winds 0 any (perform finish ws (ws_call f)).
Proof.
  intros D. unfold perform. rewrite Nat.add_comm. cbn [perform_with Nat.add].
  eapply winds_bind; [by apply winds_close_callback|]. intros x ->. winds_leaf.
Qed.

End WithFinish.

(** ** Operations that fail *)

Lemma winds_continue k ws : member_winds (ws_work ws (wait_post k) - 1) (continue k ws).
Proof.
  destruct k; cbn [continue ws_work Nat.sub Nat.add];
    try (intros ws' a [= <- <-]; cbn; lia); [apply winds_receive|apply winds_process_receive_buffer].
Qed.

Lemma winds_failed op e :
  closed (op_connection op) -> op_closer op -> ec_bool e = true ->
  winds (op_work op - 1) any (complete_op srv garbage op (inl e)).
Proof.
  intros Hc D E. pose proof (winds_finish 2) as F.
  destruct op as [c|c|r|w [h|]|ws k]; cbn [complete_op completion_error op_connection op_work op_closer] in *.
  - winds_step. unfold handle_accept. rewrite E. intros n C.
    unfold bind, gets. rewrite (calm_listening n C). by apply F.
  - unfold handle_ssl_handshake. rewrite E. apply F.
  - by apply winds_read_error.
  - winds_step. by apply winds_run_reply.
  - apply F.
  - destruct k as [k| | |k]; cbn [complete_op completion_error].
    + rewrite E. apply winds_perform_result; [exact F|]. by intros ws' a [= <- <-].
    + exact (winds_perform_close _ F ws _ D).
    + apply winds_perform_result; [exact F|]. by intros ws' a [= <- <-].
    + apply winds_perform_result; [exact F|]. apply winds_continue.
Qed.

(** ** All of them *)

(** a server that is being stopped *)
Record stopping (n : net) : Prop := mk_stopping {
  stp_calm : calm n;
  stp_closed : Forall (fun op => closed (op_connection op)) (n_pending n);
  stp_destroys : Forall op_closer (n_pending n);
}.

Lemma calm_collect n : calm n -> calm (collect n).
Proof.
  intros [L O]. split; [done|]. intros c Hc. specialize (O c Hc). unfold connection_at in *.
  unfold collect. cbn -[filter]. destruct (filter _ _ !! c) as [conn|] eqn:F; [|done].
  apply map_lookup_filter_Some in F as [F _]. by rewrite F in O.
Qed.

(** what is started works on the same connection, and its websocket has a
    handler that destroys it *)
Lemma failed_starts op e n :
  n_listening n = false -> op_closer op -> ec_bool e = true ->
  exists ops, n_pending (complete_op srv garbage op (inl e) n).2 = n_pending n ++ ops /\
    Forall (op_of (op_connection op)) ops.
Proof.
  intros L D E. assert (touches (op_connection op) 1 n (complete_op srv garbage op (inl e) n).2) as T.
  { destruct (is_accept op) eqn:A; [|by apply owns_complete_op].
    destruct op as [c| | | |]; try done. cbn [complete_op completion_error op_connection].
    unfold bind at 1, ret, handle_accept. rewrite E. unfold bind at 1, gets, bind. rewrite L.
    by apply (owns_connection_finish srv garbage c). }
  destruct (t_owners _ _ _ _ T) as (ops & ws & P & _ & Fo & _). by exists ops.
Qed.

(** one fails: what was in flight is less *)
Lemma stopping_complete n before op after e :
  stopping n -> ec_bool e = true -> n_pending n = before ++ op :: after ->
  let n' := (complete srv garbage op (inl e) (n <| n_pending := before ++ after |>)).2 in
  stopping n' /\ n_held n' = n_held n /\ (S (work (n_pending n')) <= work (n_pending n))%nat.
Proof.
  intros [C Cl Ds] E P. rewrite P in Cl, Ds. apply Forall_app in Cl as [Cl1 Cl2], Ds as [Ds1 Ds2].
  apply Forall_cons_iff in Cl2 as [Clo Cl2], Ds2 as [Dso Ds2]. cbv zeta. unfold complete, holding.
  set (n0 := n <| n_pending := before ++ after |> <| n_refs := _ |>).
  assert (calm n0) as C0 by (destruct C; by split).
  destruct (winds_failed op e Clo Dso E n0 C0) as (C1 & _ & H1 & (ops & P1 & W1) & _).
  destruct (failed_starts op e n0 (calm_listening _ C0) Dso E) as (ops' & P2 & F2).
  rewrite P1 in P2. apply app_inv_head in P2. subst ops'.
  destruct (complete_op srv garbage op (inl e) n0) as [r n1]. cbn [snd] in *.
  set (n2 := collect _).
  assert (n_pending n2 = (before ++ after) ++ ops) as P3 by exact P1.
  pose proof (op_work_positive op). split; [|split; [exact H1|]].
  - split; rewrite ?P3.
    + apply calm_collect. destruct C1. by split.
    + rewrite !Forall_app. split_and!; try done. eapply Forall_impl; [exact F2|].
      intros op' [Eo _]. by rewrite Eo.
    + rewrite !Forall_app. split_and!; try done. eapply Forall_impl; [exact F2|by intros op' []].
  - rewrite P3, P, !work_app. unfold work at 5. cbn [map list_sum]. unfold list_sum. cbn [fold_right].
    fold (list_sum (map op_work after)). fold (work after). lia.
Qed.

(** a held handler runs *)
Lemma stopping_held n before h after :
  stopping n -> n_held n = before ++ h :: after ->
  let n' := (complete_held h (n <| n_held := before ++ after |>)).2 in
  stopping n' /\ n_pending n' = n_pending n /\ n_held n' = before ++ after.
Proof.
  intros [C Cl Ds] P. cbv zeta. unfold complete_held, holding.
  destruct h as [c|c data]; cbn [complete_held_op]; cbn -[collect]; (split; [|done]);
    (split; [apply calm_collect; destruct C; by split|done|done]).
Qed.

(** what happens to a server that is being stopped, one event after the
    other: an operation fails, or a held handler runs; the numbers choose
    which *)
Definition wind_event : Type := (nat * error_code) + nat.

Definition wind_step (n : net) (ev : wind_event) : net :=
  match ev with
  | inl (i, e) =>
    let j := (i mod length (n_pending n))%nat in
    match n_pending n !! j with
    | Some op =>
      (complete srv garbage op (inl e)
         (n <| n_pending := take j (n_pending n) ++ drop (S j) (n_pending n) |>)).2
    | None => n
    end
  | inr i =>
    let j := (i mod length (n_held n))%nat in
    match n_held n !! j with
    | Some h => (complete_held h (n <| n_held := take j (n_held n) ++ drop (S j) (n_held n) |>)).2
    | None => n
    end
  end.

Definition wind_down (evs : list wind_event) (n : net) : net := fold_left wind_step evs n.

Definition failures (evs : list wind_event) : nat :=
  list_sum (map (fun ev => match ev with inl _ => 1 | inr _ => 0 end%nat) evs).

Definition handlers_run (evs : list wind_event) : nat :=
  list_sum (map (fun ev => match ev with inl _ => 0 | inr _ => 1 end%nat) evs).

Lemma failures_cons ev evs : failures (ev :: evs) = (failures [ev] + failures evs)%nat.
Proof. exact (list_sum_app [_] (map _ evs)). Qed.

Lemma handlers_run_cons ev evs : handlers_run (ev :: evs) = (handlers_run [ev] + handlers_run evs)%nat.
Proof. exact (list_sum_app [_] (map _ evs)). Qed.

Definition event_fails (ev : wind_event) : Prop :=
  match ev with inl (_, e) => ec_bool e = true | inr _ => True end.

Lemma chosen {A} (l : list A) i :
  let j := (i mod length l)%nat in
  match l !! j with Some x => l = take j l ++ x :: drop (S j) l | None => l = [] end.
Proof.
  cbv zeta. destruct l as [|y l]; [done|]. set (j := (i mod length (y :: l))%nat).
  assert (j < length (y :: l))%nat as J by (apply Nat.mod_upper_bound; cbn; lia).
  destruct (lookup_lt_is_Some_2 _ _ J) as [x Hx]. rewrite Hx. symmetry. by apply take_drop_middle.
Qed.

Lemma wind_step_less ev n :
  event_fails ev -> stopping n -> core false [] n ->
  let n' := wind_step n ev in
  stopping n' /\ core false [] n' /\
  (work (n_pending n') <= work (n_pending n) - failures [ev])%nat /\
  (length (n_held n') <= length (n_held n) - handlers_run [ev])%nat.
Proof.
  intros E St C. destruct ev as [[i e]|i]; cbn [wind_step failures handlers_run map list_sum].
  - pose proof (chosen (n_pending n) i) as P. cbv zeta in P |- *.
    destruct (n_pending n !! _) as [op|].
    + destruct (stopping_complete n _ op _ e St E P) as (St1 & H1 & W1).
      pose proof (core_complete srv garbage _ op _ (inl e) n C P) as C1.
      split_and!; [done|done|cbn; lia|rewrite H1; cbn; lia].
    + rewrite P. split_and!; try done; cbn; lia.
  - pose proof (chosen (n_held n) i) as P. cbv zeta in P |- *.
    destruct (n_held n !! _) as [h|].
    + destruct (stopping_held n _ h _ St P) as (St1 & P1 & H1).
      pose proof (core_complete_held _ h _ n C P) as C1.
      split_and!; [done|done|rewrite P1; cbn; lia|]. rewrite H1.
      apply (f_equal length) in P. rewrite length_app in P |- *. cbn in P |- *. lia.
    + rewrite P. split_and!; try done; cbn; lia.
Qed.

Lemma wind_down_ends evs : Forall event_fails evs -> forall n,
  stopping n -> core false [] n ->
  (work (n_pending n) <= failures evs)%nat -> (length (n_held n) <= handlers_run evs)%nat ->
  let n' := wind_down evs n in
  n_pending n' = [] /\ n_held n' = [] /\ core false [] n'.
Proof.
  induction 1 as [|ev evs E F IH]; intros n St C W H.
  - cbn in *. split_and!; [apply work_none; lia| |done]. destruct (n_held n); [done|cbn in H; lia].
  - destruct (wind_step_less ev n E St C) as (St1 & C1 & W1 & H1).
    rewrite failures_cons in W. rewrite handlers_run_cons in H. apply IH; done || lia.
Qed.

End Stop.

(** ** [stop] without waiting *)

Section StopBegin.
Context `{SU : StaticlibUtils, MP : MultimapPolicy, UC : UserCode, WL : WebsocketLib}.
#[local] Existing Instance destroys_closer.

Lemma close_all_closes (l : list nat) (m : gmap nat tcp_connection) c :
  c ∈ l -> is_open (default (new_connection false) (fold_right (alter close_connection) m l !! c)) = false.
Proof.
  assert (forall conn, is_open (close_connection conn) = false) as K
    by (intros conn; unfold close_connection; by destruct (is_open conn) eqn:E).
  induction l as [|c' l IH]; cbn -[alter]; [by intros H%not_elem_of_nil|].
  intros H. destruct (decide (c' = c)) as [->|N].
  - rewrite lookup_alter_eq. by destruct (fold_right _ m l !! c) as [conn|]; cbn.
  - rewrite lookup_alter_ne by done. apply IH. apply elem_of_cons in H as [H|H]; [by subst|done].
Qed.

Lemma stop_begin_stopping n :
  core false [] n -> n_listening n = true -> Forall op_closer (n_pending n) ->
  let n' := (stop_begin false n).2 in
  stopping (fun c => c ∈ n_conn_pool n) n' /\ n_pending n' = n_pending n /\ n_held n' = n_held n.
Proof.
  intros C L D. unfold stop_begin, with_lock, bind, gets. rewrite (core_mutex _ _ _ C).
  change (n_listening (n <| n_mutex := true |>)) with (n_listening n). rewrite L.
  cbn -[fold_right]. split; [|done]. split; [split; [done|]| |exact D].
  - intros c Hc. unfold connection_at. cbn -[fold_right]. by apply close_all_closes.
  - apply Forall_forall. intros op Ho. apply (core_pooled _ _ _ C).
    unfold owners. apply elem_of_app. left. cbn in Ho. apply list_elem_of_In, in_map, list_elem_of_In. exact Ho.
Qed.

End StopBegin.

(** ** The close handlers of the websockets in flight are those of the tables *)

Section Closers.
Context `{SU : StaticlibUtils, MP : MultimapPolicy, UC : UserCode, WL : WebsocketLib}.
Context {CL : Closers} (srv : http_server) (garbage : Z * Z) {TC : TableClosers srv}.

Definition with_closers (n : net) : Prop := Forall op_closer (n_pending n).

Definition keeps_closers {A} (m : M net A) : Prop :=
  forall n, with_closers n -> with_closers (m n).2.

Lemma keeps_closers_owns {A} c k (Q : A -> Prop) m : owns c k Q m -> keeps_closers m.
Proof.
  intros O n W. destruct (O n) as [T _]. destruct (t_owners _ _ _ _ T) as (ops & ws & P & _ & F & _).
  unfold with_closers. rewrite P. apply Forall_app. split; [done|].
  eapply Forall_impl; [exact F|by intros op []].
Qed.

Lemma keeps_closers_bind {A B} (m : M net A) (f : A -> M net B) :
  keeps_closers m -> (forall a, keeps_closers (f a)) -> keeps_closers (bind m f).
Proof.
  intros H K n W. specialize (H n W). unfold bind. destruct (m n) as [[a|e|x] n1]; [by apply K|done..].
Qed.

Lemma keeps_closers_same {A} (m : M net A) :
  (forall n, n_pending (m n).2 = n_pending n) -> keeps_closers m.
Proof. intros H n W. unfold with_closers. by rewrite H. Qed.

Lemma keeps_closers_lock {A} (m : M net A) : keeps_closers m -> keeps_closers (with_lock m).
Proof.
  intros H n W. unfold with_lock. destruct (n_mutex n); [done|].
  match goal with |- context [m ?n0] => specialize (H n0 W); destruct (m n0) as [r n1] end. exact H.
Qed.

Lemma keeps_closers_listen : keeps_closers listen.
Proof.
  apply keeps_closers_lock, keeps_closers_bind; [by apply keeps_closers_same|intros []];
    [|by apply keeps_closers_same].
  do 5 (apply keeps_closers_bind; [by apply keeps_closers_same|intros ?]).
  by eapply keeps_closers_owns, owns_start_op.
Qed.

Lemma keeps_closers_complete_op op o :
  op_closer op -> keeps_closers (complete_op srv garbage op o).
Proof.
  intros D. destruct (is_accept op) eqn:A; [|exact (keeps_closers_owns _ _ _ _ (owns_complete_op srv garbage op o A D))].
  destruct op as [c| | | |]; try done. cbn [complete_op]. apply keeps_closers_bind; [|intros _].
  { destruct o; by apply keeps_closers_same. }
  unfold handle_accept. apply keeps_closers_bind; [by apply keeps_closers_same|intros listening].
  assert (keeps_closers (if listening then listen else ret tt)) as L
    by (destruct listening; [apply keeps_closers_listen|by apply keeps_closers_same]).
  destruct (ec_bool _); (apply keeps_closers_bind; [exact L|intros _]).
  - by eapply keeps_closers_owns, (owns_connection_finish srv garbage).
  - apply keeps_closers_bind; [by apply keeps_closers_same|intros []].
    + by eapply keeps_closers_owns, owns_start_op.
    + eapply keeps_closers_owns, owns_handle_connection; [exact _|by apply owns_connection_finish].
Qed.

Lemma keeps_closers_holding {A} c (m : M net A) : keeps_closers m -> keeps_closers (holding c m).
Proof.
  intros H n W. unfold holding.
  match goal with |- context [m ?n0] => specialize (H n0 W); destruct (m n0) as [r n1] end. exact H.
Qed.

Lemma reachable_closers n : reachable srv garbage n -> with_closers n.
Proof.
  induction 1 as [threads ssl w|n n' _ W S]; [constructor|].
  destruct S as [before op after o r n' E _ R _|before w after reply r n' E R _
    |before h after r n' E R|c|bound r n' _ R _|wait r n' R _|r n' R _|fuel path message t ids r n' R _].
  - unfold with_closers in W. rewrite E in W. apply Forall_app in W as [W1 W2].
    apply Forall_cons_iff in W2 as [Wo W2].
    pose proof (keeps_closers_holding (op_connection op) _ (keeps_closers_complete_op op o Wo)
      (n <| n_pending := before ++ after |>)) as K.
    unfold complete in R. destruct (holding _ _ _) as [x n1]. injection R as _ <-.
    apply K. by apply Forall_app.
  - assert (keeps_closers (holding (w_tcp_conn w) (run_reply (connection_finish srv garbage) reply w))) as K.
    { eapply keeps_closers_holding, keeps_closers_owns, owns_run_reply.
      by apply (owns_connection_finish srv garbage). }
    specialize (K (n <| n_kept := before ++ after |>)). rewrite R in K. by apply K.
  - destruct h; unfold complete_held, holding in R; cbn -[collect] in R; by injection R as _ <-.
  - done.
  - assert (keeps_closers (start bound)) as K.
    { unfold start. apply keeps_closers_bind.
      - apply keeps_closers_lock, keeps_closers_bind; [by apply keeps_closers_same|intros []];
          [by apply keeps_closers_same|].
        apply keeps_closers_bind; [by apply keeps_closers_same|intros []]. by apply keeps_closers_same.
      - intros []; [by apply keeps_closers_same|].
        apply keeps_closers_bind; [apply keeps_closers_listen|intros _]. by apply keeps_closers_same. }
    specialize (K n W). by rewrite R in K.
  - assert (keeps_closers (stop_begin wait)) as K.
    { apply keeps_closers_lock, keeps_closers_bind; [by apply keeps_closers_same|intros []];
        by apply keeps_closers_same; destruct wait. }
    specialize (K n W). by rewrite R in K.
  - assert (keeps_closers stop_turn) as K.
    { apply keeps_closers_lock, keeps_closers_bind; [by apply keeps_closers_same|intros pool].
      apply keeps_closers_bind; [|intros left]; apply keeps_closers_same.
      - by destruct (bool_decide _).
      - by destruct (left =? 0). }
    specialize (K n W). by rewrite R in K.
  - rewrite broadcast_spec in R. destruct (find_ws_conns _ _ _ _ _) as [[conns registry]|e|f];
      by injection R as _ <-.
Qed.

End Closers.
