(* ===== verification/RefServer.v ===== *)
(** * Concrete user code and a concrete frame format

    Instances of [UserEnv], [HandlerTypes], [UserCode] and [WebsocketLib] on
    which the examples about the server are evaluated, like [RefUtils] for the
    libraries below it.  No theorem is about them. *)

From S2P Require Import Prelude.
From S2P Require Import Externals.
From S2P Require Import Multimap.
From S2P Require Import Strings.
From S2P Require Import Message.
From S2P Require Import Request.
From S2P Require Import Response.
From S2P Require Import Writer.
From S2P Require Import Routing.
From S2P Require Import Websocket.
From S2P Require Import Scheduler.
From S2P Require Import Connection.
From S2P Require Import Net.
From S2P Require Import Server.
From S2P Require Import RefUtils.
From S2P Require Import RoutingTheorems.

#[local] Open Scope Z_scope.

(** ** Frames: one byte for the type and the final bit, one for the length,
    and the payload *)

Definition ref_frame_type (c : char) : frame_type :=
  match int_of_uchar c mod 16 with
  | 0 => ft_continuation | 1 => ft_text | 2 => ft_binary | 8 => ft_close | 9 => ft_ping
  | _ => ft_other
  end.

Definition ref_frame_code (t : frame_type) : Z :=
  match t with
  | ft_continuation => 0 | ft_text => 1 | ft_binary => 2 | ft_close => 8 | ft_ping => 9 | _ => 3
  end.

Definition ref_frame_size (s : str) : Z :=
  match s with _ :: l :: _ => 2 + int_of_uchar l | _ => 2 end.

#[export] Instance ref_websocket : WebsocketLib := {|
  frame_is_well_formed s :=
    match s with [] => true | c :: _ => negb (bool_decide (ref_frame_type c = ft_other)) end;
  frame_is_complete s := ref_frame_size s <=? slen s;
  frame_is_final s := match s with [] => false | c :: _ => 128 <=? int_of_uchar c end;
  frame_type_of s := match s with [] => ft_invalid | c :: _ => ref_frame_type c end;
  frame_size := ref_frame_size;
  frame_payload_unmasked s := take (Z.to_nat (ref_frame_size s - 2)) (drop 2 s);
  frame_make_header t n := [char_of_Z (128 + ref_frame_code t); char_of_Z n];
  make_response_line := bs "HTTP/1.1 101 Switching Protocols" ++ STRING_CRLF;
  make_response_headers key := [(bs "Upgrade", bs "websocket"); (bs "Sec-WebSocket-Accept", key)];
|}.

(** a frame as bytes *)
Definition ref_frame (final : bool) (t : frame_type) (payload : str) : str :=
  char_of_Z ((if final then 128 else 0) + ref_frame_code t) :: char_of_Z (slen payload) :: payload.

(** ** User code: its world is the bytes payload handlers were given *)

#[export] Instance ref_user_env : UserEnv := {|
  user_world := list (nat * char);
  payload_handler := nat;
  run_payload_handler h data w := (None, w ++ map (pair h) data);
|}.

(** request handler 0 throws, 1 answers, 2 keeps the writer, 3 sends a first
    chunk, the others drop the writer *)
Definition ref_reply (h : nat) : writer_reply nat :=
  match h with
  | 0%nat => mk_writer_reply [] (end_throw ExnStd)
  | 1%nat => mk_writer_reply [call_write (bs "hello")] end_send
  | 2%nat => mk_writer_reply [] end_keep
  | 3%nat => mk_writer_reply [call_write (bs "hello")] (end_send_chunk 1%nat)
  | _ => mk_writer_reply [] end_drop
  end.

#[export] Instance ref_user_code : UserCode := {|
  send_handler := nat;
  create_payload_handler creator req w := (inr creator, (req, w));
  run_request_handler h req w u := (ref_reply h, u);
  run_send_handler h failed w u := (mk_writer_reply [] end_send_final_chunk, u);
  run_websocket_handler h ws u :=
    (match h with
     | 0%nat => mk_ws_reply _ [] ws_end_receive
     | 1%nat => mk_ws_reply _ [message_data ws] (ws_end_send ft_text)
     | 2%nat => mk_ws_reply _ [] (ws_end_close normal)
     | _ => mk_ws_reply _ [] ws_end_drop
     end, u);
|}.

(** what a client sends *)
Definition ref_get (path : str) : str := bs "GET " ++ path ++ bs " HTTP/1.1" ++ STRING_CRLF ++ STRING_CRLF.

(** completing the operation at a position of the list of pending ones *)
Definition complete_nth (srv : http_server) (i : nat) (o : completion) (n : net) : net :=
  match n_pending n !! i with
  | Some op =>
    (complete srv (0, 0) op o
       (n <| n_pending := take i (n_pending n) ++ drop (S i) (n_pending n) |>)).2
  | None => n
  end.

(** a server with a handler at /a, started, with a client connected *)
Definition ref_server : http_server :=
  match sample_server with Val s => s | _ => new_http_server end.

Definition ref_net : net := new_net 2 false (mk_server_world _ [] []).

Definition ref_started : net := (start (Val tt) ref_net).2.

Definition ref_accepted : net := complete_nth ref_server 0 (inr []) ref_started.

(** two requests in one read *)
Definition ref_answered : net :=
  complete_nth ref_server 1 (inr (ref_get (bs "/a/b") ++ ref_get (bs "/c"))) ref_accepted.

(** a request and the start of something that is not one, and then the client
    closes the connection *)
Definition ref_hung_up : net :=
  let n := complete_nth ref_server 1 (inr (ref_get (bs "/a/b") ++ bs "(" ++ ref_get (bs "/c"))) ref_accepted in
  n <| n_connections := alter close_connection 0%nat (n_connections n) |>.
