(* ===== verification/MessageSource.v ===== *)
(** * Reading a message (websocket.hpp, [msg_data_src])

    A message callback reads the message it was called for through a source
    that [websocket::message_data] makes: one source over the only frame, or
    several in a row over the frames of a fragmented message.  The file also
    shows that these reads deliver [message_data] of [Websocket.v], whatever
    the sizes of the buffers the callback reads into. *)

From S2P Require Import Prelude.
From S2P Require Import Externals.
From S2P Require Import Request.
From S2P Require Import Routing.
From S2P Require Import Websocket.

#[local] Open Scope Z_scope.

(** [sl::websocket::masked_payload_source], the source over no payload, and
    [sl::io::multi_source].  [None] is the end of the data. *)
Class SourceLib := {
  payload_source : Type;
  payload_unmasked : str -> payload_source;
  no_payload : payload_source;
  source_read : Z -> payload_source -> option str * payload_source;
  multi_source : Type;
  make_multi_source : list payload_source -> multi_source;
  multi_read : Z -> multi_source -> option str * multi_source;
}.

(** a read of a source that has [rest] left, into a buffer of [n] bytes: the
    end of the data when nothing is left, otherwise some of it *)
Definition reads {S} (rest : S -> str) (n : Z) (s : S) (r : option str * S) : Prop :=
  match r with
  | (None, s') => rest s = [] /\ rest s' = []
  | (Some d, s') => d <> [] /\ slen d <= n /\ rest s = d ++ rest s'
  end.

(** what a source has left, and what its reads do *)
Class SourceLaws `{SL : SourceLib, WL : WebsocketLib} := {
  source_rest : payload_source -> str;
  multi_rest : multi_source -> str;
  payload_unmasked_rest f : source_rest (payload_unmasked f) = frame_payload_unmasked f;
  make_multi_source_rest l : multi_rest (make_multi_source l) = concat (map source_rest l);
  source_reads n s : 0 < n -> reads source_rest n s (source_read n s);
  multi_reads n s : 0 < n -> reads multi_rest n s (multi_read n s);
}.

Section Source.
Context `{SL : SourceLib, WL : WebsocketLib, PE : PayloadEnv, HT : HandlerTypes}.

(** [frames_ref] is a reference to the frames of the websocket: the reads are
    given the frames it has at that time *)
Record msg_data_src := mk_msg_data_src {
  src_single : payload_source;
  src_multi : multi_source;
}.

(** the constructor *)
Definition new_msg_data_src (frames : list str) : msg_data_src :=
  mk_msg_data_src
    (match frames with [f] => payload_unmasked f | _ => no_payload end)
    (make_multi_source
       (if 1 <? Z.of_nat (length frames) then map payload_unmasked frames else [])).

Definition msg_data_read (frames : list str) (n : Z) (s : msg_data_src)
    : option str * msg_data_src :=
  if Z.of_nat (length frames) =? 1 then
    let '(r, single) := source_read n (src_single s) in (r, mk_msg_data_src single (src_multi s))
  else if 1 <? Z.of_nat (length frames) then
    let '(r, multi) := multi_read n (src_multi s) in (r, mk_msg_data_src (src_single s) multi)
  else (None, s).

(** [websocket::message_data] *)
Definition message_source (w : websocket) : msg_data_src := new_msg_data_src (frames w).

(** reading into buffers of these sizes *)
Fixpoint read_with (frames : list str) (sizes : list Z) (s : msg_data_src)
    : list (option str) * msg_data_src :=
  match sizes with
  | [] => ([], s)
  | n :: sizes =>
    let '(r, s) := msg_data_read frames n s in
    let '(rs, s) := read_with frames sizes s in
    (r :: rs, s)
  end.

Context {LW : SourceLaws}.

(** what the source has left for a websocket with these frames *)
Definition src_rest (frames : list str) (s : msg_data_src) : str :=
  match frames with
  | [] => []
  | [_] => source_rest (src_single s)
  | _ => multi_rest (src_multi s)
  end.

Lemma new_src_rest frames :
  src_rest frames (new_msg_data_src frames) = concat (map frame_payload_unmasked frames).
Proof.
  destruct frames as [|f [|g l]]; [done| |].
  - cbn. by rewrite payload_unmasked_rest, app_nil_r.
  - unfold src_rest, new_msg_data_src. cbn [src_multi].
    rewrite (proj2 (Z.ltb_lt 1 _)) by (cbn [length]; lia).
    rewrite make_multi_source_rest, map_map. f_equal. apply map_ext, payload_unmasked_rest.
Qed.

Lemma msg_data_reads frames n s :
  0 < n -> reads (src_rest frames) n s (msg_data_read frames n s).
Proof.
  intros N. unfold msg_data_read. destruct frames as [|f [|g l]]; [done| |].
  - cbn [length Z.of_nat Z.eqb]. pose proof (source_reads n (src_single s) N) as R.
    by destruct (source_read n (src_single s)).
  - rewrite (proj2 (Z.eqb_neq _ 1)), (proj2 (Z.ltb_lt 1 _)) by (cbn [length]; lia).
    pose proof (multi_reads n (src_multi s) N) as R. by destruct (multi_read n (src_multi s)).
Qed.

(** the results of reading [data] into buffers of [sizes]: parts of it, each
    within its buffer, and after the last one the end of the data *)
Inductive read_in_parts : str -> list Z -> list (option str) -> Prop :=
| read_stop data : read_in_parts data [] []
| read_part data d n sizes rs : d <> [] -> slen d <= n ->
    read_in_parts data sizes rs -> read_in_parts (d ++ data) (n :: sizes) (Some d :: rs)
| read_end n sizes rs : read_in_parts [] sizes rs -> read_in_parts [] (n :: sizes) (None :: rs).

Lemma read_with_in_parts frames sizes : Forall (fun n => 0 < n) sizes -> forall s,
  read_in_parts (src_rest frames s) sizes (read_with frames sizes s).1.
Proof.
  induction 1 as [|n sizes N _ IH]; intros s; [constructor|]. cbn [read_with].
  pose proof (msg_data_reads frames n s N) as R. destruct (msg_data_read frames n s) as [r s'].
  specialize (IH s'). destruct (read_with frames sizes s') as [rs s2]. cbn [fst] in *.
  destruct r as [d|]; [destruct R as (D & L & ->); by constructor|].
  destruct R as [-> E]. rewrite E in IH. by constructor.
Qed.

(** the parts in a row *)
Definition parts_read (rs : list (option str)) : str := concat (map (default []) rs).

Lemma read_parts data sizes rs : read_in_parts data sizes rs ->
  exists rest, data = parts_read rs ++ rest /\ (rest = [] \/ (length sizes <= length (parts_read rs))%nat).
Proof.
  unfold parts_read. induction 1 as [data|data d n sizes rs D L _ (rest & -> & R)|n sizes rs H (rest & E & _)].
  - exists data. split; [done|]. right. apply Nat.le_0_l.
  - exists rest. cbn. rewrite app_assoc. split; [done|]. destruct R as [R|R]; [by left|right].
    rewrite length_app. destruct d; [done|]. cbn [length]. lia.
  - exists []. symmetry in E. apply app_nil in E as [E _]. cbn. rewrite E. split; [done|by left].
Qed.

(** C12: Reading a message.  Whether it came in one frame or in several, the
    reads of the source that [message_data] returns deliver the payloads of
    the frames in order, each part within the buffer it is read into and none
    empty, and then the end of the data as often as asked; a callback that
    reads more often than there are bytes has read the whole message. *)
Theorem message_source_delivers (w : websocket) (sizes : list Z) :
  Forall (fun n => 0 < n) sizes ->
  let rs := (read_with (frames w) sizes (message_source w)).1 in
  read_in_parts (message_data w) sizes rs /\
  ((length (message_data w) < length sizes)%nat -> parts_read rs = message_data w).
Proof.
  intros F rs. assert (read_in_parts (message_data w) sizes rs) as D.
  { subst rs. unfold message_data, message_source. rewrite <- new_src_rest. by apply read_with_in_parts. }
  split; [exact D|]. intros L. destruct (read_parts _ _ _ D) as (rest & E & R).
  rewrite E in L. rewrite length_app in L. destruct R as [->|R]; [by rewrite E, app_nil_r|lia].
Qed.

End Source.

(** ** Examples *)

From S2P Require Import Connection.
From S2P Require Import RefUtils.
From S2P Require Import RoutingTheorems.
From S2P Require Import RefServer.

(** a source is what it has left, and several are read one after the other *)
Definition ref_read (n : Z) (s : str) : option str * str :=
  match s with [] => (None, []) | _ => (Some (take (Z.to_nat n) s), drop (Z.to_nat n) s) end.

Fixpoint ref_multi_read (n : Z) (l : list str) : option str * list str :=
  match l with
  | [] => (None, [])
  | [] :: l => ref_multi_read n l
  | s :: l => let '(r, s) := ref_read n s in (r, s :: l)
  end.

#[export] Instance ref_source : SourceLib := {|
  payload_source := str;
  payload_unmasked := frame_payload_unmasked;
  no_payload := [];
  source_read := ref_read;
  multi_source := list str;
  make_multi_source l := l;
  multi_read := ref_multi_read;
|}.

Lemma ref_reads_some n c (s : str) : 0 < n -> reads id n (c :: s) (ref_read n (c :: s)).
Proof.
  intros N. unfold reads, ref_read, id. destruct (Z.to_nat n) as [|k] eqn:E; [lia|].
  rewrite <- E, take_drop. split; [by rewrite E|]. split; [|done].
  unfold slen. rewrite length_take. lia.
Qed.

#[export] Instance ref_source_laws : SourceLaws.
Proof.
  refine {| source_rest := id : str -> str; multi_rest := @concat char |}; try done.
  - intros l. by rewrite map_id.
  - intros n [|c s] N; [done|by apply ref_reads_some].
  - intros n l N. induction l as [|[|c s] l IH]; [done|exact IH|].
    pose proof (ref_reads_some n c s N) as R. cbn [multi_read ref_source ref_multi_read].
    destruct (ref_read n (c :: s)) as [[d|] s'] eqn:E; [|by destruct R].
    destruct R as (D & L & R). unfold id in R. split; [done|]. split; [done|].
    cbn [concat]. by rewrite R, <- app_assoc.
Defined.

(** "hello" in two fragments *)
Definition ref_fragments : websocket (PE := server_payload_env) :=
  (new_websocket (new_request true) 0 noop_fun receive_fun noop_fun 64 2)
    <| frames := [ref_frame false ft_text (bs "he"); ref_frame true ft_continuation (bs "llo")] |>.

Example ref_read_fragments :
  (read_with (frames ref_fragments) [1; 9; 2; 9; 9] (message_source ref_fragments)).1
  = [Some (bs "h"); Some (bs "e"); Some (bs "ll"); Some (bs "o"); None].
Proof. vm_compute. reflexivity. Qed.

Lemma message_source_delivers_witness :
  let rs := (read_with (frames ref_fragments) [2; 2; 2; 2; 2; 2] (message_source ref_fragments)).1 in
  read_in_parts (bs "hello") [2; 2; 2; 2; 2; 2] rs /\ parts_read rs = bs "hello".
Proof.
  assert (Forall (fun n => 0 < n) [2; 2; 2; 2; 2; 2]) as F by (repeat constructor).
  destruct (message_source_delivers ref_fragments [2; 2; 2; 2; 2; 2] F) as [D P].
  split; [exact D|]. apply P. vm_compute. lia.
Defined.
