(* ===== verification/WebsocketTheorems.v ===== *)
(** * WebSocket messages are reassembled from the bytes that arrive

    The specification of the receiving side of a websocket is a function on
    the list of frames a peer sends: fragments are collected, and the final
    frame of a message delivers it.  [feed] runs the members of [websocket] on
    the bytes as they arrive, in reads that need not respect the frames. *)

From S2P Require Import Prelude.
From S2P Require Import Externals.
From S2P Require Import Multimap.
From S2P Require Import Strings.
From S2P Require Import Message.
From S2P Require Import Request.
From S2P Require Import Routing.
From S2P Require Import Websocket.
From S2P Require Import RefUtils.
From S2P Require Import RoutingTheorems.
From S2P Require Import RefServer.

#[local] Open Scope Z_scope.

(** A frame is found in the bytes that follow it as in its own bytes, and its
    proper prefixes are not complete. *)
Class WebsocketStreamLaws `{WL : WebsocketLib} : Prop := {
  frame_app s t :
    frame_is_well_formed s = true -> frame_is_complete s = true -> frame_size s = slen s ->
    frame_is_well_formed (s ++ t) = true /\ frame_is_complete (s ++ t) = true /\
    frame_size (s ++ t) = frame_size s /\ frame_is_final (s ++ t) = frame_is_final s /\
    frame_type_of (s ++ t) = frame_type_of s /\
    frame_payload_unmasked (s ++ t) = frame_payload_unmasked s;
  frame_prefix s t :
    frame_is_well_formed (s ++ t) = true -> frame_is_complete (s ++ t) = true ->
    frame_size (s ++ t) = slen (s ++ t) -> t <> [] ->
    frame_is_well_formed s = true /\ frame_is_complete s = false;
}.

Section Stream.
Context `{PE : PayloadEnv, HT : HandlerTypes}.
Context `{SU : StaticlibUtils, MP : MultimapPolicy, WL : WebsocketLib}.
Context {SL : WebsocketStreamLaws}.

(** ** The specification *)

Inductive ws_event :=
| ev_message (t : frame_type) (data : str)
| ev_closed (st : close_status).

(** the bytes of one frame *)
Definition whole_frame (f : str) : Prop :=
  frame_is_well_formed f = true /\ frame_is_complete f = true /\ frame_size f = slen f /\ f <> [].

Definition is_data (t : frame_type) : bool :=
  match t with ft_text | ft_binary | ft_continuation => true | _ => false end.

Definition data_frame (f : str) : Prop := whole_frame f /\ is_data (frame_type_of f) = true.

(** the message that some frames carry *)
Definition message_of (fs : list str) : ws_event :=
  ev_message (match fs with [] => ft_invalid | f :: _ => frame_type_of f end)
    (concat (map frame_payload_unmasked fs)).

(** what the frames [fs] deliver after the fragments [acc], and the fragments
    left; [None] after the connection has been closed *)
Fixpoint reassemble (max_fragments : Z) (acc fs : list str) : list ws_event * option (list str) :=
  match fs with
  | [] => ([], Some acc)
  | f :: fs =>
    if frame_is_final f then
      let '(evs, rest) := reassemble max_fragments [] fs in (message_of (acc ++ [f]) :: evs, rest)
    else if Z.of_nat (length acc) >=? max_fragments then ([ev_closed overflow], None)
    else reassemble max_fragments (acc ++ [f]) fs
  end.

(** ** Running a websocket *)

(** performs actions until data is needed; the callback of a message takes
    its data and calls [receive] *)
Fixpoint drive (fuel : nat) (x : res (websocket * ws_action)) : res (list ws_event * option websocket) :=
  match x with
  | Val (ws, a) =>
    match fuel with
    | O => Fault OutOfFuel
    | S fuel =>
      match a with
      | ws_read => Val ([], Some ws)
      | ws_post k => drive fuel (continue k ws)
      | ws_write _ k => drive fuel (write_completed true k ws)
      | ws_write_close st => Val ([ev_closed st], None)
      | ws_call _ =>
        match drive fuel (websocket_receive ws) with
        | Val (evs, ws') => Val (ev_message (message_type ws) (message_data ws) :: evs, ws')
        | x => x
        end
      end
    end
  | Exn e => Exn e
  | Fault f => Fault f
  end.

Definition drive_fuel (ws : websocket) (b : str) : nat :=
  S (length (receive_buffer ws ++ b)).

(** the reads, one after the other *)
Fixpoint feed (reads : list str) (ws : websocket) : res (list ws_event * option websocket) :=
  match reads with
  | [] => Val ([], Some ws)
  | b :: reads =>
    match drive (drive_fuel ws b) (read_completed (Some b) ws) with
    | Val (evs, Some ws') =>
      match feed reads ws' with
      | Val (evs', last) => Val (evs ++ evs', last)
      | x => x
      end
    | x => x
    end
  end.

(** ** One frame *)

(** the websocket between two frames: fragments [acc] and the bytes [b] *)
Record holds (ws0 : websocket) (acc : list str) (b : str) (ws : websocket) : Prop := {
  h_frames : frames ws = acc;
  h_buffer : receive_buffer ws = b;
  h_max : receive_buffer_max_size ws = receive_buffer_max_size ws0;
  h_count : frames_max_count ws = frames_max_count ws0;
}.

Lemma whole_app f t : whole_frame f ->
  frame_is_well_formed (f ++ t) = true /\ frame_is_complete (f ++ t) = true /\
  frame_size (f ++ t) = slen f /\ frame_is_final (f ++ t) = frame_is_final f /\
  frame_type_of (f ++ t) = frame_type_of f /\
  frame_payload_unmasked (f ++ t) = frame_payload_unmasked f.
Proof. intros (W & C & S & _). destruct (frame_app f t W C S) as (?&?&->&?&?&?). by rewrite S. Qed.

Lemma message_of_view acc f t :
  whole_frame f -> message_of (acc ++ [f ++ t]) = message_of (acc ++ [f]).
Proof.
  intros W. destruct (whole_app f t W) as (_&_&_&_&T&P). unfold message_of.
  rewrite !map_app, !concat_app. cbn. rewrite P. by destruct acc; cbn; rewrite ?T.
Qed.

Lemma remove_frame_spec f t ws :
  whole_frame f -> receive_buffer ws = f ++ t ->
  remove_frame_from_receive_buffer (f ++ t) ws = Val (ws <| receive_buffer := t |>).
Proof.
  intros W E. unfold remove_frame_from_receive_buffer. destruct (whole_app f t W) as (_&_&->&_).
  rewrite E. rewrite slen_app. pose proof (slen_nonneg t).
  rewrite (proj2 (Z.leb_le _ _)) by lia. unfold slen. rewrite Nat2Z.id.
  by rewrite drop_app_length.
Qed.

(** processing a data frame at the head of the buffer *)
Lemma process_data ws0 acc f t ws :
  data_frame f -> holds ws0 acc (f ++ t) ws ->
  if frame_is_final f then
    exists ws1, process_receive_buffer ws = Val (ws1, ws_call (on_message_fun ws)) /\
      ev_message (message_type ws1) (message_data ws1) = message_of (acc ++ [f]) /\
      exists ws2, websocket_receive ws1 = process_receive_buffer ws2 /\ holds ws0 [] t ws2
  else if Z.of_nat (length acc) >=? frames_max_count ws0 then
    process_receive_buffer ws = Val (ws, ws_write_close overflow)
  else
    exists ws1, process_receive_buffer ws = Val (ws1, ws_post then_process_receive_buffer) /\
      holds ws0 (acc ++ [f]) t ws1.
Proof.
  intros [W D] [F B M C]. destruct (whole_app f t W) as (WF & CP & SZ & FI & TY & PL).
  unfold process_receive_buffer. rewrite B, WF, CP, FI. cbn [negb].
  destruct (frame_is_final f); cbn [negb].
  - unfold process_final_frame. rewrite TY.
    set (ws1 := ws <| frames := frames ws ++ [f ++ t] |>).
    exists ws1. split; [by destruct (frame_type_of f)|]. split.
    { rewrite <- (message_of_view acc f t W). unfold message_of, message_type, message_data.
      subst ws1. cbn [frames set_field]. rewrite F. by destruct acc. }
    exists (ws1 <| receive_buffer := t |> <| frames := [] |>). split; [|by subst ws1].
    unfold websocket_receive, clear_frames_cache. subst ws1. cbn [frames set_field].
    rewrite last_snoc. by rewrite remove_frame_spec.
  - unfold on_continuation, frames_cache_overflow. rewrite F, C.
    destruct (_ >=? _) eqn:O; [done|]. unfold add_to_frames_cache.
    rewrite SZ. unfold slen. rewrite Nat2Z.id, take_app_length.
    rewrite remove_frame_spec by done. eexists. split; [reflexivity|].
    constructor; try done. cbn. by rewrite F.
Qed.

Lemma process_incomplete ws0 acc s t ws :
  whole_frame (s ++ t) -> t <> [] -> holds ws0 acc s ws ->
  process_receive_buffer ws = Val (ws, ws_read).
Proof.
  intros (W & C & S & _) N [_ B _ _]. destruct (frame_prefix s t W C S N) as [WF CP].
  unfold process_receive_buffer. by rewrite B, WF, CP.
Qed.

(** ** The frames of one read *)

Definition incomplete (s : str) : Prop := exists t, whole_frame (s ++ t) /\ t <> [].

Lemma reassemble_app max acc fs1 fs2 :
  reassemble max acc (fs1 ++ fs2) =
  match reassemble max acc fs1 with
  | (evs, Some acc') => let '(evs', rest) := reassemble max acc' fs2 in (evs ++ evs', rest)
  | (evs, None) => (evs, None)
  end.
Proof.
  revert acc. induction fs1 as [|f fs1 IH]; intros acc; cbn [app reassemble].
  { by destruct (reassemble max acc fs2). }
  destruct (frame_is_final f); [|destruct (_ >=? _); [done|apply IH]].
  rewrite IH. destruct (reassemble max [] fs1) as [evs [acc'|]]; [|done].
  by destruct (reassemble max acc' fs2).
Qed.

(** [last] is what [rest] says: closed, or waiting with these fragments *)
Definition ends_in (ws0 : websocket) (rest : option (list str)) (s : str) (last : option websocket) : Prop :=
  match rest with
  | None => last = None
  | Some acc => exists ws, last = Some ws /\ holds ws0 acc s ws
  end.

Lemma drive_frames ws0 s fs fuel acc ws :
  Forall data_frame fs -> incomplete s -> holds ws0 acc (concat fs ++ s) ws ->
  (length fs < fuel)%nat ->
  exists last,
    drive fuel (process_receive_buffer ws) =
    Val ((reassemble (frames_max_count ws0) acc fs).1, last) /\
    ends_in ws0 (reassemble (frames_max_count ws0) acc fs).2 s last.
Proof.
  intros D I. revert fuel acc ws. induction D as [|f fs Df D IH]; intros fuel acc ws H L.
  - destruct fuel as [|fuel]; [cbn in L; lia|]. destruct I as (t & W & N).
    rewrite (process_incomplete ws0 acc s t) by done. exists (Some ws). split; [done|]. by exists ws.
  - destruct fuel as [|fuel]; [cbn in L; lia|]. cbn [length] in L.
    cbn [concat] in H. rewrite <- app_assoc in H. pose proof (process_data ws0 acc f _ ws Df H) as P.
    cbn [reassemble]. destruct (frame_is_final f).
    + destruct P as (ws1 & -> & M & ws2 & R & H2). cbn [drive]. rewrite R, M.
      destruct (IH fuel [] ws2 H2 ltac:(lia)) as (last & -> & E).
      destruct (reassemble _ [] fs) as [evs rest]. by exists last.
    + destruct (_ >=? _); [rewrite P; by exists None|].
      destruct P as (ws1 & -> & H1). cbn [drive continue]. apply IH; [done|lia].
Qed.

(** ** The reads *)

(** [s] is a part of the first of the frames [fs] that are still to come *)
Definition part_of_next (s : str) (fs : list str) : Prop :=
  match fs with [] => s = [] | f :: _ => exists t, f = s ++ t /\ t <> [] end.

Lemma split_frames fs : forall q r,
  Forall (fun f => f <> []) fs -> q ++ r = concat fs ->
  exists fs1 fs2 s, fs = fs1 ++ fs2 /\ q = concat fs1 ++ s /\ part_of_next s fs2.
Proof.
  induction fs as [|f fs IH]; intros q r N E.
  - apply app_eq_nil in E as [-> ->]. by exists [], [], [].
  - inversion_clear N as [|? ? Nf N']. cbn [concat] in E.
    destruct (decide (length f <= length q)%nat) as [L|L].
    + pose proof (f_equal (take (length f)) E) as T.
      rewrite take_app_length, take_app_le in T by done.
      rewrite <- (take_drop (length f) q), T, <- app_assoc in E. apply app_inv_head in E.
      destruct (IH _ _ N' E) as (fs1 & fs2 & s & -> & Q & P). exists (f :: fs1), fs2, s.
      split; [done|]. split; [|done]. cbn. rewrite <- app_assoc, <- Q.
      etransitivity; [symmetry; apply (take_drop (length f))|by rewrite T].
    + exists [], (f :: fs), q. split; [done|]. split; [done|].
      exists (drop (length q) f). split.
      * pose proof (f_equal (take (length q)) E) as T.
        rewrite take_app_length, take_app_le in T by lia.
        rewrite T at 1. symmetry. apply take_drop.
      * intros D. apply (f_equal length) in D. rewrite length_drop in D. cbn in D. lia.
Qed.

Lemma part_incomplete s fs1 fs2 q :
  Forall data_frame (fs1 ++ fs2) -> q <> [] -> q = concat fs1 ++ s -> part_of_next s fs2 -> incomplete s.
Proof.
  intros D N E P. destruct fs2 as [|f fs2]; cbn in P.
  - subst s. destruct fs1 as [|f fs1]; [by rewrite app_nil_r in E|].
    inversion_clear D as [|? ? [W _] _]. exists f. split; [done|]. by destruct W as (_&_&_&?).
  - destruct P as (t & -> & Nt). exists t. split; [|done].
    apply Forall_app in D as [_ D]. by inversion_clear D as [|? ? [W _] _].
Qed.

Lemma concat_length_ge (fs : list str) :
  Forall (fun f => f <> []) fs -> (length fs <= length (concat fs))%nat.
Proof.
  induction 1 as [|f fs N _ IH]; [done|]. cbn [concat length]. rewrite length_app.
  destruct f; [done|]. cbn. lia.
Qed.

Lemma feed_frames ws0 reads : forall fs acc s ws,
  Forall data_frame fs -> Forall (fun b => b <> []) reads -> s ++ concat reads = concat fs ->
  part_of_next s fs -> holds ws0 acc s ws ->
  (forall f b, f ∈ fs -> b ∈ reads -> slen f + slen b <= receive_buffer_max_size ws0) ->
  exists last, feed reads ws = Val ((reassemble (frames_max_count ws0) acc fs).1, last).
Proof.
  induction reads as [|b reads IH]; intros fs acc s ws D N E P H S.
  - rewrite app_nil_r in E. destruct fs as [|f fs].
    { by exists (Some ws). }
    destruct P as (t & -> & Nt). exfalso. apply (f_equal length) in E. cbn [concat] in E.
    rewrite !length_app in E. destruct t; [done|]. cbn in E. lia.
  - inversion_clear N as [|? ? Nb N']. cbn [concat] in E. rewrite app_assoc in E.
    destruct (split_frames fs (s ++ b) (concat reads)) as (fs1 & fs2 & s' & Efs & Q & P').
    { eapply Forall_impl; [exact D|]. by intros f [(_&_&_&?) _]. }
    { done. }
    assert (s ++ b <> []) as Nq by (intros [_ ?]%app_eq_nil; done).
    subst fs. pose proof (part_incomplete _ _ _ _ D Nq Q P') as I.
    apply Forall_app in D as [D1 D2]. destruct H as [F B M C].
    assert (read_completed (Some b) ws = process_receive_buffer (add_to_receive_buffer b ws)) as R.
    { unfold read_completed, consume, receive_buffer_overflow. rewrite B, M.
      assert (slen s + slen b <= receive_buffer_max_size ws0) as L.
      { destruct (fs1 ++ fs2) as [|f fs] eqn:Efs; cbn in P.
        - subst s. apply app_eq_nil in Efs as [-> ->]. cbn in E. apply app_eq_nil in E as [Eb _]. done.
        - destruct P as (t & -> & _). specialize (S (s ++ t) b ltac:(left) ltac:(left)).
          rewrite slen_app in S. pose proof (slen_nonneg t). lia. }
      by destruct (Z.gtb_spec (slen s + slen b) (receive_buffer_max_size ws0)); [lia|]. }
    assert (holds ws0 acc (concat fs1 ++ s') (add_to_receive_buffer b ws)) as H1.
    { constructor; try done. cbn. by rewrite B, <- Q. }
    cbn [feed]. rewrite R.
    destruct (drive_frames ws0 s' fs1 (drive_fuel ws b) acc _ D1 I H1) as (last & -> & El).
    { unfold drive_fuel. rewrite B, Q, length_app.
      assert (length fs1 <= length (concat fs1))%nat; [|lia]. apply concat_length_ge.
      eapply Forall_impl; [exact D1|]. by intros f [(_&_&_&?) _]. }
    rewrite reassemble_app. destruct (reassemble _ acc fs1) as [evs [acc'|]]; cbn [fst snd] in *.
    + destruct El as (ws' & -> & H').
      destruct (IH fs2 acc' s' ws' D2 N') as (last' & ->); try done.
      * rewrite Q in E. rewrite concat_app, <- app_assoc in E. by apply app_inv_head in E.
      * intros f b' Hf Hb. apply S; [apply elem_of_app; by right|by right].
      * destruct (reassemble _ acc' fs2) as [evs' rest]. by exists last'.
    + cbn in El. subst last. by exists None.
Qed.

(** C11: Reassembly.  However the bytes of a sequence of data frames are cut
    into reads, the websocket delivers exactly the messages of the
    specification, in order, and closes the connection only where a message has
    more fragments than it may have: as long as a frame and a read fit into the
    receive buffer together, the members of [websocket] refine [reassemble].
    A message is delivered with the type its first frame has, as in RFC 6455;
    this is what [message_type] answers, although its comment says that it is
    the opcode of the last cached frame. *)
Theorem websocket_reassembles (fs reads : list str) (ws : websocket) :
  Forall data_frame fs -> Forall (fun b => b <> []) reads -> concat reads = concat fs ->
  frames ws = [] -> receive_buffer ws = [] ->
  (forall f b, f ∈ fs -> b ∈ reads -> slen f + slen b <= receive_buffer_max_size ws) ->
  exists last, feed reads ws = Val ((reassemble (frames_max_count ws) [] fs).1, last).
Proof.
  intros D N E F B S. apply (feed_frames ws reads fs [] [] ws); try done.
  destruct fs as [|f fs]; [done|]. cbn. exists f. inversion_clear D as [|? ? [(_&_&_&?) _] _].
  by split.
Qed.

(** C35: A ping that arrives between the fragments of a message is answered
    with the bare bytes of its payload, without the header of a frame, and when
    the answer has been written the fragments received so far are gone. *)
Theorem ping_drops_fragments (ws : websocket) (p : str) :
  whole_frame p -> receive_buffer ws = p -> frame_is_final p = true -> frame_type_of p = ft_ping ->
  slen (frame_payload_unmasked p) > 0 ->
  exists ws1 ws2,
    process_receive_buffer ws =
      Val (ws1, ws_write (payload_buffers ws ++ [take 128 (frame_payload_unmasked p)]) then_receive) /\
    websocket_receive (clear_payload ws1) = process_receive_buffer ws2 /\
    frames ws2 = [] /\ receive_buffer ws2 = [].
Proof.
  intros W B FI TY PL. pose proof W as (WF & CP & SZ & _).
  unfold process_receive_buffer. rewrite B, WF, CP, FI. cbn [negb].
  unfold process_final_frame. rewrite TY. unfold on_ping.
  rewrite (proj2 (Z.gtb_lt _ _)) by lia. unfold send_internal, websocket_write.
  assert (slen (take 128 (frame_payload_unmasked p)) >? 0 = true) as ->.
  { apply Z.gtb_lt. revert PL. unfold slen. rewrite length_take. lia. }
  set (ws0 := ws <| frames := _ |>). set (ws1 := ws0 <| payload_buffers := _ |> <| payload_length := _ |>).
  exists ws1, (clear_payload ws1 <| receive_buffer := [] |> <| frames := [] |>).
  split; [done|]. split; [|done]. unfold websocket_receive, clear_frames_cache.
  assert (last (frames (clear_payload ws1)) = Some p) as -> by (apply last_snoc).
  pose proof (remove_frame_spec p [] (clear_payload ws1) W) as R. rewrite app_nil_r in R.
  by rewrite R.
Qed.

(** C37: A close handler must not call [receive]: when a read overflows the
    receive buffer while the fragments of a message are cached, the connection
    is closed with the fragments still there, and [receive] removes the last of
    them, which left the buffer long ago, from the buffer once more - outside
    its bounds if the buffer is shorter than the fragment. *)
Theorem receive_after_close (ws : websocket) (acc : list str) (f b : str) :
  frames ws = acc ++ [f] -> slen (receive_buffer ws) < frame_size f ->
  receive_buffer_max_size ws < slen (receive_buffer ws) + slen b ->
  read_completed (Some b) ws = Val (ws, ws_write_close overflow) /\
  close_completed ws = Val (ws, ws_call (on_close_fun ws)) /\
  websocket_receive ws = Fault OutOfBounds.
Proof.
  intros F S O. split_and!; [|done|].
  - unfold read_completed, consume, receive_buffer_overflow.
    destruct (Z.gtb_spec (slen (receive_buffer ws) + slen b) (receive_buffer_max_size ws)); [done|lia].
  - unfold websocket_receive, clear_frames_cache. rewrite F, last_snoc.
    unfold remove_frame_from_receive_buffer. by rewrite (proj2 (Z.leb_gt _ _)).
Qed.

End Stream.

(** ** Examples *)

Lemma ref_complete s :
  ref_frame_size s <=? slen s = true ->
  exists c l rest, s = c :: l :: rest /\ int_of_uchar l <= slen rest.
Proof.
  destruct s as [|c [|l rest]]; [done..|]. rewrite Z.leb_le. unfold ref_frame_size, slen.
  intros H. exists c, l, rest. split; [done|]. cbn in H. lia.
Qed.

#[export] Instance ref_stream_laws : WebsocketStreamLaws.
Proof.
  split; cbn [frame_is_well_formed frame_is_complete frame_size frame_is_final frame_type_of
              frame_payload_unmasked ref_websocket]; intros s t W C S.
  - apply ref_complete in C as (c & l & rest & -> & L). cbn [app ref_frame_size] in *.
    assert (int_of_uchar l = slen rest) as E by (unfold slen in *; cbn in S; lia).
    split_and!; try done.
    + apply Z.leb_le. unfold slen in *. cbn. rewrite length_app. lia.
    + cbn [drop]. rewrite E. replace (Z.to_nat _) with (length rest) by (unfold slen; lia).
      by rewrite !drop_0, take_app_length, firstn_all.
  - intros N. split; [by destruct s|]. apply Z.leb_gt.
    destruct s as [|c [|l rest]]; [done..|]. cbn [app ref_frame_size] in *.
    rewrite S. unfold slen. cbn. rewrite length_app. destruct t; [done|]. cbn. lia.
Qed.

Lemma ref_frame_whole s : ref_frame_size s = slen s -> frame_is_well_formed s = true -> s <> [] -> whole_frame s.
Proof. intros S W N. split_and!; try done. apply Z.leb_le. cbn. lia. Qed.

Definition ref_ws : websocket :=
  new_websocket (new_request true) 0 noop_fun receive_fun noop_fun 64 2.

(** a message in two fragments and another one, in reads of three bytes *)
Definition ref_frames : list str :=
  [ref_frame false ft_text (bs "he"); ref_frame true ft_continuation (bs "llo"); ref_frame true ft_binary []].

Definition ref_reads : list str :=
  let s := concat ref_frames in [take 3 s; take 3 (drop 3 s); take 3 (drop 6 s); drop 9 s].

Lemma websocket_reassembles_witness :
  exists last, feed ref_reads ref_ws =
    Val ([ev_message ft_text (bs "hello"); ev_message ft_binary []], last).
Proof.
  refine (websocket_reassembles ref_frames ref_reads ref_ws _ _ _ _ _ _); try reflexivity.
  - repeat constructor; try discriminate.
  - repeat constructor; discriminate.
  - intros f b Hf Hb. vm_compute in Hf, Hb.
    assert (slen f <= 5 /\ slen b <= 3) as [L1 L2]; [|cbn; lia].
    split; repeat (apply elem_of_cons in Hf as [->|Hf]); repeat (apply elem_of_cons in Hb as [->|Hb]);
      try (by apply not_elem_of_nil in Hf); try (by apply not_elem_of_nil in Hb); vm_compute; discriminate.
Defined.

Definition ref_ping : str := ref_frame true ft_ping (bs "x").

Lemma ping_drops_fragments_witness :
  let ws := ref_ws <| frames := [ref_frame false ft_text (bs "he")] |> <| receive_buffer := ref_ping |> in
  exists ws1 ws2,
    process_receive_buffer ws = Val (ws1, ws_write [bs "x"] then_receive) /\
    websocket_receive (clear_payload ws1) = process_receive_buffer ws2 /\
    frames ws2 = [] /\ receive_buffer ws2 = [].
Proof.
  refine (ping_drops_fragments _ ref_ping _ _ _ _ _); try reflexivity.
  apply ref_frame_whole; [reflexivity|reflexivity|discriminate].
Defined.

Lemma receive_after_close_witness :
  let ws := ref_ws <| frames := [ref_frame false ft_text (bs "he")] |> in
  read_completed (Some (concat (replicate 33 (bs "zz")))) ws = Val (ws, ws_write_close overflow) /\
  websocket_receive ws = Fault OutOfBounds.
Proof.
  destruct (receive_after_close (ref_ws <| frames := [ref_frame false ft_text (bs "he")] |>) []
    (ref_frame false ft_text (bs "he")) (concat (replicate 33 (bs "zz")))) as (R & _ & O);
    [reflexivity..|].
  split; [exact R|exact O].
Defined.
