(* ===== verification/WebsocketLoop.v ===== *)
(** * The callbacks of a websocket that call each other

    A callback that calls [receive] may find another message in the receive
    buffer and be called again before it returns.  Every turn removes a frame
    from the buffer, so the fuel of [perform] is enough. *)

From S2P Require Import Prelude.
From S2P Require Import Externals.
From S2P Require Import Multimap.
From S2P Require Import Strings.
From S2P Require Import Message.
From S2P Require Import Request.
From S2P Require Import Routing.
From S2P Require Import Websocket.
From S2P Require Import Connection.
From S2P Require Import Net.
From S2P Require Import Server.

#[local] Open Scope Z_scope.

Section Loop.
Context `{SU : StaticlibUtils, MP : MultimapPolicy, UC : UserCode, WL : WebsocketLib}.
Context {WLL : WebsocketLibLaws}.
Context (finish : nat -> M net unit).
Context (finish_fuel : forall c n, (finish c n).1 <> Fault OutOfFuel).

(** the frames in the cache are not empty *)
Definition frames_positive (ws : websocket) : Prop := Forall (fun f => 0 < frame_size f) (frames ws).

(** a bound on the messages that are still in the buffer *)
Definition messages_left (ws : websocket) : nat :=
  length (receive_buffer ws) + match frames ws with [] => 1 | _ => 0 end.

(** [receive] calls a callback again only with less in the buffer *)
Lemma receive_progress_last ws ws' f :
  (forall b, last (frames ws) = Some b -> 0 < frame_size b) ->
  websocket_receive ws = Val (ws', ws_call f) ->
  frames_positive ws' /\ (messages_left ws' < messages_left ws)%nat.
Proof.
  intros P E.
  assert (exists ws1, process_receive_buffer ws1 = Val (ws', ws_call f) /\ frames ws1 = [] /\
            (length (receive_buffer ws1) < messages_left ws)%nat) as (ws1 & E1 & F1 & L).
  { unfold websocket_receive, clear_frames_cache in E. unfold messages_left.
    destruct (last (frames ws)) as [b|] eqn:Lb.
    - pose proof (P b eq_refl) as B.
      unfold remove_frame_from_receive_buffer in E.
      destruct (Z.leb_spec (frame_size b) (slen (receive_buffer ws))) as [S|]; [|done].
      eexists. split; [exact E|]. split; [done|]. cbn. rewrite length_drop. unfold slen in S. lia.
    - apply last_None in Lb. rewrite Lb. eexists. split; [exact E|]. split; [done|]. cbn. lia. }
  unfold process_receive_buffer in E1.
  destruct (frame_is_well_formed (receive_buffer ws1)) eqn:W; [|done].
  destruct (frame_is_complete (receive_buffer ws1)) eqn:C; [|done].
  destruct (frame_is_final (receive_buffer ws1)) eqn:Fi; cbn [negb] in E1.
  - unfold process_final_frame in E1. rewrite F1 in E1. cbn [app] in E1.
    assert (ws' = ws1 <| frames := [receive_buffer ws1] |>) as ->.
    { unfold websocket_on_message in E1. destruct (frame_type_of (receive_buffer ws1)); by simplify_eq/=. }
    split; [|cbn; lia]. constructor; [|constructor]. by apply frame_size_complete.
  - unfold on_continuation, add_to_frames_cache, remove_frame_from_receive_buffer in E1.
    destruct (frames_cache_overflow ws1); [done|]. by destruct (_ <=? _).
Qed.

Lemma receive_progress ws ws' f :
  frames_positive ws -> websocket_receive ws = Val (ws', ws_call f) ->
  frames_positive ws' /\ (messages_left ws' < messages_left ws)%nat.
Proof.
  intros P. apply receive_progress_last. intros b L.
  apply (Forall_forall (fun f => 0 < frame_size f) (frames ws)); [done|]. by apply last_Some_elem_of.
Qed.

Lemma writes_keep ds ws :
  frames (fold_left (fun ws d => websocket_write d ws) ds ws) = frames ws /\
  receive_buffer (fold_left (fun ws d => websocket_write d ws) ds ws) = receive_buffer ws.
Proof.
  revert ws. induction ds as [|d ds IH]; intros ws; [done|]. cbn [fold_left].
  destruct (IH (websocket_write d ws)) as [-> ->]. unfold websocket_write. by case_match.
Qed.

(** what a callback does with the websocket it is given *)
Definition progresses (ws : websocket) (r : res (option (websocket * ws_action))) : Prop :=
  match r with
  | Val (Some (ws', ws_call _)) => frames_positive ws' /\ (messages_left ws' < messages_left ws)%nat
  | Fault f => f <> OutOfFuel
  | _ => True
  end.

Lemma destroy_no_fuel {A} ws (k : M net A) n :
  (forall n, (k n).1 <> Fault OutOfFuel) -> ((destroy_websocket finish ws ;;; k) n).1 <> Fault OutOfFuel.
Proof.
  intros K. unfold bind, destroy_websocket, try_catch. pose proof (finish_fuel (ws_connection ws) n) as F.
  destruct (finish _ n) as [[[]|e|x] n1]; cbn in *; [apply K|apply K|]. intros [= ->]. by apply F.
Qed.

Lemma lift_no_fuel ws r n :
  r <> Fault OutOfFuel -> (forall ws' f, r = Val (ws', ws_call f) ->
    frames_positive ws' /\ (messages_left ws' < messages_left ws)%nat) ->
  progresses ws ((x <- lift r ;; ret (Some x)) n).1.
Proof.
  intros N H. unfold bind, lift, ret. destruct r as [[ws' a]|e|f]; cbn; [|done|intros ->; by apply N].
  destruct a; try done. by eapply H.
Qed.

Lemma process_no_fuel ws : process_receive_buffer ws <> Fault OutOfFuel.
Proof.
  unfold process_receive_buffer, on_continuation, add_to_frames_cache, remove_frame_from_receive_buffer.
  destruct (negb _); [done|]. destruct (negb _); [done|]. destruct (negb _).
  - destruct (frames_cache_overflow ws); [done|]. by destruct (_ <=? _).
  - unfold process_final_frame. by destruct (frame_type_of _).
Qed.

Lemma receive_no_fuel ws : websocket_receive ws <> Fault OutOfFuel.
Proof.
  unfold websocket_receive, clear_frames_cache, remove_frame_from_receive_buffer.
  destruct (last (frames ws)); [destruct (_ <=? _)|]; try apply process_no_fuel. done.
Qed.

Lemma handler_progress f ws n :
  frames_positive ws -> progresses ws (call_websocket_handler finish f ws n).1.
Proof.
  intros P. assert (forall (m : M net (option (websocket * ws_action))) n,
    (forall n, (m n).1 <> Fault OutOfFuel) -> (forall n x, (m n).1 <> Val (Some x)) ->
    progresses ws (m n).1) as D.
  { intros m n' H1 H2. specialize (H1 n'). specialize (H2 n'). unfold progresses.
    destruct (m n').1 as [[[ws' a]|]|e|x]; try done; [by destruct (H2 (ws', a))|]. intros ->. by apply H1. }
  destruct f as [| |h]; cbn [call_websocket_handler].
  - apply lift_no_fuel; [apply receive_no_fuel|]. intros ws' f. by apply receive_progress.
  - apply (D (destroy_websocket finish ws ;;; ret None)).
    + intros n'. by apply destroy_no_fuel.
    + intros n' x. unfold bind. destruct (destroy_websocket finish ws n') as [[]]; discriminate.
  - unfold bind at 1, with_user.
    destruct (run_websocket_handler h ws _) as [r u]. unfold run_ws_reply.
    destruct (writes_keep (wsr_writes r) ws) as [F B].
    set (ws1 := fold_left _ _ _) in *. clearbody ws1.
    assert (frames_positive ws1) as P1 by (unfold frames_positive; by rewrite F).
    assert (messages_left ws1 = messages_left ws) as L by (unfold messages_left; by rewrite F, B).
    assert (forall r n, r <> Fault OutOfFuel -> (forall ws' f, r = Val (ws', ws_call f) ->
      frames_positive ws' /\ (messages_left ws' < messages_left ws)%nat) ->
      progresses ws ((x <- lift r ;; ret (Some x)) n).1) as Lift by (intros; by apply lift_no_fuel).
    destruct (wsr_end r).
    + apply Lift; [apply receive_no_fuel|]. intros ws' f. rewrite <- L. by apply receive_progress.
    + apply Lift; unfold websocket_send, send_message, prepare_header; by destruct (payload_buffers ws1).
    + apply Lift; unfold send_message, prepare_header; by destruct (payload_buffers ws1).
    + by apply Lift.
    + apply (D (destroy_websocket finish ws1 ;;; ret None)).
      * intros n'. by apply destroy_no_fuel.
      * intros n' x. unfold bind. destruct (destroy_websocket finish ws1 n') as [[]]; discriminate.
    + apply (D (destroy_websocket finish ws1 ;;; throw e)).
      * intros n'. by apply destroy_no_fuel.
      * intros n' x. unfold bind. destruct (destroy_websocket finish ws1 n') as [[]]; discriminate.
Qed.

Lemma perform_with_fuel fuel : forall ws a n,
  frames_positive ws -> (messages_left ws < fuel)%nat ->
  (perform_with finish fuel ws a n).1 <> Fault OutOfFuel.
Proof.
  induction fuel as [|fuel IH]; intros ws a n P L; [lia|].
  destruct a; cbn [perform_with]; try discriminate. unfold bind.
  pose proof (handler_progress f ws n P) as H.
  destruct (call_websocket_handler finish f ws n) as [[[[ws' a]|]|e|x] n1]; cbn in H;
    [|discriminate|discriminate|intros [= ->]; by apply H].
  destruct a as [| | | |f']; try (destruct fuel; discriminate).
  destruct H as [P' L']. apply IH; [done|lia].
Qed.

(** C36: The chain of callbacks that a websocket sets off ends: a callback
    that calls [receive] is called again only for another message that is in the
    receive buffer already, every turn takes a frame out of the buffer, and the
    fuel of [perform], the length of the buffer and three, is enough. *)
Theorem perform_ends (ws : websocket) (a : ws_action) (n : net) :
  frames_positive ws -> (perform finish ws a n).1 <> Fault OutOfFuel.
Proof.
  intros P. apply perform_with_fuel; [done|]. unfold messages_left.
  destruct (frames ws); lia.
Qed.

End Loop.

(** ** Example *)

From S2P Require Import RefUtils.
From S2P Require Import RoutingTheorems.
From S2P Require Import RefServer.

#[export] Instance ref_frame_laws : WebsocketLibLaws.
Proof.
  split. intros s _ C. apply Z.leb_le in C. cbn in *. unfold ref_frame_size in *.
  destruct s as [|c [|l s]]; try lia. pose proof (Ascii.N_ascii_bounded l). unfold int_of_uchar in *. lia.
Qed.

(** three messages in the buffer of a websocket whose callback receives *)
Lemma perform_ends_witness :
  (perform (fun _ => ret tt)
     ((new_websocket (PE := server_payload_env) (new_request true) 0 noop_fun receive_fun noop_fun 64 2)
        <| receive_buffer := concat (replicate 3 (ref_frame true ft_text (bs "a"))) |>)
     (ws_call receive_fun) ref_net).1 <> Fault OutOfFuel.
Proof.
  apply (perform_ends (fun _ => ret tt)).
  - discriminate.
  - constructor.
Defined.
