(* ===== verification/WebsocketSafety.v ===== *)
(** * The members of [websocket] stay in bounds

    A websocket waits for an operation with a continuation; what the
    continuation needs - that [receive] removes from the receive buffer a
    frame that is in it, that [send] finds the place of the header - is an
    invariant of the pair.  A close handler gets the object in any state, so it
    has to end without [receive] or [send]. *)

From S2P Require Import Prelude.
From S2P Require Import Externals.
From S2P Require Import Multimap.
From S2P Require Import Strings.
From S2P Require Import Message.
From S2P Require Import Request.
From S2P Require Import Routing.
From S2P Require Import Websocket.
From S2P Require Import Connection.
From S2P Require Import Net.
From S2P Require Import Server.
From S2P Require Import WebsocketLoop.

#[local] Open Scope Z_scope.

Section Members.
Context `{SU : StaticlibUtils, MP : MultimapPolicy, UC : UserCode, WL : WebsocketLib}.
Context {WLL : WebsocketLibLaws}.

(** a callback that ends with [close], or destroys the websocket *)
Definition terminal (f : websocket_callback) : Prop :=
  match f with
  | receive_fun => False
  | noop_fun => True
  | user_websocket_handler h => forall ws u,
    match wsr_end (run_websocket_handler h ws u).1 with
    | ws_end_close _ | ws_end_drop | ws_end_throw _ => True
    | _ => False
    end
  end.

(** [receive] may be called: the last frame, if any, is in the buffer *)
Definition receivable (ws : websocket) : Prop :=
  forall b, last (frames ws) = Some b -> 0 < frame_size b <= slen (receive_buffer ws).

(** [send_message] may be called *)
Definition has_header_slot (ws : websocket) : Prop := payload_buffers ws <> [].

Fixpoint continuation_ok (k : ws_continuation) (ws : websocket) : Prop :=
  match k with
  | then_process_receive_buffer => True
  | then_send_internal k => continuation_ok k ws
  | then_on_open | then_receive | then_call _ => receivable ws
  end.

Definition wait_ok (k : ws_wait) (ws : websocket) : Prop :=
  terminal (on_close_fun ws) /\
  match k with
  | wait_write k => continuation_ok k ws
  | wait_write_close => True
  | wait_read => has_header_slot ws
  | wait_post k => has_header_slot ws /\ continuation_ok k ws
  end.

Definition action_ok (a : ws_action) (ws : websocket) : Prop :=
  terminal (on_close_fun ws) /\
  match a with
  | ws_write _ k => continuation_ok k ws
  | ws_write_close _ => True
  | ws_read => has_header_slot ws
  | ws_post k => has_header_slot ws /\ continuation_ok k ws
  | ws_call f => terminal f \/ (receivable ws /\ has_header_slot ws)
  end.

(** what the members return *)
Definition result_ok (r : res (websocket * ws_action)) : Prop :=
  exists ws a, r = Val (ws, a) /\ action_ok a ws.

Lemma continuation_ok_ext k ws ws' :
  frames ws' = frames ws -> receive_buffer ws' = receive_buffer ws ->
  continuation_ok k ws -> continuation_ok k ws'.
Proof.
  intros F B. induction k; cbn; unfold receivable; rewrite ?F, ?B; done.
Qed.

Lemma on_close_ok st ws : terminal (on_close_fun ws) -> result_ok (on_close st ws).
Proof. intros T. eexists _, _. split; [reflexivity|]. by split. Qed.

Lemma receivable_empty ws : frames ws = [] -> receivable ws.
Proof. intros E b. by rewrite E. Qed.

Lemma receivable_buffer ws fs :
  0 < frame_size (receive_buffer ws) <= slen (receive_buffer ws) ->
  receivable (ws <| frames := fs ++ [receive_buffer ws] |>).
Proof. intros L b. cbn. rewrite last_snoc. intros [= <-]. exact L. Qed.

Lemma on_ping_ok frame ws :
  terminal (on_close_fun ws) -> receivable ws -> result_ok (on_ping frame ws).
Proof.
  intros T R. unfold on_ping, websocket_write. eexists _, _. split; [reflexivity|].
  repeat case_match; by split.
Qed.

Lemma process_receive_buffer_ok ws :
  terminal (on_close_fun ws) -> has_header_slot ws -> result_ok (process_receive_buffer ws).
Proof.
  intros T H. unfold process_receive_buffer.
  destruct (frame_is_well_formed (receive_buffer ws)) eqn:W; cbn [negb]; [|by apply on_close_ok].
  destruct (frame_is_complete (receive_buffer ws)) eqn:C; cbn [negb].
  2:{ eexists _, _. split; [reflexivity|]. by split. }
  pose proof (frame_size_complete _ W C) as L.
  destruct (frame_is_final (receive_buffer ws)); cbn [negb].
  - pose proof (receivable_buffer ws (frames ws) L) as R. unfold process_final_frame.
    set (ws1 := ws <| frames := _ |>) in *.
    assert (terminal (on_close_fun ws1)) as T1 by exact T.
    assert (result_ok (Val (ws1, ws_call (on_message_fun ws1)))) as Call.
    { eexists _, _. split; [reflexivity|]. split; [done|]. by right. }
    destruct (frame_type_of (receive_buffer ws)); try exact Call; try (by apply on_close_ok).
    by apply on_ping_ok.
  - unfold on_continuation. destruct (frames_cache_overflow ws); [by apply on_close_ok|].
    unfold add_to_frames_cache, remove_frame_from_receive_buffer. cbn [receive_buffer set_field].
    rewrite (proj2 (Z.leb_le _ _)) by lia. eexists _, _. split; [reflexivity|]. by split.
Qed.

Lemma receive_ok ws :
  terminal (on_close_fun ws) -> has_header_slot ws -> receivable ws -> result_ok (websocket_receive ws).
Proof.
  intros T H R. unfold websocket_receive, clear_frames_cache. unfold receivable in R.
  destruct (last (frames ws)) as [b|].
  - specialize (R b eq_refl). unfold remove_frame_from_receive_buffer.
    rewrite (proj2 (Z.leb_le _ _)) by lia. by apply process_receive_buffer_ok.
  - by apply process_receive_buffer_ok.
Qed.

Lemma send_message_ok t k ws :
  terminal (on_close_fun ws) -> has_header_slot ws -> continuation_ok k ws ->
  result_ok (send_message t k ws).
Proof.
  intros T H K. unfold send_message, prepare_header, has_header_slot in *.
  destruct (payload_buffers ws) as [|b bufs]; [done|]. eexists _, _. split; [reflexivity|].
  split; [done|]. split; [done|]. by apply (continuation_ok_ext k ws).
Qed.

Lemma continue_ok k ws :
  terminal (on_close_fun ws) -> has_header_slot ws -> continuation_ok k ws -> result_ok (continue k ws).
Proof.
  intros T H K. destruct k; cbn [continue].
  - eexists _, _. split; [reflexivity|]. split; auto.
  - by apply receive_ok.
  - by apply process_receive_buffer_ok.
  - eexists _, _. split; [reflexivity|]. split; auto.
  - eexists _, _. split; [reflexivity|]. split; auto.
Qed.

(** the completion handlers *)
Lemma write_completed_ok ok k ws : wait_ok (wait_write k) ws -> result_ok (write_completed ok k ws).
Proof.
  intros [T K]. unfold write_completed. set (ws1 := clear_payload ws).
  assert (terminal (on_close_fun ws1)) as T1 by exact T.
  destruct ok; [|by apply on_close_ok]. apply continue_ok; [done|done|].
  by apply (continuation_ok_ext k ws).
Qed.

Lemma read_completed_ok data ws : wait_ok wait_read ws -> result_ok (read_completed data ws).
Proof.
  intros [T H]. destruct data as [b|]; cbn [read_completed]; [|by apply on_close_ok].
  unfold consume. destruct (receive_buffer_overflow _ ws); [by apply on_close_ok|].
  by apply process_receive_buffer_ok.
Qed.

Lemma close_completed_ok ws : wait_ok wait_write_close ws -> result_ok (close_completed ws).
Proof. intros [T _]. eexists _, _. split; [reflexivity|]. split; auto. Qed.

(** the handshake *)
Lemma websocket_write_keeps d ws :
  let ws' := websocket_write d ws in
  frames ws' = frames ws /\ receive_buffer ws' = receive_buffer ws /\
  on_close_fun ws' = on_close_fun ws /\ (has_header_slot ws -> has_header_slot ws').
Proof.
  unfold websocket_write, has_header_slot. case_match; split_and!; try done.
  cbn. intros _ E. by apply app_eq_nil in E as [].
Qed.

Lemma websocket_writes_keep ds ws :
  let ws' := fold_left (fun ws d => websocket_write d ws) ds ws in
  frames ws' = frames ws /\ receive_buffer ws' = receive_buffer ws /\
  on_close_fun ws' = on_close_fun ws /\ (has_header_slot ws -> has_header_slot ws').
Proof.
  revert ws. induction ds as [|d ds IH]; intros ws; [done|]. cbn [fold_left].
  destruct (IH (websocket_write d ws)) as (-> & -> & -> & H).
  destruct (websocket_write_keeps d ws) as (-> & -> & -> & H'). split_and!; auto.
Qed.

Lemma prepare_handshake_keeps ws :
  let ws' := prepare_handshake ws in
  frames ws' = frames ws /\ on_close_fun ws' = on_close_fun ws.
Proof.
  destruct (websocket_write_keeps make_response_line ws) as (E1 & _ & E2 & _).
  unfold prepare_handshake. cbv zeta. rewrite <- E1, <- E2.
  generalize (make_response_headers (get_header (req_base (ws_request (websocket_write make_response_line ws)))
    (bs "Sec-WebSocket-Key"))) as hs.
  generalize (websocket_write make_response_line ws) as w0. clear E1 E2. intros w0 hs.
  match goal with |- context [websocket_write ?d ?w] =>
    destruct (websocket_write_keeps d w) as (-> & _ & -> & _) end.
  revert w0. induction hs as [|h hs IH]; intros w0; [done|]. cbn [fold_left].
  rewrite (proj1 (IH _)), (proj2 (IH _)).
  repeat match goal with |- context [websocket_write ?d ?w] =>
    destruct (websocket_write_keeps d w) as (-> & _ & -> & _) end. done.
Qed.

Lemma websocket_start_ok ws :
  terminal (on_close_fun ws) -> frames ws = [] -> result_ok (websocket_start ws).
Proof.
  intros T F. destruct (prepare_handshake_keeps ws) as [E1 E2]. unfold websocket_start, send_internal.
  eexists _, _. split; [reflexivity|]. split; [by rewrite E2|]. apply receivable_empty. by rewrite E1.
Qed.

End Members.
