(* ===== verification/ServerTheorems.v ===== *)
(** * Theorems about the running server *)

From S2P Require Import Prelude.
From S2P Require Import Externals.
From S2P Require Import Multimap.
From S2P Require Import Strings.
From S2P Require Import Message.
From S2P Require Import Request.
From S2P Require Import ParserState.
From S2P Require Import BodyParser.
From S2P Require Import Parser.
From S2P Require Import Response.
From S2P Require Import Writer.
From S2P Require Import Routing.
From S2P Require Import Websocket.
From S2P Require Import Scheduler.
From S2P Require Import Connection.
From S2P Require Import Net.
From S2P Require Import Server.
From S2P Require Import ServerFrame.
From S2P Require Import ServerSteps.
From S2P Require Import StopProofs.
From S2P Require Import RefUtils.
From S2P Require Import RoutingTheorems.
From S2P Require Import RefServer.
From S2P Require Import WebsocketLoop.

#[local] Open Scope Z_scope.

Section Theorems.
Context `{SU : StaticlibUtils, MP : MultimapPolicy, UC : UserCode, WL : WebsocketLib}.
Context (srv : http_server) (garbage : Z * Z).

(** ** Ownership *)

(** the connections that a timeout or a posted broadcast holds *)
Definition held (n : net) : list nat := map held_connection (n_held n).

Definition collected (n : net) : Prop :=
  forall c, is_Some (n_connections n !! c) -> c ∈ n_conn_pool n \/ c ∈ held n.

Lemma net_step_collects n n' :
  net_step srv garbage n n' -> (exists n1, n' = collect n1) \/
  exists c, n' = n <| n_connections := alter close_connection c (n_connections n) |>.
Proof.
  intros S. destruct S as [before op after o r n' E _ R _| |before h after r n' E R| | | | |]; eauto; left.
  - revert R. unfold complete. destruct (holding _ _ _) as [x n1]. intros [= _ <-]. eauto.
  - revert R. unfold complete_held. destruct (holding _ _ _) as [x n1]. intros [= _ <-]. eauto.
Qed.

Lemma core_uncollect n : core false [] (collect n) -> collected (collect n).
Proof.
  intros C c [_ H]%collect_lookup.
  apply referenced_spec in H as [H|[H|[H|H]]]; [by left|left; by apply C| |by right].
  change (c ∈ n_refs (collect n)) in H. rewrite (core_refs _ _ _ C) in H.
  by apply not_elem_of_nil in H.
Qed.

Lemma reachable_collected n : reachable srv garbage n -> collected n.
Proof.
  induction 1 as [threads ssl w|n n' R IH S].
  - intros c [x H]. cbn in H. by rewrite lookup_empty in H.
  - pose proof (core_reachable _ _ _ (reachable_step _ _ _ _ R S)) as C.
    apply net_step_collects in S as [[n1 ->]|[c ->]].
    + by apply core_uncollect.
    + intros c' H. apply alter_is_Some in H. by apply IH.
Qed.

(** C4: Ownership.  In every state a server can reach, a connection is used
    by at most one party: there is one asynchronous operation in flight on it,
    or one writer that user code keeps, never two.  The connections in use are
    in the pool, the pool lists each of them once, the connections that exist
    are those of the pool and those that the timeout of a read or a posted
    broadcast still holds, and the mutex is free between the operations. *)
Theorem server_ownership (n : net) :
  reachable srv garbage n ->
  NoDup (owners n) /\ NoDup (n_conn_pool n) /\
  (forall c, c ∈ owners n -> c ∈ n_conn_pool n) /\
  (forall c, alive n c = true <-> c ∈ n_conn_pool n \/ c ∈ held n) /\
  n_mutex n = false.
Proof.
  intros R. pose proof (core_reachable _ _ _ R) as C. pose proof (reachable_collected _ R) as D.
  split_and!; try apply C. intros c. unfold alive. rewrite bool_decide_eq_true.
  split; [apply D|]. intros [H|H]; [by apply C|].
  apply elem_of_held in H as (h & H & <-). by apply (core_held _ _ _ C).
Qed.

(** ** The end of [stop] *)

Lemma in_use_spec n c :
  core false [] n -> referenced_outside_pool n c = true <-> c ∈ owners n \/ c ∈ held n.
Proof.
  intros C. unfold referenced_outside_pool. rewrite !orb_true_iff, !bool_decide_eq_true.
  rewrite (core_refs _ _ _ C). unfold owners. rewrite elem_of_app. set_solver.
Qed.

(** nothing is in flight on a connection of the pool *)
Definition idle (n : net) : Prop :=
  owners n = [] /\ forall c, c ∈ held n -> c ∉ n_conn_pool n.

Lemma pruned_idle n :
  core false [] n -> n_conn_pool (prune_connections n).2 = [] <-> idle n.
Proof.
  intros C. split.
  - intros E. assert (forall c, c ∈ n_conn_pool n -> referenced_outside_pool n c <> true) as H.
    { intros c P R. apply (not_elem_of_nil c). rewrite <- E. apply prune_pool. by split. }
    split; [|intros c Hc P; apply (H c P), in_use_spec; auto].
    destruct (owners n) as [|c l] eqn:O; [done|]. exfalso.
    assert (c ∈ owners n) as Oc by (rewrite O; left).
    apply (H c); [by apply (core_pooled _ _ _ C)|]. apply in_use_spec; auto.
  - intros [O H]. destruct (n_conn_pool (prune_connections n).2) as [|c l] eqn:E; [done|]. exfalso.
    assert (c ∈ n_conn_pool (prune_connections n).2) as [P R]%prune_pool by (rewrite E; left).
    apply in_use_spec in R as [R|R]; [|by apply (H c)|done]. rewrite O in R. by apply not_elem_of_nil in R.
Qed.

(** a turn of the loop of [stop] *)
Lemma stop_turn_waits (n : net) :
  core false [] n ->
  ((stop_turn n).1 = Val true <-> idle n) /\
  ((stop_turn n).1 = Val true -> n_conn_pool (stop_turn n).2 = []).
Proof.
  intros C. unfold stop_turn, with_lock, gets, ret, modify, bind. rewrite (core_mutex _ _ _ C).
  cbn -[prune_connections]. destruct (bool_decide_reflect (n_conn_pool n = [])) as [E|E].
  - cbn. split; [|done]. split; [|done]. intros _. split; [|rewrite E; set_solver].
    destruct (owners n) as [|c l] eqn:O; [done|].
    pose proof (core_pooled _ _ _ C c) as P. rewrite O, E in P. set_solver.
  - set (n0 := n <| n_mutex := true |>).
    assert (n_conn_pool (prune_connections n0).2 = [] <-> idle n) as Z
      by exact (pruned_idle n C).
    assert ((prune_connections n0).1 = Val (Z.of_nat (length (n_conn_pool (prune_connections n0).2))))
      as V by done.
    destruct (prune_connections n0) as [r n1]. cbn in V, Z. subst r.
    destruct (n_conn_pool n1) as [|c l] eqn:E1; cbn; [|split; [split; [done|]|done]].
    + split; [tauto|done].
    + intros H. by apply Z in H.
Qed.

(** C18: [tcp_server::stop] waits for the work that is in flight and no
    longer.  In every state a server can reach, a turn of its waiting loop
    ends the loop exactly when on no connection of the pool an operation is in
    flight, a writer is kept, or a timeout or a broadcast is pending; the pool
    is empty then.  And the wait has an end, WebSockets included, if the close
    handlers destroy their websockets: after the sockets have been closed the
    operations in flight fail and the held handlers run, in any order, and
    whatever other user code does, each failure leaves less work; after as many
    failures as there is work, and as many handlers as are held, nothing is in
    flight, and unless user code keeps a writer the next turn ends the loop. *)
Theorem stop_waits `{WLL : !WebsocketLibLaws} (n : net) :
  reachable srv garbage n ->
  ((stop_turn n).1 = Val true <-> idle n) /\
  ((stop_turn n).1 = Val true -> n_conn_pool (stop_turn n).2 = []) /\
  ((forall path h, wsclose_handlers srv !! path = Some h -> destroys h) ->
   n_listening n = true -> forall events : list wind_event,
   Forall event_fails events ->
   (work (n_pending n) <= failures events)%nat -> (length (n_held n) <= handlers_run events)%nat ->
   let n' := wind_down srv garbage events (stop_begin false n).2 in
   n_pending n' = [] /\ n_held n' = [] /\ (n_kept n' = [] -> (stop_turn n').1 = Val true)).
Proof.
  intros R. pose proof (core_reachable _ _ _ R) as C. destruct (stop_turn_waits n C) as [T P].
  split; [exact T|]. split; [exact P|]. intros Cl L evs F Lw Lh.
  assert (TableClosers (CL := destroys_closer) srv) as TC by (by split).
  pose proof (reachable_closers (CL := destroys_closer) srv garbage n R) as D.
  destruct (stop_begin_stopping n C L D) as (St & Ep & Eh).
  destruct (wind_down_ends srv garbage _ evs F _ St (keeps_core_stop_begin false false n C))
    as (N & H & C'); [by rewrite Ep|by rewrite Eh|].
  split; [exact N|]. split; [exact H|]. intros K. apply (stop_turn_waits _ C').
  unfold idle, owners, held. rewrite N, K, H. split; [done|]. intros c Hc. by apply not_elem_of_nil in Hc.
Qed.

(** ** Isolation *)


(** ** The lock *)

Lemma finish_locked k c n : n_mutex n = true -> finish_with srv garbage (S k) c n = (Fault Deadlock, n).
Proof. intros M. cbn [finish_with]. unfold finish_connection, with_lock. by rewrite M. Qed.

(** [finish_connection] of a connection that is kept is [handle_connection]
    with the mutex held *)
Lemma finish_connection_locks f c conn n r :
  n_mutex n = false -> n_listening n = true -> n_connections n !! c = Some conn ->
  is_pipelined conn = true ->
  (forall n0, n_mutex n0 = true -> n_connections n0 !! c = Some conn -> n_world n0 = n_world n ->
     (handle_connection srv garbage f c n0).1 = r) ->
  (finish_connection srv garbage f c n).1 = r.
Proof.
  intros M L C P H. assert (get_keep_alive conn = true) as KA.
  { revert P. unfold is_pipelined, get_keep_alive. by destruct (current_lifecycle conn). }
  unfold finish_connection, with_lock, gets, of_connection, connection_at, bind. rewrite M.
  set (n0 := n <| n_mutex := true |>).
  change (n_listening n0) with (n_listening n). change (n_connections n0) with (n_connections n).
  unfold gets. change (n_connections n0) with (n_connections n). rewrite L, C. cbn [default]. 
  cbn [from_option id]. rewrite KA. cbn [andb].
  rewrite <- (H n0 eq_refl C eq_refl). by destruct (handle_connection _ _ _ _ _) as [x n1].
Qed.

(** a socket that is closed stays closed while its lifecycle changes *)
Definition closed (c : nat) (n : net) : Prop := is_open (connection_at n c) = false.

Lemma closed_set_lifecycle c l n :
  closed c n -> closed c (on_connection c (set_lifecycle l) n).2.
Proof.
  unfold closed, connection_at. cbn -[alter]. rewrite lookup_alter_eq.
  by destruct (n_connections n !! c).
Qed.

(** a request that is not valid, on a connection that is closed *)
Lemma handle_invalid_closed f req c ec n :
  m_is_valid (req_base req) = false -> closed c n ->
  handle_request srv f req c ec n = f c (on_connection c (set_lifecycle lifecycle_close) n).2.
Proof.
  intros V C. unfold handle_request. rewrite V, orb_true_r. unfold handle_invalid_request.
  apply (closed_set_lifecycle c lifecycle_close) in C.
  unfold bind at 1, on_connection at 1, modify. 
  set (n1 := (on_connection c (set_lifecycle lifecycle_close) n).2) in *.
  change (bind (of_connection c is_open)
    (fun opened : bool => if opened && bool_decide (ec_category ec = cat_parser)
       then call_request_handler f (bad_request_handler srv) req (new_writer c req) else f c) n1
    = f c n1).
  unfold bind, of_connection, gets. by rewrite C.
Qed.

Lemma handle_pipelined_closed c conn n :
  n_mutex n = true -> n_connections n !! c = Some conn ->
  is_pipelined conn = true -> is_open conn = false ->
  (parse (handle_request_after_headers_parsed srv c)
     (mk_pstate (set_read_buffer (read_position conn) (new_parser garbage.1 garbage.2 1))
        (rd_request (new_reader garbage c (remote_ip conn))) no_error (n_world n))).1 = Val tfalse ->
  (handle_connection srv garbage (finish_with srv garbage 1) c n).1 = Fault Deadlock.
Proof.
  intros M C P O E. unfold handle_connection, receive.
  cbn [rd_tcp_conn new_reader rd_parser rd_request].
  unfold bind at 1 2, of_connection, gets. unfold connection_at. rewrite C. cbn [default from_option id].
  rewrite P. set (n1 := (on_connection c (set_lifecycle lifecycle_close) n).2).
  change ((bind (gets (fun s => load_read_pos (default (new_connection false) (n_connections s !! c))))
             (fun position => consume_bytes srv (finish_with srv garbage 1)
               (mk_reader UE (set_read_buffer position (new_parser garbage.1 garbage.2 1)) c
                  (rd_request (new_reader garbage c (remote_ip conn))))) n1).1 = Fault Deadlock).
  assert (n_connections n1 !! c = Some (set_lifecycle lifecycle_close conn)) as C1
    by (subst n1; cbn -[alter]; by rewrite lookup_alter_eq, C).
  unfold bind at 1, gets. rewrite C1. cbn [default from_option id].
  change (load_read_pos _) with (read_position conn).
  assert (closed c n1) as K by (unfold closed, connection_at; by rewrite C1).
  assert (n_mutex n1 = true) as M1 by done.
  change (n_world n) with (n_world n1) in E. clearbody n1. clear dependent n.
  unfold consume_bytes. cbn [rd_tcp_conn]. unfold bind at 1, run_parser. cbn [rd_parser rd_request].
  destruct (parse _ _) as [x s]. cbn [fst] in E. subst x.
  set (n2 := n1 <| n_world := ps_world s |>).
  unfold bind at 1. unfold on_connection, modify.
  set (n3 := (on_connection c (set_lifecycle lifecycle_close) n2).2).
  change ((handle_request srv (finish_with srv garbage 1)
             (on_base (set_is_valid false) (ps_request s)) c (ps_ec s) n3).1 = Fault Deadlock).
  rewrite handle_invalid_closed; [by rewrite finish_locked|done|].
  by apply closed_set_lifecycle.
Qed.

(** C23: The call [tcp_connection::finish] of a connection that is already
    closed, while the server listens and a pipelined request that is not valid
    is left in its buffer, never returns: [finish_connection] holds the mutex
    while it handles the request, and rejecting it calls [finish] again. *)
Theorem finish_deadlock (c : nat) (conn : tcp_connection) (n : net) :
  n_mutex n = false -> n_listening n = true ->
  n_connections n !! c = Some conn ->
  is_pipelined conn = true -> is_open conn = false ->
  (parse (handle_request_after_headers_parsed srv c)
     (mk_pstate (set_read_buffer (read_position conn) (new_parser garbage.1 garbage.2 1))
        (rd_request (new_reader garbage c (remote_ip conn))) no_error (n_world n))).1 = Val tfalse ->
  (connection_finish srv garbage c n).1 = Fault Deadlock.
Proof.
  intros M L C P O E. unfold connection_finish. cbn [finish_with].
  apply (finish_connection_locks _ _ conn); try done.
  intros n0 M0 C0 W0. apply (handle_pipelined_closed c conn); try done. by rewrite W0.
Qed.

End Theorems.

(** ** Examples *)

Definition completes_nth (srv : http_server) (i : nat) (o : completion) (n : net) : bool :=
  match n_pending n !! i with
  | Some op =>
    match op, o with
    | (op_read _ | op_websocket _ wait_read), inr [] => false
    | _, _ =>
      returned (complete srv (0, 0) op o
                  (n <| n_pending := take i (n_pending n) ++ drop (S i) (n_pending n) |>)).1
    end
  | None => false
  end.

Lemma step_complete_nth srv i o n :
  completes_nth srv i o n = true -> net_step srv (0, 0) n (complete_nth srv i o n).
Proof.
  unfold completes_nth, complete_nth. destruct (n_pending n !! i) as [op|] eqn:E; [|done].
  intros V.
  assert (completion_ok op o) as O by (destruct op as [| | | |? []], o as [|[]]; done).
  assert (returned (complete srv (0, 0) op o
            (n <| n_pending := take i (n_pending n) ++ drop (S i) (n_pending n) |>)).1 = true) as W.
  { clear O. destruct op as [| | | |? []], o as [|[]]; try done. }
  destruct (complete _ _ _ _ _) as [r n'] eqn:F.
  eapply step_complete; [|exact O|exact F|exact W]. by rewrite take_drop_middle.
Qed.

Lemma reachable_complete_nth srv i o n :
  completes_nth srv i o n = true ->
  reachable srv (0, 0) n -> reachable srv (0, 0) (complete_nth srv i o n).
Proof. intros V R. by eapply reachable_step, step_complete_nth. Qed.

Lemma reachable_started srv : reachable srv (0, 0) ref_started.
Proof.
  eapply reachable_step; [apply (reachable_new _ _ 2 false (n_world ref_net))|].
  assert (ref_started = collect ref_started) as -> by (vm_compute; reflexivity).
  apply (step_start _ _ _ (Val tt) (Val tt)); vm_compute; reflexivity.
Qed.

Ltac reach_step n := apply (step_complete_nth _ _ _ n); vm_compute; reflexivity.
Ltac reach_completion n := apply (reachable_complete_nth _ _ _ n); [vm_compute; reflexivity|].

Lemma reachable_answered : reachable ref_server (0, 0) ref_answered.
Proof.
  unfold ref_answered. reach_completion ref_accepted. unfold ref_accepted.
  reach_completion ref_started. apply reachable_started.
Qed.

(** the server with an echo service and a close handler: 2 ends with [close],
    3 destroys the websocket *)
Definition ref_ws_server (close_handler : nat) : http_server :=
  match add_websocket_handler (bs "WSOPEN") (bs "/ws") (user_websocket_handler 0%nat) ref_server with
  | Val s =>
    match add_websocket_handler (bs "WSMESSAGE") (bs "/ws") (user_websocket_handler 1%nat) s with
    | Val s =>
      match add_websocket_handler (bs "WSCLOSE") (bs "/ws") (user_websocket_handler close_handler) s with
      | Val s => s
      | _ => s
      end
    | _ => s
    end
  | _ => ref_server
  end.

Lemma ref_ws_close_handlers close_handler path h :
  wsclose_handlers (ref_ws_server close_handler) !! path = Some h ->
  h = user_websocket_handler close_handler.
Proof.
  assert (wsclose_handlers (ref_ws_server close_handler) =
          {[bs "/ws" := user_websocket_handler close_handler]}) as -> by (vm_compute; reflexivity).
  rewrite lookup_singleton_Some. by intros [_ <-].
Qed.

Definition ref_upgrade : str :=
  bs "GET /ws HTTP/1.1" ++ STRING_CRLF ++ bs "Host: a" ++ STRING_CRLF
  ++ bs "Connection: Upgrade" ++ STRING_CRLF ++ bs "Upgrade: websocket" ++ STRING_CRLF
  ++ bs "Sec-WebSocket-Version: 13" ++ STRING_CRLF
  ++ bs "Sec-WebSocket-Key: 0123456789abcdef01234567" ++ STRING_CRLF ++ STRING_CRLF.

Definition ref_ws_accepted (close_handler : nat) : net :=
  complete_nth (ref_ws_server close_handler) 0 (inr []) ref_started.
Definition ref_ws_upgraded (close_handler : nat) : net :=
  complete_nth (ref_ws_server close_handler) 1 (inr ref_upgrade) (ref_ws_accepted close_handler).

(** the handshake is sent and the open handler has called [receive] *)
Definition ref_ws_opened (close_handler : nat) : net :=
  complete_nth (ref_ws_server close_handler) 1 (inr []) (ref_ws_upgraded close_handler).

Lemma reachable_ws_closing : reachable (ref_ws_server 2) (0, 0) (ref_ws_opened 2).
Proof.
  unfold ref_ws_opened. reach_completion (ref_ws_upgraded 2).
  unfold ref_ws_upgraded. reach_completion (ref_ws_accepted 2).
  unfold ref_ws_accepted. reach_completion ref_started. apply reachable_started.
Qed.

Lemma reachable_ws_dropping : reachable (ref_ws_server 3) (0, 0) (ref_ws_opened 3).
Proof.
  unfold ref_ws_opened. reach_completion (ref_ws_upgraded 3).
  unfold ref_ws_upgraded. reach_completion (ref_ws_accepted 3).
  unfold ref_ws_accepted. reach_completion ref_started. apply reachable_started.
Qed.

(** a client has been answered, another one may connect *)
Lemma server_ownership_witness :
  owners ref_answered = [1%nat; 0%nat] /\ n_conn_pool ref_answered = [0%nat; 1%nat] /\
  NoDup (owners ref_answered) /\ n_mutex ref_answered = false.
Proof.
  destruct (server_ownership ref_server (0, 0) ref_answered reachable_answered) as (N & _ & _ & _ & M).
  split; [vm_compute; reflexivity|]. split; [vm_compute; reflexivity|]. split; assumption.
Defined.

(** a websocket is being read, the timeout of the read before it is still
    armed, and another client may connect: the accept fails, the read of the
    websocket fails, so does the write of the close frame, and the close
    handler destroys the object *)
Definition ref_winding : list wind_event :=
  [inl (1%nat, set_error ERROR_METHOD_CHAR); inl (0%nat, set_error ERROR_METHOD_CHAR); inr 0%nat;
   inl (0%nat, set_error ERROR_METHOD_CHAR)].

Lemma stop_waits_witness :
  (stop_turn (ref_ws_opened 3)).1 <> Val true /\
  let n' := wind_down (ref_ws_server 3) (0, 0) ref_winding (stop_begin false (ref_ws_opened 3)).2 in
  n_pending n' = [] /\ n_held n' = [] /\ (stop_turn n').1 = Val true.
Proof.
  pose proof (stop_waits (ref_ws_server 3) (0, 0) (ref_ws_opened 3) reachable_ws_dropping) as (T & _ & D).
  split.
  - intros H. apply T in H as [H _]. revert H. vm_compute. discriminate.
  - assert (forall path h, wsclose_handlers (ref_ws_server 3) !! path = Some h -> destroys h) as W
      by (intros path h ->%ref_ws_close_handlers ws u; exact I).
    assert (n_listening (ref_ws_opened 3) = true) as L by (vm_compute; reflexivity).
    assert (Forall event_fails ref_winding) as F by (repeat constructor).
    assert (work (n_pending (ref_ws_opened 3)) <= failures ref_winding)%nat as Lw
      by (apply Nat.leb_le; vm_compute; reflexivity).
    assert (length (n_held (ref_ws_opened 3)) <= handlers_run ref_winding)%nat as Lh
      by (apply Nat.leb_le; vm_compute; reflexivity).
    destruct (D W L ref_winding F Lw Lh) as (P & H & K). split; [exact P|]. split; [exact H|].
    apply K. vm_compute. reflexivity.
Defined.


Lemma finish_deadlock_witness :
  exists conn, n_connections ref_hung_up !! 0%nat = Some conn /\
    (connection_finish ref_server (0, 0) 0 ref_hung_up).1 = Fault Deadlock.
Proof.
  destruct (n_connections ref_hung_up !! 0%nat) as [conn|] eqn:E; [|vm_compute in E; discriminate].
  exists conn. split; [reflexivity|].
  assert (is_pipelined conn = true /\ is_open conn = false /\ read_position conn = bs "(" ++ ref_get (bs "/c")
          /\ remote_ip conn = 0) as (P & O & R & I)
    by (vm_compute in E; injection E as <-; vm_compute; repeat split).
  assert (n_mutex ref_hung_up = false) as M by (vm_compute; reflexivity).
  assert (n_listening ref_hung_up = true) as L by (vm_compute; reflexivity).
  refine (finish_deadlock ref_server (0, 0) 0 conn ref_hung_up M L E P O _).
  rewrite R, I. vm_compute. reflexivity.
Defined.
