(* ===== verification/BroadcastTheorems.v ===== *)
(** Broadcasts to the WebSocket connections of a path: the look-up in the
    registry, the handlers that are posted to the connections' strands, and
    what they send when they run. *)

From S2P Require Import Prelude.
From S2P Require Import Externals.
From S2P Require Import Multimap.
From S2P Require Import Strings.
From S2P Require Import Message.
From S2P Require Import Request.
From S2P Require Import Routing.
From S2P Require Import Websocket.
From S2P Require Import Scheduler.
From S2P Require Import Connection.
From S2P Require Import Net.
From S2P Require Import Server.
From S2P Require Import ServerFrame.
From S2P Require Import ServerSteps.
From S2P Require Import RoutingTheorems.
From S2P Require Import ServerTheorems.

#[local] Open Scope Z_scope.

#[export] Instance held_op_eq_dec : EqDecision held_op.
Proof. solve_decision. Defined.

(** the list without the first occurrence of an element *)
Fixpoint remove_first {A} `{EqDecision A} (x : A) (l : list A) : option (list A) :=
  match l with
  | [] => None
  | y :: l => if decide (x = y) then Some l else k ← remove_first x l; Some (y :: k)
  end.

Lemma remove_first_elem {A} `{EqDecision A} (x : A) l :
  x ∈ l -> exists k, remove_first x l = Some k /\ l ≡ₚ x :: k.
Proof.
  induction l as [|y l IH]; intros H; [by apply not_elem_of_nil in H|]. cbn.
  destruct (decide (x = y)) as [->|N]; [by exists l|].
  apply elem_of_cons in H as [->|H]; [done|]. destruct (IH H) as (k & -> & P).
  exists (y :: k). split; [done|]. rewrite P. apply Permutation_swap.
Qed.

Section Broadcast.
Context `{SU : StaticlibUtils, MP : MultimapPolicy, UC : UserCode, WL : WebsocketLib}.
Context (srv : http_server) (garbage : Z * Z).

(** the handlers posted with [data] run, in the order of their connections *)
Fixpoint run_posts (data : str) (order : list nat) (n : net) : option net :=
  match order with
  | [] => Some n
  | c :: order =>
    k ← remove_first (held_broadcast c data) (n_held n);
    run_posts data order (complete_held (held_broadcast c data) (n <| n_held := k |>)).2
  end.

Lemma collect_id n : (forall c, is_Some (n_connections n !! c) -> referenced n c = true) -> collect n = n.
Proof.
  intros H. unfold collect. set (l := filter _ _).
  assert (l = n_connections n) as ->.
  { apply map_filter_id. intros c x E. apply H. by exists x. }
  by destruct n.
Qed.

(** the state after some posts have run: their connections have been sent to *)
Definition posted (n : net) (h : list held_op) (sent : list (nat * str)) : net :=
  n <| n_held := h |>
    <| n_world := mk_server_world UE (sw_user (n_world n)) (sw_sent (n_world n) ++ sent) |>.

Lemma posted_spec n r h sent :
  let n' := posted (n <| n_registry := r |>) h sent in
  sw_sent (n_world n') = sw_sent (n_world n) ++ sent /\ n_connections n' = n_connections n.
Proof. done. Qed.

Lemma run_post n c data k :
  collected (n <| n_held := k |>) ->
  (complete_held (held_broadcast c data) (n <| n_held := k |>)).2 = posted n k [(c, data)].
Proof.
  intros C. unfold complete_held, holding. cbn -[collect].
  match goal with |- collect ?m = _ => assert (m = posted n k [(c, data)]) as -> by by destruct n end.
  apply collect_id. intros c' H. apply C in H. unfold referenced, referenced_outside_pool.
  rewrite !orb_true_iff, !bool_decide_eq_true. destruct H as [H|H]; [by left|]. by right; right.
Qed.

Lemma run_posts_all n data h : forall order k,
  collected (n <| n_held := h |>) -> k ≡ₚ h ++ map (fun c => held_broadcast c data) order ->
  exists h', h' ≡ₚ h /\
    run_posts data order (n <| n_held := k |>) = Some (posted n h' (map (fun c => (c, data)) order)).
Proof.
  intros order. revert n. induction order as [|c order IH]; intros n k C P; cbn [map run_posts].
  - rewrite app_nil_r in P. exists k. split; [done|]. unfold posted. rewrite app_nil_r. by destruct n as [? ? ? ? ? ? ? ? ? ? ? ? ? []].
  - cbn [map] in P. destruct (remove_first_elem (held_broadcast c data) k) as (k' & E & P').
    { rewrite P. set_solver. }
    change (n_held (n <| n_held := k |>)) with k. rewrite E. cbn [mbind option_bind].
    assert (k' ≡ₚ h ++ map (fun c => held_broadcast c data) order) as P2.
    { rewrite P' in P. rewrite <- Permutation_middle in P. by apply Permutation_cons_inv in P. }
    change ((n <| n_held := k |>) <| n_held := k' |>) with (n <| n_held := k' |>).
    rewrite run_post.
    2:{ intros c' H. destruct (C c' H) as [H'|H']; [by left|right]. unfold held in *. cbn in *.
        rewrite P2, map_app. set_solver. }
    destruct (IH (posted n k' [(c, data)]) k') as (h' & Ph & R); [exact C|done|].
    exists h'. split; [done|]. etrans; [exact R|]. unfold posted. cbn. by rewrite <- app_assoc.
Qed.

(** the connections of a path that exist, in the order of the registry *)
Definition live (path : str) (n : net) : list nat :=
  map we_conn (filter (fun e => alive n (we_conn e) = true) (registry_range (n_registry n) path)).

(** C19: Broadcasts.  When no identifiers are given, or those of all
    connections registered for the path are among them, a broadcast ends: it
    posts one handler for each connection of the path that exists, in the order
    of the registry, and drops the expired entries of the path.  In whatever
    order the handlers run, each connection is sent the one frame of the
    message, none of them is destroyed before, and nothing else of the server
    has changed when the last has run.  As soon as one identifier registered
    for the path is not among those given, the call never ends. *)
Theorem broadcast_reaches (path message : str) (t : frame_type) (ids : list str) (n : net) :
  reachable srv garbage n ->
  (Forall (fun e => wanted ids e = true) (registry_range (n_registry n) path) ->
   exists n1, broadcast_websocket (length (n_registry n) + 1) path message t ids n = (Val tt, n1) /\
     forall order, order ≡ₚ live path n -> exists h, h ≡ₚ n_held n /\
       run_posts (broadcast_message t message) order n1 =
       Some (posted (n <| n_registry :=
               filter (fun e => we_path e <> path \/ alive n (we_conn e) = true) (n_registry n) |>)
               h (map (fun c => (c, broadcast_message t message)) order))) /\
  (Exists (fun e => wanted ids e = false) (registry_range (n_registry n) path) ->
   forall fuel, (broadcast_websocket fuel path message t ids n).1 = Fault OutOfFuel).
Proof.
  intros R. apply reachable_collected in R. split.
  - intros F. eexists. split.
    { rewrite broadcast_spec. rewrite (proj1 (find_ws_conns_ends _ _ _ _) F). reflexivity. }
    intros order P. fold (live path n). set (r := filter _ (n_registry n)).
    destruct (run_posts_all (n <| n_registry := r |>) (broadcast_message t message) (n_held n) order
      (n_held n ++ map (fun c => held_broadcast c (broadcast_message t message)) (live path n)))
      as (h & Ph & E); [exact R|by rewrite P|]. by exists h.
  - intros X fuel. rewrite broadcast_spec, (proj2 (find_ws_conns_ends _ _ _ _) X). reflexivity.
Qed.

End Broadcast.

(** ** Examples *)

From S2P Require Import RefUtils.
From S2P Require Import RefServer.

(** a websocket of "/ws" is open: it gets a broadcast to everybody, and a
    broadcast to somebody else never ends *)
Lemma broadcast_reaches_witness :
  let n := ref_ws_opened 2 in
  live (bs "/ws") n = [0%nat] /\
  (exists n1 n2,
    broadcast_websocket 2 (bs "/ws") (bs "hello") ft_text [] n = (Val tt, n1) /\
    run_posts (broadcast_message ft_text (bs "hello")) [0%nat] n1 = Some n2 /\
    sw_sent (n_world n2) = sw_sent (n_world n) ++ [(0%nat, broadcast_message ft_text (bs "hello"))] /\
    n_connections n2 = n_connections n) /\
  forall fuel, (broadcast_websocket fuel (bs "/ws") (bs "hello") ft_text [bs "nobody"] n).1 = Fault OutOfFuel.
Proof.
  cbv zeta. assert (live (bs "/ws") (ref_ws_opened 2) = [0%nat]) as L by (vm_compute; reflexivity).
  split; [exact L|].
  pose proof (broadcast_reaches (ref_ws_server 2) (0, 0) (bs "/ws") (bs "hello") ft_text) as B.
  split.
  - destruct (B [] (ref_ws_opened 2) reachable_ws_closing) as [W _].
    destruct (W ltac:(apply list.Forall_forall; intros e _; reflexivity)) as (n1 & E & H).
    assert (length (n_registry (ref_ws_opened 2)) = 1%nat) as Lr by (vm_compute; reflexivity).
    rewrite Lr in E. destruct (H [0%nat] ltac:(rewrite L; reflexivity)) as (h & _ & R).
    exists n1. eexists. split; [exact E|]. split; [exact R|]. apply posted_spec.
  - apply (B [bs "nobody"] (ref_ws_opened 2) reachable_ws_closing).
    assert (existsb (fun e => negb (wanted [bs "nobody"] e))
              (registry_range (n_registry (ref_ws_opened 2)) (bs "/ws")) = true) as X
      by (vm_compute; reflexivity).
    apply list.Exists_exists. apply existsb_exists in X as (e & I & X). exists e.
    split; [by apply list_elem_of_In|]. by apply negb_true_iff in X.
Defined.
