(* ===== verification/ServerAnswers.v ===== *)
(** * What the server answers by itself

    The built-in request handlers, from the request to the bytes on the
    connection: the rejection of a request that could not be parsed and the
    answer to a request that no handler is registered for. *)

From S2P Require Import Prelude.
From S2P Require Import Externals.
From S2P Require Import Multimap.
From S2P Require Import Strings.
From S2P Require Import Message.
From S2P Require Import Request.
From S2P Require Import ParserState.
From S2P Require Import Response.
From S2P Require Import Writer.
From S2P Require Import Routing.
From S2P Require Import Websocket.
From S2P Require Import Connection.
From S2P Require Import Net.
From S2P Require Import Server.
From S2P Require Import HeaderRoundTrip.
From S2P Require Import ChunkRoundTrip.
From S2P Require Import WriterTheorems.
From S2P Require Import ResponseReader.
From S2P Require Import RoutingTheorems.
From S2P Require Import ServerFrame.

#[local] Open Scope Z_scope.

Section Answers.
Context `{SU : StaticlibUtils, MP : MultimapPolicy, UC : UserCode, WL : WebsocketLib}.
Context {ML : MultimapLaws} {IL : IequalsLaw} {DL : DecimalLaw}.
Context (srv : http_server) (finish : nat -> M net unit).

(** a writer whose response has this status and whose content is [body] *)
Record answer (req : http_request) (c : nat) (code : Z) (message body : str)
    (w : http_response_writer) : Prop := {
  an_conn : w_tcp_conn w = c;
  an_ready : ready_writer w;
  an_content : concat (content_buffers w) = body;
  an_status : status_line (w_response w) =
    get_version_string (resp_base (new_response req)) ++ bs " " ++ to_string code ++ bs " " ++ message;
  an_allowed : is_body_allowed (w_response w) = is_body_allowed (new_response req);
}.

Lemma new_response_base req :
  let m := resp_base (new_response req) in
  m_first_line m = [] /\ m_content_length m = 0 /\ m_do_not_send_content_length m = false /\
  m_headers m = [] /\ 0 <= m_version_major m /\ 0 <= m_version_minor m.
Proof. unfold new_response, update_request_info. by repeat case_match. Qed.

Lemma new_answer req c code message :
  0 <= code -> no_cr message ->
  answer req c code message [] (set_response_status code message (new_writer c req)).
Proof.
  intros Hc Hm. destruct (new_response_base req) as (F & L & D & H & Vj & Vn).
  unfold new_writer, set_response_status.
  split; [done| |done..]. set (r := new_response req) in *. clearbody r.
  split; try done; [by apply status_line_no_cr|..]; cbn; by rewrite H.
Qed.

(** what the constructor makes and [write] fills can be sent *)
Lemma new_writer_ready c req : ready_writer (new_writer c req).
Proof.
  destruct (new_response_base req) as (F & L & D & H & Vj & Vn).
  assert (0 <= status_code (new_response req) /\ no_cr (status_message (new_response req))) as [Sc Sm].
  { unfold new_response, update_request_info. repeat case_match; split; try done; by repeat constructor. }
  unfold new_writer. set (r := new_response req) in *. clearbody r.
  split; try done; [by apply status_line_no_cr|..]; cbn; by rewrite H.
Qed.

Lemma write_ready d w :
  slen (concat (content_buffers w)) + slen d < 2 ^ 63 -> ready_writer w -> ready_writer (write d w).
Proof.
  intros L R. destruct (is_body_allowed (w_response w)) eqn:B; [|unfold write; by rewrite B].
  destruct R as [Rh Rs Rk Rf Rl Rd Rn Rb Rt].
  destruct (write_spec d w B Rk L) as (W & _ & [K1 K2 K3 K4 K5]). split; rewrite ?K4; congruence || done.
Qed.

(** [write] and [write_nocopy] append to the content *)
Lemma answer_write req c code message body data w :
  is_body_allowed (new_response req) = true -> slen body + slen data < 2 ^ 63 ->
  answer req c code message body w -> answer req c code message (body ++ data) (write data w).
Proof.
  intros B L [Hc R C S A]. rewrite <- C in *. pose proof (write_ready data w L R) as R'.
  destruct (write_spec data w) as (_ & C' & [K1 K2 K3 K4 K5]); [congruence|apply R|done|].
  split; rewrite ?K4; congruence || done.
Qed.

Lemma write_nocopy_write data w :
  write_nocopy data w = (write data w) <| payload_cache := payload_cache w |>.
Proof. unfold write_nocopy, write, add_to_cache. destruct w. by destruct (_ && _). Qed.

Lemma answer_write_nocopy req c code message body data w :
  is_body_allowed (new_response req) = true -> slen body + slen data < 2 ^ 63 ->
  answer req c code message body w -> answer req c code message (body ++ data) (write_nocopy data w).
Proof.
  intros B L A. rewrite write_nocopy_write.
  destruct (answer_write _ _ _ _ _ _ _ B L A) as [Hc [] C S Al]. by split.
Qed.

Lemma body_allowed req :
  req_method req <> REQUEST_METHOD_HEAD -> is_body_allowed (new_response req) = true.
Proof.
  intros N. unfold is_body_allowed, str_eqb. apply negb_true_iff, bool_decide_eq_false.
  assert (request_method (new_response req) = req_method req) as ->
    by (unfold new_response, update_request_info; by repeat case_match).
  congruence.
Qed.

(** what the second state has more than the first: one message on [c] and its completion *)
Definition sends (c : nat) (bytes : str) (n n' : net) : Prop :=
  exists w, n' = n <| n_world := log_sent c bytes (n_world n) |>
                   <| n_pending := n_pending n ++ [op_write w None] |> /\ w_tcp_conn w = c.

(** a message that says how it is delimited and whether the connection stays,
    and that a client reads as this status line and this body, whatever follows *)
Record framed (start body : str) (keep_alive : bool) (bytes : str) : Prop := mk_framed {
  fr_bytes : exists headers : mmap,
    bytes = start ++ STRING_CRLF ++ header_lines headers ++ STRING_CRLF ++ body /\
    (exists k, iequal_to k HEADER_CONTENT_LENGTH = true /\
     equal_range headers HEADER_CONTENT_LENGTH = [(k, to_string (slen body))]) /\
    (exists k, iequal_to k HEADER_CONNECTION = true /\
     equal_range headers HEADER_CONNECTION = [(k, connection_value keep_alive)]);
  fr_read : exists r, seen_line r = start /\ seen_body r = body /\
    field_values (seen_fields r) (bs "Connection") = [connection_value keep_alive] /\
    forall rest, read_response (bytes ++ rest) = Some (r, rest);
}.

(** the status line of an answer to [req] *)
Definition answer_line (req : http_request) (code : Z) (message : str) : str :=
  get_version_string (resp_base (new_response req)) ++ bs " " ++ to_string code ++ bs " " ++ message.

Lemma send_answer req c code message body w n :
  answer req c code message body w -> is_open (connection_at n c) = true ->
  exists bytes n', send finish w n = (Val tt, n') /\ sends c bytes n n' /\
    framed (answer_line req code message) body (get_keep_alive (connection_at n c)) bytes.
Proof.
  intros [Hc R C S _] O. pose proof R as [Rh Rs Rk Rf Rl Rd _ _ _]. pose proof Rk as [Lk _].
  destruct (framing_spec w (get_keep_alive (connection_at n c))) as (hs & E & CL & CN & _); try done.
  destruct (read_ready w (get_keep_alive (connection_at n c)) R) as (r & [L B K _] & Rd').
  unfold send, send_more_data. unfold bind at 1 2, of_connection, gets. rewrite Hc, O.
  pose proof (prepare_write_buffers_conn [] (get_keep_alive (connection_at n c)) false w) as P.
  destruct (prepare_write_buffers [] _ false w) as [bufs w']. cbn [fst snd] in *.
  eexists _, _. split; [reflexivity|]. split; [exists w'; split; [reflexivity|congruence]|].
  rewrite C in *. unfold answer_line. rewrite <- S. split; [by exists hs|by exists r].
Qed.

(** C25: A request that could not be parsed is rejected: with the built-in
    handler, an open connection is sent exactly one message, "400 Bad Request"
    with the text of the server, framed by its length and announcing that the
    connection will be closed, which is what a client reads back, and the
    connection is marked so.  The status line has the version of the request:
    for one whose version is 0.0 (a simple request of HTTP/0.9, or one that
    was not parsed that far) it is "HTTP/0.0", with headers, although
    [update_request_info] means to answer it without version and headers. *)
Theorem bad_request_answered (req : http_request) (c : nat) (ec : error_code) (n : net) :
  bad_request_handler srv = handle_bad_request_fun ->
  ec_bool ec || negb (m_is_valid (req_base req)) = true -> ec_category ec = cat_parser ->
  req_method req <> REQUEST_METHOD_HEAD -> is_open (connection_at n c) = true ->
  exists bytes n',
    handle_request srv finish req c ec n = (Val tt, n') /\
    sends c bytes (on_connection c (set_lifecycle lifecycle_close) n).2 n' /\
    framed (answer_line req RESPONSE_CODE_BAD_REQUEST RESPONSE_MESSAGE_BAD_REQUEST)
      BAD_REQUEST_MSG false bytes.
Proof.
  intros H I K N O. unfold handle_request. rewrite I. unfold handle_invalid_request.
  set (n1 := (on_connection c (set_lifecycle lifecycle_close) n).2).
  assert (connection_at n1 c = set_lifecycle lifecycle_close (connection_at n c) \/
          connection_at n1 c = connection_at n c /\ n_connections n !! c = None) as C.
  { unfold connection_at. subst n1. cbn -[alter]. rewrite lookup_alter_eq.
    destruct (n_connections n !! c); [by left|by right]. }
  assert (is_open (connection_at n1 c) = true /\ get_keep_alive (connection_at n1 c) = false) as [O1 A1].
  { destruct C as [->|[-> E]]; [done|]. unfold connection_at in *. by rewrite E in *. }
  unfold bind at 1. change (on_connection c (set_lifecycle lifecycle_close) n) with (Val tt, n1).
  unfold bind, of_connection, gets. rewrite O1, K, bool_decide_eq_true_2 by done. cbn [andb].
  rewrite H. cbn [call_request_handler]. unfold handle_bad_request.
  rewrite <- A1. apply (send_answer req c); [|done].
  by apply (answer_write_nocopy req c _ _ []); [apply body_allowed| |apply new_answer; [done|by repeat constructor]].
Qed.

(** the resource as the answer quotes it *)
Definition quoted (resource : str) : str :=
  map (fun c => if Ascii.eqb c DQUOTE then SQUOTE else c) resource.

Lemma not_found_sends (req : http_request) (c : nat) (ec : error_code) (n : net) (m : http_map) :
  not_found_handler srv = handle_not_found_fun ->
  ec_bool ec || negb (m_is_valid (req_base req)) = false ->
  is_websocket_upgrade req = false ->
  req_method req <> REQUEST_METHOD_HEAD -> req_method req <> REQUEST_METHOD_OPTIONS ->
  select_map (req_method req) = Val m ->
  (forall k, ancestor k (strip_trailing_slash (req_resource req)) -> handlers srv m !! k = None) ->
  slen (req_resource req) < 2 ^ 62 -> is_open (connection_at n c) = true ->
  exists bytes n',
    handle_request srv finish req c ec n = (Val tt, n') /\ sends c bytes n n' /\
    framed (answer_line req RESPONSE_CODE_NOT_FOUND RESPONSE_MESSAGE_NOT_FOUND)
      (NOT_FOUND_MSG_START ++ quoted (req_resource req) ++ NOT_FOUND_MSG_FINISH)
      (get_keep_alive (connection_at n c)) bytes.
Proof.
  intros H V W N1 N2 Hm A L O. unfold handle_request. rewrite V, W.
  assert (str_eqb REQUEST_METHOD_OPTIONS (req_method req) = false) as ->
    by (unfold str_eqb; rewrite bool_decide_eq_false; congruence).
  cbn [andb]. rewrite Hm. unfold bind, lift. rewrite find_submatch_none by done. rewrite H.
  cbn [call_request_handler]. unfold handle_not_found_request.
  fold (quoted (req_resource req)).
  assert (slen (quoted (req_resource req)) = slen (req_resource req)) as Lq
    by (unfold slen, quoted; by rewrite length_map).
  assert (is_body_allowed (new_response req) = true) as B by by apply body_allowed.
  apply (send_answer req c); [|done]. rewrite app_assoc.
  apply answer_write_nocopy; [done| |apply answer_write; [done| |]].
  - rewrite slen_app, Lq. change (slen NOT_FOUND_MSG_START) with 87. change (slen NOT_FOUND_MSG_FINISH) with 34. lia.
  - rewrite Lq. change (slen NOT_FOUND_MSG_START) with 87. lia.
  - by apply (answer_write_nocopy req c _ _ []); [|..|apply new_answer; [done|by repeat constructor]].
Qed.


End Answers.

(** ** Examples *)

From S2P Require Import RefUtils.
From S2P Require Import RefServer.

Definition ref_request : http_request (PE := server_payload_env) :=
  on_base (set_is_valid true)
    ((new_request true) <| req_method := bs "GET" |> <| req_resource := bs "/c" |>).

Lemma bad_request_answered_witness :
  exists bytes n',
    handle_request ref_server (connection_finish ref_server (0, 0)) ref_request 0
      (set_error ERROR_METHOD_CHAR) ref_accepted = (Val tt, n') /\
    framed (bs "HTTP/1.1 400 Bad Request") BAD_REQUEST_MSG false bytes.
Proof.
  assert (req_method ref_request <> REQUEST_METHOD_HEAD) as N by discriminate.
  assert (is_open (connection_at ref_accepted 0) = true) as O by (vm_compute; reflexivity).
  destruct (bad_request_answered ref_server (connection_finish ref_server (0, 0)) ref_request 0
    (set_error ERROR_METHOD_CHAR) ref_accepted eq_refl eq_refl eq_refl N O) as (b & n' & E & _ & F).
  exists b, n'. split; [exact E|exact F].
Defined.

