(* ===== verification/BodyTheorems.v ===== *)
(** * What happens to a body that nobody reads

    Two limits of the handling of payload content: a chunk that does not fit
    into the chunk cache, and a body for which no payload handler is
    registered. *)

From S2P Require Import Prelude.
From S2P Require Import Externals.
From S2P Require Import Multimap.
From S2P Require Import Strings.
From S2P Require Import Message.
From S2P Require Import Request.
From S2P Require Import ParserState.
From S2P Require Import HeaderParser.
From S2P Require Import BodyParser.
From S2P Require Import Parser.
From S2P Require Import BodyProofs.
From S2P Require Import ParserInv.
From S2P Require Import ParserTheorems.
From S2P Require Import Routing.
From S2P Require Import RoutingTheorems.
From S2P Require Import Websocket.
From S2P Require Import Connection.
From S2P Require Import Net.
From S2P Require Import Server.

#[local] Open Scope Z_scope.

Section Chunks.
Context `{PE : PayloadEnv}.

(** inside a chunk whose bytes can neither be given to a handler nor cached *)
Record chunk_stuck (p : http_parser) (chunks : str) : Prop := {
  stuck_state : m_chunked_content_parse_state p = PARSE_CHUNK;
  stuck_inside : m_bytes_read_in_current_chunk p < m_size_of_current_chunk p;
  stuck_handler : m_payload_handler p = None;
  stuck_full : m_max_content_length p <= slen chunks;
}.

Lemma chunk_step_stuck c buf p chunks w :
  chunk_stuck p chunks -> chunk_step c buf p chunks w = CBreak 0 p chunks w.
Proof.
  intros [S I H F]. unfold chunk_step. rewrite S. unfold step_chunk.
  rewrite (proj2 (Z.ltb_lt _ _) I), H, (proj2 (Z.ltb_ge _ _) F). unfold end_of_chunk.
  by rewrite (proj2 (Z.eqb_neq _ _)) by lia.
Qed.

Lemma chunks_loop_stuck buf : forall n p chunks w,
  chunk_stuck p chunks ->
  chunks_loop buf n p chunks w =
  mk_chunks_stop (Val indeterminate) None [] (n + slen buf) p chunks w.
Proof.
  induction buf as [|c buf IH]; intros n p chunks w S; cbn [chunks_loop].
  - f_equal. unfold slen. cbn. lia.
  - rewrite chunk_step_stuck by done. rewrite dropl_drop, drop_0, IH by done. f_equal. unfold slen. cbn. lia.
Qed.

(** C40: A chunk that does not fit into the chunk cache never ends: once the
    cache holds as many bytes as it may, without a payload handler, every
    buffer that arrives is consumed whole without any effect but on the counters
    of bytes - the chunk's own counter stays - and the parser asks for more. *)
Theorem chunk_cache_full (s : pstate) :
  chunk_stuck (ps_parser s) (m_chunk_cache (req_base (ps_request s))) ->
  let '(r, s') := parse_chunks s in
  r = Val indeterminate /\ m_read (ps_parser s') = [] /\
  chunk_stuck (ps_parser s') (m_chunk_cache (req_base (ps_request s'))) /\
  m_chunk_cache (req_base (ps_request s')) = m_chunk_cache (req_base (ps_request s)) /\
  m_bytes_read_in_current_chunk (ps_parser s') = m_bytes_read_in_current_chunk (ps_parser s) /\
  m_size_of_current_chunk (ps_parser s') = m_size_of_current_chunk (ps_parser s) /\
  ps_world s' = ps_world s.
Proof.
  intros S. unfold parse_chunks. set (p := (ps_parser s) <| m_bytes_last_read := 0 |>).
  assert (chunk_stuck p (m_chunk_cache (req_base (ps_request s)))) as S' by (destruct S; by constructor).
  rewrite (chunks_loop_stuck (m_read p) 0 p _ (ps_world s) S'). cbn [cs_rc cs_error].
  destruct S. split_and!; try done; by constructor.
Qed.

End Chunks.

(** ** Computations that leave the read buffer alone *)

Section Buffer.
Context `{SU : StaticlibUtils, MP : MultimapPolicy, PE : PayloadEnv}.

Definition keeps_read {A} (m : M pstate A) : Prop :=
  forall s, m_read (ps_parser (m s).2) = m_read (ps_parser s).

Lemma keeps_read_pure {A} (m : M pstate A) : (forall s, (m s).2 = s) -> keeps_read m.
Proof. intros H s. by rewrite H. Qed.

Lemma keeps_read_modify f :
  (forall s, m_read (ps_parser (f s)) = m_read (ps_parser s)) -> keeps_read (modify f).
Proof. intros H s. apply H. Qed.

Lemma keeps_read_bind {A B} (m : M pstate A) (f : A -> M pstate B) :
  keeps_read m -> (forall a, keeps_read (f a)) -> keeps_read (bind m f).
Proof.
  intros H K s. specialize (H s). unfold bind. destruct (m s) as [[a|e|x] s1]; cbn in *; [|done..].
  by rewrite K.
Qed.

Lemma keeps_read_try_catch {A} c (m h : M pstate A) :
  keeps_read m -> keeps_read h -> keeps_read (try_catch c m h).
Proof.
  intros H K s. specialize (H s). unfold try_catch. destruct (m s) as [[a|e|x] s1]; cbn in *; try done.
  destruct (c e); [by rewrite K|done].
Qed.

Lemma keeps_read_try_message f : keeps_read (try_message f).
Proof. intros s. unfold try_message. by destruct (f _). Qed.

Lemma keeps_read_call_hook hook rc : keeps_read (call_hook hook rc).
Proof.
  intros s. unfold call_hook. destruct (hook _ _ _ _) as [r e]. cbn.
  by destruct (he_handler e).
Qed.

End Buffer.

Ltac keeps_read :=
  repeat first
    [ apply keeps_read_pure; done
    | apply keeps_read_modify; done
    | apply keeps_read_try_message | apply keeps_read_call_hook
    | apply keeps_read_bind; [|intros ?]
    | apply keeps_read_try_catch
    | progress cbv beta zeta
    | case_match ].

Section Ignored.
Context `{SU : StaticlibUtils, MP : MultimapPolicy, PE : PayloadEnv}.

Lemma keeps_read_finish : keeps_read finish.
Proof.
  unfold finish, finish_rest, finish_form_data, concatenate_unless_handled, on_message, on_request.
  keeps_read.
Qed.

Lemma keeps_read_finish_header_parsing hook : keeps_read (finish_header_parsing hook).
Proof.
  unfold finish_header_parsing, choose_payload_state, on_parser, on_message, on_request. keeps_read.
Qed.

Lemma choose_payload_ec s rc s1 :
  choose_payload_state s = (Val (Some rc), s1) -> ps_ec s1 = ps_ec s /\ rc <> tfalse.
Proof.
  unfold choose_payload_state, on_parser, on_message, on_request, modify, bind, gets, ret,
    try_catch, try_message.
  repeat (case_match; simplify_eq/=); intros; simplify_eq/=; try done; by destruct (m_parse_headers_only _).
Qed.

(** a hook that answers true unless there has been an error *)
Definition ends_after_headers (hook : hook_type) : Prop :=
  forall req rc w, rc <> tfalse ->
    match (hook req no_error rc w).1 with Val rc' => rc' = ttrue | _ => True end.

Lemma finish_header_parsing_ends hook s :
  ends_after_headers hook -> ps_ec s = no_error ->
  match (finish_header_parsing hook s).1 with Val rc => rc <> indeterminate | _ => True end.
Proof.
  intros H E. unfold finish_header_parsing. unfold bind at 1 2 3 4 5, on_parser, on_message, on_request,
    modify, gets.
  unfold bind at 1.
  match goal with |- context [choose_payload_state ?s0] => set (s1 := s0) end.
  assert (ps_ec s1 = no_error) as E1 by exact E. clearbody s1.
  destruct (choose_payload_state s1) as [[[rc|]|e|f] s2] eqn:C; [|discriminate|exact I|exact I].
  destruct (choose_payload_ec s1 rc s2 C) as [E2 N]. unfold call_hook. rewrite E2, E1.
  specialize (H (ps_request s2) rc (ps_world s2) N).
  destruct (hook _ _ _ _) as [[rc'|e|f] eff]; cbn in *; [by subst|done..].
Qed.

(** the first turn of the main loop, when it finds the end of the headers *)
Lemma first_iteration hook s p1 m1 :
  ends_after_headers hook -> m_message_parse_state (ps_parser s) = PARSE_START ->
  parse_headers ((ps_parser s) <| m_message_parse_state := PARSE_HEADERS |>)
    (req_base (ps_request s)) (ps_ec s) = (ttrue, p1, m1, no_error) ->
  match parse_iteration hook s with
  | (Val (rc, _), s1) => rc <> indeterminate /\ m_read (ps_parser s1) = m_read p1
  | _ => True
  end.
Proof.
  intros H S P.
  assert (m_message_parse_state p1 = PARSE_HEADERS) as S1.
  { pose proof (headers_loop_keeps (m_read ((ps_parser s) <| m_message_parse_state := PARSE_HEADERS |>)) 0
      ((ps_parser s) <| m_message_parse_state := PARSE_HEADERS |> <| m_bytes_last_read := 0 |>)
      (req_base (ps_request s))) as K.
    unfold parse_headers in P. destruct (headers_loop _ _ _ _) as [rc e rest n p m].
    destruct K as [K _ _ _ _ _ _ _ _ _].
    by destruct e; injection P; intros _ _ <- _. }
  unfold parse_iteration, bind at 1, gets at 1. rewrite S. unfold bind at 1, on_parser, modify.
  set (s1 := s <| ps_parser := _ |>).
  change (ps_parser s) with (ps_parser s) in P.
  unfold iterate_headers, bind at 1, run_parse_headers.
  change (ps_parser s1) with ((ps_parser s) <| m_message_parse_state := PARSE_HEADERS |>).
  change (ps_request s1) with (ps_request s). change (ps_ec s1) with (ps_ec s). rewrite P.
  set (s2 := s1 <| ps_parser := p1 |> <| ps_request := _ |> <| ps_ec := no_error |>).
  unfold bind at 1 2, last_read, gets. change (m_message_parse_state (ps_parser s2)) with (m_message_parse_state p1).
  rewrite S1. cbn [is_ttrue andb bool_decide decide_rel]. rewrite bool_decide_eq_true_2 by done.
  unfold bind. pose proof (finish_header_parsing_ends hook s2 H eq_refl) as F.
  pose proof (keeps_read_finish_header_parsing hook s2) as K.
  destruct (finish_header_parsing hook s2) as [[rc|e|f] s3]; cbn in *; done.
Qed.

Lemma parse_loop_once hook fuel total s rc n s1 :
  parse_iteration hook s = (Val (rc, n), s1) -> rc <> indeterminate ->
  parse_loop hook (S fuel) total s = (Val (rc, total +64 n), s1).
Proof. intros E N. cbn [parse_loop]. unfold bind, gets, ret. rewrite E. by destruct rc. Qed.

Lemma keeps_read_epilogue r : keeps_read (parse_epilogue r).
Proof.
  destruct r as [rc total]. unfold parse_epilogue, on_parser, on_message, on_request.
  apply keeps_read_bind; [|intros _; keeps_read].
  destruct (is_ttrue rc); [|keeps_read]. apply keeps_read_bind; [by apply keeps_read_modify|].
  intros _. apply keeps_read_finish.
Qed.

Lemma parse_epilogue_rc rc total s rc' s' :
  parse_epilogue (rc, total) s = (Val rc', s') -> rc' = rc.
Proof.
  unfold parse_epilogue, bind, on_parser, modify, ret.
  destruct (_ s) as [[[]|e|f] s1]; [|done..]. by intros [= <- _].
Qed.

(** C27: The body of a request is not read when the hook ends the message
    after the headers: whatever Content-Length and Transfer-Encoding say, a
    call of [parse] on a buffer that contains the end of the headers ends the
    message, and leaves in the read buffer everything that follows them. *)
Theorem body_left_unread (hook : hook_type) (s : pstate) (p1 : http_parser) (m1 : http_message) :
  ends_after_headers hook ->
  m_message_parse_state (ps_parser s) = PARSE_START -> m_read (ps_parser s) <> [] ->
  m_has_missing_packets (req_base (ps_request s)) = false ->
  parse_headers ((ps_parser s) <| m_message_parse_state := PARSE_HEADERS |>)
    (req_base (ps_request s)) (ps_ec s) = (ttrue, p1, m1, no_error) ->
  match parse hook s with
  | (Val rc, s') => rc <> indeterminate /\ m_read (ps_parser s') = m_read p1
  | _ => True
  end.
Proof.
  intros H S N M P. unfold parse, bind at 1. rewrite parse_prologue_eq by done.
  unfold prologue_state. rewrite M. unfold bind at 1, parse_fuel.
  pose proof (first_iteration hook s p1 m1 H S P) as I.
  destruct (parse_iteration hook s) as [[[rc n]|e|f] s1] eqn:E.
  - destruct I as [Nrc R]. rewrite (parse_loop_once _ _ _ _ _ _ _ E Nrc).
    pose proof (keeps_read_epilogue (rc, 0 +64 n) s1) as K.
    destruct (parse_epilogue (rc, 0 +64 n) s1) as [[rc'|e|f] s'] eqn:EP; [|done..].
    apply parse_epilogue_rc in EP as ->. cbn in K. by rewrite K.
  - cbn [parse_loop]. unfold bind. by rewrite E.
  - cbn [parse_loop]. unfold bind. by rewrite E.
Qed.

End Ignored.

(** a server with no payload handlers has such a hook *)
Lemma server_hook_ends `{SU : StaticlibUtils, MP : MultimapPolicy, UC : UserCode, WL : WebsocketLib} srv c :
  (forall m, payloads srv m = ∅) ->
  ends_after_headers (PE := server_payload_env) (handle_request_after_headers_parsed srv c).
Proof.
  intros E req rc w N. unfold handle_request_after_headers_parsed.
  assert (ec_bool no_error || is_tfalse rc = false) as -> by by destruct rc.
  destruct (select_map _) as [m|e|f]; [|done..]. rewrite E.
  rewrite find_submatch_none; [done|]. intros k _. apply lookup_empty.
Qed.

(** ** Examples *)

From S2P Require Import RefUtils.
From S2P Require Import RefServer.
From S2P Require Import ServerTheorems.

Definition ref_stuck : pstate (PE := ref_payload_env) :=
  mk_pstate (PE := ref_payload_env)
    (set_read_buffer (bs "zz") ((new_parser 0 0 1)
       <| m_chunked_content_parse_state := PARSE_CHUNK |> <| m_size_of_current_chunk := 2 |>
       <| m_bytes_read_in_current_chunk := 1 |>))
    (on_base (fun m => m <| m_chunk_cache := bs "z" |>) (new_request false)) no_error [].

Lemma chunk_cache_full_witness :
  m_chunk_cache (req_base (ps_request (parse_chunks ref_stuck).2)) = bs "z".
Proof.
  assert (chunk_stuck (ps_parser ref_stuck) (m_chunk_cache (req_base (ps_request ref_stuck)))) as S
    by (split; [reflexivity|reflexivity|reflexivity|vm_compute; discriminate]).
  pose proof (chunk_cache_full ref_stuck S) as C. destruct (parse_chunks ref_stuck) as [r s'].
  destruct C as (_ & _ & _ & C & _). exact C.
Defined.

(** a body that looks like a request *)
Definition ref_post : str :=
  bs "POST /a HTTP/1.1" ++ STRING_CRLF ++ bs "Content-Length: 18" ++ STRING_CRLF ++ STRING_CRLF.

Definition ref_post_state : pstate (PE := server_payload_env) :=
  mk_pstate (PE := server_payload_env)
    (set_read_buffer (ref_post ++ ref_get (bs "/c")) (new_parser 0 0 1)) (new_request true) no_error
    (mk_server_world _ [] []).

Lemma body_left_unread_witness :
  match parse (handle_request_after_headers_parsed ref_server 0) ref_post_state with
  | (Val rc, s') => rc <> indeterminate /\ m_read (ps_parser s') = ref_get (bs "/c")
  | _ => True
  end.
Proof.
  pose (x := parse_headers ((ps_parser ref_post_state) <| m_message_parse_state := PARSE_HEADERS |>)
               (req_base (ps_request ref_post_state)) (ps_ec ref_post_state)).
  assert (x.1.1.1 = ttrue) as E1 by (vm_compute; reflexivity).
  assert (x.2 = no_error) as E2 by (vm_compute; reflexivity).
  assert (m_read x.1.1.2 = ref_get (bs "/c")) as R by (vm_compute; reflexivity).
  destruct x as [[[rc p1] m1] ec] eqn:P. cbn [fst snd] in E1, E2, R. subst rc ec x.
  rewrite <- R.
  assert (forall m, payloads ref_server m = ∅) as E0 by (intros []; vm_compute; reflexivity).
  assert (m_message_parse_state (ps_parser ref_post_state) = PARSE_START) as S by reflexivity.
  assert (m_read (ps_parser ref_post_state) <> []) as N by discriminate.
  assert (m_has_missing_packets (req_base (ps_request ref_post_state)) = false) as M by reflexivity.
  pose proof (body_left_unread _ ref_post_state p1 m1 (server_hook_ends ref_server 0 E0) S N M P) as B.
  exact B.
Defined.

(** the server answers the request in the body *)
Example smuggled_request :
  map fst (sw_sent (n_world
    (complete_nth ref_server 1 (inr [])
       (complete_nth ref_server 1 (inr (ref_post ++ ref_get (bs "/c"))) ref_accepted))))
  = [0; 0]%nat.
Proof. vm_compute. reflexivity. Qed.
