(* ===== verification/ServerSafety.v ===== *)
(** * A server is memory safe

    The readers of the operations in flight keep the invariant of the parser,
    a connection that is pipelined has bytes left to parse, and what a websocket
    waits for is what it is ready for; so every handler returns, throws, or waits
    for the server's mutex for ever: none accesses memory out of bounds, fails an
    assertion or loops. *)

From S2P Require Import Prelude.
From S2P Require Import Externals.
From S2P Require Import Multimap.
From S2P Require Import Strings.
From S2P Require Import Message.
From S2P Require Import Request.
From S2P Require Import ParserState.
From S2P Require Import BodyParser.
From S2P Require Import Parser.
From S2P Require Import Response.
From S2P Require Import Writer.
From S2P Require Import Routing.
From S2P Require Import Websocket.
From S2P Require Import Scheduler.
From S2P Require Import Connection.
From S2P Require Import Net.
From S2P Require Import Server.
From S2P Require Import BodyProofs.
From S2P Require Import ParserInv.
From S2P Require Import ParserTheorems.
From S2P Require Import RoutingTheorems.
From S2P Require Import ServerSteps.
From S2P Require Import WebsocketLoop.
From S2P Require Import WebsocketSafety.

#[local] Open Scope Z_scope.

(** what is asked of the functions that create payload handlers: if one takes
    the request away from its reader ([set_request_reader] with a null pointer)
    and returns a handler, which then cannot be installed, it leaves the
    content of the request alone.  Nothing is asked of the payload handlers:
    they may throw. *)
Class UserLaws `{UC : UserCode} : Prop :=
  create_content creator req u h :
    (create_payload_handler creator req u).1 = inr h ->
    req_request_reader (create_payload_handler creator req u).2.1 = false ->
    same_content (PE := server_payload_env) req (create_payload_handler creator req u).2.1.

Section Safety.
Context `{SU : StaticlibUtils, MP : MultimapPolicy, UC : UserCode, WL : WebsocketLib}.
Context {PL : ParseUintLaw} {UL : UserLaws} {WLL : WebsocketLibLaws}.
Context (srv : http_server) (garbage : Z * Z).
Context (close_handlers : forall path h, wsclose_handlers srv !! path = Some h -> terminal h).
Context (garbage_words : 0 <= garbage.1 < 2 ^ 64 /\ 0 <= garbage.2 < 2 ^ 64).

(** ** The parser's hook *)

Lemma select_map_no_fault method f : select_map method <> Fault f.
Proof. unfold select_map, choose_map_by_method. by repeat case_match. Qed.

Lemma find_submatch_no_fault {V} (map : gmap str V) path f : find_submatch map path <> Fault f.
Proof. intros E. pose proof (find_submatch_spec map path) as H. by rewrite E in H. Qed.

Lemma same_content_refl req : same_content (PE := server_payload_env) req req.
Proof. by repeat split. Qed.

#[export] Instance hook_callbacks c :
  Callbacks (PE := server_payload_env) (handle_request_after_headers_parsed srv c).
Proof.
  intros req ec rc w. unfold handle_request_after_headers_parsed.
  destruct (_ || _); [by split|].
  set (w1 := if iequals _ _ then log_sent c _ w else w). clearbody w1.
  pose proof (select_map_no_fault (req_method req)) as F1.
  destruct (select_map _) as [m|e|f]; [|done|by destruct (F1 f)].
  pose proof (find_submatch_no_fault (payloads srv m) (strip_trailing_slash (req_resource req))) as F2.
  destruct (find_submatch _ _) as [[[k creator]|]|e|f]; [|by split|done|by destruct (F2 f)].
  pose proof (create_content creator req (sw_user w1)) as C.
  destruct (create_payload_handler creator req (sw_user w1)) as [[e|h] [req' u]]; [done|].
  specialize (C h eq_refl). cbn in C. unfold request_set_payload_handler. cbn.
  destruct (req_request_reader req') eqn:E; cbn; (split; [|done]); [done|]. intros _. by apply C.
Qed.

(** ** The invariant *)

Definition ready_reader (r : http_request_reader) : Prop :=
  forall ec w, parse_inv (mk_pstate (rd_parser r) (rd_request r) ec w).

Definition op_ready (op : async_op) : Prop :=
  match op with
  | op_read r => ready_reader r
  | op_websocket ws k => wait_ok k ws
  | _ => True
  end.

(** there is something to parse on a pipelined connection *)
Definition conn_ok (conn : tcp_connection) : Prop :=
  is_pipelined conn = true -> read_position conn <> [].

Record net_ready (locked : bool) (n : net) : Prop := {
  nr_mutex : n_mutex n = locked;
  nr_pending : Forall op_ready (n_pending n);
  nr_conns : forall c conn, n_connections n !! c = Some conn -> conn_ok conn;
}.

(** a computation that returns, throws or waits for the mutex *)
Definition safe (b : bool) {A} (Q : A -> Prop) (m : M net A) : Prop :=
  forall n, net_ready b n ->
    net_ready b (m n).2 /\
    match (m n).1 with Val a => Q a | Exn _ => True | Fault f => f = Deadlock end.

Definition always {A} (_ : A) : Prop := True.

Lemma safe_bind b {A B} (P : A -> Prop) (Q : B -> Prop) m f :
  safe b P m -> (forall a, P a -> safe b Q (f a)) -> safe b Q (bind m f).
Proof.
  intros H K n R. destruct (H n R) as [R1 V]. unfold bind.
  destruct (m n) as [[a|e|x] n1]; cbn in *; [by apply K|done..].
Qed.

Lemma safe_try_catch b {A} (Q : A -> Prop) p m h :
  safe b Q m -> safe b Q h -> safe b Q (try_catch p m h).
Proof.
  intros H K n R. destruct (H n R) as [R1 V]. unfold try_catch.
  destruct (m n) as [[a|e|x] n1]; cbn in *; try done. destruct (p e); [by apply K|done].
Qed.

Lemma safe_ret b {A} (Q : A -> Prop) a : Q a -> safe b Q (ret a).
Proof. intros H n R. by split. Qed.

Lemma safe_throw b {A} (Q : A -> Prop) e : safe b Q (throw e).
Proof. intros n R. by split. Qed.

Lemma safe_gets b {A} (f : net -> A) : safe b always (gets f).
Proof. intros n R. by split. Qed.

Lemma safe_lift b {A} (r : res A) : (forall f, r <> Fault f) -> safe b always (lift r).
Proof. intros H n R. split; [done|]. cbn. destruct r; [done..|by destruct (H f)]. Qed.

Lemma safe_if b {A} (Q : A -> Prop) (t : bool) m1 m2 :
  safe b Q m1 -> safe b Q m2 -> safe b Q (if t then m1 else m2).
Proof. by destruct t. Qed.

Lemma safe_modify b f :
  (forall n, net_ready b n -> net_ready b (f n)) -> safe b always (modify f).
Proof. intros H n R. split; [by apply H|done]. Qed.

Lemma safe_with_user_post b {A} (P : A -> Prop) (f : user_world -> A * user_world) :
  (forall u, P (f u).1) -> safe b P (with_user f).
Proof.
  intros H n []. specialize (H (sw_user (n_world n))). unfold with_user.
  destruct (f _) as [a u]. split; [by constructor|exact H].
Qed.

Lemma safe_with_user b {A} (f : user_world -> A * user_world) : safe b always (with_user f).
Proof. by apply safe_with_user_post. Qed.

Lemma safe_record_sent b c d : safe b always (record_sent c d).
Proof. apply safe_modify. intros n []. by constructor. Qed.

Lemma safe_start_op b op : op_ready op -> safe b always (start_op op).
Proof.
  intros O. apply safe_modify. intros n []. constructor; try done. cbn.
  apply Forall_app. split; [done|by constructor].
Qed.

Lemma safe_on_connection b c f :
  (forall conn, conn_ok conn -> conn_ok (f conn)) -> safe b always (on_connection c f).
Proof.
  intros H. apply safe_modify. intros n []. constructor; try done. cbn -[alter].
  intros c' conn E. destruct (decide (c = c')) as [->|N].
  - rewrite lookup_alter_eq in E. apply fmap_Some in E as (conn' & E & ->). eauto.
  - rewrite lookup_alter_ne in E by done. eauto.
Qed.

Lemma safe_lock b {A} (Q : A -> Prop) m : safe true Q m -> safe b Q (with_lock m).
Proof.
  intros H n R. unfold with_lock. rewrite (nr_mutex _ _ R). destruct b; [done|].
  assert (net_ready true (n <| n_mutex := true |>)) as R1 by (destruct R; by constructor).
  specialize (H _ R1). destruct (m _) as [r n1]. cbn in *. destruct H as [[] H].
  split; [by constructor|done].
Qed.

(** ** The handlers *)

Lemma safe_leaf b {A} (Q : A -> Prop) m : safe b Q m -> safe b always m.
Proof. intros H n R. destruct (H n R) as [R' V]. split; [done|]. by destruct (m n).1. Qed.

Lemma conn_ok_close conn : conn_ok (set_lifecycle lifecycle_close conn).
Proof. by intros [=]. Qed.

Lemma conn_ok_keepalive conn : conn_ok (set_lifecycle lifecycle_keepalive conn).
Proof. by intros [=]. Qed.

Lemma safe_set_close b c : safe b always (on_connection c (set_lifecycle lifecycle_close)).
Proof. apply safe_on_connection. intros conn _. apply conn_ok_close. Qed.

Lemma safe_pipeline b c p :
  p <> [] ->
  safe b always (on_connection c (set_lifecycle lifecycle_pipelined) ;;; on_connection c (save_read_pos p)).
Proof.
  intros N n []. split; [|done]. cbn -[alter]. constructor; try done. cbn -[alter].
  intros c' conn E. destruct (decide (c = c')) as [->|D].
  - rewrite !lookup_alter_eq in E. apply fmap_Some in E as (conn' & E & ->). by intros _.
  - rewrite !lookup_alter_ne in E by done. eauto.
Qed.

Section Finish.
Context (b : bool) (finish : nat -> M net unit).
Context (safe_finish : forall c, safe b always (finish c)).

Ltac safe_step :=
  first
    [ apply safe_gets | apply safe_with_user | apply safe_record_sent | apply safe_set_close
    | apply safe_finish | apply safe_throw | apply safe_ret; done | apply safe_start_op; done
    | apply safe_if
    | lazymatch goal with |- safe _ _ (bind _ _) => idtac end;
      eapply safe_bind; [apply safe_gets || apply safe_with_user || apply safe_record_sent
                         || apply safe_set_close|intros ? _] ].
Ltac safe := repeat safe_step.

Lemma safe_send_more_data final k w : safe b always (send_more_data finish final k w).
Proof.
  unfold send_more_data. safe. destruct (prepare_write_buffers _ _ _ _) as [bufs w']. safe.
Qed.

Lemma safe_run_reply r w : safe b always (run_reply finish r w).
Proof.
  unfold run_reply. set (w' := fold_left _ _ _). destruct (wr_end r);
    try apply safe_send_more_data; safe.
  - unfold send_chunk. eapply safe_bind; [apply safe_if; [apply safe_set_close|by apply safe_ret]|].
    intros _ _. safe. apply safe_send_more_data.
  - apply safe_modify. intros n []. by constructor.
Qed.

Lemma safe_call_request_handler h req w : safe b always (call_request_handler finish h req w).
Proof.
  destruct h; cbn [call_request_handler]; try apply safe_send_more_data. safe. apply safe_run_reply.
Qed.

(** *** WebSockets *)

Lemma safe_destroy_websocket ws : safe b always (destroy_websocket finish ws).
Proof. apply safe_try_catch; [apply safe_finish|by apply safe_ret]. Qed.

(** the callback that is to be called can have a number of turns *)
Definition turns_ok (fuel : nat) (ws : websocket) (a : ws_action) : Prop :=
  match a with
  | ws_call f => (terminal f /\ (0 < fuel)%nat) \/
                 (receivable ws /\ has_header_slot ws /\ (messages_left ws < fuel)%nat)
  | _ => True
  end.

(** what a callback leaves to do *)
Definition next_ok (fuel : nat) (x : option (websocket * ws_action)) : Prop :=
  match x with Some (ws, a) => action_ok a ws /\ turns_ok fuel ws a | None => True end.

Lemma safe_member fuel r :
  result_ok r -> (forall ws a, r = Val (ws, a) -> turns_ok fuel ws a) ->
  safe b (next_ok fuel) (x <- lift r ;; ret (Some x)).
Proof. intros (ws & a & -> & A) T n J. split; [exact J|]. split; [exact A|by apply T]. Qed.

Lemma receive_turns fuel ws :
  has_header_slot ws -> receivable ws -> (messages_left ws <= fuel)%nat ->
  forall ws' a, websocket_receive ws = Val (ws', a) -> action_ok a ws' -> turns_ok fuel ws' a.
Proof.
  intros H R L ws' a E [_ A]. destruct a as [| | | |f]; try exact I. cbn [turns_ok].
  destruct (receive_progress_last ws ws' f) as [_ P]; [intros b' Lb; apply R, Lb|done|].
  destruct A as [T|[R' H']]; [left; split; [done|lia]|right; split_and!; [done..|lia]].
Qed.

Lemma safe_receive fuel ws :
  terminal (on_close_fun ws) -> has_header_slot ws -> receivable ws -> (messages_left ws <= fuel)%nat ->
  safe b (next_ok fuel) (x <- lift (websocket_receive ws) ;; ret (Some x)).
Proof.
  intros T H R L. pose proof (receive_ok ws T H R) as O. apply safe_member; [done|].
  intros ws' a E. destruct O as (ws1 & a1 & E1 & A). rewrite E1 in E. injection E as <- <-.
  by apply (receive_turns fuel ws).
Qed.

Lemma safe_send_member fuel t k ws :
  terminal (on_close_fun ws) -> has_header_slot ws -> continuation_ok k ws ->
  safe b (next_ok fuel) (x <- lift (send_message t k ws) ;; ret (Some x)).
Proof.
  intros T H K. apply safe_member; [by apply send_message_ok|]. intros ws' a E.
  unfold send_message, post_with_strand, prepare_header in E. destruct (payload_buffers ws); by simplify_eq/=.
Qed.

(** user code in a state where it may call any member *)
Lemma safe_ws_reply fuel r ws :
  terminal (on_close_fun ws) -> has_header_slot ws -> receivable ws -> (messages_left ws <= fuel)%nat ->
  safe b (next_ok fuel) (run_ws_reply finish r ws).
Proof.
  intros T H R L. unfold run_ws_reply.
  destruct (websocket_writes_keep (wsr_writes r) ws) as (F & B & C & S).
  set (ws1 := fold_left _ _ _) in *. clearbody ws1.
  assert (terminal (on_close_fun ws1)) as T1 by (by rewrite C).
  assert (receivable ws1) as R1 by (unfold receivable; by rewrite F, B).
  assert (messages_left ws1 <= fuel)%nat as L1 by (unfold messages_left in *; by rewrite F, B).
  destruct (wsr_end r).
  - apply safe_receive; auto.
  - apply safe_send_member; auto.
  - apply safe_send_member; auto.
  - apply safe_member; [by apply on_close_ok|]. by intros ws' a [= <- <-].
  - eapply safe_bind; [apply safe_destroy_websocket|intros _ _; by apply safe_ret].
  - eapply safe_bind; [apply safe_destroy_websocket|intros _ _; apply safe_throw].
Qed.

(** a callback that may be called in any state *)
Lemma safe_terminal fuel f ws :
  terminal f -> terminal (on_close_fun ws) -> safe b (next_ok fuel) (call_websocket_handler finish f ws).
Proof.
  intros Tf T. destruct f as [| |h]; cbn [call_websocket_handler]; [done| |].
  - eapply safe_bind; [apply safe_destroy_websocket|intros _ _; by apply safe_ret].
  - apply (safe_bind b (fun r => match wsr_end r with
      | ws_end_close _ | ws_end_drop | ws_end_throw _ => True | _ => False end));
      [apply safe_with_user_post, (Tf ws)|].
    intros r Tr. unfold run_ws_reply.
    destruct (websocket_writes_keep (wsr_writes r) ws) as (_ & _ & C & _).
    set (ws1 := fold_left _ _ _) in *. clearbody ws1.
    destruct (wsr_end r); try done.
    + apply safe_member; [apply on_close_ok; by rewrite C|]. by intros ws' a [= <- <-].
    + eapply safe_bind; [apply safe_destroy_websocket|intros _ _; by apply safe_ret].
    + eapply safe_bind; [apply safe_destroy_websocket|intros _ _; apply safe_throw].
Qed.

Lemma safe_callback fuel f ws :
  action_ok (ws_call f) ws -> turns_ok (S fuel) ws (ws_call f) ->
  safe b (next_ok fuel) (call_websocket_handler finish f ws).
Proof.
  intros [T _] [[Tf _]|(R & H & L)]; [by apply safe_terminal|].
  destruct f as [| |h]; cbn [call_websocket_handler].
  - apply safe_receive; done || lia.
  - eapply safe_bind; [apply safe_destroy_websocket|intros _ _; by apply safe_ret].
  - eapply safe_bind; [apply safe_with_user|intros r _]. apply safe_ws_reply; done || lia.
Qed.

Lemma safe_perform_with fuel : forall ws a,
  action_ok a ws -> turns_ok fuel ws a -> safe b always (perform_with finish fuel ws a).
Proof.
  induction fuel as [|fuel IH]; intros ws a A L; destruct a as [bufs k|st| |k|f]; cbn [perform_with];
    try (eapply safe_bind; [apply safe_record_sent|intros _ _]); try (apply safe_start_op; exact A);
    try (apply safe_start_op; by destruct A).
  - cbn [turns_ok] in L. lia.
  - eapply safe_bind; [apply (safe_callback fuel f ws A L)|].
    intros [[ws' a']|] N; [|by apply safe_ret]. destruct N. by apply IH.
Qed.

Lemma safe_perform_result r : result_ok r -> safe b always (perform_result finish r).
Proof.
  intros (ws & a & -> & A). unfold perform_result, perform.
  eapply (safe_bind b (eq (ws, a))); [by intros n J|intros x <-]. apply safe_perform_with; [done|].
  destruct a as [| | | |f]; try done. destruct A as [_ [T|[R H]]]; [left; split; [done|lia]|right].
  split_and!; [done..|]. unfold messages_left. destruct (frames ws); lia.
Qed.

Lemma safe_start_websocket req c op mess cl :
  terminal cl -> safe b always (start_websocket finish req c op mess cl).
Proof.
  intros T. unfold start_websocket. eapply safe_bind; [apply safe_set_close|intros _ _].
  eapply safe_bind; [|intros _ _; apply safe_modify; intros n []; by constructor].
  apply safe_perform_result. by apply websocket_start_ok.
Qed.

Lemma safe_handle_request req c ec : safe b always (handle_request srv finish req c ec).
Proof.
  unfold handle_request. apply safe_if.
  { unfold handle_invalid_request. safe. apply safe_call_request_handler. }
  apply safe_if.
  { unfold find_ws_handlers. apply safe_if; [|apply safe_call_request_handler].
    apply safe_start_websocket.
    destruct (wsclose_handlers srv !! req_resource req) as [h|] eqn:E; [by eapply close_handlers|done]. }
  apply safe_if; [apply safe_send_more_data|].
  eapply safe_bind; [apply safe_lift; intros; apply select_map_no_fault|intros m _].
  eapply safe_bind; [apply safe_lift; intros; apply find_submatch_no_fault|intros it _].
  destruct it as [[k h]|]; [|apply safe_call_request_handler].
  apply safe_try_catch; [apply safe_call_request_handler|by apply safe_ret].
Qed.

(** ** The reader *)

(** the invariant of the parser is about the parser and the request only *)
Lemma ready_irrelevant s ec w :
  parse_inv s -> parse_inv (mk_pstate (ps_parser s) (ps_request s) ec w).
Proof.
  intros [W Hm SI]. constructor; [exact W|exact Hm|].
  unfold state_inv in *. cbn [ps_parser].
  destruct (m_message_parse_state (ps_parser s)); try exact SI.
  destruct SI as (CI & L & F). destruct CI. split; [by constructor|]. by split.
Qed.

Lemma safe_parse r :
  ready_reader r -> m_read (rd_parser r) <> [] ->
  safe b (fun x => x.1.1 = indeterminate -> ready_reader x.2)
    (run_parser (parse (handle_request_after_headers_parsed srv (rd_tcp_conn r))) r).
Proof.
  intros R N n J. unfold run_parser.
  pose proof (parse_keeps_ready (handle_request_after_headers_parsed srv (rd_tcp_conn r))
                (mk_pstate (rd_parser r) (rd_request r) no_error (n_world n)) (R _ _) N) as P.
  destruct (parse _ _) as [x s]. destruct x as [rc|e|f]; [|by destruct J|done].
  split; [by destruct J|]. cbn. intros ->. destruct P as [Rd _]. intros ec w.
  by apply ready_irrelevant.
Qed.

Lemma safe_read_bytes r : ready_reader r -> safe b always (read_bytes_with_timeout r).
Proof.
  intros R. eapply safe_bind; [by apply safe_start_op|intros _ _]. apply safe_modify. intros n []. by constructor.
Qed.

Lemma safe_consume_bytes r :
  ready_reader r -> m_read (rd_parser r) <> [] -> safe b always (consume_bytes srv finish r).
Proof.
  intros R N. unfold consume_bytes. eapply safe_bind; [by apply safe_parse|].
  intros [[result ec] r'] P. cbn in P. destruct result.
  - eapply safe_bind; [apply safe_set_close|intros _ _]. apply safe_handle_request.
  - eapply safe_bind; [|intros _ _; apply safe_handle_request].
    apply safe_if; [|apply safe_set_close].
    destruct (eof (rd_parser r')) eqn:E; [apply safe_on_connection; intros; apply conn_ok_keepalive|].
    apply safe_pipeline. unfold eof in E. by apply bool_decide_eq_false in E.
  - apply safe_read_bytes. by apply P.
Qed.

Lemma premature_eof_of_request s : parse_inv s -> check_premature_eof s = (Val true, s).
Proof.
  intros [_ _ S]. unfold check_premature_eof, bind at 1, gets.
  assert (m_message_parse_state (ps_parser s) <> PARSE_CONTENT_NO_LENGTH) as E.
  { intros E. unfold state_inv in S. by rewrite E in S. }
  by rewrite bool_decide_eq_false_2.
Qed.

(** a request never is of the kind that the end of the connection ends *)
Lemma safe_handle_read_error r ec : ready_reader r -> safe b always (handle_read_error srv finish r ec).
Proof.
  intros R. unfold handle_read_error. eapply safe_bind; [apply safe_set_close|intros _ _].
  eapply (safe_bind _ always); [|intros [[premature ec'] r'] _; apply safe_if; apply safe_handle_request].
  intros n J. unfold run_parser. rewrite premature_eof_of_request by apply R.
  by split; [destruct J|].
Qed.

Lemma ready_set_buffer data c r :
  ready_reader r -> ready_reader (mk_reader UE (set_read_buffer data (rd_parser r)) c (rd_request r)).
Proof. intros R ec w. exact (parse_inv_with_read data _ (R ec w)). Qed.

Lemma safe_consume_bytes_read r o :
  ready_reader r -> o <> inr [] -> safe b always (consume_bytes_read srv finish r o).
Proof.
  intros R N. destruct o as [ec|data]; cbn [consume_bytes_read]; [by apply safe_handle_read_error|].
  eapply safe_bind; [apply safe_on_connection; intros conn K; exact K|intros _ _].
  apply safe_consume_bytes; [by apply ready_set_buffer|]. cbn. intros ->. by apply N.
Qed.

Lemma ready_new_reader c ip : ready_reader (new_reader garbage c ip).
Proof. intros ec w. destruct garbage_words. by apply (new_ready garbage.1 garbage.2 1 []). Qed.

Lemma bind_of_connection {A B} c (g : tcp_connection -> A) (f : A -> M net B) n :
  bind (of_connection c g) f n = f (g (connection_at n c)) n.
Proof. done. Qed.

Lemma safe_receive_pipelined c r n :
  net_ready b n -> is_pipelined (connection_at n c) = true -> ready_reader r ->
  let m := on_connection c (set_lifecycle lifecycle_close) ;;;
    position <- of_connection c load_read_pos ;;
    consume_bytes srv finish (mk_reader UE (set_read_buffer position (rd_parser r)) c (rd_request r)) in
  net_ready b (m n).2 /\ match (m n).1 with Val _ => True | Exn _ => True | Fault f => f = Deadlock end.
Proof.
  intros J P R m. subst m. set (n1 := (on_connection c (set_lifecycle lifecycle_close) n).2).
  destruct (safe_set_close b c n J) as [J1 _]. fold n1 in J1.
  assert (load_read_pos (connection_at n1 c) = read_position (connection_at n c)) as E.
  { unfold connection_at. subst n1. cbn -[alter]. rewrite lookup_alter_eq.
    by destruct (n_connections n !! c). }
  assert (read_position (connection_at n c) <> []) as N.
  { revert P. unfold connection_at. destruct (n_connections n !! c) as [conn|] eqn:C; [|done].
    exact (nr_conns _ _ J c conn C). }
  change ((on_connection c (set_lifecycle lifecycle_close)) n) with (Val tt, n1).
  unfold bind at 1 3. change (on_connection c (set_lifecycle lifecycle_close) n) with (Val tt, n1).
  unfold bind, of_connection, gets. rewrite E.
  apply safe_consume_bytes; [by apply ready_set_buffer|done|done].
Qed.

Lemma safe_handle_connection c : safe b always (handle_connection srv garbage finish c).
Proof.
  unfold handle_connection. safe. unfold receive. cbn [rd_tcp_conn new_reader].
  intros n J. rewrite bind_of_connection.
  destruct (is_pipelined _) eqn:P;
    [exact (safe_receive_pipelined c (new_reader garbage c a) n J P (ready_new_reader c a))|].
  apply (safe_bind b always always); [apply safe_set_close| |done].
  intros _ _. apply safe_read_bytes, ready_new_reader.
Qed.

Lemma safe_filter_pool b' f :
  safe b' always (modify (fun n => n <| n_conn_pool := f (n_conn_pool n) |>)).
Proof. apply safe_modify. intros n []. by constructor. Qed.

End Finish.

(** ** The server *)

Lemma safe_finish_connection b finish c :
  (forall c, safe true always (finish c)) ->
  safe b always (finish_connection srv garbage finish c).
Proof.
  intros F. unfold finish_connection. apply safe_lock.
  eapply safe_bind; [apply safe_gets|intros listening _].
  eapply safe_bind; [apply safe_gets|intros ka _].
  apply safe_if; [by apply safe_handle_connection|]. apply safe_filter_pool.
Qed.

Lemma safe_connection_finish c : safe false always (connection_finish srv garbage c).
Proof.
  apply safe_finish_connection. intros c' n J. cbn [finish_with].
  unfold finish_connection, with_lock. by rewrite (nr_mutex _ _ J).
Qed.

Lemma net_ready_subset b n n' :
  n_mutex n' = n_mutex n -> n_pending n' = n_pending n ->
  (forall c conn, n_connections n' !! c = Some conn ->
     exists conn', n_connections n !! c = Some conn' /\ (conn_ok conn' -> conn_ok conn)) ->
  net_ready b n -> net_ready b n'.
Proof.
  intros M P C []. constructor; rewrite ?M, ?P; try done.
  intros c conn H. apply C in H as (conn' & H & I). eauto.
Qed.

Lemma closed_ok conn : conn_ok conn -> conn_ok (close_connection conn).
Proof. unfold close_connection. by destruct (is_open conn). Qed.

Lemma alters_closed cs (m : gmap nat tcp_connection) c conn :
  fold_right (alter close_connection) m cs !! c = Some conn ->
  exists conn', m !! c = Some conn' /\ (conn_ok conn' -> conn_ok conn).
Proof.
  revert conn. induction cs as [|x cs IH]; intros conn H; [by exists conn|]. cbn [fold_right] in H.
  destruct (decide (x = c)) as [->|N].
  - rewrite lookup_alter_eq in H. apply fmap_Some in H as (conn1 & H & ->).
    destruct (IH _ H) as (conn' & E & I). exists conn'. split; [done|]. intros K. by apply closed_ok, I.
  - rewrite lookup_alter_ne in H by done. by apply IH.
Qed.

Lemma safe_prune b : safe b always prune_connections.
Proof.
  intros n J. split; [|done]. eapply net_ready_subset, J; [done..|].
  intros c conn H. by apply alters_closed in H.
Qed.

Lemma safe_listen b : safe b always listen.
Proof.
  unfold listen. apply safe_lock. eapply safe_bind; [apply safe_gets|intros listening _].
  apply safe_if; [|by apply safe_ret].
  eapply safe_bind; [apply safe_gets|intros c _]. eapply safe_bind; [apply safe_gets|intros ssl _].
  eapply safe_bind; [apply safe_modify|intros _ _].
  { intros n []. constructor; try done. cbn. intros c' conn H.
    destruct (decide (c = c')) as [->|N]; [rewrite lookup_insert_eq in H; by injection H as <-|].
    rewrite lookup_insert_ne in H by done. eauto. }
  eapply safe_bind; [apply safe_prune|intros _ _].
  eapply safe_bind; [exact (safe_filter_pool true (fun l => l ++ [c]))|intros _ _].
  by apply safe_start_op.
Qed.

Lemma safe_complete_op op o :
  op_ready op -> completion_ok op o -> safe false always (complete_op srv garbage op o).
Proof.
  intros R N. pose proof safe_connection_finish as F.
  destruct op as [c|c|r|w [h|]|ws k]; cbn [complete_op].
  - eapply (safe_bind _ always); [|intros _ _].
    { destruct o; [by apply safe_ret|]. apply safe_on_connection. intros conn K; exact K. }
    unfold handle_accept. eapply safe_bind; [apply safe_gets|intros listening _].
    assert (safe false always (if listening then listen else ret tt)) as L
      by (destruct listening; [apply safe_listen|by apply safe_ret]).
    apply safe_if; (eapply safe_bind; [exact L|intros _ _]); [apply F|].
    eapply safe_bind; [apply safe_gets|intros ssl _].
    apply safe_if; [by apply safe_start_op|by apply safe_handle_connection].
  - unfold handle_ssl_handshake. apply safe_if; [apply F|by apply safe_handle_connection].
  - by apply safe_consume_bytes_read.
  - eapply safe_bind; [apply safe_with_user|intros reply _]. by apply safe_run_reply.
  - apply F.
  - destruct k as [k| | |k]; (apply safe_perform_result; [exact F|]).
    + by apply write_completed_ok.
    + by apply close_completed_ok.
    + by apply read_completed_ok.
    + apply continue_ok; apply R.
Qed.

(** ** Steps *)

Lemma net_ready_new threads ssl w : net_ready false (new_net threads ssl w).
Proof. by constructor. Qed.

Lemma net_ready_collect b n : net_ready b n -> net_ready b (collect n).
Proof.
  intros []. constructor; try done. intros c conn H. unfold collect in H. cbn -[filter] in H.
  apply map_lookup_filter_Some in H as [H _]. eauto.
Qed.

Lemma safe_holding c {A} (Q : A -> Prop) m : safe false Q m -> safe false Q (holding c m).
Proof.
  intros H n R. unfold holding.
  assert (net_ready false (n <| n_refs := c :: n_refs n |>)) as R1 by (destruct R; by constructor).
  specialize (H _ R1). destruct (m _) as [r n1]. cbn in *. destruct H as [[] H].
  split; [by constructor|done].
Qed.

Lemma safe_complete op o :
  op_ready op -> completion_ok op o -> safe false always (complete srv garbage op o).
Proof.
  intros O C n R. unfold complete.
  destruct (safe_holding (op_connection op) _ _ (safe_complete_op op o O C) n R) as [R1 V].
  destruct (holding _ _ n) as [r n1]. split; [by apply net_ready_collect|exact V].
Qed.

Lemma safe_kept reply w :
  safe false always (holding (w_tcp_conn w) (run_reply (connection_finish srv garbage) reply w)).
Proof. apply safe_holding, safe_run_reply, safe_connection_finish. Qed.

Lemma safe_start bound : returned bound = true -> safe false always (start bound).
Proof.
  intros B. unfold start. eapply (safe_bind _ always).
  - apply safe_lock. eapply safe_bind; [apply safe_gets|intros listening _].
    apply safe_if; [by apply safe_ret|].
    eapply safe_bind; [apply safe_lift; by destruct bound|intros _ _].
    eapply safe_bind; [|intros _ _; by apply safe_ret]. apply safe_modify. intros n []. by constructor.
  - intros already _. apply safe_if; [by apply safe_ret|].
    eapply safe_bind; [apply safe_listen|intros _ _]. apply safe_modify. intros n []. by constructor.
Qed.

Lemma safe_stop_begin wait : safe false always (stop_begin wait).
Proof.
  unfold stop_begin. apply safe_lock. eapply safe_bind; [apply safe_gets|intros listening _].
  apply safe_if; [|by apply safe_ret].
  eapply safe_bind; [apply safe_modify; intros n []; by constructor|intros _ _].
  eapply (safe_bind _ always); [|intros _ _; by apply safe_ret].
  apply safe_if; [by apply safe_ret|]. apply safe_modify. intros n J.
  eapply net_ready_subset, J; [done..|]. intros c conn H. by apply alters_closed in H.
Qed.

Lemma safe_stop_turn : safe false always stop_turn.
Proof.
  unfold stop_turn. apply safe_lock. eapply safe_bind; [apply safe_gets|intros pool _].
  eapply (safe_bind _ always); [apply safe_if; [by apply safe_ret|apply safe_prune]|intros left _].
  apply safe_if; [|by apply safe_ret]. eapply safe_bind; [|intros _ _; by apply safe_ret].
  apply safe_modify. intros n []. by constructor.
Qed.

Lemma ready_broadcast fuel path message t ids n :
  net_ready false n -> net_ready false (broadcast_websocket fuel path message t ids n).2.
Proof.
  intros []. rewrite broadcast_spec. destruct (find_ws_conns _ _ _ _ _) as [[conns registry]|e|f]; by constructor.
Qed.

Lemma reachable_ready n : reachable srv garbage n -> net_ready false n.
Proof.
  induction 1 as [threads ssl w|n n' _ J S]; [apply net_ready_new|].
  destruct S as [before op after o r n' E O R _|before w after reply r n' E R _
    |before h after r n' E R|c|bound r n' B R _|wait r n' R _|r n' R _|fuel path message t ids r n' R _];
    try apply net_ready_collect.
  - assert (op_ready op /\ net_ready false (n <| n_pending := before ++ after |>)) as [P J1].
    { destruct J as [M P C]. rewrite E in P. apply Forall_app in P as [P1 P2].
      inversion_clear P2 as [|? ? P3 P4]. split; [done|]. constructor; try done. by apply Forall_app. }
    destruct (safe_complete op o P O _ J1) as [J2 _]. by rewrite R in J2.
  - assert (net_ready false (n <| n_kept := before ++ after |>)) as J1 by (destruct J; by constructor).
    destruct (safe_kept reply w _ J1) as [J2 _]. by rewrite R in J2.
  - destruct h; unfold complete_held, holding in R; cbn -[collect] in R; injection R as _ <-;
      apply net_ready_collect; destruct J; by constructor.
  - eapply net_ready_subset, J; [done..|]. intros c' conn H. by apply (alters_closed [c]) in H.
  - destruct (safe_start bound B _ J) as [J2 _]. by rewrite R in J2.
  - destruct (safe_stop_begin wait _ J) as [J2 _]. by rewrite R in J2.
  - destruct (safe_stop_turn _ J) as [J2 _]. by rewrite R in J2.
  - pose proof (ready_broadcast fuel path message t ids _ J) as J2. by rewrite R in J2.
Qed.

(** C1: A server is safe from end to end: whatever the clients send, in
    whatever pieces, and whatever user code answers or throws, in every state
    the server can reach the completion of any operation in flight returns or
    throws, or waits for ever for the server's own mutex; no function of the
    parser, the reader, the writer, the websockets or the server reads or writes
    out of bounds, fails an assertion, or loops.  Of user code it is assumed
    that the close handlers of WebSockets end with [close] or destroy the
    object, that a function that creates a payload handler leaves the content
    of the request alone if it detaches the request from its reader
    ([UserLaws]), and that no handler of a WebSocket keeps the object for
    later: it uses or destroys it before it returns ([ws_end]). *)
Theorem server_memory_safe (n : net) (before after : list async_op) (op : async_op) (o : completion) :
  reachable srv garbage n ->
  n_pending n = before ++ op :: after -> completion_ok op o ->
  match (complete srv garbage op o (n <| n_pending := before ++ after |>)).1 with
  | Fault f => f = Deadlock
  | _ => True
  end.
Proof.
  intros R E O. pose proof (reachable_ready n R) as [M P C]. rewrite E in P.
  apply Forall_app in P as [P1 P2]. inversion_clear P2 as [|? ? P3 P4].
  assert (net_ready false (n <| n_pending := before ++ after |>)) as J
    by (constructor; [done|by apply Forall_app|done]).
  destruct (safe_complete op o P3 O _ J) as [_ V].
  by destruct (complete _ _ _ _ _) as [[]].
Qed.

End Safety.

(** ** Example *)

From S2P Require Import RefUtils.
From S2P Require Import RefServer.
From S2P Require Import ServerTheorems.

#[export] Instance ref_user_laws : UserLaws.
Proof. intros creator req u h _ _. by repeat split. Qed.

Lemma ref_close_handlers path h : wsclose_handlers (ref_ws_server 2) !! path = Some h -> terminal h.
Proof. intros ->%ref_ws_close_handlers ws u. exact I. Qed.

(** a message arrives *)
Lemma server_memory_safe_witness :
  exists before op after, n_pending (ref_ws_opened 2) = before ++ op :: after /\
    op_connection op = 0%nat /\
    match (complete (ref_ws_server 2) (0, 0) op (inr (ref_frame true ft_text (bs "hi")))
             ((ref_ws_opened 2) <| n_pending := before ++ after |>)).1 with
    | Fault f => f = Deadlock
    | _ => True
    end.
Proof.
  destruct (n_pending (ref_ws_opened 2)) as [|op0 [|op [|]]] eqn:E; try (vm_compute in E; discriminate).
  assert (op_connection op = 0%nat /\ completion_ok op (inr (ref_frame true ft_text (bs "hi")))) as [O K]
    by (vm_compute in E; injection E as <- <-; split; [reflexivity|vm_compute; exact I || discriminate]).
  exists [op0], op, []. split; [reflexivity|]. split; [exact O|].
  assert (0 <= (0, 0).1 < 2 ^ 64 /\ 0 <= (0, 0).2 < 2 ^ 64) as G by (cbn; lia).
  exact (server_memory_safe (ref_ws_server 2) (0, 0) ref_close_handlers G (ref_ws_opened 2) [op0] [] op _
    reachable_ws_closing E K).
Defined.

(** it is sent back, and the next one is awaited *)
Example ref_ws_echo :
  last (map snd (sw_sent (n_world (complete_nth (ref_ws_server 2) 1 (inr [])
    (complete_nth (ref_ws_server 2) 1 (inr (ref_frame true ft_text (bs "hi"))) (ref_ws_opened 2))))))
  = Some (ref_frame true ft_text (bs "hi")).
Proof. vm_compute. reflexivity. Qed.
