(* ===== verification/PipelineTheorems.v ===== *)
(** * Pipelined requests

    A client may send several requests without waiting for the answers.  What
    follows the first request in the read buffer stays there, and [finish] of the
    writer of each answer parses the next request from it: the answers go out
    one at a time and in the order of the requests.  When nothing is left, the
    connection is read again or given up, as the last request asks.

    Both are stated for requests that are [answered], by one message sent at
    once: those that no handler is registered for are, and those whose handler
    sends its writer. *)

From S2P Require Import Prelude.
From S2P Require Import Externals.
From S2P Require Import Multimap.
From S2P Require Import Strings.
From S2P Require Import Message.
From S2P Require Import Request.
From S2P Require Import ParserState.
From S2P Require Import BodyParser.
From S2P Require Import Parser.
From S2P Require Import Response.
From S2P Require Import Writer.
From S2P Require Import Routing.
From S2P Require Import Websocket.
From S2P Require Import Scheduler.
From S2P Require Import Connection.
From S2P Require Import Net.
From S2P Require Import Server.
From S2P Require Import HeaderRoundTrip.
From S2P Require Import ChunkRoundTrip.
From S2P Require Import WriterTheorems.
From S2P Require Import RoutingTheorems.
From S2P Require Import ServerFrame.
From S2P Require Import ServerAnswers.

#[local] Open Scope Z_scope.

Section Pipeline.
Context `{SU : StaticlibUtils, MP : MultimapPolicy, UC : UserCode, WL : WebsocketLib}.
Context (srv : http_server) (garbage : Z * Z).

(** completing the operation that was started last, and the writes that follow
    each other *)
Definition complete_last (o : completion) (n : net) : res unit * net :=
  match last (n_pending n) with
  | Some op => complete srv garbage op o (n <| n_pending := removelast (n_pending n) |>)
  | None => (Val tt, n)
  end.

Fixpoint complete_writes (k : nat) (n : net) : res unit * net :=
  match k with
  | O => (Val tt, n)
  | S k => match complete_last (inr []) n with
           | (Val _, n') => complete_writes k n'
           | o => o
           end
  end.

(** what the server may make of a request that a client has in mind *)
Context (same : http_request -> http_request -> Prop).

(** a fresh reader parses the request [q] from the start of [data] and leaves
    [rest], sending nothing itself *)
Definition parses_as (c : nat) (ip : Z) (data : str) (q : http_request) (rest : str) : Prop :=
  forall w, exists s,
    parse (handle_request_after_headers_parsed srv c)
      (mk_pstate (set_read_buffer data (rd_parser (new_reader garbage c ip)))
         (rd_request (new_reader garbage c ip)) no_error w) = (Val ttrue, s) /\
    same q (ps_request s) /\ ps_ec s = no_error /\ m_read (ps_parser s) = rest /\
    sw_sent (ps_world s) = sw_sent w.

(** the requests in a buffer; all but the last ask to keep the connection *)
Inductive requests_in (c : nat) (ip : Z) : str -> list http_request -> Prop :=
| requests_one data q : parses_as c ip data q [] -> requests_in c ip data [q]
| requests_more data q rest qs :
  parses_as c ip data q rest -> rest <> [] ->
  (forall q', same q q' -> check_keep_alive (req_base q') = true) ->
  requests_in c ip rest qs -> requests_in c ip data (q :: qs).

(** what says who owns a connection, and whether the server runs *)
Definition parts (n : net) :
    bool * bool * (list http_response_writer * list held_op) * list nat * list nat :=
  (n_mutex n, n_listening n, (n_kept n, n_held n), n_refs n, n_conn_pool n).

(** one message is given to the connection and nothing else happens to it *)
Record replies (c : nat) (b : str) (n n' : net) : Prop := mk_replies {
  rp_sent : sw_sent (n_world n') = sw_sent (n_world n) ++ [(c, b)];
  rp_pending : exists w, n_pending n' = n_pending n ++ [op_write w None] /\ w_tcp_conn w = c;
  rp_conn : n_connections n' !! c = n_connections n !! c;
  rp_parts : parts n' = parts n;
}.

(** the connection after a request *)
Definition after_request (q : http_request) (rest : str) (conn : tcp_connection) : tcp_connection :=
  if check_keep_alive (req_base q) then
    if bool_decide (rest = []) then set_lifecycle lifecycle_keepalive conn
    else save_read_pos rest (set_lifecycle lifecycle_pipelined conn)
  else set_lifecycle lifecycle_close conn.

Section Answers.
Context (c : nat) (ip : Z) (answer_to : http_request -> str -> Prop).

(** the request is answered by one message *)
Definition answered (q : http_request) : Prop :=
  forall q' finish n, same q q' -> is_open (connection_at n c) = true ->
    exists b n', handle_request srv finish q' c no_error n = (Val tt, n') /\
      replies c b n n' /\ answer_to q b.

Lemma alter_twice (f g : tcp_connection -> tcp_connection) (m : gmap nat tcp_connection) :
  alter f c (alter g c m) = alter (fun x => f (g x)) c m.
Proof.
  apply map_eq. intros i. destruct (decide (c = i)) as [->|N].
  - rewrite !lookup_alter_eq. by destruct (m !! i).
  - by rewrite !lookup_alter_ne.
Qed.

(** parsing a request and answering it *)
Lemma consume_request finish data q rest conn n :
  parses_as c ip data q rest -> answered q ->
  n_connections n !! c = Some conn -> is_open conn = true ->
  let r := mk_reader UE (set_read_buffer data (rd_parser (new_reader garbage c ip))) c
             (rd_request (new_reader garbage c ip)) in
  exists q' b n1 n', same q q' /\
    consume_bytes srv finish r n = (Val tt, n') /\ replies c b n1 n' /\ answer_to q b /\
    n_connections n1 = alter (after_request q' rest) c (n_connections n) /\
    n_pending n1 = n_pending n /\ parts n1 = parts n /\
    sw_sent (n_world n1) = sw_sent (n_world n).
Proof.
  intros P A C O r. destruct (P (n_world n)) as (s & E & Eq & Ee & Er & Ew).
  set (q' := ps_request s) in *.
  set (n1 := (n <| n_world := ps_world s |>)
               <| n_connections := alter (after_request q' rest) c (n_connections n) |>).
  destruct (A q' finish n1 Eq) as (b & n' & H & R & T).
  { unfold connection_at. subst n1. cbn -[alter]. rewrite lookup_alter_eq, C. cbn.
    unfold after_request. by repeat case_match. }
  exists q', b, n1, n'. split; [exact Eq|]. split; [|split_and!; done].
  subst r. unfold consume_bytes, bind at 1, run_parser. cbn [rd_parser rd_request rd_tcp_conn].
  rewrite E. rewrite Ee. cbn [rd_request]. fold q'. unfold eof. cbn [rd_parser]. rewrite Er.
  unfold finished_reading. cbn [rd_request rd_tcp_conn]. rewrite <- H. subst n1.
  unfold after_request. destruct (check_keep_alive (req_base q')); [|done].
  destruct (bool_decide (rest = [])); [done|]. unfold bind, on_connection, modify. f_equal.
  cbn -[alter]. rewrite alter_twice. reflexivity.
Qed.

(** the connection [c] is in state [conn] and the operation started last is a
    write on it *)
Record writing (pend : list async_op) ps (conn : tcp_connection) (n : net) : Prop := mk_writing {
  wg_pending : exists w, n_pending n = pend ++ [op_write w None] /\ w_tcp_conn w = c;
  wg_conn : n_connections n !! c = Some conn;
  wg_parts : parts n = ps;
}.

(** one message has been sent since [sent] *)
Definition one_more (sent : list (nat * str)) (q : http_request) (n : net) : Prop :=
  exists b, answer_to q b /\ sw_sent (n_world n) = sent ++ [(c, b)].

(** the end of the call and the destructions after it spare a connection that
    is being written *)
Lemma collect_writing pend ps conn n : writing pend ps conn n -> writing pend ps conn (collect n).
Proof.
  intros [(w & P & W) C E]. split; [by exists w| |done].
  unfold collect. cbn -[filter]. apply map_lookup_filter_Some. split; [done|].
  cbn. unfold referenced, referenced_outside_pool.
  rewrite P, map_app. cbn [map op_connection]. rewrite W.
  rewrite (bool_decide_eq_true_2 (c ∈ map op_connection pend ++ [c])) by set_solver.
  by rewrite orb_true_r.
Qed.

Lemma release_writing pend m m' l k r rs p conn n :
  writing pend (m, l, k, r :: rs, p) conn n ->
  writing pend (m', l, k, rs, p) conn (n <| n_mutex := m' |> <| n_refs := tail (n_refs n) |>).
Proof.
  intros [W C E]. split; [exact W|exact C|]. injection E as Em El Ek Er Ep.
  unfold parts. cbn. by rewrite El, Ek, Er, Ep.
Qed.

Lemma consume_writing finish data q rest conn n :
  parses_as c ip data q rest -> answered q ->
  n_connections n !! c = Some conn -> is_open conn = true ->
  let r := mk_reader UE (set_read_buffer data (rd_parser (new_reader garbage c ip))) c
             (rd_request (new_reader garbage c ip)) in
  exists q' n', same q q' /\ consume_bytes srv finish r n = (Val tt, n') /\
    writing (n_pending n) (parts n) (after_request q' rest conn) n' /\
    one_more (sw_sent (n_world n)) q n'.
Proof.
  intros P A C O r.
  destruct (consume_request finish data q rest conn n P A C O)
    as (q' & b & n1 & n' & Sq & R & [Rs (w & Rp & W) Rc Ra] & T & En & Ep & Ea & Es).
  exists q', n'. split; [exact Sq|]. split; [exact R|]. split.
  - split; [exists w; split; congruence| |congruence]. rewrite Rc, En, lookup_alter_eq. by rewrite C.
  - exists b. split; congruence.
Qed.

(** the first request of a read *)
Lemma first_answer data q rest conn pend n :
  parses_as c ip data q rest -> answered q ->
  n_pending n = pend ++ [op_read (new_reader garbage c ip)] ->
  n_connections n !! c = Some conn -> is_open conn = true ->
  exists q' n', same q q' /\ complete_last (inr data) n = (Val tt, n') /\
    writing pend (parts n) (after_request q' rest (conn <| read_buffer := data |>)) n' /\
    one_more (sw_sent (n_world n)) q n'.
Proof.
  intros P A E C O. unfold complete_last. rewrite E, last_snoc, removelast_last.
  unfold complete, holding. cbn [complete_op op_connection rd_tcp_conn new_reader].
  unfold consume_bytes_read, bind, on_connection, modify. cbv beta iota zeta.
  match goal with |- context [consume_bytes srv ?f ?r ?m] =>
    destruct (consume_writing f data q rest (conn <| read_buffer := data |>) m P A)
      as (q' & n' & Sq & R & W & S) end; [by cbn -[alter]; rewrite lookup_alter_eq, C|done|].
  cbn [rd_parser rd_request rd_tcp_conn new_reader] in *. rewrite R. exists q'. eexists.
  split; [exact Sq|]. split; [reflexivity|]. split; [|exact S]. apply collect_writing.
  destruct W as [Wp Wc Wa]. split; [exact Wp|exact Wc|]. injection Wa as E1 E2 E3 E3' E4 E5.
  unfold parts. cbn. rewrite E1, E2, E3, E3', E4, E5. reflexivity.
Qed.

(** a connection with something left in its buffer is not read from *)
Lemma handle_pipelined finish data q rest conn n :
  parses_as c ip data q rest -> answered q ->
  n_connections n !! c = Some conn -> is_open conn = true ->
  remote_ip conn = ip -> current_lifecycle conn = lifecycle_pipelined -> read_position conn = data ->
  exists q' n', same q q' /\ handle_connection srv garbage finish c n = (Val tt, n') /\
    writing (n_pending n) (parts n) (after_request q' rest (set_lifecycle lifecycle_close conn)) n' /\
    one_more (sw_sent (n_world n)) q n'.
Proof.
  intros P A C O I K D. set (conn1 := set_lifecycle lifecycle_close conn).
  set (n1 := n <| n_connections := alter (set_lifecycle lifecycle_close) c (n_connections n) |>).
  assert (n_connections n1 !! c = Some conn1) as C1
    by (subst n1; cbn -[alter]; by rewrite lookup_alter_eq, C).
  destruct (consume_writing finish data q rest conn1 n1 P A C1 O) as (q' & n' & Sq & R & W & S).
  exists q', n'. split; [exact Sq|]. split; [|by split]. rewrite <- R.
  unfold handle_connection, receive, bind at 1 2, of_connection, gets.
  assert (is_pipelined conn = true) as Pi by (unfold is_pipelined; by rewrite K).
  assert (connection_at n c = conn) as Hc by (unfold connection_at; by rewrite C).
  cbn [rd_tcp_conn new_reader]. rewrite !Hc, Pi, I.
  unfold bind, on_connection, modify. cbv beta iota zeta. fold n1.
  assert (connection_at n1 c = conn1) as -> by (unfold connection_at; by rewrite C1).
  change (load_read_pos conn1) with (read_position conn). by rewrite D.
Qed.

(** the completion of a write, up to the server's decision *)
Lemma write_completes pend l k rs p conn n :
  writing pend (false, l, k, rs, p) conn n ->
  let n1 := n <| n_pending := pend |> <| n_refs := c :: rs |> <| n_mutex := true |> in
  complete_last (inr []) n =
    let '(r, n') :=
      (if l && get_keep_alive conn
       then handle_connection srv garbage
              (fun c0 => finish_connection srv garbage (fun _ => crash OutOfFuel) c0) c
       else modify (fun n => n <| n_conn_pool := filter (fun c' => c' <> c) (n_conn_pool n) |>)) n1 in
    (r, collect (n' <| n_mutex := false |> <| n_refs := tail (n_refs n') |>)).
Proof.
  intros [(w & E & W) C Ep]. injection Ep as Em El Ek Er Ep. unfold complete_last.
  rewrite E, last_snoc, removelast_last. unfold complete, holding. cbn [complete_op op_connection].
  unfold handle_write. rewrite W. unfold connection_finish. cbn [finish_with].
  unfold finish_connection at 1, with_lock. cbn [n_mutex n_refs set_field].
  change (n_mutex _) with (n_mutex n) at 1. change (n_refs (n <| n_pending := pend |>)) with (n_refs n).
  rewrite Em, Er. set (n1 := _ <| n_mutex := true |>).
  assert (connection_at n1 c = conn) as Hc by (unfold connection_at; cbn -[alter]; by rewrite C).
  unfold bind, of_connection, gets. change (n_listening n1) with (n_listening n). rewrite El, Hc.
  cbv zeta. fold n1.
  match goal with |- context [(if ?b then ?x else ?y) n1] => by destruct ((if b then x else y) n1) end.
Qed.

(** the requests after it: the completion of a write finishes the connection *)
Lemma next_answer data q rest conn pend k rs p n :
  parses_as c ip data q rest -> answered q -> writing pend (false, true, k, rs, p) conn n ->
  is_open conn = true -> remote_ip conn = ip ->
  current_lifecycle conn = lifecycle_pipelined -> read_position conn = data ->
  exists q' n', same q q' /\ complete_last (inr []) n = (Val tt, n') /\
    writing pend (false, true, k, rs, p) (after_request q' rest (set_lifecycle lifecycle_close conn)) n' /\
    one_more (sw_sent (n_world n)) q n'.
Proof.
  intros P A W O I K D. rewrite (write_completes _ _ _ _ _ _ _ W).
  destruct W as [_ C Ep]. injection Ep as Em El Ek Er Ep.
  assert (get_keep_alive conn = true) as -> by (unfold get_keep_alive; by rewrite K).
  cbv zeta. cbn [andb]. match goal with |- context [handle_connection srv garbage ?f c ?m] =>
    destruct (handle_pipelined f data q rest conn m P A C O I K D) as (q' & n' & Sq & R & Wn & S) end.
  rewrite R. exists q'. eexists. split; [exact Sq|]. split; [reflexivity|]. split; [|exact S].
  apply collect_writing, (release_writing _ true false _ _ c).
  destruct Wn as [Wp Wc Wa]. split; [exact Wp|exact Wc|]. rewrite Wa. unfold parts. cbn. congruence.
Qed.

(** the connection as a read leaves it for the rest of the requests *)
Definition has_left (rest : str) (conn : tcp_connection) : Prop :=
  is_open conn = true /\ remote_ip conn = ip /\
  current_lifecycle conn = lifecycle_pipelined /\ read_position conn = rest.

Lemma after_more q rest conn :
  check_keep_alive (req_base q) = true -> rest <> [] -> is_open conn = true -> remote_ip conn = ip ->
  has_left rest (after_request q rest conn).
Proof. intros K N O I. unfold after_request. rewrite K, bool_decide_eq_false_2 by done. done. Qed.

Definition answers (sent : list (nat * str)) (qs : list http_request) (n : net) : Prop :=
  exists bytes, Forall2 answer_to qs bytes /\ sw_sent (n_world n) = sent ++ map (pair c) bytes.

Lemma answers_cons sent q qs n n' :
  one_more sent q n -> answers (sw_sent (n_world n)) qs n' -> answers sent (q :: qs) n'.
Proof.
  intros (b & A & S) (l & F & S'). exists (b :: l). split; [by constructor|].
  cbn [map]. rewrite S', S. by rewrite <- app_assoc.
Qed.

Lemma one_more_answers sent q n : one_more sent q n -> answers sent [q] n.
Proof. intros (b & A & S). exists [b]. split; [by repeat constructor|exact S]. Qed.

Lemma rest_answers data qs : requests_in c ip data qs -> forall conn pend k rs p n,
  Forall answered qs -> writing pend (false, true, k, rs, p) conn n -> has_left data conn ->
  exists conn' n', complete_writes (length qs) n = (Val tt, n') /\
    writing pend (false, true, k, rs, p) conn' n' /\ answers (sw_sent (n_world n)) qs n'.
Proof.
  induction 1 as [data q P|data q rest qs P N K R IH]; intros conn pend k rs p n A W (O & I & Lc & D);
    apply Forall_cons in A as [Aq A].
  - destruct (next_answer data q [] conn pend k rs p n P Aq W O I Lc D) as (q' & n' & _ & E & W' & S).
    exists (after_request q' [] (set_lifecycle lifecycle_close conn)), n'. cbn. rewrite E. split; [done|].
    split; [done|]. by apply one_more_answers.
  - destruct (next_answer data q rest conn pend k rs p n P Aq W O I Lc D) as (q' & n1 & Sq & E & W1 & S).
    destruct (IH _ pend k rs p n1 A W1) as (conn' & n' & E' & W' & S'); [by apply after_more; [apply K|..]|].
    exists conn', n'. cbn. rewrite E. split; [done|]. split; [done|]. by apply (answers_cons _ _ _ n1).
Qed.

Lemma pipeline_answers (data : str) (qs : list http_request) (pend : list async_op)
    (conn : tcp_connection) (n : net) :
  requests_in c ip data qs -> Forall answered qs ->
  n_pending n = pend ++ [op_read (new_reader garbage c ip)] ->
  n_connections n !! c = Some conn -> is_open conn = true -> remote_ip conn = ip ->
  n_mutex n = false -> n_listening n = true ->
  exists n1 n',
    complete_last (inr data) n = (Val tt, n1) /\
    complete_writes (length qs - 1) n1 = (Val tt, n') /\
    answers (sw_sent (n_world n)) qs n' /\
    exists w, n_pending n' = pend ++ [op_write w None] /\ w_tcp_conn w = c.
Proof.
  intros R A E C O I M L. destruct R as [data q P|data q rest qs P N K R];
    apply Forall_cons in A as [Aq A];
    destruct (first_answer _ _ _ conn pend n P Aq E C O) as (q' & n1 & Sq & E1 & W1 & S1).
  - exists n1, n1. split_and!; [done|done|by apply one_more_answers|apply W1].
  - destruct (rest_answers _ _ R (after_request q' rest (conn <| read_buffer := data |>)) pend
      (n_kept n, n_held n) (n_refs n) (n_conn_pool n) n1 A)
      as (conn' & n' & E' & W' & S');
      [unfold parts in W1; by rewrite M, L in W1|by apply after_more; [apply K|..]|].
    exists n1, n'. cbn [length]. rewrite Nat.sub_succ, Nat.sub_0_r.
    split_and!; [done|done|by apply (answers_cons _ _ _ n1)|apply W'].
Qed.

(** C6: Pipelined requests are answered in the order in which they were sent.
    When a read brings several requests, each of which its handler answers by
    one message, the first is answered by the handler of the read and each
    other by the completion of the write of the answer before it, with no
    further read: after as many completions as there are requests, the
    connection has been given one answer for each request, in order, and waits
    for the write of the last one. *)
Theorem pipeline_in_order (data : str) (qs : list http_request) (pend : list async_op)
    (conn : tcp_connection) (n : net) :
  requests_in c ip data qs -> Forall answered qs ->
  n_pending n = pend ++ [op_read (new_reader garbage c ip)] ->
  n_connections n !! c = Some conn -> is_open conn = true -> remote_ip conn = ip ->
  n_mutex n = false -> n_listening n = true ->
  exists n1 n',
    complete_last (inr data) n = (Val tt, n1) /\
    complete_writes (length qs - 1) n1 = (Val tt, n') /\
    answers (sw_sent (n_world n)) qs n' /\
    exists w, n_pending n' = pend ++ [op_write w None] /\ w_tcp_conn w = c.
Proof. apply pipeline_answers. Qed.

(** what a connection becomes when the answer to its only request has been
    written: it is read again, or it leaves the pool *)
Record kept_open (pend : list async_op) (n n' : net) : Prop := mk_kept_open {
  ko_pending : n_pending n' = pend ++ [op_read (new_reader garbage c ip)];
  ko_open : exists conn, n_connections n' !! c = Some conn /\ is_open conn = true;
  ko_pool : n_conn_pool n' = n_conn_pool n;
  ko_held : n_held n' = n_held n ++ [held_timer c];
}.

(** the connection leaves the pool, and is destroyed when nothing is left to
    do on it: at once, or when the handler of the timer that was set for the
    read of the request has run *)
Definition no_work (pend : list async_op) (held : list held_op) (n : net) : Prop :=
  c ∉ map op_connection pend /\ c ∉ map w_tcp_conn (n_kept n) /\ c ∉ n_refs n /\
  c ∉ map held_connection held.

Record given_up (pend : list async_op) (n n' : net) : Prop := mk_given_up {
  gu_pending : n_pending n' = pend;
  gu_pool : n_conn_pool n' = filter (fun c' => c' <> c) (n_conn_pool n);
  gu_held : n_held n' = n_held n;
  gu_destroyed : no_work pend (n_held n) n -> n_connections n' !! c = None;
  gu_timer before after :
    n_held n = before ++ held_timer c :: after -> no_work pend (before ++ after) n ->
    n_connections (complete_held (held_timer c) (n' <| n_held := before ++ after |>)).2 !! c = None;
}.

Lemma collect_gone n :
  c ∉ n_conn_pool n -> no_work (n_pending n) (n_held n) n -> n_connections (collect n) !! c = None.
Proof.
  intros O (P & K & R & H). apply map_lookup_filter_None_2. right. intros x _.
  unfold referenced, referenced_outside_pool. by rewrite !bool_decide_eq_false_2.
Qed.

Lemma collect_alive n o conn : o ∈ n_pending n -> op_connection o = c ->
  n_connections n !! c = Some conn -> n_connections (collect n) !! c = Some conn.
Proof.
  intros I E C. unfold collect. cbn -[filter]. apply map_lookup_filter_Some. split; [done|].
  cbn. unfold referenced, referenced_outside_pool.
  rewrite (bool_decide_eq_true_2 (c ∈ map op_connection (n_pending n))); [by rewrite orb_true_r|].
  apply list_elem_of_In, in_map_iff. exists o. split; [done|by apply list_elem_of_In].
Qed.

Lemma write_then_read pend k rs p conn n :
  writing pend (false, true, k, rs, p) conn n ->
  is_open conn = true -> remote_ip conn = ip -> current_lifecycle conn = lifecycle_keepalive ->
  exists n', complete_last (inr []) n = (Val tt, n') /\ kept_open pend n n' /\
    sw_sent (n_world n') = sw_sent (n_world n).
Proof.
  intros W O I K. rewrite (write_completes _ _ _ _ _ _ _ W). destruct W as [_ C Ep].
  assert (get_keep_alive conn = true) as -> by (unfold get_keep_alive; by rewrite K).
  assert (is_pipelined conn = false) as Pi by (unfold is_pipelined; by rewrite K).
  cbv zeta. cbn [andb]. set (n1 := n <| n_pending := pend |> <| n_refs := c :: rs |> <| n_mutex := true |>).
  assert (connection_at n1 c = conn) as Hc by (unfold connection_at; cbn -[alter]; by rewrite C).
  unfold handle_connection, receive, read_bytes_with_timeout, bind, of_connection, gets.
  cbn [rd_tcp_conn new_reader]. rewrite !Hc, Pi, I. eexists. split; [reflexivity|]. split; [|done].
  split; [done| |done|done]. exists (set_lifecycle lifecycle_close conn). split; [|done].
  eapply (collect_alive _ (op_read (new_reader garbage c ip))); [|done|].
  - cbn. set_solver.
  - cbn -[alter]. by rewrite lookup_alter_eq, C.
Qed.

Lemma write_then_gone pend l k rs p conn n :
  writing pend (false, l, k, rs, p) conn n -> l && get_keep_alive conn = false ->
  exists n', complete_last (inr []) n = (Val tt, n') /\ given_up pend n n' /\
    sw_sent (n_world n') = sw_sent (n_world n).
Proof.
  intros W K. rewrite (write_completes _ _ _ _ _ _ _ W). destruct W as [_ C Ep].
  injection Ep as Em El Ek Er Ep. cbv zeta. rewrite K. eexists. split; [reflexivity|]. split; [|done].
  assert (c ∉ filter (fun c' => c' <> c) (n_conn_pool n)) as O by (rewrite list_elem_of_filter; tauto).
  split; [done..| |].
  - intros W. apply collect_gone; [exact O|]. unfold no_work in *. cbn. by rewrite <- Er.
  - intros before after E W. apply collect_gone; [exact O|]. unfold no_work in *. cbn. by rewrite <- Er.
Qed.

(** C7: Persistent connections.  A request that is alone in a read and that its
    handler answers by one message is answered by the completion of the read;
    when that answer has been written, a connection whose request asks to be
    kept, of a server that still listens, stays open in the pool and is read
    by a fresh reader with its timer, and any other connection leaves the pool
    and is destroyed when nothing else refers to it, the handler of the
    request's timer having run. *)
Theorem keep_alive_honoured (data : str) (q : http_request) (pend : list async_op)
    (conn : tcp_connection) (n : net) :
  parses_as c ip data q [] -> answered q ->
  n_pending n = pend ++ [op_read (new_reader garbage c ip)] ->
  n_connections n !! c = Some conn -> is_open conn = true -> remote_ip conn = ip ->
  n_mutex n = false ->
  exists q' n1 n2, same q q' /\
    complete_last (inr data) n = (Val tt, n1) /\ complete_last (inr []) n1 = (Val tt, n2) /\
    one_more (sw_sent (n_world n)) q n1 /\ sw_sent (n_world n2) = sw_sent (n_world n1) /\
    if n_listening n && check_keep_alive (req_base q') then kept_open pend n n2
    else given_up pend n n2.
Proof.
  intros P A E C O I M.
  destruct (first_answer data q [] conn pend n P A E C O) as (q' & n1 & Sq & E1 & W1 & S1).
  unfold parts in W1. rewrite M in W1. pose proof W1 as [_ _ Pa]. injection Pa as E2 E3 E4 E4' E5 E6.
  exists q', n1. assert (get_keep_alive (after_request q' [] (conn <| read_buffer := data |>))
                     = check_keep_alive (req_base q')) as G.
  { unfold after_request. by destruct (check_keep_alive (req_base q')). }
  destruct (n_listening n && check_keep_alive (req_base q')) eqn:B.
  - apply andb_true_iff in B as [L K]. rewrite L in W1.
    destruct (write_then_read pend _ _ _ _ n1 W1) as (n2 & R & [] & S);
      try (unfold after_request; by rewrite K).
    exists n2. split_and!; try done. split; [done|done|congruence..].
  - rewrite <- G in B. destruct (write_then_gone pend _ _ _ _ _ n1 W1 B) as (n2 & R & [] & S).
    exists n2. split_and!; try done. unfold no_work in *. rewrite E4, E4', E5, E6 in *. by split.
Qed.

End Answers.

(** an answer of [send] is one message *)
Lemma sends_replies c b n n' : sends c b n n' -> replies c b n n'.
Proof. intros (w & -> & W). split; try done. by exists w. Qed.

(** a request that goes to [handle_request]'s look-up *)
Record looked_up (m : http_map) (q : http_request) : Prop := mk_looked_up {
  lu_valid : m_is_valid (req_base q) = true;
  lu_upgrade : is_websocket_upgrade q = false;
  lu_options : req_method q <> REQUEST_METHOD_OPTIONS;
  lu_map : select_map (req_method q) = Val m;
}.

(** how a request is served: by the answer "404 Not Found", because nothing is
    registered for it, or by a handler that sends its writer *)
Inductive served (q : http_request) : Prop :=
| served_not_found (m : http_map) :
  looked_up m q -> not_found_handler srv = handle_not_found_fun ->
  req_method q <> REQUEST_METHOD_HEAD -> slen (req_resource q) < 2 ^ 62 ->
  (forall k, ancestor k (strip_trailing_slash (req_resource q)) -> handlers srv m !! k = None) ->
  served q
| served_handler (m : http_map) path h :
  looked_up m q ->
  find_submatch (handlers srv m) (strip_trailing_slash (req_resource q))
    = Val (Some (path, user_request_handler h)) ->
  (forall c u, wr_end (run_request_handler h q (new_writer c q) u).1 = end_send) -> served q.

(** what [send] writes on the connection for a writer *)
Definition sent_by (keep_alive : bool) (w : http_response_writer) : str :=
  concat (prepare_write_buffers [] keep_alive false w).1.

(** the answer to a request on the connection [c] *)
Inductive answer_of (c : nat) (q : http_request) (b : str) : Prop :=
| answer_not_found keep_alive :
  framed (answer_line q RESPONSE_CODE_NOT_FOUND RESPONSE_MESSAGE_NOT_FOUND)
    (NOT_FOUND_MSG_START ++ quoted (req_resource q) ++ NOT_FOUND_MSG_FINISH) keep_alive b ->
  answer_of c q b
| answer_handler m path h keep_alive u :
  find_submatch (handlers srv m) (strip_trailing_slash (req_resource q))
    = Val (Some (path, user_request_handler h)) ->
  b = sent_by keep_alive (fold_left run_writer_call
        (wr_calls (run_request_handler h q (new_writer c q) u).1) (new_writer c q)) ->
  answer_of c q b.

Lemma handle_looked_up finish q c m n : looked_up m q ->
  handle_request srv finish q c no_error n =
  bind (lift (find_submatch (handlers srv m) (strip_trailing_slash (req_resource q))))
    (fun it => match it with
     | Some (_, handler) =>
       try_catch swallowed (call_request_handler finish handler q (new_writer c q)) (ret tt)
     | None => call_request_handler finish (not_found_handler srv) q (new_writer c q)
     end) n.
Proof.
  intros [V W N Hm]. unfold handle_request. rewrite V, W.
  assert (str_eqb REQUEST_METHOD_OPTIONS (req_method q) = false) as ->
    by (unfold str_eqb; rewrite bool_decide_eq_false; congruence).
  cbn [andb orb negb ec_bool no_error]. rewrite Hm. reflexivity.
Qed.

(** a user's handler that sends its writer *)
Lemma handler_sends finish h q c n :
  wr_end (run_request_handler h q (new_writer c q) (sw_user (n_world n))).1 = end_send ->
  is_open (connection_at n c) = true ->
  let w := fold_left run_writer_call
    (wr_calls (run_request_handler h q (new_writer c q) (sw_user (n_world n))).1) (new_writer c q) in
  exists n', call_request_handler finish (user_request_handler h) q (new_writer c q) n = (Val tt, n') /\
    replies c (sent_by (get_keep_alive (connection_at n c)) w) n n'.
Proof.
  intros He O w. cbn [call_request_handler]. unfold bind at 1, with_user.
  subst w. destruct (run_request_handler h q (new_writer c q) (sw_user (n_world n))) as [reply u].
  cbn [fst] in *. unfold run_reply. rewrite He.
  set (w := fold_left _ _ _). assert (w_tcp_conn w = c) as Wc by (subst w; by rewrite run_writer_calls_conn).
  pose proof (prepare_write_buffers_conn [] (get_keep_alive (connection_at n c)) false w) as C.
  unfold send, send_more_data. rewrite Wc. unfold bind, of_connection, gets.
  match goal with |- context [is_open (connection_at ?n1 c)] =>
    change (connection_at n1 c) with (connection_at n c) end.
  rewrite O. unfold sent_by. destruct (prepare_write_buffers _ _ _ w) as [bufs w']. cbn [snd fst] in *.
  eexists. split; [reflexivity|]. split; try done. exists w'. split; [done|congruence].
Qed.

Lemma served_answered `{ML : !MultimapLaws, IL : !IequalsLaw, DL : !DecimalLaw} (c : nat) (q : http_request) :
  (forall q', same q q' -> served q') ->
  answered c (fun q b => exists q', same q q' /\ answer_of c q' b) q.
Proof.
  intros H q' finish n Sq O. destruct (H q' Sq) as [m Lu Nf N L A|m path h Lu F He].
  - destruct Lu as [V W N2 Hm].
    destruct (not_found_sends srv finish q' c no_error n m) as (b & n' & E & S & Fr); try done; [by rewrite V|].
    exists b, n'. split; [done|]. split; [by apply sends_replies|]. exists q'. split; [done|].
    by eapply answer_not_found.
  - destruct (handler_sends finish h q' c n (He c _) O) as (n' & E & R).
    eexists _, n'. split; [|split; [exact R|]].
    + rewrite (handle_looked_up finish q' c m n Lu). unfold bind, lift. rewrite F.
      unfold try_catch. by rewrite E.
    + exists q'. split; [done|]. by eapply answer_handler.
Qed.

End Pipeline.

(** ** Examples *)

From S2P Require Import RefUtils.
From S2P Require Import RefServer.

(** the request that a fresh reader parses, and what it leaves *)
Definition ref_parsed (data : str) : http_request (PE := server_payload_env) * str :=
  let s := (parse (handle_request_after_headers_parsed ref_server 0)
    (mk_pstate (set_read_buffer data (rd_parser (new_reader (0, 0) 0 0)))
       (rd_request (new_reader (0, 0) 0 0)) no_error (n_world ref_accepted))).2 in
  (ps_request s, m_read (ps_parser s)).

Definition ref_two : str := ref_get (bs "/c") ++ ref_get (bs "/d").

Lemma ref_two_requests :
  requests_in ref_server (0, 0) eq 0 0 ref_two [(ref_parsed ref_two).1; (ref_parsed (ref_get (bs "/d"))).1].
Proof.
  apply (requests_more _ _ _ _ _ _ _ (ref_get (bs "/d"))).
  - intros w. eexists. split; [vm_compute; reflexivity|]. by vm_compute.
  - discriminate.
  - intros q' <-. vm_compute. reflexivity.
  - apply requests_one. intros w. eexists. split; [vm_compute; reflexivity|]. by vm_compute.
Qed.

Definition ref_answer (q : http_request (PE := server_payload_env)) (b : str) : Prop :=
  exists q', q = q' /\ answer_of ref_server 0 q' b.

(** nothing is registered for these resources *)
Lemma ref_not_registered r :
  existsb (str_eqb r) [bs "/c"; bs "/d"] = true ->
  forall k, ancestor k r -> handlers ref_server get_map !! k = None.
Proof.
  assert (handlers ref_server get_map = {[ bs "/a" := sample_handler ]}) as -> by (vm_compute; reflexivity).
  intros E k K. apply lookup_singleton_ne. intros <-. apply existsb_exists in E as (x & I & E).
  apply bool_decide_eq_true in E as ->. destruct I as [<-|[<-|[]]]; destruct K as [K|[t K]]; discriminate K.
Qed.

Lemma ref_answered q :
  bool_decide (req_method q = bs "GET") && m_is_valid (req_base q) && negb (is_websocket_upgrade q)
    && existsb (str_eqb (strip_trailing_slash (req_resource q))) [bs "/c"; bs "/d"]
    && bool_decide (slen (req_resource q) < 2 ^ 62) = true ->
  answered ref_server eq 0 ref_answer q.
Proof.
  rewrite !andb_true_iff, !bool_decide_eq_true, negb_true_iff. intros ((((M & V) & W) & R) & L).
  apply served_answered; [apply _..|]. intros q' <-. apply (served_not_found _ _ get_map); try done.
  - split; try done; rewrite M; done || discriminate.
  - rewrite M. discriminate.
  - by apply ref_not_registered.
Qed.

Lemma pipeline_in_order_witness :
  let qs := [(ref_parsed ref_two).1; (ref_parsed (ref_get (bs "/d"))).1] in
  map (fun q => (req_resource q)) qs = [bs "/c"; bs "/d"] /\
  exists n1 n',
    complete_last ref_server (0, 0) (inr ref_two) ref_accepted = (Val tt, n1) /\
    complete_writes ref_server (0, 0) 1 n1 = (Val tt, n') /\
    answers 0 ref_answer [] qs n' /\ map fst (sw_sent (n_world n')) = [0%nat; 0%nat].
Proof.
  intros qs. split; [vm_compute; reflexivity|].
  assert (Forall (answered ref_server eq 0 ref_answer) qs) as A.
  { repeat constructor; apply ref_answered; vm_compute; reflexivity. }
  assert (n_pending ref_accepted = [op_accept 1] ++ [op_read (new_reader (0, 0) 0 0)]) as P
    by (vm_compute; reflexivity).
  assert (n_connections ref_accepted !! 0%nat = Some (connection_at ref_accepted 0)) as C
    by (vm_compute; reflexivity).
  assert (is_open (connection_at ref_accepted 0) = true) as O by (vm_compute; reflexivity).
  assert (remote_ip (connection_at ref_accepted 0) = 0) as I by (vm_compute; reflexivity).
  assert (n_mutex ref_accepted = false) as M by (vm_compute; reflexivity).
  assert (n_listening ref_accepted = true) as L by (vm_compute; reflexivity).
  assert (sw_sent (n_world ref_accepted) = []) as S by (vm_compute; reflexivity).
  destruct (pipeline_in_order ref_server (0, 0) eq 0 0 ref_answer ref_two qs [op_accept 1]
    (connection_at ref_accepted 0) ref_accepted ref_two_requests A P C O I M L) as (n1 & n' & E1 & E2 & B & _).
  rewrite S in B.
  exists n1, n'. split; [exact E1|]. split; [exact E2|]. split; [exact B|].
  destruct B as (l & F & B). rewrite B. apply Forall2_length in F. cbn [length qs] in F.
  destruct l as [|x [|y [|]]]; try discriminate F. reflexivity.
Defined.

Definition ref_close : str :=
  bs "GET /c HTTP/1.1" ++ STRING_CRLF ++ bs "Connection: close" ++ STRING_CRLF ++ STRING_CRLF.

(** the client asks to keep the connection, and then does not *)
Lemma keep_alive_honoured_witness :
  (exists n1 n2,
    complete_last ref_server (0, 0) (inr (ref_get (bs "/c"))) ref_accepted = (Val tt, n1) /\
    complete_last ref_server (0, 0) (inr []) n1 = (Val tt, n2) /\
    kept_open (0, 0) 0 0 [op_accept 1] ref_accepted n2) /\
  exists n1 n2,
    complete_last ref_server (0, 0) (inr ref_close) ref_accepted = (Val tt, n1) /\
    complete_last ref_server (0, 0) (inr []) n1 = (Val tt, n2) /\
    n_connections (complete_held (held_timer 0) (n2 <| n_held := [] |>)).2 !! 0%nat = None.
Proof.
  assert (forall data, parses_as ref_server (0, 0) eq 0 0 data (ref_parsed data).1 [] ->
    answered ref_server eq 0 ref_answer (ref_parsed data).1 ->
    exists n1 n2, complete_last ref_server (0, 0) (inr data) ref_accepted = (Val tt, n1) /\
    complete_last ref_server (0, 0) (inr []) n1 = (Val tt, n2) /\
    if check_keep_alive (req_base (ref_parsed data).1)
    then kept_open (0, 0) 0 0 [op_accept 1] ref_accepted n2
    else given_up 0 [op_accept 1] ref_accepted n2) as H.
  { intros data P A.
    destruct (keep_alive_honoured ref_server (0, 0) eq 0 0 ref_answer data _ [op_accept 1]
      (connection_at ref_accepted 0) ref_accepted P A) as (q' & n1 & n2 & <- & E1 & E2 & _ & _ & B);
      [vm_compute; reflexivity..|].
    exists n1, n2. split; [exact E1|]. split; [exact E2|].
    assert (n_listening ref_accepted = true) as L by (vm_compute; reflexivity). rewrite L in B. exact B. }
  assert (forall data, data = ref_get (bs "/c") \/ data = ref_close ->
    parses_as ref_server (0, 0) eq 0 0 data (ref_parsed data).1 [] /\
    answered ref_server eq 0 ref_answer (ref_parsed data).1) as G.
  { intros data [->| ->]; (split; [|apply ref_answered; vm_compute; reflexivity]).
    all: intros w; eexists; (split; [vm_compute; reflexivity|]); by vm_compute. }
  split.
  - destruct (G _ (or_introl eq_refl)) as [P A]. exact (H _ P A).
  - destruct (G _ (or_intror eq_refl)) as [P A]. destruct (H _ P A) as (n1 & n2 & E1 & E2 & B).
    exists n1, n2. split; [exact E1|]. split; [exact E2|].
    assert (check_keep_alive (req_base (ref_parsed ref_close).1) = false) as K by (vm_compute; reflexivity).
    rewrite K in B. apply (gu_timer _ _ _ _ B [] []); [vm_compute; reflexivity|].
    repeat split; apply (bool_decide_eq_false_1 _); vm_compute; reflexivity.
Defined.
