(* ===== verification/ClosingTheorems.v ===== *)
(** Closing a websocket from its own close handler: every completion of the
    close starts the close again, whatever its result, so that [stop] waits
    for ever. *)

From S2P Require Import Prelude.
From S2P Require Import Externals.
From S2P Require Import Multimap.
From S2P Require Import Strings.
From S2P Require Import Message.
From S2P Require Import Request.
From S2P Require Import ParserState.
From S2P Require Import Routing.
From S2P Require Import Websocket.
From S2P Require Import Scheduler.
From S2P Require Import Connection.
From S2P Require Import Net.
From S2P Require Import Server.
From S2P Require Import ServerFrame.
From S2P Require Import ServerSteps.
From S2P Require Import ServerTheorems.
From S2P Require Import PipelineTheorems.

#[local] Open Scope Z_scope.

Section Closing.
Context `{SU : StaticlibUtils, MP : MultimapPolicy, UC : UserCode, WL : WebsocketLib}.
Context (srv : http_server) (garbage : Z * Z).

(** a handler that ends with [close] *)
Definition closes_again (h : websocket_handler) : Prop := forall ws u,
  match wsr_end (run_websocket_handler h ws u).1 with ws_end_close _ => True | _ => False end.

(** the close of a websocket completes, then the close that this started, and
    so on *)
Fixpoint complete_closes (os : list completion) (n : net) : res unit * net :=
  match os with
  | [] => (Val tt, n)
  | o :: os =>
    match complete_last srv garbage o n with
    | (Val tt, n) => complete_closes os n
    | x => x
    end
  end.

(** the websocket is being closed *)
Record closing (c : nat) (h : websocket_handler) (pend : list async_op) (n : net) : Prop := {
  cl_reachable : reachable srv garbage n;
  cl_pending : exists ws, n_pending n = pend ++ [op_websocket ws wait_write_close] /\
    ws_connection ws = c /\ on_close_fun ws = user_websocket_handler h;
}.

Lemma writes_stay ds : forall ws,
  let ws' := fold_left (fun ws d => websocket_write d ws) ds ws in
  ws_connection ws' = ws_connection ws /\ on_close_fun ws' = on_close_fun ws.
Proof.
  induction ds as [|d ds IH]; intros ws; [done|]. cbn [fold_left].
  destruct (IH (websocket_write d ws)) as [-> ->]. unfold websocket_write. by case_match.
Qed.

Lemma close_again c h pend o n :
  closing c h pend n -> closes_again h ->
  exists n' st, complete_last srv garbage o n = (Val tt, n') /\ closing c h pend n' /\
    sw_sent (n_world n') = sw_sent (n_world n) ++ [(c, close_status_bytes st)].
Proof.
  intros [R (ws & P & Hc & Hf)] A.
  assert (exists n' st, complete_last srv garbage o n = (Val tt, n') /\
    (exists ws, n_pending n' = pend ++ [op_websocket ws wait_write_close] /\
       ws_connection ws = c /\ on_close_fun ws = user_websocket_handler h) /\
    sw_sent (n_world n') = sw_sent (n_world n) ++ [(c, close_status_bytes st)]) as (n' & st & E & W & S).
  { unfold complete_last. rewrite P, last_snoc, removelast_last. unfold complete, holding, complete_op.
    unfold perform_result, close_completed, lift, perform. rewrite Hf.
    unfold bind at 1. rewrite Nat.add_comm. cbn [Nat.add perform_with call_websocket_handler].
    unfold bind at 1 2, with_user. cbn [n_world set_field].
    specialize (A ws (sw_user (n_world n))).
    match goal with |- context [run_websocket_handler h ws ?u] =>
      change u with (sw_user (n_world n)) end.
    destruct (run_websocket_handler h ws (sw_user (n_world n))) as [r u]. cbn [fst] in A.
    unfold run_ws_reply. destruct (wsr_end r) as [| | |st| |]; try done.
    destruct (writes_stay (wsr_writes r) ws) as [Wc Wf].
    set (ws' := fold_left _ _ _) in *. clearbody ws'.
    eexists _, st. split; [reflexivity|]. split; [|cbn; by rewrite Wc, Hc].
    exists ws'. split; [reflexivity|]. split; congruence. }
  exists n', st. split; [done|]. split; [|done]. split; [|done].
  eapply reachable_step; [exact R|]. unfold complete_last in E.
  rewrite P, last_snoc, removelast_last in E.
  eapply (step_complete srv garbage n pend _ [] o); [exact P|exact I|by rewrite app_nil_r|done].
Qed.

(** C38: A close handler that closes.  When the handler that is called after
    the close of a websocket calls [close] again, there is no end: whatever the
    results of the writes, and however many complete, the connection gets one
    more close status for each and the websocket is in flight again, so that no
    turn of the loop of [stop] ends it. *)
Theorem closing_never_ends (c : nat) (h : websocket_handler) (ws : websocket) (os : list completion)
    (pend : list async_op) (n : net) :
  reachable srv garbage n -> n_pending n = pend ++ [op_websocket ws wait_write_close] ->
  ws_connection ws = c -> on_close_fun ws = user_websocket_handler h -> closes_again h ->
  exists n' sts, complete_closes os n = (Val tt, n') /\ closing c h pend n' /\
    sw_sent (n_world n') = sw_sent (n_world n) ++ map (fun st => (c, close_status_bytes st)) sts /\
    length sts = length os /\ (stop_turn n').1 <> Val true.
Proof.
  intros R P Hc Hf A. assert (closing c h pend n) as C by (split; [done|by exists ws]).
  clear R P Hc Hf ws. revert n C. induction os as [|o os IH]; intros n C.
  - exists n, []. split_and!; try done; [by rewrite app_nil_r|].
    destruct C as [R (ws & P & _)]. intros T.
    apply (stop_turn_waits garbage n (core_reachable _ _ _ R)) in T as [T _].
    unfold owners in T. rewrite P, map_app in T. by destruct (map op_connection pend).
  - destruct (close_again c h pend o n C A) as (n1 & st & E & C1 & S1).
    destruct (IH n1 C1) as (n' & sts & E' & C' & S' & L & T). exists n', (st :: sts).
    cbn [complete_closes]. rewrite E. split_and!; try done; [|cbn; by rewrite L].
    rewrite S', S1. by rewrite <- app_assoc.
Qed.

End Closing.

(** ** Examples *)

From S2P Require Import RefUtils.
From S2P Require Import RefServer.
From S2P Require Import RoutingTheorems.

(** the read of the websocket has failed *)
Definition ref_closing : net := complete_nth (ref_ws_server 2) 1 (inl (set_error ERROR_METHOD_CHAR)) (ref_ws_opened 2).

(** the object that is in flight *)
Definition ref_closing_ws : websocket (PE := server_payload_env) :=
  match n_pending ref_closing with
  | [_; op_websocket ws _] => ws
  | _ => new_websocket (new_request true) 0 noop_fun noop_fun noop_fun 0 0
  end.

Lemma closing_never_ends_witness :
  let ws := ref_closing_ws in
  exists n' sts,
    n_pending ref_closing = [op_accept 1] ++ [op_websocket ws wait_write_close] /\
    complete_closes (ref_ws_server 2) (0, 0) [inl (set_error ERROR_METHOD_CHAR); inr []] ref_closing = (Val tt, n') /\
    sw_sent (n_world n') = sw_sent (n_world ref_closing) ++ map (fun st => (0%nat, close_status_bytes st)) sts /\
    length sts = 2%nat /\ (stop_turn n').1 <> Val true.
Proof.
  cbv zeta. assert (reachable (ref_ws_server 2) (0, 0) ref_closing) as R.
  { unfold ref_closing. reach_completion (ref_ws_opened 2). exact reachable_ws_closing. }
  assert (n_pending ref_closing = [op_accept 1] ++ [op_websocket ref_closing_ws wait_write_close]) as P
    by (vm_compute; reflexivity).
  assert (ws_connection ref_closing_ws = 0%nat) as Wc by (vm_compute; reflexivity).
  assert (on_close_fun ref_closing_ws =
            user_websocket_handler (2%nat : websocket_handler (HandlerTypes := sample_handler_types))) as Wf
    by (vm_compute; reflexivity).
  assert (closes_again (2%nat : websocket_handler (HandlerTypes := sample_handler_types))) as A by (intros ws0 u; exact I).
  destruct (closing_never_ends (ref_ws_server 2) (0, 0) 0 _ ref_closing_ws
    [inl (set_error ERROR_METHOD_CHAR); inr []] [op_accept 1] ref_closing R P Wc Wf A)
    as (n' & sts & B1 & _ & B2 & B3 & B4).
  exists n', sts. split; [exact P|]. split; [exact B1|]. split; [exact B2|]. split; [exact B3|exact B4].
Defined.
