(* ===== verification/ConnectionPhases.v ===== *)
(** The life of a connection, as an abstract machine of six phases, and the
    proof that every step of the server is a step of the machine for each of
    its connections: a connection is accepted, perhaps shakes hands, serves
    requests, may become a websocket, which it then stays, and is released for
    good. *)

From S2P Require Import Prelude.
From S2P Require Import Externals.
From S2P Require Import Multimap.
From S2P Require Import Strings.
From S2P Require Import Message.
From S2P Require Import Request.
From S2P Require Import ParserState.
From S2P Require Import BodyParser.
From S2P Require Import Parser.
From S2P Require Import Response.
From S2P Require Import Writer.
From S2P Require Import Routing.
From S2P Require Import Websocket.
From S2P Require Import Scheduler.
From S2P Require Import Connection.
From S2P Require Import Net.
From S2P Require Import Server.
From S2P Require Import ServerFrame.
From S2P Require Import ServerSteps.

#[local] Open Scope Z_scope.
#[local] Existing Instance any_closer.

(** ** The machine *)

Inductive phase := unborn | accepting | handshaking | serving | upgraded | released.

Inductive moves : phase -> phase -> Prop :=
| stays p : moves p p
| begins : moves unborn accepting
| accepts_ssl : moves accepting handshaking
| accepts : moves accepting serving
| shakes_hands : moves handshaking serving
| upgrades : moves serving upgraded
| releases p : p <> unborn -> moves p released.

Section Phases.
Context `{SU : StaticlibUtils, MP : MultimapPolicy, UC : UserCode, WL : WebsocketLib}.
Context (srv : http_server) (garbage : Z * Z).

Definition op_phase (op : async_op) : phase :=
  match op with
  | op_accept _ => accepting
  | op_handshake _ => handshaking
  | op_read _ | op_write _ _ => serving
  | op_websocket _ _ => upgraded
  end.

(** the phase of a connection is that of its owner: the operation in flight on
    it, or a writer that user code keeps *)
Definition phase_of (n : net) (c : nat) : phase :=
  match filter (fun op => op_connection op = c) (n_pending n) with
  | op :: _ => op_phase op
  | [] =>
    if bool_decide (c ∈ map w_tcp_conn (n_kept n)) then serving
    else if (c <? n_next n)%nat then released else unborn
  end.

(** ** What the functions of the server start *)

Definition to_be_closed (c : nat) (n : net) : Prop :=
  current_lifecycle (connection_at n c) = lifecycle_close.

(** on a connection that is to be closed, [m] starts operations of the kind [K]
    only, keeps no writer and leaves it to be closed *)
Definition closes (c : nat) (K : async_op -> Prop) {A} (m : M net A) : Prop := forall n,
  to_be_closed c n -> exists ops, n_pending (m n).2 = n_pending n ++ ops /\ Forall K ops /\
    to_be_closed c (m n).2 /\ n_kept (m n).2 = n_kept n.

(** [m] starts nothing *)
Definition silent {A} (m : M net A) : Prop := forall n, n_pending (m n).2 = n_pending n.

Definition still (c : nat) {A} (m : M net A) : Prop := forall n,
  n_pending (m n).2 = n_pending n /\ connection_at (m n).2 c = connection_at n c.

Definition is_http (op : async_op) : Prop :=
  match op with op_read _ | op_write _ _ => True | _ => False end.
Definition is_ws (op : async_op) : Prop := match op with op_websocket _ _ => True | _ => False end.
Definition is_read (c : nat) (op : async_op) : Prop :=
  match op with op_read r => rd_tcp_conn r = c | _ => False end.

(** [m] starts operations on requests, or operations of a websocket on a
    connection that is to be closed *)
Definition serves (c : nat) {A} (m : M net A) : Prop := forall n,
  exists ops, n_pending (m n).2 = n_pending n ++ ops /\
    (Forall is_http ops \/ Forall is_ws ops /\ to_be_closed c (m n).2).

Lemma closes_bind c K {A B} (m : M net A) (f : A -> M net B) :
  closes c K m -> (forall a, closes c K (f a)) -> closes c K (bind m f).
Proof.
  intros H1 H2 n C. unfold bind. destruct (H1 n C) as (o1 & P1 & F1 & C1 & K1).
  destruct (m n) as [[a|e|x] n1]; cbn in *; [|by exists o1..].
  destruct (H2 a n1 C1) as (o2 & P2 & F2 & C2 & K2). exists (o1 ++ o2).
  rewrite P2, P1, app_assoc. split_and!; try done; [by apply Forall_app|congruence].
Qed.

Lemma closes_try c K catches {A} (m h : M net A) :
  closes c K m -> closes c K h -> closes c K (try_catch catches m h).
Proof.
  intros H1 H2 n C. unfold try_catch. destruct (H1 n C) as (o1 & P1 & F1 & C1 & K1).
  destruct (m n) as [[a|e|x] n1]; cbn in *; [by exists o1| |by exists o1].
  destruct (catches e); [|by exists o1].
  destruct (H2 n1 C1) as (o2 & P2 & F2 & C2 & K2). exists (o1 ++ o2).
  rewrite P2, P1, app_assoc. split_and!; try done; [by apply Forall_app|congruence].
Qed.

Lemma closes_pure c K {A} (m : M net A) :
  (forall n, n_pending (m n).2 = n_pending n /\ n_connections (m n).2 = n_connections n /\
     n_kept (m n).2 = n_kept n) -> closes c K m.
Proof.
  intros H n C. destruct (H n) as (P & E & L). exists []. rewrite P, app_nil_r. split_and!; try done.
  unfold to_be_closed, connection_at in *. by rewrite E.
Qed.

Lemma closes_start c (K : async_op -> Prop) op : K op -> closes c K (start_op op).
Proof. intros H n C. exists [op]. split_and!; try done. by constructor. Qed.

Lemma closes_if c K {A} (b : bool) (m1 m2 : M net A) :
  closes c K m1 -> closes c K m2 -> closes c K (if b then m1 else m2).
Proof. by destruct b. Qed.

Lemma closes_lock c K {A} (m : M net A) : closes c K m -> closes c K (with_lock m).
Proof.
  intros H n C. unfold with_lock. destruct (n_mutex n).
  { exists []. rewrite app_nil_r. cbn. split_and!; done || by constructor. }
  specialize (H (n <| n_mutex := true |>)). revert H. destruct (m _) as [r n1]. intros H.
  exact (H C).
Qed.

Lemma closes_with_user c K {A} (f : user_world -> A * user_world) : closes c K (with_user f).
Proof. apply closes_pure. intros n. unfold with_user. by destruct (f _). Qed.

Lemma closes_weaken c (K K' : async_op -> Prop) {A} (m : M net A) :
  (forall op, K op -> K' op) -> closes c K m -> closes c K' m.
Proof.
  intros I H n C. destruct (H n C) as (o & P & F & R). exists o. split_and!; try apply R; [done|].
  by eapply Forall_impl; [exact F|].
Qed.

Lemma silent_bind {A B} (m : M net A) (f : A -> M net B) :
  silent m -> (forall a, silent (f a)) -> silent (bind m f).
Proof.
  intros H1 H2 n. unfold bind. specialize (H1 n). destruct (m n) as [[a|e|x] n1]; cbn in *; try done.
  by rewrite H2.
Qed.

Lemma silent_pure {A} (m : M net A) : (forall n, n_pending (m n).2 = n_pending n) -> silent m.
Proof. done. Qed.

Lemma silent_with_user {A} (f : user_world -> A * user_world) : silent (with_user f).
Proof. intros n. unfold with_user. by destruct (f _). Qed.

Lemma silent_run_parser {A} (m : M pstate A) r : silent (run_parser m r).
Proof. intros n. unfold run_parser. destruct (m _) as [[] s]; done. Qed.

Lemma serves_silent c {A} (m : M net A) : silent m -> serves c m.
Proof. intros H n. exists []. rewrite H, app_nil_r. split; [done|by left]. Qed.

Lemma serves_bind c {A B} (m : M net A) (f : A -> M net B) :
  silent m -> (forall a, serves c (f a)) -> serves c (bind m f).
Proof.
  intros H K n. unfold bind. specialize (H n). destruct (m n) as [[a|e|x] n1]; cbn in *.
  - destruct (K a n1) as (ops & P & F). exists ops. by rewrite P, H.
  - exists []. rewrite H, app_nil_r. split; [done|by left].
  - exists []. rewrite H, app_nil_r. split; [done|by left].
Qed.

Lemma serves_bind_still c {A B} (m : M net A) (f : A -> M net B) :
  serves c m -> (forall a, still c (f a)) -> serves c (bind m f).
Proof.
  intros H K n. unfold bind. specialize (H n). destruct (m n) as [[a|e|x] n1]; cbn in *; try done.
  destruct H as (ops & P & F). exists ops. destruct (K a n1) as [P' E]. rewrite P', P. split; [done|].
  unfold to_be_closed in *. by rewrite E.
Qed.

Lemma serves_try c catches {A} (m h : M net A) : serves c m -> still c h -> serves c (try_catch catches m h).
Proof.
  intros H K n. unfold try_catch. specialize (H n). destruct (m n) as [[a|e|x] n1]; cbn in *; try done.
  destruct (catches e); [|done]. destruct H as (ops & P & F). exists ops.
  destruct (K n1) as [P' E]. rewrite P', P. split; [done|]. unfold to_be_closed in *. by rewrite E.
Qed.

Lemma serves_start c op : is_http op -> serves c (start_op op).
Proof. intros H n. exists [op]. split; [done|]. left. by constructor. Qed.

Lemma serves_if c {A} (b : bool) (m1 m2 : M net A) :
  serves c m1 -> serves c m2 -> serves c (if b then m1 else m2).
Proof. by destruct b. Qed.

Lemma serves_lock c {A} (m : M net A) : serves c m -> serves c (with_lock m).
Proof.
  intros H n. unfold with_lock. destruct (n_mutex n).
  { exists []. rewrite app_nil_r. split; [done|by left]. }
  specialize (H (n <| n_mutex := true |>)). revert H. destruct (m _) as [r n1]. intros H. exact H.
Qed.

Lemma closing_set c n : to_be_closed c (on_connection c (set_lifecycle lifecycle_close) n).2.
Proof.
  unfold to_be_closed, connection_at. cbn -[alter]. rewrite lookup_alter_eq.
  by destruct (n_connections n !! c).
Qed.

Lemma serves_closed c {A} (m : M net A) :
  closes c is_ws m -> serves c (on_connection c (set_lifecycle lifecycle_close) ;;; m).
Proof.
  intros H n. destruct (H _ (closing_set c n)) as (ops & P & F & C & _).
  exists ops. split; [exact P|]. right. by split.
Qed.

Ltac silent_leaf :=
  first [ done | apply silent_with_user | apply silent_run_parser ].

(** the computations that start nothing, and the operations on requests *)
Ltac serves_step :=
  first
    [ apply serves_silent; silent_leaf
    | apply serves_start; done
    | apply serves_if
    | apply serves_bind; [silent_leaf|intros ?] ].

Ltac closes_leaf :=
  first [ apply closes_pure; done | apply closes_with_user | apply closes_if; [closes_leaf|closes_leaf] ].

(** ** On a connection that is being served *)

Section WithFinish.
Context (finish : nat -> M net unit).
Context (owns_finish : forall c, owns c 1 any (finish c)).
Context (closes_finish : forall c K, closes c K (finish c)).
Context (serves_finish : forall c, serves c (finish c)).

Lemma serves_send_more_data c final k w : w_tcp_conn w = c -> serves c (send_more_data finish final k w).
Proof.
  intros <-. unfold send_more_data. serves_step. serves_step; [|apply serves_finish].
  serves_step. destruct (prepare_write_buffers _ _ _ _). repeat serves_step.
Qed.

Lemma serves_run_reply r w : serves (w_tcp_conn w) (run_reply finish r w).
Proof.
  unfold run_reply. rewrite <- (run_writer_calls_conn (wr_calls r) w).
  set (w' := fold_left _ _ w). clearbody w'. destruct (wr_end r).
  - by apply serves_send_more_data.
  - unfold send_chunk. apply serves_bind; [by destruct (negb _)|intros _]. serves_step.
    serves_step; [by apply serves_send_more_data|apply serves_finish].
  - by apply serves_send_more_data.
  - serves_step.
  - serves_step.
  - serves_step.
Qed.

Lemma serves_call_request_handler h req w :
  serves (w_tcp_conn w) (call_request_handler finish h req w).
Proof.
  destruct h; cbn [call_request_handler].
  - apply serves_send_more_data. by rewrite write_nocopy_conn.
  - apply serves_send_more_data. by rewrite write_nocopy_conn, write_conn, write_nocopy_conn.
  - serves_step. apply serves_run_reply.
Qed.

Lemma serves_new_writer h req req' c : serves c (call_request_handler finish h req (new_writer c req')).
Proof. exact (serves_call_request_handler h req (new_writer c req')). Qed.

(** ** On the connection of a websocket *)

Lemma closes_destroy ws K : closes (ws_connection ws) K (destroy_websocket finish ws).
Proof. apply closes_try; [apply closes_finish|closes_leaf]. Qed.

Lemma closes_call_websocket_handler f ws K :
  closes (ws_connection ws) K (call_websocket_handler finish f ws).
Proof.
  destruct f as [| |h]; cbn [call_websocket_handler].
  - apply closes_bind; [closes_leaf|intros x; closes_leaf].
  - apply closes_bind; [apply closes_destroy|intros _; closes_leaf].
  - apply closes_bind; [closes_leaf|intros r]. unfold run_ws_reply.
    assert (ws_connection (fold_left (fun ws d => websocket_write d ws) (wsr_writes r) ws) = ws_connection ws) as <-
      by (pose proof (websocket_writes_self (wsr_writes r) ws) as E; by injection E).
    set (ws' := fold_left _ _ ws). clearbody ws'.
    destruct (wsr_end r); (apply closes_bind; [|intros ?; closes_leaf]); try closes_leaf; apply closes_destroy.
Qed.

Lemma closes_perform_with fuel ws a : closes (ws_connection ws) is_ws (perform_with finish fuel ws a).
Proof.
  revert ws a. induction fuel as [|fuel IH]; intros ws a; destruct a; cbn [perform_with];
    try (apply closes_bind; [closes_leaf|intros _]); try (by apply closes_start); [closes_leaf|].
  intros n C. pose proof (call_websocket_handler_keeps finish owns_finish f ws n) as E.
  destruct (closes_call_websocket_handler f ws is_ws n C) as (o1 & P1 & F1 & C1 & K1). unfold bind.
  destruct (call_websocket_handler finish f ws n) as [[[[ws' a']|]|e|x] n1]; cbn in *; try (by exists o1).
  destruct E as [E _]. injection E as E _. rewrite <- E in C1 |- *.
  destruct (IH ws' a' n1 C1) as (o2 & P2 & F2 & C2 & K2). exists (o1 ++ o2).
  rewrite P2, P1, app_assoc. split_and!; try done; [by apply Forall_app|congruence].
Qed.

Lemma closes_perform_result o r : ws_stays o r -> closes o.1 is_ws (perform_result finish r).
Proof.
  intros H n C. unfold perform_result, bind, lift. destruct r as [[ws a]|e|f].
  - rewrite <- H in C |- *. exact (closes_perform_with _ ws a n C).
  - by apply (closes_pure o.1 is_ws (throw e)).
  - by apply (closes_pure o.1 is_ws (crash f)).
Qed.

(** ** Requests *)

Lemma serves_start_websocket req c f1 f2 f3 : serves c (start_websocket finish req c f1 f2 f3).
Proof.
  unfold start_websocket. apply serves_closed. apply closes_bind; [|intros _; closes_leaf].
  apply (closes_perform_result (c, f3)). unfold websocket_start, send_internal, ws_stays.
  by rewrite prepare_handshake_self.
Qed.

Lemma serves_handle_request req c ec : serves c (handle_request srv finish req c ec).
Proof.
  unfold handle_request. apply serves_if.
  { unfold handle_invalid_request. serves_step. serves_step.
    apply serves_if; [apply serves_new_writer|apply serves_finish]. }
  apply serves_if.
  { unfold find_ws_handlers. apply serves_if; [apply serves_start_websocket|apply serves_new_writer]. }
  apply serves_if; [by apply serves_send_more_data|].
  serves_step. serves_step. destruct a0 as [[k h]|]; [|apply serves_new_writer].
  by apply serves_try; [apply serves_new_writer|].
Qed.

Lemma serves_read_bytes c r : serves c (read_bytes_with_timeout r).
Proof. apply serves_bind_still; [by apply serves_start|done]. Qed.

Lemma serves_run_parser {A B} c (m : M pstate A) r (f : A * error_code * http_request_reader -> M net B) :
  (forall x ec r', rd_tcp_conn r' = rd_tcp_conn r -> serves c (f (x, ec, r'))) ->
  serves c (bind (run_parser m r) f).
Proof.
  intros H n. unfold bind, run_parser. destruct (m _) as [[x|e|x] s].
  - exact (H x _ (mk_reader UE _ (rd_tcp_conn r) _) eq_refl (n <| n_world := ps_world s |>)).
  - exists []. rewrite app_nil_r. split; [done|by left].
  - exists []. rewrite app_nil_r. split; [done|by left].
Qed.

Lemma serves_consume_bytes r : serves (rd_tcp_conn r) (consume_bytes srv finish r).
Proof.
  unfold consume_bytes. apply serves_run_parser. intros result ec r' E. rewrite <- E. destruct result.
  - serves_step. apply serves_handle_request.
  - apply serves_bind; [|intros _; apply serves_handle_request].
    destruct (check_keep_alive _); [destruct (eof _)|]; done.
  - apply serves_read_bytes.
Qed.

Lemma serves_consume_bytes_read r o : serves (rd_tcp_conn r) (consume_bytes_read srv finish r o).
Proof.
  destruct o as [ec|data]; cbn [consume_bytes_read].
  - unfold handle_read_error. serves_step. apply serves_run_parser. intros x ec' r' E. rewrite <- E.
    apply serves_if; apply serves_handle_request.
  - serves_step.
    exact (serves_consume_bytes (mk_reader UE (set_read_buffer data (rd_parser r)) (rd_tcp_conn r) (rd_request r))).
Qed.

Lemma serves_handle_connection c : serves c (handle_connection srv garbage finish c).
Proof.
  unfold handle_connection. serves_step. unfold receive. cbn [rd_tcp_conn new_reader].
  serves_step. apply serves_if.
  - serves_step. serves_step.
    match goal with |- serves c (consume_bytes _ _ ?r) => exact (serves_consume_bytes r) end.
  - serves_step. apply serves_read_bytes.
Qed.

(** a connection that is not kept is read from, and one that is finished is
    left alone *)
Lemma closes_handle_connection c : closes c (is_read c) (handle_connection srv garbage finish c).
Proof.
  intros n C. unfold handle_connection, receive, read_bytes_with_timeout, bind, of_connection, gets.
  cbn [rd_tcp_conn new_reader].
  assert (is_pipelined (connection_at n c) = false) as -> by (unfold is_pipelined; by rewrite C).
  set (r := new_reader _ _ _). exists [op_read r].
  split_and!; [done|by constructor|apply (closing_set c n)|done].
Qed.

Lemma serves_finish_connection c : serves c (finish_connection srv garbage finish c).
Proof.
  unfold finish_connection. apply serves_lock. serves_step. serves_step.
  apply serves_if; [apply serves_handle_connection|serves_step].
Qed.

Lemma closes_finish_connection c K : closes c K (finish_connection srv garbage finish c).
Proof.
  unfold finish_connection. apply closes_lock. apply closes_bind; [closes_leaf|intros listening].
  intros n C. unfold bind, of_connection, gets.
  assert (get_keep_alive (connection_at n c) = false) as -> by (unfold get_keep_alive; by rewrite C).
  rewrite andb_false_r. by apply (closes_pure c K).
Qed.

End WithFinish.

Lemma finish_with_phases fuel : forall c,
  serves c (finish_with srv garbage fuel c) /\ forall K, closes c K (finish_with srv garbage fuel c).
Proof.
  induction fuel as [|fuel IH]; intros c; cbn [finish_with].
  - split; [by apply serves_silent|intros K; closes_leaf].
  - split; [|intros K; apply closes_finish_connection].
    apply serves_finish_connection; intros c'; try apply IH. apply owns_finish_with. exact _.
Qed.

Lemma serves_finish c : serves c (connection_finish srv garbage c).
Proof. apply finish_with_phases. Qed.

Lemma closes_finish c K : closes c K (connection_finish srv garbage c).
Proof. apply finish_with_phases. Qed.

(** ** Completions *)

(** what the completion of an operation may start on its connection *)
Lemma websocket_completes ws k o :
  closes (ws_connection ws) is_ws (complete_op srv garbage (op_websocket ws k) o).
Proof.
  assert (forall c, owns c 1 any (connection_finish srv garbage c)) as O
    by (intros c; apply owns_finish_with; exact _).
  assert (forall c K, closes c K (connection_finish srv garbage c)) as Cl by (intros; apply closes_finish).
  destruct k as [k| | |k]; cbn [complete_op]; apply (closes_perform_result _ O Cl (ws_self ws)).
  - apply write_completed_stays.
  - done.
  - apply read_completed_stays.
  - apply continue_stays.
Qed.

Lemma handshake_completes c o : closes c (is_read c) (complete_op srv garbage (op_handshake c) o).
Proof.
  cbn [complete_op]. unfold handle_ssl_handshake.
  apply closes_if; [apply closes_finish|apply closes_handle_connection].
Qed.

Lemma request_completes op o :
  op_phase op = serving -> serves (op_connection op) (complete_op srv garbage op o).
Proof.
  assert (forall c, owns c 1 any (connection_finish srv garbage c)) as O
    by (intros c; apply owns_finish_with; exact _).
  assert (forall c K, closes c K (connection_finish srv garbage c)) as Cl by (intros; apply closes_finish).
  assert (forall c, serves c (connection_finish srv garbage c)) as S by (intros; apply serves_finish).
  destruct op as [c|c|r|w [h|]|ws k]; try done; intros _; cbn [complete_op op_connection].
  - by apply serves_consume_bytes_read.
  - serves_step. by apply serves_run_reply.
Qed.

(** a new connection may be waited for *)
Definition waits (n n' : net) : Prop :=
  (forall c, to_be_closed c n -> to_be_closed c n') /\ n_kept n' = n_kept n /\
  (n_pending n' = n_pending n /\ n_next n' = n_next n \/
   n_pending n' = n_pending n ++ [op_accept (n_next n)] /\ n_next n' = S (n_next n)).

Lemma waits_refl n : waits n n.
Proof. split_and!; try done. by left. Qed.

Lemma closing_closed c cs n :
  to_be_closed c n -> to_be_closed c (n <| n_connections := fold_right (alter close_connection) (n_connections n) cs |>).
Proof.
  unfold to_be_closed, connection_at. cbn [n_connections set_field]. intros C.
  induction cs as [|x cs IH]; [exact C|]. cbn -[alter] in IH |- *.
  destruct (decide (x = c)) as [->|N]; [|by rewrite lookup_alter_ne].
  rewrite lookup_alter_eq. destruct (fold_right _ _ _ !! c) as [y|]; [|done]. cbn in *.
  unfold close_connection. by destruct (is_open y).
Qed.

Lemma listen_waits n : waits n (listen n).2.
Proof.
  destruct (n_mutex n) eqn:M.
  { unfold listen, with_lock. rewrite M. apply waits_refl. }
  destruct (n_listening n) eqn:L.
  - rewrite (listen_unfold n M L). cbn [snd]. set (n0 := n <| n_mutex := true |> <| n_next := _ |> <| n_connections := _ |>).
    split_and!; [|done|by right]. intros c C. apply (closing_closed c _ n0).
    unfold to_be_closed, connection_at in *. subst n0. cbn [n_connections set_field].
    destruct (decide (n_next n = c)) as [->|N]; [by rewrite lookup_insert_eq|by rewrite lookup_insert_ne].
  - unfold listen, with_lock, gets, bind. rewrite M. cbn. rewrite L. split_and!; try done. by left.
Qed.

Definition is_accepted (c : nat) (op : async_op) : Prop :=
  match op with op_handshake c' => c' = c | op_read r => rd_tcp_conn r = c | _ => False end.

Lemma accepted_starts c :
  let m := ssl <- of_connection c ssl_flag ;;
           if (ssl : bool) then start_op (op_handshake c)
           else handle_connection srv garbage (connection_finish srv garbage) c in
  closes c (is_accepted c) m /\ owns c 1 any m.
Proof.
  split.
  - apply closes_bind; [closes_leaf|intros ssl]. apply closes_if; [by apply closes_start|].
    eapply closes_weaken, closes_handle_connection. by intros [].
  - eapply owns_bind0; [owns_leaf|intros ssl _]. apply owns_if; [by apply owns_start_op|].
    apply owns_handle_connection; [exact _|by apply owns_connection_finish].
Qed.

(** the completion of an accept: the flag of the socket, the next accept, and
    what is done with the connection *)
Lemma accept_steps c o n :
  exists n0 m, (forall c', to_be_closed c' n -> to_be_closed c' n0) /\ n_kept n0 = n_kept n /\ n_pending n0 = n_pending n /\
    n_next n0 = n_next n /\ closes c (is_accepted c) m /\ owns c 1 any m /\
    complete_op srv garbage (op_accept c) o n =
      ((if n_listening n0 then listen else ret tt) ;;; m) n0.
Proof.
  destruct o as [ec|data].
  - exists n. destruct (ec_bool ec) eqn:E; eexists; do 4 (split; [done|]).
    + split; [apply closes_finish|]. split; [by apply (owns_connection_finish srv garbage)|].
      cbn [complete_op completion_error]. unfold handle_accept. rewrite E. reflexivity.
    + split; [apply accepted_starts|]. split; [apply accepted_starts|].
      cbn [complete_op completion_error]. unfold handle_accept. rewrite E. reflexivity.
  - exists (on_connection c (fun conn => conn <| socket_open := true |>) n).2. eexists. split.
    { intros c' C. unfold to_be_closed, connection_at in *. cbn -[alter].
      destruct (decide (c = c')) as [->|N]; [|by rewrite lookup_alter_ne].
      rewrite lookup_alter_eq. by destruct (n_connections n !! c'). }
    do 3 (split; [done|]). split; [apply accepted_starts|]. split; [apply accepted_starts|]. reflexivity.
Qed.

Lemma accept_completes c o n :
  to_be_closed c n -> exists n1 ops,
    waits n n1 /\ n_pending (complete_op srv garbage (op_accept c) o n).2 = n_pending n1 ++ ops /\
    Forall (is_accepted c) ops /\ n_kept (complete_op srv garbage (op_accept c) o n).2 = n_kept n /\
    n_next (complete_op srv garbage (op_accept c) o n).2 = n_next n1 /\
    forall c', to_be_closed c' n -> to_be_closed c' (complete_op srv garbage (op_accept c) o n).2.
Proof.
  intros C. destruct (accept_steps c o n) as (n0 & m & C0 & K0 & P0 & X0 & Cm & Om & ->).
  assert (waits n0 ((if n_listening n0 then listen else ret tt) n0).2) as W
    by (destruct (n_listening n0); [apply listen_waits|apply waits_refl]).
  unfold bind. revert W. destruct ((if n_listening n0 then listen else ret tt) n0) as [r n1]. cbn [snd]. intros W.
  assert (waits n n1) as W'.
  { destruct W as (W1 & W2 & W3). rewrite K0 in W2. rewrite P0, X0 in W3. split_and!; auto. }
  exists n1. pose proof W' as (C1 & K1 & _). destruct r as [[]|e|f].
  - destruct (Cm n1 (C1 c C)) as (ops & P & F & C2 & K2). exists ops. destruct (Om n1) as [T _].
    split_and!; try done; [congruence|apply T|]. intros c' C'.
    destruct (decide (c' = c)) as [->|N]; [done|]. apply C1 in C'.
    unfold to_be_closed, connection_at in *. by rewrite (t_conns _ _ _ _ T c' N).
  - exists []. rewrite app_nil_r. by split_and!.
  - exists []. rewrite app_nil_r. by split_and!.
Qed.

(** ** The steps of the server *)

(** a connection that is not being served is to be closed *)
Definition settled (n : net) : Prop := forall op,
  op ∈ n_pending n -> op_phase op <> serving -> to_be_closed (op_connection op) n.

(** who owns a connection decides its phase *)
Lemma phase_of_ext n n' c :
  filter (fun op => op_connection op = c) (n_pending n') = filter (fun op => op_connection op = c) (n_pending n) ->
  (c ∈ map w_tcp_conn (n_kept n') <-> c ∈ map w_tcp_conn (n_kept n)) ->
  (c <? n_next n')%nat = (c <? n_next n)%nat -> phase_of n' c = phase_of n c.
Proof.
  intros P K X. unfold phase_of. rewrite P, X.
  destruct (filter _ (n_pending n)); [|done]. by rewrite (bool_decide_ext _ _ K).
Qed.

Lemma filter_absent c ops :
  c ∉ map op_connection ops -> filter (fun op => op_connection op = c) ops = [].
Proof.
  induction ops as [|op ops IH]; intros N; [done|]. cbn in N. apply not_elem_of_cons in N as [N1 N2].
  rewrite filter_cons_False by congruence. by apply IH.
Qed.

Lemma filter_of c ops : Forall (fun op => op_connection op = c) ops ->
  filter (fun op => op_connection op = c) ops = ops.
Proof. induction 1 as [|op ops E _ IH]; [done|]. rewrite filter_cons_True by done. by rewrite IH. Qed.

(** the phase of an owner *)
Lemma phase_of_op n before op after :
  core false [] n -> n_pending n = before ++ op :: after -> phase_of n (op_connection op) = op_phase op.
Proof.
  intros C E. pose proof (core_owners _ _ _ C) as N. unfold owners in N. rewrite E, map_app in N.
  apply NoDup_app in N as (N & _ & _). apply NoDup_app in N as (_ & N & _).
  unfold phase_of. rewrite E, filter_app, filter_absent by (intros H; apply (N _ H); left).
  cbn [app]. by rewrite filter_cons_True.
Qed.

Lemma phase_of_kept n before w after :
  core false [] n -> n_kept n = before ++ w :: after -> phase_of n (w_tcp_conn w) = serving.
Proof.
  intros C E. pose proof (core_owners _ _ _ C) as N. unfold owners in N.
  apply NoDup_app in N as (_ & N & _).
  assert (w_tcp_conn w ∈ map w_tcp_conn (n_kept n)) as I by (rewrite E, map_app; set_solver).
  unfold phase_of. rewrite filter_absent; [|intros H; exact (N _ H I)].
  by rewrite bool_decide_eq_true_2.
Qed.

(** the phase of a connection that had no owner and got these *)
Lemma phase_of_new c n n' ops ws :
  c ∉ owners n -> n_pending n' = n_pending n ++ ops -> n_kept n' = n_kept n ++ ws ->
  Forall (fun op => op_connection op = c) ops -> Forall (fun w => w_tcp_conn w = c) ws ->
  (c < n_next n')%nat ->
  phase_of n' c = match ops, ws with op :: _, _ => op_phase op | [], _ :: _ => serving | [], [] => released end.
Proof.
  intros N P K Fo Fw L. unfold owners in N. apply not_elem_of_app in N as [N1 N2].
  unfold phase_of. rewrite P, filter_app, filter_absent, (filter_of c ops) by done. cbn [app].
  destruct ops as [|op ops]; [|done]. rewrite K, map_app. destruct ws as [|w ws].
  - rewrite app_nil_r, bool_decide_eq_false_2 by done. by apply Nat.ltb_lt in L as ->.
  - apply Forall_cons_iff in Fw as [Ew _]. rewrite bool_decide_eq_true_2; [done|].
    apply elem_of_app. right. cbn. rewrite Ew. left.
Qed.

(** the others do not notice *)
Lemma phase_of_other c c' n n' ops ws :
  c' <> c -> n_pending n' = n_pending n ++ ops -> n_kept n' = n_kept n ++ ws ->
  Forall (fun op => op_connection op = c) ops -> Forall (fun w => w_tcp_conn w = c) ws ->
  n_next n' = n_next n -> phase_of n' c' = phase_of n c'.
Proof.
  intros N P K Fo Fw X. apply phase_of_ext; [| |by rewrite X].
  - rewrite P, filter_app, (filter_absent c' ops), app_nil_r; [done|].
    intros (op & -> & I)%list_elem_of_fmap. rewrite list.Forall_forall in Fo. by apply N, Fo.
  - rewrite K, map_app, elem_of_app. split; [|by left]. intros [H|H]; [done|].
    apply list_elem_of_fmap in H as (w & -> & I). rewrite list.Forall_forall in Fw. by destruct N; apply Fw.
Qed.

Lemma closing_same c n n' : n_connections n' !! c = n_connections n !! c -> to_be_closed c n -> to_be_closed c n'.
Proof. unfold to_be_closed, connection_at. by intros ->. Qed.

(** what [m] did on [c], which had no owner any more, is a step of the machine
    when what it started is *)
Lemma work_moves c n n0 n1 ops :
  core false [] n -> settled n -> c ∈ owners n -> c ∉ owners n0 ->
  (forall op, op ∈ n_pending n0 -> op ∈ n_pending n) -> n_next n0 = n_next n ->
  n_connections n0 = n_connections n -> (forall c', c' <> c -> phase_of n0 c' = phase_of n c') ->
  touches c 1 n0 n1 -> n_pending n1 = n_pending n0 ++ ops ->
  Forall (fun op => moves (phase_of n c) (op_phase op) /\ (op_phase op <> serving -> to_be_closed c n1)) ops ->
  n_kept n1 = n_kept n0 \/ phase_of n c = serving -> phase_of n c <> unborn ->
  settled n1 /\ forall c', moves (phase_of n c') (phase_of n1 c').
Proof.
  intros C S O N Sub X E Oth T P F K U.
  destruct (t_owners _ _ _ _ T) as (ops' & ws & P' & K' & Fo & Fw & _).
  rewrite P in P'. apply app_inv_head in P' as <-.
  assert (Forall (fun op => op_connection op = c) ops) as Fc by (eapply op_of_connection, Fo).
  assert (c < n_next n1)%nat as L.
  { rewrite (t_next _ _ _ _ T), X. apply (core_fresh _ _ _ C), (core_alive _ _ _ C).
    by apply (core_pooled _ _ _ C). }
  rewrite list.Forall_forall in F. split.
  - intros op I Ph. rewrite P in I. apply elem_of_app in I as [I|I].
    + assert (op_connection op <> c) as Nc.
      { intros <-. apply N. apply elem_of_app. left. by apply list_elem_of_fmap_2. }
      apply (closing_same _ n); [|apply S; auto]. rewrite (t_conns _ _ _ _ T _ Nc). by rewrite E.
    + rewrite list.Forall_forall in Fc. rewrite (Fc op I). by apply (F op I).
  - intros c'. destruct (decide (c' = c)) as [->|Nc].
    + rewrite (phase_of_new c n0 n1 ops ws) by done. destruct ops as [|op ops]; [|apply (F op); left].
      destruct ws as [|w ws]; [by apply releases|]. destruct K as [K| ->]; [|constructor].
      rewrite K in K'. apply (f_equal length) in K'. rewrite length_app in K'. cbn in K'. lia.
    + rewrite (phase_of_other c c' n0 n1 ops ws), Oth by (try done; apply T). constructor.
Qed.

Lemma settled_collect n : settled n -> settled (collect n).
Proof.
  intros S op I Ph. specialize (S op I Ph). unfold to_be_closed, connection_at, collect in *.
  cbn [n_connections set_field] in *. rewrite map_lookup_filter.
  destruct (n_connections n !! op_connection op); cbn in *; [|done]. by case_guard.
Qed.

Lemma phase_of_collect n c : phase_of (collect n) c = phase_of n c.
Proof. done. Qed.

(** the phases and what is settled do not depend on who is referenced *)
Definition idle_step (n n' : net) : Prop :=
  n_pending n' = n_pending n /\ n_kept n' = n_kept n /\ n_next n' = n_next n /\
  forall c, to_be_closed c n -> to_be_closed c n'.

Lemma idle_refl n : idle_step n n.
Proof. by split_and!. Qed.

Lemma idle_trans n n1 n2 : idle_step n n1 -> idle_step n1 n2 -> idle_step n n2.
Proof. intros (P & K & X & Cl) (P' & K' & X' & Cl'). split_and!; try congruence. auto. Qed.

Lemma idle_closed n cs :
  idle_step n (n <| n_connections := fold_right (alter close_connection) (n_connections n) cs |>).
Proof. split_and!; try done. intros c. apply closing_closed. Qed.

(** [m] is such a step *)
Definition idles {A} (m : M net A) : Prop := forall n, idle_step n (m n).2.

Lemma idles_pure {A} (m : M net A) :
  (forall n, n_pending (m n).2 = n_pending n /\ n_kept (m n).2 = n_kept n /\
     n_next (m n).2 = n_next n /\ n_connections (m n).2 = n_connections n) -> idles m.
Proof.
  intros H n. destruct (H n) as (P & K & X & E). split_and!; try done. intros c. by apply closing_same; rewrite E.
Qed.

Lemma idles_bind {A B} (m : M net A) (f : A -> M net B) :
  idles m -> (forall a, idles (f a)) -> idles (bind m f).
Proof.
  intros H K n. unfold bind. specialize (H n). destruct (m n) as [[a|e|x] n1]; cbn in *; try done.
  eapply idle_trans; [exact H|apply K].
Qed.

Lemma idles_lock {A} (m : M net A) : idles m -> idles (with_lock m).
Proof.
  intros H n. unfold with_lock. destruct (n_mutex n); [apply idle_refl|].
  specialize (H (n <| n_mutex := true |>)). revert H. destruct (m _) as [r n1]. intros H. exact H.
Qed.

Lemma idles_if {A} (b : bool) (m1 m2 : M net A) : idles m1 -> idles m2 -> idles (if b then m1 else m2).
Proof. by destruct b. Qed.

Ltac idles_step :=
  first [ apply idles_lock | apply idles_if | apply idles_bind; [|intros ?] | apply idles_pure; done ].

Lemma idles_stop_begin wait : idles (stop_begin wait).
Proof.
  unfold stop_begin. repeat idles_step. intros n. apply idle_closed.
Qed.

Lemma idles_prune : idles prune_connections.
Proof. intros n. apply (idle_closed n). Qed.

Lemma idles_stop_turn : idles stop_turn.
Proof. unfold stop_turn. repeat first [apply idles_prune|idles_step]. Qed.

Lemma idles_broadcast fuel path message t ids : idles (broadcast_websocket fuel path message t ids).
Proof.
  apply idles_pure. intros n. rewrite broadcast_spec. by destruct (find_ws_conns _ _ _ _ _) as [[] | |].
Qed.

Lemma idles_complete_held h n : idle_step n (holding (held_connection h) (complete_held_op h) n).2.
Proof. by destruct h. Qed.

(** an idle step waits for no connection; [start] is one until it listens *)
Lemma idle_waits n n1 n2 : idle_step n n1 -> waits n1 n2 -> waits n n2.
Proof.
  intros (P & K & X & Cl) (Cl' & K' & W). rewrite P, X in W. split_and!; try done; [auto|congruence].
Qed.

Lemma start_waits bound n : waits n (start bound n).2.
Proof.
  unfold start. set (m := with_lock _). assert (idles m) as I.
  { unfold m. repeat idles_step. }
  clearbody m. specialize (I n). unfold bind at 1. destruct (m n) as [[[]|e|f] n1]; cbn [snd] in *;
    try (eapply idle_waits, waits_refl; exact I).
  pose proof (listen_waits n1) as W. unfold bind. destruct (listen n1) as [[[]|e|f] n2]; cbn [snd] in *;
    (eapply idle_waits; [exact I|exact W]).
Qed.

(** the end of a call that holds a connection *)
Lemma collect_moves n n1 :
  (settled n1 /\ forall c, moves (phase_of n c) (phase_of n1 c)) ->
  settled (collect (n1 <| n_refs := tail (n_refs n1) |>)) /\
  forall c, moves (phase_of n c) (phase_of (collect (n1 <| n_refs := tail (n_refs n1) |>)) c).
Proof. intros [S M]. split; [apply settled_collect; exact S|exact M]. Qed.

(** what a completion other than that of an accept starts *)
Lemma completes_within op o n0 :
  is_accept op = false -> (op_phase op <> serving -> to_be_closed (op_connection op) n0) ->
  let n1 := (complete_op srv garbage op o n0).2 in
  exists ops, n_pending n1 = n_pending n0 ++ ops /\
    Forall (fun op' => moves (op_phase op) (op_phase op') /\
              (op_phase op' <> serving -> to_be_closed (op_connection op) n1)) ops /\
    (n_kept n1 = n_kept n0 \/ op_phase op = serving).
Proof.
  intros A C. destruct (op_phase op) eqn:E; try (by destruct op).
  - destruct op as [|c| | |]; try done.
    destruct (handshake_completes c o n0) as (ops & P & F & Cl & K); [by apply C|].
    exists ops. split_and!; [done| |by left].
    eapply Forall_impl; [exact F|]. intros [] H; try done. split; [constructor|done].
  - destruct (request_completes op o E n0) as (ops & P & F). exists ops. split_and!; [done| |by right].
    destruct F as [F|[F Cl]]; (eapply Forall_impl; [exact F|]); intros [] H; try done; split; try done; constructor.
  - destruct op as [| | | |ws k]; try done.
    destruct (websocket_completes ws k o n0) as (ops & P & F & Cl & K); [by apply C|].
    exists ops. split_and!; [done| |by left].
    eapply Forall_impl; [exact F|]. intros [] H; try done. split; [constructor|done].
Qed.

(** the state without the operation or writer that is being worked on *)
Lemma without_op before op after n :
  core false [] n -> n_pending n = before ++ op :: after ->
  let n0 := n <| n_pending := before ++ after |> <| n_refs := op_connection op :: n_refs n |> in
  op_connection op ∈ owners n /\ op_connection op ∉ owners n0 /\
  (forall op', op' ∈ n_pending n0 -> op' ∈ n_pending n) /\
  forall c', c' <> op_connection op -> phase_of n0 c' = phase_of n c'.
Proof.
  intros C E. destruct (core_remove_owner (op_connection op) n (n <| n_pending := before ++ after |>))
    as (C0 & F & P); try done.
  { unfold owners. rewrite E. cbn. rewrite !map_app. cbn. solve_Permutation. }
  split_and!; [|exact F| |].
  - unfold owners. rewrite E, map_app. cbn. set_solver.
  - cbn. rewrite E. intros op'. set_solver.
  - intros c' N. apply phase_of_ext; [|done|done]. cbn. rewrite E, !filter_app.
    by rewrite (filter_cons_False _ op) by congruence.
Qed.

Lemma complete_moves before op after o n :
  core false [] n -> settled n -> n_pending n = before ++ op :: after -> is_accept op = false ->
  let n' := (complete srv garbage op o (n <| n_pending := before ++ after |>)).2 in
  settled n' /\ forall c, moves (phase_of n c) (phase_of n' c).
Proof.
  intros C S E A. destruct (without_op before op after n C E) as (O & N & Sub & Oth).
  unfold complete, holding. set (n0 := _ <| n_refs := _ |>).
  change (_ <| n_refs := op_connection op :: n_refs n |>) with n0 in N, Sub, Oth.
  assert (op_phase op <> serving -> to_be_closed (op_connection op) n0) as Cl
    by (intros Ph; apply S; [rewrite E; set_solver|done]).
  destruct (completes_within op o n0 A Cl) as (ops & P & F & K).
  assert (touches (op_connection op) 1 n0 (complete_op srv garbage op o n0).2) as T.
  { apply owns_complete_op; try exact _; [exact A|by destruct op]. }
  rewrite <- (phase_of_op n before op after C E) in F, K.
  assert (phase_of n (op_connection op) <> unborn) as U
    by (rewrite (phase_of_op n before op after C E); by destruct op).
  pose proof (work_moves _ n n0 _ ops C S O N Sub eq_refl eq_refl Oth T P F K U) as M.
  destruct (complete_op srv garbage op o n0) as [r n1]. by apply collect_moves.
Qed.

Lemma unborn_not_owner b refs n : core b refs n -> n_next n ∉ owners n.
Proof. intros C H. apply (core_pooled _ _ _ C), (core_alive _ _ _ C), (core_fresh _ _ _ C) in H. lia. Qed.

(** a connection that is waited for begins its life *)
Lemma waits_moves n n1 :
  n_next n ∉ owners n -> waits n n1 ->
  (forall c, c <> n_next n -> phase_of n1 c = phase_of n c) /\
  moves (phase_of n (n_next n)) (phase_of n1 (n_next n)).
Proof.
  intros N (_ & K & W). unfold owners in N. apply not_elem_of_app in N as [N1 N2].
  assert (phase_of n (n_next n) = unborn) as U.
  { unfold phase_of. rewrite filter_absent, bool_decide_eq_false_2 by done. by rewrite Nat.ltb_irrefl. }
  destruct W as [[P X]|[P X]].
  - assert (forall c, phase_of n1 c = phase_of n c) as E by (intros c; unfold phase_of; by rewrite P, X, K).
    split; [done|]. rewrite E. constructor.
  - split.
    + intros c Nc. apply phase_of_ext; [|by rewrite K|].
      * rewrite P, filter_app. cbn. rewrite decide_False by done. apply app_nil_r.
      * rewrite X. destruct (Nat.ltb_spec c (n_next n)), (Nat.ltb_spec c (S (n_next n))); try done; lia.
    + rewrite U. unfold phase_of. rewrite P, filter_app, filter_absent by done. cbn [app].
      rewrite filter_cons_True by done. constructor.
Qed.

Lemma waits_pending n n1 op :
  n_connections n !! n_next n = None -> waits n n1 -> settled n ->
  op ∈ n_pending n1 -> op_phase op <> serving -> to_be_closed (op_connection op) n.
Proof.
  intros E (_ & _ & W) S I Ph. destruct W as [[P _]|[P _]]; rewrite P in I; [by apply S|].
  apply elem_of_app in I as [I| ->%list_elem_of_singleton]; [by apply S|].
  unfold to_be_closed, connection_at. cbn [op_connection]. by rewrite E.
Qed.

Lemma waits_settled n n1 :
  n_connections n !! n_next n = None -> waits n n1 -> settled n -> settled n1.
Proof. intros E W S op I Ph. apply W. by eapply waits_pending. Qed.

Lemma waits_owner c n n1 : waits n n1 -> c ∉ owners n -> c <> n_next n -> c ∉ owners n1.
Proof.
  intros (_ & K & W) N Nc. unfold owners in *. rewrite K. destruct W as [[-> _]|[-> _]]; [done|].
  apply not_elem_of_app in N as [N1 N2]. rewrite map_app, !not_elem_of_app. split_and!; try done.
  cbn. by intros ->%list_elem_of_singleton.
Qed.

Lemma accepted_connection c ops :
  Forall (is_accepted c) ops -> Forall (fun op => op_connection op = c) ops.
Proof. intros F. eapply Forall_impl; [exact F|]. by intros []. Qed.

Lemma unborn_absent b refs n : core b refs n -> n_connections n !! n_next n = None.
Proof.
  intros C. apply eq_None_not_Some. intros H. apply (core_fresh _ _ _ C) in H. lia.
Qed.

Lemma accept_moves before c after o n :
  core false [] n -> settled n -> n_pending n = before ++ op_accept c :: after ->
  let n' := (complete srv garbage (op_accept c) o (n <| n_pending := before ++ after |>)).2 in
  settled n' /\ forall c', moves (phase_of n c') (phase_of n' c').
Proof.
  intros C S E. destruct (without_op before (op_accept c) after n C E) as (O & N & Sub & Oth).
  pose proof (phase_of_op n before _ after C E) as Ph. cbn [op_connection op_phase] in *.
  unfold complete, holding. cbn [op_connection]. set (n0 := _ <| n_refs := _ |>).
  change (_ <| n_refs := c :: n_refs n |>) with n0 in N, Sub, Oth.
  assert (settled n0) as S0 by (intros op I; exact (S op (Sub op I))).
  assert (to_be_closed c n0) as Cc by (apply (S (op_accept c)); [rewrite E; set_solver|done]).
  assert (c < n_next n)%nat as L by (by apply (core_fresh _ _ _ C), (core_alive _ _ _ C), (core_pooled _ _ _ C)).
  assert (n_next n0 ∉ owners n0) as U.
  { intros H. destruct (decide (n_next n = c)) as [X|X]; [lia|]. apply (unborn_not_owner _ _ _ C).
    unfold owners in *. rewrite E, map_app. subst n0. cbn in *. rewrite map_app in H. set_solver. }
  destruct (accept_completes c o n0 Cc) as (n1 & ops & W & P & F & K & X & Cl).
  destruct (complete_op srv garbage (op_accept c) o n0) as [r nf]. cbn [snd] in *. apply collect_moves.
  destruct (waits_moves n0 n1 U W) as [Wo Wn]. pose proof W as (_ & K1 & W3).
  pose proof (accepted_connection c ops F) as Fc. split.
  - intros op I Pop. apply Cl. rewrite P in I. apply elem_of_app in I as [I|I].
    + apply (waits_pending n0 n1 op (unborn_absent _ _ _ C) W S0 I Pop).
    + rewrite list.Forall_forall in Fc. by rewrite (Fc op I).
  - intros c'. rewrite <- K1, <- (app_nil_r (n_kept n1)) in K.
    assert (c ∉ owners n1) as N1 by (apply (waits_owner c n0 n1 W N); cbn; lia).
    assert (c < n_next nf)%nat as Lf.
    { rewrite X. change (n_next n) with (n_next n0) in L. destruct W3 as [[_ ->]|[_ ->]]; lia. }
    destruct (decide (c' = c)) as [->|Nc].
    + rewrite Ph, (phase_of_new c n1 nf ops []) by done. destruct F as [|[] ops F _]; try done; constructor.
      done.
    + rewrite (phase_of_other c c' n1 nf ops []), <- Oth by done.
      destruct (decide (c' = n_next n0)) as [->|No]; [exact Wn|]. rewrite Wo by done. constructor.
Qed.

(** a writer that user code kept *)
Lemma without_kept before w after n :
  core false [] n -> n_kept n = before ++ w :: after ->
  let n0 := n <| n_kept := before ++ after |> <| n_refs := w_tcp_conn w :: n_refs n |> in
  w_tcp_conn w ∈ owners n /\ w_tcp_conn w ∉ owners n0 /\
  forall c', c' <> w_tcp_conn w -> phase_of n0 c' = phase_of n c'.
Proof.
  intros C E. destruct (core_remove_owner (w_tcp_conn w) n (n <| n_kept := before ++ after |>))
    as (C0 & F & P); try done.
  { unfold owners. rewrite E. cbn. rewrite !map_app. cbn. solve_Permutation. }
  split_and!; [|exact F|].
  - unfold owners. rewrite E, !map_app. cbn. set_solver.
  - intros c' N. apply phase_of_ext; [done| |done]. cbn [n_kept set_field]. rewrite E, !map_app. cbn. set_solver.
Qed.

Lemma kept_moves before w after reply n :
  core false [] n -> settled n -> n_kept n = before ++ w :: after ->
  let n' := collect (holding (w_tcp_conn w) (run_reply (connection_finish srv garbage) reply w)
                       (n <| n_kept := before ++ after |>)).2 in
  settled n' /\ forall c, moves (phase_of n c) (phase_of n' c).
Proof.
  intros C S E. destruct (without_kept before w after n C E) as (O & N & Oth).
  pose proof (phase_of_kept n before w after C E) as Ph.
  unfold holding. set (n0 := _ <| n_refs := _ |>). change (_ <| n_refs := w_tcp_conn w :: n_refs n |>) with n0 in N, Oth.
  destruct (serves_run_reply (connection_finish srv garbage) serves_finish reply w n0) as (ops & P & F).
  destruct (owns_run_reply (connection_finish srv garbage) (owns_connection_finish srv garbage) reply w n0) as [T _].
  assert (Forall (fun op => moves (phase_of n (w_tcp_conn w)) (op_phase op) /\ (op_phase op <> serving ->
            to_be_closed (w_tcp_conn w) (run_reply (connection_finish srv garbage) reply w n0).2)) ops) as F'.
  { rewrite Ph. destruct F as [F|[F Cl]]; (eapply Forall_impl; [exact F|]); intros [] H;
      try done; split; try done; constructor. }
  rewrite Ph in *.
  pose proof (work_moves _ n n0 _ ops C S O N ltac:(done) eq_refl eq_refl Oth T P) as M.
  rewrite Ph in M. specialize (M F' ltac:(by right) ltac:(done)).
  destruct (run_reply _ _ _ n0) as [r n1]. by apply collect_moves.
Qed.

(** ** Every step of the server is a step of the machine *)

Lemma waits_both n n' :
  core false [] n -> settled n -> waits n n' ->
  settled n' /\ forall c, moves (phase_of n c) (phase_of n' c).
Proof.
  intros C S W. split; [by eapply waits_settled; [eapply unborn_absent|..]|]. intros c.
  destruct (waits_moves n n' (unborn_not_owner _ _ _ C) W) as [Wo Wn].
  destruct (decide (c = n_next n)) as [->|N]; [exact Wn|]. rewrite Wo by done. constructor.
Qed.

Lemma idle_both n n' :
  core false [] n -> settled n -> idle_step n n' ->
  settled (collect n') /\ forall c, moves (phase_of n c) (phase_of (collect n') c).
Proof.
  intros C S I. destruct (waits_both n n' C S) as [S' M]; [by eapply idle_waits, waits_refl|].
  split; [by apply settled_collect|exact M].
Qed.

Lemma step_moves n n' :
  core false [] n -> settled n -> net_step srv garbage n n' ->
  settled n' /\ forall c, moves (phase_of n c) (phase_of n' c).
Proof.
  intros C S St. destruct St as [before op after o r n' E _ R _|before w after reply r n' E R _
    |before h after r n' E R|c|bound r n' _ R _|wait r n' R _|r n' R _|fuel path message t ids r n' R _].
  - destruct (is_accept op) eqn:A.
    + destruct op as [c| | | |]; try done. pose proof (accept_moves before c after o n C S E) as M. by rewrite R in M.
    + pose proof (complete_moves before op after o n C S E A) as M. by rewrite R in M.
  - pose proof (kept_moves before w after reply n C S E) as M. by rewrite R in M.
  - pose proof (idles_complete_held h (n <| n_held := before ++ after |>)) as I. unfold complete_held in R.
    destruct (holding _ _ _) as [r1 n1]. injection R as _ <-. by apply idle_both.
  - apply (waits_both n); try done. eapply idle_waits, waits_refl. apply (idle_closed n [c]).
  - pose proof (start_waits bound n) as W. rewrite R in W. apply (waits_both n) in W as [S' M]; try done.
    split; [by apply settled_collect|exact M].
  - pose proof (idles_stop_begin wait n) as I. rewrite R in I. by apply idle_both.
  - pose proof (idles_stop_turn n) as I. rewrite R in I. by apply idle_both.
  - pose proof (idles_broadcast fuel path message t ids n) as I. rewrite R in I. by apply idle_both.
Qed.

Lemma reachable_settled n : reachable srv garbage n -> settled n.
Proof.
  induction 1 as [threads ssl w|n n' R IH St]; [intros op I; by apply not_elem_of_nil in I|].
  eapply step_moves; [by eapply core_reachable|done|done].
Qed.

(** C5: The life of a connection.  A new server has no connection, and every
    step that a running server takes, whatever the peers, the user code and the
    operator do, is for each connection a step of an abstract machine of six
    phases: the connection is accepted, shakes hands if the server speaks TLS,
    is served, and may be upgraded to a websocket; a websocket never goes back
    to requests, and a connection that was released is never used again.  And
    outside of the serving phase a connection is marked to be closed: whoever
    calls [finish] on a websocket releases it. *)
Theorem connection_phases (n n' : net) :
  reachable srv garbage n -> net_step srv garbage n n' ->
  (forall threads ssl w c, phase_of (new_net threads ssl w) c = unborn) /\
  (forall c, moves (phase_of n c) (phase_of n' c)) /\
  (forall op, op ∈ n_pending n -> op_phase op <> serving ->
     current_lifecycle (connection_at n (op_connection op)) = lifecycle_close).
Proof.
  intros R St. split; [done|]. pose proof (reachable_settled n R) as S. split; [|exact S].
  eapply step_moves; [by eapply core_reachable|done|done].
Qed.

(** what follows for the rest of a run *)
Lemma run_moves n n' c :
  reachable srv garbage n -> rtc (net_step srv garbage) n n' -> rtc moves (phase_of n c) (phase_of n' c).
Proof.
  intros R H. revert R. induction H as [n|n n1 n' St H IH]; intros R; [constructor|].
  eapply rtc_l; [|apply IH; by eapply reachable_step].
  eapply step_moves; [by eapply core_reachable|by apply reachable_settled|done].
Qed.

Lemma upgraded_for_good n n' c :
  reachable srv garbage n -> rtc (net_step srv garbage) n n' ->
  (phase_of n c = released -> phase_of n' c = released) /\
  (phase_of n c = upgraded -> phase_of n' c = upgraded \/ phase_of n' c = released).
Proof.
  intros R H. apply (run_moves n n' c R) in H. split; intros E; rewrite E in H.
  - assert (forall p q, rtc moves p q -> p = released -> q = released) as G; [|by eapply G].
    induction 1 as [|p p1 q M _ IH]; [done|]. intros ->. apply IH. by inversion M.
  - assert (forall p q, rtc moves p q -> p = upgraded \/ p = released -> q = upgraded \/ q = released) as G;
      [|by eapply G; [exact H|left]].
    induction 1 as [|p p1 q M _ IH]; [done|]. intros [-> | ->]; apply IH; inversion M; auto.
Qed.

End Phases.

(** ** Examples *)

From S2P Require Import RefUtils.
From S2P Require Import RefServer.
From S2P Require Import ServerTheorems.

(** connection 0 is upgraded by a step; connection 1 goes on waiting *)
Lemma connection_phases_witness :
  phase_of (ref_ws_accepted 2) 0%nat = serving /\ phase_of (ref_ws_upgraded 2) 0%nat = upgraded /\
  phase_of (ref_ws_accepted 2) 2%nat = unborn /\
  moves (phase_of (ref_ws_accepted 2) 1%nat) (phase_of (ref_ws_upgraded 2) 1%nat).
Proof.
  split; [vm_compute; reflexivity|]. split; [vm_compute; reflexivity|]. split; [vm_compute; reflexivity|].
  assert (reachable (ref_ws_server 2) (0, 0) (ref_ws_accepted 2)) as R.
  { unfold ref_ws_accepted. reach_completion ref_started. apply reachable_started. }
  assert (net_step (ref_ws_server 2) (0, 0) (ref_ws_accepted 2) (ref_ws_upgraded 2)) as St.
  { unfold ref_ws_upgraded. reach_step (ref_ws_accepted 2). }
  destruct (connection_phases (ref_ws_server 2) (0, 0) (ref_ws_accepted 2) (ref_ws_upgraded 2) R St)
    as (_ & M & _).
  exact (M 1%nat).
Defined.
