(* ===== verification/EndToEnd.v ===== *)
(** * From a client's requests to the server's answers

    A client prints requests with [http_request] and sends them in one go; the
    server parses each of them as a request with the same contents, and
    answers each of them, in order.  The file composes the round trip of a
    printed request, the parser with the server's hook, the pipeline of a
    connection and the answers of [handle_request]. *)

From S2P Require Import Prelude.
From S2P Require Import Externals.
From S2P Require Import Multimap.
From S2P Require Import Strings.
From S2P Require Import Message.
From S2P Require Import Request.
From S2P Require Import ParserState.
From S2P Require Import BodyParser.
From S2P Require Import Parser.
From S2P Require Import Response.
From S2P Require Import Writer.
From S2P Require Import Routing.
From S2P Require Import Websocket.
From S2P Require Import Connection.
From S2P Require Import Net.
From S2P Require Import Server.
From S2P Require Import HeaderRoundTrip.
From S2P Require Import ParserInv.
From S2P Require Import ContentTheorems.
From S2P Require Import RoutingTheorems.
From S2P Require Import WriterTheorems.
From S2P Require Import ResponseReader.
From S2P Require Import ServerAnswers.
From S2P Require Import ServerSafety.
From S2P Require Import PipelineTheorems.

#[local] Open Scope Z_scope.

Section EndToEnd.
Context `{SU : StaticlibUtils, MP : MultimapPolicy, UC : UserCode, WL : WebsocketLib}.
Context {PL : ParseUintLaw} {UL : UserLaws} {ML : MultimapLaws} {IL : IequalsLaw} {DL : DecimalLaw} {TL : TrimLaw}.
Context (srv : http_server) (garbage : Z * Z).
Hypothesis no_payloads : forall m, payloads srv m = ∅.
Hypothesis garbage_ok : 0 <= garbage.1 < 2 ^ 64 /\ 0 <= garbage.2 < 2 ^ 64.

(** what a client sends for a request that keeps the connection *)
Definition print (r : http_request) : str := concat (request_prepare_buffers true false r).

Definition sent_headers_of (r : http_request) : mmap :=
  m_headers (prepare_headers_for_send true false (req_base r)).

(** the request as the server gets it *)
Record received_as (r q : http_request) : Prop := mk_received_as {
  ra_valid : m_is_valid (req_base q) = true;
  ra_method : req_method q = req_method r;
  ra_resource : req_resource q = req_resource r;
  ra_query : req_query_string q = req_query_string r;
  ra_major : m_version_major (req_base q) = m_version_major (req_base r);
  ra_minor : m_version_minor (req_base q) = m_version_minor (req_base r);
  ra_headers : m_headers (req_base q) ≡ₚ sent_headers_of r;
}.

(** a request without content, of HTTP/1.1 or later, that does not wait for
    "100 Continue" *)
Record sendable (r : http_request) : Prop := mk_sendable {
  sd_printable : printable r (sent_headers_of r);
  sd_length : m_content_length (req_base r) = 0;
  sd_method : exists m, select_map (req_method r) = Val m;
  sd_expect : equal_range (m_headers (req_base r)) (bs "Expect") = [];
  sd_version : 1 < m_version_major (req_base r) \/
    m_version_major (req_base r) = 1 /\ 1 <= m_version_minor (req_base r);
}.

(** without payload handlers the server's hook leaves such a request alone *)
Lemma server_hook_passes c (r : http_request) p m :
  sendable r -> m_method p = req_method r -> m_resource p = req_resource r ->
  m_headers m ≡ₚ sent_headers_of r ->
  passes (handle_request_after_headers_parsed srv c) p m ttrue.
Proof using no_payloads ML IL.
  intros [Pr _ [mm Sm] Ex _] Em _ Hp req ec w Eh Er _.
  assert (get_header (req_base req) (bs "Expect") = []) as G.
  { unfold get_header, get_value. rewrite (find_absent _ (sent_headers_of r)); [done|by rewrite Eh|].
    apply Permutation_nil_r. rewrite <- Ex.
    apply sent_other; [apply Pr|apply iequals_no..]; vm_compute; discriminate. }
  unfold handle_request_after_headers_parsed. destruct (_ || _); [done|].
  rewrite G, Er, Em, Sm, no_payloads.
  assert (iequals (bs "100-continue") [] = false) as ->
    by (apply (iequals_no _ []); vm_compute; discriminate).
  by rewrite find_submatch_none by (intros k _; apply lookup_empty).
Qed.

(** a printed request is parsed by a fresh reader *)
Lemma print_parses c ip r rest :
  sendable r -> parses_as srv garbage received_as c ip (print r ++ rest) r rest.
Proof.
  intros Sr w. pose proof Sr as [Pr Len _ _ _].
  assert (parse_inv (mk_pstate (set_read_buffer (print r ++ [] ++ rest) (new_parser garbage.1 garbage.2 1))
    (rd_request (new_reader garbage c ip)) no_error w)) as PI.
  { by constructor. }
  destruct (printed_received (handle_request_after_headers_parsed srv c) r [] rest true
    garbage.1 garbage.2 1 (rd_request (new_reader garbage c ip)) w Pr) as (p & m & s & E & R & Em);
    try done.
  { intros p m Em Er Hp. by apply (server_hook_passes c r). }
  exists s. split; [exact E|]. destruct Em as (E1 & E2 & E3 & E4 & E5 & Hp).
  destruct R as [Rc _ V _]. pose proof (rcv_headers _ _ _ _ _ Rc) as Eh. destruct Rc.
  split; [constructor; try congruence; by rewrite Eh|].
  injection rcv_world as -> ->. by split_and!.
Qed.

Lemma sent_connection r :
  m_do_not_send_content_length (req_base r) = false ->
  exists k, equal_range (sent_headers_of r) HEADER_CONNECTION = [(k, bs "Keep-Alive")].
Proof.
  intros H. unfold sent_headers_of, prepare_headers_for_send.
  cbn [m_do_not_send_content_length change_header set_field].
  rewrite H. cbn [negb change_header set_field m_headers m_content_length].
  destruct (change_value_range (m_headers (req_base r)) HEADER_CONNECTION (bs "Keep-Alive")) as (k & _ & E).
  exists k. apply Permutation_singleton_r. rewrite <- E.
  apply change_value_range_ne, iequals_no. vm_compute. discriminate.
Qed.

Lemma received_keeps r q : sendable r -> received_as r q -> check_keep_alive (req_base q) = true.
Proof.
  intros [Pr _ _ _ Ve] [_ _ _ _ Mj Mn Hh]. unfold check_keep_alive.
  destruct (sent_connection r (pr_length _ _ Pr)) as (k & E).
  assert (get_header (req_base q) HEADER_CONNECTION = bs "Keep-Alive") as ->.
  { unfold get_header, get_value. by rewrite (find_unique _ _ _ _ _ Hh E). }
  change (negb (str_eqb (bs "Keep-Alive") (bs "close"))) with true. cbn [andb]. lia.
Qed.

(** several printed requests in one read *)
Lemma print_requests c ip rs :
  rs <> [] -> Forall sendable rs ->
  requests_in srv garbage received_as c ip (concat (map print rs)) rs.
Proof.
  intros N F. induction F as [|r rs Sr F IH]; [done|]. cbn [map concat]. destruct rs as [|r' rs].
  - apply requests_one. by apply print_parses.
  - eapply requests_more; [by apply print_parses| |by intros q'; apply received_keeps|by apply IH].
    apply Forall_cons_iff in F as [Sr' _]. intros E. apply app_nil in E as [E _].
    pose proof (request_head_bytes r' true false (pr_line _ _ (sd_printable _ Sr'))) as B.
    unfold print in E. rewrite E in B. apply (f_equal length) in B. rewrite !length_app in B.
    change (length STRING_CRLF) with 2%nat in B. cbn [length] in B. lia.
Qed.

(** a request that does not ask for an upgrade is looked up as it was sent *)
Lemma received_looked_up m r q :
  sendable r -> equal_range (m_headers (req_base r)) (bs "Upgrade") = [] ->
  req_method r <> REQUEST_METHOD_OPTIONS -> select_map (req_method r) = Val m ->
  received_as r q -> looked_up m q.
Proof.
  intros [Pr _ _ _ _] U N Sm [V Em _ _ _ _ Hh]. split; [done| |congruence|congruence].
  unfold is_websocket_upgrade, has_header_value.
  assert (equal_range (m_headers (req_base q)) (bs "Upgrade") = []) as ->; [|done].
  apply Permutation_nil_r. rewrite <- U. rewrite (equal_range_perm _ _ _ Hh).
  apply sent_other; [apply Pr|apply iequals_no..]; vm_compute; discriminate.
Qed.

(** ** What the client reads *)

(** the writer of a handler as [send] finds it *)
Definition written (h : request_handler) (c : nat) (q : http_request) u : http_response_writer :=
  fold_left run_writer_call (wr_calls (run_request_handler h q (new_writer c q) u).1) (new_writer c q).

(** a handler that is called for the request leaves a message that can be told
    from what follows it: headers without line breaks and colons in their
    names, no transfer coding and no length set by hand *)
Definition answers_well (c : nat) (q : http_request) : Prop :=
  forall m path h u,
    find_submatch (handlers srv m) (strip_trailing_slash (req_resource q))
      = Val (Some (path, user_request_handler h)) -> ready_writer (written h c q u).

(** the answer as the client reads it *)
Inductive seen_answer (c : nat) (q : http_request) (s : response_seen) : Prop :=
| seen_not_found :
  seen_line s = answer_line q RESPONSE_CODE_NOT_FOUND RESPONSE_MESSAGE_NOT_FOUND ->
  seen_body s = NOT_FOUND_MSG_START ++ quoted (req_resource q) ++ NOT_FOUND_MSG_FINISH ->
  seen_answer c q s
| seen_handler m path h u keep_alive :
  find_submatch (handlers srv m) (strip_trailing_slash (req_resource q))
    = Val (Some (path, user_request_handler h)) ->
  seen_as keep_alive (written h c q u) (concat (content_buffers (written h c q u))) s ->
  seen_answer c q s.

Lemma answer_is_read c q b :
  answer_of srv c q b -> answers_well c q ->
  exists s, seen_answer c q s /\ forall rest, read_response (b ++ rest) = Some (s, rest).
Proof.
  intros [ka [_ (s & L & B & _ & R)]|m path h ka u F ->] W.
  - exists s. split; [by apply seen_not_found|done].
  - destruct (read_ready (written h c q u) ka (W _ _ _ _ F)) as (s & S & R).
    exists s. split; [by eapply seen_handler|done].
Qed.

Lemma answers_are_read c (rs : list http_request) bytes :
  Forall2 (fun r b => exists q, received_as r q /\ answer_of srv c q b) rs bytes ->
  Forall (fun r => forall q, received_as r q -> answers_well c q) rs ->
  exists seen, read_responses (length rs) (concat bytes) = Some (seen, []) /\
    Forall2 (fun r s => exists q, received_as r q /\ seen_answer c q s) rs seen.
Proof.
  induction 1 as [|r b rs bytes (q & Rq & A) _ IH]; intros W; [by exists []|].
  apply Forall_cons_iff in W as [W Ws]. destruct (IH Ws) as (seen & E & F).
  destruct (answer_is_read c q b A (W q Rq)) as (s & S & R).
  exists (s :: seen). split; [|constructor; [by exists q|done]].
  cbn [concat length read_responses]. rewrite R. cbn [mbind option_bind]. by rewrite E.
Qed.

(** C2: From the client to the server and back.  A client prints any number of
    requests without content and sends them at once on an open connection of a
    listening server that has no payload handlers; each of them is for a
    resource without a handler or for a handler that sends its writer.  Then
    the server takes each for a valid request with the same method, resource,
    query string, version and headers, and gives the connection, without
    another read, exactly one answer for each of them, in order: "404 Not
    Found" with the resource, or what the handler wrote.  When the handlers'
    messages can be delimited, a reader of the bytes on the connection gets as
    many responses as there were requests and nothing else: the status line,
    the headers and the content of each answer, in order. *)
Theorem client_server (c : nat) (ip : Z) (rs : list http_request) (pend : list async_op)
    (conn : tcp_connection) (n : net) :
  rs <> [] -> Forall sendable rs ->
  Forall (fun r => forall q, received_as r q -> served srv q) rs ->
  n_pending n = pend ++ [op_read (new_reader garbage c ip)] ->
  n_connections n !! c = Some conn -> is_open conn = true -> remote_ip conn = ip ->
  n_mutex n = false -> n_listening n = true ->
  exists n1 n' bytes,
    complete_last srv garbage (inr (concat (map print rs))) n = (Val tt, n1) /\
    complete_writes srv garbage (length rs - 1) n1 = (Val tt, n') /\
    sw_sent (n_world n') = sw_sent (n_world n) ++ map (pair c) bytes /\
    Forall2 (fun r b => exists q, received_as r q /\ answer_of srv c q b) rs bytes /\
    (Forall (fun r => forall q, received_as r q -> answers_well c q) rs ->
     exists seen, read_responses (length rs) (concat bytes) = Some (seen, []) /\
       Forall2 (fun r s => exists q, received_as r q /\ seen_answer c q s) rs seen).
Proof.
  intros N F Sv E C O I M L.
  destruct (pipeline_answers srv garbage received_as c ip
    (fun r b => exists q, received_as r q /\ answer_of srv c q b) (concat (map print rs)) rs pend conn n)
    as (n1 & n' & E1 & E2 & (bytes & Fb & S) & _); try done.
  { by apply print_requests. }
  { eapply Forall_impl; [exact Sv|]. intros r H. by apply served_answered. }
  exists n1, n', bytes. split_and!; try done. by apply answers_are_read.
Qed.

End EndToEnd.

(** ** Examples *)

From S2P Require Import RefUtils.
From S2P Require Import RefServer.

(** a request for a resource with a handler and one for another resource *)
Definition ref_ask (resource : str) : http_request (PE := server_payload_env) :=
  on_base (add_header (bs "Host") (bs "example.org"))
    (set_resource resource (set_method (bs "GET") (new_request false))).

Definition ref_asked : list (http_request (PE := server_payload_env)) := [ref_ask (bs "/a/b"); ref_ask (bs "/c")].

Lemma ref_ask_sendable resource :
  forallb is_path_char resource && (slen resource <=? RESOURCE_MAX) = true -> sendable (ref_ask resource).
Proof.
  intros [P L]%andb_true_iff. apply mk_sendable; [|done|by exists get_map|by vm_compute|by right].
  constructor.
  - reflexivity.
  - reflexivity.
  - split; [discriminate|]. split; [apply all_of_forallb|]; vm_compute; done.
  - split; [by apply all_of_forallb|cbn; lia].
  - split; [apply all_of_forallb|]; vm_compute; done.
  - cbn. lia.
  - cbn. lia.
  - apply Forall_named_b. vm_compute. reflexivity.
  - vm_compute. reflexivity.
  - vm_compute. constructor.
Qed.

Lemma ref_ask_served resource q :
  sendable (ref_ask resource) -> received_as (ref_ask resource) q ->
  resource = bs "/a/b" \/ resource = bs "/c" -> served ref_server q.
Proof.
  intros Sr R E. assert (looked_up get_map q) as Lu by by apply (received_looked_up get_map (ref_ask resource)).
  pose proof (ra_resource _ _ R) as Er. cbn in Er. destruct E as [->| ->].
  - apply (served_handler _ _ get_map (bs "/a") (1%nat : request_handler (HandlerTypes := sample_handler_types))); [done| |done].
    rewrite Er. vm_compute. reflexivity.
  - apply (served_not_found _ _ get_map); [done|done| | |].
    + rewrite (ra_method _ _ R). discriminate.
    + rewrite Er. done.
    + rewrite Er. by apply ref_not_registered.
Qed.

(** the handler of "/a" answers every request well *)
Lemma ref_answers_well c q : answers_well ref_server c q.
Proof.
  intros m path h u F. pose proof (find_submatch_spec (handlers ref_server m)
    (strip_trailing_slash (req_resource q))) as S. rewrite F in S. destruct S as (_ & S & _).
  assert (h = (1%nat : request_handler (HandlerTypes := sample_handler_types))) as ->.
  { assert (handlers ref_server m = match m with get_map => {[ bs "/a" := sample_handler ]} | _ => ∅ end) as E
      by (destruct m; vm_compute; reflexivity).
    rewrite E in S. destruct m; try (by rewrite lookup_empty in S).
    apply lookup_singleton_Some in S as [_ S]. by injection S. }
  unfold written. apply (write_ready (bs "hello")); [|apply new_writer_ready].
  by vm_compute.
Qed.

Lemma client_server_witness :
  exists n1 n' bytes,
    complete_last ref_server (0, 0) (inr (concat (map print ref_asked))) ref_accepted = (Val tt, n1) /\
    complete_writes ref_server (0, 0) 1 n1 = (Val tt, n') /\
    sw_sent (n_world n') = map (pair 0%nat) bytes /\
    exists seen, read_responses 2 (concat bytes) = Some (seen, []) /\
      Forall2 (fun r s => exists q, received_as r q /\ seen_answer ref_server 0 q s) ref_asked seen.
Proof.
  assert (forall m, payloads ref_server m = ∅) as Np by (intros []; vm_compute; reflexivity).
  assert (0 <= (0, 0).1 < 2 ^ 64 /\ 0 <= (0, 0).2 < 2 ^ 64) as G by done.
  assert (ref_asked <> []) as N by discriminate.
  assert (Forall sendable ref_asked) as F
    by (constructor; [|constructor; [|constructor]]; apply ref_ask_sendable; vm_compute; reflexivity).
  assert (Forall (fun r => forall q, received_as r q -> served ref_server q) ref_asked) as Sv.
  { pose proof (ref_ask_sendable (bs "/a/b") eq_refl) as S1. pose proof (ref_ask_sendable (bs "/c") eq_refl) as S2.
    constructor; [|constructor; [|constructor]]; intros q R.
    - by apply (ref_ask_served (bs "/a/b")); [| |left].
    - by apply (ref_ask_served (bs "/c")); [| |right]. }
  assert (n_pending ref_accepted = [op_accept 1] ++ [op_read (new_reader (0, 0) 0 0)]) as P
    by (vm_compute; reflexivity).
  assert (n_connections ref_accepted !! 0%nat = Some (connection_at ref_accepted 0)) as C
    by (vm_compute; reflexivity).
  assert (is_open (connection_at ref_accepted 0) = true) as O by (vm_compute; reflexivity).
  assert (remote_ip (connection_at ref_accepted 0) = 0) as I by (vm_compute; reflexivity).
  assert (n_mutex ref_accepted = false) as M by (vm_compute; reflexivity).
  assert (n_listening ref_accepted = true) as L by (vm_compute; reflexivity).
  destruct (client_server ref_server (0, 0) Np G
    0 0 ref_asked [op_accept 1] (connection_at ref_accepted 0) ref_accepted N F Sv P C O I M L)
    as (n1 & n' & bytes & E1 & E2 & E3 & _ & B).
  exists n1, n', bytes. split; [exact E1|]. split; [exact E2|]. split; [exact E3|].
  apply B. constructor; [|constructor; [|constructor]]; intros q _; apply ref_answers_well.
Defined.
